(* ===== verification/_CoqProject ===== *)
-Q . S2P
Prelude.v
BTree.v
Types.v
Errors.v
Fixed.v
Preimage.v
Currencies.v
Ledgers.v
MarketCommons.v
Fees.v
Disputes.v
CourtTypes.v
Court.v
CourtSteps.v
CourtDraws.v
CourtVotes.v
CourtPools.v
CourtRounds.v
CourtExample.v
Authorized.v
SimpleDisputes.v
GlobalDisputes.v
SwapsMath.v
Swaps.v
SwapsPools.v
SwapsTrades.v
SwapsDrain.v
SwapsExample.v
FixedDecimal.v
NeoMath.v
LiquidityTree.v
LiquidityShares.v
LiquidityAccrual.v
NeoSwaps.v
NeoPools.v
Parimutuel.v
Orderbook.v
Migrations.v
PredictionMarkets.v
Runtime.v
CompleteSets.v
NeoMarkets.v
MarketLife.v
MarketFrames.v
CallFilters.v
CourtMarkets.v
Styx.v
LiquidityMining.v
LiquidityMiningSteps.v
LiquidityMiningBlock.v
Rikiddo.v
RikiddoTheorems.v
TxFees.v
