(* ===== verification/Prelude.v ===== *)
(** * A verification library for the Zeitgeist prediction-market runtime

    Zeitgeist is a Substrate chain for prediction markets. This library models its
    pallets - the modules of the chain's state transition function - as Rocq functions
    translated from the Rust code below [src/], and proves what they promise. Results are
    values of [result], storage is threaded through the monad [M] of this file, integers
    are [Z] with the width of the code written where an operation depends on it
    ([u128_max], [u64_max], [u32_max], saturating and checked operations), storage maps
    are stdpp's [gmap], ordered maps are ordered lists ([BTree]).

    ** The program and the files

    The life of a market. A market is created, perhaps approved, trades until it closes,
    is reported by its oracle, perhaps disputed, and resolved; then its outcome tokens
    are redeemed.
    - [Types], [Errors], [Fixed], [FixedDecimal]: [primitives/src] - assets, markets, bonds, checked and
      fixed point arithmetic, and its conversion to the binary numbers of a crate.
    - [Currencies], [Ledgers]: the traits of the currency pallets as classes with laws,
      and ledgers that meet the laws.
    - [MarketCommons] ([zrml/market-commons]): the storage of markets, behind the class
      [MarketCommonsPalletApi] that every other pallet is written against.
    - [PredictionMarkets] ([zrml/prediction-markets]): every call and the block hook, over
      the classes of the dispute mechanisms, global disputes, liquidity mining and pool
      deployment. [Runtime] instantiates it for runs. [CompleteSets] proves that outcome tokens
      are backed and redeemed, [MarketLife] how markets evolve; [MarketFrames] walks through the
      calls for relations that do not see most of what they do.
    Disputes.
    - [Disputes]: the interfaces [DisputeApi] and [DisputeResolutionApi] and the schedule of resolutions.
    - [Authorized], [SimpleDisputes] ([zrml/authorized], [zrml/simple-disputes]): an authority
      decides; suggestions against growing bonds decide.
    - [CourtTypes], [Court], [CourtSteps] ([zrml/court]): the court, its calls and hooks;
      [CourtDraws], [CourtVotes], [CourtPools], [CourtRounds], [CourtExample] its theorems; [CourtMarkets]
      plugs it into the prediction markets pallet and runs both on one chain.
    - [GlobalDisputes] ([zrml/global-disputes]): token holders vote when a mechanism fails.
    Trading.
    - [Parimutuel], [Orderbook] ([zrml/parimutuel], [zrml/orderbook]), with [Fees]: the external fee.
    - [NeoMath], [LiquidityTree], [LiquidityShares], [LiquidityAccrual], [NeoSwaps], [NeoPools] ([zrml/neo-swaps]): the
      automated market maker, the tree of its liquidity providers, the contract of such a
      manager, the fees that wait for a provider, and solvency.
      [NeoMarkets] composes it with [PredictionMarkets].
    - [SwapsMath], [Swaps] ([zrml/swaps]): pools of weighted assets; [SwapsPools], [SwapsTrades], [SwapsDrain],
      [SwapsExample] their theorems.
    - [Rikiddo], [RikiddoTheorems] ([zrml/rikiddo]): the market maker whose liquidity follows the volume.
    - [LiquidityMining], [LiquidityMiningSteps], [LiquidityMiningBlock] ([zrml/liquidity-mining]): incentives for
      buyers, their budget, and the end of a block entry by entry.
    The chain.
    - [Styx] ([zrml/styx]); [TxFees] ([runtime/common/src/fees.rs], [xcm_config/fees.rs]): fees in foreign assets;
      [CallFilters] ([runtime]): which calls the chains, contracts and proxies may make;
      [Migrations]: the five migrations of the storage; [Preimage] ([primitives/src/math/root.rs]): bisection.

    In each file the state is a record of the storage items the code declares, an
    operation is a function of the same name, with its guards in the order of the code
    and every call that changes state; an extrinsic is [transactional], since Substrate
    rolls back what a failed extrinsic wrote. Operations a pallet calls in another one go
    through a class; the theorems of the client use only the laws of the class, and the
    theorems of the implementation discharge them ([AssetManagerLaws], [CurrencyLaws], [MarketCommonsLaws],
    [DisputeResolutionLaws], [OwnSchedule], [GlobalDisputesLaws], [DistributeFeesLaws], [CompleteSetLaws],
    [Implements]).

    ** What is shown

    - Funds: complete sets are collateralised and redemption does not run dry
      ([CompleteSets]); pools hold their reserves and the fees they owe ([NeoPools], [LiquidityTree]); orders
      ([Orderbook]), suggestions ([SimpleDisputes]) and the pot of a parimutuel market ([Parimutuel]) are funded; open pools of
      the swaps pallet are not drained ([SwapsDrain]); incentives stay within the grant of the blocks, and
      exceed it by what rounding the periods of markets gives and no more ([LiquidityMiningSteps]); nobody gains by joining and leaving a pool ([NeoPools]); a fee that was withdrawn
      can be settled, also when the ledger refuses the refund ([TxFees]).
    - Composition: no disputed market is forgotten by the court and the schedule, whatever runs on
      the chain, and it is resolved when its court ends ([CourtMarkets]); the theorems of the automated
      market maker hold over the complete sets of the markets ([NeoMarkets]).
    - Invariants: the life cycle of markets and fresh identifiers ([MarketLife], [MarketCommons]); the pool of
      the court and its participants ([CourtPools]), votes that match their commitments ([CourtVotes]);
      the cached winner of a vote is the maximum ([GlobalDisputes]); the composition of pools
      ([SwapsPools]); no market uses simple disputes, but for the call the filters forget ([CallFilters]).
    - Effects of single calls on every balance they touch: redemption, trades, joins, claims,
      settlements; that a claim, a redemption or a purge succeeds; exact answers of queries.
    - Refinement: the liquidity tree, and the manager of a single provider that it
      replaced, implement one contract ([LiquidityShares]); the migration from one to the other
      keeps the promises made and pays the fees that had accrued ([Migrations]). The loops of a block's end
      over hashed storage settle every entry by itself ([LiquidityMiningBlock]).
    - Arithmetic: decimal conversion rounds correctly and is inverted; the power series
      returns and stays in range ([SwapsMath]); averages stay, up to rounding, within what they average ([RikiddoTheorems]); bisection
      brackets a crossing ([Preimage]); drawing jurors counts sections of stake ([CourtDraws]).
    Behaviour of the code that differs from its comments or its apparent intent is
    stated as examples that compute, next to the component.

    ** Bounds and fuel

    Recursion of the code that is not structural has fuel that is shown to suffice, or
    that is the code's own bound: [path_to_node] takes the depth of the tree plus one, as the code
    does, and never exhausts it; [bpow_approx] runs at most its 100 iterations and
    [bpow_approx_total] shows that they are enough for the bases it accepts; whole powers square at
    most 128 times, the width of the exponent; decimal printing uses 39 digits, those of
    a 128-bit number; binary searches take the length of the list plus one; [calc_preimage] takes
    the number of iterations it is given. Purging a vote takes as many calls as the code's
    limit on keys per call makes necessary, and terminates ([purge_completes]).

    ** Parameters

    Code outside the repository is a parameter: the currency pallets (classes of
    [Currencies]); the binary fixed point crates with their exponential and
    logarithm ([FixedType], [Fixed], [Transcendental]); hashing, the random generator and Perquintill in the court ([CourtConfig]); the order in which a
    hashed map is iterated; rounding of Perbill and Percent; derivation of accounts. Hypotheses on
    them are documented behaviour, and the examples instantiate them. Accounts are
    opaque identifiers; where the code orders them the order is that of [Z].

    ** Not modelled

    - Weights: return values that price a call; they do not touch the state. Logs.
    - The reaping of accounts below the existential deposit by the currency pallets,
      which the laws of [Currencies] leave out.
    - [debug_assert]: absent from a release build; the ones of interest are definitions of
      their own ([check_values_asserts]).
    - Encoding of values in storage (SCALE, [MaxEncodedLen]) beyond the bounds of vectors.
    - Storages marked deprecated, except in the migrations that empty them. A bounded
      removal [clear(u32::MAX)] removes everything.
    - Configuration of pallets of other repositories, XCM, benchmarks, mocks, the node
      and RPC: glue around code that is not in the repository. *)
From stdpp Require Export base tactics list gmap fin_maps strings numbers sorting.
From Stdlib Require Export ZArith Lia.

#[export] Set Default Goal Selector "!".
#[export] Set Warnings "-clear-no-such-hyp".
Open Scope Z_scope.

Declare Scope zg_scope.
Delimit Scope zg_scope with zg.
Open Scope zg_scope.

(** The option-valued [last] and the set-theoretic [Forall_forall] of stdpp. *)
Abbreviation last := list.last.
Abbreviation Forall_forall := list.Forall_forall.

(** ** Results and the storage monad *)

(** Rust's [Result], error type first so that [result E] is a functor. *)
Inductive result (E A : Type) : Type :=
| Ok (a : A)
| Err (e : E).
Arguments Ok {E A} a.
Arguments Err {E A} & e.

#[export] Instance result_eq_dec {E A} `{EqDecision E, EqDecision A} : EqDecision (result E A).
Proof. solve_decision. Defined.

#[export] Instance result_ret {E} : MRet (result E) := λ A a, Ok a.
#[export] Instance result_bind {E} : MBind (result E) := λ A B k m,
  match m with Ok a => k a | Err e => Err e end.

(** Storage computations: the state is threaded through errors as well, since a
    caller that handles an error keeps what the callee wrote; the rollback of an
    extrinsic is [transactional]. *)
Definition M (E S A : Type) : Type := S → result E A * S.

#[export] Instance M_ret {E S} : MRet (M E S) := λ A a s, (Ok a, s).
#[export] Instance M_bind {E S} : MBind (M E S) := λ A B k m s,
  match m s with
  | (Ok a, s') => k a s'
  | (Err e, s') => (Err e, s')
  end.

Section Operations.
Context {E S : Type}.

Definition fail {A} (e : E) : M E S A := λ s, (Err e, s).
Definition lift {A} (r : result E A) : M E S A := λ s, (r, s).
Definition gets {A} (f : S → A) : M E S A := λ s, (Ok (f s), s).
Definition modify (f : S → S) : M E S unit := λ s, (Ok tt, f s).
Definition ensure (b : bool) (e : E) : M E S unit := λ s,
  if b then (Ok tt, s) else (Err e, s).
(** [opt.ok_or(e)?] *)
Definition ok_or {A} (o : option A) (e : E) : M E S A := λ s,
  match o with Some a => (Ok a, s) | None => (Err e, s) end.
(** [let res = m;]: the error becomes a value, the writes stay. *)
Definition attempt {A} (m : M E S A) : M E S (result E A) := λ s,
  let '(r, s') := m s in (Ok r, s').
(** [#[transactional]]: an error undoes every write. *)
Definition transactional {A} (m : M E S A) : M E S A := λ s,
  match m s with
  | (Ok a, s') => (Ok a, s')
  | (Err e, _) => (Err e, s)
  end.
(** Run a computation on a part of the state. *)
Definition zoom {T A} (get : S → T) (put : T → S → S) (m : M E T A) : M E S A := λ s,
  let '(r, t) := m (get s) in (r, put t s).
(** A computation that cannot fail. *)
Definition infallible {A} (f : S → A * S) : M E S A := λ s, let '(a, s') := f s in (Ok a, s').
Fixpoint for_each {A} (f : A → M E S unit) (l : list A) : M E S unit :=
  match l with
  | [] => mret tt
  | x :: l' => _ ← f x; for_each f l'
  end.
End Operations.

(** A pure [ensure!] and [ok_or] in [result]. *)
Definition ensureR {E} (b : bool) (e : E) : result E unit := if b then Ok tt else Err e.
Definition ok_orR {E A} (o : option A) (e : E) : result E A :=
  match o with Some a => Ok a | None => Err e end.
Definition is_ok {E A} (r : result E A) : bool := match r with Ok _ => true | Err _ => false end.

(** ** Inversion of successful runs *)
Section Inversion.
Context {E S : Type}.

Lemma bind_ok_inv {A B} (m : M E S A) (k : A → M E S B) s b s' :
  (m ≫= k) s = (Ok b, s') → ∃ a s1, m s = (Ok a, s1) ∧ k a s1 = (Ok b, s').
Proof. unfold mbind, M_bind. destruct (m s) as [[a|e] s1]; naive_solver. Qed.

Lemma bind_ok {A B} (m : M E S A) (k : A → M E S B) s a s1 :
  m s = (Ok a, s1) → (m ≫= k) s = k a s1.
Proof. unfold mbind, M_bind. by intros ->. Qed.

Lemma bind_err {A B} (m : M E S A) (k : A → M E S B) s e s1 :
  m s = (Err e, s1) → (m ≫= k) s = (Err e, s1).
Proof. unfold mbind, M_bind. by intros ->. Qed.

Lemma ret_ok_inv {A} (a b : A) (s s' : S) :
  (mret a : M E S A) s = (Ok b, s') → a = b ∧ s = s'.
Proof. unfold mret, M_ret. naive_solver. Qed.

Lemma ensure_ok_inv b (e : E) (s s' : S) u :
  ensure b e s = (Ok u, s') → b = true ∧ s' = s.
Proof. unfold ensure. destruct b; naive_solver. Qed.

Lemma lift_ok_inv {A} (r : result E A) (s s' : S) a :
  lift r s = (Ok a, s') → r = Ok a ∧ s' = s.
Proof. unfold lift. naive_solver. Qed.

Lemma gets_ok_inv {A} (f : S → A) (s s' : S) a :
  (gets f : M E S A) s = (Ok a, s') → a = f s ∧ s' = s.
Proof. unfold gets. naive_solver. Qed.

Lemma modify_ok_inv (f : S → S) (s s' : S) u :
  (modify f : M E S unit) s = (Ok u, s') → s' = f s.
Proof. unfold modify. naive_solver. Qed.

Lemma ok_or_ok_inv {A} (o : option A) (e : E) (s s' : S) a :
  ok_or o e s = (Ok a, s') → o = Some a ∧ s' = s.
Proof. unfold ok_or. destruct o; naive_solver. Qed.

Lemma zoom_ok_inv {T A} (get : S → T) (put : T → S → S) (m : M E T A) s s' a :
  zoom get put m s = (Ok a, s') → ∃ t, m (get s) = (Ok a, t) ∧ s' = put t s.
Proof. unfold zoom. destruct (m (get s)) as [[]]; naive_solver. Qed.

Lemma fail_ok_inv {A} (e : E) (s s' : S) (a : A) : fail e s = (Ok a, s') → False.
Proof. unfold fail. naive_solver. Qed.

Lemma transactional_ok_inv {A} (m : M E S A) s s' a :
  transactional m s = (Ok a, s') → m s = (Ok a, s').
Proof. unfold transactional. destruct (m s) as [[]]; naive_solver. Qed.

(** An extrinsic that fails leaves the storage as it was. *)
Lemma transactional_err {A} (m : M E S A) s s' e :
  transactional m s = (Err e, s') → s' = s.
Proof. unfold transactional. destruct (m s) as [[]]; naive_solver. Qed.

Lemma infallible_ok_inv {A} (f : S → A * S) s s' a :
  (infallible f : M E S A) s = (Ok a, s') → f s = (a, s').
Proof. unfold infallible. destruct (f s); naive_solver. Qed.

Lemma attempt_ok_inv {A} (m : M E S A) s s' r :
  attempt m s = (Ok r, s') → m s = (r, s').
Proof. unfold attempt. destruct (m s) as [[]]; naive_solver. Qed.

(** A reflexive and transitive relation that every round respects relates the
    ends of the loop. *)
Lemma for_each_rel {A} (P : S → S → Prop) `{!PreOrder P} (f : A → M E S unit) l s s' u :
  (∀ x t t' v, x ∈ l → f x t = (Ok v, t') → P t t') →
  for_each f l s = (Ok u, s') → P s s'.
Proof.
  revert s. induction l as [|x l IH]; intros s Hf Hl; cbn in Hl.
  - injection Hl as _ <-. reflexivity.
  - apply bind_ok_inv in Hl as (v & s1 & Hx & Hl). transitivity s1.
    + apply (Hf x s s1 v); [by left|done].
    + apply IH; [|done]. intros y t t' w Hy. apply Hf. by right.
Qed.
End Inversion.

Section ResultInversion.
Context {E : Type}.
Lemma bindR_ok_inv {A B} (m : result E A) (k : A → result E B) b :
  (m ≫= k) = Ok b → ∃ a, m = Ok a ∧ k a = Ok b.
Proof. destruct m; cbn; naive_solver. Qed.
Lemma bindR_ok {A B} (m : result E A) (k : A → result E B) x : m = Ok x → (m ≫= k) = k x.
Proof. by intros ->. Qed.
Lemma ensureR_ok_inv b (e : E) u : ensureR b e = Ok u → b = true.
Proof. destruct b; naive_solver. Qed.
Lemma ok_orR_ok_inv {A} (o : option A) (e : E) a : ok_orR o e = Ok a → o = Some a.
Proof. destruct o; naive_solver. Qed.
End ResultInversion.

(** [run_inv H] decomposes a hypothesis [H : m s = (Ok a, s')] about a storage
    computation (or [H : r = Ok a]) into one hypothesis per primitive step. *)
Ltac subst_eq H :=
  lazymatch type of H with
  | ?x = _ => first [is_var x; subst x | simplify_eq H]
  end.
Ltac run_inv1 H :=
  lazymatch type of H with
  | mbind (M := M _ _) _ _ _ = (Ok _, _) =>
      let a := fresh "a" in let s := fresh "s" in let Hm := fresh "Hm" in
      apply bind_ok_inv in H as (a & s & Hm & H); run_inv1 Hm; run_inv1 H
  | mbind (M := result _) _ _ = Ok _ =>
      let a := fresh "a" in let Hm := fresh "Hm" in
      apply bindR_ok_inv in H as (a & Hm & H); run_inv1 Hm; run_inv1 H
  | mret (M := M _ _) _ _ = (Ok _, _) =>
      apply ret_ok_inv in H as [? ?]; simplify_eq
  | ensure _ _ _ = (Ok _, _) =>
      let H' := fresh in apply ensure_ok_inv in H as [H H']; subst_eq H'
  | lift _ _ = (Ok _, _) =>
      let H' := fresh in apply lift_ok_inv in H as [H H']; subst_eq H'; run_inv1 H
  | gets _ _ = (Ok _, _) => apply gets_ok_inv in H as [? ?]; simplify_eq
  | modify _ _ = (Ok _, _) => apply modify_ok_inv in H; subst_eq H
  | ok_or _ _ _ = (Ok _, _) =>
      let H' := fresh in apply ok_or_ok_inv in H as [H H']; subst_eq H'
  | zoom _ _ _ _ = (Ok _, _) =>
      let t := fresh "t" in let H' := fresh in
      apply zoom_ok_inv in H as (t & H & H'); subst_eq H'; run_inv1 H
  | infallible _ _ = (Ok _, _) => apply infallible_ok_inv in H
  | attempt _ _ = (Ok _, _) => apply attempt_ok_inv in H
  | transactional _ _ = (Ok _, _) => apply transactional_ok_inv in H; run_inv1 H
  | fail _ _ = (Ok _, _) => by apply fail_ok_inv in H
  | ensureR _ _ = Ok _ => apply ensureR_ok_inv in H
  | ok_orR _ _ = Ok _ => apply ok_orR_ok_inv in H
  | mret (M := result _) _ = Ok _ => simplify_eq H
  | Ok _ = Ok _ => simplify_eq H
  | (Ok _, _) = (Ok _, _) => simplify_eq H
  | Err _ = Ok _ => discriminate H
  | (Err _, _) = (Ok _, _) => discriminate H
  | _ => idtac
  end.
Tactic Notation "run_inv" hyp(H) := run_inv1 H.

(** ** Boolean guards *)

(** Turns boolean guards of the code into propositions. *)
Ltac guards :=
  repeat match goal with
  | H : bool_decide _ = true |- _ => apply bool_decide_eq_true in H
  | H : bool_decide _ = false |- _ => apply bool_decide_eq_false in H
  | H : negb _ = true |- _ => apply negb_true_iff in H
  | H : negb _ = false |- _ => apply negb_false_iff in H
  | H : (_ && _)%bool = true |- _ => apply andb_true_iff in H as [? ?]
  | H : (_ || _)%bool = false |- _ => apply orb_false_iff in H as [? ?]
  | H : (_ =? _) = true |- _ => apply Z.eqb_eq in H
  | H : (_ =? _) = false |- _ => apply Z.eqb_neq in H
  | H : (_ <=? _) = true |- _ => apply Z.leb_le in H
  | H : (_ <=? _) = false |- _ => apply Z.leb_gt in H
  | H : (_ <? _) = true |- _ => apply Z.ltb_lt in H
  | H : (_ <? _) = false |- _ => apply Z.ltb_ge in H
  end.

(** [ok_step] runs one primitive of a storage computation in the goal, leaving
    the guard of an [ensure] as a side goal. *)
Lemma ensure_true_bind {E S B} b (e : E) (k : unit → M E S B) s :
  b = true → (ensure b e ≫= k) s = k tt s.
Proof. by intros ->. Qed.
Lemma ensure_false_bind {E S B} b (e : E) (k : unit → M E S B) s :
  b = false → (ensure b e ≫= k) s = (Err e, s).
Proof. by intros ->. Qed.
Lemma ok_or_some_bind {E S A B} (o : option A) a (e : E) (k : A → M E S B) s :
  o = Some a → (ok_or o e ≫= k) s = k a s.
Proof. by intros ->. Qed.
Lemma lift_ok_bind {E S A B} (r : result E A) a (k : A → M E S B) s :
  r = Ok a → (lift r ≫= k) s = k a s.
Proof. by intros ->. Qed.
Lemma gets_bind {E S A B} (f : S → A) (k : A → M E S B) s :
  (gets f ≫= k) s = k (f s) s.
Proof. done. Qed.
Lemma modify_bind {E S B} (f : S → S) (k : unit → M E S B) s :
  (modify f ≫= k) s = k tt (f s).
Proof. done. Qed.
Lemma ret_bind {E S A B} (a : A) (k : A → M E S B) s :
  ((mret a : M E S A) ≫= k) s = k a s.
Proof. done. Qed.

(** ** Runs that respect a relation *)

(** Whatever the result, the relation holds between the states before and after. *)
Definition respects {E S A} (Rel : S → S → Prop) (m : M E S A) : Prop := ∀ s, Rel s (m s).2.

Lemma respects_run {E S A} (Rel : S → S → Prop) (m : M E S A) s r s' :
  respects Rel m → m s = (r, s') → Rel s s'.
Proof. intros Hm Hr. specialize (Hm s). by rewrite Hr in Hm. Qed.

Section Respects.
Context {E S : Type} (Rel : S → S → Prop) `{!PreOrder Rel}.

Lemma respects_ret {A} (a : A) : respects Rel (mret a : M E S A).
Proof. intros s. cbn. reflexivity. Qed.
Lemma respects_bind {A B} (m : M E S A) (k : A → M E S B) :
  respects Rel m → (∀ x, respects Rel (k x)) → respects Rel (m ≫= k).
Proof.
  intros Hm Hk s. unfold mbind, M_bind. specialize (Hm s). destruct (m s) as [[x|e] s1]; [|done].
  transitivity s1; [done|apply Hk].
Qed.
Lemma respects_fail {A} (e : E) : respects Rel (fail (A := A) e).
Proof. intros s. cbn. reflexivity. Qed.
Lemma respects_lift {A} (r : result E A) : respects Rel (lift r).
Proof. intros s. cbn. reflexivity. Qed.
Lemma respects_gets {A} (f : S → A) : respects Rel (gets f : M E S A).
Proof. intros s. cbn. reflexivity. Qed.
Lemma respects_ensure b (e : E) : respects Rel (ensure b e).
Proof. intros s. destruct b; cbn; reflexivity. Qed.
Lemma respects_ok_or {A} (o : option A) (e : E) : respects Rel (ok_or o e).
Proof. intros s. destruct o; cbn; reflexivity. Qed.
Lemma respects_modify (f : S → S) : (∀ s, Rel s (f s)) → respects Rel (modify f : M E S unit).
Proof. intros Hf s. apply Hf. Qed.
Lemma respects_zoom {T A} (get : S → T) (put : T → S → S) (m : M E T A) :
  (∀ s, Rel s (put (m (get s)).2 s)) → respects Rel (zoom get put m).
Proof. intros Hp s. specialize (Hp s). unfold zoom. by destruct (m (get s)). Qed.
Lemma respects_attempt {A} (m : M E S A) : respects Rel m → respects Rel (attempt m).
Proof. intros Hm s. specialize (Hm s). unfold attempt. by destruct (m s). Qed.
Lemma respects_transactional {A} (m : M E S A) : respects Rel m → respects Rel (transactional m).
Proof. intros Hm s. specialize (Hm s). unfold transactional. destruct (m s) as [[|]]; [done|cbn; reflexivity]. Qed.
Lemma respects_for_each {A} (f : A → M E S unit) l : (∀ x, x ∈ l → respects Rel (f x)) → respects Rel (for_each f l).
Proof.
  induction l as [|x l IH]; intros Hf; cbn [for_each]; [apply respects_ret|].
  apply respects_bind; [apply Hf; by left|]. intros _. apply IH. intros y Hy. apply Hf. by right.
Qed.
(** The same for runs that succeed. *)
Definition respects_ok {A} (m : M E S A) : Prop := ∀ s x s', m s = (Ok x, s') → Rel s s'.
Lemma respects_ok_intro {A} (m : M E S A) : respects Rel m → respects_ok m.
Proof. intros Hm s x s' Hr. specialize (Hm s). by rewrite Hr in Hm. Qed.
Lemma respects_ok_bind {A B} (m : M E S A) (k : A → M E S B) :
  respects_ok m → (∀ x, respects_ok (k x)) → respects_ok (m ≫= k).
Proof. intros Hm Hk s y s' (x & s1 & H1 & H2)%bind_ok_inv. transitivity s1; [by eapply Hm|by eapply Hk]. Qed.
(** What a successful first part tells about its result may be used in the second. *)
Lemma respects_ok_bind_run {A B} (m : M E S A) (k : A → M E S B) :
  (∀ s x s1, m s = (Ok x, s1) → Rel s s1 ∧ respects_ok (k x)) → respects_ok (m ≫= k).
Proof.
  intros Hm s y s' (x & s1 & Hx & Hk)%bind_ok_inv. destruct (Hm s x s1 Hx) as [Hrel Hok].
  transitivity s1; [done|by eapply Hok].
Qed.
(** A transactional run matters only when it succeeds. *)
Lemma respects_transactional_ok {A} (m : M E S A) : respects_ok m → respects Rel (transactional m).
Proof.
  intros Hm s. unfold transactional. destruct (m s) as [[a|e] s'] eqn:Hr; cbn; [by eapply Hm|reflexivity].
Qed.
End Respects.

Create HintDb respects.
(** Decomposes a run into its primitive steps; lemmas on the operations are hints. *)
Ltac respects_step :=
  first
  [ solve [auto with respects nocore]
  | apply respects_bind; [typeclasses eauto| |intros ?]
  | apply respects_ret; typeclasses eauto | apply respects_ensure; typeclasses eauto
  | apply respects_lift; typeclasses eauto | apply respects_ok_or; typeclasses eauto
  | apply respects_gets; typeclasses eauto | apply respects_fail; typeclasses eauto
  | apply respects_transactional; [typeclasses eauto|]
  | match goal with |- respects _ (match ?x with _ => _ end) => destruct x end ].
Ltac respects := repeat respects_step.

(** ** Machine integers *)

Definition u8_max : Z := 2 ^ 8 - 1.
Definition u16_max : Z := 2 ^ 16 - 1.
Definition u32_max : Z := 2 ^ 32 - 1.
Definition u64_max : Z := 2 ^ 64 - 1.
Definition u128_max : Z := 2 ^ 128 - 1.

Definition in_u128 (x : Z) : Prop := 0 ≤ x ≤ u128_max.
Definition in_u64 (x : Z) : Prop := 0 ≤ x ≤ u64_max.
Definition in_u32 (x : Z) : Prop := 0 ≤ x ≤ u32_max.
Definition in_u16 (x : Z) : Prop := 0 ≤ x ≤ u16_max.

(** [saturating_add], [saturating_sub], [saturating_mul] of unsigned integers
    with maximum [m]. *)
Definition saturating_add (m x y : Z) : Z := Z.min m (x + y).
Definition saturating_sub (x y : Z) : Z := Z.max 0 (x - y).
Definition saturating_mul (m x y : Z) : Z := Z.min m (x * y).

Lemma u128_max_pos : 0 < u128_max. Proof. done. Qed.
Lemma u64_max_pos : 0 < u64_max. Proof. done. Qed.
Lemma u32_max_pos : 0 < u32_max. Proof. done. Qed.

Create HintDb zg.
#[export] Hint Resolve u128_max_pos u64_max_pos u32_max_pos : zg.

Lemma div_mul_le_floor a b : 0 < b → 0 ≤ a → b * (a / b) ≤ a.
Proof. intros. by apply Z.mul_div_le. Qed.
Lemma floor_le_of_mul a b c : 0 < b → a ≤ b * c → a / b ≤ c.
Proof. intros Hb Ha. transitivity (b * c / b); [by apply Z.div_le_mono|]. rewrite Z.mul_comm, Z.div_mul; lia. Qed.
Lemma le_floor_of_mul a b c : 0 < b → b * c ≤ a → c ≤ a / b.
Proof. intros. apply Z.div_le_lower_bound; lia. Qed.

(** ** Sums over finite maps *)
Section MapSum.
Context {K V : Type} `{Countable K}.

(** The sum of [f] over the entries of a map. *)
Definition map_sum (f : K → V → Z) (m : gmap K V) : Z :=
  map_fold (λ k v acc, f k v + acc) 0 m.

Lemma map_sum_empty f : map_sum f ∅ = 0.
Proof. done. Qed.

Lemma map_sum_insert f m k v :
  m !! k = None → map_sum f (<[k:=v]> m) = f k v + map_sum f m.
Proof.
  intros Hk. unfold map_sum.
  rewrite (map_fold_insert_L (λ k v acc, f k v + acc) 0 k v m); [done|intros; lia|done].
Qed.

Lemma map_sum_delete f m k v :
  m !! k = Some v → map_sum f m = f k v + map_sum f (delete k m).
Proof.
  intros Hk. rewrite <- (insert_delete_id m k v Hk) at 1.
  apply map_sum_insert, lookup_delete_eq.
Qed.

(** The contribution of one key. *)
Definition entry (f : K → V → Z) (m : gmap K V) (k : K) : Z :=
  match m !! k with Some v => f k v | None => 0 end.

Lemma map_sum_split f m k : map_sum f m = entry f m k + map_sum f (delete k m).
Proof.
  unfold entry. destruct (m !! k) as [v|] eqn:Hk.
  - by apply map_sum_delete.
  - by rewrite delete_id.
Qed.

Lemma map_sum_update f m k v :
  map_sum f (<[k:=v]> m) = map_sum f m - entry f m k + f k v.
Proof.
  rewrite (map_sum_split f m k), <- insert_delete_eq, map_sum_insert
    by apply lookup_delete_eq.
  lia.
Qed.

Lemma map_sum_ext f g m :
  (∀ k v, m !! k = Some v → f k v = g k v) → map_sum f m = map_sum g m.
Proof.
  revert m. refine (map_ind _ _ _); [done|]. intros k v m Hk IH Hfg.
  rewrite !map_sum_insert by done.
  rewrite (Hfg k v) by apply lookup_insert_eq. f_equal. apply IH. intros k' v' Hk'.
  apply Hfg. rewrite lookup_insert_ne; [done|]. intros ->. congruence.
Qed.

Lemma map_sum_nonneg f m :
  (∀ k v, m !! k = Some v → 0 ≤ f k v) → 0 ≤ map_sum f m.
Proof.
  revert m. refine (map_ind _ _ _); [done|]. intros k v m Hk IH Hf.
  rewrite map_sum_insert by done.
  assert (0 ≤ f k v) by (apply Hf, lookup_insert_eq).
  assert (0 ≤ map_sum f m); [|lia]. apply IH. intros k' v' Hk'.
  apply Hf. rewrite lookup_insert_ne; [done|]. intros ->. congruence.
Qed.

Lemma entry_le_map_sum f m k :
  (∀ k v, m !! k = Some v → 0 ≤ f k v) → entry f m k ≤ map_sum f m.
Proof.
  intros Hf. rewrite (map_sum_split f m k).
  assert (0 ≤ map_sum f (delete k m)); [|lia].
  apply map_sum_nonneg. intros k' v' Hk'. apply (Hf k'). by apply lookup_delete_Some in Hk' as [_ ?].
Qed.
End MapSum.

(** ** Binary search *)

(** [slice::binary_search_by]: the standard library's loop on [left], [size]. *)
Fixpoint binary_search_loop {A} (cmp : A → comparison) (l : list A)
    (fuel : nat) (left right : nat) : result nat nat :=
  match fuel with
  | O => Err left
  | S fuel =>
    if (left <? right)%nat then
      let mid := (left + (right - left) / 2)%nat in
      match l !! mid with
      | None => Err left
      | Some x =>
        match cmp x with
        | Eq => Ok mid
        | Lt => binary_search_loop cmp l fuel (S mid) right
        | Gt => binary_search_loop cmp l fuel left mid
        end
      end
    else Err left
  end.

(** [Ok i] is the index of a match, [Err i] the insertion point. *)
Definition binary_search_by {A} (cmp : A → comparison) (l : list A) : result nat nat :=
  binary_search_loop cmp l (S (length l)) 0 (length l).

(** A list is ordered for [cmp] when no [Lt] follows a non-[Lt] and no non-[Gt]
    follows a [Gt]. *)
Definition cmp_sorted {A} (cmp : A → comparison) (l : list A) : Prop :=
  ∀ i j x y, (i < j)%nat → l !! i = Some x → l !! j = Some y →
    (cmp x ≠ Lt → cmp y = Gt) .

Section BinarySearch.
Context {A : Type} (cmp : A → comparison).

Lemma binary_search_loop_ok l fuel a b i :
  binary_search_loop cmp l fuel a b = Ok i →
  ∃ x, l !! i = Some x ∧ cmp x = Eq.
Proof.
  revert a b. induction fuel as [|fuel IH]; intros a b; cbn [binary_search_loop]; [done|].
  destruct (a <? b)%nat; [|done]. cbv zeta.
  destruct (l !! (a + _)%nat) as [x|] eqn:Hx; [|done].
  destruct (cmp x) eqn:Hc; naive_solver.
Qed.

Lemma binary_search_ok l i :
  binary_search_by cmp l = Ok i → ∃ x, l !! i = Some x ∧ cmp x = Eq.
Proof. apply binary_search_loop_ok. Qed.

(** With enough fuel the loop ends at an insertion point: everything before
    it compares [Lt], everything from it on compares [Gt]. *)
Lemma binary_search_loop_err l fuel a b i :
  cmp_sorted cmp l →
  (b ≤ length l)%nat → (a ≤ b)%nat → (b - a < fuel)%nat →
  (∀ j x, l !! j = Some x → (j < a)%nat → cmp x = Lt) →
  (∀ j x, l !! j = Some x → (b ≤ j)%nat → cmp x = Gt) →
  binary_search_loop cmp l fuel a b = Err i →
  (i ≤ length l)%nat ∧
  (∀ j x, l !! j = Some x → (j < i)%nat → cmp x = Lt) ∧
  (∀ j x, l !! j = Some x → (i ≤ j)%nat → cmp x = Gt).
Proof.
  intros Hs. revert a b. induction fuel as [|fuel IH]; intros a b Hb Hab Hf Hlt Hgt; [lia|].
  cbn [binary_search_loop]. destruct (Nat.ltb_spec a b) as [Hl|Hl].
  2:{ intros [= <-]. assert (a = b) as -> by lia. eauto with lia. }
  set (mid := (a + (b - a) / 2)%nat).
  assert (a ≤ mid < b)%nat as Hmid.
  { subst mid. pose proof (Nat.div_lt (b - a) 2). lia. }
  destruct (l !! mid) as [x|] eqn:Hx.
  2:{ apply lookup_ge_None in Hx. lia. }
  destruct (cmp x) eqn:Hc; [done|..]; intros Hr.
  - apply (IH (S mid) b); [lia..| | |done]; [|done].
    intros j y Hy Hj. destruct (decide (j = mid)) as [->|]; [congruence|].
    destruct (cmp y) eqn:Hcy; [|done|].
    + rewrite (Hs j mid y x) in Hc by (done || lia || congruence). done.
    + rewrite (Hs j mid y x) in Hc by (done || lia || congruence). done.
  - apply (IH a mid); [lia..|done| |done].
    intros j y Hy Hj. destruct (decide (j = mid)) as [->|]; [congruence|].
    apply (Hs mid j x y); try done; [lia|congruence].
Qed.

Lemma binary_search_err l i :
  cmp_sorted cmp l → binary_search_by cmp l = Err i →
  (i ≤ length l)%nat ∧
  (∀ j x, l !! j = Some x → (j < i)%nat → cmp x = Lt) ∧
  (∀ j x, l !! j = Some x → (i ≤ j)%nat → cmp x = Gt).
Proof.
  intros Hs. apply binary_search_loop_err; try done; [lia..|lia|].
  intros j x Hx Hj. apply lookup_lt_Some in Hx. lia.
Qed.

(** On an ordered list the search succeeds exactly when there is a match. *)
Lemma binary_search_is_ok l :
  cmp_sorted cmp l →
  is_ok (binary_search_by cmp l) = true ↔ ∃ x, x ∈ l ∧ cmp x = Eq.
Proof.
  intros Hs. destruct (binary_search_by cmp l) as [i|i] eqn:Hr; cbn; split; try done.
  - intros _. apply binary_search_ok in Hr as (x & Hx & Hc).
    exists x. split; [|done]. by apply list_elem_of_lookup_2 with i.
  - intros (x & Hin & Hc). apply list_elem_of_lookup in Hin as [j Hj].
    apply binary_search_err in Hr as (_ & Hlt & Hgt); [|done].
    destruct (decide (j < i)%nat).
    + rewrite (Hlt j x) in Hc by done. done.
    + rewrite (Hgt j x) in Hc by (done || lia). done.
Qed.
End BinarySearch.

(** ** Lists with strictly increasing keys *)
Section KeySorted.
Context {A : Type} (key : A → Z).
Implicit Types l : list A.

Definition key_sorted l : Prop := StronglySorted (λ x y, key x < key y) l.
(** [binary_search_by_key] *)
Definition search_key (k : Z) l : result nat nat := binary_search_by (λ x, key x ?= k) l.

Lemma key_sorted_lookup l i j x y :
  key_sorted l → (i < j)%nat → l !! i = Some x → l !! j = Some y → key x < key y.
Proof.
  intros Hs Hij Hx Hy. rewrite <- (take_drop_middle l i x Hx) in Hs.
  apply StronglySorted_app in Hs as (_ & _ & Hs%StronglySorted_cons). destruct Hs as [Hf _].
  rewrite Forall_forall in Hf. apply Hf. apply list_elem_of_lookup. exists (j - S i)%nat.
  rewrite lookup_drop. replace (S i + (j - S i))%nat with j by lia. done.
Qed.

Lemma key_sorted_cmp k l : key_sorted l → cmp_sorted (λ x, key x ?= k) l.
Proof.
  intros Hs i j x y Hij Hx Hy. rewrite Z.compare_nlt_iff, Z.compare_gt_iff.
  pose proof (key_sorted_lookup l i j x y Hs Hij Hx Hy). lia.
Qed.

Lemma search_key_ok k l i : search_key k l = Ok i → ∃ x, l !! i = Some x ∧ key x = k.
Proof.
  intros (x & Hx & Hc)%binary_search_ok. exists x. split; [done|]. by apply Z.compare_eq.
Qed.

Lemma search_key_err k l i :
  key_sorted l → search_key k l = Err i →
  (i ≤ length l)%nat ∧ (∀ x, x ∈ take i l → key x < k) ∧ (∀ x, x ∈ drop i l → k < key x).
Proof.
  intros Hs Hr. apply binary_search_err in Hr as (Hi & Hlt & Hgt); [|by apply key_sorted_cmp].
  split; [done|]. split; intros x Hx.
  - apply elem_of_take in Hx as (j & Hj & ?). apply Z.compare_lt_iff. by apply (Hlt j).
  - apply list_elem_of_lookup in Hx as [j Hj]. rewrite lookup_drop in Hj.
    apply Z.compare_gt_iff. apply (Hgt _ _ Hj). lia.
Qed.

Lemma search_key_not_in k l i : key_sorted l → search_key k l = Err i → ∀ x, x ∈ l → key x ≠ k.
Proof.
  intros Hs Hr x Hx. destruct (search_key_err k l i Hs Hr) as (_ & Hlt & Hgt).
  rewrite <- (take_drop i l) in Hx. apply elem_of_app in Hx as [Hx|Hx].
  - specialize (Hlt x Hx). lia.
  - specialize (Hgt x Hx). lia.
Qed.

(** Inserting at the reported position keeps the order. *)
Lemma key_sorted_insert x l i :
  key_sorted l → search_key (key x) l = Err i → key_sorted (take i l ++ x :: drop i l).
Proof.
  intros Hs Hr. destruct (search_key_err _ l i Hs Hr) as (_ & Hlt & Hgt).
  rewrite <- (take_drop i l) in Hs. apply StronglySorted_app in Hs as (Hld & Hl & Hd).
  apply StronglySorted_app. split; [|split; [done|]].
  - intros y z Hy [->|Hz]%elem_of_cons; [by apply Hlt|]. by apply Hld.
  - apply StronglySorted_cons. split; [|done]. rewrite Forall_forall. apply Hgt.
Qed.

Lemma key_sorted_update x y l i :
  key_sorted l → l !! i = Some x → key y = key x → key_sorted (<[i := y]> l).
Proof.
  intros Hs Hx Hk. rewrite insert_take_drop by (by eapply lookup_lt_Some).
  rewrite <- (take_drop_middle l i x Hx) in Hs.
  apply StronglySorted_app in Hs as (Hld & Hl & Hd). apply StronglySorted_cons in Hd as [Hf Hd].
  apply StronglySorted_app. split; [|split; [done|]].
  - intros w z Hw [->|Hz]%elem_of_cons.
    + rewrite Hk. apply Hld; [done|by left].
    + apply Hld; [done|by right].
  - apply StronglySorted_cons. split; [|done]. by rewrite Hk.
Qed.

Lemma key_sorted_filter (P : A → Prop) `{∀ x, Decision (P x)} l :
  key_sorted l → key_sorted (filter P l).
Proof.
  induction 1 as [|x l Hs IH Hf]; [constructor|]. rewrite filter_cons.
  destruct (decide (P x)); [|done]. apply StronglySorted_cons. split; [|done].
  rewrite Forall_forall in Hf |- *. intros y [_ Hy]%list_elem_of_filter. by apply Hf.
Qed.
End KeySorted.

(** ** Sums over lists *)
Section ListSum.
Context {A : Type}.
Definition zsum (f : A → Z) (l : list A) : Z := foldr (λ x acc, f x + acc) 0 l.

Lemma zsum_cons f x (l : list A) : zsum f (x :: l) = f x + zsum f l.
Proof. done. Qed.
Lemma zsum_app f (l k : list A) : zsum f (l ++ k) = zsum f l + zsum f k.
Proof. unfold zsum. induction l; cbn in *; lia. Qed.
Lemma zsum_ext f g (l : list A) : (∀ x, x ∈ l → f x = g x) → zsum f l = zsum g l.
Proof.
  intros Hfg. unfold zsum. induction l as [|x l IH]; [done|]. cbn.
  rewrite (Hfg x), IH; [done| |]; set_solver.
Qed.
Lemma zsum_le f g (l : list A) : (∀ x, x ∈ l → f x ≤ g x) → zsum f l ≤ zsum g l.
Proof.
  intros Hfg. unfold zsum. induction l as [|x l IH]; [done|]. cbn.
  specialize (Hfg x ltac:(set_solver)) as Hx. cut (foldr (λ x acc, f x + acc) 0 l
    ≤ foldr (λ x acc, g x + acc) 0 l); [lia|]. apply IH. set_solver.
Qed.
Lemma zsum_nonneg f (l : list A) : (∀ x, x ∈ l → 0 ≤ f x) → 0 ≤ zsum f l.
Proof.
  intros Hf. replace 0 with (zsum (λ _, 0) l); [by apply zsum_le|].
  unfold zsum. induction l; cbn; [done|]. apply IHl. set_solver.
Qed.
Lemma zsum_plus f g (l : list A) : zsum (λ x, f x + g x) l = zsum f l + zsum g l.
Proof. unfold zsum. induction l; cbn in *; lia. Qed.
Lemma zsum_elem_le f (l : list A) x :
  (∀ x, x ∈ l → 0 ≤ f x) → x ∈ l → f x ≤ zsum f l.
Proof.
  intros Hf Hx. induction l as [|y l IH]; [set_solver|]. cbn.
  assert (0 ≤ zsum f l) by (apply zsum_nonneg; set_solver).
  apply elem_of_cons in Hx as [->|Hx]; [unfold zsum in *; lia|].
  specialize (Hf y ltac:(set_solver)) as Hy. specialize (IH ltac:(set_solver) Hx).
  unfold zsum in *. lia.
Qed.
(** Changing one element. *)
Lemma zsum_change f g (l : list A) x :
  NoDup l → x ∈ l → (∀ y, y ∈ l → y ≠ x → f y = g y) →
  zsum g l = zsum f l - f x + g x.
Proof.
  intros Hnd Hx Hfg. induction Hnd as [|y l Hy Hnd IH]; [set_solver|].
  change (zsum g (y :: l)) with (g y + zsum g l). change (zsum f (y :: l)) with (f y + zsum f l).
  apply elem_of_cons in Hx as [->|Hx].
  - rewrite (zsum_ext f g l); [lia|]. intros z Hz. apply Hfg; set_solver.
  - assert (y ≠ x) by set_solver. rewrite (Hfg y) by set_solver.
    rewrite IH; [lia|done|]. intros z Hz. apply Hfg. set_solver.
Qed.
End ListSum.
