(* ===== verification/BTree.v ===== *)
(** * Ordered maps as lists

    [BTreeMap] and [BTreeSet] of the standard library, as association lists in the
    order of the keys: the iteration order is the order of the list. *)
From S2P Require Import Prelude.

Section BTree.
Context {K V : Type} (cmp : K → K → comparison).
Implicit Types (m : list (K * V)).

Fixpoint bt_get (k : K) m : option V :=
  match m with
  | [] => None
  | (k', v) :: m => match cmp k k' with Eq => Some v | _ => bt_get k m end
  end.
(** [insert]: an entry with the same key is replaced. *)
Fixpoint bt_insert (k : K) (v : V) m : list (K * V) :=
  match m with
  | [] => [(k, v)]
  | (k', v') :: m' =>
      match cmp k k' with
      | Lt => (k, v) :: m
      | Eq => (k, v) :: m'
      | Gt => (k', v') :: bt_insert k v m'
      end
  end.
End BTree.

Section BSet.
Context {K : Type} (cmp : K → K → comparison).
Fixpoint bs_insert (k : K) (l : list K) : list K :=
  match l with
  | [] => [k]
  | k' :: l' =>
      match cmp k k' with
      | Lt => k :: l
      | Eq => l
      | Gt => k' :: bs_insert k l'
      end
  end.
End BSet.

(** The documented behaviour of [Ord]. *)
Class OrdLaws {K} (cmp : K → K → comparison) : Prop := {
  ord_eq a b : cmp a b = Eq ↔ a = b;
  ord_lt_trans a b c : cmp a b = Lt → cmp b c = Lt → cmp a c = Lt;
  ord_flip a b : cmp a b = CompOpp (cmp b a);
}.

(** The lexicographic order of tuples. *)
Definition pair_compare {A B} (c1 : A → A → comparison) (c2 : B → B → comparison)
    (x y : A * B) : comparison :=
  match c1 x.1 y.1 with Eq => c2 x.2 y.2 | r => r end.

#[export] Instance Z_ord : OrdLaws Z.compare.
Proof.
  split; intros *.
  - apply Z.compare_eq_iff.
  - rewrite !Z.compare_lt_iff. lia.
  - apply Z.compare_antisym.
Qed.

Section BTreeLemmas.
Context {K V : Type} (cmp : K → K → comparison) `{!OrdLaws cmp}.
Implicit Types (m : list (K * V)).

Lemma ord_refl a : cmp a a = Eq.
Proof. by apply ord_eq. Qed.

(** Keys increase strictly. *)
Definition bt_sorted m : Prop := StronglySorted (λ x y, cmp x.1 y.1 = Lt) m.

Lemma bt_get_insert k v m k' :
  bt_get cmp k' (bt_insert cmp k v m) = match cmp k' k with Eq => Some v | _ => bt_get cmp k' m end.
Proof.
  induction m as [|[k1 v1] m IH]; cbn [bt_insert bt_get].
  - by destruct (cmp k' k).
  - destruct (cmp k k1) eqn:Hk; cbn [bt_get].
    + apply ord_eq in Hk as ->. by destruct (cmp k' k1).
    + done.
    + destruct (cmp k' k1) eqn:Hk1; [|done..].
      apply ord_eq in Hk1 as ->. by rewrite (ord_flip k1 k), Hk.
Qed.

Lemma bt_insert_keys k v m x : x ∈ bt_insert cmp k v m → x = (k, v) ∨ x ∈ m.
Proof.
  induction m as [|[k1 v1] m IH]; cbn [bt_insert]; [intros ->%list_elem_of_singleton; by left|].
  destruct (cmp k k1); intros [->|Hx]%elem_of_cons; rewrite ?elem_of_cons; auto.
  - apply elem_of_cons in Hx. tauto.
  - apply IH in Hx. tauto.
Qed.

Lemma bt_insert_sorted k v m : bt_sorted m → bt_sorted (bt_insert cmp k v m).
Proof.
  induction 1 as [|[k1 v1] m Hs IH Hf]; cbn [bt_insert]; [repeat constructor|].
  rewrite Forall_forall in Hf. destruct (cmp k k1) eqn:Hk.
  - apply ord_eq in Hk as ->. constructor; [done|]. by apply Forall_forall.
  - constructor; [by constructor; [|apply Forall_forall]|]. apply Forall_forall.
    intros x [->|Hx]%elem_of_cons; [done|]. cbn. apply (ord_lt_trans _ k1); [done|]. by apply Hf.
  - constructor; [done|]. apply Forall_forall. intros x [->|Hx]%bt_insert_keys; [|by apply Hf].
    cbn. by rewrite ord_flip, Hk.
Qed.

Lemma bt_get_in k v m : bt_get cmp k m = Some v → (k, v) ∈ m.
Proof.
  induction m as [|[k1 v1] m IH]; cbn [bt_get]; [done|]. rewrite elem_of_cons.
  destruct (cmp k k1) eqn:Hk; [apply ord_eq in Hk as ->; intros [= ->]; by left|auto..].
Qed.
Lemma bt_in_get k v m : bt_sorted m → (k, v) ∈ m → bt_get cmp k m = Some v.
Proof.
  induction 1 as [|[k1 v1] m Hs IH Hf]; [by intros ?%elem_of_nil|]. cbn [bt_get].
  rewrite Forall_forall in Hf. intros [[= -> ->]|Hin]%elem_of_cons; [by rewrite ord_refl|].
  specialize (Hf _ Hin). cbn in Hf. by rewrite ord_flip, Hf, (IH Hin).
Qed.

(** The sum over an updated map. *)
Lemma bt_insert_sum (f : K * V → Z) k v m :
  bt_sorted m →
  zsum f (bt_insert cmp k v m) =
    zsum f m + f (k, v) - match bt_get cmp k m with Some v0 => f (k, v0) | None => 0 end.
Proof.
  induction 1 as [|[k1 v1] m Hs IH Hf]; cbn [bt_insert bt_get]; [rewrite zsum_cons; lia|].
  rewrite Forall_forall in Hf. destruct (cmp k k1) eqn:Hk.
  - apply ord_eq in Hk as ->. rewrite !zsum_cons. lia.
  - rewrite !zsum_cons. destruct (bt_get cmp k m) as [v0|] eqn:Hg; [|lia].
    apply bt_get_in, Hf in Hg. cbn in Hg. rewrite ord_flip, Hk in Hg. done.
  - rewrite !zsum_cons, IH. lia.
Qed.
End BTreeLemmas.

Section BSetLemmas.
Context {K : Type} (cmp : K → K → comparison) `{!OrdLaws cmp}.
Definition bs_sorted (l : list K) : Prop := StronglySorted (λ x y, cmp x y = Lt) l.
Lemma bs_insert_elem k l x : x ∈ bs_insert cmp k l ↔ x = k ∨ x ∈ l.
Proof.
  induction l as [|k1 l IH]; cbn [bs_insert]; [by rewrite list_elem_of_singleton, elem_of_nil; tauto|].
  destruct (cmp k k1) eqn:Hk; rewrite ?elem_of_cons, ?IH; [|tauto..].
  apply ord_eq in Hk as ->. tauto.
Qed.
Lemma bs_insert_sorted k l : bs_sorted l → bs_sorted (bs_insert cmp k l).
Proof.
  induction 1 as [|k1 l Hs IH Hf]; cbn [bs_insert]; [repeat constructor|].
  rewrite Forall_forall in Hf. destruct (cmp k k1) eqn:Hk.
  - constructor; [done|]. by apply Forall_forall.
  - constructor; [by constructor; [|apply Forall_forall]|]. apply Forall_forall.
    intros x [->|Hx]%elem_of_cons; [done|]. apply (ord_lt_trans _ k1); [done|]. by apply Hf.
  - constructor; [done|]. apply Forall_forall. intros x [->|Hx]%bs_insert_elem; [|by apply Hf].
    by rewrite ord_flip, Hk.
Qed.
Lemma bs_insert_length k l : k ∉ l → length (bs_insert cmp k l) = S (length l).
Proof.
  induction l as [|k1 l IH]; cbn [bs_insert]; [done|]. intros [Hne Hk]%not_elem_of_cons.
  destruct (cmp k k1) eqn:Hc; cbn; [by apply ord_eq in Hc|done|]. by rewrite IH.
Qed.
End BSetLemmas.

#[export] Instance pair_ord {A B} (c1 : A → A → comparison) (c2 : B → B → comparison)
    `{!OrdLaws c1, !OrdLaws c2} : OrdLaws (pair_compare c1 c2).
Proof.
  unfold pair_compare. split.
  - intros [a b] [a' b']; cbn. destruct (c1 a a') eqn:Ha.
    + apply ord_eq in Ha as ->. rewrite ord_eq. split; congruence.
    + split; [done|]. intros [= -> ->]. by rewrite (ord_refl c1) in Ha.
    + split; [done|]. intros [= -> ->]. by rewrite (ord_refl c1) in Ha.
  - intros [a b] [a' b'] [a'' b'']; cbn. destruct (c1 a a') eqn:H1; [| |done].
    + apply ord_eq in H1 as ->. destruct (c1 a' a''); [apply ord_lt_trans|done..].
    + intros _. destruct (c1 a' a'') eqn:H2; [| |done].
      * apply ord_eq in H2 as ->. by rewrite H1.
      * by rewrite (ord_lt_trans (cmp := c1) a a' a'').
  - intros [a b] [a' b']; cbn. rewrite (ord_flip (cmp := c1) a a'). destruct (c1 a' a); [apply ord_flip|done..].
Qed.

(** ** Sorted vectors and binary search *)
Section OrdSorted.
Context {A K : Type} (cmp : K → K → comparison) `{!OrdLaws cmp} (key : A → K).
Implicit Types l : list A.

(** Keys increase strictly. *)
Definition ord_sorted l : Prop := StronglySorted (λ x y, cmp (key x) (key y) = Lt) l.
Definition ord_search (k : K) l : result nat nat := binary_search_by (λ x, cmp (key x) k) l.

Lemma ord_sorted_lookup l i j x y :
  ord_sorted l → (i < j)%nat → l !! i = Some x → l !! j = Some y → cmp (key x) (key y) = Lt.
Proof.
  intros Hs Hij Hx Hy. rewrite <- (take_drop_middle l i x Hx) in Hs.
  apply StronglySorted_app in Hs as (_ & _ & Hs%StronglySorted_cons). destruct Hs as [Hf _].
  rewrite Forall_forall in Hf. apply Hf. apply list_elem_of_lookup. exists (j - S i)%nat.
  rewrite lookup_drop. by replace (S i + (j - S i))%nat with j by lia.
Qed.

Lemma ord_sorted_inj l i j x y :
  ord_sorted l → l !! i = Some x → l !! j = Some y → key x = key y → i = j.
Proof.
  intros Hs Hx Hy Hk. destruct (Nat.lt_trichotomy i j) as [Hij|[->|Hij]]; [|done|].
  - pose proof (ord_sorted_lookup l i j x y Hs Hij Hx Hy) as Hc. by rewrite Hk, (ord_refl cmp) in Hc.
  - pose proof (ord_sorted_lookup l j i y x Hs Hij Hy Hx) as Hc. by rewrite Hk, (ord_refl cmp) in Hc.
Qed.

Lemma ord_sorted_cmp k l : ord_sorted l → cmp_sorted (λ x, cmp (key x) k) l.
Proof.
  intros Hs i j x y Hij Hx Hy Hne. pose proof (ord_sorted_lookup l i j x y Hs Hij Hx Hy) as Hc.
  destruct (cmp (key y) k) eqn:Hy'; [|by rewrite (ord_lt_trans (cmp := cmp) _ _ _ Hc Hy') in Hne|done].
  apply ord_eq in Hy' as <-. by rewrite Hc in Hne.
Qed.

Lemma ord_search_ok k l i : ord_search k l = Ok i → ∃ x, l !! i = Some x ∧ key x = k.
Proof. intros (x & Hx & Hc)%binary_search_ok. exists x. split; [done|]. by apply (ord_eq (cmp := cmp)). Qed.

Lemma ord_search_err k l i :
  ord_sorted l → ord_search k l = Err i →
  (i ≤ length l)%nat ∧ (∀ x, x ∈ take i l → cmp (key x) k = Lt) ∧
  (∀ x, x ∈ drop i l → cmp k (key x) = Lt).
Proof.
  intros Hs Hr. apply binary_search_err in Hr as (Hi & Hlt & Hgt); [|by apply ord_sorted_cmp].
  split; [done|]. split; intros x Hx.
  - apply elem_of_take in Hx as (j & Hj & ?). by apply (Hlt j).
  - apply list_elem_of_lookup in Hx as [j Hj]. rewrite lookup_drop in Hj.
    rewrite (ord_flip (cmp := cmp)). by rewrite (Hgt _ _ Hj) by lia.
Qed.

(** A failing search means that no element has the key. *)
Lemma ord_search_not_in k l i x : ord_sorted l → ord_search k l = Err i → x ∈ l → key x ≠ k.
Proof.
  intros Hs Hr Hx <-. destruct (ord_search_err _ _ _ Hs Hr) as (_ & Hlt & Hgt).
  rewrite <- (take_drop i l) in Hx. apply elem_of_app in Hx as [Hx|Hx].
  - specialize (Hlt x Hx). by rewrite (ord_refl cmp) in Hlt.
  - specialize (Hgt x Hx). by rewrite (ord_refl cmp) in Hgt.
Qed.
Lemma ord_search_in l i x : ord_sorted l → l !! i = Some x → ord_search (key x) l = Ok i.
Proof.
  intros Hs Hx. destruct (ord_search (key x) l) as [j|j] eqn:Hr.
  - apply ord_search_ok in Hr as (y & Hy & Hk). f_equal. by apply (ord_sorted_inj l j i y x).
  - by destruct (ord_search_not_in _ _ _ x Hs Hr (list_elem_of_lookup_2 _ _ _ Hx)).
Qed.

(** Inserting at the reported position keeps the order. *)
Lemma ord_sorted_insert x l i :
  ord_sorted l → ord_search (key x) l = Err i → ord_sorted (take i l ++ x :: drop i l).
Proof.
  intros Hs Hr. destruct (ord_search_err _ l i Hs Hr) as (_ & Hlt & Hgt).
  rewrite <- (take_drop i l) in Hs. apply StronglySorted_app in Hs as (Hld & Hl & Hd).
  apply StronglySorted_app. split; [|split; [done|]].
  - intros y z Hy [->|Hz]%elem_of_cons; [by apply Hlt|]. by apply Hld.
  - apply StronglySorted_cons. split; [|done]. rewrite Forall_forall. apply Hgt.
Qed.

Lemma ord_sorted_update x y l i :
  ord_sorted l → l !! i = Some x → key y = key x → ord_sorted (<[i := y]> l).
Proof.
  intros Hs Hx Hk. rewrite insert_take_drop by (by eapply lookup_lt_Some).
  rewrite <- (take_drop_middle l i x Hx) in Hs.
  apply StronglySorted_app in Hs as (Hld & Hl & Hd). apply StronglySorted_cons in Hd as [Hf Hd].
  apply StronglySorted_app. split; [|split; [done|]].
  - intros w z Hw [->|Hz]%elem_of_cons.
    + rewrite Hk. apply Hld; [done|by left].
    + apply Hld; [done|by right].
  - apply StronglySorted_cons. split; [|done]. by rewrite Hk.
Qed.

Lemma ord_sorted_sublist l k : sublist k l → ord_sorted l → ord_sorted k.
Proof.
  unfold ord_sorted. induction 1 as [|x l k Hsub IH|x l k Hsub IH]; [done|..]; intros [Hf Hs]%StronglySorted_cons.
  - apply StronglySorted_cons. split; [|by apply IH]. rewrite Forall_forall in Hf |- *.
    intros y Hy. apply Hf. by eapply sublist_submseteq, elem_of_submseteq in Hsub.
  - by apply IH.
Qed.
End OrdSorted.
