(* ===== verification/Types.v ===== *)
(** * Shared data types of the runtime

    [primitives/src/{asset,outcome_report,market,types,constants}.rs]: assets,
    markets, bonds, deadlines, reports and the methods of [Market]. Account
    identifiers, market identifiers, balances and block numbers are [Z]; the
    widths the runtime fixes ([u128], [u64], [u32], [u16]) are written where an
    operation depends on them. *)
From S2P Require Import Prelude.

(** ** Identifiers and numeric types *)

(** Accounts are opaque: only equality is used. *)
Abbreviation AccountId := Z.
Abbreviation Balance := Z.
Abbreviation BlockNumber := Z.
Abbreviation Moment := Z.
Abbreviation MarketId := Z.
Abbreviation PoolId := Z.
Abbreviation CategoryIndex := Z.
(** Parts per billion. *)
Abbreviation Perbill := Z.

(** ** Constants *)
Definition DECIMALS : Z := 10.
Definition BASE : Z := 10 ^ DECIMALS.
Definition CENT : Z := BASE / 100.
Definition MILLI : Z := CENT / 10.
Definition MICRO : Z := MILLI / 1000.
Definition MILLISECS_PER_BLOCK : Z := 12000.
Definition BLOCKS_PER_MINUTE : Z := 60000 / MILLISECS_PER_BLOCK.
Definition BLOCKS_PER_HOUR : Z := BLOCKS_PER_MINUTE * 60.
Definition BLOCKS_PER_DAY : Z := BLOCKS_PER_HOUR * 24.
Definition BLOCKS_PER_YEAR : Z := (BLOCKS_PER_DAY * 36525) / 100.
Definition MAX_CATEGORIES : Z := 64.
Definition MAX_ASSETS : Z := MAX_CATEGORIES + 1.

Lemma BASE_pos : 0 < BASE. Proof. done. Qed.
#[export] Hint Resolve BASE_pos : zg.

(** ** Assets *)
Inductive ScalarPosition : Type := Long | Short.

Inductive Asset : Type :=
| CategoricalOutcome (market_id : MarketId) (index : CategoryIndex)
| ScalarOutcome (market_id : MarketId) (position : ScalarPosition)
| CombinatorialOutcome
| PoolShare (pool_id : PoolId)
| Ztg
| ForeignAsset (id : Z)
| ParimutuelShare (market_id : MarketId) (index : CategoryIndex).

#[export] Instance ScalarPosition_eq_dec : EqDecision ScalarPosition.
Proof. solve_decision. Defined.
#[export] Instance Asset_eq_dec : EqDecision Asset.
Proof. solve_decision. Defined.

(** Assets are storage keys. *)
Definition Asset_encode (a : Asset) : Z * Z * Z :=
  match a with
  | CategoricalOutcome m i => (0, m, i)
  | ScalarOutcome m Long => (1, m, 0)
  | ScalarOutcome m Short => (1, m, 1)
  | CombinatorialOutcome => (2, 0, 0)
  | PoolShare p => (3, p, 0)
  | Ztg => (4, 0, 0)
  | ForeignAsset i => (5, i, 0)
  | ParimutuelShare m i => (6, m, i)
  end.
Definition Asset_decode (c : Z * Z * Z) : option Asset :=
  match c with
  | (0, m, i) => Some (CategoricalOutcome m i)
  | (1, m, 0) => Some (ScalarOutcome m Long)
  | (1, m, _) => Some (ScalarOutcome m Short)
  | (2, _, _) => Some CombinatorialOutcome
  | (3, p, _) => Some (PoolShare p)
  | (4, _, _) => Some Ztg
  | (5, i, _) => Some (ForeignAsset i)
  | (6, m, i) => Some (ParimutuelShare m i)
  | _ => None
  end.
#[export] Instance Asset_countable : Countable Asset.
Proof.
  refine (inj_countable Asset_encode Asset_decode _). by intros [| ? [] | | | | |].
Defined.

(** [derive(Ord)]: variants in declaration order, then the fields in order. *)
Definition ScalarPosition_compare (p q : ScalarPosition) : comparison :=
  match p, q with
  | Long, Short => Lt
  | Short, Long => Gt
  | _, _ => Eq
  end.
Definition Asset_index (a : Asset) : Z :=
  match a with
  | CategoricalOutcome _ _ => 0 | ScalarOutcome _ _ => 1 | CombinatorialOutcome => 2
  | PoolShare _ => 3 | Ztg => 4 | ForeignAsset _ => 5 | ParimutuelShare _ _ => 6
  end.
Definition lex (c d : comparison) : comparison := match c with Eq => d | _ => c end.
Definition Asset_compare (a b : Asset) : comparison :=
  match a, b with
  | CategoricalOutcome m i, CategoricalOutcome n j => lex (m ?= n) (i ?= j)
  | ScalarOutcome m p, ScalarOutcome n q => lex (m ?= n) (ScalarPosition_compare p q)
  | PoolShare p, PoolShare q => p ?= q
  | ForeignAsset i, ForeignAsset j => i ?= j
  | ParimutuelShare m i, ParimutuelShare n j => lex (m ?= n) (i ?= j)
  | _, _ => Asset_index a ?= Asset_index b
  end.

Lemma lex_eq c d : lex c d = Eq ↔ c = Eq ∧ d = Eq.
Proof. by destruct c; split; [intros ?| intros [? ?]| | intros [? ?]| | intros [? ?]]. Qed.

Lemma Asset_compare_eq a b : Asset_compare a b = Eq ↔ a = b.
Proof.
  assert (∀ p q, ScalarPosition_compare p q = Eq ↔ p = q) by (by intros [] []).
  destruct a as [m i|m p| |p| |i|m i], b as [n j|n q| |q| |j|n j]; cbn;
    rewrite ?lex_eq, ?Z.compare_eq_iff; naive_solver.
Qed.

(** ** Outcome reports *)
Inductive OutcomeReport : Type :=
| Categorical (index : CategoryIndex)
| Scalar (value : Z).
#[export] Instance OutcomeReport_eq_dec : EqDecision OutcomeReport.
Proof. solve_decision. Defined.
#[export] Instance OutcomeReport_countable : Countable OutcomeReport.
Proof.
  refine (inj_countable
    (λ o, match o with Categorical i => inl i | Scalar v => inr v end : Z + Z)
    (λ s, Some (match s with inl i => Categorical i | inr v => Scalar v end)) _).
  by intros [].
Defined.

(** ** Markets *)

Inductive MarketCreation : Type := Permissionless | Advised.
#[export] Instance MarketCreation_eq_dec : EqDecision MarketCreation.
Proof. solve_decision. Defined.

Record Bond : Type := mk_Bond {
  bond_who : AccountId;
  bond_value : Balance;
  bond_is_settled : bool;
}.
(** [Bond::new] *)
Definition Bond_new (who : AccountId) (value : Balance) : Bond :=
  {| bond_who := who; bond_value := value; bond_is_settled := false |}.

Record MarketBonds : Type := mk_MarketBonds {
  bonds_creation : option Bond;
  bonds_oracle : option Bond;
  bonds_outsider : option Bond;
  bonds_dispute : option Bond;
  bonds_close_request : option Bond;
  bonds_close_dispute : option Bond;
}.
(** [MarketBonds::default] *)
Definition MarketBonds_default : MarketBonds := mk_MarketBonds None None None None None None.

(** [MarketBonds::total_amount_bonded] *)
Definition total_amount_bonded (b : MarketBonds) (who : AccountId) : Balance :=
  let value_or_default (o : option Bond) :=
    match o with
    | Some bond => if bool_decide (bond_who bond = who) then bond_value bond else 0
    | None => 0
    end in
  let add := saturating_add u128_max in
  add (add (add (add (add (value_or_default (bonds_creation b))
    (value_or_default (bonds_oracle b))) (value_or_default (bonds_outsider b)))
    (value_or_default (bonds_dispute b))) (value_or_default (bonds_close_request b)))
    (value_or_default (bonds_close_dispute b)).

Record GlobalDisputeItem : Type := mk_GlobalDisputeItem {
  gdi_owner : AccountId;
  gdi_outcome : OutcomeReport;
  gdi_initial_vote_amount : Balance;
}.

Record MarketDispute : Type := mk_MarketDispute {
  md_at : BlockNumber;
  md_by : AccountId;
  md_outcome : OutcomeReport;
  md_bond : Balance;
}.

Inductive MarketDisputeMechanism : Type := MDM_Authorized | MDM_Court | MDM_SimpleDisputes.
#[export] Instance MarketDisputeMechanism_eq_dec : EqDecision MarketDisputeMechanism.
Proof. solve_decision. Defined.

(** Half-open ranges. *)
Record Range : Type := mk_Range { range_start : Z; range_end : Z }.
#[export] Instance Range_eq_dec : EqDecision Range.
Proof. solve_decision. Defined.

Inductive MarketPeriod : Type :=
| Block (range : Range)
| Timestamp (range : Range).
#[export] Instance MarketPeriod_eq_dec : EqDecision MarketPeriod.
Proof. solve_decision. Defined.

Inductive EarlyCloseState : Type :=
| ScheduledAsMarketCreator | ScheduledAsOther | EarlyClose_Disputed | EarlyClose_Rejected.
#[export] Instance EarlyCloseState_eq_dec : EqDecision EarlyCloseState.
Proof. solve_decision. Defined.

Record EarlyClose : Type := mk_EarlyClose {
  early_old : MarketPeriod;
  early_new : MarketPeriod;
  early_state : EarlyCloseState;
}.

Record Deadlines : Type := mk_Deadlines {
  grace_period : BlockNumber;
  oracle_duration : BlockNumber;
  dispute_duration : BlockNumber;
}.

Inductive ScoringRule : Type := Lmsr | Orderbook | Parimutuel.
#[export] Instance ScoringRule_eq_dec : EqDecision ScoringRule.
Proof. solve_decision. Defined.

Inductive MarketStatus : Type := Proposed | Active | Closed | Reported | Disputed | Resolved.
#[export] Instance MarketStatus_eq_dec : EqDecision MarketStatus.
Proof. solve_decision. Defined.

Inductive MarketType : Type :=
| MT_Categorical (categories : Z)
| MT_Scalar (low high : Z).
#[export] Instance MarketType_eq_dec : EqDecision MarketType.
Proof. solve_decision. Defined.

Record Report : Type := mk_Report {
  report_at : BlockNumber;
  report_by : AccountId;
  report_outcome : OutcomeReport;
}.

Record AuthorityReport : Type := mk_AuthorityReport {
  ar_resolve_at : BlockNumber;
  ar_outcome : OutcomeReport;
}.

Inductive ResolutionMechanism : Type := RedeemTokens | Noop.
#[export] Instance ResolutionMechanism_eq_dec : EqDecision ResolutionMechanism.
Proof. solve_decision. Defined.

Record Market : Type := mk_Market {
  base_asset : Asset;
  creator : AccountId;
  creation : MarketCreation;
  creator_fee : Perbill;
  oracle : AccountId;
  metadata : list Z;
  market_type : MarketType;
  period : MarketPeriod;
  deadlines : Deadlines;
  scoring_rule : ScoringRule;
  status : MarketStatus;
  report : option Report;
  resolved_outcome : option OutcomeReport;
  dispute_mechanism : option MarketDisputeMechanism;
  bonds : MarketBonds;
  early_close : option EarlyClose;
}.

(** [Market::resolution_mechanism] *)
Definition resolution_mechanism (m : Market) : ResolutionMechanism :=
  match scoring_rule m with
  | Lmsr | Orderbook => RedeemTokens
  | Parimutuel => Noop
  end.

(** [Market::is_redeemable] *)
Definition is_redeemable (m : Market) : bool :=
  match resolution_mechanism m with RedeemTokens => true | Noop => false end.

(** [Market::outcomes] *)
Definition outcomes (m : Market) : Z :=
  match market_type m with
  | MT_Categorical categories => categories
  | MT_Scalar _ _ => 2
  end.

(** [Market::matches_outcome_report] *)
Definition matches_outcome_report (m : Market) (o : OutcomeReport) : bool :=
  match o with
  | Categorical inner =>
      match market_type m with
      | MT_Categorical categories => inner <? categories
      | MT_Scalar _ _ => false
      end
  | Scalar _ =>
      match market_type m with MT_Scalar _ _ => true | _ => false end
  end.

(** [matches!(market_type, MarketType::Categorical(_))] *)
Definition is_categorical (t : MarketType) : bool :=
  match t with MT_Categorical _ => true | MT_Scalar _ _ => false end.
