(* ===== verification/Errors.v ===== *)
(** * Dispatch errors

    One constructor per error the modelled pallets return; [External] stands for
    an error of a component that is not part of the repository (the currency
    pallets), which the runtime only forwards. *)
From S2P Require Import Prelude Types.

Inductive ArithmeticError : Type := Underflow | Overflow | DivisionByZero.
#[export] Instance ArithmeticError_eq_dec : EqDecision ArithmeticError.
Proof. solve_decision. Defined.

(** [zrml_market_commons::Error] *)
Inductive MarketCommonsError : Type :=
| MarketDoesNotExist | MarketPoolDoesNotExist | NoMarketHasBeenCreated | NoReport
| PoolAlreadyExists.
#[export] Instance MarketCommonsError_eq_dec : EqDecision MarketCommonsError.
Proof. solve_decision. Defined.

(** [zrml_parimutuel::InconsistentStateError] and [Error] *)
Inductive PM_InconsistentStateError : Type :=
| InsufficientFundsInPotAccount | OutcomeIssuanceGreaterCollateral.
Inductive ParimutuelError : Type :=
| PM_NoRewardShareOutstanding | PM_MarketIsNotActive | PM_AmountBelowMinimumBetSize
| PM_NotParimutuelOutcome | PM_InvalidOutcomeAsset | PM_InvalidScoringRule
| PM_InsufficientBalance | PM_MarketIsNotResolvedYet | PM_Unexpected | PM_NoResolvedOutcome
| PM_RefundNotAllowed | PM_RefundableBalanceIsZero | PM_NoWinningShares | PM_NotCategorical
| PM_NoRewardToDistribute | PM_InconsistentState (e : PM_InconsistentStateError).
#[export] Instance PM_InconsistentStateError_eq_dec : EqDecision PM_InconsistentStateError.
Proof. solve_decision. Defined.
#[export] Instance ParimutuelError_eq_dec : EqDecision ParimutuelError.
Proof. solve_decision. Defined.

(** [zrml_orderbook::Error] *)
Inductive OrderbookError : Type :=
| OB_NotOrderCreator | OB_OrderDoesNotExist | OB_MarketIsNotActive | OB_InvalidScoringRule
| OB_AmountTooHighForOrder | OB_InvalidOutcomeAsset | OB_PartialFillNearFullFillNotAllowed
| OB_MarketBaseAssetNotPresent | OB_BelowMinimumBalance.
#[export] Instance OrderbookError_eq_dec : EqDecision OrderbookError.
Proof. solve_decision. Defined.

(** [zrml_authorized::Error] *)
Inductive AuthorizedError : Type :=
| AU_MarketDoesNotHaveDisputeMechanismAuthorized | AU_MarketIsNotDisputed | AU_OutcomeMismatch.
#[export] Instance AuthorizedError_eq_dec : EqDecision AuthorizedError.
Proof. solve_decision. Defined.

(** [zrml_simple_disputes::Error] *)
Inductive SimpleDisputesError : Type :=
| SD_InvalidMarketStatus | SD_MarketDoesNotHaveSimpleDisputesMechanism | SD_StorageOverflow
| SD_OutcomeMismatch | SD_CannotDisputeSameOutcome | SD_MarketIsNotReported
| SD_MaxDisputesReached.
#[export] Instance SimpleDisputesError_eq_dec : EqDecision SimpleDisputesError.
Proof. solve_decision. Defined.

(** [zrml_global_disputes::Error] *)
Inductive GlobalDisputesError : Type :=
| GD_AmountTooLow | GD_InvalidGlobalDisputeStatus | GD_InsufficientAmount | GD_MaxOwnersReached
| GD_MaxVotesReached | GD_NoFundsToReward | GD_GlobalDisputeNotFound | GD_OutcomeAlreadyExists
| GD_OutcomeDoesNotExist | GD_OutcomeMismatch | GD_OutcomesNotFullyCleaned
| GD_SharedPossessionRequired | GD_UnfinishedGlobalDispute | GD_AddOutcomePeriodIsOver
| GD_NotInGdVotingPeriod | GD_GlobalDisputeNotDestroyed | GD_GlobalDisputeAlreadyExists.
#[export] Instance GlobalDisputesError_eq_dec : EqDecision GlobalDisputesError.
Proof. solve_decision. Defined.

(** [StorageOverflowError] and [LiquidityTreeError] of [zrml_neo_swaps] *)
Inductive StorageOverflowError : Type := SO_Nodes | SO_AccountToIndex | SO_AbandonedNodes.
Inductive LiquidityTreeError : Type :=
| LT_AccountNotFound | LT_NodeNotFound | LT_UnwithdrawnFees | LT_TreeIsFull
| LT_InsufficientStake | LT_MaxIterationsReached | LT_StorageOverflow (e : StorageOverflowError).
#[export] Instance StorageOverflowError_eq_dec : EqDecision StorageOverflowError.
Proof. solve_decision. Defined.
#[export] Instance LiquidityTreeError_eq_dec : EqDecision LiquidityTreeError.
Proof. solve_decision. Defined.

(** [NumericalLimitsError] and [Error] of [zrml_neo_swaps] *)
Inductive NumericalLimitsError : Type :=
| SpotPriceTooLow | SpotPriceSlippedTooLow | MaxAmountExceeded | MinAmountNotMet.
#[export] Instance NumericalLimitsError_eq_dec : EqDecision NumericalLimitsError.
Proof. solve_decision. Defined.
Inductive NeoSwapsError : Type :=
| NS_AssetCountAboveMax | NS_AmountInAboveMax | NS_AmountOutBelowMin | NS_AssetNotFound
| NS_DuplicatePool | NS_IncorrectAssetCount | NS_IncorrectVecLen | NS_InsufficientPoolShares
| NS_LiquidityTooLow | NS_InvalidSpotPrices | NS_InvalidTradingMechanism | NS_MarketNotActive
| NS_MathError | NS_NotAllowed | NS_NotImplemented | NS_NumericalLimits (e : NumericalLimitsError)
| NS_OutstandingFees | NS_PoolNotFound | NS_SpotPriceAboveMax | NS_SpotPriceBelowMin
| NS_SwapFeeAboveMax | NS_SwapFeeBelowMin | NS_Unexpected | NS_ZeroAmount
| NS_LiquidityTreeError (e : LiquidityTreeError) | NS_MinRelativeLiquidityThresholdViolated.
#[export] Instance NeoSwapsError_eq_dec : EqDecision NeoSwapsError.
Proof. solve_decision. Defined.

(** [zrml_court::Error] *)
Inductive CourtUnexpectedError : Type := BinarySearchByKeyFailed.
Inductive CourtError : Type :=
| CT_JurorDoesNotExist | CT_MarketDoesNotHaveCourtMechanism | CT_MarketIsNotDisputed
| CT_CallerIsNotACourtParticipant | CT_VoteAlreadyRevealed | CT_CommitmentHashMismatch
| CT_CourtNotFound | CT_NotInVotingPeriod | CT_NotInAggregationPeriod | CT_MaxAppealsReached
| CT_NotInAppealPeriod | CT_InvalidVoteState | CT_BelowMinJurorStake
| CT_MaxCourtParticipantsReached | CT_AlreadyPreparedExit | CT_JurorNotDrawn
| CT_JurorDidNotVote | CT_VoteAlreadyDenounced | CT_CallerDenouncedItself | CT_CourtNotClosed
| CT_CourtAlreadyReassigned | CT_NotEnoughJurorsAndDelegatorsStake | CT_MarketReportNotFound
| CT_MaxCourtIdReached | CT_AmountExceedsBalance | CT_AmountBelowLastJoin
| CT_AmountBelowLowestJuror | CT_CourtParticipantTwiceInPool | CT_CallerNotInSelectedDraws
| CT_AppealBondExceedsBalance | CT_PrematureExit | CT_PrepareExitAtNotPresent
| CT_MaxDelegationsReached | CT_JurorDelegated | CT_SelfDelegationNotAllowed
| CT_IdenticalDelegationsNotAllowed | CT_NoDelegations | CT_DelegatedToInvalidJuror
| CT_MarketIdToCourtIdNotFound | CT_CourtIdToMarketIdNotFound
| CT_InvalidVoteItemForOutcomeCourt | CT_InvalidVoteItemForBinaryCourt
| CT_AppealedVoteItemIsNoOutcome | CT_WinnerVoteItemIsNoOutcome | CT_OutcomeMismatch
| CT_VoteItemIsNoOutcome | CT_Unexpected (e : CourtUnexpectedError)
| CT_InflationExceedsMaxYearlyInflation.
#[export] Instance CourtUnexpectedError_eq_dec : EqDecision CourtUnexpectedError.
Proof. solve_decision. Defined.
#[export] Instance CourtError_eq_dec : EqDecision CourtError.
Proof. solve_decision. Defined.

(** [zrml_prediction_markets::Error] *)
Inductive PredictionMarketsError : Type :=
| PMK_CannotDisputeSameOutcome | PMK_EditorNotCreator
| PMK_EditReasonLengthExceedsMaxEditReasonLen | PMK_InsufficientFundsInMarketAccount
| PMK_InsufficientShareBalance | PMK_InvalidMultihash | PMK_InvalidMarketType
| PMK_InvalidScoringRule | PMK_NotEnoughBalance | PMK_MarketAlreadyReported
| PMK_MarketDurationTooLong | PMK_MarketEditRequestAlreadyInProgress
| PMK_MarketEditNotRequested | PMK_MarketIsNotActive | PMK_MarketIsNotClosed
| PMK_MarketIsNotCollectingSubsidy | PMK_MarketIsNotProposed | PMK_MarketIsNotReported
| PMK_MarketIsNotDisputed | PMK_MarketIsNotResolved | PMK_MarketStartTooSoon
| PMK_MarketStartTooLate | PMK_MarketDisputeMechanismNotFailed | PMK_MissingBond
| PMK_NotEnoughCategories | PMK_NoWinningBalance | PMK_OutcomeMismatch
| PMK_RejectReasonLengthExceedsMaxRejectReasonLen | PMK_ReporterNotOracle
| PMK_StorageOverflow | PMK_TooManyCategories | PMK_InvalidDisputeMechanism
| PMK_InvalidMarketStatus | PMK_UnexpectedNoneInPostInfo | PMK_ZeroAmount
| PMK_InvalidMarketPeriod | PMK_InvalidOutcomeRange | PMK_NotAllowedToReportYet
| PMK_DisputeDurationSmallerThanMinDisputeDuration
| PMK_OracleDurationSmallerThanMinOracleDuration
| PMK_DisputeDurationGreaterThanMaxDisputeDuration
| PMK_GracePeriodGreaterThanMaxGracePeriod | PMK_OracleDurationGreaterThanMaxOracleDuration
| PMK_WeightsLenMustEqualAssetsLen | PMK_InvalidBaseAsset | PMK_UnregisteredForeignAsset
| PMK_GlobalDisputeExistsAlready | PMK_NoDisputeMechanism
| PMK_NonZeroDisputePeriodOnTrustedMarket | PMK_FeeTooHigh | PMK_InvalidResolutionMechanism
| PMK_RequesterNotCreator | PMK_EarlyCloseRequestTooLate | PMK_InvalidEarlyCloseState
| PMK_NoEarlyCloseScheduled | PMK_OnlyAuthorizedCanScheduleEarlyClose
| PMK_CallerNotMarketCreator | PMK_MarketIsNotTrusted.
#[export] Instance PredictionMarketsError_eq_dec : EqDecision PredictionMarketsError.
Proof. solve_decision. Defined.

(** [zrml_swaps::UnexpectedError] and [Error] *)
Inductive SW_UnexpectedError : Type := SW_StorageOverflow.
Inductive SwapsError : Type :=
| SW_AboveMaximumWeight | SW_AssetNotBound | SW_AssetNotInPool | SW_BaseAssetNotFound
| SW_BadLimitPrice | SW_BelowMinimumWeight | SW_InsufficientBalance | SW_InsufficientLiquidity
| SW_InvalidAmountArgument | SW_InvalidFeeArgument | SW_InvalidPoolStatus
| SW_InvalidStateTransition | SW_InvalidWeightArgument | SW_LimitIn | SW_InvalidSubsidyAmount
| SW_LimitMissing | SW_LimitOut | SW_MathApproximation | SW_MaxInRatio | SW_MaxOutRatio
| SW_MaxTotalWeight | SW_PoolDoesNotExist | SW_PoolDrain | SW_PoolIsNotActive
| SW_PoolMissingFee | SW_PoolMissingSubsidy | SW_PoolMissingWeight
| SW_ProvidedValuesLenMustEqualAssetsLen | SW_SwapFeeMissing | SW_SwapFeeTooHigh
| SW_TooFewAssets | SW_TooManyAssets | SW_SomeIdenticalAssets | SW_UnsupportedTrade
| SW_WinningAssetNotFound | SW_ZeroAmount | SW_Unexpected (e : SW_UnexpectedError).
#[export] Instance SW_UnexpectedError_eq_dec : EqDecision SW_UnexpectedError.
Proof. solve_decision. Defined.
#[export] Instance SwapsError_eq_dec : EqDecision SwapsError.
Proof. solve_decision. Defined.

(** [zrml_styx::Error] *)
Inductive StyxError : Type := ST_FundDoesNotHaveEnoughFreeBalance | ST_HasAlreadyCrossed.
#[export] Instance StyxError_eq_dec : EqDecision StyxError.
Proof. solve_decision. Defined.

(** [zrml_liquidity_mining::Error] *)
Inductive LiquidityMiningError : Type := LM_FundDoesNotHaveEnoughBalance.
#[export] Instance LiquidityMiningError_eq_dec : EqDecision LiquidityMiningError.
Proof. solve_decision. Defined.

(** [zrml_rikiddo::Error] *)
Inductive RikiddoError : Type :=
| RK_FixedConversionImpossible | RK_RikiddoNotFoundForPool | RK_RikiddoAlreadyExistsForPool.
#[export] Instance RikiddoError_eq_dec : EqDecision RikiddoError.
Proof. solve_decision. Defined.

Inductive DispatchError : Type :=
| OtherError (message : string)
| BadOrigin
| Arithmetic (e : ArithmeticError)
| External (code : Z)
| MarketCommons_Error (e : MarketCommonsError)
| Parimutuel_Error (e : ParimutuelError)
| Orderbook_Error (e : OrderbookError)
| Authorized_Error (e : AuthorizedError)
| SimpleDisputes_Error (e : SimpleDisputesError)
| GlobalDisputes_Error (e : GlobalDisputesError)
| PredictionMarkets_Error (e : PredictionMarketsError)
| NeoSwaps_Error (e : NeoSwapsError)
| Court_Error (e : CourtError)
| Swaps_Error (e : SwapsError)
| Styx_Error (e : StyxError)
| LiquidityMining_Error (e : LiquidityMiningError)
| Rikiddo_Error (e : RikiddoError)
(** Not an error of the runtime: the call panics. *)
| Panic (message : string).
#[export] Instance DispatchError_eq_dec : EqDecision DispatchError.
Proof. solve_decision. Defined.

Coercion MarketCommons_Error : MarketCommonsError >-> DispatchError.
Coercion Parimutuel_Error : ParimutuelError >-> DispatchError.
Coercion Orderbook_Error : OrderbookError >-> DispatchError.
Coercion Authorized_Error : AuthorizedError >-> DispatchError.
Coercion SimpleDisputes_Error : SimpleDisputesError >-> DispatchError.
Coercion GlobalDisputes_Error : GlobalDisputesError >-> DispatchError.
Coercion PredictionMarkets_Error : PredictionMarketsError >-> DispatchError.
Coercion NeoSwaps_Error : NeoSwapsError >-> DispatchError.
Coercion Court_Error : CourtError >-> DispatchError.
Coercion Swaps_Error : SwapsError >-> DispatchError.
Coercion Styx_Error : StyxError >-> DispatchError.
Coercion LiquidityMining_Error : LiquidityMiningError >-> DispatchError.
Coercion Rikiddo_Error : RikiddoError >-> DispatchError.
Coercion NS_LiquidityTreeError : LiquidityTreeError >-> NeoSwapsError.

(** [Result<A, DispatchError>] and storage computations that may fail with one. *)
Abbreviation Res := (result DispatchError).
Abbreviation Store := (M DispatchError).

(** The guards of the pallets, at the error type of the runtime. *)
Abbreviation ensure := (@Prelude.ensure DispatchError _).
Abbreviation ok_or := (@Prelude.ok_or DispatchError _ _).
Abbreviation fail := (@Prelude.fail DispatchError _ _).
Abbreviation ensureR := (@Prelude.ensureR DispatchError).
Abbreviation ok_orR := (@Prelude.ok_orR DispatchError _).
Abbreviation gets := (@Prelude.gets DispatchError _ _).
Abbreviation modify := (@Prelude.modify DispatchError _).
Abbreviation lift := (@Prelude.lift DispatchError _ _).
