(* ===== verification/Fixed.v ===== *)
(** * Checked and fixed point arithmetic

    [primitives/src/math/{checked_ops_res,fixed}.rs]. The code is generic in an
    unsigned integer type; here the type is its maximum [max], so that the same
    definitions serve [u128] balances and [u32] indices. *)
From S2P Require Import Prelude Types Errors.

(** ** Checked operations *)

Definition checked_add_res (max x y : Z) : Res Z :=
  if x + y <=? max then Ok (x + y) else Err (Arithmetic Overflow).
Definition checked_sub_res (x y : Z) : Res Z :=
  if y <=? x then Ok (x - y) else Err (Arithmetic Underflow).
Definition checked_mul_res (max x y : Z) : Res Z :=
  if x * y <=? max then Ok (x * y) else Err (Arithmetic Overflow).
Definition checked_div_res (x y : Z) : Res Z :=
  if y =? 0 then Err (Arithmetic DivisionByZero) else Ok (x / y).

Section CheckedOps.
Implicit Types max x y r : Z.

Lemma checked_add_ok max x y r : checked_add_res max x y = Ok r ↔ x + y ≤ max ∧ r = x + y.
Proof. unfold checked_add_res. destruct (Z.leb_spec (x + y) max); naive_solver lia. Qed.
Lemma checked_sub_ok x y r : checked_sub_res x y = Ok r ↔ y ≤ x ∧ r = x - y.
Proof. unfold checked_sub_res. destruct (Z.leb_spec y x); naive_solver lia. Qed.
Lemma checked_mul_ok max x y r : checked_mul_res max x y = Ok r ↔ x * y ≤ max ∧ r = x * y.
Proof. unfold checked_mul_res. destruct (Z.leb_spec (x * y) max); naive_solver lia. Qed.
Lemma checked_div_ok x y r : checked_div_res x y = Ok r ↔ y ≠ 0 ∧ r = x / y.
Proof. unfold checked_div_res. destruct (Z.eqb_spec y 0); naive_solver. Qed.

Lemma checked_add_err max x y e :
  checked_add_res max x y = Err e → e = Arithmetic Overflow ∧ max < x + y.
Proof. unfold checked_add_res. destruct (Z.leb_spec (x + y) max); naive_solver. Qed.
Lemma checked_sub_err x y e :
  checked_sub_res x y = Err e → e = Arithmetic Underflow ∧ x < y.
Proof. unfold checked_sub_res. destruct (Z.leb_spec y x); naive_solver. Qed.
Lemma checked_mul_err max x y e :
  checked_mul_res max x y = Err e → e = Arithmetic Overflow ∧ max < x * y.
Proof. unfold checked_mul_res. destruct (Z.leb_spec (x * y) max); naive_solver. Qed.
End CheckedOps.

(** ** Fixed point operations *)
Section Fixed.
Context (max : Z).

(** [ZeitgeistBase::get]: the conversion of [BASE] fails for narrow types. *)
Definition ZeitgeistBase_get : Res Z :=
  if BASE <=? max then Ok BASE
  else Err (OtherError "ZeitgeistBase failed to convert BASE to Balance").

Definition bmul (self other : Z) : Res Z :=
  prod ← checked_mul_res max self other;
  base ← ZeitgeistBase_get;
  adjustment ← checked_div_res base 2;
  prod_adjusted ← checked_add_res max prod adjustment;
  base ← ZeitgeistBase_get;
  checked_div_res prod_adjusted base.

Definition bmul_floor (self other : Z) : Res Z :=
  prod ← checked_mul_res max self other;
  base ← ZeitgeistBase_get;
  checked_div_res prod base.

Definition bmul_ceil (self other : Z) : Res Z :=
  prod ← checked_mul_res max self other;
  base ← ZeitgeistBase_get;
  adjustment ← checked_sub_res base 1;
  prod_adjusted ← checked_add_res max prod adjustment;
  base ← ZeitgeistBase_get;
  checked_div_res prod_adjusted base.

Definition bdiv (self other : Z) : Res Z :=
  base ← ZeitgeistBase_get;
  prod ← checked_mul_res max self base;
  adjustment ← checked_div_res other 2;
  prod_adjusted ← checked_add_res max prod adjustment;
  checked_div_res prod_adjusted other.

Definition bdiv_floor (self other : Z) : Res Z :=
  base ← ZeitgeistBase_get;
  prod ← checked_mul_res max self base;
  checked_div_res prod other.

Definition bdiv_ceil (self other : Z) : Res Z :=
  _ ← ensureR (negb (other =? 0)) (Arithmetic DivisionByZero);
  base ← ZeitgeistBase_get;
  prod ← checked_mul_res max self base;
  adjustment ← checked_sub_res other 1;
  prod_adjusted ← checked_add_res max prod adjustment;
  checked_div_res prod_adjusted other.

(** Multiply first and, if that overflows, divide first. *)
Definition bmul_bdiv_common (x multiplier divisor adjustment : Z) : Res Z :=
  let maybe_prod := checked_mul_res max x multiplier in
  let maybe_scaled_prod :=
    r ← maybe_prod; base ← ZeitgeistBase_get; checked_mul_res max r base in
  match maybe_scaled_prod with
  | Ok scaled_prod =>
      quot ← checked_div_res scaled_prod divisor;
      adjusted_quot ← checked_add_res max quot adjustment;
      base ← ZeitgeistBase_get;
      checked_div_res adjusted_quot base
  | Err _ =>
      let smallest := Z.min x multiplier in
      let largest := Z.max x multiplier in
      base ← ZeitgeistBase_get;
      scaled_divident ← checked_mul_res max largest base;
      quot ← checked_div_res scaled_divident divisor;
      prod ← checked_mul_res max quot smallest;
      adjusted_prod ← checked_add_res max prod adjustment;
      base ← ZeitgeistBase_get;
      checked_div_res adjusted_prod base
  end.

Definition bmul_bdiv (self multiplier divisor : Z) : Res Z :=
  base ← ZeitgeistBase_get;
  adjustment ← checked_div_res base 2;
  bmul_bdiv_common self multiplier divisor adjustment.

Definition bmul_bdiv_floor (self multiplier divisor : Z) : Res Z :=
  Err (OtherError "not implemented").
Definition bmul_bdiv_ceil (self multiplier divisor : Z) : Res Z :=
  Err (OtherError "not implemented").
End Fixed.

Lemma ZeitgeistBase_ok max : BASE ≤ max → ZeitgeistBase_get max = Ok BASE.
Proof. intros Hmax. unfold ZeitgeistBase_get. apply Z.leb_le in Hmax. by rewrite Hmax. Qed.

Lemma ZeitgeistBase_inv max r : ZeitgeistBase_get max = Ok r → r = BASE.
Proof. unfold ZeitgeistBase_get. destruct (_ <=? _); naive_solver. Qed.

(** A run of checked operations, inverted to its arithmetic content. *)
Ltac checked :=
  repeat match goal with
  | H : checked_add_res _ _ _ = Ok _ |- _ => apply checked_add_ok in H as [? ?]
  | H : checked_sub_res _ _ = Ok _ |- _ => apply checked_sub_ok in H as [? ?]
  | H : checked_mul_res _ _ _ = Ok _ |- _ => apply checked_mul_ok in H as [? ?]
  | H : checked_div_res _ _ = Ok _ |- _ => apply checked_div_ok in H as [? ?]
  | H : ZeitgeistBase_get _ = Ok _ |- _ => apply ZeitgeistBase_inv in H
  end; subst.

(** ** What the operations compute *)
Section FixedSpec.
Context (max : Z) (Hmax : BASE ≤ max).

Lemma bmul_floor_ok x y r :
  bmul_floor max x y = Ok r ↔ x * y ≤ max ∧ r = x * y / BASE.
Proof.
  unfold bmul_floor. split.
  - intros H. run_inv H. checked. done.
  - intros [Hm ->]. unfold checked_mul_res. apply Z.leb_le in Hm. rewrite Hm. cbn.
    by rewrite ZeitgeistBase_ok by done.
Qed.

Lemma bdiv_floor_ok x y r :
  bdiv_floor max x y = Ok r ↔ x * BASE ≤ max ∧ y ≠ 0 ∧ r = x * BASE / y.
Proof.
  unfold bdiv_floor. split.
  - intros H. run_inv H. checked. done.
  - intros (Hm & Hy & ->). rewrite ZeitgeistBase_ok by done. cbn [mbind result_bind].
    unfold checked_mul_res. apply Z.leb_le in Hm. rewrite Hm. cbn [mbind result_bind].
    unfold checked_div_res. by destruct (Z.eqb_spec y 0).
Qed.

Lemma bdiv_floor_nonneg x y r : 0 ≤ x → 0 ≤ y → bdiv_floor max x y = Ok r → 0 ≤ r.
Proof.
  intros Hx Hy H. apply bdiv_floor_ok in H as (_ & ? & ->). apply Z.div_pos; [|lia].
  pose proof BASE_pos. nia.
Qed.
Lemma bmul_floor_nonneg x y r : 0 ≤ x → 0 ≤ y → bmul_floor max x y = Ok r → 0 ≤ r.
Proof. intros Hx Hy H. apply bmul_floor_ok in H as (_ & ->). apply Z.div_pos; [nia|done]. Qed.

Lemma bmul_ok x y r :
  bmul max x y = Ok r → x * y ≤ max ∧ r = (x * y + BASE / 2) / BASE.
Proof. intros H. unfold bmul in H. run_inv H. checked. done. Qed.

Lemma bmul_ceil_ok x y r :
  bmul_ceil max x y = Ok r → x * y ≤ max ∧ r = (x * y + (BASE - 1)) / BASE.
Proof. intros H. unfold bmul_ceil in H. run_inv H. checked. done. Qed.

Lemma bdiv_ok x y r :
  bdiv max x y = Ok r → y ≠ 0 ∧ x * BASE ≤ max ∧ r = (x * BASE + y / 2) / y.
Proof. intros H. unfold bdiv in H. run_inv H. checked. done. Qed.

Lemma bdiv_ceil_ok x y r :
  bdiv_ceil max x y = Ok r → y ≠ 0 ∧ x * BASE ≤ max ∧ r = (x * BASE + (y - 1)) / y.
Proof. intros H. unfold bdiv_ceil in H. run_inv H. guards. checked. done. Qed.

(** The two evaluation orders of [bmul_bdiv]. *)
Lemma bmul_bdiv_ok x m d r :
  bmul_bdiv max x m d = Ok r →
  d ≠ 0 ∧
  ((x * m ≤ max ∧ x * m * BASE ≤ max ∧ r = (x * m * BASE / d + BASE / 2) / BASE) ∨
   ((max < x * m ∨ max < x * m * BASE) ∧
    r = (Z.max x m * BASE / d * Z.min x m + BASE / 2) / BASE)).
Proof.
  intros H. unfold bmul_bdiv in H. run_inv H. checked. unfold bmul_bdiv_common in H.
  rewrite ZeitgeistBase_ok in H by done.
  destruct (checked_mul_res max x m) as [p|e] eqn:Hp; cbn [mbind result_bind] in H.
  - destruct (checked_mul_res max p BASE) as [sp|e] eqn:Hsp.
    + run_inv H. checked. by split; [|left].
    + run_inv H. apply checked_mul_err in Hsp as [_ ?]. checked.
      split; [done|right]. split; [by right|done].
  - run_inv H. apply checked_mul_err in Hp as [_ ?]. checked.
    split; [done|right]. split; [by left|done].
Qed.

(** Scaling by a ratio [x / d ≤ 1] never exceeds the multiplier: rounding to
    nearest cannot create value. *)
Lemma bmul_bdiv_le x m d r :
  0 ≤ x ≤ d → 0 ≤ m → bmul_bdiv max x m d = Ok r → 0 ≤ r ≤ m.
Proof.
  intros Hx Hm H. apply bmul_bdiv_ok in H as [Hd H]. assert (0 < d) by lia.
  assert (HB : BASE / 2 = 5000000000 ∧ BASE = 10000000000) by done.
  destruct H as [(_ & _ & ->)|[_ ->]].
  - assert (0 ≤ x * m * BASE / d ≤ m * BASE) as Hq.
    { split; [apply Z.div_pos; nia|]. apply floor_le_of_mul; nia. }
    split; [apply Z.div_pos; lia|]. apply Z.lt_succ_r, Z.div_lt_upper_bound; lia.
  - assert (0 ≤ Z.max x m * BASE / d * Z.min x m ≤ m * BASE) as Hq.
    { pose proof (Z.mul_div_le (Z.max x m * BASE) d ltac:(lia)) as Hq.
      pose proof (Z.div_pos (Z.max x m * BASE) d ltac:(nia) ltac:(lia)) as Hq'.
      destruct (Z.max_spec x m) as [[? Hmx]|[? Hmx]]; rewrite Hmx in *.
      - rewrite Z.min_l by lia. split; [nia|].
        transitivity (m * BASE / d * d); [nia|]. lia.
      - rewrite Z.min_r by lia. split; [nia|].
        assert (x * BASE / d ≤ BASE); [apply floor_le_of_mul; nia|nia]. }
    split; [apply Z.div_pos; lia|]. apply Z.lt_succ_r, Z.div_lt_upper_bound; lia.
Qed.

(** The whole is handed out exactly when it does not exceed the divisor or
    the multiplication did not overflow. *)
Lemma bmul_bdiv_self m d r :
  0 < d → 0 ≤ m → (m ≤ d ∨ d * m * BASE ≤ max) → bmul_bdiv max d m d = Ok r → r = m.
Proof.
  intros Hd Hm Hc H. apply bmul_bdiv_ok in H as [_ H].
  assert (HB : BASE / 2 = 5000000000 ∧ BASE = 10000000000) by done.
  assert ((m * BASE + BASE / 2) / BASE = m) as Hround.
  { symmetry. apply Z.div_unique with (BASE / 2); lia. }
  destruct H as [(_ & _ & ->)|[Ho ->]].
  - replace (d * m * BASE) with (m * BASE * d) by lia. by rewrite Z.div_mul by lia.
  - destruct Hc as [Hc|Hc]; [|nia]. rewrite Z.max_l, Z.min_r by lia.
    replace (d * BASE) with (BASE * d) by lia. rewrite Z.div_mul by lia.
    by rewrite (Z.mul_comm BASE).
Qed.
End FixedSpec.
