(* ===== verification/Preimage.v ===== *)
(** * Approximate preimages

    [primitives/src/math/root.rs]: [calc_preimage] searches an interval for a point where
    a function takes a value, by bisection. The function may fail; numbers are unsigned
    integers up to [m]. *)
From S2P Require Import Prelude Types Errors.

Abbreviation Str := (result string).
Definition or_msg {A} (o : option A) (e : string) : Str A := Prelude.ok_orR o e.

(** The sign of the mathematical difference [x - y]. *)
Definition diff_sign (x y : Z) : Z := if x =? y then 0 else if y <? x then 1 else -1.

(** The product of two signs does not saturate. *)
Definition is_outside_of (t x y : Z) : bool := 0 <? diff_sign x t * diff_sign y t.

Definition dist (x y : Z) : Z := if y <? x then x - y else y - x.

Lemma dist_abs x y : dist x y = Z.abs (x - y).
Proof. unfold dist. destruct (Z.ltb_spec y x); lia. Qed.

Section Bisection.
Context (m : Z) (f : Z → Str Z) (value tol : Z).

(** The loop: [rest] iterations are left, [i] is the number of the next one. *)
Fixpoint bisect (rest : nat) (i min max fmax mid iteration_count : Z) : Str (Z * Z) :=
  match rest with
  | O => Ok (mid, iteration_count)
  | S rest =>
      let iteration_count := i in
      size ← or_msg (if min <=? max then Some (max - min) else None) "Unexpected arithmetic underflow";
      if size <? tol then Ok (mid, iteration_count)
      else
        sum ← or_msg (if max + min <=? m then Some (max + min) else None) "Arithmetic overflow";
        let mid := sum / 2 in
        fmid ← f mid;
        if fmid =? value then Ok (mid, iteration_count)
        else if is_outside_of value fmid fmax then bisect rest (i + 1) min mid fmid mid iteration_count
        else bisect rest (i + 1) mid max fmax mid iteration_count
  end.

Definition calc_preimage (min max : Z) (max_iterations : nat) : Str (Z * Z) :=
  _ ← Prelude.ensureR (min <? max) "calc_preimage: Function domain has no volume";
  fmin ← f min;
  fmax ← f max;
  if fmin =? value then Ok (min, 0)
  else if fmax =? value then Ok (max, 0)
  else if is_outside_of value fmin fmax then
    if dist fmax value <? dist fmin value then Ok (max, 0) else Ok (min, 0)
  else bisect max_iterations 1 min max fmax min 0.

(** ** Theorems *)

(** [y] is between [x] and [z], in whichever order they are. *)
Definition between (x y z : Z) : Prop := x ≤ y ≤ z ∨ z ≤ y ≤ x.

Lemma is_outside_of_spec t x y : is_outside_of t x y = false ↔ between x t y.
Proof.
  unfold is_outside_of, diff_sign, between. rewrite Z.ltb_ge.
  repeat match goal with
  | |- context [?a =? ?b] => destruct (Z.eqb_spec a b)
  | |- context [?a <? ?b] => destruct (Z.ltb_spec a b)
  end; cbn; lia.
Qed.

(** An interval that is left after [n] halvings of one of width [w]. *)
Definition halved (w : Z) (n : nat) : Z := (w - 1) / 2 ^ Z.of_nat n + 1.

Lemma halved_O w : halved w 0 = w.
Proof. unfold halved. cbn. rewrite Z.div_1_r. lia. Qed.

Lemma halved_S w w' n : w' ≤ (w + 1) / 2 → halved w' n ≤ halved w (S n).
Proof.
  intros Hw. unfold halved. rewrite Nat2Z.inj_succ, Z.pow_succ_r by lia.
  rewrite <- Zdiv_Zdiv by lia. assert (w' - 1 ≤ (w - 1) / 2) as Hle.
  { replace ((w - 1) / 2) with ((w + 1) / 2 - 1); [lia|].
    replace (w + 1) with (w - 1 + 1 * 2) by lia. rewrite Z.div_add by lia. lia. }
  pose proof (Z.pow_pos_nonneg 2 (Z.of_nat n)) as Hp.
  assert ((w' - 1) / 2 ^ Z.of_nat n ≤ (w - 1) / 2 / 2 ^ Z.of_nat n); [|lia].
  apply Z.div_le_mono; lia.
Qed.

Context (g : Z → Z).

(** What the search from [min] to [max] finds: an interval around the answer where [g]
    crosses the value, and which is small unless the answer is exact. *)
Definition found (min max : Z) (n : nat) (mid : Z) : Prop :=
  ∃ lo hi, min ≤ lo ∧ lo ≤ mid ≤ hi ∧ hi ≤ max ∧ between (g lo) value (g hi) ∧
    (g mid = value ∨ hi - lo ≤ Z.max (tol - 1) (halved (max - min) n)).

Lemma found_mono min max min' max' n mid :
  min' ≤ min → max ≤ max' → max - min ≤ (max' - min' + 1) / 2 →
  found min max n mid → found min' max' (S n) mid.
Proof.
  intros Hmin Hmax Hw (lo & hi & H1 & H2 & H3 & Hb & Hr). exists lo, hi.
  pose proof (halved_S _ _ n Hw). do 3 (split; [lia|]). split; [done|]. destruct Hr; [by left|right; lia].
Qed.

Lemma bisect_found n i min max mid count :
  0 ≤ min < max → 2 * max - 1 ≤ m → mid = min ∨ mid = max →
  (∀ x, min ≤ x ≤ max → f x = Ok (g x)) → between (g min) value (g max) →
  g min ≠ value → g max ≠ value →
  ∃ mid' count', bisect n i min max (g max) mid count = Ok (mid', count') ∧
    found min max n mid' ∧ (count' = count ∨ i ≤ count' < i + Z.of_nat n).
Proof.
  revert i min max mid count. induction n as [|n IH]; intros i min max mid count Hmm Hm Hmid Hf Hb Hlo Hhi; cbn [bisect].
  { exists mid, count. split; [done|]. split; [|by left]. exists min, max.
    rewrite halved_O. do 3 (split; [lia|]). split; [done|]. right. lia. }
  destruct (Z.leb_spec min max); [|lia]. cbn.
  destruct (Z.ltb_spec (max - min) tol).
  { exists mid, i. split; [done|]. split; [|lia]. exists min, max.
    do 3 (split; [lia|]). split; [done|]. right. lia. }
  destruct (Z.leb_spec (max + min) m); [|lia]. cbn.
  set (half := (max + min) / 2).
  assert (min ≤ half < max ∧ half - min ≤ (max - min + 1) / 2 ∧ max - half ≤ (max - min + 1) / 2)
    as (Hh & Hl & Hr) by (subst half; Z.to_euclidean_division_equations; lia).
  rewrite Hf by lia. cbn. destruct (Z.eqb_spec (g half) value) as [Heq|Hne].
  { exists half, i. split; [done|]. split; [|lia]. exists min, max.
    do 3 (split; [lia|]). split; [done|by left]. }
  destruct (is_outside_of value (g half) (g max)) eqn:Hout.
  - assert (half ≠ min) by (intros ->; apply is_outside_of_spec in Hb; congruence).
    destruct (IH (i + 1) min half half i) as (mid' & count' & Hrun & Hfound & Hc); try lia; try done.
    + intros x Hx. apply Hf. lia.
    + apply not_false_iff_true in Hout. rewrite is_outside_of_spec in Hout. unfold between in *. lia.
    + exists mid', count'. split; [done|]. split; [|lia]. apply (found_mono min half); [lia..|done].
  - destruct (IH (i + 1) half max half i) as (mid' & count' & Hrun & Hfound & Hc); try lia; try done.
    + intros x Hx. apply Hf. lia.
    + by apply is_outside_of_spec.
    + exists mid', count'. split; [done|]. split; [|lia]. apply (found_mono half max); [lia..|done].
Qed.

(** (C40) The search always returns: on an interval where the function is defined and sums do
    not overflow, after at most [n] iterations, with an answer inside the interval.
    If the value is not between those at the ends, the answer is the end whose value is
    closer. Otherwise it lies in an interval on which the function crosses the value -
    with or without being monotonous - and, unless it is exact, that interval is narrower
    than [tol] or has been halved [n] times. *)
Theorem calc_preimage_brackets min max n :
  0 ≤ min < max → 2 * max - 1 ≤ m → (∀ x, min ≤ x ≤ max → f x = Ok (g x)) →
  ∃ mid count, calc_preimage min max n = Ok (mid, count) ∧ 0 ≤ count ≤ Z.of_nat n ∧ min ≤ mid ≤ max ∧
    (¬ between (g min) value (g max) →
       (mid = min ∨ mid = max) ∧ Z.abs (g mid - value) = Z.min (Z.abs (g min - value)) (Z.abs (g max - value))) ∧
    (between (g min) value (g max) → found min max n mid).
Proof.
  intros Hmm Hm Hf. unfold calc_preimage. destruct (Z.ltb_spec min max); [|lia]. cbn.
  rewrite !Hf by lia. cbn.
  destruct (Z.eqb_spec (g min) value) as [Emin|Hmin]; [|destruct (Z.eqb_spec (g max) value) as [Emax|Hmax]].
  - exists min, 0. do 3 (split; [first [done|lia]|]). split; [|intros _; exists min, max].
    + intros Hn. destruct Hn. unfold between. lia.
    + do 3 (split; [lia|]). split; [unfold between; lia|by left].
  - exists max, 0. do 3 (split; [first [done|lia]|]). split; [|intros _; exists min, max].
    + intros Hn. destruct Hn. unfold between. lia.
    + do 3 (split; [lia|]). split; [unfold between; lia|by left].
  - destruct (is_outside_of value (g min) (g max)) eqn:Hout.
    + assert (¬ between (g min) value (g max)) by (rewrite <- is_outside_of_spec; congruence).
      rewrite !dist_abs.
      destruct (Z.ltb_spec (Z.abs (g max - value)) (Z.abs (g min - value))); [exists max, 0|exists min, 0];
        do 3 (split; [first [done|lia]|]); (split; [lia|done]).
    + apply is_outside_of_spec in Hout.
      destruct (bisect_found n 1 min max min 0) as (mid & count & Hrun & Hfound & Hc); try done; [by left|].
      exists mid, count. split; [done|]. split; [lia|]. pose proof Hfound as (lo & hi & ? & ? & ? & _).
      split; [lia|]. by split.
Qed.
End Bisection.

(** ** Examples *)
Module PreimageExample.
Definition square (x : Z) : Str Z := Ok (x * x).

Example root_exact : calc_preimage u128_max square 49 1 0 10 20 = Ok (7, 2).
Proof. reflexivity. Qed.
Example root_between : calc_preimage u128_max square 50 1 0 10 20 = Ok (7, 20).
Proof. reflexivity. Qed.
(** The midpoint fits but the sum of the ends does not. *)
Example midpoint_overflows : calc_preimage 255 (λ x, Ok x) 150 1 100 200 20 = Err "Arithmetic overflow"%string.
Proof. reflexivity. Qed.
(** A wide tolerance returns the lower end without looking. *)
Example wide_tolerance : calc_preimage u128_max square 99 11 0 10 20 = Ok (0, 1).
Proof. reflexivity. Qed.

Lemma calc_preimage_brackets_witness :
  ∃ mid count, calc_preimage u128_max square 50 1 0 10 20 = Ok (mid, count) ∧ 0 ≤ count ≤ 20 ∧ 0 ≤ mid ≤ 10 ∧
    (¬ between 0 50 100 → (mid = 0 ∨ mid = 10) ∧
       Z.abs (mid * mid - 50) = Z.min (Z.abs (0 - 50)) (Z.abs (100 - 50))) ∧
    (between 0 50 100 → found 50 1 (λ x, x * x) 0 10 20 mid).
Proof.
  apply (calc_preimage_brackets u128_max square 50 1 (λ x, x * x) 0 10 20); [lia|by vm_compute|done].
Defined.
End PreimageExample.
