(* ===== verification/Currencies.v ===== *)
(** * Interfaces of the currency pallets

    The balances of the chain live in ORML's and Substrate's currency pallets,
    which are not part of the repository: the pallets reach them through the
    traits [MultiCurrency], [NamedMultiReservableCurrency] (multi-asset) and
    [Currency], [LockableCurrency], [NamedReservableCurrency] (native token).
    Here each trait is a class of operations on an abstract ledger [L], and a
    second class states the documented behaviour of the operations that the
    pallets rely on. [Ledger] and [NativeLedger] are concrete instances, used
    only to show that the laws can be met and to run examples.

    The laws describe successful calls through their effect on the observable
    balances; removal of accounts that fall below the existential deposit is
    not part of them. *)
From S2P Require Import Prelude Types Errors.

Abbreviation ReserveIdentifier := string.
Abbreviation LockIdentifier := string.

(** [amt] at the position [(a, x)], zero elsewhere. *)
Definition at_ {K} `{EqDecision K} (k k' : K) (amt : Z) : Z :=
  if decide (k = k') then amt else 0.

Section At.
Context {K : Type} `{EqDecision K}.
Lemma at_eq (k : K) amt : at_ k k amt = amt.
Proof. unfold at_. by rewrite decide_True. Qed.
Lemma at_ne (k k' : K) amt : k ≠ k' → at_ k k' amt = 0.
Proof. unfold at_. intros. by rewrite decide_False. Qed.
Lemma at_nonneg (k k' : K) amt : 0 ≤ amt → 0 ≤ at_ k k' amt.
Proof. unfold at_. by destruct (decide _). Qed.
End At.
(** Evaluates [at_] at positions that are decided by the context. *)
Ltac at_simpl := repeat first [rewrite at_eq | rewrite at_ne by congruence].

(** ** The multi-asset interface *)

Class AssetManager (L : Type) := {
  minimum_balance : Asset → Balance;
  total_issuance : Asset → L → Balance;
  free_balance : Asset → AccountId → L → Balance;
  reserved_balance_named : ReserveIdentifier → Asset → AccountId → L → Balance;
  ensure_can_withdraw : Asset → AccountId → Balance → L → Res unit;
  transfer : Asset → AccountId → AccountId → Balance → Store L unit;
  deposit : Asset → AccountId → Balance → Store L unit;
  withdraw : Asset → AccountId → Balance → Store L unit;
  reserve_named : ReserveIdentifier → Asset → AccountId → Balance → Store L unit;
  (** Returns the amount that could not be unreserved. *)
  unreserve_named : ReserveIdentifier → Asset → AccountId → Balance → L → Balance * L;
  (** To the beneficiary's free balance; returns the amount that was missing. *)
  repatriate_reserved_named :
    ReserveIdentifier → Asset → AccountId → AccountId → Balance → Store L Balance;
  (** Burns; returns the amount that could not be burnt. *)
  slash : Asset → AccountId → Balance → L → Balance * L;
}.

Class AssetManagerLaws (L : Type) `{AssetManager L} := {
  free_nonneg a x (l : L) : 0 ≤ free_balance a x l;
  reserved_nonneg i a x (l : L) : 0 ≤ reserved_balance_named i a x l;
  free_le_issuance a x (l : L) : free_balance a x l ≤ total_issuance a l;
  two_free_le_issuance a x y (l : L) :
    x ≠ y → free_balance a x l + free_balance a y l ≤ total_issuance a l;
  minimum_balance_nonneg a : 0 ≤ minimum_balance a;

  ensure_can_withdraw_ok a x amt (l : L) :
    ensure_can_withdraw a x amt l = Ok tt → amt ≤ free_balance a x l;

  transfer_ok a x y amt (l l' : L) u :
    0 ≤ amt → transfer a x y amt l = (Ok u, l') →
    amt ≤ free_balance a x l ∧
    (∀ b z, free_balance b z l' =
      free_balance b z l - at_ (a, x) (b, z) amt + at_ (a, y) (b, z) amt) ∧
    (∀ b, total_issuance b l' = total_issuance b l) ∧
    (∀ i b z, reserved_balance_named i b z l' = reserved_balance_named i b z l);
  transfer_err a x y amt (l l' : L) e : transfer a x y amt l = (Err e, l') → l' = l;

  deposit_ok a x amt (l l' : L) u :
    0 ≤ amt → deposit a x amt l = (Ok u, l') →
    (∀ b z, free_balance b z l' = free_balance b z l + at_ (a, x) (b, z) amt) ∧
    (∀ b, total_issuance b l' = total_issuance b l + at_ a b amt) ∧
    (∀ i b z, reserved_balance_named i b z l' = reserved_balance_named i b z l);

  withdraw_ok a x amt (l l' : L) u :
    0 ≤ amt → withdraw a x amt l = (Ok u, l') →
    amt ≤ free_balance a x l ∧
    (∀ b z, free_balance b z l' = free_balance b z l - at_ (a, x) (b, z) amt) ∧
    (∀ b, total_issuance b l' = total_issuance b l - at_ a b amt) ∧
    (∀ i b z, reserved_balance_named i b z l' = reserved_balance_named i b z l);

  reserve_named_ok i a x amt (l l' : L) u :
    0 ≤ amt → reserve_named i a x amt l = (Ok u, l') →
    amt ≤ free_balance a x l ∧
    (∀ b z, free_balance b z l' = free_balance b z l - at_ (a, x) (b, z) amt) ∧
    (∀ b, total_issuance b l' = total_issuance b l) ∧
    (∀ j b z, reserved_balance_named j b z l' =
      reserved_balance_named j b z l + at_ (i, a, x) (j, b, z) amt);

  unreserve_named_spec i a x amt (l l' : L) missing :
    0 ≤ amt → unreserve_named i a x amt l = (missing, l') →
    let moved := Z.min amt (reserved_balance_named i a x l) in
    missing = amt - moved ∧
    (∀ b z, free_balance b z l' = free_balance b z l + at_ (a, x) (b, z) moved) ∧
    (∀ b, total_issuance b l' = total_issuance b l) ∧
    (∀ j b z, reserved_balance_named j b z l' =
      reserved_balance_named j b z l - at_ (i, a, x) (j, b, z) moved);

  repatriate_reserved_named_ok i a x y amt (l l' : L) missing :
    0 ≤ amt → repatriate_reserved_named i a x y amt l = (Ok missing, l') →
    let moved := Z.min amt (reserved_balance_named i a x l) in
    missing = amt - moved ∧
    (∀ b z, free_balance b z l' = free_balance b z l + at_ (a, y) (b, z) moved) ∧
    (∀ b, total_issuance b l' = total_issuance b l) ∧
    (∀ j b z, reserved_balance_named j b z l' =
      reserved_balance_named j b z l - at_ (i, a, x) (j, b, z) moved);

  (** Only for amounts the account has: below that, reserves would be used. *)
  slash_spec a x amt (l l' : L) missing :
    0 ≤ amt ≤ free_balance a x l → slash a x amt l = (missing, l') →
    missing = 0 ∧
    (∀ b z, free_balance b z l' = free_balance b z l - at_ (a, x) (b, z) amt) ∧
    (∀ b, total_issuance b l' = total_issuance b l - at_ a b amt) ∧
    (∀ i b z, reserved_balance_named i b z l' = reserved_balance_named i b z l);
}.

(** ** The native-token interface *)

Inductive ExistenceRequirement : Type := KeepAlive | AllowDeath.

Class Currency (L : Type) := {
  cur_minimum_balance : Balance;
  cur_total_issuance : L → Balance;
  cur_free_balance : AccountId → L → Balance;
  cur_reserved_named : ReserveIdentifier → AccountId → L → Balance;
  (** The amount a lock holds, zero without a lock. *)
  cur_locked : LockIdentifier → AccountId → L → Balance;
  cur_transfer : AccountId → AccountId → Balance → ExistenceRequirement → Store L unit;
  cur_reserve_named : ReserveIdentifier → AccountId → Balance → Store L unit;
  cur_unreserve_named : ReserveIdentifier → AccountId → Balance → L → Balance * L;
  (** The slashed amount (a negative imbalance) and the missing amount. *)
  cur_slash_reserved_named :
    ReserveIdentifier → AccountId → Balance → L → Balance * Balance * L;
  (** To the beneficiary's free balance; returns the amount that was missing. *)
  cur_repatriate_reserved_named :
    ReserveIdentifier → AccountId → AccountId → Balance → Store L Balance;
  (** Credits a negative imbalance to an account. *)
  cur_resolve_creating : AccountId → Balance → L → L;
  cur_extend_lock : LockIdentifier → AccountId → Balance → L → L;
  cur_set_lock : LockIdentifier → AccountId → Balance → L → L;
  cur_remove_lock : LockIdentifier → AccountId → L → L;
}.

(** Two ledgers with the same balances and reserves. *)
Definition same_funds {L} `{Currency L} (l l' : L) : Prop :=
  (∀ z, cur_free_balance z l' = cur_free_balance z l) ∧
  (∀ i z, cur_reserved_named i z l' = cur_reserved_named i z l).

Class CurrencyLaws (L : Type) `{Currency L} := {
  cur_free_nonneg x (l : L) : 0 ≤ cur_free_balance x l;
  cur_reserved_nonneg i x (l : L) : 0 ≤ cur_reserved_named i x l;

  cur_transfer_ok x y amt er (l l' : L) u :
    0 ≤ amt → cur_transfer x y amt er l = (Ok u, l') →
    amt ≤ cur_free_balance x l ∧
    (∀ z, cur_free_balance z l' = cur_free_balance z l - at_ x z amt + at_ y z amt) ∧
    (∀ i z, cur_reserved_named i z l' = cur_reserved_named i z l) ∧
    (∀ i z, cur_locked i z l' = cur_locked i z l);
  cur_transfer_err x y amt er (l l' : L) e :
    cur_transfer x y amt er l = (Err e, l') → l' = l;

  cur_reserve_named_ok i x amt (l l' : L) u :
    0 ≤ amt → cur_reserve_named i x amt l = (Ok u, l') →
    amt ≤ cur_free_balance x l ∧
    (∀ z, cur_free_balance z l' = cur_free_balance z l - at_ x z amt) ∧
    (∀ j z, cur_reserved_named j z l' = cur_reserved_named j z l + at_ (i, x) (j, z) amt);

  cur_unreserve_named_spec i x amt (l l' : L) missing :
    0 ≤ amt → cur_unreserve_named i x amt l = (missing, l') →
    let moved := Z.min amt (cur_reserved_named i x l) in
    missing = amt - moved ∧
    (∀ z, cur_free_balance z l' = cur_free_balance z l + at_ x z moved) ∧
    (∀ j z, cur_reserved_named j z l' = cur_reserved_named j z l - at_ (i, x) (j, z) moved);

  cur_slash_reserved_named_spec i x amt (l l' : L) imbalance missing :
    0 ≤ amt → cur_slash_reserved_named i x amt l = (imbalance, missing, l') →
    imbalance = Z.min amt (cur_reserved_named i x l) ∧
    missing = amt - imbalance ∧
    (∀ z, cur_free_balance z l' = cur_free_balance z l) ∧
    (∀ j z, cur_reserved_named j z l' = cur_reserved_named j z l - at_ (i, x) (j, z) imbalance);

  cur_repatriate_reserved_named_ok i x y amt (l l' : L) missing :
    0 ≤ amt → cur_repatriate_reserved_named i x y amt l = (Ok missing, l') →
    let moved := Z.min amt (cur_reserved_named i x l) in
    missing = amt - moved ∧
    (∀ z, cur_free_balance z l' = cur_free_balance z l + at_ y z moved) ∧
    (∀ j z, cur_reserved_named j z l' = cur_reserved_named j z l - at_ (i, x) (j, z) moved);
  cur_repatriate_reserved_named_err i x y amt (l l' : L) e :
    cur_repatriate_reserved_named i x y amt l = (Err e, l') → l' = l;

  (** A credit that would leave a dead account below the minimum is dropped. *)
  cur_resolve_creating_spec x amt (l : L) :
    0 ≤ amt → cur_minimum_balance ≤ cur_free_balance x l + amt →
    (∀ z, cur_free_balance z (cur_resolve_creating x amt l) =
      cur_free_balance z l + at_ x z amt) ∧
    (∀ j z, cur_reserved_named j z (cur_resolve_creating x amt l) = cur_reserved_named j z l);

  cur_extend_lock_spec i x amt (l : L) :
    same_funds l (cur_extend_lock i x amt l) ∧
    (∀ j z, cur_locked j z (cur_extend_lock i x amt l) =
      if decide ((i, x) = (j, z)) then Z.max amt (cur_locked j z l) else cur_locked j z l);
  cur_set_lock_spec i x amt (l : L) :
    same_funds l (cur_set_lock i x amt l) ∧
    (∀ j z, cur_locked j z (cur_set_lock i x amt l) =
      if decide ((i, x) = (j, z)) then amt else cur_locked j z l);
  cur_remove_lock_spec i x (l : L) :
    same_funds l (cur_remove_lock i x l) ∧
    (∀ j z, cur_locked j z (cur_remove_lock i x l) =
      if decide ((i, x) = (j, z)) then 0 else cur_locked j z l);
}.

(** *** Imbalances *)

(** The operations on the native token through which funds are made and destroyed;
    imbalances are amounts. *)
Class ImbalanceCurrency (L : Type) := {
  cur_can_reserve : AccountId → Balance → L → bool;
  (** The slashed amount (a negative imbalance) and the missing amount. *)
  cur_slash : AccountId → Balance → L → Balance * Balance * L;
  (** A negative imbalance, of the given amount unless the issuance saturates. *)
  cur_issue : Balance → L → Balance * L;
  (** A positive imbalance. *)
  cur_burn : Balance → L → L;
  cur_drop_negative : Balance → L → L;
  cur_drop_positive : Balance → L → L;
  (** Whether the account exists and was credited. *)
  cur_resolve_into_existing : AccountId → Balance → L → bool * L;
}.

(** Two ledgers with the same locks. *)
Definition same_locks {L} `{Currency L} (l l' : L) : Prop :=
  ∀ i z, cur_locked i z l' = cur_locked i z l.

Class ImbalanceLaws (L : Type) `{Currency L, ImbalanceCurrency L} := {
  cur_slash_spec x amt (l l' : L) imbalance missing :
    0 ≤ amt → cur_slash x amt l = (imbalance, missing, l') →
    0 ≤ imbalance ≤ amt ∧ missing = amt - imbalance ∧
    (∀ z, z ≠ x → cur_free_balance z l' = cur_free_balance z l) ∧
    cur_free_balance x l - imbalance ≤ cur_free_balance x l' ≤ cur_free_balance x l;
  cur_issue_spec amt (l l' : L) imbalance :
    0 ≤ amt → cur_issue amt l = (imbalance, l') → 0 ≤ imbalance ≤ amt ∧ same_funds l l';
  cur_burn_funds amt (l : L) : same_funds l (cur_burn amt l);
  cur_drop_negative_funds amt (l : L) : same_funds l (cur_drop_negative amt l);
  cur_drop_positive_funds amt (l : L) : same_funds l (cur_drop_positive amt l);
  cur_resolve_into_existing_spec x amt (l l' : L) b :
    0 ≤ amt → cur_resolve_into_existing x amt l = (b, l') →
    ∀ z, cur_free_balance z l' = cur_free_balance z l + (if b then at_ x z amt else 0);
  (** Moving funds never changes a lock. *)
  cur_reserve_named_locks i x amt (l : L) : same_locks l (cur_reserve_named i x amt l).2;
  cur_unreserve_named_locks i x amt (l : L) : same_locks l (cur_unreserve_named i x amt l).2;
  cur_slash_reserved_named_locks i x amt (l : L) : same_locks l (cur_slash_reserved_named i x amt l).2;
  cur_resolve_creating_locks x amt (l : L) : same_locks l (cur_resolve_creating x amt l);
  cur_slash_locks x amt (l : L) : same_locks l (cur_slash x amt l).2;
  cur_issue_locks amt (l : L) : same_locks l (cur_issue amt l).2;
  cur_burn_locks amt (l : L) : same_locks l (cur_burn amt l);
  cur_drop_negative_locks amt (l : L) : same_locks l (cur_drop_negative amt l);
  cur_drop_positive_locks amt (l : L) : same_locks l (cur_drop_positive amt l);
  cur_resolve_into_existing_locks x amt (l : L) : same_locks l (cur_resolve_into_existing x amt l).2;
}.

#[export] Instance same_locks_preorder {L} `{Currency L} : PreOrder (same_locks (L := L)).
Proof. split; [done|]. intros l1 l2 l3 H12 H23 i z. by rewrite H23. Qed.

(** ** Both views of the native token *)

(** The runtime's multi-asset manager reaches the native token through the
    currency pallet: both interfaces see the same balances. *)
Class NativeAsset (L : Type) `{AssetManager L, Currency L} := {
  native_free x (l : L) : cur_free_balance x l = free_balance Ztg x l;
  native_reserved i x (l : L) : cur_reserved_named i x l = reserved_balance_named i Ztg x l;
}.

(** ** Counters: maps to non-negative amounts *)
Section Counter.
Context {K : Type} `{Countable K}.

Definition get_amount (k : K) (m : gmap K N) : Z := Z.of_N (default 0%N (m !! k)).
Definition add_amount (k : K) (amt : Z) (m : gmap K N) : gmap K N :=
  <[k := Z.to_N (get_amount k m + amt)]> m.

Lemma get_amount_nonneg k m : 0 ≤ get_amount k m.
Proof. unfold get_amount. lia. Qed.

Lemma get_add_amount k amt m k' :
  0 ≤ get_amount k m + amt →
  get_amount k' (add_amount k amt m) = get_amount k' m + at_ k k' amt.
Proof.
  intros Hnn. unfold add_amount, at_. destruct (decide (k = k')) as [<-|Hne].
  - unfold get_amount at 1. rewrite lookup_insert_eq. cbn. lia.
  - unfold get_amount. rewrite lookup_insert_ne by done. lia.
Qed.

Definition total (P : K → bool) (m : gmap K N) : Z :=
  map_sum (λ k v, if P k then Z.of_N v else 0) m.

Lemma entry_total (P : K → bool) m k :
  entry (λ k v, if P k then Z.of_N v else 0) m k = if P k then get_amount k m else 0.
Proof. unfold entry, get_amount. by destruct (m !! k), (P k). Qed.

Lemma total_add_amount (P : K → bool) k amt m :
  0 ≤ get_amount k m + amt →
  total P (add_amount k amt m) = total P m + (if P k then amt else 0).
Proof.
  intros. unfold total, add_amount. rewrite map_sum_update, entry_total.
  destruct (P k); [rewrite Z2N.id by done|]; lia.
Qed.

Lemma total_nonneg P m : 0 ≤ total P m.
Proof. apply map_sum_nonneg. intros. destruct (P k); lia. Qed.

Lemma get_amount_le_total (P : K → bool) m k : P k = true → get_amount k m ≤ total P m.
Proof.
  intros HP. pose proof (entry_total P m k) as He. rewrite HP in He. rewrite <- He.
  apply entry_le_map_sum. intros. destruct (P k0); lia.
Qed.

Lemma two_amounts_le_total (P : K → bool) m k k' :
  k ≠ k' → P k = true → P k' = true → get_amount k m + get_amount k' m ≤ total P m.
Proof.
  intros Hne HP HP'. pose proof (get_amount_le_total P (add_amount k (- get_amount k m) m) k' HP').
  rewrite total_add_amount, get_add_amount, HP in * by lia. rewrite at_ne in * by done. lia.
Qed.
End Counter.
