(* ===== verification/Ledgers.v ===== *)
(** * Concrete ledgers

    Small ledgers that meet the laws of [Currencies]: they show that the laws
    are consistent and let the examples of the other files evaluate. *)
From S2P Require Import Prelude Types Errors Currencies.

(** ** Multi-asset ledger *)

Record Ledger : Type := mk_Ledger {
  led_free : gmap (Asset * AccountId) N;
  led_reserved : gmap (ReserveIdentifier * Asset * AccountId) N;
}.

Definition empty_ledger : Ledger := mk_Ledger ∅ ∅.

(** The existential deposit of the examples. *)
Definition ledger_minimum (a : Asset) : Balance := 5.

Definition of_asset (a : Asset) (k : Asset * AccountId) : bool := bool_decide (k.1 = a).
Definition of_asset_reserved (a : Asset) (k : ReserveIdentifier * Asset * AccountId) : bool :=
  bool_decide (k.1.2 = a).

Definition led_move_free (a : Asset) (x : AccountId) (amt : Z) (l : Ledger) : Ledger :=
  mk_Ledger (add_amount (a, x) amt (led_free l)) (led_reserved l).
Definition led_move_reserved (i : ReserveIdentifier) (a : Asset) (x : AccountId) (amt : Z)
    (l : Ledger) : Ledger :=
  mk_Ledger (led_free l) (add_amount (i, a, x) amt (led_reserved l)).

Definition no_funds : DispatchError := External 1.

#[export] Instance Ledger_manager : AssetManager Ledger := {
  minimum_balance := ledger_minimum;
  total_issuance a l := total (of_asset a) (led_free l)
                        + total (of_asset_reserved a) (led_reserved l);
  free_balance a x l := get_amount (a, x) (led_free l);
  reserved_balance_named i a x l := get_amount (i, a, x) (led_reserved l);
  ensure_can_withdraw a x amt l :=
    ensureR (amt <=? get_amount (a, x) (led_free l)) no_funds;
  transfer a x y amt l :=
    if amt <=? get_amount (a, x) (led_free l)
    then (Ok tt, led_move_free a y amt (led_move_free a x (- amt) l))
    else (Err no_funds, l);
  deposit a x amt l := (Ok tt, led_move_free a x amt l);
  withdraw a x amt l :=
    if amt <=? get_amount (a, x) (led_free l)
    then (Ok tt, led_move_free a x (- amt) l)
    else (Err no_funds, l);
  reserve_named i a x amt l :=
    if amt <=? get_amount (a, x) (led_free l)
    then (Ok tt, led_move_reserved i a x amt (led_move_free a x (- amt) l))
    else (Err no_funds, l);
  unreserve_named i a x amt l :=
    let moved := Z.min amt (get_amount (i, a, x) (led_reserved l)) in
    (amt - moved, led_move_free a x moved (led_move_reserved i a x (- moved) l));
  repatriate_reserved_named i a x y amt l :=
    let moved := Z.min amt (get_amount (i, a, x) (led_reserved l)) in
    (Ok (amt - moved), led_move_free a y moved (led_move_reserved i a x (- moved) l));
  slash a x amt l :=
    let burnt := Z.min amt (get_amount (a, x) (led_free l)) in
    (amt - burnt, led_move_free a x (- burnt) l);
}.

Section LedgerLaws.
Implicit Types l : Ledger.

Lemma free_move_free a x amt l b z :
  0 ≤ get_amount (a, x) (led_free l) + amt →
  get_amount (b, z) (led_free (led_move_free a x amt l)) =
  get_amount (b, z) (led_free l) + at_ (a, x) (b, z) amt.
Proof. apply get_add_amount. Qed.

Lemma reserved_move_reserved i a x amt l j b z :
  0 ≤ get_amount (i, a, x) (led_reserved l) + amt →
  get_amount (j, b, z) (led_reserved (led_move_reserved i a x amt l)) =
  get_amount (j, b, z) (led_reserved l) + at_ (i, a, x) (j, b, z) amt.
Proof. apply get_add_amount. Qed.

Lemma issuance_move_free a x amt l b :
  0 ≤ get_amount (a, x) (led_free l) + amt →
  total_issuance b (led_move_free a x amt l) = total_issuance b l + at_ a b amt.
Proof.
  intros. cbn. rewrite total_add_amount by done. unfold of_asset at 2, at_. cbn.
  rewrite <- decide_bool_decide. destruct (decide _); lia.
Qed.

Lemma issuance_move_reserved i a x amt l b :
  0 ≤ get_amount (i, a, x) (led_reserved l) + amt →
  total_issuance b (led_move_reserved i a x amt l) = total_issuance b l + at_ a b amt.
Proof.
  intros. cbn. rewrite total_add_amount by done. unfold of_asset_reserved at 2, at_. cbn.
  rewrite <- decide_bool_decide. destruct (decide _); lia.
Qed.

Lemma at_opp {K} `{EqDecision K} (k k' : K) amt : at_ k k' (- amt) = - at_ k k' amt.
Proof. unfold at_. by destruct (decide _). Qed.

Lemma at_pos_bound {K} `{EqDecision K} (k k' : K) amt (f : K → Z) :
  0 ≤ amt ≤ f k → 0 ≤ f k' → 0 ≤ at_ k k' amt ≤ f k'.
Proof. unfold at_. destruct (decide _) as [->|]; lia. Qed.
End LedgerLaws.

(** The four movements the ledger is made of. *)
Section Movements.
Implicit Types l : Ledger.

Lemma led_debit a x amt l :
  amt ≤ get_amount (a, x) (led_free l) →
  (∀ b z, free_balance b z (led_move_free a x (- amt) l) =
    free_balance b z l - at_ (a, x) (b, z) amt) ∧
  (∀ b, total_issuance b (led_move_free a x (- amt) l) = total_issuance b l - at_ a b amt).
Proof.
  split; intros; cbn [free_balance Ledger_manager].
  - rewrite free_move_free, at_opp by lia. lia.
  - rewrite issuance_move_free, at_opp by lia. lia.
Qed.

Lemma led_credit a x amt l :
  0 ≤ amt →
  (∀ b z, free_balance b z (led_move_free a x amt l) =
    free_balance b z l + at_ (a, x) (b, z) amt) ∧
  (∀ b, total_issuance b (led_move_free a x amt l) = total_issuance b l + at_ a b amt).
Proof.
  intros. pose proof (get_amount_nonneg (a, x) (led_free l)). split; intros.
  - apply free_move_free. lia.
  - apply issuance_move_free. lia.
Qed.

Lemma led_reserve i a x amt l :
  0 ≤ get_amount (i, a, x) (led_reserved l) + amt →
  (∀ j b z, reserved_balance_named j b z (led_move_reserved i a x amt l) =
    reserved_balance_named j b z l + at_ (i, a, x) (j, b, z) amt) ∧
  (∀ b, total_issuance b (led_move_reserved i a x amt l) = total_issuance b l + at_ a b amt).
Proof.
  split; intros; [by apply reserved_move_reserved|by apply issuance_move_reserved].
Qed.

Lemma led_unreserve_to i a x y amt l :
  0 ≤ amt →
  let moved := Z.min amt (get_amount (i, a, x) (led_reserved l)) in
  let l' := led_move_free a y moved (led_move_reserved i a x (- moved) l) in
  (∀ b z, free_balance b z l' = free_balance b z l + at_ (a, y) (b, z) moved) ∧
  (∀ b, total_issuance b l' = total_issuance b l) ∧
  (∀ j b z, reserved_balance_named j b z l' =
    reserved_balance_named j b z l - at_ (i, a, x) (j, b, z) moved).
Proof.
  intros Hamt moved l'. pose proof (get_amount_nonneg (i, a, x) (led_reserved l)).
  assert (0 ≤ moved) by lia.
  destruct (led_reserve i a x (- moved) l) as [Hr Hi]; [lia|].
  destruct (led_credit a y moved (led_move_reserved i a x (- moved) l)) as [Hf Hi']; [lia|].
  split; [exact Hf|split].
  - intros b. subst l'. rewrite Hi', Hi, at_opp. lia.
  - intros j b z. change (reserved_balance_named j b z l') with
      (reserved_balance_named j b z (led_move_reserved i a x (- moved) l)).
    rewrite Hr, at_opp. lia.
Qed.
End Movements.

#[export] Instance Ledger_laws : AssetManagerLaws Ledger.
Proof.
  split.
  - intros. apply get_amount_nonneg.
  - intros. apply get_amount_nonneg.
  - intros. cbn. pose proof (total_nonneg (of_asset_reserved a) (led_reserved l)).
    pose proof (get_amount_le_total (of_asset a) (led_free l) (a, x)) as Hle.
    rewrite Hle; [lia|]. by apply bool_decide_eq_true.
  - intros a x y l Hne. cbn. pose proof (total_nonneg (of_asset_reserved a) (led_reserved l)).
    pose proof (two_amounts_le_total (of_asset a) (led_free l) (a, x) (a, y)) as Hle.
    rewrite Hle; [lia|congruence|by apply bool_decide_eq_true..].
  - done.
  - intros a x amt l H. cbn in H. by apply ensureR_ok_inv, Z.leb_le in H.
  - intros a x y amt l l' u Hamt H. cbn in H.
    destruct (Z.leb_spec amt (get_amount (a, x) (led_free l))) as [Hle|]; [|done].
    injection H as _ <-. destruct (led_debit a x amt l Hle) as [Hd Hi].
    destruct (led_credit a y amt (led_move_free a x (- amt) l) Hamt) as [Hc Hi'].
    split; [done|split; [|split; [|done]]].
    + intros b z. by rewrite Hc, Hd.
    + intros b. rewrite Hi', Hi. lia.
  - intros a x y amt l l' e H. cbn in H. destruct (_ <=? _); naive_solver.
  - intros a x amt l l' u Hamt H. injection H as _ <-.
    by destruct (led_credit a x amt l Hamt).
  - intros a x amt l l' u Hamt H. cbn in H.
    destruct (Z.leb_spec amt (get_amount (a, x) (led_free l))) as [Hle|]; [|done].
    injection H as _ <-. by destruct (led_debit a x amt l Hle).
  - intros i a x amt l l' u Hamt H. cbn in H.
    destruct (Z.leb_spec amt (get_amount (a, x) (led_free l))) as [Hle|]; [|done].
    injection H as _ <-. destruct (led_debit a x amt l Hle) as [Hd Hi].
    destruct (led_reserve i a x amt (led_move_free a x (- amt) l)) as [Hr Hi'].
    { pose proof (get_amount_nonneg (i, a, x) (led_reserved (led_move_free a x (- amt) l))). lia. }
    split; [done|split; [exact Hd|split; [|exact Hr]]].
    intros b. rewrite Hi', Hi. lia.
  - intros i a x amt l l' missing Hamt H. injection H as <- <-.
    split; [done|]. by apply led_unreserve_to.
  - intros i a x y amt l l' missing Hamt H. injection H as <- <-.
    split; [done|]. by apply led_unreserve_to.
  - intros a x amt l l' missing [Hamt Hle] H. injection H as <- <-.
    cbn [free_balance Ledger_manager] in Hle. rewrite Z.min_l by done.
    destruct (led_debit a x amt l Hle) as [Hd Hi]. split; [lia|done].
Qed.

(** ** Native-token ledger *)

Record NativeLedger : Type := mk_NativeLedger {
  nat_free : gmap AccountId N;
  nat_reserved : gmap (ReserveIdentifier * AccountId) N;
  nat_locks : gmap (LockIdentifier * AccountId) Z;
}.
Definition empty_native_ledger : NativeLedger := mk_NativeLedger ∅ ∅ ∅.

Definition nat_move_free (x : AccountId) (amt : Z) (l : NativeLedger) : NativeLedger :=
  mk_NativeLedger (add_amount x amt (nat_free l)) (nat_reserved l) (nat_locks l).
Definition nat_move_reserved (i : ReserveIdentifier) (x : AccountId) (amt : Z)
    (l : NativeLedger) : NativeLedger :=
  mk_NativeLedger (nat_free l) (add_amount (i, x) amt (nat_reserved l)) (nat_locks l).
Definition nat_with_locks (f : gmap (LockIdentifier * AccountId) Z →
    gmap (LockIdentifier * AccountId) Z) (l : NativeLedger) : NativeLedger :=
  mk_NativeLedger (nat_free l) (nat_reserved l) (f (nat_locks l)).
Definition nat_locked (i : LockIdentifier) (x : AccountId) (l : NativeLedger) : Z :=
  default 0 (nat_locks l !! (i, x)).

(** The existential deposit of the examples. *)
Definition native_minimum : Balance := 5.

#[export] Instance NativeLedger_currency : Currency NativeLedger := {
  cur_minimum_balance := native_minimum;
  cur_total_issuance l := total (λ _, true) (nat_free l) + total (λ _, true) (nat_reserved l);
  cur_free_balance x l := get_amount x (nat_free l);
  cur_reserved_named i x l := get_amount (i, x) (nat_reserved l);
  cur_locked := nat_locked;
  cur_transfer x y amt er l :=
    if amt <=? get_amount x (nat_free l)
    then (Ok tt, nat_move_free y amt (nat_move_free x (- amt) l))
    else (Err no_funds, l);
  cur_reserve_named i x amt l :=
    if amt <=? get_amount x (nat_free l)
    then (Ok tt, nat_move_reserved i x amt (nat_move_free x (- amt) l))
    else (Err no_funds, l);
  cur_unreserve_named i x amt l :=
    let moved := Z.min amt (get_amount (i, x) (nat_reserved l)) in
    (amt - moved, nat_move_free x moved (nat_move_reserved i x (- moved) l));
  cur_slash_reserved_named i x amt l :=
    let moved := Z.min amt (get_amount (i, x) (nat_reserved l)) in
    (moved, amt - moved, nat_move_reserved i x (- moved) l);
  cur_repatriate_reserved_named i x y amt l :=
    let moved := Z.min amt (get_amount (i, x) (nat_reserved l)) in
    (Ok (amt - moved), nat_move_free y moved (nat_move_reserved i x (- moved) l));
  cur_resolve_creating x amt l :=
    if native_minimum <=? get_amount x (nat_free l) + amt then nat_move_free x amt l else l;
  cur_extend_lock i x amt l :=
    nat_with_locks (<[(i, x) := Z.max amt (nat_locked i x l)]>) l;
  cur_set_lock i x amt l := nat_with_locks (<[(i, x) := amt]>) l;
  cur_remove_lock i x l := nat_with_locks (delete (i, x)) l;
}.

Section NativeMovements.
Implicit Types l : NativeLedger.

Lemma nat_free_move x amt l z :
  0 ≤ get_amount x (nat_free l) + amt →
  get_amount z (nat_free (nat_move_free x amt l)) = get_amount z (nat_free l) + at_ x z amt.
Proof. apply get_add_amount. Qed.
Lemma nat_reserved_move i x amt l j z :
  0 ≤ get_amount (i, x) (nat_reserved l) + amt →
  get_amount (j, z) (nat_reserved (nat_move_reserved i x amt l)) =
  get_amount (j, z) (nat_reserved l) + at_ (i, x) (j, z) amt.
Proof. apply get_add_amount. Qed.

Lemma nat_locked_insert i x amt l j z :
  nat_locked j z (nat_with_locks (<[(i, x) := amt]>) l) =
  if decide ((i, x) = (j, z)) then amt else nat_locked j z l.
Proof.
  unfold nat_locked. cbn. rewrite lookup_insert. by destruct (decide _).
Qed.
End NativeMovements.

#[export] Instance NativeLedger_laws : CurrencyLaws NativeLedger.
Proof.
  split.
  - intros. apply get_amount_nonneg.
  - intros. apply get_amount_nonneg.
  - intros x y amt er l l' u Hamt H. cbn in H.
    destruct (Z.leb_spec amt (get_amount x (nat_free l))) as [Hle|]; [|done].
    injection H as _ <-. split; [done|split; [|done]]. intros z.
    cbn [cur_free_balance NativeLedger_currency].
    pose proof (get_amount_nonneg y (nat_free (nat_move_free x (- amt) l))).
    rewrite !nat_free_move, at_opp by lia. lia.
  - intros x y amt er l l' e H. cbn in H. destruct (_ <=? _); naive_solver.
  - intros i x amt l l' u Hamt H. cbn in H.
    destruct (Z.leb_spec amt (get_amount x (nat_free l))) as [Hle|]; [|done].
    injection H as _ <-. split; [done|split].
    + intros z. change (get_amount z (nat_free (nat_move_free x (- amt) l)) =
        get_amount z (nat_free l) - at_ x z amt). rewrite nat_free_move, at_opp by lia. lia.
    + intros j z. apply nat_reserved_move.
      pose proof (get_amount_nonneg (i, x) (nat_reserved (nat_move_free x (- amt) l))). lia.
  - intros i x amt l l' missing Hamt H. injection H as <- <-.
    pose proof (get_amount_nonneg (i, x) (nat_reserved l)).
    cbn [cur_reserved_named cur_free_balance NativeLedger_currency]. set (moved := Z.min amt _).
    split; [done|split].
    + intros z. rewrite nat_free_move; [done|].
      pose proof (get_amount_nonneg x (nat_free (nat_move_reserved i x (- moved) l))). lia.
    + intros j z. change (get_amount (j, z) (nat_reserved (nat_move_reserved i x (- moved) l)) =
        get_amount (j, z) (nat_reserved l) - at_ (i, x) (j, z) moved).
      rewrite nat_reserved_move, at_opp by lia. lia.
  - intros i x amt l l' imbalance missing Hamt H. injection H as <- <- <-.
    pose proof (get_amount_nonneg (i, x) (nat_reserved l)).
    split; [done|split; [done|split; [done|]]]. intros j z.
    cbn [cur_reserved_named NativeLedger_currency]. rewrite nat_reserved_move, at_opp by lia. lia.
  - intros i x y amt l l' missing Hamt H. injection H as <- <-.
    pose proof (get_amount_nonneg (i, x) (nat_reserved l)).
    cbn [cur_reserved_named cur_free_balance NativeLedger_currency]. set (moved := Z.min amt _).
    split; [done|split].
    + intros z. rewrite nat_free_move; [done|].
      pose proof (get_amount_nonneg y (nat_free (nat_move_reserved i x (- moved) l))). lia.
    + intros j z. change (get_amount (j, z) (nat_reserved (nat_move_reserved i x (- moved) l)) =
        get_amount (j, z) (nat_reserved l) - at_ (i, x) (j, z) moved).
      rewrite nat_reserved_move, at_opp by lia. lia.
  - done.
  - intros x amt l Hamt Hmin. cbn in *. apply Z.leb_le in Hmin. rewrite Hmin.
    split; [|done]. intros z. apply nat_free_move.
    pose proof (get_amount_nonneg x (nat_free l)). lia.
  - intros i x amt l. split; [done|]. intros j z. cbn. rewrite nat_locked_insert.
    destruct (decide ((i, x) = (j, z))); [by simplify_eq|done].
  - intros i x amt l. split; [done|]. intros j z. cbn. apply nat_locked_insert.
  - intros i x l. split; [done|]. intros j z. cbn. unfold nat_locked. cbn.
    rewrite lookup_delete. by destruct (decide _).
Qed.

(** Total issuance is the sum of the balances here, so that imbalances need no record. *)
#[export] Instance NativeLedger_imbalances : ImbalanceCurrency NativeLedger := {
  cur_can_reserve x amt l := amt <=? get_amount x (nat_free l);
  cur_slash x amt l :=
    let moved := Z.min amt (get_amount x (nat_free l)) in (moved, amt - moved, nat_move_free x (- moved) l);
  cur_issue amt l := (amt, l);
  cur_burn amt l := l;
  cur_drop_negative amt l := l;
  cur_drop_positive amt l := l;
  cur_resolve_into_existing x amt l :=
    if native_minimum <=? get_amount x (nat_free l) then (true, nat_move_free x amt l) else (false, l);
}.

#[export] Instance NativeLedger_imbalance_laws : ImbalanceLaws NativeLedger.
Proof.
  split; try done.
  - intros x amt l l' imbalance missing Hamt Hs. injection Hs as <- <- <-.
    pose proof (get_amount_nonneg x (nat_free l)). cbn [cur_free_balance NativeLedger_currency].
    split; [lia|split; [done|split]].
    + intros z Hz. rewrite nat_free_move, at_ne by (congruence || lia). lia.
    + rewrite nat_free_move, at_eq by lia. lia.
  - intros amt l l' imbalance Hamt [= <- <-]. split; [lia|done].
  - intros x amt l l' b Hamt Hr z. cbn in Hr. destruct (_ <=? _); injection Hr as <- <-; [|lia].
    cbn [cur_free_balance NativeLedger_currency]. pose proof (get_amount_nonneg x (nat_free l)).
    apply nat_free_move. lia.
  - intros i x amt l. cbn. by destruct (_ <=? _).
  - intros x amt l j z. cbn. by destruct (_ <=? _).
  - intros x amt l j z. cbn. by destruct (_ <=? _).
Qed.

(** ** One ledger for both interfaces *)

(** The multi-asset ledger with locks on the native token, as the runtime has it. *)
Record RuntimeLedger : Type := mk_RuntimeLedger {
  rl_assets : Ledger;
  rl_locks : gmap (LockIdentifier * AccountId) Z;
}.
Definition set_rl_assets (l : Ledger) (r : RuntimeLedger) : RuntimeLedger :=
  mk_RuntimeLedger l (rl_locks r).
Definition set_rl_locks (m : gmap (LockIdentifier * AccountId) Z) (r : RuntimeLedger)
    : RuntimeLedger := mk_RuntimeLedger (rl_assets r) m.
Definition rl_pure {A} (f : Ledger → A * Ledger) (r : RuntimeLedger) : A * RuntimeLedger :=
  let '(a, l) := f (rl_assets r) in (a, set_rl_assets l r).
Definition rl_locked (i : LockIdentifier) (x : AccountId) (r : RuntimeLedger) : Z :=
  default 0 (rl_locks r !! (i, x)).

#[export] Instance RuntimeLedger_manager : AssetManager RuntimeLedger := {
  minimum_balance := ledger_minimum;
  total_issuance a r := total_issuance a (rl_assets r);
  free_balance a x r := free_balance a x (rl_assets r);
  reserved_balance_named i a x r := reserved_balance_named i a x (rl_assets r);
  ensure_can_withdraw a x amt r := ensure_can_withdraw a x amt (rl_assets r);
  transfer a x y amt := rl_pure (transfer a x y amt);
  deposit a x amt := rl_pure (deposit a x amt);
  withdraw a x amt := rl_pure (withdraw a x amt);
  reserve_named i a x amt := rl_pure (reserve_named i a x amt);
  unreserve_named i a x amt := rl_pure (unreserve_named i a x amt);
  repatriate_reserved_named i a x y amt := rl_pure (repatriate_reserved_named i a x y amt);
  slash a x amt := rl_pure (slash a x amt);
}.

#[export] Instance RuntimeLedger_currency : Currency RuntimeLedger := {
  cur_minimum_balance := native_minimum;
  cur_total_issuance := total_issuance Ztg;
  cur_free_balance := free_balance Ztg;
  cur_reserved_named i := reserved_balance_named i Ztg;
  cur_locked := rl_locked;
  cur_transfer x y amt er := transfer Ztg x y amt;
  cur_reserve_named i := reserve_named i Ztg;
  cur_unreserve_named i := unreserve_named i Ztg;
  cur_slash_reserved_named i x amt r :=
    let moved := Z.min amt (reserved_balance_named i Ztg x r) in
    (moved, amt - moved, set_rl_assets (led_move_reserved i Ztg x (- moved) (rl_assets r)) r);
  cur_repatriate_reserved_named i := repatriate_reserved_named i Ztg;
  cur_resolve_creating x amt r :=
    if native_minimum <=? free_balance Ztg x r + amt
    then set_rl_assets (led_move_free Ztg x amt (rl_assets r)) r else r;
  cur_extend_lock i x amt r :=
    set_rl_locks (<[(i, x) := Z.max amt (rl_locked i x r)]> (rl_locks r)) r;
  cur_set_lock i x amt r := set_rl_locks (<[(i, x) := amt]> (rl_locks r)) r;
  cur_remove_lock i x r := set_rl_locks (delete (i, x) (rl_locks r)) r;
}.

Lemma rl_pure_inv {A} (f : Ledger → A * Ledger) r r' a :
  rl_pure f r = (a, r') → ∃ l', f (rl_assets r) = (a, l') ∧ r' = set_rl_assets l' r.
Proof. unfold rl_pure. destruct (f (rl_assets r)) as [b l']. intros [= <- <-]. eauto. Qed.

#[export] Instance RuntimeLedger_laws : AssetManagerLaws RuntimeLedger.
Proof.
  split; cbn [free_balance reserved_balance_named total_issuance minimum_balance
    ensure_can_withdraw transfer deposit withdraw reserve_named unreserve_named
    repatriate_reserved_named slash RuntimeLedger_manager]; intros;
    repeat match goal with
    | H : rl_pure _ _ = _ |- _ => apply rl_pure_inv in H as (? & H & ->)
    end; cbn [rl_assets set_rl_assets].
  - by apply (free_nonneg (L := Ledger)).
  - by apply (reserved_nonneg (L := Ledger)).
  - by apply (free_le_issuance (L := Ledger)).
  - by apply (two_free_le_issuance (L := Ledger)).
  - done.
  - by apply (ensure_can_withdraw_ok (L := Ledger)).
  - by eapply transfer_ok.
  - eapply transfer_err in H as ->. by destruct l.
  - by eapply deposit_ok.
  - by eapply withdraw_ok.
  - by eapply reserve_named_ok.
  - by eapply unreserve_named_spec.
  - by eapply repatriate_reserved_named_ok.
  - by eapply slash_spec.
Qed.

#[export] Instance RuntimeLedger_native : NativeAsset RuntimeLedger.
Proof. done. Qed.

Lemma at_asset (a : Asset) (x z : AccountId) amt : at_ (a, x) (a, z) amt = at_ x z amt.
Proof. unfold at_. by repeat destruct (decide _); simplify_eq. Qed.
Lemma at_named (a : Asset) (i j : ReserveIdentifier) (x z : AccountId) amt :
  at_ (i, a, x) (j, a, z) amt = at_ (i, x) (j, z) amt.
Proof. unfold at_. by repeat destruct (decide _); simplify_eq. Qed.

#[export] Instance RuntimeLedger_currency_laws : CurrencyLaws RuntimeLedger.
Proof.
  split.
  - intros x l. apply (free_nonneg Ztg).
  - intros i x l. apply (reserved_nonneg i Ztg).
  - intros x y amt er l l' u Hamt H. pose proof H as H'. apply (transfer_ok Ztg) in H as (? & Hf & _ & Hr); [|done].
    split; [done|]. split; [|split].
    + intros z. specialize (Hf Ztg z). by rewrite !at_asset in Hf.
    + intros i z. apply Hr.
    + change (rl_pure (transfer Ztg x y amt) l = (Ok u, l')) in H'.
      apply rl_pure_inv in H' as (l2 & _ & ->). done.
  - intros x y amt er l l' e H. exact (transfer_err Ztg x y amt l l' e H).
  - intros i x amt l l' u Hamt H. apply (reserve_named_ok i Ztg) in H as (? & Hf & _ & Hr); [|done].
    split; [done|]. split; intros; [specialize (Hf Ztg z); by rewrite at_asset in Hf|].
    specialize (Hr j Ztg z). by rewrite at_named in Hr.
  - intros i x amt l l' missing Hamt H.
    apply (unreserve_named_spec i Ztg) in H as (? & Hf & _ & Hr); [|done].
    split; [done|]. split; intros; [specialize (Hf Ztg z); by rewrite at_asset in Hf|].
    specialize (Hr j Ztg z). by rewrite at_named in Hr.
  - intros i x amt l l' imbalance missing Hamt H. injection H as <- <- <-.
    pose proof (reserved_nonneg i Ztg x l). split; [done|split; [done|split; [done|]]]. intros j z.
    set (moved := Z.min amt _). destruct (led_reserve i Ztg x (- moved) (rl_assets l)) as [Hr _].
    { cbn in *. unfold moved. cbn. lia. }
    specialize (Hr j Ztg z). rewrite at_opp, at_named in Hr. cbn in *. lia.
  - intros i x y amt l l' missing Hamt H.
    apply (repatriate_reserved_named_ok i Ztg) in H as (? & Hf & _ & Hr); [|done].
    split; [done|]. split; intros; [specialize (Hf Ztg z); by rewrite at_asset in Hf|].
    specialize (Hr j Ztg z). by rewrite at_named in Hr.
  - done.
  - intros x amt l Hamt Hmin. cbn in *. apply Z.leb_le in Hmin. rewrite Hmin. split; [|done].
    intros z. destruct (led_credit Ztg x amt (rl_assets l) Hamt) as [Hc _].
    specialize (Hc Ztg z). rewrite at_asset in Hc. done.
  - intros i x amt l. split; [done|]. intros j z. cbn. unfold rl_locked. cbn. rewrite lookup_insert.
    destruct (decide ((i, x) = (j, z))); [by simplify_eq|done].
  - intros i x amt l. split; [done|]. intros j z. cbn. unfold rl_locked. cbn. rewrite lookup_insert.
    by destruct (decide ((i, x) = (j, z))).
  - intros i x l. split; [done|]. intros j z. cbn. unfold rl_locked. cbn. rewrite lookup_delete.
    by destruct (decide ((i, x) = (j, z))).
Qed.
