(* ===== verification/MarketCommons.v ===== *)
(** * Market commons

    [zrml/market-commons/src/lib.rs]: the storage of markets, the market
    counter and the (deprecated) market to pool map, and the interface
    [MarketCommonsPalletApi] through which every other pallet reaches it. *)
From S2P Require Import Prelude Types Errors Fixed.

(** ** The interface the other pallets use *)

Class MarketCommonsPalletApi (C : Type) := {
  api_market : MarketId → C → Res Market;
  api_mutate_market : MarketId → (Market → Res Market) → Store C unit;
  api_push_market : Market → Store C MarketId;
  api_remove_market : MarketId → Store C unit;
}.

Class MarketCommonsLaws (C : Type) `{MarketCommonsPalletApi C} := {
  mutate_market_ok id f (c c' : C) u :
    api_mutate_market id f c = (Ok u, c') →
    ∃ m m', api_market id c = Ok m ∧ f m = Ok m' ∧ api_market id c' = Ok m' ∧
      ∀ id', id' ≠ id → api_market id' c' = api_market id' c;
  mutate_market_err id f (c c' : C) e : api_mutate_market id f c = (Err e, c') → c' = c;
  push_market_ok m (c c' : C) id :
    api_push_market m c = (Ok id, c') →
    api_market id c' = Ok m ∧ ∀ id', id' ≠ id → api_market id' c' = api_market id' c;
  remove_market_ok id (c c' : C) u :
    api_remove_market id c = (Ok u, c') →
    is_ok (api_market id c) = true ∧ api_market id c' = Err MarketDoesNotExist ∧
    ∀ id', id' ≠ id → api_market id' c' = api_market id' c;
}.

(** ** The pallet *)

(** [MarketCounter] is a value query: absent counts as zero, but [try_get] sees
    the difference. *)
Record State : Type := mk_State {
  Markets : gmap MarketId Market;
  MarketCounter : option MarketId;
  MarketPool : gmap MarketId PoolId;
}.

Definition set_Markets (f : gmap MarketId Market → gmap MarketId Market) (s : State) : State :=
  mk_State (f (Markets s)) (MarketCounter s) (MarketPool s).
Definition set_MarketCounter (c : MarketId) (s : State) : State :=
  mk_State (Markets s) (Some c) (MarketPool s).
Definition set_MarketPool (f : gmap MarketId PoolId → gmap MarketId PoolId) (s : State) : State :=
  mk_State (Markets s) (MarketCounter s) (f (MarketPool s)).

Definition counter (s : State) : MarketId := default 0 (MarketCounter s).

Definition next_market_id : Store State MarketId :=
  id ← gets counter;
  new_counter ← lift (checked_add_res u128_max id 1);
  _ ← modify (set_MarketCounter new_counter);
  mret id.

Definition latest_market_id (s : State) : Res MarketId :=
  match MarketCounter s with
  | Some market_id => Ok (saturating_sub market_id 1)
  | None => Err NoMarketHasBeenCreated
  end.

Definition market (market_id : MarketId) (s : State) : Res Market :=
  match Markets s !! market_id with
  | Some m => Ok m
  | None => Err MarketDoesNotExist
  end.

(** [try_mutate]: the market is written back only when the callback succeeds. *)
Definition mutate_market (market_id : MarketId) (cb : Market → Res Market) : Store State unit :=
  m ← gets (λ s, Markets s !! market_id);
  match m with
  | Some m => m' ← lift (cb m); modify (set_Markets <[market_id := m']>)
  | None => fail MarketDoesNotExist
  end.

Definition push_market (m : Market) : Store State MarketId :=
  market_id ← next_market_id;
  _ ← modify (set_Markets <[market_id := m]>);
  mret market_id.

Definition remove_market (market_id : MarketId) : Store State unit :=
  m ← gets (λ s, Markets s !! market_id);
  _ ← ensure (bool_decide (is_Some m)) MarketDoesNotExist;
  modify (set_Markets (delete market_id)).

Definition insert_market_pool (market_id : MarketId) (pool_id : PoolId) : Store State unit :=
  p ← gets (λ s, MarketPool s !! market_id);
  _ ← ensure (negb (bool_decide (is_Some p))) PoolAlreadyExists;
  m ← gets (λ s, Markets s !! market_id);
  _ ← ensure (bool_decide (is_Some m)) MarketDoesNotExist;
  modify (set_MarketPool <[market_id := pool_id]>).

Definition remove_market_pool (market_id : MarketId) : Store State unit :=
  p ← gets (λ s, MarketPool s !! market_id);
  _ ← ensure (bool_decide (is_Some p)) MarketPoolDoesNotExist;
  modify (set_MarketPool (delete market_id)).

Definition market_pool (market_id : MarketId) (s : State) : Res PoolId :=
  match MarketPool s !! market_id with
  | Some p => Ok p
  | None => Err MarketPoolDoesNotExist
  end.

(** ** The pallet implements the interface *)

#[export] Instance MarketCommons_api : MarketCommonsPalletApi State := {
  api_market := market;
  api_mutate_market := mutate_market;
  api_push_market := push_market;
  api_remove_market := remove_market;
}.

Lemma market_ok id s m : market id s = Ok m ↔ Markets s !! id = Some m.
Proof. unfold market. destruct (Markets s !! id); naive_solver. Qed.

Lemma market_insert id id' m s :
  market id' (set_Markets <[id := m]> s) = if decide (id = id') then Ok m else market id' s.
Proof. unfold market. cbn. rewrite lookup_insert. by destruct (decide _). Qed.

Lemma market_delete id id' s :
  market id' (set_Markets (delete id) s) =
  if decide (id = id') then Err MarketDoesNotExist else market id' s.
Proof. unfold market. cbn. rewrite lookup_delete. by destruct (decide _). Qed.

Lemma next_market_id_ok s s' id :
  next_market_id s = (Ok id, s') →
  id = counter s ∧ id + 1 ≤ u128_max ∧ s' = set_MarketCounter (id + 1) s.
Proof.
  intros H. unfold next_market_id in H. run_inv H. checked. done.
Qed.

Lemma push_market_inv s s' m id :
  push_market m s = (Ok id, s') →
  id = counter s ∧ id + 1 ≤ u128_max ∧
  s' = set_Markets <[id := m]> (set_MarketCounter (id + 1) s).
Proof.
  intros H. unfold push_market in H. run_inv H. apply next_market_id_ok in Hm as (-> & ? & ->).
  done.
Qed.

#[export] Instance MarketCommons_laws : MarketCommonsLaws State.
Proof.
  split; cbn.
  - intros id f c c' u H. unfold mutate_market in H. run_inv H.
    destruct (Markets c !! id) as [m|] eqn:Hm; run_inv H.
    exists m, a. split; [by apply market_ok|]. split; [done|]. split.
    + rewrite market_insert. by rewrite decide_True.
    + intros id' Hne. rewrite market_insert. by rewrite decide_False.
  - intros id f c c' e. unfold mutate_market, mbind, M_bind, gets, fail, lift, modify.
    destruct (Markets c !! id); [|naive_solver]. destruct (f m); naive_solver.
  - intros m c c' id H. apply push_market_inv in H as (-> & _ & ->). split.
    + rewrite market_insert. by rewrite decide_True.
    + intros id' Hne. rewrite market_insert. by rewrite decide_False.
  - intros id c c' u H. unfold remove_market in H. run_inv H. guards.
    destruct select (is_Some _) as [m Hm]. split; [|split].
    + unfold market. by rewrite Hm.
    + rewrite market_delete. by rewrite decide_True.
    + intros id' Hne. rewrite market_delete. by rewrite decide_False.
Qed.

(** ** Reachable storages *)

(** The storage changes only through the operations of the interface. *)
Inductive step : State → State → Prop :=
| step_push m s s' id : push_market m s = (Ok id, s') → step s s'
| step_mutate id f s s' : mutate_market id f s = (Ok tt, s') → step s s'
| step_remove id s s' : remove_market id s = (Ok tt, s') → step s s'
| step_insert_pool id p s s' : insert_market_pool id p s = (Ok tt, s') → step s s'
| step_remove_pool id s s' : remove_market_pool id s = (Ok tt, s') → step s s'.

Definition genesis : State := mk_State ∅ None ∅.
Definition reachable (s : State) : Prop := rtc step genesis s.

(** Every identifier in use is below the counter, and the counter fits. *)
Record counter_inv (s : State) : Prop := {
  inv_ids id : is_Some (Markets s !! id) → 0 ≤ id < counter s;
  inv_range : 0 ≤ counter s ≤ u128_max;
  inv_pools id : is_Some (MarketPool s !! id) → 0 ≤ id < counter s;
  inv_positive c : MarketCounter s = Some c → 0 < c;
}.

Lemma step_counter_inv s s' : step s s' → counter_inv s → counter_inv s' ∧ counter s ≤ counter s'.
Proof.
  intros Hstep [Hids Hrange Hpools Hpos]. destruct Hstep as [m s s' id H|id f s s' H|id s s' H
    |id p s s' H|id s s' H].
  - apply push_market_inv in H as (-> & Hmax & ->). unfold counter in *. split; [|cbn; lia].
    split; cbn.
    + intros id [m' [[<- _]|[_ Hm]]%lookup_insert_Some]; [lia|].
      specialize (Hids id ltac:(eauto)). lia.
    + lia.
    + intros id Hid. specialize (Hpools id Hid). lia.
    + intros c [= <-]. unfold counter in *. lia.
  - unfold mutate_market in H. run_inv H. destruct (Markets s !! id) eqn:Hm; run_inv H.
    split; [|done]. split; cbn; [|done..].
    intros id' [m' [[<- _]|[_ Hm']]%lookup_insert_Some]; apply Hids; eauto.
  - unfold remove_market in H. run_inv H. split; [|done]. split; cbn; [|done..].
    intros id' [m' [_ Hm']%lookup_delete_Some]. apply Hids; eauto.
  - unfold insert_market_pool in H. run_inv H. guards. split; [|done].
    split; cbn; [done|done| |done].
    intros id' [m' [[<- _]|[_ Hm']]%lookup_insert_Some]; [by apply Hids|apply Hpools; eauto].
  - unfold remove_market_pool in H. run_inv H. split; [|done]. split; cbn; [done|done| |done].
    intros id' [m' [_ Hm']%lookup_delete_Some]. apply Hpools; eauto.
Qed.

Lemma genesis_counter_inv : counter_inv genesis.
Proof. by split; cbn; [intros id [? ?]| |intros id [? ?]|]. Qed.

Lemma reachable_counter_inv s : reachable s → counter_inv s.
Proof.
  intros Hr. cut (∀ s0, rtc step s0 s → counter_inv s0 → counter_inv s).
  { intros Hcut. apply (Hcut genesis Hr), genesis_counter_inv. }
  clear Hr. induction 1 as [|x y z Hxy _ IH]; [done|].
  intros Hx. apply IH. by apply (step_counter_inv _ _ Hxy).
Qed.

(** (C20) In every reachable storage, [push_market] hands out an identifier that
    no market and no pool entry of the storage uses, stores the market under it
    and nothing else, and makes it the latest identifier: identifiers are never
    reused, also after markets were removed. *)
Theorem push_market_fresh s s' m id :
  reachable s → push_market m s = (Ok id, s') →
  Markets s !! id = None ∧ MarketPool s !! id = None ∧
  Markets s' = <[id := m]> (Markets s) ∧ MarketPool s' = MarketPool s ∧
  latest_market_id s' = Ok id ∧
  (∀ s'' m' id', rtc step s' s'' → push_market m' s'' = (Ok id', snd (push_market m' s'')) →
    id' ≠ id).
Proof.
  intros Hr H. pose proof (reachable_counter_inv s Hr) as Hinv.
  pose proof (step_push _ _ _ _ H) as Hstep.
  apply step_counter_inv in Hstep as [Hinv' _]; [|done].
  apply push_market_inv in H as (-> & Hmax & ->).
  split; [|split; [|split; [done|split; [done|split]]]].
  - apply eq_None_not_Some. intros Hs. pose proof (inv_ids s Hinv _ Hs). lia.
  - apply eq_None_not_Some. intros Hs. pose proof (inv_pools s Hinv _ Hs). lia.
  - unfold latest_market_id. cbn. f_equal. unfold saturating_sub.
    pose proof (inv_range s Hinv). lia.
  - intros s'' m' id' Hrtc Hpush. apply push_market_inv in Hpush as (-> & _ & _).
    assert (counter s + 1 ≤ counter s''); [|lia].
    clear m'. remember (set_Markets _ _) as s1 eqn:Heq.
    assert (counter s + 1 ≤ counter s1) as Hle by (subst s1; cbn; lia). clear Heq Hr.
    induction Hrtc as [|x y z Hxy _ IH]; [done|].
    destruct (step_counter_inv _ _ Hxy Hinv') as [Hy Hc]. apply IH; [done|lia].
Qed.

(** ** Example *)
Definition example_market : Market :=
  mk_Market Ztg 9 Permissionless 0 9 [] (MT_Categorical 2) (Block (mk_Range 0 10))
    (mk_Deadlines 1 1 1) Lmsr Active None None None MarketBonds_default None.

Lemma push_market_fresh_witness :
  let s1 := snd (push_market example_market genesis) in
  let s2 := snd (push_market example_market s1) in
  Markets s1 !! 1 = None ∧ latest_market_id s2 = Ok 1.
Proof.
  destruct (push_market_fresh (snd (push_market example_market genesis))
    (snd (push_market example_market (snd (push_market example_market genesis))))
    example_market 1) as (H1 & _ & _ & _ & H2 & _);
    [|vm_compute; reflexivity|exact (conj H1 H2)].
  eapply rtc_l; [|apply rtc_refl]. eapply (step_push example_market _ _ 0).
  vm_compute; reflexivity.
Defined.
