(* ===== verification/Fees.v ===== *)
(** * External fees

    The trait [DistributeFees] ([primitives/src/traits/distribute_fees.rs]) and
    its implementation [MarketCreatorFee] ([runtime/common/src/fees.rs]), which
    pays the fee of a trade to the creator of the market. *)
From S2P Require Import Prelude Types Errors Currencies Ledgers MarketCommons.

(** [C] is the market storage, [L] the ledger. *)
Class DistributeFees (C L : Type) := {
  distribute : MarketId → Asset → AccountId → Balance → C → L → Balance * L;
}.

(** The fee is part of the amount; the payer loses at most the fee, nobody else
    loses anything, and only the fee asset moves. *)
Class DistributeFeesLaws (C L : Type) `{AssetManager L, DistributeFees C L} := {
  distribute_spec id a x amt (c : C) (l l' : L) fee :
    0 ≤ amt → distribute id a x amt c l = (fee, l') →
    0 ≤ fee ≤ amt ∧
    free_balance a x l - fee ≤ free_balance a x l' ≤ free_balance a x l ∧
    (∀ z, z ≠ x → free_balance a z l ≤ free_balance a z l') ∧
    (∀ b z, b ≠ a → free_balance b z l' = free_balance b z l) ∧
    (∀ b, total_issuance b l' = total_issuance b l) ∧
    (∀ i b z, reserved_balance_named i b z l' = reserved_balance_named i b z l);
}.

(** ** The fee of the market creator *)
Section MarketCreatorFee.
Context {C L : Type} `{MarketCommonsPalletApi C, AssetManager L}.

(** [Perbill::mul_floor] of [sp_arithmetic]. *)
Context (mul_floor : Perbill → Balance → Balance).

Definition do_distribute (market_id : MarketId) (asset : Asset) (account : AccountId)
    (amount : Balance) (c : C) : Store L Balance :=
  m ← lift (api_market market_id c);
  let fee_amount := mul_floor (creator_fee m) amount in
  _ ← transfer asset account (creator m) fee_amount;
  mret fee_amount.

(** [unwrap_or_else(|_| 0)]: a failed transfer charges nothing. *)
Definition market_creator_distribute (market_id : MarketId) (asset : Asset)
    (account : AccountId) (amount : Balance) (c : C) (l : L) : Balance * L :=
  match do_distribute market_id asset account amount c l with
  | (Ok fee, l') => (fee, l')
  | (Err _, l') => (0, l')
  end.

Definition MarketCreatorFee : DistributeFees C L :=
  {| distribute := market_creator_distribute |}.

(** [mul_floor] rounds down, and a [Perbill] is at most one. *)
Context (Hmul_floor : ∀ p x, 0 ≤ x → 0 ≤ mul_floor p x ≤ x).
Context `{!AssetManagerLaws L}.

Lemma at_pair_ne (a b : Asset) (x z : AccountId) amt : b ≠ a → at_ (a, x) (b, z) amt = 0.
Proof. intros. apply at_ne. congruence. Qed.

Lemma market_creator_distribute_spec id a x amt (c : C) (l l' : L) fee :
  0 ≤ amt → market_creator_distribute id a x amt c l = (fee, l') →
  0 ≤ fee ≤ amt ∧
  free_balance a x l - fee ≤ free_balance a x l' ≤ free_balance a x l ∧
  (∀ z, z ≠ x → free_balance a z l ≤ free_balance a z l') ∧
  (∀ b z, b ≠ a → free_balance b z l' = free_balance b z l) ∧
  (∀ b, total_issuance b l' = total_issuance b l) ∧
  (∀ i b z, reserved_balance_named i b z l' = reserved_balance_named i b z l).
Proof.
  intros Hamt H1.
  unfold market_creator_distribute in H1.
  destruct (do_distribute id a x amt c l) as [[f|e] l1] eqn:Hd; simplify_eq.
  - unfold do_distribute in Hd. run_inv Hd.
    pose proof (Hmul_floor (creator_fee a0) amt Hamt) as Hfee.
    destruct select unit. apply transfer_ok in Hm0 as (Hle & Hfree & Hiss & Hres); [|lia].
    set (fee := mul_floor _ _) in *.
    split; [done|]. split; [|split; [|split; [|done]]].
    + rewrite Hfree, at_eq. pose proof (at_nonneg (a, creator a0) (a, x) fee).
      unfold at_ in *. destruct (decide _); lia.
    + intros z Hz. rewrite Hfree, at_ne by congruence.
      pose proof (at_nonneg (a, creator a0) (a, z) fee). lia.
    + intros b z Hb. rewrite Hfree, !at_pair_ne by done. lia.
  - assert (l' = l) as ->.
    { unfold do_distribute, mbind, M_bind, lift in Hd.
      destruct (api_market id c) as [m|]; [|naive_solver].
      destruct (transfer a x (creator m) _ l) as [[|] l2] eqn:Ht; cbn in Hd; simplify_eq.
      by apply transfer_err in Ht. }
    pose proof (free_nonneg a x l). by repeat split; try lia.
Qed.

(** The creator fee meets the contract of [DistributeFees]: it never
    exceeds the traded amount, only the payer pays it, and when the market does
    not exist or the transfer fails nothing is charged and nothing moves. *)
Theorem MarketCreatorFee_laws : @DistributeFeesLaws C L _ MarketCreatorFee.
Proof.
  split. intros id a x amt c l l' fee. apply market_creator_distribute_spec.
Qed.
End MarketCreatorFee.

(** [Perbill] multiplication for the examples: parts per billion, rounded down. *)
Definition example_mul_floor (p : Perbill) (x : Balance) : Balance :=
  Z.min x (Z.max 0 (p * x / 10 ^ 9)).

Lemma example_mul_floor_le p x : 0 ≤ x → 0 ≤ example_mul_floor p x ≤ x.
Proof. unfold example_mul_floor. lia. Qed.

Lemma MarketCreatorFee_laws_witness :
  @DistributeFeesLaws State Ledger _ (MarketCreatorFee example_mul_floor).
Proof.
  apply (MarketCreatorFee_laws example_mul_floor example_mul_floor_le).
Defined.
