(* ===== verification/Disputes.v ===== *)
(** * Dispute interfaces and the auto-resolution schedule

    The traits [DisputeApi] and [DisputeResolutionApi] of
    [primitives/src/traits/dispute_api.rs], and the storage
    [MarketIdsPerDisputeBlock] of [zrml/prediction-markets/src/lib.rs], which
    implements the second one: per block the markets that resolve in it. *)
From S2P Require Import Prelude Types Errors.

(** ** The traits *)

(** [R] is the storage of the schedule. *)
Class DisputeResolutionApi (R : Type) := {
  add_auto_resolve : MarketId → BlockNumber → Store R Z;
  auto_resolve_exists : MarketId → BlockNumber → R → bool;
  remove_auto_resolve : MarketId → BlockNumber → R → Z * R;
  (** How often the market is scheduled for a block; the schedule is a bag. *)
  auto_resolve_count : MarketId → BlockNumber → R → Z;
}.

Class DisputeResolutionLaws (R : Type) `{DisputeResolutionApi R} := {
  count_nonneg id b (r : R) : 0 ≤ auto_resolve_count id b r;
  exists_count id b (r : R) : auto_resolve_exists id b r = bool_decide (0 < auto_resolve_count id b r);
  add_auto_resolve_ok id b (r r' : R) n :
    add_auto_resolve id b r = (Ok n, r') →
    ∀ id' b', auto_resolve_count id' b' r' = auto_resolve_count id' b' r
      + (if decide ((id, b) = (id', b')) then 1 else 0);
  add_auto_resolve_err id b (r r' : R) e : add_auto_resolve id b r = (Err e, r') → r' = r;
  remove_auto_resolve_spec id b (r r' : R) n :
    remove_auto_resolve id b r = (n, r') →
    ∀ id' b', auto_resolve_count id' b' r' =
      (if decide ((id, b) = (id', b')) then Z.max 0 (auto_resolve_count id' b' r - 1)
       else auto_resolve_count id' b' r);
}.

(** A dispute mechanism with storage [D], working on the schedule [R] and the
    native ledger [L]. Imbalances are amounts. A mechanism that reads other markets, as
    the court does, reads them from the first argument. *)
Class DisputeApi (D R L : Type) := {
  api_on_dispute : MarketId → Market → Store (D * R * L) unit;
  api_on_resolution : (MarketId → Res Market) → MarketId → Market → Store (D * R * L) (option OutcomeReport);
  api_exchange : MarketId → Market → OutcomeReport → Balance → Store (D * R * L) Balance;
  api_get_auto_resolve : MarketId → Market → D → option BlockNumber;
  api_has_failed : (MarketId → Res Market) → MarketId → Market → Store (D * R * L) bool;
  api_on_global_dispute : MarketId → Market → Store (D * R * L) (list GlobalDisputeItem);
  api_clear : MarketId → Market → Store (D * R * L) unit;
}.

(** ** The schedule *)

(** [CacheSize] *)
Definition CacheSize : Z := 64.

Abbreviation MarketIdsPerDisputeBlock := (gmap BlockNumber (list MarketId)).

Definition ids_at (b : Z) (m : gmap Z (list MarketId)) : list MarketId := default [] (m !! b).

(** [Vec::swap_remove] *)
Definition swap_remove {A} (i : nat) (l : list A) : list A :=
  match last l with
  | Some x => take (pred (length l)) (<[i := x]> l)
  | None => l
  end.

Fixpoint position (id : MarketId) (l : list MarketId) : option nat :=
  match l with
  | [] => None
  | x :: l' => if x =? id then Some 0%nat else S <$> position id l'
  end.

Definition remove_item (l : list MarketId) (id : MarketId) : list MarketId :=
  match position id l with
  | Some pos => swap_remove pos l
  | None => l
  end.

(** [try_push] on a [BoundedVec] of size [CacheSize]. *)
Definition try_push_id (id : MarketId) (l : list MarketId) : Res (list MarketId) :=
  if Z.of_nat (length l) <? CacheSize then Ok (l ++ [id]) else Err PMK_StorageOverflow.

Definition schedule_add (id : MarketId) (b : BlockNumber) : Store MarketIdsPerDisputeBlock Z :=
  ids ← gets (ids_at b);
  ids' ← lift (try_push_id id ids);
  _ ← modify (insert b ids');
  mret (Z.of_nat (length ids')).

Definition schedule_remove (id : MarketId) (b : BlockNumber) (m : MarketIdsPerDisputeBlock)
    : Z * MarketIdsPerDisputeBlock :=
  let ids := ids_at b m in
  (Z.of_nat (length ids), <[b := remove_item ids id]> m).

Definition count_id (id : MarketId) (l : list MarketId) : Z :=
  zsum (λ x, if x =? id then 1 else 0) l.

#[export] Instance Schedule_api : DisputeResolutionApi MarketIdsPerDisputeBlock := {
  add_auto_resolve := schedule_add;
  auto_resolve_exists id b m := bool_decide (id ∈ ids_at b m);
  remove_auto_resolve := schedule_remove;
  auto_resolve_count id b m := count_id id (ids_at b m);
}.

(** ** The schedule is a bag *)
Section Schedule.
Implicit Types l : list MarketId.

Lemma count_id_nonneg id l : 0 ≤ count_id id l.
Proof. apply zsum_nonneg. intros x _. by destruct (_ =? _). Qed.

Lemma count_id_pos id l : 0 < count_id id l ↔ id ∈ l.
Proof.
  induction l as [|x l IH]; [split; [done|by intros ?%not_elem_of_nil]|].
  change (count_id id (x :: l)) with ((if x =? id then 1 else 0) + count_id id l).
  pose proof (count_id_nonneg id l). rewrite elem_of_cons.
  destruct (Z.eqb_spec x id) as [->|]; [split; [by left|lia]|]. rewrite <- IH.
  split; [right; lia|]. intros [->|]; lia.
Qed.

Lemma count_id_app id l k : count_id id (l ++ k) = count_id id l + count_id id k.
Proof. apply zsum_app. Qed.
Lemma count_id_cons id x l : count_id id (x :: l) = (if x =? id then 1 else 0) + count_id id l.
Proof. done. Qed.

Lemma position_None id l : position id l = None → id ∉ l.
Proof.
  induction l as [|x l IH]; cbn; [set_solver|]. destruct (Z.eqb_spec x id); [done|].
  destruct (position id l); [done|]. set_solver.
Qed.
Lemma position_Some id l i : position id l = Some i → ∃ k1 k2, l = k1 ++ id :: k2 ∧ length k1 = i.
Proof.
  revert i. induction l as [|x l IH]; cbn; [done|]. intros i. destruct (Z.eqb_spec x id) as [->|].
  - intros [= <-]. by exists [], l.
  - destruct (position id l) as [j|]; cbn; [|done]. intros [= <-].
    destruct (IH j eq_refl) as (k1 & k2 & -> & <-). by exists (x :: k1), k2.
Qed.

(** [swap_remove] keeps every other element. *)
Lemma count_swap_remove id l1 x l2 :
  count_id id (swap_remove (length l1) (l1 ++ x :: l2)) = count_id id (l1 ++ l2).
Proof.
  unfold swap_remove. destruct (decide (l2 = [])) as [->|Hne].
  - rewrite last_snoc, length_app. cbn.
    rewrite insert_app_r_alt by lia. rewrite Nat.sub_diag. cbn.
    replace (pred (length l1 + 1)) with (length l1) by lia.
    by rewrite take_app_length, app_nil_r.
  - destruct (exists_last Hne) as (k & y & ->).
    replace (l1 ++ x :: k ++ [y]) with ((l1 ++ x :: k) ++ [y]) by (by rewrite <- app_assoc).
    rewrite last_snoc, !length_app. cbn.
    rewrite <- app_assoc. rewrite insert_app_r_alt by lia. rewrite Nat.sub_diag. cbn.
    rewrite app_comm_cons, app_assoc.
    rewrite take_app_length' by (rewrite !length_app; cbn; lia).
    rewrite !count_id_app, !count_id_cons, ?count_id_app. cbn. lia.
Qed.

Lemma count_remove_item id l id' :
  count_id id' (remove_item l id) =
  if decide (id = id') then Z.max 0 (count_id id' l - 1) else count_id id' l.
Proof.
  unfold remove_item. destruct (position id l) as [i|] eqn:Hp.
  - apply position_Some in Hp as (k1 & k2 & -> & <-).
    rewrite count_swap_remove, !count_id_app, count_id_cons.
    pose proof (count_id_nonneg id' k1). pose proof (count_id_nonneg id' k2).
    destruct (Z.eqb_spec id id'), (decide (id = id')); lia.
  - apply position_None in Hp. destruct (decide (id = id')) as [<-|]; [|done].
    rewrite <- count_id_pos in Hp. pose proof (count_id_nonneg id l). lia.
Qed.

Lemma ids_at_insert b l m b' : ids_at b' (<[b := l]> m) = if decide (b = b') then l else ids_at b' m.
Proof. unfold ids_at. rewrite lookup_insert. by destruct (decide _). Qed.

Lemma try_push_ok id l l' :
  try_push_id id l = Ok l' → Z.of_nat (length l) < CacheSize ∧ l' = l ++ [id].
Proof. unfold try_push_id. destruct (Z.ltb_spec (Z.of_nat (length l)) CacheSize); naive_solver. Qed.

Lemma schedule_add_inv id b m m' n :
  schedule_add id b m = (Ok n, m') →
  Z.of_nat (length (ids_at b m)) < CacheSize ∧ m' = <[b := ids_at b m ++ [id]]> m.
Proof.
  unfold schedule_add. intros Ha. run_inv Ha.
  match goal with Hp : try_push_id _ _ = _ |- _ => by apply try_push_ok in Hp as [? ->] end.
Qed.
End Schedule.

(** The storage of the schedule implements [DisputeResolutionApi]: scheduling adds one occurrence of the market at the block, removal takes
    exactly one away (if there is one), and nothing else changes. *)
#[export] Instance Schedule_laws : DisputeResolutionLaws MarketIdsPerDisputeBlock.
Proof.
  split; cbn -[count_id ids_at remove_item].
  - intros. apply count_id_nonneg.
  - intros id b m. apply bool_decide_ext. by rewrite count_id_pos.
  - intros id b m m' n Ha id' b'. apply schedule_add_inv in Ha as [_ ->].
    rewrite ids_at_insert. destruct (decide (b = b')) as [<-|].
    + rewrite count_id_app, count_id_cons. cbn. destruct (Z.eqb_spec id id').
      * rewrite decide_True by congruence. lia.
      * rewrite decide_False by congruence. lia.
    + rewrite decide_False by congruence. lia.
  - intros id b m m' e. unfold schedule_add, mbind, M_bind, gets, lift, modify, mret, M_ret.
    destruct (try_push_id _ _); naive_solver.
  - intros id b m m' n [= <- <-] id' b'. rewrite ids_at_insert.
    destruct (decide (b = b')) as [<-|].
    + rewrite count_remove_item. repeat destruct (decide _); congruence.
    + by rewrite decide_False by congruence.
Qed.
