(* ===== verification/CourtTypes.v ===== *)
(** * Court: data

    [zrml/court/src/lib.rs] and [types.rs]: jurors stake funds, are drawn at random for
    disputed markets with a weight that grows with their stake, vote in secret, reveal,
    and decide by plurality; losers pay the winners. Delegators lend their stake to
    jurors. Rounds can be appealed against a growing bond.

    This file has the data, the storage and the configuration. Hashing, randomness and
    the rounding of [Perquintill] are parameters of the configuration. *)
From S2P Require Import Prelude BTree Types Errors Currencies MarketCommons Disputes.

(** ** Data ([types.rs]) *)

Abbreviation CourtId := Z.
Abbreviation Hash := Z.

Inductive VoteItemType : Type := VoteItemType_Outcome | VoteItemType_Binary.
Inductive VoteItem : Type :=
| VoteItem_Outcome (report : OutcomeReport)
| VoteItem_Binary (value : bool).
#[export] Instance VoteItem_eq_dec : EqDecision VoteItem.
Proof. solve_decision. Defined.

(** [derive(Ord)] *)
Definition OutcomeReport_compare (a b : OutcomeReport) : comparison :=
  match a, b with
  | Categorical i, Categorical j => i ?= j
  | Categorical _, Scalar _ => Lt
  | Scalar _, Categorical _ => Gt
  | Scalar i, Scalar j => i ?= j
  end.
Definition bool_compare (a b : bool) : comparison :=
  match a, b with false, true => Lt | true, false => Gt | _, _ => Eq end.
Definition VoteItem_compare (a b : VoteItem) : comparison :=
  match a, b with
  | VoteItem_Outcome x, VoteItem_Outcome y => OutcomeReport_compare x y
  | VoteItem_Outcome _, VoteItem_Binary _ => Lt
  | VoteItem_Binary _, VoteItem_Outcome _ => Gt
  | VoteItem_Binary x, VoteItem_Binary y => bool_compare x y
  end.

Definition into_outcome (v : VoteItem) : option OutcomeReport :=
  match v with VoteItem_Outcome report => Some report | VoteItem_Binary _ => None end.

Record CourtParticipantInfo : Type := mk_ParticipantInfo {
  cp_stake : Balance;
  active_lock : Balance;
  prepare_exit_at : option BlockNumber;
  delegations : option (list AccountId);
}.
Definition set_active_lock (x : Balance) (p : CourtParticipantInfo) : CourtParticipantInfo :=
  mk_ParticipantInfo (cp_stake p) x (prepare_exit_at p) (delegations p).

Abbreviation DelegatedStakes := (list (AccountId * Balance)).

Inductive Vote : Type :=
| Delegated (delegated_stakes : DelegatedStakes)
| Drawn
| Secret (commitment : Hash)
| Revealed (commitment : Hash) (vote_item : VoteItem) (salt : Hash)
| Denounced (commitment : Hash) (vote_item : VoteItem) (salt : Hash).

Inductive CourtStatus : Type := Court_Open | Court_Closed (winner : VoteItem) | Court_Reassigned.

Record AppealInfo : Type := mk_AppealInfo {
  backer : AccountId;
  bond : Balance;
  appealed_vote_item : VoteItem;
}.

Record RoundTiming : Type := mk_RoundTiming {
  rt_pre_vote : BlockNumber;
  rt_vote : BlockNumber;
  rt_aggregation : BlockNumber;
  rt_appeal : BlockNumber;
}.

Record CourtInfo : Type := mk_CourtInfo {
  court_status : CourtStatus;
  appeals : list AppealInfo;
  round_ends : RoundTiming;
  vote_item_type : VoteItemType;
}.
Definition set_status (x : CourtStatus) (c : CourtInfo) : CourtInfo :=
  mk_CourtInfo x (appeals c) (round_ends c) (vote_item_type c).
Definition set_appeals (x : list AppealInfo) (c : CourtInfo) : CourtInfo :=
  mk_CourtInfo (court_status c) x (round_ends c) (vote_item_type c).

(** The ends of the phases, one after the other. *)
Definition timing_ends (t : RoundTiming) : RoundTiming :=
  let vote := saturating_add u64_max (rt_pre_vote t) (rt_vote t) in
  let aggregation := saturating_add u64_max vote (rt_aggregation t) in
  let appeal := saturating_add u64_max aggregation (rt_appeal t) in
  mk_RoundTiming (rt_pre_vote t) vote aggregation appeal.
Definition CourtInfo_new (t : RoundTiming) (v : VoteItemType) : CourtInfo :=
  mk_CourtInfo Court_Open [] (timing_ends t) v.
Definition update_round (t : RoundTiming) (c : CourtInfo) : CourtInfo :=
  mk_CourtInfo (court_status c) (appeals c) (timing_ends t) (vote_item_type c).

Record Draw : Type := mk_Draw {
  court_participant : AccountId;
  weight : Z;
  draw_vote : Vote;
  slashable : Balance;
}.
Definition set_draw_vote (x : Vote) (w : Draw) : Draw :=
  mk_Draw (court_participant w) (weight w) x (slashable w).

Record CourtPoolItem : Type := mk_PoolItem {
  pi_stake : Balance;
  pi_participant : AccountId;
  consumed_stake : Balance;
  joined_at : BlockNumber;
}.
Definition set_consumed_stake (x : Balance) (i : CourtPoolItem) : CourtPoolItem :=
  mk_PoolItem (pi_stake i) (pi_participant i) x (joined_at i).

Record SelectionValue : Type := mk_SelectionValue {
  sv_weight : Z;
  sv_slashable : Balance;
  sv_delegated_stakes : DelegatedStakes;
}.
Abbreviation Selections := (list (AccountId * SelectionValue)).

Inductive SelectionAdd : Type :=
| SelfStake (lock : Balance)
| DelegationStake (delegated_juror : AccountId) (lock : Balance)
| DelegationWeight.

Record SelfInfo : Type := mk_SelfInfo { si_slashable : Balance; si_vote_item : VoteItem }.
Record JurorVoteWithStakes : Type := mk_JurorVote {
  self_info : option SelfInfo;
  jv_delegations : list (AccountId * Balance);
}.
Definition JurorVote_default : JurorVoteWithStakes := mk_JurorVote None [].

Inductive SelectionError : Type := NoValidDelegatedJuror | SE_BinarySearchByKeyFailed.

(** ** Storage *)

Inductive Event : Type :=
| CourtOpened (market_id : MarketId) (court_info : CourtInfo)
| JurorJoined (juror : AccountId) (stake : Balance)
| ExitPrepared (participant : AccountId)
| ExitedCourt (participant : AccountId) (exit_amount active_lock : Balance)
| JurorVoted (court_id : CourtId) (juror : AccountId) (commitment : Hash)
| JurorRevealedVote (juror : AccountId) (court_id : CourtId) (item : VoteItem) (salt : Hash)
    (slashable_amount : Balance) (draw_weight : Z)
| DenouncedJurorVote (denouncer juror : AccountId) (court_id : CourtId) (item : VoteItem) (salt : Hash)
| DelegatorJoined (delegator : AccountId) (stake : Balance) (delegated_jurors : list AccountId)
| CourtAppealed (court_id : CourtId) (appeal_info : AppealInfo) (new_round_ends : option RoundTiming)
| MintedInCourt (participant : AccountId) (amount : Balance)
| StakesReassigned (court_id : CourtId)
| InflationSet (inflation : Perbill).

Record Storage : Type := mk_Storage {
  CourtPool : list CourtPoolItem;
  Participants : gmap AccountId CourtParticipantInfo;
  SelectionNonce : Z;
  SelectedDraws : gmap CourtId (list Draw);
  Courts : gmap CourtId CourtInfo;
  NextCourtId : CourtId;
  MarketIdToCourtId : gmap MarketId CourtId;
  CourtIdToMarketId : gmap CourtId MarketId;
  RequestBlock : BlockNumber;
  YearlyInflation : Perbill;
}.
Record State (C R L : Type) : Type := mk_State {
  commons : C;
  resolution : R;
  currency : L;
  storage : Storage;
  events : list Event;
}.
Arguments mk_State {C R L} _ _ _ _ _.
Arguments commons {C R L} _.
Arguments resolution {C R L} _.
Arguments currency {C R L} _.
Arguments storage {C R L} _.
Arguments events {C R L} _.

Definition set_CourtPool (x : list CourtPoolItem) (s : Storage) : Storage :=
  mk_Storage x (Participants s) (SelectionNonce s) (SelectedDraws s) (Courts s) (NextCourtId s)
    (MarketIdToCourtId s) (CourtIdToMarketId s) (RequestBlock s) (YearlyInflation s).
Definition set_Participants (x : gmap AccountId CourtParticipantInfo) (s : Storage) : Storage :=
  mk_Storage (CourtPool s) x (SelectionNonce s) (SelectedDraws s) (Courts s) (NextCourtId s)
    (MarketIdToCourtId s) (CourtIdToMarketId s) (RequestBlock s) (YearlyInflation s).
Definition set_SelectionNonce (x : Z) (s : Storage) : Storage :=
  mk_Storage (CourtPool s) (Participants s) x (SelectedDraws s) (Courts s) (NextCourtId s)
    (MarketIdToCourtId s) (CourtIdToMarketId s) (RequestBlock s) (YearlyInflation s).
Definition set_SelectedDraws (x : gmap CourtId (list Draw)) (s : Storage) : Storage :=
  mk_Storage (CourtPool s) (Participants s) (SelectionNonce s) x (Courts s) (NextCourtId s)
    (MarketIdToCourtId s) (CourtIdToMarketId s) (RequestBlock s) (YearlyInflation s).
Definition set_Courts (x : gmap CourtId CourtInfo) (s : Storage) : Storage :=
  mk_Storage (CourtPool s) (Participants s) (SelectionNonce s) (SelectedDraws s) x (NextCourtId s)
    (MarketIdToCourtId s) (CourtIdToMarketId s) (RequestBlock s) (YearlyInflation s).
(** The entries of a new court. *)
Definition set_court_ids (next : CourtId) (m : gmap MarketId CourtId) (c : gmap CourtId MarketId)
    (s : Storage) : Storage :=
  mk_Storage (CourtPool s) (Participants s) (SelectionNonce s) (SelectedDraws s) (Courts s) next
    m c (RequestBlock s) (YearlyInflation s).
Definition set_RequestBlock (x : BlockNumber) (s : Storage) : Storage :=
  mk_Storage (CourtPool s) (Participants s) (SelectionNonce s) (SelectedDraws s) (Courts s) (NextCourtId s)
    (MarketIdToCourtId s) (CourtIdToMarketId s) x (YearlyInflation s).
Definition set_YearlyInflation (x : Perbill) (s : Storage) : Storage :=
  mk_Storage (CourtPool s) (Participants s) (SelectionNonce s) (SelectedDraws s) (Courts s) (NextCourtId s)
    (MarketIdToCourtId s) (CourtIdToMarketId s) (RequestBlock s) x.

Section Setters.
Context {C R L : Type}.
Definition set_resolution (x : R) (s : State C R L) : State C R L :=
  mk_State (commons s) x (currency s) (storage s) (events s).
Definition set_currency (x : L) (s : State C R L) : State C R L :=
  mk_State (commons s) (resolution s) x (storage s) (events s).
Definition set_storage (x : Storage) (s : State C R L) : State C R L :=
  mk_State (commons s) (resolution s) (currency s) x (events s).
Definition deposit_event (e : Event) : Store (State C R L) unit :=
  modify (λ s, mk_State (commons s) (resolution s) (currency s) (storage s) (e :: events s)).
Definition reads {A} (f : Storage → A) : Store (State C R L) A := gets (λ s, f (storage s)).
Definition writes (f : Storage → Storage) : Store (State C R L) unit :=
  modify (λ s, set_storage (f (storage s)) s).
End Setters.

(** ** Configuration *)

(** Constants of the runtime and the code that is not part of the repository. [Rng] is
    the state of a seeded generator. *)
Class CourtConfig (L Rng : Type) := {
  AppealBond : Balance;
  BlocksPerYear : BlockNumber;
  VotePeriod : BlockNumber;
  AggregationPeriod : BlockNumber;
  AppealPeriod : BlockNumber;
  LockId : LockIdentifier;
  court_reserve_id : ReserveIdentifier;
  reward_pot : CourtId → AccountId;
  treasury_account_id : AccountId;
  InflationPeriod : BlockNumber;
  MaxAppeals : Z;
  MaxSelectedDraws : Z;
  MaxDelegations : Z;
  MaxCourtParticipants : Z;
  MaxYearlyInflation : Perbill;
  MinJurorStake : Balance;
  RequestInterval : BlockNumber;
  (** [Slash::on_unbalanced] *)
  slash_unbalanced : Balance → L → L;
  (** [Hashing::hash_of(&(juror, vote_item, salt))] *)
  hash_of : AccountId → VoteItem → Hash → Hash;
  (** [ChaCha20Rng::from_seed] of [Random::random] in a block for a nonce. *)
  rng_of : BlockNumber → Z → Rng;
  (** [gen_range(lo..hi)] and the index that [SliceRandom::choose] takes. *)
  gen_range : Z → Z → Rng → Z * Rng;
  choose_index : nat → Rng → nat;
  perbill_mul_floor : Perbill → Balance → Balance;
  (** [Perquintill::from_rational], [mul_floor] and [*]. *)
  perquintill_from_rational : Z → Z → Z;
  perquintill_mul_floor : Z → Z → Z;
  perquintill_mul : Z → Z → Z;
}.

(** Documented behaviour of that code. *)
Class CourtConfigLaws (L Rng : Type) `{Currency L, CourtConfig L Rng} := {
  gen_range_spec lo hi (g : Rng) : lo < hi → lo ≤ (gen_range lo hi g).1 < hi;
  choose_index_spec n (g : Rng) : (0 < n)%nat → (choose_index n g < n)%nat;
  min_juror_stake_range : 0 < MinJurorStake ≤ u128_max;
  slash_unbalanced_locks amt (l : L) : same_locks l (slash_unbalanced amt l);
}.
