(* ===== verification/Court.v ===== *)
(** * Court: operations

    The calls of [zrml/court/src/lib.rs], its block hook and its [DisputeApi]. Calls take
    the current block [now] and the origin; accounts are passed as the result of the
    lookup. [usize] is 32 bits wide, as in the Wasm runtime. *)
From S2P Require Import Prelude BTree Types Errors Currencies MarketCommons Disputes CourtTypes.

Definition INITIAL_DRAWS_NUM : Z := 31.
Definition APPEAL_BASIS : Z := 2.
Definition APPEAL_BOND_BASIS : Z := 2.
Definition saturating_pow (max b e : Z) : Z := Z.min max (b ^ e).

(** ** Vectors *)

(** [Vec::insert] within the length. *)
Definition insert_at {A} (i : nat) (x : A) (l : list A) : list A := take i l ++ x :: drop i l.
(** [Vec::remove] *)
Definition vec_remove {A} (i : nat) (l : list A) : Res (list A) :=
  if (i <? length l)%nat then Ok (take i l ++ drop (S i) l)
  else Err (Panic "removal index should be < len").
(** [BoundedVec::try_insert] *)
Definition try_insert {A} (bound : Z) (i : nat) (x : A) (l : list A) : option (list A) :=
  if Z.of_nat (length l) <? bound then Some (insert_at i x l) else None.

(** ** The pool *)

Definition pool_key (i : CourtPoolItem) : Balance * AccountId := (pi_stake i, pi_participant i).
Definition key_compare : Balance * AccountId → Balance * AccountId → comparison :=
  pair_compare Z.compare Z.compare.
Definition pool_search (pool : list CourtPoolItem) (stake : Balance) (who : AccountId)
    : result nat nat :=
  binary_search_by (λ i, key_compare (pool_key i) (stake, who)) pool.

Definition get_pool_item (pool : list CourtPoolItem) (stake : Balance) (who : AccountId)
    : Res (option (nat * CourtPoolItem)) :=
  match pool_search pool stake who with
  | Ok i =>
      pool_item ← ok_orR (pool !! i) (CT_Unexpected BinarySearchByKeyFailed);
      mret (Some (i, pool_item))
  | Err _ => mret None
  end.

(** ** Votes *)

Definition ensure_dispute_mechanism (m : Market) : Res unit :=
  ensureR (bool_decide (dispute_mechanism m = Some MDM_Court)) CT_MarketDoesNotHaveCourtMechanism.

Definition check_vote_item (court : CourtInfo) (vote_item : VoteItem) : Res unit :=
  match vote_item_type court with
  | VoteItemType_Outcome =>
      ensureR (match vote_item with VoteItem_Outcome _ => true | _ => false end)
        CT_InvalidVoteItemForOutcomeCourt
  | VoteItemType_Binary =>
      ensureR (match vote_item with VoteItem_Binary _ => true | _ => false end)
        CT_InvalidVoteItemForBinaryCourt
  end.

Definition necessary_draws_weight (appeals_len : nat) : Z :=
  saturating_add u32_max
    (saturating_mul u32_max (saturating_pow u32_max APPEAL_BASIS (Z.of_nat appeals_len)) INITIAL_DRAWS_NUM)
    (saturating_sub (saturating_pow u32_max APPEAL_BASIS (Z.of_nat appeals_len)) 1).

(** Weights of the items of the revealed votes. *)
Fixpoint collect_scores (draws : list Draw) (scores : list (VoteItem * Z)) : list (VoteItem * Z) :=
  match draws with
  | [] => scores
  | draw :: draws =>
      collect_scores draws
        (match draw_vote draw with
         | Revealed _ vote_item _ =>
             match bt_get VoteItem_compare vote_item scores with
             | Some el =>
                 bt_insert VoteItem_compare vote_item (saturating_add u32_max el (weight draw)) scores
             | None => bt_insert VoteItem_compare vote_item (weight draw) scores
             end
         | _ => scores
         end)
  end.

(** The loop over the scores after the first two. *)
Fixpoint best_two (rest : list (VoteItem * Z)) (best_score second_best_score : VoteItem * Z)
    : (VoteItem * Z) * (VoteItem * Z) :=
  match rest with
  | [] => (best_score, second_best_score)
  | el :: rest =>
      if best_score.2 <? el.2 then best_two rest el best_score
      else if second_best_score.2 <? el.2 then best_two rest best_score el
      else best_two rest best_score second_best_score
  end.

Definition get_winner (draws : list Draw) (last_winner : option VoteItem) : option VoteItem :=
  match collect_scores draws [] with
  | [] => None
  | [best_score] => Some best_score.1
  | first :: second :: rest =>
      let '(best_score, second_best_score) :=
        if first.2 <? second.2 then best_two rest second first else best_two rest first second in
      if best_score.2 =? second_best_score.2 then last_winner else Some best_score.1
  end.

(** ** Selections *)

(** The weight, the slashable amount and the delegated stakes of each drawn account. *)
Section Selections.
Context (MaxDelegations : Z).

Definition add_delegated_juror (delegated_stakes : DelegatedStakes) (delegated_juror : AccountId)
    (amount : Balance) : Res DelegatedStakes :=
  match search_key fst delegated_juror delegated_stakes with
  | Ok index =>
      delegated_stake ← ok_orR (delegated_stakes !! index) (CT_Unexpected BinarySearchByKeyFailed);
      mret (<[index := (delegated_stake.1, saturating_add u128_max delegated_stake.2 amount)]>
        delegated_stakes)
  | Err index =>
      mret (default delegated_stakes
        (try_insert MaxDelegations index (delegated_juror, amount) delegated_stakes))
  end.

Definition update_selections (selections : Selections) (court_participant : AccountId)
    (sel_add : SelectionAdd) : Res Selections :=
  let put v := bt_insert Z.compare court_participant v selections in
  match bt_get Z.compare court_participant selections with
  | Some (mk_SelectionValue weight slashable delegated_stakes) =>
      match sel_add with
      | SelfStake lock =>
          mret (put (mk_SelectionValue (saturating_add u32_max weight 1)
            (saturating_add u128_max slashable lock) delegated_stakes))
      | DelegationStake delegated_juror lock =>
          stakes ← add_delegated_juror delegated_stakes delegated_juror lock;
          mret (put (mk_SelectionValue weight (saturating_add u128_max slashable lock) stakes))
      | DelegationWeight =>
          mret (put (mk_SelectionValue (saturating_add u32_max weight 1) slashable delegated_stakes))
      end
  | None =>
      match sel_add with
      | SelfStake lock => mret (put (mk_SelectionValue 1 lock []))
      | DelegationStake delegated_juror lock =>
          stakes ← add_delegated_juror [] delegated_juror lock;
          mret (put (mk_SelectionValue 0 lock stakes))
      | DelegationWeight => mret (put (mk_SelectionValue 1 0 []))
      end
  end.
End Selections.

Definition convert_selections_to_draws (selections : Selections) : list Draw :=
  (λ x, mk_Draw x.1 (sv_weight x.2)
     (match sv_delegated_stakes x.2 with [] => Drawn | stakes => Delegated stakes end)
     (sv_slashable x.2)) <$> selections.

(** ** Rewards *)

(** Adds a delegator to the delegations of a juror. *)
Definition add_delegation (delegator : AccountId) (delegated_stake : Balance)
    (e : JurorVoteWithStakes) : Res JurorVoteWithStakes :=
  match search_key fst delegator (jv_delegations e) with
  | Ok i =>
      d ← ok_orR (jv_delegations e !! i) (CT_Unexpected BinarySearchByKeyFailed);
      mret (mk_JurorVote (self_info e)
        (<[i := (d.1, saturating_add u128_max d.2 delegated_stake)]> (jv_delegations e)))
  | Err i => mret (mk_JurorVote (self_info e) (insert_at i (delegator, delegated_stake) (jv_delegations e)))
  end.

Abbreviation JurorsToStakes := (list (AccountId * JurorVoteWithStakes)).
(** [entry(j).or_default()] *)
Definition juror_entry (j : AccountId) (m : JurorsToStakes) : JurorVoteWithStakes :=
  default JurorVote_default (bt_get Z.compare j m).

Fixpoint add_delegations (delegator : AccountId) (delegated_stakes : DelegatedStakes)
    (m : JurorsToStakes) : Res JurorsToStakes :=
  match delegated_stakes with
  | [] => mret m
  | (j, delegated_stake) :: delegated_stakes =>
      e ← add_delegation delegator delegated_stake (juror_entry j m);
      add_delegations delegator delegated_stakes (bt_insert Z.compare j e m)
  end.

Section Court.
Context {C R L Rng : Type} `{MarketCommonsPalletApi C, DisputeResolutionApi R, Currency L,
  !ImbalanceCurrency L, !CourtConfig L Rng}.
Abbreviation St := (State C R L).
(** The current block. *)
Context (now : BlockNumber).

Definition get_appeal_bond (n : nat) : Balance :=
  saturating_mul u128_max AppealBond (saturating_pow u32_max APPEAL_BOND_BASIS (Z.of_nat n)).

Definition participant (who : AccountId) : Store St (option CourtParticipantInfo) :=
  reads (λ s, Participants s !! who).
Definition put_participant (who : AccountId) (p : CourtParticipantInfo) : Store St unit :=
  writes (λ s, set_Participants (<[who := p]> (Participants s)) s).
Definition update_currency (f : L → L) : Store St unit :=
  modify (λ s, set_currency (f (currency s)) s).

(** ** Joining and leaving *)

Definition remove_weakest_if_full (amount : Balance) (p : list CourtPoolItem)
    : Res (list CourtPoolItem) :=
  if MaxCourtParticipants <=? Z.of_nat (length p) then
    let lowest_stake := default 0 (pi_stake <$> head p) in
    _ ← ensureR (lowest_stake <? amount) CT_AmountBelowLowestJuror;
    vec_remove 0 p
  else Ok p.

(** The active lock, the consumed stake and the joining block to keep, and the pool
    without the participant. *)
Definition leave_pool (who : AccountId) (amount : Balance) (pool : list CourtPoolItem)
    (prev : option CourtParticipantInfo)
    : Res (Balance * Balance * BlockNumber * list CourtPoolItem) :=
  match prev with
  | Some prev_p_info =>
      _ ← ensureR (cp_stake prev_p_info <=? amount) CT_AmountBelowLastJoin;
      item ← get_pool_item pool (cp_stake prev_p_info) who;
      match item with
      | Some (index, pool_item) =>
          pool ← vec_remove index pool;
          mret (active_lock prev_p_info, consumed_stake pool_item, joined_at pool_item, pool)
      | None =>
          pool ← remove_weakest_if_full amount pool;
          mret (active_lock prev_p_info, active_lock prev_p_info, now, pool)
      end
  | None =>
      pool ← remove_weakest_if_full amount pool;
      mret (0, 0, now, pool)
  end.

Definition enter_pool (item : CourtPoolItem) (pool : list CourtPoolItem)
    : Res (list CourtPoolItem) :=
  match pool_search pool (pi_stake item) (pi_participant item) with
  | Ok _ => Err CT_CourtParticipantTwiceInPool
  | Err i => ok_orR (try_insert MaxCourtParticipants i item pool) CT_MaxCourtParticipantsReached
  end.

Definition do_join_court (who : AccountId) (amount : Balance)
    (delegations : option (list AccountId)) : Store St unit :=
  _ ← ensure (MinJurorStake <=? amount) CT_BelowMinJurorStake;
  free_balance ← gets (λ s, cur_free_balance who (currency s));
  _ ← ensure (amount <=? free_balance) CT_AmountExceedsBalance;
  pool ← reads CourtPool;
  prev ← participant who;
  kept ← lift (leave_pool who amount pool prev);
  let '(lock, consumed, joined, pool) := kept in
  pool ← lift (enter_pool (mk_PoolItem amount who consumed joined) pool);
  _ ← update_currency (cur_set_lock LockId who amount);
  _ ← writes (set_CourtPool pool);
  put_participant who (mk_ParticipantInfo amount lock None delegations).

Definition join_court (origin : option AccountId) (amount : Balance) : Store St unit :=
  transactional (
    who ← ok_or origin BadOrigin;
    _ ← do_join_court who amount None;
    deposit_event (JurorJoined who amount)).

(** Whether an account is a juror in the pool. *)
Definition is_pool_juror (s : Storage) (pretended_juror : AccountId) : bool :=
  match Participants s !! pretended_juror with
  | Some info =>
      match get_pool_item (CourtPool s) (cp_stake info) pretended_juror with
      | Ok (Some _) => bool_decide (delegations info = None)
      | _ => false
      end
  | None => false
  end.

Definition has_duplicates (l : list AccountId) : bool :=
  existsb (λ x, x.1 =? x.2) (zip l (tail l)).

Definition delegate (origin : option AccountId) (amount : Balance) (delegations : list AccountId)
    : Store St unit :=
  transactional (
    who ← ok_or origin BadOrigin;
    _ ← ensure (negb (bool_decide (delegations = []))) CT_NoDelegations;
    _ ← ensure (Z.of_nat (length delegations) <=? MaxDelegations) CT_MaxDelegationsReached;
    is_valid_set ← reads (λ s, forallb (is_pool_juror s) delegations);
    _ ← ensure is_valid_set CT_DelegatedToInvalidJuror;
    let sorted_delegations := merge_sort Z.le delegations in
    _ ← ensure (negb (has_duplicates sorted_delegations)) CT_IdenticalDelegationsNotAllowed;
    _ ← ensure (negb (bool_decide (who ∈ sorted_delegations))) CT_SelfDelegationNotAllowed;
    _ ← do_join_court who amount (Some sorted_delegations);
    deposit_event (DelegatorJoined who amount delegations)).

Definition prepare_exit_court (origin : option AccountId) : Store St unit :=
  transactional (
    who ← ok_or origin BadOrigin;
    prev ← participant who;
    prev_p_info ← ok_or prev CT_JurorDoesNotExist;
    _ ← ensure (bool_decide (prepare_exit_at prev_p_info = None)) CT_AlreadyPreparedExit;
    pool ← reads CourtPool;
    item ← lift (get_pool_item pool (cp_stake prev_p_info) who);
    _ ← match item with
        | Some (index, _) => pool ← lift (vec_remove index pool); writes (set_CourtPool pool)
        | None => mret tt
        end;
    _ ← put_participant who (mk_ParticipantInfo (cp_stake prev_p_info) (active_lock prev_p_info)
          (Some now) (delegations prev_p_info));
    deposit_event (ExitPrepared who)).

Definition exit_court (origin : option AccountId) (who : AccountId) : Store St unit :=
  transactional (
    _ ← ok_or origin BadOrigin;
    prev ← participant who;
    prev_p_info ← ok_or prev CT_JurorDoesNotExist;
    prepare_exit_at ← ok_or (prepare_exit_at prev_p_info) CT_PrepareExitAtNotPresent;
    _ ← ensure (InflationPeriod <=? saturating_sub now prepare_exit_at) CT_PrematureExit;
    exited ←
      (if active_lock prev_p_info =? 0 then
         _ ← update_currency (cur_remove_lock LockId who);
         _ ← writes (λ s, set_Participants (delete who (Participants s)) s);
         mret (cp_stake prev_p_info, 0)
       else
         let lock := active_lock prev_p_info in
         let exit_amount := saturating_sub (cp_stake prev_p_info) lock in
         _ ← update_currency (cur_set_lock LockId who lock);
         _ ← put_participant who (mk_ParticipantInfo lock lock
               (CourtTypes.prepare_exit_at prev_p_info) (delegations prev_p_info));
         mret (exit_amount, lock));
    deposit_event (ExitedCourt who exited.1 exited.2)).

(** ** Voting *)

(** The draw of an account: [update] gives its new vote and a result. *)
Definition update_draw {A} (who : AccountId) (missing : CourtError)
    (update : Draw → Res (Vote * A)) (draws : list Draw) : Res (list Draw * A) :=
  match search_key court_participant who draws with
  | Ok index =>
      draw ← ok_orR (draws !! index) (CT_Unexpected BinarySearchByKeyFailed);
      r ← update draw;
      mret (<[index := set_draw_vote r.1 draw]> draws, r.2)
  | Err _ => Err missing
  end.

Definition get_court (court_id : CourtId) : Store St CourtInfo :=
  court ← reads (λ s, Courts s !! court_id);
  ok_or court CT_CourtNotFound.
Definition put_court (court_id : CourtId) (court : CourtInfo) : Store St unit :=
  writes (λ s, set_Courts (<[court_id := court]> (Courts s)) s).
Definition draws_of (court_id : CourtId) (s : Storage) : list Draw :=
  default [] (SelectedDraws s !! court_id).
Definition put_draws (court_id : CourtId) (draws : list Draw) : Store St unit :=
  writes (λ s, set_SelectedDraws (<[court_id := draws]> (SelectedDraws s)) s).
Definition market_of (market_id : MarketId) : Store St Market :=
  rm ← gets (λ s, api_market market_id (commons s));
  lift rm.

Definition compare_commitment (hashed_commitment : Hash) (juror : AccountId) (vote_item : VoteItem)
    (salt : Hash) : Res unit :=
  ensureR (hashed_commitment =? hash_of juror vote_item salt) CT_CommitmentHashMismatch.

Definition get_hashed_commitment (vote : Vote) (juror : AccountId) (vote_item : VoteItem)
    (salt : Hash) : Res Hash :=
  match vote with
  | Secret commitment => _ ← compare_commitment commitment juror vote_item salt; mret commitment
  | Drawn => Err CT_JurorDidNotVote
  | Delegated _ => Err CT_JurorDelegated
  | Revealed _ _ _ => Err CT_VoteAlreadyRevealed
  | Denounced _ _ _ => Err CT_VoteAlreadyDenounced
  end.

Definition vote (origin : option AccountId) (court_id : CourtId) (commitment_vote : Hash)
    : Store St unit :=
  transactional (
    who ← ok_or origin BadOrigin;
    court ← get_court court_id;
    _ ← ensure ((rt_pre_vote (round_ends court) <? now) && (now <=? rt_vote (round_ends court)))
          CT_NotInVotingPeriod;
    draws ← reads (draws_of court_id);
    r ← lift (update_draw who CT_CallerNotInSelectedDraws
          (λ draw,
             _ ← ensureR (match draw_vote draw with Drawn | Secret _ => true | _ => false end)
                   CT_InvalidVoteState;
             mret (Secret commitment_vote, tt)) draws);
    _ ← put_draws court_id r.1;
    deposit_event (JurorVoted court_id who commitment_vote)).

(** The vote item of a court on a market is an outcome of the market. *)
Definition check_outcome (court_id : CourtId) (vote_item : VoteItem) : Store St unit :=
  market_id ← reads (λ s, CourtIdToMarketId s !! court_id);
  match market_id with
  | Some market_id =>
      m ← market_of market_id;
      outcome ← ok_or (into_outcome vote_item) CT_VoteItemIsNoOutcome;
      ensure (matches_outcome_report m outcome) CT_OutcomeMismatch
  | None => mret tt
  end.

Definition denounce_vote (origin : option AccountId) (court_id : CourtId) (juror : AccountId)
    (vote_item : VoteItem) (salt : Hash) : Store St unit :=
  transactional (
    denouncer ← ok_or origin BadOrigin;
    _ ← check_outcome court_id vote_item;
    _ ← ensure (negb (denouncer =? juror)) CT_CallerDenouncedItself;
    p ← participant juror;
    _ ← ensure (bool_decide (is_Some p)) CT_JurorDoesNotExist;
    court ← get_court court_id;
    _ ← lift (check_vote_item court vote_item);
    _ ← ensure ((rt_pre_vote (round_ends court) <? now) && (now <=? rt_vote (round_ends court)))
          CT_NotInVotingPeriod;
    draws ← reads (draws_of court_id);
    r ← lift (update_draw juror CT_JurorNotDrawn
          (λ draw,
             commitment ← get_hashed_commitment (draw_vote draw) juror vote_item salt;
             mret (Denounced commitment vote_item salt, tt)) draws);
    _ ← put_draws court_id r.1;
    deposit_event (DenouncedJurorVote denouncer juror court_id vote_item salt)).

Definition reveal_vote (origin : option AccountId) (court_id : CourtId) (vote_item : VoteItem)
    (salt : Hash) : Store St unit :=
  transactional (
    who ← ok_or origin BadOrigin;
    _ ← check_outcome court_id vote_item;
    p ← participant who;
    _ ← ensure (bool_decide (is_Some p)) CT_CallerIsNotACourtParticipant;
    court ← get_court court_id;
    _ ← lift (check_vote_item court vote_item);
    _ ← ensure ((rt_vote (round_ends court) <? now) && (now <=? rt_aggregation (round_ends court)))
          CT_NotInAggregationPeriod;
    draws ← reads (draws_of court_id);
    r ← lift (update_draw who CT_CallerNotInSelectedDraws
          (λ draw,
             commitment ← get_hashed_commitment (draw_vote draw) who vote_item salt;
             mret (Revealed commitment vote_item salt, (slashable draw, weight draw))) draws);
    _ ← put_draws court_id r.1;
    deposit_event (JurorRevealedVote who court_id vote_item salt r.2.1 r.2.2)).

(** ** Drawing *)

(** A generator for the next nonce. *)
Definition rng : Store St Rng :=
  nonce ← reads SelectionNonce;
  _ ← writes (set_SelectionNonce ((nonce + 1) mod 2 ^ 64));
  mret (rng_of now nonce).

(** The shuffle: [k] rounds are left, [i] is the current one. *)
Fixpoint section_ends_loop (sections_len : Z) (k : nat) (i : Z) (g : Rng) (swaps : gmap Z Z)
    (random_section_ends : list Z) : Res (list Z) :=
  match k with
  | O => Ok random_section_ends
  | S k =>
      let visited_i := default i (swaps !! i) in
      if i <? sections_len then
        let '(unused_random_index, g) := gen_range i sections_len g in
        let unused_random_number := default unused_random_index (swaps !! unused_random_index) in
        let swaps := <[unused_random_index := visited_i]> (<[i := unused_random_number]> swaps) in
        let random_index := saturating_add u128_max unused_random_number 1 in
        let random_section_end := saturating_mul u128_max random_index MinJurorStake in
        section_ends_loop sections_len k (i + 1) g swaps
          (bs_insert Z.compare random_section_end random_section_ends)
      else Err (Panic "cannot sample empty range")
  end.

Definition get_n_random_section_ends (n : nat) (max : Z) : Store St (list Z) :=
  g ← rng;
  let sections_len := if MinJurorStake =? 0 then 0 else max / MinJurorStake in
  lift (section_ends_loop sections_len n 0 g ∅ []).

Definition add_active_lock (court_participant : AccountId) (lock_added : Balance) : Store St unit :=
  p ← participant court_participant;
  match p with
  | Some p_info =>
      put_participant court_participant
        (set_active_lock (saturating_add u128_max (active_lock p_info) lock_added) p_info)
  | None => mret tt
  end.

(** The loop over the delegated jurors. *)
Fixpoint valid_delegated_jurors (s : Storage) (delegations : list AccountId)
    : result SelectionError (list AccountId) :=
  match delegations with
  | [] => Ok []
  | delegated_juror :: delegations' =>
      match Participants s !! delegated_juror with
      | Some info =>
          if bool_decide (is_Some (CourtTypes.delegations info)) then valid_delegated_jurors s delegations'
          else
            match get_pool_item (CourtPool s) (cp_stake info) delegated_juror with
            | Err _ => Err SE_BinarySearchByKeyFailed
            | Ok pool_item =>
                rest ← valid_delegated_jurors s delegations';
                mret (match pool_item with Some _ => delegated_juror :: rest | None => rest end)
            end
      | None => valid_delegated_jurors s delegations'
      end
  end.

Definition get_valid_delegated_juror (delegations : list AccountId)
    : Store St (result SelectionError (option AccountId)) :=
  g ← rng;
  valid ← reads (λ s, valid_delegated_jurors s delegations);
  mret (valid ← valid; mret (valid !! choose_index (length valid) g)).

(** [map_err] to [SelectionError] *)
Definition selection_result {A} (r : Res A) : result SelectionError A :=
  match r with Ok a => Ok a | Err _ => Err SE_BinarySearchByKeyFailed end.

Definition add_to_selections (selections : Selections) (court_participant : AccountId)
    (lock_added : Balance) : Store St (result SelectionError Selections) :=
  p ← participant court_participant;
  match p ≫= delegations with
  | Some delegations =>
      r ← get_valid_delegated_juror delegations;
      mret (
        delegated ← r;
        delegated_juror ← Prelude.ok_orR delegated NoValidDelegatedJuror;
        selections ← selection_result
          (update_selections MaxDelegations selections delegated_juror DelegationWeight);
        selection_result (update_selections MaxDelegations selections court_participant
          (DelegationStake delegated_juror lock_added)))
  | None =>
      mret (selection_result
        (update_selections MaxDelegations selections court_participant (SelfStake lock_added)))
  end.

(** One random section end: the new pool and selections, and the invalid indices. *)
Definition select_section_end (cumulative_section_ends : list (Z * bool)) (random_section_end : Z)
    (acc : list CourtPoolItem * Selections * list nat)
    : Store St (list CourtPoolItem * Selections * list nat) :=
  let '(pool, selections, invalid_juror_indices) := acc in
  let range_index :=
    match binary_search_by (λ x, pair_compare Z.compare bool_compare x (random_section_end, false))
            cumulative_section_ends with Ok i => i | Err i => i end in
  match pool !! range_index with
  | Some pool_item =>
      let unconsumed := saturating_sub (pi_stake pool_item) (consumed_stake pool_item) in
      let lock_added := Z.min unconsumed MinJurorStake in
      r ← add_to_selections selections (pi_participant pool_item) lock_added;
      kept ← match r with
             | Ok selections => mret (selections, invalid_juror_indices)
             | Err NoValidDelegatedJuror => mret (selections, invalid_juror_indices ++ [range_index])
             | Err SE_BinarySearchByKeyFailed => fail (CT_Unexpected BinarySearchByKeyFailed)
             end;
      _ ← add_active_lock (pi_participant pool_item) lock_added;
      let consumed := saturating_add u128_max (consumed_stake pool_item) lock_added in
      mret (<[range_index := set_consumed_stake consumed pool_item]> pool, kept.1, kept.2)
  | None => mret acc
  end.

Fixpoint select_section_ends (cumulative_section_ends : list (Z * bool)) (random_section_ends : list Z)
    (acc : list CourtPoolItem * Selections * list nat)
    : Store St (list CourtPoolItem * Selections * list nat) :=
  match random_section_ends with
  | [] => mret acc
  | random_section_end :: random_section_ends =>
      acc ← select_section_end cumulative_section_ends random_section_end acc;
      select_section_ends cumulative_section_ends random_section_ends acc
  end.

(** [for i in invalid_juror_indices { pool.remove(i) }] *)
Fixpoint remove_indices (indices : list nat) (pool : list CourtPoolItem) : Res (list CourtPoolItem) :=
  match indices with
  | [] => mret pool
  | i :: indices => pool ← vec_remove i pool; remove_indices indices pool
  end.

Definition get_selections (pool : list CourtPoolItem) (random_section_ends : list Z)
    (cumulative_section_ends : list (Z * bool)) : Store St (list CourtPoolItem * Selections) :=
  acc ← select_section_ends cumulative_section_ends random_section_ends (pool, [], []);
  let '(pool, selections, invalid_juror_indices) := acc in
  pool ← lift (remove_indices invalid_juror_indices pool);
  mret (pool, selections).

(** The unconsumed stake of an item, cut to a multiple of [MinJurorStake]. *)
Definition unconsumed_sections (i : CourtPoolItem) : Z :=
  let unconsumed := saturating_sub (pi_stake i) (consumed_stake i) in
  saturating_sub unconsumed (unconsumed mod MinJurorStake).

Fixpoint cumulative_ends (pool : list CourtPoolItem) (running_total : Z) : list (Z * bool) :=
  match pool with
  | [] => []
  | pool_item :: pool =>
      let unconsumed := unconsumed_sections pool_item in
      let running_total := saturating_add u128_max running_total unconsumed in
      (running_total, unconsumed =? 0) :: cumulative_ends pool running_total
  end.
Definition pool_unconsumed_stake (pool : list CourtPoolItem) : Z :=
  foldl (λ acc i, saturating_add u128_max acc (unconsumed_sections i)) 0 pool.

Definition choose_multiple_weighted (draw_weight : Z) : Store St (list Draw) :=
  pool ← reads CourtPool;
  let total_unconsumed := pool_unconsumed_stake pool in
  let required_stake := saturating_mul u128_max draw_weight MinJurorStake in
  _ ← ensure (required_stake <=? total_unconsumed) CT_NotEnoughJurorsAndDelegatorsStake;
  random_section_ends ← get_n_random_section_ends (Z.to_nat draw_weight) total_unconsumed;
  selected ← get_selections pool random_section_ends (cumulative_ends pool 0);
  _ ← writes (set_CourtPool selected.1);
  mret (convert_selections_to_draws selected.2).

(** Takes the slashable amount of a draw off the active lock. *)
Definition release_lock (draw : Draw) : Store St unit :=
  p ← participant (court_participant draw);
  match p with
  | Some p_info =>
      put_participant (court_participant draw)
        (set_active_lock (saturating_sub (active_lock p_info) (slashable draw)) p_info)
  | None => mret tt
  end.
Definition unlock_participants_from_last_draw (last_draws : list Draw) : Store St unit :=
  for_each release_lock last_draws.

Definition select_participants (appeal_number : nat) : Store St (list Draw) :=
  random_jurors ← choose_multiple_weighted (necessary_draws_weight appeal_number);
  mret (take (Z.to_nat MaxSelectedDraws) random_jurors).

(** ** Appeals *)

Definition check_appealable_market (court_id : CourtId) (court : CourtInfo) (s : St) : Res unit :=
  _ ← match CourtIdToMarketId (storage s) !! court_id with
      | Some market_id =>
          m ← api_market market_id (commons s);
          _ ← ensureR (bool_decide (status m = Disputed)) CT_MarketIsNotDisputed;
          ensure_dispute_mechanism m
      | None => mret tt
      end;
  ensureR ((rt_aggregation (round_ends court) <? now) && (now <? rt_appeal (round_ends court)))
    CT_NotInAppealPeriod.

Definition get_latest_winner_vote_item (court_id : CourtId) (last_draws : list Draw)
    : Store St VoteItem :=
  court ← get_court court_id;
  let last_winner := appealed_vote_item <$> last (appeals court) in
  market_id ← reads (λ s, CourtIdToMarketId s !! court_id);
  market_id ← ok_or market_id CT_CourtIdToMarketIdNotFound;
  m ← market_of market_id;
  r ← ok_or (report m) CT_MarketReportNotFound;
  mret (default (VoteItem_Outcome (report_outcome r)) (get_winner last_draws last_winner)).

Definition round_timing (request_block : BlockNumber) : RoundTiming :=
  mk_RoundTiming request_block VotePeriod AggregationPeriod AppealPeriod.

(** A new round: the draws, the schedule and the locks; the court with its new ends. *)
Definition new_round (court_id : CourtId) (court : CourtInfo) (appeal_number : nat)
    (old_draws : list Draw) : Store St CourtInfo :=
  new_draws ← select_participants appeal_number;
  request_block ← reads RequestBlock;
  let court := update_round (round_timing request_block) court in
  market_id ← reads (λ s, CourtIdToMarketId s !! court_id);
  _ ← match market_id with
      | Some market_id =>
          _ ← zoom resolution set_resolution
            (add_auto_resolve market_id (rt_appeal (round_ends court)));
          mret tt
      | None => mret tt
      end;
  _ ← put_draws court_id new_draws;
  _ ← unlock_participants_from_last_draw old_draws;
  mret court.

Definition appeal (origin : option AccountId) (court_id : CourtId) : Store St unit :=
  transactional (
    who ← ok_or origin BadOrigin;
    court ← get_court court_id;
    let appeal_number := S (length (appeals court)) in
    _ ← ensure (Z.of_nat appeal_number <=? MaxAppeals) CT_MaxAppealsReached;
    let bond := get_appeal_bond appeal_number in
    can_reserve ← gets (λ s, cur_can_reserve who bond (currency s));
    _ ← ensure can_reserve CT_AppealBondExceedsBalance;
    checked ← gets (check_appealable_market court_id court);
    _ ← lift checked;
    old_draws ← reads (draws_of court_id);
    appealed ← get_latest_winner_vote_item court_id old_draws;
    let appeal_info := mk_AppealInfo who bond appealed in
    new_appeals ← ok_or (if Z.of_nat (length (appeals court)) <? MaxAppeals
      then Some (appeals court ++ [appeal_info]) else None) CT_MaxAppealsReached;
    let court := set_appeals new_appeals court in
    let last_resolve_at := rt_appeal (round_ends court) in
    started ←
      (if Z.of_nat appeal_number <? MaxAppeals then
         court ← new_round court_id court appeal_number old_draws;
         mret (court, Some (round_ends court))
       else mret (court, None));
    market_id ← reads (λ s, CourtIdToMarketId s !! court_id);
    _ ← match market_id with
        | Some market_id =>
            _ ← zoom resolution set_resolution
              (infallible (remove_auto_resolve market_id last_resolve_at));
            mret tt
        | None => mret tt
        end;
    _ ← zoom currency set_currency (cur_reserve_named court_reserve_id who bond);
    _ ← put_court court_id started.1;
    deposit_event (CourtAppealed court_id appeal_info started.2)).

(** ** Settlement of the stakes *)

(** [slash] and [subsume]: the slashed amount and the ledger. *)
Fixpoint slash_all_delegators (delegations : list (AccountId * Balance)) (total_imb : Balance) (l : L)
    : Balance * L :=
  match delegations with
  | [] => (total_imb, l)
  | (delegator, d_slashable) :: delegations =>
      let '(imb, missing, l) := cur_slash delegator d_slashable l in
      slash_all_delegators delegations (saturating_add u128_max total_imb imb) l
  end.

(** The loop over the jurors: the incentives, the stake of the winners and the winners. *)
Fixpoint slash_losers (winner_vote_item : VoteItem) (jurors_to_stakes : JurorsToStakes)
    (total_incentives total_winner_stake : Balance) (winners : list (AccountId * Balance)) (l : L)
    : Balance * Balance * list (AccountId * Balance) * L :=
  match jurors_to_stakes with
  | [] => (total_incentives, total_winner_stake, winners, l)
  | (juror, mk_JurorVote self_info delegations) :: jurors_to_stakes =>
      match self_info with
      | Some (mk_SelfInfo slashable vote_item) =>
          if bool_decide (vote_item = winner_vote_item) then
            let total_delegation_stake :=
              foldl (λ acc d, saturating_add u128_max acc d.2) 0 delegations in
            slash_losers winner_vote_item jurors_to_stakes total_incentives
              (saturating_add u128_max (saturating_add u128_max total_winner_stake slashable)
                total_delegation_stake)
              (winners ++ (juror, slashable) :: delegations) l
          else
            let '(imb, missing, l) := cur_slash juror slashable l in
            let total_incentives := saturating_add u128_max total_incentives imb in
            let '(imb, l) := slash_all_delegators delegations 0 l in
            slash_losers winner_vote_item jurors_to_stakes (saturating_add u128_max total_incentives imb)
              total_winner_stake winners l
      | None =>
          let '(imb, l) := slash_all_delegators delegations 0 l in
          slash_losers winner_vote_item jurors_to_stakes (saturating_add u128_max total_incentives imb)
            total_winner_stake winners l
      end
  end.

Fixpoint award_winners (winners : list (AccountId * Balance)) (total_winner_stake total_reward : Balance)
    (total_incentives : Balance) (l : L) : Balance * L :=
  match winners with
  | [] => (total_incentives, l)
  | (winner, risked_amount) :: winners =>
      let share := perquintill_from_rational risked_amount total_winner_stake in
      let reward_per_each := perquintill_mul share total_reward in
      let actual_reward := Z.min total_incentives reward_per_each in
      award_winners winners total_winner_stake total_reward (total_incentives - actual_reward)
        (cur_resolve_creating winner actual_reward l)
  end.

Definition slash_losers_to_award_winners (court_id : CourtId) (jurors_to_stakes : JurorsToStakes)
    (winner_vote_item : VoteItem) (l : L) : L :=
  let '(total_incentives, total_winner_stake, winners, l) :=
    slash_losers winner_vote_item jurors_to_stakes 0 0 [] l in
  let pot := reward_pot court_id in
  let reward := cur_free_balance pot l in
  let '(imb, missing, l) := cur_slash pot reward l in
  let total_reward := saturating_add u128_max total_incentives imb in
  let '(leftover, l) := award_winners winners total_winner_stake total_reward total_reward l in
  if leftover =? 0 then l else slash_unbalanced leftover l.

(** [slash_juror] *)
Definition slash_juror (court_id : CourtId) (ai : AccountId) (amount : Balance) (l : L) : L :=
  let '(imbalance, missing, l) := cur_slash ai amount l in
  cur_resolve_creating (reward_pot court_id) imbalance l.

Definition handle_vote (court_id : CourtId) (draw : Draw) (jurors_to_stakes : JurorsToStakes)
    : Store St JurorsToStakes :=
  match draw_vote draw with
  | Drawn | Secret _ | Denounced _ _ _ =>
      _ ← update_currency (slash_juror court_id (court_participant draw) (slashable draw));
      mret jurors_to_stakes
  | Revealed _ vote_item _ =>
      let e := juror_entry (court_participant draw) jurors_to_stakes in
      mret (bt_insert Z.compare (court_participant draw)
        (mk_JurorVote (Some (mk_SelfInfo (slashable draw) vote_item)) (jv_delegations e))
        jurors_to_stakes)
  | Delegated delegated_stakes =>
      lift (add_delegations (court_participant draw) delegated_stakes jurors_to_stakes)
  end.

Fixpoint reassign_draws (court_id : CourtId) (draws : list Draw) (jurors_to_stakes : JurorsToStakes)
    : Store St JurorsToStakes :=
  match draws with
  | [] => mret jurors_to_stakes
  | draw :: draws =>
      _ ← release_lock draw;
      jurors_to_stakes ← handle_vote court_id draw jurors_to_stakes;
      reassign_draws court_id draws jurors_to_stakes
  end.

Definition remove_draws (court_id : CourtId) : Store St unit :=
  writes (λ s, set_SelectedDraws (delete court_id (SelectedDraws s)) s).
Definition remove_court (court_id : CourtId) : Store St unit :=
  writes (λ s, set_Courts (delete court_id (Courts s)) s).

Definition reassign_court_stakes (origin : option AccountId) (court_id : CourtId) : Store St unit :=
  transactional (
    _ ← ok_or origin BadOrigin;
    court ← get_court court_id;
    winner ← lift (match court_status court with
                   | Court_Closed winner => Ok winner
                   | Court_Reassigned => Err CT_CourtAlreadyReassigned
                   | Court_Open => Err CT_CourtNotClosed
                   end);
    draws ← reads (draws_of court_id);
    jurors_to_stakes ← reassign_draws court_id draws [];
    _ ← update_currency (slash_losers_to_award_winners court_id jurors_to_stakes winner);
    _ ← put_court court_id (set_status Court_Reassigned court);
    _ ← remove_draws court_id;
    deposit_event (StakesReassigned court_id)).

(** ** Inflation *)

(** [MonetaryGovernanceOrigin] admits the origin or not. *)
Definition set_inflation (governance : bool) (inflation : Perbill) : Store St unit :=
  transactional (
    _ ← ensure governance BadOrigin;
    _ ← ensure (inflation <=? MaxYearlyInflation) CT_InflationExceedsMaxYearlyInflation;
    _ ← writes (set_YearlyInflation inflation);
    deposit_event (InflationSet inflation)).

Definition at_least_one_inflation_period (joined_at : BlockNumber) : bool :=
  InflationPeriod <=? saturating_sub now joined_at.

Fixpoint mint_shares (pool : list CourtPoolItem) (total_stake inflation_period_mint : Balance)
    (total_mint : Balance) : Store St Balance :=
  match pool with
  | [] => mret total_mint
  | pool_item :: pool =>
      if at_least_one_inflation_period (joined_at pool_item) then
        let share := perquintill_from_rational (pi_stake pool_item) total_stake in
        let mint := perquintill_mul_floor share inflation_period_mint in
        let mint_amount := Z.min total_mint mint in
        resolved ← zoom currency set_currency
          (infallible (cur_resolve_into_existing (pi_participant pool_item) mint_amount));
        _ ← (if resolved : bool then deposit_event (MintedInCourt (pi_participant pool_item) mint_amount)
             else update_currency (cur_drop_negative mint_amount));
        mint_shares pool total_stake inflation_period_mint (total_mint - mint_amount)
      else mint_shares pool total_stake inflation_period_mint total_mint
  end.

Definition handle_inflation : Store St unit :=
  yearly_inflation_rate ← reads YearlyInflation;
  total_supply ← gets (λ s, cur_total_issuance (currency s));
  pool ← reads CourtPool;
  let yearly_inflation_amount := perbill_mul_floor yearly_inflation_rate total_supply in
  let issue_per_block := yearly_inflation_amount / Z.max BlocksPerYear 1 in
  let inflation_period_mint := saturating_mul u128_max issue_per_block InflationPeriod in
  let total_stake := foldl (λ acc i, saturating_add u128_max acc (pi_stake i)) 0
    (filter (λ i, at_least_one_inflation_period (joined_at i)) pool) in
  if negb (now mod InflationPeriod =? 0) then mret tt
  else if yearly_inflation_rate =? 0 then mret tt
  else if yearly_inflation_amount <? inflation_period_mint then mret tt
  else if total_stake =? 0 then mret tt
  else
    total_mint ← zoom currency set_currency (infallible (cur_issue inflation_period_mint));
    remainder ← mint_shares pool total_stake inflation_period_mint total_mint;
    if remainder =? 0 then mret tt
    else
      _ ← update_currency (cur_drop_negative remainder);
      _ ← update_currency (cur_burn remainder);
      update_currency (cur_drop_positive remainder).

Definition on_initialize : Store St unit :=
  _ ← handle_inflation;
  request_block ← reads RequestBlock;
  if request_block <=? now then writes (set_RequestBlock (saturating_add u64_max now RequestInterval))
  else mret tt.

(** ** The dispute interface *)

Definition on_dispute (market_id : MarketId) (m : Market) : Store St unit :=
  _ ← lift (ensure_dispute_mechanism m);
  court_id ← reads NextCourtId;
  next_court_id ← ok_or (if court_id + 1 <=? u128_max then Some (court_id + 1) else None)
    CT_MaxCourtIdReached;
  new_draws ← select_participants 0;
  request_block ← reads RequestBlock;
  let court := CourtInfo_new (round_timing request_block) VoteItemType_Outcome in
  _ ← zoom resolution set_resolution (add_auto_resolve market_id (rt_appeal (round_ends court)));
  _ ← put_draws court_id new_draws;
  _ ← put_court court_id court;
  _ ← writes (λ s, set_court_ids next_court_id (<[market_id := court_id]> (MarketIdToCourtId s))
        (<[court_id := market_id]> (CourtIdToMarketId s)) s);
  deposit_event (CourtOpened market_id court).

Definition court_id_of (market_id : MarketId) : Store St CourtId :=
  court_id ← reads (λ s, MarketIdToCourtId s !! market_id);
  ok_or court_id CT_MarketIdToCourtIdNotFound.

Definition on_resolution (market_id : MarketId) (m : Market) : Store St (option OutcomeReport) :=
  _ ← lift (ensure_dispute_mechanism m);
  court_id ← court_id_of market_id;
  court ← get_court court_id;
  draws ← reads (draws_of court_id);
  winner_vote_item ← get_latest_winner_vote_item court_id draws;
  _ ← unlock_participants_from_last_draw draws;
  _ ← put_court court_id (set_status (Court_Closed winner_vote_item) court);
  winner_outcome ← ok_or (into_outcome winner_vote_item) CT_WinnerVoteItemIsNoOutcome;
  mret (Some winner_outcome).

(** The loop over the appeals: bonds for the resolved outcome are slashed, the others
    go back. *)
Fixpoint settle_appeals (resolved_outcome : OutcomeReport) (appeals : list AppealInfo)
    (overall_imbalance : Balance) : Store St Balance :=
  match appeals with
  | [] => mret overall_imbalance
  | mk_AppealInfo backer bond appealed_vote_item :: appeals =>
      outcome ← ok_or (into_outcome appealed_vote_item) CT_AppealedVoteItemIsNoOutcome;
      if bool_decide (resolved_outcome = outcome) then
        slashed ← zoom currency set_currency
          (infallible (cur_slash_reserved_named court_reserve_id backer bond));
        settle_appeals resolved_outcome appeals
          (saturating_add u128_max overall_imbalance slashed.1)
      else
        _ ← zoom currency set_currency
          (infallible (cur_unreserve_named court_reserve_id backer bond));
        settle_appeals resolved_outcome appeals overall_imbalance
  end.

Definition exchange (market_id : MarketId) (m : Market) (resolved_outcome : OutcomeReport)
    (overall_imbalance : Balance) : Store St Balance :=
  _ ← lift (ensure_dispute_mechanism m);
  court_id ← court_id_of market_id;
  court ← get_court court_id;
  settle_appeals resolved_outcome (appeals court) overall_imbalance.

Definition get_auto_resolve (market_id : MarketId) (m : Market) (s : Storage) : option BlockNumber :=
  if bool_decide (dispute_mechanism m = Some MDM_Court) then
    court_id ← MarketIdToCourtId s !! market_id;
    court ← Courts s !! court_id;
    Some (rt_appeal (round_ends court))
  else None.

Definition has_failed (market_id : MarketId) (m : Market) : Store St bool :=
  _ ← lift (ensure_dispute_mechanism m);
  court_id ← court_id_of market_id;
  unconsumed ← reads (λ s, pool_unconsumed_stake (CourtPool s));
  court ← reads (λ s, Courts s !! court_id);
  match court with
  | Some court =>
      let appeal_number := S (length (appeals court)) in
      let required_stake :=
        saturating_mul u128_max (necessary_draws_weight appeal_number) MinJurorStake in
      valid_period ← gets (λ s, is_ok (check_appealable_market court_id court s));
      mret ((MaxAppeals <=? Z.of_nat (length (appeals court)))
        || (valid_period && (unconsumed <? required_stake)))
  | None =>
      r ← ok_or (report m) CT_MarketReportNotFound;
      let block_after_dispute_duration :=
        saturating_add u64_max (report_at r) (dispute_duration (deadlines m)) in
      let during_dispute_duration :=
        (report_at r <=? now) && (now <? block_after_dispute_duration) in
      let required_stake := saturating_mul u128_max (necessary_draws_weight 0) MinJurorStake in
      mret (during_dispute_duration && (unconsumed <? required_stake))
  end.

Definition on_global_dispute (market_id : MarketId) (m : Market) : Store St (list GlobalDisputeItem) :=
  _ ← lift (ensure_dispute_mechanism m);
  court_id ← reads (λ s, MarketIdToCourtId s !! market_id);
  match court_id with
  | Some court_id =>
      court ← get_court court_id;
      r ← ok_or (report m) CT_MarketReportNotFound;
      let gd_outcomes := omap (λ a,
          match into_outcome (appealed_vote_item a) with
          | Some outcome =>
              if bool_decide (outcome = report_outcome r) then None
              else Some (mk_GlobalDisputeItem treasury_account_id outcome 0)
          | None => None
          end) (appeals court) in
      old_draws ← reads (draws_of court_id);
      _ ← unlock_participants_from_last_draw old_draws;
      _ ← remove_draws court_id;
      _ ← remove_court court_id;
      mret gd_outcomes
  | None => mret []
  end.

Definition clear (market_id : MarketId) (m : Market) : Store St unit :=
  _ ← lift (ensure_dispute_mechanism m);
  court_id ← court_id_of market_id;
  old_draws ← reads (draws_of court_id);
  _ ← unlock_participants_from_last_draw old_draws;
  _ ← remove_draws court_id;
  remove_court court_id.
End Court.
