(* ===== verification/CourtSteps.v ===== *)
(** * Court: the calls as one step function

    [dispatch] runs any call of the pallet, its block hook or a call of its dispute
    interface; the lemmas say which parts of the storage an operation leaves alone. *)
From S2P Require Import Prelude BTree Types Errors Currencies MarketCommons Disputes CourtTypes Court.

Inductive Call : Type :=
| Call_join_court (origin : option AccountId) (amount : Balance)
| Call_delegate (origin : option AccountId) (amount : Balance) (delegations : list AccountId)
| Call_prepare_exit_court (origin : option AccountId)
| Call_exit_court (origin : option AccountId) (who : AccountId)
| Call_vote (origin : option AccountId) (court_id : CourtId) (commitment_vote : Hash)
| Call_denounce_vote (origin : option AccountId) (court_id : CourtId) (juror : AccountId)
    (vote_item : VoteItem) (salt : Hash)
| Call_reveal_vote (origin : option AccountId) (court_id : CourtId) (vote_item : VoteItem) (salt : Hash)
| Call_appeal (origin : option AccountId) (court_id : CourtId)
| Call_reassign_court_stakes (origin : option AccountId) (court_id : CourtId)
| Call_set_inflation (governance : bool) (inflation : Perbill)
| Hook_on_initialize
| Api_on_dispute (market_id : MarketId) (m : Market)
| Api_on_resolution (market_id : MarketId) (m : Market)
| Api_exchange (market_id : MarketId) (m : Market) (resolved_outcome : OutcomeReport)
    (overall_imbalance : Balance)
| Api_has_failed (market_id : MarketId) (m : Market)
| Api_on_global_dispute (market_id : MarketId) (m : Market)
| Api_clear (market_id : MarketId) (m : Market).

Section Steps.
Context {C R L Rng : Type} `{MarketCommonsPalletApi C, DisputeResolutionApi R, Currency L,
  !ImbalanceCurrency L, !CourtConfig L Rng}.
Abbreviation St := (State C R L).

Definition forget {A} (f : Store St A) : Store St unit := _ ← f; mret tt.

(** A call in the block [now]. The runtime reaches [on_dispute] only from the
    transactional call [dispute] of the prediction markets. *)
Definition dispatch (now : BlockNumber) (c : Call) : Store St unit :=
  match c with
  | Call_join_court origin amount => join_court now origin amount
  | Call_delegate origin amount delegations => delegate now origin amount delegations
  | Call_prepare_exit_court origin => prepare_exit_court now origin
  | Call_exit_court origin who => exit_court now origin who
  | Call_vote origin court_id commitment_vote => vote now origin court_id commitment_vote
  | Call_denounce_vote origin court_id juror vote_item salt =>
      denounce_vote now origin court_id juror vote_item salt
  | Call_reveal_vote origin court_id vote_item salt => reveal_vote now origin court_id vote_item salt
  | Call_appeal origin court_id => appeal now origin court_id
  | Call_reassign_court_stakes origin court_id => reassign_court_stakes origin court_id
  | Call_set_inflation governance inflation => set_inflation governance inflation
  | Hook_on_initialize => on_initialize now
  | Api_on_dispute market_id m => transactional (on_dispute now market_id m)
  | Api_on_resolution market_id m => forget (on_resolution market_id m)
  | Api_exchange market_id m resolved_outcome overall_imbalance =>
      forget (exchange market_id m resolved_outcome overall_imbalance)
  | Api_has_failed market_id m => forget (has_failed now market_id m)
  | Api_on_global_dispute market_id m => forget (on_global_dispute market_id m)
  | Api_clear market_id m => clear market_id m
  end.
End Steps.

(** ** Operations outside the core *)

(** The pool, the participants, the draws and the locks of the ledger. *)
Section Frames.
Context {C R L Rng : Type} `{MarketCommonsPalletApi C, DisputeResolutionApi R, Currency L,
  !ImbalanceCurrency L, !ImbalanceLaws L, !CourtConfig L Rng, !CourtConfigLaws L Rng}.
Abbreviation St := (State C R L).

Definition same_core (s s' : St) : Prop :=
  CourtPool (storage s') = CourtPool (storage s) ∧
  Participants (storage s') = Participants (storage s) ∧
  SelectedDraws (storage s') = SelectedDraws (storage s) ∧
  same_locks (currency s) (currency s').

(** A relation that does not see changes outside the core. *)
Class Framed (Rel : St → St → Prop) : Prop := {
  framed_preorder :: PreOrder Rel;
  framed_same s s' : same_core s s' → Rel s s';
}.

Context (Rel : St → St → Prop) `{!Framed Rel}.

Lemma framed_reads {A} (f : Storage → A) : respects Rel (reads f).
Proof. intros s. cbn. reflexivity. Qed.
Lemma framed_writes f :
  (∀ s, CourtPool (f s) = CourtPool s) → (∀ s, Participants (f s) = Participants s) →
  (∀ s, SelectedDraws (f s) = SelectedDraws s) → respects Rel (writes f).
Proof. intros Hp Hq Hd s. apply framed_same. by split; [apply Hp|split; [apply Hq|split; [apply Hd|]]]. Qed.
Lemma framed_event e : respects Rel (deposit_event e).
Proof. intros s. by apply framed_same. Qed.
Lemma framed_currency f : (∀ l, same_locks l (f l)) → respects Rel (update_currency f).
Proof. intros Hf s. apply framed_same. repeat split. apply Hf. Qed.
Lemma framed_zoom_currency {A} (m : Store L A) :
  (∀ l, same_locks l (m l).2) → respects Rel (zoom currency set_currency m).
Proof. intros Hm. apply respects_zoom. intros s. apply framed_same. repeat split. apply Hm. Qed.
Lemma framed_infallible {A} (f : L → A * L) :
  (∀ l, same_locks l (f l).2) → respects Rel (zoom currency set_currency (infallible f) : Store St A).
Proof. intros Hf. apply framed_zoom_currency. intros l. specialize (Hf l). unfold infallible. by destruct (f l). Qed.
Lemma framed_zoom_resolution {A} (m : Store R A) : respects Rel (zoom resolution set_resolution m).
Proof. apply respects_zoom. intros s. by apply framed_same. Qed.
Hint Resolve framed_reads framed_event framed_zoom_resolution : respects.
Hint Resolve framed_infallible framed_currency framed_zoom_currency : respects.
Hint Extern 0 (same_locks _ _) => first
  [ apply cur_reserve_named_locks | apply cur_unreserve_named_locks | apply cur_slash_reserved_named_locks
  | apply cur_slash_locks | apply cur_issue_locks | apply cur_burn_locks | apply cur_drop_negative_locks
  | apply cur_drop_positive_locks | apply cur_resolve_into_existing_locks
  | apply cur_resolve_creating_locks ] : respects.
Hint Extern 1 (respects Rel (writes _)) => (apply framed_writes; intros; reflexivity) : respects.

Lemma framed_participant who : respects Rel (participant who).
Proof. unfold participant. respects. Qed.
Lemma framed_get_court c : respects Rel (get_court c).
Proof. unfold get_court. respects. Qed.
Lemma framed_put_court c i : respects Rel (put_court c i).
Proof. unfold put_court. respects. Qed.
Lemma framed_remove_court c : respects Rel (remove_court c).
Proof. unfold remove_court. respects. Qed.
Lemma framed_market_of id : respects Rel (market_of id).
Proof. unfold market_of. respects. Qed.
Lemma framed_court_id_of id : respects Rel (court_id_of id).
Proof. unfold court_id_of. respects. Qed.
Lemma framed_rng now : respects Rel (rng now).
Proof. unfold rng. respects. Qed.
Hint Resolve framed_participant framed_get_court framed_put_court framed_remove_court framed_market_of
  framed_court_id_of framed_rng : respects.

Lemma framed_winner c ds : respects Rel (get_latest_winner_vote_item c ds).
Proof. unfold get_latest_winner_vote_item. respects. Qed.
Lemma framed_section_ends now n max : respects Rel (get_n_random_section_ends now n max).
Proof. unfold get_n_random_section_ends. respects. Qed.
Lemma framed_add_to_selections now sel who lock : respects Rel (add_to_selections now sel who lock).
Proof. unfold add_to_selections, get_valid_delegated_juror. respects. Qed.

(** Slashing and rewarding moves funds only. *)
Lemma slash_all_locks ds total (l : L) : same_locks l (slash_all_delegators ds total l).2.
Proof.
  revert total l. induction ds as [|[d x] ds IH]; intros total l; cbn [slash_all_delegators]; [done|].
  pose proof (cur_slash_locks d x l) as Hl. destruct (cur_slash d x l) as [[imb missing] l1]. cbn in Hl.
  transitivity l1; [done|apply IH].
Qed.
Lemma slash_losers_locks w m : ∀ i t ws (l : L), same_locks l (slash_losers w m i t ws l).2.
Proof.
  induction m as [|[j [[[sl item]|] ds]] m IH]; intros i t ws l; cbn [slash_losers]; [done|..].
  - case_bool_decide; [apply IH|]. pose proof (cur_slash_locks j sl l) as Hl.
    destruct (cur_slash j sl l) as [[imb missing] l1]. cbn in Hl. transitivity l1; [done|].
    pose proof (slash_all_locks ds 0 l1) as Hl1. destruct (slash_all_delegators ds 0 l1) as [imb' l2].
    transitivity l2; [done|apply IH].
  - pose proof (slash_all_locks ds 0 l) as Hl. destruct (slash_all_delegators ds 0 l) as [imb l1].
    transitivity l1; [done|apply IH].
Qed.
Lemma award_locks ws t r i (l : L) : same_locks l (award_winners ws t r i l).2.
Proof.
  revert i l. induction ws as [|[w x] ws IH]; intros i l; cbn [award_winners]; [done|].
  etransitivity; [apply cur_resolve_creating_locks|apply IH].
Qed.
Lemma settle_locks c m w (l : L) : same_locks l (slash_losers_to_award_winners c m w l).
Proof.
  unfold slash_losers_to_award_winners. pose proof (slash_losers_locks w m 0 0 [] l) as H1'.
  destruct (slash_losers w m 0 0 [] l) as [[[i t] ws] l1]. cbn in H1'.
  pose proof (cur_slash_locks (reward_pot c) (cur_free_balance (reward_pot c) l1) l1) as H2'.
  destruct (cur_slash _ _ l1) as [[imb missing] l2]. cbn in H2'.
  pose proof (award_locks ws t (saturating_add u128_max i imb) (saturating_add u128_max i imb) l2) as H3'.
  destruct (award_winners _ _ _ _ l2) as [rest l3]. cbn in H3'.
  do 3 (etransitivity; [eassumption|]). destruct (rest =? 0); [done|apply slash_unbalanced_locks].
Qed.
Lemma slash_juror_locks c x amt (l : L) : same_locks l (slash_juror c x amt l).
Proof.
  unfold slash_juror. pose proof (cur_slash_locks x amt l) as Hl.
  destruct (cur_slash x amt l) as [[imb missing] l1]. etransitivity; [exact Hl|apply cur_resolve_creating_locks].
Qed.
Hint Resolve settle_locks slash_juror_locks : respects.

Lemma framed_handle_vote c d m : respects Rel (handle_vote c d m).
Proof. unfold handle_vote. respects. Qed.
Lemma framed_settle_appeals o l amt : respects Rel (settle_appeals o l amt).
Proof. revert amt. induction l as [|x l IH]; intros amt; cbn [settle_appeals]; respects. Qed.
Lemma framed_mint_shares now pool t i mint : respects Rel (mint_shares now pool t i mint).
Proof. revert mint. induction pool as [|x pool IH]; intros mint; cbn [mint_shares]; respects. Qed.
Hint Resolve framed_handle_vote framed_settle_appeals framed_mint_shares : respects.

Lemma framed_settle c m w : respects Rel (update_currency (slash_losers_to_award_winners c m w)).
Proof. respects. Qed.
Lemma framed_set_inflation g i : respects Rel (set_inflation g i).
Proof. unfold set_inflation. respects. Qed.
Lemma framed_handle_inflation now : respects Rel (handle_inflation now).
Proof. unfold handle_inflation. respects. Qed.
Hint Resolve framed_handle_inflation : respects.
Lemma framed_on_initialize now : respects Rel (on_initialize now).
Proof. unfold on_initialize. respects. Qed.
Lemma framed_exchange id m o amt : respects Rel (exchange id m o amt).
Proof. unfold exchange. respects. Qed.
Lemma framed_has_failed now id m : respects Rel (has_failed now id m).
Proof. unfold has_failed. respects. Qed.
Lemma framed_check_outcome c v : respects Rel (check_outcome c v).
Proof. unfold check_outcome. respects. Qed.
Lemma check_outcome_state c v (s s' : St) u : check_outcome c v s = (Ok u, s') → s' = s.
Proof.
  unfold check_outcome, market_of, reads. rewrite gets_bind.
  destruct (CourtIdToMarketId (storage s) !! c); intros Hrun; run_inv Hrun; congruence.
Qed.
End Frames.

(** Inversion of a successful vote. *)
Ltac run_vote Hrun :=
  unfold get_court, put_draws, participant, deposit_event, reads, writes in Hrun; run_inv Hrun;
  repeat match goal with Hc : check_outcome _ _ _ = (Ok _, _) |- _ => apply check_outcome_state in Hc; subst end.

(** Applies the lemma above for an operation outside the core. *)
Ltac framed_step := first
  [ apply framed_reads | apply framed_event | apply framed_zoom_resolution | apply framed_participant
  | apply framed_get_court | apply framed_put_court | apply framed_remove_court | apply framed_market_of
  | apply framed_court_id_of | apply framed_rng | apply framed_winner | apply framed_section_ends
  | apply framed_add_to_selections | apply framed_handle_vote | apply framed_settle | apply framed_set_inflation
  | apply framed_on_initialize | apply framed_exchange | apply framed_has_failed | apply framed_check_outcome
  | apply framed_zoom_currency; try typeclasses eauto; intros; apply cur_reserve_named_locks ]; typeclasses eauto.
#[export] Hint Extern 1 (respects _ _) => framed_step : respects.
#[export] Hint Extern 2 (respects _ (writes _)) =>
  (apply framed_writes; try typeclasses eauto; intros; reflexivity) : respects.
