(* ===== verification/CourtDraws.v ===== *)
(** * Court: the random draw

    The draw picks distinct sections of [MinJurorStake] of the unconsumed stake, each
    with the same probability: the shuffle yields as many distinct section ends as asked
    for, each of them hits a participant with that much stake left, and the weights and
    slashable amounts of the draws count the sections. *)
From S2P Require Import Prelude BTree Types Errors Currencies MarketCommons Disputes CourtTypes Court CourtSteps.

(** ** The shuffle *)

(** The permutation that the map of swaps stands for. *)
Definition swapped (swaps : gmap Z Z) (x : Z) : Z := default x (swaps !! x).

Lemma swapped_insert swaps i r x :
  swapped (<[r := swapped swaps i]> (<[i := swapped swaps r]> swaps)) x =
    if decide (x = r) then swapped swaps i else if decide (x = i) then swapped swaps r else swapped swaps x.
Proof.
  unfold swapped at 1. destruct (decide (x = r)) as [->|Hr]; [by rewrite lookup_insert_eq|].
  rewrite lookup_insert_ne by done. destruct (decide (x = i)) as [->|Hi]; [by rewrite lookup_insert_eq|].
  by rewrite lookup_insert_ne.
Qed.

(** Injective on the numbers below [len], and onto numbers below [len]. *)
Definition permutes (len : Z) (p : Z → Z) : Prop :=
  (∀ x, 0 ≤ x < len → 0 ≤ p x < len) ∧
  (∀ x y, 0 ≤ x < len → 0 ≤ y < len → p x = p y → x = y).

Lemma permutes_swap len swaps i r :
  permutes len (swapped swaps) → 0 ≤ i < len → 0 ≤ r < len →
  permutes len (swapped (<[r := swapped swaps i]> (<[i := swapped swaps r]> swaps))).
Proof.
  intros [Hr Hinj] Hi Hr'. split.
  - intros x Hx. rewrite swapped_insert. repeat case_decide; by apply Hr.
  - intros x y Hx Hy. rewrite !swapped_insert.
    repeat case_decide; subst; intros Heq; try done; apply Hinj in Heq; try done; congruence.
Qed.

Section Shuffle.
Context {C R L Rng : Type} `{MarketCommonsPalletApi C, DisputeResolutionApi R, Currency L,
  !ImbalanceCurrency L, !CourtConfig L Rng, !CourtConfigLaws L Rng}.
Implicit Types g : Rng.

(** The ends chosen in the rounds below [i]. *)
Definition chosen_ends (len : Z) (swaps : gmap Z Z) (i : Z) (ends : list Z) : Prop :=
  bs_sorted Z.compare ends ∧ Z.of_nat (length ends) = i ∧
  ∀ e, e ∈ ends ↔ ∃ j, 0 ≤ j < i ∧ e = (swapped swaps j + 1) * MinJurorStake.

Lemma section_ends_loop_ok len k : ∀ i g swaps ends,
  0 ≤ i → i + Z.of_nat k ≤ len → len * MinJurorStake ≤ u128_max → permutes len (swapped swaps) →
  chosen_ends len swaps i ends →
  ∃ swaps' ends', section_ends_loop len k i g swaps ends = Ok ends' ∧
    permutes len (swapped swaps') ∧ chosen_ends len swaps' (i + Z.of_nat k) ends'.
Proof.
  pose proof min_juror_stake_range as Hmin.
  induction k as [|k IH]; intros i g swaps ends Hi Hk Hlen Hp (Hs & Hl & He); cbn [section_ends_loop].
  { exists swaps, ends. rewrite Z.add_0_r. done. }
  destruct (Z.ltb_spec i len) as [Hil|]; [|lia].
  destruct (gen_range i len g) as [r g'] eqn:Hg.
  pose proof (gen_range_spec i len g ltac:(lia)) as Hr. rewrite Hg in Hr. cbn in Hr.
  change (default i (swaps !! i)) with (swapped swaps i).
  change (default r (swaps !! r)) with (swapped swaps r).
  set (swaps' := <[r:=_]> _). pose proof (permutes_swap len swaps i r Hp ltac:(lia) ltac:(lia)) as Hp'.
  destruct Hp as [Hrange Hinj]. pose proof (Hrange r ltac:(lia)) as Hq.
  assert (saturating_mul u128_max (saturating_add u128_max (swapped swaps r) 1) MinJurorStake =
    (swapped swaps r + 1) * MinJurorStake) as ->.
  { unfold saturating_mul, saturating_add. nia. }
  assert (∀ j, 0 ≤ j < i → swapped swaps' j = swapped swaps j) as Hold.
  { intros j Hj. subst swaps'. rewrite swapped_insert, !decide_False by lia. done. }
  assert (swapped swaps' i = swapped swaps r) as Hnew.
  { subst swaps'. rewrite swapped_insert. case_decide; [congruence|]. by rewrite decide_True. }
  edestruct (IH (i + 1) g' swaps') as (s' & e' & Hrun & Hp2 & Hc2); [lia..|done| |].
  2:{ exists s', e'. rewrite Hrun. split; [done|split; [done|]].
      by replace (i + Z.of_nat (S k)) with (i + 1 + Z.of_nat k) by lia. }
  split; [by apply (bs_insert_sorted Z.compare)|]. split.
  - rewrite (bs_insert_length Z.compare); [lia|]. rewrite He. intros (j & Hj & Heq).
    apply Z.mul_reg_r in Heq; [|lia]. assert (r = j); [|lia]. apply Hinj; lia.
  - intros e. rewrite (bs_insert_elem Z.compare), He. split.
    + intros [->|(j & Hj & ->)]; [exists i; rewrite Hnew; split; [lia|done]|].
      exists j. rewrite Hold by lia. split; [lia|done].
    + intros (j & Hj & ->). destruct (decide (j = i)) as [->|]; [left; by rewrite Hnew|].
      right. exists j. rewrite Hold by lia. split; [lia|done].
Qed.

(** A list of distinct section ends in increasing order. *)
Definition sections (max : Z) (ends : list Z) : Prop :=
  bs_sorted Z.compare ends ∧
  ∀ e, e ∈ ends → MinJurorStake ≤ e ≤ max ∧ (MinJurorStake | e).

Lemma section_ends_ok n max g :
  0 ≤ max ≤ u128_max → Z.of_nat n * MinJurorStake ≤ max →
  ∃ ends, section_ends_loop (max / MinJurorStake) n 0 g ∅ [] = Ok ends ∧
    length ends = n ∧ sections max ends.
Proof.
  pose proof min_juror_stake_range as Hmin. intros Hmax Hn.
  assert (MinJurorStake * (max / MinJurorStake) ≤ max) by (apply Z.mul_div_le; lia).
  assert (Z.of_nat n ≤ max / MinJurorStake) by (apply Z.div_le_lower_bound; lia).
  destruct (section_ends_loop_ok (max / MinJurorStake) n 0 g ∅ []) as (sw & ends & Hrun & [Hr _] & Hs & Hl & He);
    [lia..| | |].
  - split; [done|]. intros x y _ _. done.
  - split; [constructor|]. split; [done|]. intros e. rewrite elem_of_nil. split; [done|]. intros (j & ? & _). lia.
  - exists ends. split; [done|]. split; [lia|]. split; [done|]. intros e (j & Hj & ->)%He.
    specialize (Hr j ltac:(lia)). split; [nia|]. by apply Z.divide_factor_r.
Qed.

(** The state with the next nonce. *)
Definition bump_nonce (s : State C R L) : State C R L :=
  set_storage (set_SelectionNonce ((SelectionNonce (storage s) + 1) mod 2 ^ 64) (storage s)) s.

Lemma section_ends_run now n max (s : State C R L) :
  0 ≤ max ≤ u128_max → Z.of_nat n * MinJurorStake ≤ max →
  ∃ ends, get_n_random_section_ends now n max s = (Ok ends, bump_nonce s) ∧
    length ends = n ∧ sections max ends.
Proof.
  intros Hmax Hn. pose proof min_juror_stake_range as Hmin.
  destruct (section_ends_ok n max (rng_of now (SelectionNonce (storage s)))) as (ends & He & Hl & Hs);
    [done..|].
  exists ends. split; [|done]. rewrite <- He. unfold get_n_random_section_ends.
  destruct (Z.eqb_spec MinJurorStake 0); [lia|]. reflexivity.
Qed.

(** Asked for [n] sections of the stake [max], the shuffle does not panic and returns
    exactly [n] distinct section ends, each a multiple of [MinJurorStake] within the
    stake. *)
Theorem get_n_random_section_ends_distinct now n max (s s' : State C R L) r
    (Hmax : 0 ≤ max ≤ u128_max) (Hn : Z.of_nat n * MinJurorStake ≤ max)
    (Hrun : get_n_random_section_ends now n max s = (r, s')) :
  ∃ ends, r = Ok ends ∧ length ends = n ∧ NoDup ends ∧
    ∀ e, e ∈ ends → MinJurorStake ≤ e ≤ max ∧ (MinJurorStake | e).
Proof.
  destruct (section_ends_run now n max s Hmax Hn) as (ends & He & Hl & Hs & Hr).
  rewrite He in Hrun. injection Hrun as <- <-. exists ends. split; [done|]. split; [done|]. split; [|done].
  clear -Hs. induction Hs as [|e ends Hs IH Hf]; constructor; [|done].
  rewrite Forall_forall in Hf. intros Hin. specialize (Hf e Hin). by rewrite Z.compare_refl in Hf.
Qed.
End Shuffle.

(** ** Selections *)

Definition sel_weight (selections : Selections) : Z := zsum (λ x, sv_weight x.2) selections.
Definition sel_slashable (selections : Selections) : Z := zsum (λ x, sv_slashable x.2) selections.
Definition sel_ok (selections : Selections) : Prop :=
  bt_sorted Z.compare selections ∧
  ∀ x, x ∈ selections → 0 ≤ sv_weight x.2 ∧ 0 ≤ sv_slashable x.2.
Definition add_weight (a : SelectionAdd) : Z :=
  match a with DelegationStake _ _ => 0 | _ => 1 end.
Definition add_lock (a : SelectionAdd) : Z :=
  match a with SelfStake lock => lock | DelegationStake _ lock => lock | DelegationWeight => 0 end.

Lemma sel_weight_nonneg selections : sel_ok selections → 0 ≤ sel_weight selections.
Proof. intros [_ Hnn]. apply zsum_nonneg. intros x Hx. apply Hnn, Hx. Qed.

Lemma add_delegated_juror_total mx stakes j amt : ∃ stakes', add_delegated_juror mx stakes j amt = Ok stakes'.
Proof.
  unfold add_delegated_juror. destruct (search_key fst j stakes) as [i|i] eqn:Hr; [|eauto].
  apply search_key_ok in Hr as (x & -> & _). cbn. eauto.
Qed.

(** An update adds its weight and its lock, as long as the counters do not saturate. *)
Lemma update_selections_ok mx selections who a selections' :
  sel_ok selections → 0 ≤ add_lock a → update_selections mx selections who a = Ok selections' →
  sel_ok selections' ∧
  (sel_weight selections + add_weight a ≤ u32_max →
   sel_slashable selections + add_lock a ≤ u128_max →
   sel_weight selections' = sel_weight selections + add_weight a ∧
   sel_slashable selections' = sel_slashable selections + add_lock a).
Proof.
  intros [Hs Hnn] Ha Hu.
  assert (∃ v, selections' = bt_insert Z.compare who v selections ∧
    let v0 := default (mk_SelectionValue 0 0 []) (bt_get Z.compare who selections) in
    0 ≤ sv_weight v ∧ 0 ≤ sv_slashable v ∧ 0 ≤ sv_weight v0 ≤ sel_weight selections ∧
    0 ≤ sv_slashable v0 ≤ sel_slashable selections ∧
    (sv_weight v0 + add_weight a ≤ u32_max → sv_weight v = sv_weight v0 + add_weight a) ∧
    (sv_slashable v0 + add_lock a ≤ u128_max → sv_slashable v = sv_slashable v0 + add_lock a))
    as (v & -> & Hv0).
  { assert (let v0 := default (mk_SelectionValue 0 0 []) (bt_get Z.compare who selections) in
      0 ≤ sv_weight v0 ≤ sel_weight selections ∧ 0 ≤ sv_slashable v0 ≤ sel_slashable selections) as Hold.
    { destruct (bt_get Z.compare who selections) as [v0|] eqn:Hg; cbn.
      - apply (bt_get_in Z.compare) in Hg. pose proof (Hnn _ Hg). cbn in *.
        pose proof (zsum_elem_le (λ x, sv_weight x.2) selections (who, v0)) as Hw.
        pose proof (zsum_elem_le (λ x, sv_slashable x.2) selections (who, v0)) as Hl. cbn in Hw, Hl.
        unfold sel_weight, sel_slashable. split; (split; [lia|]); [apply Hw|apply Hl]; try done; apply Hnn.
      - pose proof (zsum_nonneg (λ x, sv_weight x.2) selections).
        pose proof (zsum_nonneg (λ x, sv_slashable x.2) selections).
        unfold sel_weight, sel_slashable. naive_solver. }
    unfold update_selections in Hu. destruct (bt_get Z.compare who selections) as [[w l ds]|];
      cbn in Hold; destruct a as [lock|j lock|]; run_inv Hu; intros <-; eexists; (split; [reflexivity|]); cbn in *;
      unfold saturating_add, u32_max, u128_max in *; lia. }
  cbv zeta in Hv0. destruct Hv0 as (Hv & Hv' & Hw0 & Hl0 & Hw & Hl). split.
  - split; [by apply (bt_insert_sorted Z.compare)|].
    intros x [->|Hx]%(bt_insert_keys Z.compare); [done|auto].
  - intros Hsw Hsl. unfold sel_weight, sel_slashable in *. rewrite !(bt_insert_sum Z.compare) by done. cbn.
    rewrite Hw, Hl by lia. destruct (bt_get Z.compare who selections); cbn in *; lia.
Qed.

Lemma update_selections_total mx selections who a : ∃ selections', update_selections mx selections who a = Ok selections'.
Proof.
  unfold update_selections.
  destruct (bt_get Z.compare who selections) as [[w l ds]|]; destruct a as [lock|j lock|]; try (eexists; reflexivity).
  destruct (add_delegated_juror_total mx ds j lock) as [? ->]. eexists. reflexivity.
Qed.

(** ** Sections and participants *)
Section Sections.
Context {C R L Rng : Type} `{MarketCommonsPalletApi C, DisputeResolutionApi R, Currency L,
  !ImbalanceCurrency L, !CourtConfig L Rng, !CourtConfigLaws L Rng}.
Implicit Types pool : list CourtPoolItem.
Abbreviation St := (State C R L).

Lemma unconsumed_range i :
  0 ≤ unconsumed_sections i ≤ Z.max 0 (pi_stake i - consumed_stake i) ∧ (MinJurorStake | unconsumed_sections i).
Proof.
  pose proof min_juror_stake_range as Hmin. unfold unconsumed_sections, saturating_sub.
  set (u := Z.max 0 (pi_stake i - consumed_stake i)).
  assert (0 ≤ u) by lia. assert (0 ≤ u mod MinJurorStake < MinJurorStake) by (apply Z.mod_pos_bound; lia).
  assert (u = MinJurorStake * (u / MinJurorStake) + u mod MinJurorStake) by (apply Z.div_mod; lia).
  assert (0 ≤ u / MinJurorStake) by (apply Z.div_pos; lia). split; [nia|].
  exists (u / MinJurorStake). lia.
Qed.

(** Where the sections of the item at [i] begin. *)
Definition before pool (i : nat) : Z := zsum unconsumed_sections (take i pool).

Lemma before_0 pool : before pool 0 = 0.
Proof. unfold before. by rewrite take_0. Qed.
Lemma before_S pool i x : pool !! i = Some x → before pool (S i) = before pool i + unconsumed_sections x.
Proof. intros Hx. unfold before. rewrite (take_S_r _ _ _ Hx), zsum_app, zsum_cons. cbn. lia. Qed.
Lemma before_mono pool i j : (i ≤ j)%nat → before pool i ≤ before pool j.
Proof.
  intros Hij. unfold before. rewrite <- (take_drop i (take j pool)), take_take, zsum_app.
  replace (i `min` j)%nat with i by lia.
  pose proof (zsum_nonneg unconsumed_sections (drop i (take j pool))
    (λ x _, proj1 (proj1 (unconsumed_range x)))). lia.
Qed.
Lemma before_all pool : before pool (length pool) = zsum unconsumed_sections pool.
Proof. unfold before. by rewrite take_ge by lia. Qed.
Lemma before_divide pool i : (MinJurorStake | before pool i).
Proof.
  unfold before. generalize (take i pool) as l. induction l as [|x l IH]; [by exists 0|].
  rewrite zsum_cons. apply Z.divide_add_r; [apply unconsumed_range|done].
Qed.

Lemma cumulative_ends_lookup pool t i :
  0 ≤ t → t + zsum unconsumed_sections pool ≤ u128_max →
  cumulative_ends pool t !! i =
    (λ x, (t + before pool (S i), unconsumed_sections x =? 0)) <$> pool !! i.
Proof.
  revert t i. induction pool as [|x pool IH]; intros t i Ht Hs; [done|]. cbn [cumulative_ends].
  rewrite zsum_cons in Hs. pose proof (unconsumed_range x) as [Hx _].
  assert (0 ≤ zsum unconsumed_sections pool) by (apply zsum_nonneg; intros; apply unconsumed_range).
  assert (saturating_add u128_max t (unconsumed_sections x) = t + unconsumed_sections x) as ->
    by (unfold saturating_add; lia).
  destruct i as [|i]; cbn [lookup list_lookup].
  - unfold before. rewrite firstn_cons, take_0, zsum_cons. cbn. do 2 f_equal. lia.
  - rewrite IH by lia. destruct (pool !! i); [|done]. unfold before. rewrite (firstn_cons (S i)), zsum_cons. cbn [fmap option_fmap option_map].
    do 2 f_equal. lia.
Qed.

Lemma cumulative_ends_length pool t : length (cumulative_ends pool t) = length pool.
Proof. revert t. induction pool as [|x pool IH]; intros t; cbn [cumulative_ends length]; [done|by rewrite IH]. Qed.

(** The search of the code finds the item that owns the section. *)
Lemma section_index pool e :
  zsum unconsumed_sections pool ≤ u128_max → 0 < e ≤ zsum unconsumed_sections pool →
  ∃ i x, match binary_search_by (λ x, pair_compare Z.compare bool_compare x (e, false)) (cumulative_ends pool 0)
         with Ok i => i | Err i => i end = i ∧
    pool !! i = Some x ∧ before pool i < e ≤ before pool i + unconsumed_sections x.
Proof.
  intros Hu He. set (cmp := λ x, pair_compare Z.compare bool_compare x (e, false)).
  assert (∀ i, cumulative_ends pool 0 !! i = (λ x, (before pool (S i), unconsumed_sections x =? 0)) <$> pool !! i)
    as Hl by (intros; by rewrite cumulative_ends_lookup by lia).
  assert (∀ i x, pool !! i = Some x → cmp (before pool (S i), unconsumed_sections x =? 0) = Lt ↔ before pool (S i) < e) as Hlt.
  { intros i x Hx. unfold cmp, pair_compare. cbn. destruct (Z.compare_spec (before pool (S i)) e) as [Hc|Hc|Hc];
      [destruct (_ =? 0); cbn; split; done || lia|split; done|split; done || lia]. }
  assert (∀ i x, pool !! i = Some x → cmp (before pool (S i), unconsumed_sections x =? 0) = Gt →
    e ≤ before pool (S i) ∧ (before pool (S i) = e → before pool i = e)) as Hgt.
  { intros i x Hx. rewrite (before_S _ _ _ Hx). unfold cmp, pair_compare. cbn.
    destruct (Z.compare_spec (before pool i + unconsumed_sections x) e) as [Hc|Hc|Hc]; try done; [|lia].
    destruct (Z.eqb_spec (unconsumed_sections x) 0); [lia|done]. }
  assert (cmp_sorted cmp (cumulative_ends pool 0)) as Hsorted.
  { intros i j y z Hij. rewrite !Hl. destruct (pool !! i) as [x|] eqn:Hx; [|done].
    destruct (pool !! j) as [x'|] eqn:Hx'; [|done]. intros [= <-] [= <-] Hne.
    rewrite (Hlt i x Hx) in Hne. pose proof (before_mono pool (S i) (S j) ltac:(lia)).
    pose proof (before_mono pool (S i) j ltac:(lia)) as Hm. unfold cmp, pair_compare. cbn.
    rewrite (before_S _ _ _ Hx') in *. pose proof (unconsumed_range x') as [? _].
    destruct (Z.compare_spec (before pool j + unconsumed_sections x') e); [|lia|done].
    destruct (Z.eqb_spec (unconsumed_sections x') 0); [done|lia]. }
  destruct (binary_search_by cmp (cumulative_ends pool 0)) as [i|i] eqn:Hr.
  - apply binary_search_ok in Hr as (y & Hy & Hc). rewrite Hl in Hy.
    destruct (pool !! i) as [x|] eqn:Hx; [|done]. injection Hy as <-. exists i, x. split; [done|]. split; [done|].
    unfold cmp, pair_compare in Hc. cbn in Hc. rewrite (before_S _ _ _ Hx) in Hc.
    destruct (Z.compare_spec (before pool i + unconsumed_sections x) e) as [He'|He'|He']; try done.
    destruct (Z.eqb_spec (unconsumed_sections x) 0); [done|]. pose proof (unconsumed_range x). lia.
  - apply binary_search_err in Hr as (Hi & Hbelow & Habove); [|done].
    assert (before pool i < e) as Hb.
    { destruct i as [|i]; [rewrite before_0; lia|].
      destruct (pool !! i) as [x|] eqn:Hx.
      - apply (Hlt i x Hx). apply (Hbelow i); [by rewrite Hl, Hx|lia].
      - apply lookup_ge_None in Hx. rewrite cumulative_ends_length in Hi. lia. }
    destruct (pool !! i) as [x|] eqn:Hx.
    + exists i, x. split; [done|]. split; [done|]. split; [done|].
      destruct (Hgt i x Hx) as [Hle _]; [|by rewrite <- (before_S _ _ _ Hx)].
      apply (Habove i); [by rewrite Hl, Hx|lia].
    + apply lookup_ge_None in Hx. unfold before in Hb. rewrite take_ge in Hb by lia. lia.
Qed.

(** ** The loop over the section ends *)

Lemma get_pool_item_total pool stake who : ∃ o, get_pool_item pool stake who = Ok o.
Proof.
  unfold get_pool_item. destruct (pool_search pool stake who) as [i|i] eqn:Hr; [|by eexists].
  apply binary_search_ok in Hr as (x & -> & _). by eexists.
Qed.
Lemma valid_delegated_jurors_total s ds : ∃ l, valid_delegated_jurors s ds = Ok l.
Proof.
  induction ds as [|d ds [l IH]]; cbn [valid_delegated_jurors]; [by eexists|]. rewrite IH.
  destruct (Participants s !! d) as [p|]; [|by eexists]. case_bool_decide; [by eexists|].
  destruct (get_pool_item_total (CourtPool s) (cp_stake p) d) as [o ->]. by eexists.
Qed.

Definition delegations_of (s : Storage) (who : AccountId) : option (list AccountId) :=
  Participants s !! who ≫= delegations.

Lemma get_valid_delegated_juror_run now ds (s : St) :
  ∃ o, get_valid_delegated_juror now ds s = (Ok (Ok o), bump_nonce s).
Proof.
  destruct (valid_delegated_jurors_total (storage (bump_nonce s)) ds) as [l Hl].
  exists (l !! choose_index (length l) (rng_of now (SelectionNonce (storage s)))).
  transitivity (Ok (E := DispatchError) (l' ← valid_delegated_jurors (storage (bump_nonce s)) ds;
    mret (l' !! choose_index (length l') (rng_of now (SelectionNonce (storage s))))), bump_nonce s).
  { reflexivity. }
  by rewrite Hl.
Qed.

(** A selected section counts once, unless it belongs to a delegator without a valid
    delegated juror. *)
Lemma add_to_selections_ok now selections who lock (s : St) :
  sel_ok selections → 0 ≤ lock → sel_weight selections + 1 ≤ u32_max →
  sel_slashable selections + lock ≤ u128_max →
  ∃ r s', add_to_selections now selections who lock s = (Ok r, s') ∧ (s' = s ∨ s' = bump_nonce s) ∧
    ((∃ selections', r = Ok selections' ∧ sel_ok selections' ∧
        sel_weight selections' = sel_weight selections + 1 ∧
        sel_slashable selections' = sel_slashable selections + lock) ∨
     (r = Err NoValidDelegatedJuror ∧ delegations_of (storage s) who ≠ None)).
Proof.
  intros Hs Hl Hw Hsl. unfold add_to_selections, participant, reads. rewrite gets_bind.
  fold (delegations_of (storage s) who). destruct (delegations_of (storage s) who) as [ds|] eqn:Hd.
  - destruct (get_valid_delegated_juror_run now ds s) as [o Ho]. rewrite (bind_ok _ _ _ _ _ Ho).
    do 2 eexists. split; [reflexivity|]. split; [by right|].
    destruct o as [j|]; [|by right]. left. cbn [mbind result_bind Prelude.ok_orR].
    destruct (update_selections_total MaxDelegations selections j DelegationWeight) as [sel1 Hu1].
    destruct (update_selections_total MaxDelegations sel1 who (DelegationStake j lock)) as [sel2 Hu2].
    apply update_selections_ok in Hu1 as Hok1; [|done..]. destruct Hok1 as [Hs1 Hv1].
    apply update_selections_ok in Hu2 as Hok2; [|done..]. destruct Hok2 as [Hs2 Hv2]. cbn in Hv1, Hv2.
    rewrite Hu1. cbn. rewrite Hu2. cbn. exists sel2. split; [done|]. split; [done|]. lia.
  - do 2 eexists. split; [reflexivity|]. split; [by left|]. left.
    destruct (update_selections_total MaxDelegations selections who (SelfStake lock)) as [sel1 Hu1].
    apply update_selections_ok in Hu1 as Hok1; [|done..]. destruct Hok1 as [Hs1 Hv1]. cbn in Hv1.
    rewrite Hu1. cbn. exists sel1. split; [done|]. split; [done|]. lia.
Qed.

(** The state after the lock of a drawn participant was raised. *)
Lemma add_active_lock_run who lock (s : St) :
  ∃ s', add_active_lock who lock s = (Ok tt, s') ∧ ∀ x, delegations_of (storage s') x = delegations_of (storage s) x.
Proof.
  unfold add_active_lock, participant, reads. rewrite gets_bind.
  destruct (Participants (storage s) !! who) as [p|] eqn:Hp; [|by exists s].
  eexists. split; [reflexivity|]. intros x. unfold delegations_of. cbn.
  destruct (decide (who = x)) as [<-|]; [by rewrite lookup_insert_eq, Hp|by rewrite lookup_insert_ne].
Qed.

(** The pool after the sections up to [e] were drawn: only consumed stake changes, by at
    most the sections of an item up to [e]. *)
Definition advanced (e : Z) pool0 pool : Prop :=
  length pool = length pool0 ∧
  ∀ i x0 x, pool0 !! i = Some x0 → pool !! i = Some x →
    x = set_consumed_stake (consumed_stake x) x0 ∧
    0 ≤ consumed_stake x - consumed_stake x0 ≤ Z.max 0 (Z.min (unconsumed_sections x0) (e - before pool0 i)).

Definition items_ok pool : Prop := ∀ x, x ∈ pool → 0 ≤ consumed_stake x ≤ pi_stake x ∧ pi_stake x ≤ u128_max.

Lemma advanced_refl pool0 : advanced 0 pool0 pool0.
Proof.
  split; [done|]. intros i x0 x Hx0 Hx. rewrite Hx0 in Hx. injection Hx as <-. split; [by destruct x0|lia].
Qed.

Lemma multiple_gap a b : (MinJurorStake | a) → (MinJurorStake | b) → a < b → a + MinJurorStake ≤ b.
Proof. pose proof min_juror_stake_range as Hmin. intros [x ->] [y ->] Hlt. apply Z.mul_lt_mono_pos_r in Hlt; nia. Qed.

Lemma advanced_step e0 e pool0 pool i x0 x :
  items_ok pool0 → advanced e0 pool0 pool → pool0 !! i = Some x0 → pool !! i = Some x →
  (MinJurorStake | e0) → (MinJurorStake | e) → e0 < e →
  before pool0 i < e ≤ before pool0 i + unconsumed_sections x0 →
  Z.min (saturating_sub (pi_stake x) (consumed_stake x)) MinJurorStake = MinJurorStake ∧
  advanced e pool0 (<[i := set_consumed_stake (saturating_add u128_max (consumed_stake x) MinJurorStake) x]> pool).
Proof.
  intros Hok [Hlen Hadv] Hx0 Hx He0 He Hlt Hin. pose proof min_juror_stake_range as Hmin.
  destruct (Hadv i x0 x Hx0 Hx) as [Heq Hc]. pose proof (unconsumed_range x0) as [Hu _].
  destruct (Hok x0 (list_elem_of_lookup_2 _ _ _ Hx0)) as [Hc0 Hs0].
  pose proof (multiple_gap e0 e He0 He Hlt). pose proof (multiple_gap _ e (before_divide pool0 i) He (proj1 Hin)).
  assert (pi_stake x = pi_stake x0) as Hst by (rewrite Heq; done).
  split; [unfold saturating_sub; lia|]. split; [by rewrite length_insert|].
  intros j y0 y Hy0 Hy. destruct (decide (i = j)) as [<-|Hne].
  - rewrite list_lookup_insert_eq in Hy by (by eapply lookup_lt_Some). rewrite Hx0 in Hy0. simplify_eq.
    split; [by rewrite Heq|]. cbn [consumed_stake set_consumed_stake]. unfold saturating_add. lia.
  - rewrite list_lookup_insert_ne in Hy by done. destruct (Hadv j y0 y Hy0 Hy) as [Heqy Hcy]. split; [done|lia].
Qed.

(** One section end. *)
Lemma select_section_end_ok now pool0 e0 e pool selections inv (s : St) :
  items_ok pool0 → zsum unconsumed_sections pool0 ≤ u128_max → advanced e0 pool0 pool →
  (MinJurorStake | e0) → (MinJurorStake | e) → 0 ≤ e0 → e0 < e ≤ zsum unconsumed_sections pool0 →
  sel_ok selections → sel_weight selections + 1 ≤ u32_max →
  sel_slashable selections + MinJurorStake ≤ u128_max →
  ∃ pool' selections' inv' s',
    select_section_end now (cumulative_ends pool0 0) e (pool, selections, inv) s =
      (Ok (pool', selections', inv'), s') ∧
    advanced e pool0 pool' ∧ sel_ok selections' ∧
    (∀ x, delegations_of (storage s') x = delegations_of (storage s) x) ∧
    ((inv' = inv ∧ sel_weight selections' = sel_weight selections + 1 ∧
        sel_slashable selections' = sel_slashable selections + MinJurorStake) ∨
     (length inv' = S (length inv) ∧ selections' = selections ∧
        ∃ x, x ∈ pool0 ∧ delegations_of (storage s) (pi_participant x) ≠ None)).
Proof.
  intros Hok Hsum Hadv He0 He Hnn Hlt Hs Hw Hsl. pose proof min_juror_stake_range as Hmin.
  destruct (section_index pool0 e) as (i & x0 & Hi & Hx0 & Hin); [done|lia|].
  assert (is_Some (pool !! i)) as [x Hx].
  { apply lookup_lt_is_Some. destruct Hadv as [-> _]. by eapply lookup_lt_Some. }
  destruct (advanced_step e0 e pool0 pool i x0 x) as [Hlock Hadv']; [done..|lia|done|].
  assert (pi_participant x = pi_participant x0) as Hpart.
  { destruct Hadv as [_ Hadv]. destruct (Hadv i x0 x Hx0 Hx) as [Heq _]. by rewrite Heq. }
  unfold select_section_end. rewrite Hi, Hx, Hlock.
  destruct (add_to_selections_ok now selections (pi_participant x) MinJurorStake s)
    as (r & s1 & Hr & Hs1 & Hcases); [done|lia|done..|].
  rewrite (bind_ok _ _ _ _ _ Hr).
  destruct (add_active_lock_run (pi_participant x) MinJurorStake s1) as (s2 & Hs2 & Hdel).
  assert (∀ y, delegations_of (storage s2) y = delegations_of (storage s) y) as Hdel'.
  { intros y. rewrite Hdel. by destruct Hs1 as [->| ->]. }
  destruct Hcases as [(sel' & -> & Hsel' & Hw' & Hsl')|[-> Hd]]; rewrite ret_bind, (bind_ok _ _ _ _ _ Hs2).
  - do 4 eexists. split; [reflexivity|]. split; [done|]. split; [done|]. split; [done|]. by left.
  - do 4 eexists. split; [reflexivity|]. split; [done|]. split; [done|]. split; [done|]. right. cbn [fst snd].
    split; [rewrite length_app; cbn; lia|]. split; [done|]. exists x0. rewrite <- Hpart.
    split; [by eapply list_elem_of_lookup_2|done].
Qed.

Lemma select_section_ends_ok now pool0 ends : ∀ e0 pool selections inv (s : St),
  items_ok pool0 → zsum unconsumed_sections pool0 ≤ u128_max → advanced e0 pool0 pool →
  (MinJurorStake | e0) → 0 ≤ e0 → bs_sorted Z.compare ends →
  (∀ e, e ∈ ends → e0 < e ≤ zsum unconsumed_sections pool0 ∧ (MinJurorStake | e)) →
  sel_ok selections → sel_weight selections + Z.of_nat (length ends) ≤ u32_max →
  sel_slashable selections + Z.of_nat (length ends) * MinJurorStake ≤ u128_max →
  ∃ pool' selections' inv' s',
    select_section_ends now (cumulative_ends pool0 0) ends (pool, selections, inv) s =
      (Ok (pool', selections', inv'), s') ∧
    (∃ e, advanced e pool0 pool') ∧ sel_ok selections' ∧
    sel_slashable selections' - sel_slashable selections =
      MinJurorStake * (sel_weight selections' - sel_weight selections) ∧
    sel_weight selections' + Z.of_nat (length inv') =
      sel_weight selections + Z.of_nat (length inv) + Z.of_nat (length ends) ∧
    ((∀ x, x ∈ pool0 → delegations_of (storage s) (pi_participant x) = None) → inv' = inv).
Proof.
  pose proof min_juror_stake_range as Hmin.
  induction ends as [|e ends IH]; intros e0 pool selections inv s Hok Hsum Hadv He0 Hnn Hsorted Hends Hs Hw Hsl;
    cbn [select_section_ends].
  { exists pool, selections, inv, s. split; [done|]. split; [by exists e0|]. split; [done|].
    split; [lia|]. split; [cbn; lia|done]. }
  apply StronglySorted_cons in Hsorted as [Hf Hsorted]. rewrite Forall_forall in Hf.
  destruct (Hends e ltac:(by left)) as [Hlt He]. cbn [length] in *.
  destruct (select_section_end_ok now pool0 e0 e pool selections inv s)
    as (pool1 & sel1 & inv1 & s1 & Hrun & Hadv1 & Hs1 & Hdel & Hcases); [done..|lia|nia|].
  rewrite (bind_ok _ _ _ _ _ Hrun).
  assert (sel_weight sel1 ≤ sel_weight selections + 1 ∧
    sel_slashable sel1 ≤ sel_slashable selections + MinJurorStake) as [Hw1 Hsl1].
  { destruct Hcases as [(_ & ? & ?)|(_ & -> & _)]; lia. }
  destruct (IH e pool1 sel1 inv1 s1) as (pool2 & sel2 & inv2 & s2 & Hrun2 & Hadv2 & Hs2 & Hprod & Hsum2 & Hinv);
    [done..|lia|done| |done|lia|nia|].
  { intros e' He'. specialize (Hf e' He'). rewrite Z.compare_lt_iff in Hf.
    destruct (Hends e' ltac:(by right)). split; [lia|done]. }
  exists pool2, sel2, inv2, s2. split; [done|]. split; [done|]. split; [done|].
  destruct Hcases as [(-> & Hcw & Hcs)|(Hlen & -> & x & Hx & Hd)].
  - split; [nia|]. split; [lia|]. intros Hno. apply Hinv. intros y Hy. rewrite Hdel. by apply Hno.
  - split; [nia|]. split; [lia|]. intros Hno. by destruct Hd; apply Hno.
Qed.

(** ** The draws *)

Lemma pool_unconsumed_sum pool :
  zsum unconsumed_sections pool ≤ u128_max → pool_unconsumed_stake pool = zsum unconsumed_sections pool.
Proof.
  unfold pool_unconsumed_stake. enough (∀ acc, 0 ≤ acc → acc + zsum unconsumed_sections pool ≤ u128_max →
    foldl (λ acc i, saturating_add u128_max acc (unconsumed_sections i)) acc pool =
      acc + zsum unconsumed_sections pool) as Hgen by (intros; rewrite Hgen; lia).
  induction pool as [|x pool IH]; intros acc Hacc Hs; cbn [foldl]; [cbn; lia|].
  rewrite zsum_cons in *. pose proof (unconsumed_range x) as [Hx _].
  assert (0 ≤ zsum unconsumed_sections pool) by (apply zsum_nonneg; intros; apply unconsumed_range).
  assert (saturating_add u128_max acc (unconsumed_sections x) = acc + unconsumed_sections x) as ->
    by (unfold saturating_add; lia).
  rewrite IH; lia.
Qed.

Lemma unconsumed_le_stake pool : items_ok pool → zsum unconsumed_sections pool ≤ zsum pi_stake pool.
Proof. intros Hok. apply zsum_le. intros x Hx. pose proof (unconsumed_range x). destruct (Hok x Hx). lia. Qed.

Lemma zsum_compose {A B} (f : B → Z) (g : A → B) l : zsum f (g <$> l) = zsum (λ x, f (g x)) l.
Proof. induction l as [|x l IH]; [done|]. rewrite fmap_cons, !zsum_cons. by rewrite IH. Qed.
Lemma draws_weight selections : zsum weight (convert_selections_to_draws selections) = sel_weight selections.
Proof. unfold convert_selections_to_draws. by rewrite zsum_compose. Qed.
Lemma draws_slashable selections : zsum slashable (convert_selections_to_draws selections) = sel_slashable selections.
Proof. unfold convert_selections_to_draws. by rewrite zsum_compose. Qed.

(** Removing indices shortens the pool, it does not change the items. *)
Lemma vec_remove_ok {A} i (l l' : list A) : vec_remove i l = Ok l' → (i < length l)%nat ∧ l' = take i l ++ drop (S i) l.
Proof. unfold vec_remove. destruct (Nat.ltb_spec i (length l)); [|done]. intros [= <-]. done. Qed.

(** The draw once there is enough stake. *)
Lemma choose_multiple_run now w (s : St) :
  let pool := CourtPool (storage s) in
  items_ok pool → zsum pi_stake pool ≤ u128_max → 0 ≤ w ≤ u32_max →
  w * MinJurorStake ≤ zsum unconsumed_sections pool →
  ∃ pool' selections inv s1,
    choose_multiple_weighted now w s =
      match remove_indices inv pool' with
      | Ok pool'' => (Ok (convert_selections_to_draws selections), set_storage (set_CourtPool pool'' (storage s1)) s1)
      | Err e => (Err e, s1)
      end ∧
    sel_ok selections ∧ sel_slashable selections = MinJurorStake * sel_weight selections ∧
    sel_weight selections + Z.of_nat (length inv) = w ∧
    ((∀ x, x ∈ pool → delegations_of (storage s) (pi_participant x) = None) → inv = []).
Proof.
  intros pool Hok Hstake Hw Hreq. pose proof min_juror_stake_range as Hmin.
  pose proof (unconsumed_le_stake pool Hok) as Hsum.
  unfold choose_multiple_weighted, reads. rewrite gets_bind. fold pool.
  rewrite pool_unconsumed_sum by lia.
  rewrite ensure_true_bind by (apply Z.leb_le; unfold saturating_mul; lia).
  destruct (section_ends_run now (Z.to_nat w) (zsum unconsumed_sections pool) s)
    as (ends & Hends & Hlen & Hsec & Hrange); [split; [nia|lia]|lia|].
  rewrite (bind_ok _ _ _ _ _ Hends).
  destruct (select_section_ends_ok now pool ends 0 pool [] [] (bump_nonce s))
    as (pool' & sel & inv & s1 & Hrun & _ & Hsel & Hprod & Hcount & Hinv);
    [done|lia|apply advanced_refl|by exists 0|done|done| | |cbn; lia|cbn; lia|].
  { intros e He. destruct (Hrange e He). split; [lia|done]. }
  { split; [constructor|by intros ? ?%elem_of_nil]. }
  exists pool', sel, inv, s1. split.
  - unfold get_selections. rewrite Hlen in *. unfold mbind at 1, M_bind at 1. unfold mbind at 1, M_bind at 1.
    rewrite Hrun. cbn. by destruct (remove_indices inv pool').
  - split; [done|]. cbn in *. split; [lia|]. split; [lia|]. intros Hno. apply Hinv. done.
Qed.

(** (C30) Drawing a total weight of [w]: without enough unconsumed stake the draw is
    refused. The draws of a successful round carry at most the weight [w], and together
    they can be slashed by exactly [MinJurorStake] per unit of weight. If no participant
    of the pool delegates, a draw with enough stake always succeeds, with weight [w]. *)
Theorem choose_multiple_weighted_counts now w (s s' : St) r
    (Hok : items_ok (CourtPool (storage s)))
    (Hstake : zsum pi_stake (CourtPool (storage s)) < u128_max) (Hw : 0 ≤ w ≤ u32_max)
    (Hrun : choose_multiple_weighted now w s = (r, s')) :
  let total := zsum unconsumed_sections (CourtPool (storage s)) in
  (total < w * MinJurorStake → r = Err (CT_NotEnoughJurorsAndDelegatorsStake : CourtError)) ∧
  (∀ draws, r = Ok draws →
     zsum slashable draws = MinJurorStake * zsum weight draws ∧ zsum weight draws ≤ w) ∧
  ((∀ x, x ∈ CourtPool (storage s) → delegations_of (storage s) (pi_participant x) = None) →
   w * MinJurorStake ≤ total → ∃ draws, r = Ok draws ∧ zsum weight draws = w).
Proof.
  cbv zeta. pose proof (unconsumed_le_stake _ Hok) as Hsum.
  destruct (Z.lt_ge_cases (zsum unconsumed_sections (CourtPool (storage s))) (w * MinJurorStake)) as [Hlt|Hge].
  - unfold choose_multiple_weighted, reads in Hrun. rewrite gets_bind, pool_unconsumed_sum in Hrun by lia.
    rewrite ensure_false_bind in Hrun by (apply Z.leb_gt; unfold saturating_mul; lia).
    injection Hrun as <- _. split; [done|]. split; [done|]. lia.
  - destruct (choose_multiple_run now w s) as (pool' & sel & inv & s1 & Hr & Hsel & Hprod & Hcount & Hinv);
      [done|lia|done|done|].
    rewrite Hr in Hrun. split; [lia|]. split.
    + intros draws ->. destruct (remove_indices inv pool'); [|done]. injection Hrun as <- _.
      rewrite draws_weight, draws_slashable. lia.
    + intros Hno _. rewrite (Hinv Hno) in *. cbn in Hrun, Hcount. injection Hrun as <- _. eexists.
      split; [done|]. rewrite draws_weight. lia.
Qed.
End Sections.
