(* ===== verification/CourtVotes.v ===== *)
(** * Court: votes

    [get_winner] is a plurality count, and the draws of every court stay in order and
    hold only votes that match their commitment. *)
From S2P Require Import Prelude BTree Types Errors Currencies MarketCommons Disputes CourtTypes Court CourtSteps CourtDraws.

(** ** Orders of the keys *)

#[export] Instance OutcomeReport_ord : OrdLaws OutcomeReport_compare.
Proof.
  split.
  - intros [i|i] [j|j]; cbn; rewrite ?Z.compare_eq_iff; split; congruence.
  - intros [i|i] [j|j] [k|k]; cbn; rewrite ?Z.compare_lt_iff; first [done|lia].
  - intros [i|i] [j|j]; cbn; try done; apply Z.compare_antisym.
Qed.
#[export] Instance bool_ord : OrdLaws bool_compare.
Proof. split; [intros [] []; cbn; split; done|intros [] [] []; cbn; done|intros [] []; done]. Qed.
#[export] Instance VoteItem_ord : OrdLaws VoteItem_compare.
Proof.
  split.
  - intros [x|x] [y|y]; cbn; rewrite ?ord_eq; split; congruence.
  - intros [x|x] [y|y] [z|z]; cbn; try done; apply ord_lt_trans.
  - intros [x|x] [y|y]; cbn; try done; apply ord_flip.
Qed.

(** ** The count *)

Definition votes_for (v : VoteItem) (d : Draw) : bool :=
  match draw_vote d with Revealed _ vote_item _ => bool_decide (vote_item = v) | _ => false end.
(** The weight of the revealed votes for an item. *)
Definition score (v : VoteItem) (draws : list Draw) : Z :=
  Z.min u32_max (zsum (λ d, if votes_for v d then weight d else 0) draws).
Definition revealed (v : VoteItem) (draws : list Draw) : bool := existsb (votes_for v) draws.

Lemma votes_for_eq v w d : votes_for v d = true → votes_for w d = true → v = w.
Proof. unfold votes_for. destruct (draw_vote d); try done. intros ?%bool_decide_eq_true ?%bool_decide_eq_true. congruence. Qed.

Lemma zsum_zero {A} (l : list A) : zsum (λ _, 0) l = 0.
Proof. induction l as [|x l IH]; [done|]. rewrite zsum_cons. lia. Qed.

(** What the map of scores holds for an item after the votes [draws]. *)
Definition score_entry (v : VoteItem) (draws : list Draw) (acc : option Z) : option Z :=
  if revealed v draws then
    Some (Z.min u32_max (default 0 acc + zsum (λ d, if votes_for v d then weight d else 0) draws))
  else acc.

Lemma collect_scores_get draws scores v :
  (∀ d, d ∈ draws → in_u32 (weight d)) →
  (∀ n, bt_get VoteItem_compare v scores = Some n → in_u32 n) →
  bt_get VoteItem_compare v (collect_scores draws scores) =
    score_entry v draws (bt_get VoteItem_compare v scores).
Proof.
  revert scores. induction draws as [|d draws IH]; intros scores Hw Hs; [done|].
  cbn [collect_scores]. assert (in_u32 (weight d)) as Hd by (apply Hw; by left).
  assert (0 ≤ zsum (λ d, if votes_for v d then weight d else 0) draws) as Hnn.
  { apply zsum_nonneg. intros x Hx. destruct (votes_for v x); [|done]. apply Hw. by right. }
  assert (bt_get VoteItem_compare v (match draw_vote d with
         | Revealed _ vote_item _ =>
             match bt_get VoteItem_compare vote_item scores with
             | Some el => bt_insert VoteItem_compare vote_item (saturating_add u32_max el (weight d)) scores
             | None => bt_insert VoteItem_compare vote_item (weight d) scores
             end
         | _ => scores end) =
    if votes_for v d then Some (Z.min u32_max (default 0 (bt_get VoteItem_compare v scores) + weight d))
    else bt_get VoteItem_compare v scores) as Hget.
  { unfold votes_for. destruct (draw_vote d) as [| | |c item salt|]; try done.
    destruct (bool_decide_reflect (item = v)) as [->|Hne].
    - destruct (bt_get VoteItem_compare v scores); rewrite (bt_get_insert VoteItem_compare), (ord_refl VoteItem_compare); [done|].
      cbn. f_equal. unfold in_u32 in Hd. lia.
    - destruct (bt_get VoteItem_compare item scores); rewrite (bt_get_insert VoteItem_compare);
        destruct (VoteItem_compare v item) eqn:Hc; try done; by apply ord_eq in Hc as ->. }
  rewrite IH.
  - rewrite Hget. unfold score_entry, revealed. cbn [existsb]. rewrite zsum_cons.
    destruct (votes_for v d); cbn [orb]; [|done]. unfold in_u32, u32_max in *.
    destruct (existsb (votes_for v) draws) eqn:He; cbn [default]; f_equal.
    + specialize (Hs (default 0 (bt_get VoteItem_compare v scores))).
      destruct (bt_get _ v scores); cbn [default id] in *; [specialize (Hs eq_refl)|]; lia.
    + enough (zsum (λ d, if votes_for v d then weight d else 0) draws = 0) by lia.
      rewrite (zsum_ext _ (λ _, 0)); [apply zsum_zero|]. intros x Hx.
      destruct (votes_for v x) eqn:Hv; [|done]. exfalso. apply not_true_iff_false in He.
      apply He, existsb_exists. exists x. split; [by apply list_elem_of_In|done].
  - intros x Hx. apply Hw. by right.
  - intros n. rewrite Hget. destruct (votes_for v d); [|apply Hs]. intros [= <-].
    unfold in_u32, u32_max in *. destruct (bt_get _ v scores); cbn; [specialize (Hs z eq_refl)|]; lia.
Qed.

Lemma collect_scores_sorted draws scores :
  bt_sorted VoteItem_compare scores → bt_sorted VoteItem_compare (collect_scores draws scores).
Proof.
  revert scores. induction draws as [|d draws IH]; intros scores Hs; [done|]. cbn [collect_scores].
  apply IH. destruct (draw_vote d) as [| | |c item salt|]; try done.
  destruct (bt_get _ item scores); by apply (bt_insert_sorted VoteItem_compare).
Qed.

(** The map of scores has exactly the revealed items with their scores. *)
Lemma collect_scores_elem draws v n :
  (∀ d, d ∈ draws → in_u32 (weight d)) →
  (v, n) ∈ collect_scores draws [] ↔ revealed v draws = true ∧ n = score v draws.
Proof.
  intros Hw. pose proof (collect_scores_get draws [] v Hw ltac:(done)) as Hg. cbn [bt_get] in Hg.
  unfold score_entry in Hg. cbn [default] in Hg. split.
  - intros Hin. apply (bt_in_get VoteItem_compare) in Hin; [|apply collect_scores_sorted; constructor].
    rewrite Hg in Hin. destruct (revealed v draws); [|done]. by injection Hin as <-.
  - intros [Hr ->]. apply (bt_get_in VoteItem_compare). rewrite Hg, Hr. done.
Qed.

(** ** The winner *)

(** The loop keeps the best and the second best of what it has seen. *)
Lemma best_two_spec rest : ∀ b c seen b' c',
  c.2 ≤ b.2 → (∀ x, x ∈ seen → x.2 ≤ c.2) → best_two rest b c = (b', c') →
  ∃ seen', b' :: c' :: seen' ≡ₚ b :: c :: rest ++ seen ∧ c'.2 ≤ b'.2 ∧ ∀ x, x ∈ seen' → x.2 ≤ c'.2.
Proof.
  induction rest as [|el rest IH]; intros b c seen b' c' Hcb Hseen; cbn [best_two].
  - intros [= <- <-]. by exists seen.
  - destruct (Z.ltb_spec b.2 el.2); [|destruct (Z.ltb_spec c.2 el.2)]; intros Hr.
    + apply (IH _ _ (c :: seen)) in Hr as (seen' & Hp & Hr); [|lia|].
      2:{ intros x [->|Hx]%elem_of_cons; [done|]. specialize (Hseen x Hx). lia. }
      exists seen'. split; [|done]. rewrite Hp. solve_Permutation.
    + apply (IH _ _ (c :: seen)) in Hr as (seen' & Hp & Hr); [|lia|].
      2:{ intros x [->|Hx]%elem_of_cons; [lia|]. specialize (Hseen x Hx). lia. }
      exists seen'. split; [|done]. rewrite Hp. solve_Permutation.
    + apply (IH _ _ (el :: seen)) in Hr as (seen' & Hp & Hr); [|done|].
      2:{ intros x [->|Hx]%elem_of_cons; [lia|auto]. }
      exists seen'. split; [|done]. rewrite Hp. solve_Permutation.
Qed.

(** Which of its three results the count gives. *)
Lemma get_winner_ranked draws last_winner :
  (collect_scores draws [] = [] ∧ get_winner draws last_winner = None) ∨
  (∃ b rest, collect_scores draws [] ≡ₚ b :: rest ∧ (∀ x, x ∈ rest → x.2 < b.2) ∧
     get_winner draws last_winner = Some b.1) ∨
  (∃ b c rest, collect_scores draws [] ≡ₚ b :: c :: rest ∧ b.2 = c.2 ∧ (∀ x, x ∈ rest → x.2 ≤ b.2) ∧
     get_winner draws last_winner = last_winner).
Proof.
  unfold get_winner. destruct (collect_scores draws []) as [|x [|y rest]]; [by left|..]; right.
  { left. exists x, []. split; [done|]. split; [by intros ? ?%elem_of_nil|done]. }
  destruct (if x.2 <? y.2 then best_two rest y x else best_two rest x y) as [b c] eqn:Hb.
  assert (∃ seen', b :: c :: seen' ≡ₚ x :: y :: rest ∧ c.2 ≤ b.2 ∧ ∀ z, z ∈ seen' → z.2 ≤ c.2)
    as (seen & Hp & Hcb & Hseen).
  { destruct (Z.ltb_spec x.2 y.2); apply (best_two_spec _ _ _ []) in Hb as (seen & Hp & Hr);
      try lia; try (by intros ? ?%elem_of_nil); exists seen; (split; [|done]);
      rewrite Hp, app_nil_r; solve_Permutation. }
  destruct (Z.eqb_spec b.2 c.2) as [He|He].
  - right. exists b, c, seen. split; [done|]. split; [done|]. split; [|done].
    intros z Hz. specialize (Hseen z Hz). lia.
  - left. exists b, (c :: seen). split; [done|]. split; [|done].
    intros z [->|Hz]%elem_of_cons; [lia|]. specialize (Hseen z Hz). lia.
Qed.

Lemma collect_scores_NoDup draws : NoDup (collect_scores draws []).*1.
Proof.
  pose proof (collect_scores_sorted draws [] (SSorted_nil _)) as Hs.
  induction Hs as [|[v n] m Hs IH Hf]; cbn; constructor; [|done].
  rewrite Forall_forall in Hf. intros ([v' n'] & Hv & Hin)%list_elem_of_fmap. cbn in Hv. subst v'.
  specialize (Hf _ Hin). cbn in Hf. by rewrite (ord_refl VoteItem_compare) in Hf.
Qed.

(** (C31) The vote of a round is a plurality count of the revealed weights: without
    revealed votes there is no winner, an item with more weight than every other item
    wins, and when two items share the highest weight the winner of the previous round
    stands. *)
Theorem get_winner_plurality draws last_winner
    (Hw : ∀ d, d ∈ draws → in_u32 (weight d)) :
  ((∀ v, revealed v draws = false) → get_winner draws last_winner = None) ∧
  (∀ v, revealed v draws = true →
     (∀ w, revealed w draws = true → w ≠ v → score w draws < score v draws) →
     get_winner draws last_winner = Some v) ∧
  (∀ v w, revealed v draws = true → revealed w draws = true → v ≠ w → score v draws = score w draws →
     (∀ u, revealed u draws = true → score u draws ≤ score v draws) →
     get_winner draws last_winner = last_winner).
Proof.
  assert (∀ v n, (v, n) ∈ collect_scores draws [] ↔ revealed v draws = true ∧ n = score v draws)
    as Hel by (intros; by apply collect_scores_elem).
  pose proof (collect_scores_NoDup draws) as Hnd.
  destruct (get_winner_ranked draws last_winner)
    as [[Hn Hr]|[([b n] & rest & Hp & Hmax & Hr)|([b n] & [c n'] & rest & Hp & Hbc & Hmax & Hr)]];
    cbn in *; rewrite Hr.
  - setoid_rewrite Hn in Hel. split; [done|]. split.
    + intros v Hv _. by pose proof (proj2 (Hel v _) (conj Hv eq_refl)) as ?%not_elem_of_nil.
    + intros v w Hv. by pose proof (proj2 (Hel v _) (conj Hv eq_refl)) as ?%not_elem_of_nil.
  - setoid_rewrite Hp in Hel. rewrite Hp in Hnd. cbn in Hnd. apply NoDup_cons in Hnd as [Hb Hnd].
    assert (revealed b draws = true ∧ n = score b draws) as [Hrb ->] by (apply Hel; by left).
    assert (∀ w, revealed w draws = true → w ≠ b → score w draws < score b draws) as Hlt.
    { intros w Hrw Hne. apply (Hmax (w, score w draws)).
      pose proof (proj2 (Hel w _) (conj Hrw eq_refl)) as [[=]|]%elem_of_cons; done. }
    split; [intros Hno; by rewrite Hno in Hrb|]. split.
    + intros v Hv Hgt. destruct (decide (v = b)) as [->|Hne]; [done|].
      specialize (Hgt b Hrb ltac:(done)). specialize (Hlt v Hv Hne). lia.
    + intros v w Hv Hw' Hne Heq Hle. specialize (Hle b Hrb). destruct (decide (v = b)) as [->|Hvb].
      * specialize (Hlt w Hw' ltac:(done)). lia.
      * specialize (Hlt v Hv Hvb). lia.
  - setoid_rewrite Hp in Hel. rewrite Hp in Hnd. cbn in Hnd. apply NoDup_cons in Hnd as [Hb Hnd].
    assert (revealed b draws = true ∧ n = score b draws) as [Hrb ->] by (apply Hel; by left).
    assert (revealed c draws = true ∧ n' = score c draws) as [Hrc ->] by (apply Hel; right; by left).
    assert (b ≠ c) as Hne by (intros ->; apply Hb; by left).
    split; [intros Hno; by rewrite Hno in Hrb|]. split; [|done].
    intros v Hv Hgt. exfalso. destruct (decide (b = v)) as [->|Hvb].
    + specialize (Hgt c Hrc ltac:(done)). lia.
    + pose proof (proj2 (Hel v _) (conj Hv eq_refl)) as Hin.
      specialize (Hgt b Hrb ltac:(done)).
      apply elem_of_cons in Hin as [[=]|[[= -> _]|Hin]%elem_of_cons]; [done|lia|].
      specialize (Hmax _ Hin). cbn in Hmax. lia.
Qed.

(** ** Commitments *)
Section Commitments.
Context {C R L Rng : Type} `{MarketCommonsPalletApi C, DisputeResolutionApi R, Currency L,
  !ImbalanceCurrency L, !ImbalanceLaws L, !CourtConfig L Rng, !CourtConfigLaws L Rng}.
Abbreviation St := (State C R L).

(** A vote that is known matches a commitment of the juror. *)
Definition vote_sound (who : AccountId) (v : Vote) : Prop :=
  match v with
  | Revealed commitment vote_item salt | Denounced commitment vote_item salt =>
      commitment = hash_of who vote_item salt
  | _ => True
  end.
Definition draw_sound (d : Draw) : Prop :=
  0 ≤ slashable d ∧ 0 ≤ weight d ∧ vote_sound (court_participant d) (draw_vote d).
Definition draws_sound (ds : list Draw) : Prop :=
  key_sorted court_participant ds ∧ Forall draw_sound ds.
(** The draws of every court. *)
Definition courts_sound (s : St) : Prop :=
  ∀ court_id ds, SelectedDraws (storage s) !! court_id = Some ds → draws_sound ds.

Lemma draws_sound_nil : draws_sound [].
Proof. split; constructor. Qed.
Lemma draws_sound_of s court_id : courts_sound s → draws_sound (draws_of court_id (storage s)).
Proof.
  intros Hs. unfold draws_of. destruct (SelectedDraws (storage s) !! court_id) eqn:Hc; [by apply (Hs court_id)|].
  apply draws_sound_nil.
Qed.

Lemma update_draw_sound {A} who missing (update : Draw → Res (Vote * A)) ds r :
  draws_sound ds →
  (∀ d v x, draw_sound d → court_participant d = who → update d = Ok (v, x) → vote_sound who v) →
  update_draw who missing update ds = Ok r → draws_sound r.1.
Proof.
  intros [Hs Hf] Hup. unfold update_draw. destruct (search_key court_participant who ds) as [i|i] eqn:Hr; [|done].
  apply search_key_ok in Hr as (d & Hd & Hw). rewrite Hd. cbn. destruct (update d) as [[v x]|e] eqn:Hu; [|done].
  intros [= <-]. cbn. rewrite Forall_forall in Hf.
  pose proof (Hf d (list_elem_of_lookup_2 _ _ _ Hd)) as (Hsl & Hwt & Hv). split.
  - by apply (key_sorted_update court_participant d).
  - apply Forall_insert; [by apply Forall_forall|]. split; [done|]. split; [done|]. cbn. rewrite Hw.
    by apply (Hup d v x).
Qed.

(** *** Drawn participants *)

Lemma add_to_selections_sound now selections who lock (s s' : St) selections' :
  sel_ok selections → 0 ≤ lock → add_to_selections now selections who lock s = (Ok (Ok selections'), s') →
  sel_ok selections'.
Proof.
  intros Hs Hl. unfold add_to_selections, participant, reads. rewrite gets_bind.
  assert (∀ a sel sel', 0 ≤ add_lock a → sel_ok sel →
    selection_result (update_selections MaxDelegations sel who a) = Ok sel' → sel_ok sel') as Hstep1.
  { intros a sel sel' Ha Hok Hu. unfold selection_result in Hu.
    destruct (update_selections _ _ _ _) as [x|] eqn:Hx; [|done]. injection Hu as ->.
    by apply (update_selections_ok _ _ _ _ _ Hok Ha Hx). }
  destruct (Participants (storage s) !! who ≫= delegations) as [ds|].
  - destruct (get_valid_delegated_juror_run now ds s) as [o Ho]. rewrite (bind_ok _ _ _ _ _ Ho).
    intros [Hr _]%ret_ok_inv. cbn in Hr. destruct o as [j|]; [|done]. cbn in Hr.
    destruct (update_selections_total MaxDelegations selections j DelegationWeight) as [sel1 Hu1].
    rewrite Hu1 in Hr. cbn in Hr. apply (Hstep1 (DelegationStake j lock) sel1); [done| |done].
    by apply (update_selections_ok _ _ _ DelegationWeight _ Hs (Z.le_refl 0) Hu1).
  - intros [Hr _]%ret_ok_inv. by apply (Hstep1 (SelfStake lock) selections).
Qed.

Lemma select_section_ends_sound now cum ends : ∀ pool selections inv (s s' : St) acc,
  sel_ok selections → select_section_ends now cum ends (pool, selections, inv) s = (Ok acc, s') → sel_ok acc.1.2.
Proof.
  pose proof min_juror_stake_range as Hmin.
  induction ends as [|e ends IH]; intros pool selections inv s s' acc Hs; cbn [select_section_ends].
  { intros [<- _]%ret_ok_inv. done. }
  intros (acc1 & s1 & Hstep1 & Hrest)%bind_ok_inv. destruct acc1 as [[pool1 sel1] inv1].
  apply IH in Hrest; [done|]. unfold select_section_end in Hstep1.
  destruct (pool !! _) as [x|]; [|by apply ret_ok_inv in Hstep1 as [[= <- <- <-] _]].
  apply bind_ok_inv in Hstep1 as (r & s2 & Hadd & Hstep1).
  apply bind_ok_inv in Hstep1 as (kept & s3 & Hkept & Hstep1).
  apply bind_ok_inv in Hstep1 as (u & s4 & _ & [[= _ <- _] _]%ret_ok_inv).
  destruct r as [sel2|[|]]; [|by apply ret_ok_inv in Hkept as [<- _]|done].
  apply ret_ok_inv in Hkept as [<- _]. cbn.
  apply (add_to_selections_sound _ _ _ _ _ _ _ Hs) in Hadd; [done|]. unfold saturating_sub. lia.
Qed.

Lemma convert_selections_sound selections : sel_ok selections → draws_sound (convert_selections_to_draws selections).
Proof.
  intros [Hs Hnn]. split.
  - unfold convert_selections_to_draws. clear Hnn. induction Hs as [|x m Hs IH Hf]; cbn; constructor; [done|].
    rewrite Forall_fmap, Forall_forall in *. intros y Hy. by apply Z.compare_lt_iff, Hf.
  - apply Forall_fmap, Forall_forall. intros x Hx. destruct (Hnn x Hx). split; [done|]. split; [done|]. cbn.
    by destruct (sv_delegated_stakes x.2).
Qed.

Lemma draws_sound_take n ds : draws_sound ds → draws_sound (take n ds).
Proof.
  intros [Hs Hf]. split; [|by apply Forall_take].
  unfold key_sorted in *. rewrite <- (take_drop n ds) in Hs. by apply StronglySorted_app in Hs as (_ & Hs & _).
Qed.

Lemma select_participants_sound now n (s s' : St) ds :
  select_participants now n s = (Ok ds, s') → draws_sound ds.
Proof.
  unfold select_participants, choose_multiple_weighted, get_selections. intros Hrun. run_inv Hrun.
  destruct a4 as [[pool sel] inv]. run_inv Hm3. apply draws_sound_take, convert_selections_sound.
  apply (select_section_ends_sound _ _ _ _ [] _ _ _ _) in Hm4; [done|].
  split; [constructor|by intros ? ?%elem_of_nil].
Qed.

(** *** Every call keeps the draws sound *)

Definition keeps_draws (s s' : St) : Prop := courts_sound s → courts_sound s'.
#[local] Instance keeps_draws_framed : Framed keeps_draws.
Proof.
  split.
  - split; [by intros s Hs|]. intros s1 s2 s3 Hk1 Hk2 Hs. by apply Hk2, Hk1.
  - intros s s' (_ & _ & Hd & _) Hs c ds Hc. rewrite Hd in Hc. by apply (Hs c).
Qed.

Lemma respects_writes_draws f :
  (∀ s, SelectedDraws (f s) = SelectedDraws s) → respects keeps_draws (writes (C := C) (R := R) (L := L) f).
Proof. intros Hf s Hs c ds. cbn. rewrite Hf. apply Hs. Qed.
Lemma respects_put_draws c ds : draws_sound ds → respects keeps_draws (put_draws (C := C) (R := R) (L := L) c ds).
Proof.
  intros Hds s Hs c' ds'. cbn. rewrite lookup_insert_Some. intros [[_ <-]|[_ Hc]]; [done|by apply (Hs c')].
Qed.
Lemma respects_remove_draws c : respects keeps_draws (remove_draws (C := C) (R := R) (L := L) c).
Proof. intros s Hs c' ds'. cbn. rewrite lookup_delete_Some. intros [_ Hc]. by apply (Hs c'). Qed.
Lemma respects_currency_draws f : respects keeps_draws (update_currency (C := C) (R := R) (L := L) f).
Proof. by intros s Hs. Qed.
#[local] Hint Resolve respects_put_draws respects_remove_draws respects_currency_draws draws_sound_nil : respects.
#[local] Hint Extern 0 (respects keeps_draws (writes _)) => (apply respects_writes_draws; intros; reflexivity) : respects.

Lemma respects_put_participant_draws who p : respects keeps_draws (put_participant (C := C) (R := R) (L := L) who p).
Proof. unfold put_participant. respects. Qed.
#[local] Hint Resolve respects_put_participant_draws : respects.
Lemma respects_release_draws d : respects keeps_draws (release_lock (C := C) (R := R) (L := L) d).
Proof. unfold release_lock. respects. Qed.
#[local] Hint Resolve respects_release_draws : respects.
Lemma respects_unlock_draws ds :
  respects keeps_draws (unlock_participants_from_last_draw (C := C) (R := R) (L := L) ds).
Proof. apply respects_for_each; [typeclasses eauto|]. intros. respects. Qed.
#[local] Hint Resolve respects_unlock_draws : respects.

Lemma respects_do_join_draws now who amount ds : respects keeps_draws (do_join_court (C := C) (R := R) now who amount ds).
Proof. unfold do_join_court. respects. Qed.
#[local] Hint Resolve respects_do_join_draws : respects.

Lemma respects_select_end_draws now cum e acc : respects keeps_draws (select_section_end (C := C) (R := R) now cum e acc).
Proof.
  unfold select_section_end, add_active_lock. respects.
Qed.
#[local] Hint Resolve respects_select_end_draws : respects.
Lemma respects_select_ends_draws now cum ends acc :
  respects keeps_draws (select_section_ends (C := C) (R := R) now cum ends acc).
Proof. revert acc. induction ends as [|e ends IH]; intros acc; cbn [select_section_ends]; respects. Qed.
#[local] Hint Resolve respects_select_ends_draws : respects.
Lemma respects_select_participants_draws now n : respects keeps_draws (select_participants (C := C) (R := R) now n).
Proof.
  unfold select_participants, choose_multiple_weighted, get_selections. respects.
Qed.
#[local] Hint Resolve respects_select_participants_draws : respects.

(** A bind whose first part yields sound draws. *)
Lemma respects_bind_draws {B} now n (k : list Draw → Store St B) :
  (∀ ds, draws_sound ds → respects keeps_draws (k ds)) →
  respects keeps_draws (select_participants now n ≫= k).
Proof.
  intros Hk s. unfold mbind, M_bind. pose proof (respects_select_participants_draws now n s) as Hp.
  destruct (select_participants now n s) as [[ds|e] s1] eqn:Hr; [|done].
  transitivity s1; [done|]. apply Hk. by apply select_participants_sound in Hr.
Qed.

Lemma respects_reassign_draws c ds m : respects keeps_draws (reassign_draws (C := C) (R := R) c ds m).
Proof.
  revert m. induction ds as [|d ds IH]; intros m; cbn [reassign_draws]; respects.
Qed.
#[local] Hint Resolve respects_reassign_draws : respects.

Lemma new_round_draws now c court n old : respects keeps_draws (new_round (C := C) (R := R) now c court n old).
Proof. unfold new_round. apply respects_bind_draws. intros ds Hds. respects. Qed.
#[local] Hint Resolve new_round_draws : respects.

(** Votes replace the vote of one draw. *)
Lemma courts_sound_insert c ds (s s' : St) :
  courts_sound s → draws_sound ds →
  SelectedDraws (storage s') = <[c := ds]> (SelectedDraws (storage s)) → courts_sound s'.
Proof.
  intros Hs Hds Heq c' ds'. rewrite Heq, lookup_insert_Some. intros [[_ <-]|[_ Hc]]; [done|by apply (Hs c')].
Qed.
Lemma get_hashed_commitment_ok v juror item salt c :
  get_hashed_commitment v juror item salt = Ok c → c = hash_of juror item salt.
Proof.
  destruct v; cbn; try done. unfold compare_commitment, Prelude.ensureR.
  destruct (Z.eqb_spec commitment (hash_of juror item salt)); cbn; [|done]. by intros [= <-].
Qed.

Lemma vote_draws now origin c commitment : respects keeps_draws (vote (C := C) (R := R) now origin c commitment).
Proof.
  apply respects_transactional_ok; [typeclasses eauto|]. intros s u s' Hrun Hs. run_vote Hrun.
  eapply (courts_sound_insert c _ s); [done| |reflexivity].
  eapply update_draw_sound; [by apply draws_sound_of| |eassumption]. intros d v x _ _ Hu.
  cbv beta in Hu. run_inv Hu. by intros <- _.
Qed.
Lemma denounce_draws now origin c juror item salt :
  respects keeps_draws (denounce_vote (C := C) (R := R) now origin c juror item salt).
Proof.
  apply respects_transactional_ok; [typeclasses eauto|]. intros s u s' Hrun Hs. run_vote Hrun.
  eapply (courts_sound_insert c _ s); [done| |reflexivity].
  eapply update_draw_sound; [by apply draws_sound_of| |eassumption]. intros d v x _ _ Hu.
  cbv beta in Hu. run_inv Hu. intros <- _. by eapply get_hashed_commitment_ok.
Qed.
Lemma reveal_draws now origin c item salt :
  respects keeps_draws (reveal_vote (C := C) (R := R) now origin c item salt).
Proof.
  apply respects_transactional_ok; [typeclasses eauto|]. intros s u s' Hrun Hs. run_vote Hrun.
  eapply (courts_sound_insert c _ s); [done| |reflexivity].
  eapply update_draw_sound; [by apply draws_sound_of| |eassumption]. intros d v x _ _ Hu.
  cbv beta in Hu. run_inv Hu. intros <- _. by eapply get_hashed_commitment_ok.
Qed.
#[local] Hint Resolve vote_draws denounce_draws reveal_draws : respects.

Lemma on_dispute_draws now id m : respects keeps_draws (on_dispute (C := C) (R := R) now id m).
Proof.
  unfold on_dispute. do 3 (apply respects_bind; [typeclasses eauto|respects|intros ?]).
  apply respects_bind_draws. intros ds Hds. respects.
Qed.
#[local] Hint Resolve on_dispute_draws : respects.

(** (C32) In every court the draws stay ordered by account, with non-negative weights and
    slashable amounts, and every revealed or denounced vote matches the commitment that
    the juror made: whichever call, hook or dispute callback runs, and whether it
    succeeds or fails. *)
Theorem court_votes_committed now call (s s' : St) r
    (Hs : courts_sound s) (Hrun : dispatch now call s = (r, s')) : courts_sound s'.
Proof.
  enough (respects keeps_draws (dispatch (C := C) (R := R) now call)) as Hk.
  { specialize (Hk s Hs). by rewrite Hrun in Hk. }
  destruct call; cbn [dispatch]; unfold forget, join_court, delegate, prepare_exit_court, exit_court, appeal,
    reassign_court_stakes, on_resolution, on_global_dispute, clear; respects.
Qed.
End Commitments.
