(* ===== verification/CourtPools.v ===== *)
(** * Court: the pool and the participants

    The invariant that ties the pool of [CourtPool], the map of [Participants] and the
    locks of the ledger together, and that every call keeps. *)
From S2P Require Import Prelude BTree Types Errors Currencies MarketCommons Disputes CourtTypes Court CourtSteps CourtDraws CourtVotes.

#[export] Instance key_ord : OrdLaws key_compare.
Proof. apply pair_ord; apply _. Qed.

Abbreviation ParticipantMap := (gmap AccountId CourtParticipantInfo).

(** ** The invariant *)

(** An item of the pool and the entry of its participant. *)
Definition item_sound (ps : ParticipantMap) (x : CourtPoolItem) : Prop :=
  ∃ p, ps !! pi_participant x = Some p ∧ cp_stake p = pi_stake x ∧ prepare_exit_at p = None ∧
    active_lock p ≤ consumed_stake x ≤ pi_stake x.
Record pool_inv (pool : list CourtPoolItem) (ps : ParticipantMap) : Prop := {
  pool_ordered : ord_sorted key_compare pool_key pool;
  pool_items x : x ∈ pool → item_sound ps x;
  pool_locks who p : ps !! who = Some p → 0 ≤ active_lock p ≤ cp_stake p;
}.

Section PoolInv.
Implicit Types (pool : list CourtPoolItem) (ps : ParticipantMap).

Lemma pool_unique pool ps i j x y :
  pool_inv pool ps → pool !! i = Some x → pool !! j = Some y → pi_participant x = pi_participant y → i = j.
Proof.
  intros [Ho Hi _] Hx Hy He. destruct (Hi x (list_elem_of_lookup_2 _ _ _ Hx)) as (p & Hp & Hsp & _).
  destruct (Hi y (list_elem_of_lookup_2 _ _ _ Hy)) as (q & Hq & Hsq & _).
  apply (ord_sorted_inj key_compare pool_key pool i j x y); [done..|].
  assert (p = q) as -> by congruence. unfold pool_key. congruence.
Qed.

Lemma pool_inv_sublist pool pool' ps : sublist pool' pool → pool_inv pool ps → pool_inv pool' ps.
Proof.
  intros Hsub [Ho Hi Hl]. split; [by apply (ord_sorted_sublist key_compare pool_key pool)| |done].
  intros x Hx. apply Hi. eapply elem_of_submseteq; [done|]. by apply sublist_submseteq.
Qed.

(** An account that is not in the pool may change. *)
Definition outside (who : AccountId) pool : Prop := ∀ x, x ∈ pool → pi_participant x ≠ who.
Lemma pool_inv_participant pool ps who p :
  pool_inv pool ps → outside who pool → 0 ≤ active_lock p ≤ cp_stake p → pool_inv pool (<[who := p]> ps).
Proof.
  intros [Ho Hi Hl] Hout Hp. split; [done|..].
  - intros x Hx. destruct (Hi x Hx) as (q & Hq & Hr). exists q. rewrite lookup_insert_ne; [done|].
    intros ->. by apply (Hout x).
  - intros w q. rewrite lookup_insert_Some. intros [[<- <-]|[_ Hq]]; [done|by apply (Hl w)].
Qed.
Lemma pool_inv_delete pool ps who : pool_inv pool ps → outside who pool → pool_inv pool (delete who ps).
Proof.
  intros [Ho Hi Hl] Hout. split; [done|..].
  - intros x Hx. destruct (Hi x Hx) as (q & Hq & Hr). exists q. rewrite lookup_delete_ne; [done|].
    intros ->. by apply (Hout x).
  - intros w q. rewrite lookup_delete_Some. intros [_ Hq]. by apply (Hl w).
Qed.

(** The participant of an item may change as long as the item follows. *)
Lemma pool_inv_update pool ps i x x' p :
  pool_inv pool ps → pool !! i = Some x → pool_key x' = pool_key x →
  cp_stake p = pi_stake x → prepare_exit_at p = None →
  0 ≤ active_lock p ≤ consumed_stake x' → consumed_stake x' ≤ pi_stake x →
  pool_inv (<[i := x']> pool) (<[pi_participant x := p]> ps).
Proof.
  intros Hinv Hx Hk Hst Hex Hlock Hcons. pose proof Hinv as [Ho Hi Hl]. injection Hk as Hk1 Hk2. split.
  - apply (ord_sorted_update key_compare pool_key x); [done..|]. unfold pool_key. congruence.
  - intros y (j & Hy)%list_elem_of_lookup. destruct (decide (i = j)) as [<-|Hne].
    + rewrite list_lookup_insert_eq in Hy by (by eapply lookup_lt_Some). injection Hy as <-.
      exists p. rewrite Hk2, lookup_insert_eq. split; [done|]. split; [congruence|]. split; [done|]. lia.
    + rewrite list_lookup_insert_ne in Hy by done.
      destruct (Hi y (list_elem_of_lookup_2 _ _ _ Hy)) as (q & Hq & Hr). exists q. split; [|done].
      rewrite lookup_insert_ne; [done|]. intros He. by destruct Hne; apply (pool_unique pool ps i j x y).
  - intros w q. rewrite lookup_insert_Some. intros [[_ <-]|[_ Hq]]; [lia|by apply (Hl w)].
Qed.

(** Lowering an active lock is always sound. *)
Lemma pool_inv_lower pool ps who p q :
  pool_inv pool ps → ps !! who = Some p → cp_stake q = cp_stake p → prepare_exit_at q = prepare_exit_at p →
  0 ≤ active_lock q ≤ active_lock p → pool_inv pool (<[who := q]> ps).
Proof.
  intros [Ho Hi Hl] Hp Hst Hex Hlock. split; [done|..].
  - intros x Hx. destruct (Hi x Hx) as (r & Hr & Hsr & Her & Hlr). destruct (decide (who = pi_participant x)) as [->|Hne].
    + rewrite Hp in Hr. injection Hr as ->. exists q. rewrite lookup_insert_eq.
      split; [done|]. split; [congruence|]. split; [congruence|lia].
    + exists r. by rewrite lookup_insert_ne.
  - intros w r. rewrite lookup_insert_Some. intros [[_ <-]|[_ Hr]]; [|by apply (Hl w)].
    specialize (Hl who p Hp). lia.
Qed.

(** *** Searching and removing *)

Lemma get_pool_item_some pool stake who i x :
  get_pool_item pool stake who = Ok (Some (i, x)) → pool !! i = Some x ∧ pool_key x = (stake, who).
Proof.
  unfold get_pool_item. destruct (pool_search pool stake who) as [j|j] eqn:Hs; [|done].
  apply (ord_search_ok key_compare pool_key) in Hs as (y & Hy & Hk). rewrite Hy. by intros [= <- <-].
Qed.
Lemma get_pool_item_none pool ps stake who p :
  pool_inv pool ps → ps !! who = Some p → cp_stake p = stake →
  get_pool_item pool stake who = Ok None → outside who pool.
Proof.
  intros [Ho Hi _] Hp Hst. unfold get_pool_item. destruct (pool_search pool stake who) as [j|j] eqn:Hs.
  - apply (ord_search_ok key_compare pool_key) in Hs as (y & Hy & Hk). by rewrite Hy.
  - intros _ x Hx <-. destruct (Hi x Hx) as (q & Hq & Hsq & _). rewrite Hp in Hq. injection Hq as <-.
    apply (ord_search_not_in key_compare pool_key (stake, pi_participant x) pool j x Ho Hs Hx).
    unfold pool_key. congruence.
Qed.

Lemma vec_remove_sublist {A} i (l l' : list A) : vec_remove i l = Ok l' → sublist l' l.
Proof.
  intros [Hi ->]%vec_remove_ok. destruct (lookup_lt_is_Some_2 l i Hi) as [x Hx].
  rewrite <- (take_drop_middle l i x Hx) at 3. apply sublist_app; [done|by apply sublist_cons].
Qed.
Lemma vec_remove_outside pool ps i x pool' :
  pool_inv pool ps → pool !! i = Some x → vec_remove i pool = Ok pool' → outside (pi_participant x) pool'.
Proof.
  intros Hinv Hx [Hi ->]%vec_remove_ok y Hy He. apply elem_of_app in Hy as [Hy|Hy].
  - apply elem_of_take in Hy as (j & Hy & Hj). assert (j = i); [|lia]. by apply (pool_unique pool ps j i y x).
  - apply list_elem_of_lookup in Hy as [j Hy]. rewrite lookup_drop in Hy.
    assert (S i + j = i)%nat; [|lia]. by apply (pool_unique pool ps _ i y x).
Qed.
End PoolInv.

Section Pools.
Context {C R L Rng : Type} `{MarketCommonsPalletApi C, DisputeResolutionApi R, Currency L, !CurrencyLaws L,
  !ImbalanceCurrency L, !ImbalanceLaws L, !CourtConfig L Rng, !CourtConfigLaws L Rng}.
Abbreviation St := (State C R L).

(** The stake of an account: that of its entry, zero without one. *)
Definition stake_of (ps : ParticipantMap) (who : AccountId) : Balance := default 0 (cp_stake <$> ps !! who).

Record pool_sound (s : St) : Prop := {
  sound_pool : pool_inv (CourtPool (storage s)) (Participants (storage s));
  sound_length : Z.of_nat (length (CourtPool (storage s))) ≤ MaxCourtParticipants;
  sound_locks who : cur_locked LockId who (currency s) = stake_of (Participants (storage s)) who;
}.
Definition court_sound (s : St) : Prop := courts_sound s ∧ pool_sound s.
Definition keeps_sound (s s' : St) : Prop := court_sound s → court_sound s'.

#[local] Instance keeps_sound_framed : Framed keeps_sound.
Proof.
  split.
  - split; [by intros s Hs|]. intros s1 s2 s3 Hk1 Hk2 Hs. by apply Hk2, Hk1.
  - intros s s' (Hp & Hq & Hd & Hl) [Hs [Hi Hlen Hlock]]. split.
    + intros c ds Hc. rewrite Hd in Hc. by apply (Hs c).
    + split; [by rewrite Hp, Hq|by rewrite Hp|]. intros who. by rewrite Hl, Hq.
Qed.

(** *** Joining *)

Lemma remove_weakest_ok amount pool pool' :
  remove_weakest_if_full amount pool = Ok pool' → sublist pool' pool.
Proof.
  unfold remove_weakest_if_full. destruct (_ <=? _); [|by intros [= ->]].
  intros Hr. run_inv Hr. by eapply vec_remove_sublist.
Qed.

Lemma outside_sublist who pool pool' : sublist pool' pool → outside who pool → outside who pool'.
Proof.
  intros Hsub Hout x Hx. apply Hout. eapply elem_of_submseteq; [done|]. by apply sublist_submseteq.
Qed.
Lemma outside_fresh who pool ps : pool_inv pool ps → ps !! who = None → outside who pool.
Proof. intros [_ Hi _] Hn x Hx <-. destruct (Hi x Hx) as (p & Hp & _). congruence. Qed.

Lemma leave_pool_ok now who amount pool ps lock consumed joined pool' :
  pool_inv pool ps → 0 ≤ amount →
  leave_pool now who amount pool (ps !! who) = Ok (lock, consumed, joined, pool') →
  sublist pool' pool ∧ outside who pool' ∧ 0 ≤ lock ≤ consumed ∧ consumed ≤ amount.
Proof.
  intros Hinv Hamt. unfold leave_pool. destruct (ps !! who) as [p|] eqn:Hp; intros Hrun; run_inv Hrun; guards.
  - pose proof (pool_locks _ _ Hinv who p Hp) as Hl. destruct a0 as [[i x]|]; run_inv Hrun.
    + intros <- <- <- <-. apply get_pool_item_some in Hm0 as [Hx Hk]. injection Hk as Hk1 Hk2.
      split; [by eapply vec_remove_sublist|].
      split; [rewrite <- Hk2; by eapply vec_remove_outside|].
      destruct (pool_items _ _ Hinv x (list_elem_of_lookup_2 _ _ _ Hx)) as (q & Hq & Hsq & _ & Hc).
      rewrite Hk2, Hp in Hq. injection Hq as <-. lia.
    + intros <- <- <- <-. pose proof (get_pool_item_none _ _ _ _ _ Hinv Hp eq_refl Hm0) as Hout.
      apply remove_weakest_ok in Hm1 as Hsub. split; [done|]. split; [by eapply outside_sublist|lia].
  - intros <- <- <- <-. apply remove_weakest_ok in Hm as Hsub. split; [done|].
    split; [|lia]. eapply outside_sublist; [done|]. by eapply outside_fresh.
Qed.

Lemma enter_pool_ok x pool pool' :
  ord_sorted key_compare pool_key pool → enter_pool x pool = Ok pool' →
  ord_sorted key_compare pool_key pool' ∧ (∀ y, y ∈ pool' → y = x ∨ y ∈ pool) ∧
  Z.of_nat (length pool') ≤ MaxCourtParticipants.
Proof.
  intros Ho. unfold enter_pool, try_insert, insert_at.
  destruct (pool_search pool (pi_stake x) (pi_participant x)) as [i|i] eqn:Hs; [done|].
  destruct (Z.ltb_spec (Z.of_nat (length pool)) MaxCourtParticipants); intros Hr; [|done]. injection Hr as <-.
  split; [by apply (ord_sorted_insert key_compare pool_key)|]. split.
  - intros y [Hy|[->|Hy]%elem_of_cons]%elem_of_app; [right|by left|right].
    + by eapply elem_of_take in Hy as (? & ?%list_elem_of_lookup_2 & _).
    + rewrite <- (take_drop i pool). apply elem_of_app. by right.
  - rewrite length_app, length_take. cbn [length]. rewrite length_drop. lia.
Qed.

Lemma do_join_sound now who amount ds (s s' : St) u :
  court_sound s → do_join_court now who amount ds s = (Ok u, s') → court_sound s'.
Proof.
  intros [Hd [Hinv Hlen Hlock]] Hrun. pose proof min_juror_stake_range as Hmin.
  unfold do_join_court, participant, put_participant, update_currency, reads, writes in Hrun.
  run_inv Hrun. guards. destruct a1 as [[[lock consumed] joined] pool1]. run_inv Hrun.
  apply (leave_pool_ok _ _ _ _ _ _ _ _ _ Hinv) in Hm1 as (Hsub & Hout & Hlk & Hcons); [|lia].
  apply enter_pool_ok in Hm2 as (Ho & Hel & Hlen'); [|by apply (pool_inv_sublist _ _ _ Hsub Hinv)].
  split; [exact Hd|]. split; cbn [storage currency set_storage set_currency set_Participants set_CourtPool CourtPool Participants].
  - pose proof (pool_inv_participant pool1 _ who (mk_ParticipantInfo amount lock None ds)
      (pool_inv_sublist _ _ _ Hsub Hinv) Hout ltac:(cbn; lia)) as [_ Hi Hl].
    split; [done| |done]. intros y [->|Hy]%Hel; [|by apply Hi].
    eexists. cbn. rewrite lookup_insert_eq. split; [done|]. cbn. split; [done|split; [done|lia]].
  - done.
  - intros w. destruct (cur_set_lock_spec LockId who amount (currency s)) as [_ Hset]. rewrite Hset.
    unfold stake_of. case_decide as Hc.
    + injection Hc as <-. by rewrite lookup_insert_eq.
    + rewrite lookup_insert_ne by congruence. apply Hlock.
Qed.

(** *** Leaving *)

Lemma prepare_exit_sound now origin (s s' : St) u :
  court_sound s → prepare_exit_court now origin s = (Ok u, s') → court_sound s'.
Proof.
  intros [Hd [Hinv Hlen Hlock]] Hrun. unfold prepare_exit_court, deposit_event, participant, put_participant, reads, writes in Hrun.
  run_inv Hrun. guards. pose proof (pool_locks _ _ Hinv _ _ Hm) as Hl.
  assert (∃ pool1, s0 = set_storage (set_CourtPool pool1 (storage s)) s ∧ sublist pool1 (CourtPool (storage s)) ∧
    outside a pool1) as (pool1 & -> & Hsub & Hout).
  { destruct a2 as [[i x]|]; [run_inv Hm2|apply ret_ok_inv in Hm2 as [_ <-]].
    - apply get_pool_item_some in Hm1 as [Hx Hk]. injection Hk as Hk1 Hk2. eexists. split; [reflexivity|].
      split; [by eapply vec_remove_sublist|]. rewrite <- Hk2. by eapply vec_remove_outside.
    - exists (CourtPool (storage s)). split; [by destruct s as [? ? ? []]|]. split; [done|].
      by eapply get_pool_item_none. }
  split; [exact Hd|]. split; cbn.
  - apply pool_inv_participant; [by eapply pool_inv_sublist|done|done].
  - apply sublist_length in Hsub. lia.
  - intros w. rewrite Hlock. unfold stake_of. destruct (decide (a = w)) as [<-|]; [|by rewrite lookup_insert_ne].
    by rewrite lookup_insert_eq, Hm.
Qed.

Lemma exit_sound now origin who (s s' : St) u :
  court_sound s → exit_court now origin who s = (Ok u, s') → court_sound s'.
Proof.
  intros [Hd [Hinv Hlen Hlock]] Hrun.
  unfold exit_court, deposit_event, participant, put_participant, update_currency, reads, writes in Hrun.
  run_inv Hrun. guards. pose proof (pool_locks _ _ Hinv _ _ Hm) as Hl.
  assert (outside who (CourtPool (storage s))) as Hout.
  { intros x Hx <-. destruct (pool_items _ _ Hinv x Hx) as (p & Hp & _ & He & _). congruence. }
  destruct (Z.eqb_spec (active_lock a0) 0); run_inv Hm2; (split; [exact Hd|]); split; cbn; try done.
  - by apply pool_inv_delete.
  - intros w. destruct (cur_remove_lock_spec LockId who (currency s)) as [_ Hset]. rewrite Hset.
    unfold stake_of. case_decide as Hc; [injection Hc as <-; by rewrite lookup_delete_eq|].
    rewrite lookup_delete_ne by congruence. apply Hlock.
  - apply pool_inv_participant; [done..|cbn; lia].
  - intros w. destruct (cur_set_lock_spec LockId who (active_lock a0) (currency s)) as [_ Hset]. rewrite Hset.
    unfold stake_of. case_decide as Hc; [injection Hc as <-; by rewrite lookup_insert_eq|].
    rewrite lookup_insert_ne by congruence. apply Hlock.
Qed.

(** *** Drawing *)

(** The accounts, their stakes and locks, whatever happens to active locks. *)
Definition same_stakes (s s' : St) : Prop :=
  (∀ who, stake_of (Participants (storage s')) who = stake_of (Participants (storage s)) who) ∧
  same_locks (currency s) (currency s').
#[local] Instance same_stakes_preorder : PreOrder same_stakes.
Proof.
  split; [by intros s|]. intros s1 s2 s3 [H12 L12] [H23 L23].
  split; [intros who; by rewrite H23|by transitivity (currency s2)].
Qed.
Definition same_people (s s' : St) : Prop :=
  Participants (storage s') = Participants (storage s) ∧ same_locks (currency s) (currency s').
#[local] Instance same_people_framed : Framed same_people.
Proof.
  split; [|by intros s s' (_ & ? & _ & ?)]. split; [by intros s|].
  intros s1 s2 s3 [H12 L12] [H23 L23]. split; [congruence|by transitivity (currency s2)].
Qed.

Lemma select_section_end_pool now cum e pool sel inv (s s' : St) acc :
  pool_inv pool (Participants (storage s)) →
  select_section_end now cum e (pool, sel, inv) s = (Ok acc, s') →
  pool_inv acc.1.1 (Participants (storage s')) ∧ length acc.1.1 = length pool ∧ same_stakes s s'.
Proof.
  pose proof min_juror_stake_range as Hmin. intros Hinv Hrun. unfold select_section_end in Hrun.
  destruct (pool !! _) as [x|] eqn:Hx; [|by apply ret_ok_inv in Hrun as [<- <-]].
  apply bind_ok_inv in Hrun as (r & s1 & Hadd & Hrun). apply bind_ok_inv in Hrun as (kept & s2 & Hk & Hrun).
  apply bind_ok_inv in Hrun as (u & s3 & Hlock & [<- <-]%ret_ok_inv).
  assert (s2 = s1) as -> by (destruct r as [?|[|]]; [by apply ret_ok_inv in Hk as [_ <-]..|done]).
  pose proof (framed_add_to_selections same_people now sel (pi_participant x)
    (Z.min (saturating_sub (pi_stake x) (consumed_stake x)) MinJurorStake) s) as [Hpeople Hlocks].
  rewrite Hadd in Hpeople, Hlocks. cbn [snd] in Hpeople, Hlocks. cbn [fst snd].
  destruct (pool_items _ _ Hinv x (list_elem_of_lookup_2 _ _ _ Hx)) as (p & Hp & Hst & Hex & Hl).
  pose proof (pool_locks _ _ Hinv _ _ Hp) as Hl0.
  unfold add_active_lock, participant, reads in Hlock. rewrite gets_bind, Hpeople, Hp in Hlock.
  unfold put_participant, writes in Hlock. run_inv Hlock. cbn. rewrite Hpeople.
  split; [|split; [by rewrite length_insert|split]].
  - apply pool_inv_update; cbn; try done; unfold saturating_add, saturating_sub in *; lia.
  - intros w. cbn. unfold stake_of. destruct (decide (pi_participant x = w)) as [<-|];
      [by rewrite lookup_insert_eq, Hp|by rewrite lookup_insert_ne].
  - done.
Qed.

Lemma select_section_ends_pool now cum ends : ∀ pool sel inv (s s' : St) acc,
  pool_inv pool (Participants (storage s)) →
  select_section_ends now cum ends (pool, sel, inv) s = (Ok acc, s') →
  pool_inv acc.1.1 (Participants (storage s')) ∧ length acc.1.1 = length pool ∧ same_stakes s s'.
Proof.
  induction ends as [|e ends IH]; intros pool sel inv s s' acc Hinv; cbn [select_section_ends].
  { intros [<- <-]%ret_ok_inv. done. }
  intros (acc1 & s1 & Hone & Hrest)%bind_ok_inv. destruct acc1 as [[pool1 sel1] inv1].
  apply (select_section_end_pool _ _ _ _ _ _ _ _ _ Hinv) in Hone as (Hinv1 & Hlen1 & Hs1). cbn in *.
  apply (IH _ _ _ _ _ _ Hinv1) in Hrest as (Hinv2 & Hlen2 & Hs2).
  split; [done|]. split; [lia|by transitivity s1].
Qed.

Lemma remove_indices_sublist idx : ∀ pool pool', remove_indices idx pool = Ok pool' → sublist pool' pool.
Proof.
  induction idx as [|i idx IH]; intros pool pool'; cbn [remove_indices]; [by intros [= ->]|].
  intros (pool1 & Hv & Hr)%bindR_ok_inv. transitivity pool1; [by apply IH|by eapply vec_remove_sublist].
Qed.

Lemma choose_multiple_sound now w (s s' : St) ds :
  court_sound s → choose_multiple_weighted now w s = (Ok ds, s') → pool_sound s'.
Proof.
  intros [_ [Hinv Hlen Hlock]] Hrun. unfold choose_multiple_weighted, reads in Hrun. rewrite gets_bind in Hrun.
  apply bind_ok_inv in Hrun as (u & s0 & [_ ->]%ensure_ok_inv & Hrun).
  apply bind_ok_inv in Hrun as (ends & s1 & Hends & Hrun).
  pose proof (framed_section_ends same_people now (Z.to_nat w) (pool_unconsumed_stake (CourtPool (storage s))) s) as [Hp Hl].
  rewrite Hends in Hp, Hl. cbn [snd] in Hp, Hl.
  unfold get_selections in Hrun. apply bind_ok_inv in Hrun as (selected & s2 & Hsel & Hrun).
  apply bind_ok_inv in Hsel as ([[pool1 sel] inv] & s3 & Hloop & Hsel). unfold writes in Hrun. run_inv Hsel. run_inv Hrun.
  apply select_section_ends_pool in Hloop as (Hinv1 & Hlen1 & Hs1 & Hl1); [|by rewrite Hp].
  cbn in *. apply remove_indices_sublist in Hm as Hsub. split; cbn.
  - by eapply pool_inv_sublist.
  - apply sublist_length in Hsub. lia.
  - intros who. by rewrite Hl1, Hl, Hlock, Hs1, Hp.
Qed.

Lemma select_participants_keeps now n : respects_ok keeps_sound (select_participants (C := C) (R := R) now n).
Proof.
  intros s ds s' Hrun Hs. split.
  - pose proof (respects_select_participants_draws now n s (proj1 Hs)) as Hd. by rewrite Hrun in Hd.
  - unfold select_participants in Hrun. apply bind_ok_inv in Hrun as (ds' & s1 & Hc & [_ <-]%ret_ok_inv).
    by eapply choose_multiple_sound.
Qed.

(** *** Releasing locks *)

Lemma release_lock_keeps d : 0 ≤ slashable d → respects keeps_sound (release_lock (C := C) (R := R) (L := L) d).
Proof.
  intros Hsl s [Hd [Hinv Hlen Hlock]]. unfold release_lock, participant, reads. rewrite gets_bind.
  destruct (Participants (storage s) !! court_participant d) as [p|] eqn:Hp; [|done].
  pose proof (pool_locks _ _ Hinv _ _ Hp) as Hl. split; [exact Hd|]. split; cbn.
  - apply (pool_inv_lower _ _ _ p); try done. cbn. unfold saturating_sub. lia.
  - done.
  - intros w. rewrite Hlock. unfold stake_of. destruct (decide (court_participant d = w)) as [<-|];
      [by rewrite lookup_insert_eq, Hp|by rewrite lookup_insert_ne].
Qed.
Lemma draws_slashable_nonneg ds d : draws_sound ds → d ∈ ds → 0 ≤ slashable d.
Proof. intros [_ Hf] Hd. rewrite Forall_forall in Hf. apply (Hf d Hd). Qed.
Lemma unlock_keeps ds : draws_sound ds → respects keeps_sound (unlock_participants_from_last_draw (C := C) (R := R) (L := L) ds).
Proof.
  intros Hds. apply respects_for_each; [typeclasses eauto|]. intros d Hd. apply release_lock_keeps.
  by eapply draws_slashable_nonneg.
Qed.
Lemma reassign_draws_keeps c ds : ∀ m, (∀ d, d ∈ ds → 0 ≤ slashable d) →
  respects keeps_sound (reassign_draws (C := C) (R := R) (L := L) c ds m).
Proof.
  induction ds as [|d ds IH]; intros m Hds; cbn [reassign_draws]; [respects|].
  apply respects_bind; [typeclasses eauto|apply release_lock_keeps, Hds; by left|]. intros _.
  apply respects_bind; [typeclasses eauto|respects|]. intros m'. apply IH. intros d' Hd'. apply Hds. by right.
Qed.

(** The draws that a call reads are sound. *)
Lemma keeps_read_draws {B} c (k : list Draw → Store St B) :
  (∀ ds, draws_sound ds → respects keeps_sound (k ds)) → respects keeps_sound (reads (draws_of c) ≫= k).
Proof. intros Hk s Hs. unfold reads. rewrite gets_bind. apply Hk; [|done]. apply draws_sound_of, Hs. Qed.
Lemma keeps_put_draws c ds : draws_sound ds → respects keeps_sound (put_draws (C := C) (R := R) (L := L) c ds).
Proof. intros Hds s [Hd [Hi Hlen Hl]]. split; [|by split]. apply (respects_put_draws c ds Hds s Hd). Qed.
Lemma keeps_remove_draws c : respects keeps_sound (remove_draws (C := C) (R := R) (L := L) c).
Proof. intros s [Hd [Hi Hlen Hl]]. split; [|by split]. apply (respects_remove_draws c s Hd). Qed.
#[local] Hint Resolve unlock_keeps keeps_put_draws keeps_remove_draws : respects.

(** *** Rounds *)

(** A step that touches neither the pool nor the participants. *)
Lemma keeps_step {A} (m : Store St A) : respects keeps_sound m → respects_ok keeps_sound m.
Proof. apply respects_ok_intro. Qed.

Lemma select_then {B} now n (k : list Draw → Store St B) :
  (∀ ds, draws_sound ds → respects_ok keeps_sound (k ds)) →
  respects_ok keeps_sound (select_participants now n ≫= k).
Proof.
  intros Hk. apply respects_ok_bind_run; [typeclasses eauto|]. intros s ds s1 Hsel.
  split; [by eapply select_participants_keeps|]. apply Hk. by eapply select_participants_sound.
Qed.
Lemma new_round_keeps now c court n old :
  draws_sound old → respects_ok keeps_sound (new_round (C := C) (R := R) now c court n old).
Proof. intros Hold. apply select_then. intros ds Hds. apply keeps_step. respects. Qed.
Lemma on_dispute_keeps now id m : respects_ok keeps_sound (on_dispute (C := C) (R := R) now id m).
Proof.
  unfold on_dispute.
  do 3 (apply respects_ok_bind; [typeclasses eauto|apply keeps_step; respects|intros ?]).
  apply select_then. intros ds Hds. apply keeps_step. respects.
Qed.

Lemma read_draws_then {B} c (k : list Draw → Store St B) :
  (∀ ds, draws_sound ds → respects_ok keeps_sound (k ds)) → respects_ok keeps_sound (reads (draws_of c) ≫= k).
Proof.
  intros Hk s y s' Hrun Hs. unfold reads in Hrun. rewrite gets_bind in Hrun.
  by apply (Hk _ (draws_sound_of s c (proj1 Hs)) s y s' Hrun).
Qed.
Lemma appeal_keeps now origin c : respects keeps_sound (appeal (C := C) (R := R) now origin c).
Proof.
  apply respects_transactional_ok; [typeclasses eauto|].
  do 7 (apply respects_ok_bind; [typeclasses eauto|apply keeps_step; respects|intros ?]).
  apply read_draws_then. intros old Hold.
  do 2 (apply respects_ok_bind; [typeclasses eauto|apply keeps_step; respects|intros ?]).
  apply respects_ok_bind; [typeclasses eauto| |intros ?; apply keeps_step; respects].
  destruct (_ <? _); [|apply keeps_step; respects].
  apply respects_ok_bind; [typeclasses eauto|by apply new_round_keeps|intros ?; apply keeps_step; respects].
Qed.

Lemma reassign_keeps origin c : respects keeps_sound (reassign_court_stakes (C := C) (R := R) origin c).
Proof.
  apply respects_transactional; [typeclasses eauto|].
  do 3 (apply respects_bind; [typeclasses eauto|respects|intros ?]).
  apply keeps_read_draws. intros ds Hds.
  apply respects_bind; [typeclasses eauto| |intros ?; respects].
  apply reassign_draws_keeps. intros d. by apply draws_slashable_nonneg.
Qed.

(** Votes touch only draws. *)
Lemma vote_keeps (m : Store St unit) :
  respects keeps_draws (transactional m) →
  (∀ s u s', m s = (Ok u, s') → pool_sound s → pool_sound s') → respects keeps_sound (transactional m).
Proof.
  intros Hd Hm s [Hs Hp]. split; [by apply Hd|]. unfold transactional.
  destruct (m s) as [[u|e] s'] eqn:Hr; [by eapply Hm|done].
Qed.

(** Joining checks the balance, and then the transfer of the lock. *)
Lemma join_keeps now origin amount : respects keeps_sound (join_court (C := C) (R := R) now origin amount).
Proof.
  apply respects_transactional_ok; [typeclasses eauto|].
  apply respects_ok_bind; [typeclasses eauto|apply keeps_step; respects|intros who].
  apply respects_ok_bind; [typeclasses eauto| |intros ?; apply keeps_step; respects].
  intros s u s' Hrun Hs. by eapply do_join_sound.
Qed.
Lemma delegate_keeps now origin amount ds : respects keeps_sound (delegate (C := C) (R := R) now origin amount ds).
Proof.
  apply respects_transactional_ok; [typeclasses eauto|].
  do 5 (apply respects_ok_bind; [typeclasses eauto|apply keeps_step; respects|intros ?]). cbv zeta.
  do 2 (apply respects_ok_bind; [typeclasses eauto|apply keeps_step; respects|intros ?]).
  apply respects_ok_bind; [typeclasses eauto| |intros ?; apply keeps_step; respects].
  intros s u s' Hrun Hs. by eapply do_join_sound.
Qed.

(** (C11) The pool stays ordered by stake and account and within its bound; each of its
    items belongs to a participant with the same stake who has not prepared an exit, and
    has consumed at least what the participant has locked in courts and at most the
    stake; the lock of every account on the ledger is its stake. Every call, hook and
    dispute callback keeps this, whether it succeeds or fails. *)
Theorem court_pool_sound now call (s s' : St) r
    (Hdraws : courts_sound s) (Hs : pool_sound s) (Hrun : dispatch now call s = (r, s')) : pool_sound s'.
Proof.
  enough (respects keeps_sound (dispatch (C := C) (R := R) now call)) as Hk.
  { specialize (Hk s (conj Hdraws Hs)) as [_ Hp]. by rewrite Hrun in Hp. }
  clear s s' r Hrun Hdraws Hs. destruct call; cbn [dispatch].
  - apply join_keeps.
  - apply delegate_keeps.
  - intros s Hs. destruct (prepare_exit_court now origin s) as [[u|e] s'] eqn:Hr.
    + by eapply prepare_exit_sound.
    + apply transactional_err in Hr as ->. exact Hs.
  - intros s Hs. destruct (exit_court now origin who s) as [[u|e] s'] eqn:Hr.
    + by eapply exit_sound.
    + apply transactional_err in Hr as ->. exact Hs.
  - apply vote_keeps; [apply vote_draws|]. intros s u s' Hrun [Hi Hlen Hl]. run_vote Hrun. by split.
  - apply vote_keeps; [apply denounce_draws|]. intros s u s' Hrun [Hi Hlen Hl]. run_vote Hrun. by split.
  - apply vote_keeps; [apply reveal_draws|]. intros s u s' Hrun [Hi Hlen Hl]. run_vote Hrun. by split.
  - apply appeal_keeps.
  - apply reassign_keeps.
  - respects.
  - respects.
  - apply respects_transactional_ok; [typeclasses eauto|]. apply on_dispute_keeps.
  - unfold forget, on_resolution. apply respects_bind; [typeclasses eauto| |intros; respects].
    do 3 (apply respects_bind; [typeclasses eauto|respects|intros ?]).
    apply keeps_read_draws. intros ds Hds. respects.
  - unfold forget. respects.
  - unfold forget. respects.
  - unfold forget, on_global_dispute. apply respects_bind; [typeclasses eauto| |intros; respects].
    do 2 (apply respects_bind; [typeclasses eauto|respects|intros ?]). destruct x0 as [c|]; [|respects].
    do 2 (apply respects_bind; [typeclasses eauto|respects|intros ?]).
    apply keeps_read_draws. intros ds Hds. respects.
  - unfold clear. do 2 (apply respects_bind; [typeclasses eauto|respects|intros ?]).
    apply keeps_read_draws. intros ds Hds. respects.
Qed.
End Pools.
