(* ===== verification/CourtRounds.v ===== *)
(** * Court: rounds and the schedule of resolutions

    Which calls of [Court] change the rounds of a court, the maps between courts and
    markets and the schedule, and how. *)
From S2P Require Import Prelude BTree Types Errors Currencies MarketCommons Disputes CourtTypes Court CourtSteps.

Section Rounds.
Context {C R L Rng : Type} `{MarketCommonsPalletApi C, DisputeResolutionApi R, Currency L,
  !ImbalanceCurrency L, !CourtConfig L Rng}.
Abbreviation St := (State C R L).

(** The appeals and the phases of a court. *)
Definition round (i : CourtInfo) : list AppealInfo * RoundTiming := (appeals i, round_ends i).
Definition rounds (s : Storage) (c : CourtId) : option (list AppealInfo * RoundTiming) := round <$> Courts s !! c.

Record same_rounds (s s' : St) : Prop := {
  sr_resolution : resolution s' = resolution s;
  sr_courts c : rounds (storage s') c = rounds (storage s) c;
  sr_court_of : MarketIdToCourtId (storage s') = MarketIdToCourtId (storage s);
  sr_market_of : CourtIdToMarketId (storage s') = CourtIdToMarketId (storage s);
  sr_next : NextCourtId (storage s') = NextCourtId (storage s);
}.
#[export] Instance same_rounds_preorder : PreOrder same_rounds.
Proof.
  split; [by split|]. intros s1 s2 s3 [R1 C1 M1 N1 X1] [R2 C2 M2 N2 X2].
  split; [congruence|intros c; by rewrite C2|congruence..].
Qed.

(** ** The walk *)

(** The rounds are those of the reference state [s0]. *)
Context (s0 : St).
Definition frozen (s s' : St) : Prop := same_rounds s0 s → same_rounds s0 s'.
#[local] Instance frozen_preorder : PreOrder frozen.
Proof. split; [by intros s Hs|]. intros s1 s2 s3 H12 H23 Hs. by apply H23, H12. Qed.

Lemma frozen_same s s' : same_rounds s s' → frozen s s'.
Proof. intros Hs Hf. by transitivity s. Qed.
Lemma fz_reads {A} (f : Storage → A) : respects frozen (reads f).
Proof. intros s. cbn. reflexivity. Qed.
Lemma fz_writes f :
  (∀ s, Courts (f s) = Courts s ∧ MarketIdToCourtId (f s) = MarketIdToCourtId s ∧
    CourtIdToMarketId (f s) = CourtIdToMarketId s ∧ NextCourtId (f s) = NextCourtId s) →
  respects frozen (writes f).
Proof.
  intros Hf s. apply frozen_same. destruct (Hf (storage s)) as (H1' & H2' & H3' & H4').
  split; cbn; try done. intros c. unfold rounds. by rewrite H1'.
Qed.
Lemma fz_event e : respects frozen (deposit_event e).
Proof. intros s. by apply frozen_same. Qed.
Lemma fz_currency f : respects frozen (update_currency f).
Proof. intros s. by apply frozen_same. Qed.
Lemma fz_zoom_currency {A} (m : Store L A) : respects frozen (zoom currency set_currency m).
Proof. apply respects_zoom. intros s. by apply frozen_same. Qed.
#[local] Hint Resolve fz_reads fz_event fz_currency fz_zoom_currency : respects.
#[local] Hint Extern 1 (respects frozen (writes _)) => (apply fz_writes; intros; done) : respects.

Lemma fz_get_court {B} c (k : CourtInfo → Store St B) :
  (∀ court, rounds (storage s0) c = Some (round court) → respects frozen (k court)) →
  respects frozen (get_court c ≫= k).
Proof.
  intros Hk s Hs. destruct (get_court c s) as [[court|e] s1] eqn:Hg.
  - rewrite (bind_ok _ _ _ _ _ Hg). unfold get_court, reads in Hg. run_inv Hg.
    apply Hk; [|done]. rewrite <- (sr_courts _ _ Hs). unfold rounds. by rewrite Hg.
  - rewrite (bind_err _ _ _ _ _ Hg). unfold get_court, reads in Hg. rewrite gets_bind in Hg.
    destruct (Courts (storage s) !! c); injection Hg; [done|by intros -> _].
Qed.
Lemma fz_put_court c court :
  rounds (storage s0) c = Some (round court) → respects frozen (put_court c court).
Proof.
  intros Hc s Hs. destruct Hs as [Hr Hco Hm Hn Hx]. split; cbn; try done. intros c'.
  unfold rounds in *. cbn. rewrite lookup_insert. case_decide as He; [subst c'; by rewrite Hc|apply Hco].
Qed.

Lemma fz_get c : respects frozen (get_court c).
Proof. unfold get_court. respects. Qed.
Lemma fz_participant who : respects frozen (participant who).
Proof. unfold participant. respects. Qed.
Lemma fz_put_participant who p : respects frozen (put_participant who p).
Proof. unfold put_participant. respects. Qed.
Lemma fz_put_draws c ds : respects frozen (put_draws c ds).
Proof. unfold put_draws. respects. Qed.
Lemma fz_remove_draws c : respects frozen (remove_draws c).
Proof. unfold remove_draws. respects. Qed.
Lemma fz_market_of id : respects frozen (market_of id).
Proof. unfold market_of. respects. Qed.
Lemma fz_court_id_of id : respects frozen (court_id_of id).
Proof. unfold court_id_of. respects. Qed.
#[local] Hint Resolve fz_get fz_participant fz_put_participant fz_put_draws fz_remove_draws fz_market_of fz_court_id_of : respects.
Lemma fz_winner c ds : respects frozen (get_latest_winner_vote_item c ds).
Proof. unfold get_latest_winner_vote_item. respects. Qed.
Lemma fz_rng now : respects frozen (rng now).
Proof. unfold rng. respects. Qed.
#[local] Hint Resolve fz_winner fz_rng : respects.

Lemma fz_release d : respects frozen (release_lock d).
Proof. unfold release_lock. respects. Qed.
Lemma fz_unlock ds : respects frozen (unlock_participants_from_last_draw ds).
Proof. apply respects_for_each; [typeclasses eauto|]. intros d _. apply fz_release. Qed.
Lemma fz_do_join now who amount ds : respects frozen (do_join_court now who amount ds).
Proof. unfold do_join_court. respects. Qed.
#[local] Hint Resolve fz_release fz_unlock fz_do_join : respects.

Lemma fz_select_ends now cum ends acc : respects frozen (select_section_ends now cum ends acc).
Proof.
  revert acc. induction ends as [|e ends IH]; intros acc; cbn [select_section_ends]; [respects|].
  apply respects_bind; [typeclasses eauto| |intros; apply IH].
  unfold select_section_end, add_active_lock, add_to_selections, get_valid_delegated_juror. respects.
Qed.
#[local] Hint Resolve fz_select_ends : respects.
Lemma fz_select_participants now n : respects frozen (select_participants now n).
Proof.
  unfold select_participants, choose_multiple_weighted, get_n_random_section_ends, get_selections. respects.
Qed.
Lemma fz_reassign_draws c ds m : respects frozen (reassign_draws c ds m).
Proof. revert m. induction ds as [|d ds IH]; intros m; cbn [reassign_draws]; unfold handle_vote; respects. Qed.
Lemma fz_mint_shares now pool t i mint : respects frozen (mint_shares now pool t i mint).
Proof. revert mint. induction pool as [|x pool IH]; intros mint; cbn [mint_shares]; respects. Qed.
Lemma fz_settle_appeals o l amt : respects frozen (settle_appeals o l amt).
Proof. revert amt. induction l as [|x l IH]; intros amt; cbn [settle_appeals]; respects. Qed.
Lemma fz_check_outcome c v : respects frozen (check_outcome c v).
Proof. unfold check_outcome. respects. Qed.
#[local] Hint Resolve fz_select_participants fz_reassign_draws fz_mint_shares fz_settle_appeals fz_check_outcome : respects.

(** Calls that change a round. *)
Definition changes_rounds (c : Call) : bool :=
  match c with
  | Call_appeal _ _ | Api_on_dispute _ _ | Api_on_global_dispute _ _ | Api_clear _ _ => true
  | _ => false
  end.

Lemma fz_on_resolution id m : respects frozen (on_resolution id m).
Proof.
  unfold on_resolution. do 2 (apply respects_bind; [typeclasses eauto|respects|intros ?]).
  apply fz_get_court. intros court Hc.
  do 3 (apply respects_bind; [typeclasses eauto|respects|intros ?]).
  apply respects_bind; [typeclasses eauto|by apply fz_put_court|intros _]. respects.
Qed.
Lemma fz_exchange id m o amt : respects frozen (exchange id m o amt).
Proof. unfold exchange. respects. Qed.
Lemma fz_has_failed now id m : respects frozen (has_failed now id m).
Proof. unfold has_failed. respects. Qed.

Lemma fz_dispatch now c : changes_rounds c = false → respects frozen (dispatch now c).
Proof.
  intros Hc. destruct c; try discriminate Hc; cbn [dispatch].
  - unfold join_court. respects.
  - unfold delegate. respects.
  - unfold prepare_exit_court. respects.
  - unfold exit_court. respects.
  - unfold vote. respects.
  - unfold denounce_vote. respects.
  - unfold reveal_vote. respects.
  - unfold reassign_court_stakes. apply respects_transactional; [typeclasses eauto|].
    apply respects_bind; [typeclasses eauto|respects|intros ?]. apply fz_get_court. intros court Hc'.
    do 4 (apply respects_bind; [typeclasses eauto|respects|intros ?]).
    apply respects_bind; [typeclasses eauto|by apply fz_put_court|intros _]. respects.
  - unfold set_inflation. respects.
  - unfold on_initialize, handle_inflation. respects.
  - unfold forget. pose proof (fz_on_resolution market_id m). respects.
  - unfold forget. pose proof (fz_exchange market_id m). respects.
  - unfold forget. pose proof (fz_has_failed now market_id m). respects.
Qed.
End Rounds.

(** ** The calls that change rounds *)
Section Effects.
Context {C R L Rng : Type} `{MarketCommonsPalletApi C, DisputeResolutionApi R, Currency L,
  !ImbalanceCurrency L, !CourtConfig L Rng}.
Abbreviation St := (State C R L).

Lemma frozen_run {A} (m : Store St A) s r s' : (∀ s0, respects (frozen s0) m) → m s = (r, s') → same_rounds s s'.
Proof. intros Hm Hr. pose proof (respects_run _ _ _ _ _ (Hm s) Hr) as Hf. apply Hf. reflexivity. Qed.

(** The calls that keep the rounds, whatever their result. *)
Lemma dispatch_same_rounds now c s r s' :
  changes_rounds c = false → dispatch now c s = (r, s') → same_rounds s s'.
Proof. intros Hc. apply frozen_run. intros s0. by apply fz_dispatch. Qed.

(** A new court is scheduled at the end of its appeal phase. *)
Lemma on_dispute_rounds now id m (s s' : St) u :
  on_dispute now id m s = (Ok u, s') →
  let c := NextCourtId (storage s) in
  ∃ court n,
    add_auto_resolve id (rt_appeal (round_ends court)) (resolution s) = (Ok n, resolution s') ∧
    (∀ c', rounds (storage s') c' = if decide (c = c') then Some (round court) else rounds (storage s) c') ∧
    MarketIdToCourtId (storage s') = <[id := c]> (MarketIdToCourtId (storage s)) ∧
    CourtIdToMarketId (storage s') = <[c := id]> (CourtIdToMarketId (storage s)) ∧
    NextCourtId (storage s') = c + 1.
Proof.
  intros Hrun c. unfold on_dispute in Hrun.
  apply bind_ok_inv in Hrun as (v & s1 & Hlift & Hrun). run_inv Hlift.
  unfold reads in Hrun. rewrite gets_bind in Hrun.
  apply bind_ok_inv in Hrun as (next & s1 & Hnext & Hrun). run_inv Hnext.
  apply bind_ok_inv in Hrun as (ds & s2 & Hsel & Hrun).
  apply frozen_run in Hsel; [|intros; apply fz_select_participants].
  rewrite gets_bind in Hrun. cbv zeta in Hrun.
  set (court := CourtInfo_new _ _) in Hrun.
  apply bind_ok_inv in Hrun as (n & s3 & Hadd & Hrun). run_inv Hadd.
  unfold put_draws, put_court, deposit_event, writes in Hrun. run_inv Hrun.
  destruct Hsel as [Hr Hc Hm Hcm Hn]. rewrite Hr in Hadd. exists court, n. cbn. split; [done|].
  subst c. rewrite Hm, Hcm. split; [|split; [done|split; [done|]]].
  - intros c'. specialize (Hc c'). unfold rounds in *. cbn. rewrite lookup_insert.
    case_decide as He; [done|exact Hc].
  - destruct (_ <=? _); [|done]. by injection Hnext as <-.
Qed.

(** A global dispute closes the court of the market; the schedule is left alone. *)
Lemma on_global_dispute_rounds id m (s s' : St) items :
  on_global_dispute id m s = (Ok items, s') →
  resolution s' = resolution s ∧
  MarketIdToCourtId (storage s') = MarketIdToCourtId (storage s) ∧
  CourtIdToMarketId (storage s') = CourtIdToMarketId (storage s) ∧
  NextCourtId (storage s') = NextCourtId (storage s) ∧
  ∀ c, rounds (storage s') c =
    if decide (MarketIdToCourtId (storage s) !! id = Some c) then None else rounds (storage s) c.
Proof.
  intros Hrun. unfold on_global_dispute in Hrun.
  apply bind_ok_inv in Hrun as (v & s1 & Hlift & Hrun). run_inv Hlift.
  unfold reads in Hrun. rewrite gets_bind in Hrun.
  destruct (MarketIdToCourtId (storage s) !! id) as [c|] eqn:Hc.
  2:{ run_inv Hrun. do 4 (split; [done|]). intros c. by rewrite decide_False by done. }
  apply bind_ok_inv in Hrun as (court & s1 & Hget & Hrun).
  unfold get_court, reads in Hget. run_inv Hget.
  apply bind_ok_inv in Hrun as (r & s1 & Hr & Hrun). run_inv Hr.
  rewrite gets_bind in Hrun.
  apply bind_ok_inv in Hrun as (v' & s2 & Hun & Hrun).
  apply frozen_run in Hun; [|intros; apply fz_unlock].
  unfold remove_draws, remove_court, writes in Hrun. run_inv Hrun.
  destruct Hun as [Hres Hco Hm Hcm Hn]. cbn. do 4 (split; [done|]). intros c'. specialize (Hco c').
  unfold rounds in *. cbn. rewrite lookup_delete. case_decide as He.
  - subst c'. by rewrite decide_True.
  - rewrite decide_False by congruence. done.
Qed.
(** Except for the schedule the states agree as in [same_rounds]. *)
Definition rescheduled (r : R) (s s' : St) : Prop :=
  same_rounds (set_resolution r s) s'.

Lemma new_round_rounds now c court k old (s s' : St) court' :
  new_round now c court k old s = (Ok court', s') →
  appeals court' = appeals court ∧
  match CourtIdToMarketId (storage s) !! c with
  | Some id => ∃ r n, add_auto_resolve id (rt_appeal (round_ends court')) (resolution s) = (Ok n, r) ∧
      rescheduled r s s'
  | None => same_rounds s s'
  end.
Proof.
  intros Hrun. unfold new_round, reads in Hrun.
  apply bind_ok_inv in Hrun as (ds & s1 & Hsel & Hrun).
  apply frozen_run in Hsel; [|intros; apply fz_select_participants].
  rewrite gets_bind in Hrun. cbv zeta in Hrun. rewrite gets_bind, (sr_market_of _ _ Hsel) in Hrun.
  apply bind_ok_inv in Hrun as (v & s2 & Hadd & Hrun).
  apply bind_ok_inv in Hrun as (v1 & s3 & Hput & Hrun).
  apply frozen_run in Hput; [|intros; apply fz_put_draws].
  apply bind_ok_inv in Hrun as (v2 & s4 & Hun & [<- <-]%ret_ok_inv).
  apply frozen_run in Hun; [|intros; apply fz_unlock]. split; [done|].
  destruct (CourtIdToMarketId (storage s) !! c) as [id|].
  - apply bind_ok_inv in Hadd as (n & s2' & Hadd & [_ <-]%ret_ok_inv). run_inv Hadd.
    rewrite (sr_resolution _ _ Hsel) in Hadd. eexists _, _. split; [exact Hadd|].
    unfold rescheduled. transitivity s3; [|done]. etransitivity; [|exact Hput].
    destruct Hsel as [Hr Hc Hm Hcm Hn]. by split.
  - apply ret_ok_inv in Hadd as [_ <-]. transitivity s3; [|done]. by transitivity s1.
Qed.

(** The new round of an appeal, unless it is the last one. *)
Lemma started_rounds now c court new n old (s s2 : St) court' ends :
  ((if Z.of_nat n <? MaxAppeals then
      court ← new_round now c (set_appeals new court) n old; mret (court, Some (round_ends court))
    else mret (set_appeals new court, None)) : Store St _) s = (Ok (court', ends), s2) →
  length new = n →
  ∃ r, rescheduled r s s2 ∧
    match CourtIdToMarketId (storage s) !! c with
    | Some id =>
        (∃ k, add_auto_resolve id (rt_appeal (round_ends court')) (resolution s) = (Ok k, r)) ∨
        (MaxAppeals ≤ Z.of_nat (length (appeals court')) ∧ r = resolution s)
    | None => r = resolution s
    end.
Proof.
  intros Hst Hlen. destruct (Z.ltb_spec (Z.of_nat n) MaxAppeals) as [|Hlast].
  - apply bind_ok_inv in Hst as (court1 & s3 & Hnr & [[= <- <-] <-]%ret_ok_inv).
    apply new_round_rounds in Hnr as [_ Hnr].
    destruct (CourtIdToMarketId (storage s) !! c) as [id|].
    + destruct Hnr as (r & k & Hadd & Hr). exists r. split; [done|by left; exists k].
    + exists (resolution s). split; [|done]. destruct Hnr. by split.
  - apply ret_ok_inv in Hst as [He <-]. injection He as <- <-. exists (resolution s). split; [by split|].
    destruct (CourtIdToMarketId (storage s) !! c) as [id|]; [|done]. right. split; [|done]. cbn. lia.
Qed.

(** An appeal moves the market to the end of the new round, or, when it is the last
    one, off the schedule. *)
Lemma appeal_rounds now origin c (s s' : St) u :
  appeal now origin c s = (Ok u, s') →
  ∃ court court',
    rounds (storage s) c = Some (round court) ∧ Z.of_nat (length (appeals court)) < MaxAppeals ∧
    (∀ c', rounds (storage s') c' = if decide (c = c') then Some (round court') else rounds (storage s) c') ∧
    MarketIdToCourtId (storage s') = MarketIdToCourtId (storage s) ∧
    CourtIdToMarketId (storage s') = CourtIdToMarketId (storage s) ∧
    NextCourtId (storage s') = NextCourtId (storage s) ∧
    match CourtIdToMarketId (storage s) !! c with
    | Some id =>
        (∃ r n, add_auto_resolve id (rt_appeal (round_ends court')) (resolution s) = (Ok n, r) ∧
           resolution s' = (remove_auto_resolve id (rt_appeal (round_ends court)) r).2) ∨
        (MaxAppeals ≤ Z.of_nat (length (appeals court')) ∧
           resolution s' = (remove_auto_resolve id (rt_appeal (round_ends court)) (resolution s)).2)
    | None => resolution s' = resolution s
    end.
Proof.
  intros Hrun. unfold appeal in Hrun. apply transactional_ok_inv in Hrun.
  apply bind_ok_inv in Hrun as (who & s1 & Ho & Hrun). run_inv Ho.
  apply bind_ok_inv in Hrun as (court & s1 & Hget & Hrun).
  unfold get_court, reads in Hget. run_inv Hget. cbv zeta in Hrun.
  apply bind_ok_inv in Hrun as (v1 & s1 & Hmax & Hrun). run_inv Hmax.
  apply bind_ok_inv in Hrun as (can & s1 & Hcan & Hrun). run_inv Hcan.
  apply bind_ok_inv in Hrun as (v2 & s1 & Hcan & Hrun). run_inv Hcan.
  apply bind_ok_inv in Hrun as (chk & s1 & Hchk & Hrun). run_inv Hchk.
  apply bind_ok_inv in Hrun as (v3 & s1 & Hchk & Hrun). run_inv Hchk.
  apply bind_ok_inv in Hrun as (old & s1 & Hold & Hrun). unfold reads in Hold. run_inv Hold.
  apply bind_ok_inv in Hrun as (item & s1 & Hwin & Hrun).
  apply frozen_run in Hwin; [|intros; apply fz_winner].
  apply bind_ok_inv in Hrun as (new & s2 & Hnew & Hrun). run_inv Hnew.
  apply bind_ok_inv in Hrun as ([court' ends] & s2 & Hst & Hrun).
  apply started_rounds in Hst as (r & Hres & Hsched).
  2:{ destruct (_ <? _) in Hnew; [|done]. injection Hnew as <-. rewrite length_app. cbn. lia. }
  rewrite (sr_market_of _ _ Hwin), (sr_resolution _ _ Hwin) in Hsched.
  assert (rescheduled r s s2) as Hres' by (unfold rescheduled; etransitivity; [|exact Hres]; destruct Hwin; by split).
  clear Hres. rename Hres' into Hres.
  destruct Hres as [Hr Hco Hm Hcm Hn]. cbn in Hr, Hco, Hm, Hcm, Hn.
  unfold reads in Hrun. rewrite gets_bind, Hcm in Hrun.
  apply bind_ok_inv in Hrun as (v4 & s3 & Hrem & Hrun).
  assert (storage s3 = storage s2 ∧ resolution s3 =
    match CourtIdToMarketId (storage s) !! c with
    | Some id => (remove_auto_resolve id (rt_appeal (round_ends court)) (resolution s2)).2
    | None => resolution s2
    end) as [Hs3 Hr3].
  { destruct (CourtIdToMarketId (storage s) !! c) as [id|]; [|by apply ret_ok_inv in Hrem as [_ <-]].
    apply bind_ok_inv in Hrem as (n & s4 & Hrem & [_ <-]%ret_ok_inv). run_inv Hrem.
    cbn in Hrem |- *. by rewrite Hrem. }
  apply bind_ok_inv in Hrun as (v5 & s4 & Hres & Hrun). run_inv Hres.
  unfold put_court, deposit_event, writes in Hrun. run_inv Hrun.
  exists court, court'. unfold rounds at 1. rewrite Hget. split; [done|]. guards. split; [lia|].
  cbn. rewrite Hs3, Hr3, Hr. split; [|split; [done|split; [done|split; [done|]]]].
  - intros c'. specialize (Hco c'). unfold rounds in *. cbn. rewrite lookup_insert.
    case_decide as He; [done|exact Hco].
  - destruct (CourtIdToMarketId (storage s) !! c) as [id|]; [|done].
    destruct Hsched as [[n Hadd]|[Hlen ->]]; [left; by exists r, n|by right].
Qed.
End Effects.
