(* ===== verification/CourtExample.v ===== *)
(** * Court: runs

    A small configuration, the witnesses of the court theorems, and runs that show where
    the code departs from its intent. *)
From S2P Require Import Prelude BTree Types Errors Currencies Ledgers MarketCommons Disputes CourtTypes Court.
From S2P Require Import CourtSteps CourtDraws CourtVotes CourtPools.

Module CourtExample.

(** A generator that counts: the ranges start where they may, the first of a list is
    chosen, and shares are rounded down. *)
#[export] Instance config : CourtConfig NativeLedger Z := {
  AppealBond := 5; BlocksPerYear := 1000; VotePeriod := 10; AggregationPeriod := 10; AppealPeriod := 10;
  LockId := "ctlock"; court_reserve_id := "court"; reward_pot c := 900 + c; treasury_account_id := 800;
  InflationPeriod := 30; MaxAppeals := 2; MaxSelectedDraws := 126; MaxDelegations := 5;
  MaxCourtParticipants := 4; MaxYearlyInflation := 100; MinJurorStake := 10; RequestInterval := 15;
  slash_unbalanced amt l := l;
  hash_of juror item salt := 1000 * juror + salt;
  rng_of now nonce := now + nonce;
  gen_range lo hi g := (lo, g + 1);
  choose_index n g := 0%nat;
  perbill_mul_floor p x := p * x / 10 ^ 9;
  perquintill_from_rational x y := x * 10 ^ 18 / Z.max 1 y;
  perquintill_mul_floor p x := p * x / 10 ^ 18;
  perquintill_mul p x := p * x / 10 ^ 18;
}.
#[export] Instance config_laws : CourtConfigLaws NativeLedger Z.
Proof. split; cbn; try done; lia. Qed.

Definition trial : Market :=
  mk_Market Ztg 9 Permissionless 0 9 [] (MT_Categorical 3) (Block (mk_Range 0 100))
    (mk_Deadlines 0 0 0) Lmsr Disputed (Some (mk_Report 100 9 (Categorical 0))) None
    (Some MDM_Court) (mk_MarketBonds None None None None None None) None.

Abbreviation St := (CourtTypes.State MarketCommons.State MarketIdsPerDisputeBlock NativeLedger).
Definition funds : NativeLedger :=
  mk_NativeLedger (list_to_map [(1, 2000%N); (2, 2000%N); (3, 2000%N)]) ∅ ∅.
Definition genesis : St :=
  CourtTypes.mk_State
    (MarketCommons.mk_State {[ 0 := trial; 1 := trial ]} (Some 2) ∅) ∅ funds
    (mk_Storage [] ∅ 0 ∅ ∅ 0 ∅ ∅ 15 0) [].

(** Runs calls in a block and says whether all succeed. *)
Fixpoint run (calls : list (BlockNumber * Call)) (s : St) : bool * St :=
  match calls with
  | [] => (true, s)
  | (now, c) :: calls =>
      match dispatch now c s with
      | (Ok _, s) => run calls s
      | (Err _, s) => (false, s)
      end
  end.
Definition active (who : AccountId) (s : St) : option Balance := active_lock <$> Participants (storage s) !! who.
Definition pool_of (s : St) : list AccountId := pi_participant <$> CourtPool (storage s).

(** ** Witnesses *)

Definition two_jurors : St :=
  Eval vm_compute in (run [(1, Call_join_court (Some 1) 200); (1, Call_join_court (Some 2) 200)] genesis).2.
Definition in_court : St := Eval vm_compute in (run [(2, Api_on_dispute 0 trial)] two_jurors).2.
Definition voted : St :=
  Eval vm_compute in (run [(16, Call_vote (Some 1) 0 1007); (16, Call_vote (Some 2) 0 2008);
    (26, Call_reveal_vote (Some 1) 0 (VoteItem_Outcome (Categorical 1)) 7);
    (26, Call_reveal_vote (Some 2) 0 (VoteItem_Outcome (Categorical 2)) 8)] in_court).2.

Lemma get_winner_plurality_witness :
  get_winner (draws_of 0 (storage voted)) None = Some (VoteItem_Outcome (Categorical 1)).
Proof.
  destruct (get_winner_plurality (draws_of 0 (storage voted)) None) as (_ & Hw & _).
  { intros d Hd. unfold in_u32. vm_compute in Hd.
    repeat (apply elem_of_cons in Hd as [->|Hd]; [vm_compute; split; discriminate|]). by apply elem_of_nil in Hd. }
  apply Hw; [vm_compute; reflexivity|]. intros w Hr Hne. destruct (decide (w = VoteItem_Outcome (Categorical 2))) as [->|Hne2].
  - vm_compute. reflexivity.
  - exfalso. unfold revealed in Hr. cbn [draws_of] in Hr.
    change (existsb (votes_for w) (draws_of 0 (storage voted))) with
      (bool_decide (VoteItem_Outcome (Categorical 1) = w) || (bool_decide (VoteItem_Outcome (Categorical 2) = w) || false)) in Hr.
    rewrite !bool_decide_eq_false_2 in Hr by congruence. discriminate.
Defined.

Lemma get_n_random_section_ends_distinct_witness :
  ∃ ends, (get_n_random_section_ends 2 31 400 two_jurors).1 = Ok ends ∧ length ends = 31%nat.
Proof.
  destruct (get_n_random_section_ends_distinct 2 31 400 two_jurors
    (get_n_random_section_ends 2 31 400 two_jurors).2 (get_n_random_section_ends 2 31 400 two_jurors).1)
    as (ends & He & Hl & _); [split; vm_compute; discriminate|vm_compute; discriminate|by destruct (get_n_random_section_ends _ _ _ _)|].
  exists ends. exact (conj He Hl).
Defined.

Lemma choose_multiple_weighted_counts_witness :
  ∃ ds, (choose_multiple_weighted 2 31 two_jurors).1 = Ok ds ∧ zsum weight ds = 31 ∧ zsum slashable ds = 310.
Proof.
  destruct (choose_multiple_weighted_counts 2 31 two_jurors (choose_multiple_weighted 2 31 two_jurors).2
    (choose_multiple_weighted 2 31 two_jurors).1) as (_ & Hsl & Hall).
  - intros x Hx. repeat (apply elem_of_cons in Hx as [->|Hx]; [vm_compute; repeat split; discriminate|]). by apply elem_of_nil in Hx.
  - vm_compute. reflexivity.
  - split; vm_compute; discriminate.
  - by destruct (choose_multiple_weighted _ _ _).
  - destruct Hall as (ds & Hds & Hw).
    + intros x Hx. repeat (apply elem_of_cons in Hx as [->|Hx]; [vm_compute; reflexivity|]). by apply elem_of_nil in Hx.
    + vm_compute. discriminate.
    + exists ds. destruct (Hsl ds Hds) as [Hs _]. rewrite Hw in Hs. exact (conj Hds (conj Hw Hs)).
Defined.

Lemma genesis_courts : courts_sound genesis.
Proof. intros c ds Hc. done. Qed.
Lemma genesis_pool : pool_sound genesis.
Proof. split; [split; [constructor|by intros x ?%elem_of_nil|done]|done|done]. Qed.

Definition joined : St := Eval vm_compute in (run [(1, Call_join_court (Some 1) 400)] genesis).2.
Lemma joined_run : dispatch 1 (Call_join_court (Some 1) 400) genesis = (Ok tt, joined).
Proof. vm_compute. reflexivity. Qed.
Definition opened : St := Eval vm_compute in (run [(2, Api_on_dispute 0 trial)] joined).2.
Lemma opened_run : dispatch 2 (Api_on_dispute 0 trial) joined = (Ok tt, opened).
Proof. vm_compute. reflexivity. Qed.

Lemma court_votes_committed_witness : courts_sound opened ∧ length (draws_of 0 (storage opened)) = 1%nat.
Proof.
  split; [|vm_compute; reflexivity].
  refine (court_votes_committed 2 _ joined opened _ _ opened_run).
  exact (court_votes_committed 1 _ genesis joined _ genesis_courts joined_run).
Defined.

Lemma court_pool_sound_witness : pool_sound opened ∧ pool_of opened = [1] ∧ active 1 opened = Some 310.
Proof.
  split; [|split; vm_compute; reflexivity].
  refine (court_pool_sound 2 _ joined opened _ _ _ opened_run).
  - intros c ds Hc. vm_compute in Hc. discriminate.
  - exact (court_pool_sound 1 _ genesis joined _ genesis_courts genesis_pool joined_run).
Defined.

(** ** Observations *)

(** A juror who is drawn for two markets is released twice by the first of them: the
    resolution takes the slashable amounts off the active lock but keeps the draws, and
    [reassign_court_stakes] takes the amounts of the same draws off again. The second
    court still can slash 310, and nothing is locked for it. *)
Definition drawn_twice : St :=
  Eval vm_compute in (run [(1, Call_join_court (Some 1) 1000); (2, Api_on_dispute 0 trial);
    (2, Api_on_dispute 1 trial)] genesis).2.
Example resolution_unlocks_twice :
  let '(ok, s) := run [(46, Api_on_resolution 0 trial); (46, Call_reassign_court_stakes (Some 5) 0)] drawn_twice in
  active 1 drawn_twice = Some 620 ∧ ok = true ∧ active 1 s = Some 0 ∧
  zsum slashable (draws_of 1 (storage s)) = 310.
Proof. vm_compute. repeat split. Qed.

(** A delegator whose juror left: the sections of the delegator give no draw, but their
    stake is locked, and no later step releases it. The removal of invalid indices
    removes one index per section, so a juror who is not meant leaves the pool. *)
Definition juror_left : St :=
  Eval vm_compute in (run [(1, Call_join_court (Some 3) 500); (1, Call_delegate (Some 2) 20 [3]);
    (1, Call_join_court (Some 1) 400); (2, Call_prepare_exit_court (Some 3))] genesis).2.
Example invalid_delegator_removes_juror :
  let '(ok, s) := run [(3, Api_on_dispute 0 trial)] juror_left in
  pool_of juror_left = [2; 1] ∧ ok = true ∧ pool_of s = [] ∧
  (court_participant <$> draws_of 0 (storage s)) = [1] ∧ active 2 s = Some 20.
Proof. vm_compute. repeat split. Qed.
Example invalid_delegator_stays_locked :
  let '(ok, s) := run [(3, Api_on_dispute 0 trial); (46, Api_on_resolution 0 trial);
    (46, Call_reassign_court_stakes (Some 5) 0)] juror_left in
  ok = true ∧ draws_of 0 (storage s) = [] ∧ active 2 s = Some 20.
Proof. vm_compute. repeat split. Qed.
(** With the delegator at the end of the pool the removal is out of range: the call
    panics. *)
Definition delegator_last : St :=
  Eval vm_compute in (run [(1, Call_join_court (Some 3) 500); (1, Call_delegate (Some 2) 300 [3]);
    (1, Call_join_court (Some 1) 290); (2, Call_prepare_exit_court (Some 3))] genesis).2.
Example invalid_delegator_panics :
  (dispatch 3 (Api_on_dispute 0 trial) delegator_last).1 = Err (Panic "removal index should be < len").
Proof. vm_compute. reflexivity. Qed.
End CourtExample.

Section Observations.
Context {C R L Rng : Type} `{MarketCommonsPalletApi C, DisputeResolutionApi R, Currency L,
  !ImbalanceCurrency L, !CourtConfig L Rng}.

(** A market without a court (the dispute failed for lack of stake) has no failed court
    either: [has_failed] is an error before it looks at the missing court. *)
Lemma has_failed_needs_court now id m (s : State C R L) :
  dispute_mechanism m = Some MDM_Court → MarketIdToCourtId (storage s) !! id = None →
  has_failed now id m s = (Err (Court_Error CT_MarketIdToCourtIdNotFound), s).
Proof.
  intros Hm Hc. unfold has_failed, ensure_dispute_mechanism. rewrite Hm, bool_decide_eq_true_2 by done.
  rewrite (lift_ok_bind _ tt) by done. erewrite bind_err; [done|]. unfold court_id_of, reads.
  by rewrite gets_bind, Hc.
Qed.

(** The courts of markets stay when locks are released. *)
Definition same_court_ids (s s' : State C R L) : Prop :=
  MarketIdToCourtId (storage s') = MarketIdToCourtId (storage s).
#[local] Instance same_court_ids_preorder : PreOrder same_court_ids.
Proof. split; [by intros s|]. intros s1 s2 s3 H12 H23. unfold same_court_ids in *. congruence. Qed.
Lemma unlock_court_ids ds : respects same_court_ids (unlock_participants_from_last_draw ds).
Proof.
  apply respects_for_each; [typeclasses eauto|]. intros d _.
  unfold release_lock, participant, put_participant, reads, writes. respects. by apply respects_modify.
Qed.

(** A global dispute removes the court of a market but leaves the bonds of the appeals
    reserved: [exchange], which settles them when the market resolves, is an error from
    then on, whatever the outcome. *)
Lemma global_dispute_strands_appeals id m (s s' : State C R L) items c o amt :
  dispute_mechanism m = Some MDM_Court → MarketIdToCourtId (storage s) !! id = Some c →
  on_global_dispute id m s = (Ok items, s') →
  exchange id m o amt s' = (Err (Court_Error CT_CourtNotFound), s').
Proof.
  intros Hm Hc Hrun. unfold on_global_dispute, reads in Hrun.
  apply bind_ok_inv in Hrun as (u & s0 & [_ ->]%lift_ok_inv & Hrun). rewrite gets_bind, Hc in Hrun.
  unfold get_court, remove_draws, remove_court, reads, writes in Hrun. run_inv Hrun.
  match goal with Hu : unlock_participants_from_last_draw ?ds ?t = (_, ?t') |- _ =>
    pose proof (unlock_court_ids ds t) as Hids; rewrite Hu in Hids; cbn in Hids end.
  unfold exchange, ensure_dispute_mechanism. rewrite Hm, bool_decide_eq_true_2 by done.
  rewrite (lift_ok_bind _ tt) by done. unfold court_id_of, get_court, reads. cbn. unfold mbind, M_bind, Prelude.gets. cbn.
  unfold same_court_ids in Hids. cbn in Hids. rewrite Hids, Hc. cbn. by rewrite lookup_delete_eq.
Qed.
End Observations.
