(* ===== verification/Authorized.v ===== *)
(** * Authorized dispute mechanism

    [zrml/authorized/src/lib.rs]: a privileged origin decides the outcome of a
    disputed market and may correct itself until the correction period ends. *)
From S2P Require Import Prelude Types Errors MarketCommons Disputes.

Abbreviation AuthorizedOutcomeReports := (gmap MarketId AuthorityReport).

Inductive Event : Type := AuthorityReported (market_id : MarketId) (outcome : OutcomeReport).

Record State (C R : Type) : Type := mk_State {
  commons : C;
  resolution : R;
  reports : AuthorizedOutcomeReports;
  events : list Event;
}.
Arguments mk_State {C R} _ _ _ _.
Arguments commons {C R} _.
Arguments resolution {C R} _.
Arguments reports {C R} _.
Arguments events {C R} _.

Definition set_resolution {C R} (r : R) (s : State C R) : State C R :=
  mk_State (commons s) r (reports s) (events s).
Definition set_reports {C R} (f : AuthorizedOutcomeReports → AuthorizedOutcomeReports)
    (s : State C R) : State C R :=
  mk_State (commons s) (resolution s) (f (reports s)) (events s).
Definition deposit_event {C R} (e : Event) : Store (State C R) unit :=
  modify (λ s, mk_State (commons s) (resolution s) (reports s) (e :: events s)).

Definition ensure_dispute_mechanism (m : Market) : Res unit :=
  ensureR (bool_decide (dispute_mechanism m = Some MDM_Authorized))
    AU_MarketDoesNotHaveDisputeMechanismAuthorized.

Definition get_auto_resolve (id : MarketId) (r : AuthorizedOutcomeReports) : option BlockNumber :=
  ar_resolve_at <$> r !! id.

Section Authorized.
Context {C R Origin : Type} `{MarketCommonsPalletApi C, DisputeResolutionApi R}.
(** [AuthorizedDisputeResolutionOrigin] and [CorrectionPeriod] of the runtime. *)
Context (ensure_origin : Origin → Res unit) (CorrectionPeriod : BlockNumber).

(** [now] is the block the call is executed in. *)
Definition authorize_market_outcome (now : BlockNumber) (origin : Origin) (market_id : MarketId)
    (outcome : OutcomeReport) : Store (State C R) unit :=
  transactional (
    _ ← lift (ensure_origin origin);
    rm ← gets (λ s, api_market market_id (commons s));
    m ← lift rm;
    _ ← ensure (bool_decide (status m = Disputed)) AU_MarketIsNotDisputed;
    _ ← ensure (matches_outcome_report m outcome) AU_OutcomeMismatch;
    _ ← lift (ensure_dispute_mechanism m);
    report_opt ← gets (λ s, reports s !! market_id);
    report ←
      match report_opt with
      | Some r => mret (mk_AuthorityReport (ar_resolve_at r) outcome)
      | None =>
          let resolve_at := saturating_add u64_max now CorrectionPeriod in
          _ ← zoom resolution set_resolution (add_auto_resolve market_id resolve_at);
          mret (mk_AuthorityReport resolve_at outcome)
      end;
    _ ← modify (set_reports (insert market_id report));
    deposit_event (AuthorityReported market_id outcome)).
End Authorized.

(** ** The dispute interface *)
Section DisputeApi.
Context {R L : Type}.
Abbreviation D := AuthorizedOutcomeReports.
Abbreviation St := (D * R * L)%type.

Definition set_D (d : D) (s : St) : St := (d, s.1.2, s.2).

Definition on_dispute (id : MarketId) (m : Market) : Store St unit :=
  lift (ensure_dispute_mechanism m).

Definition on_resolution (id : MarketId) (m : Market) : Store St (option OutcomeReport) :=
  _ ← lift (ensure_dispute_mechanism m);
  report ← gets (λ s, s.1.1 !! id);
  _ ← modify (λ s, set_D (delete id s.1.1) s);
  mret (ar_outcome <$> report).

(** All funds to the treasury. *)
Definition exchange (id : MarketId) (m : Market) (resolved_outcome : OutcomeReport)
    (overall_imbalance : Balance) : Store St Balance :=
  _ ← lift (ensure_dispute_mechanism m);
  mret overall_imbalance.

Definition api_get_auto_resolve (id : MarketId) (m : Market) (d : D) : option BlockNumber :=
  if bool_decide (dispute_mechanism m = Some MDM_Authorized) then get_auto_resolve id d else None.

Definition has_failed (id : MarketId) (m : Market) : Store St bool :=
  _ ← lift (ensure_dispute_mechanism m);
  mret false.

Definition on_global_dispute (id : MarketId) (m : Market) : Store St (list GlobalDisputeItem) :=
  _ ← lift (ensure_dispute_mechanism m);
  mret [].

Definition clear (id : MarketId) (m : Market) : Store St unit :=
  _ ← lift (ensure_dispute_mechanism m);
  modify (λ s, set_D (delete id s.1.1) s).

#[export] Instance Authorized_dispute_api : DisputeApi AuthorizedOutcomeReports R L := {
  api_on_dispute := on_dispute;
  api_on_resolution _ := on_resolution;
  api_exchange := exchange;
  Disputes.api_get_auto_resolve := api_get_auto_resolve;
  api_has_failed _ := has_failed;
  api_on_global_dispute := on_global_dispute;
  api_clear := clear;
}.
End DisputeApi.

(** ** Properties *)
Section Properties.
Context {C R Origin : Type} `{MarketCommonsPalletApi C, DisputeResolutionApi R}.
Context `{!DisputeResolutionLaws R}.
Context (ensure_origin : Origin → Res unit) (CorrectionPeriod : BlockNumber).
Implicit Types s : State C R.

Lemma ensure_mechanism_inv m u :
  ensure_dispute_mechanism m = Ok u → dispute_mechanism m = Some MDM_Authorized.
Proof. unfold ensure_dispute_mechanism. intros He. run_inv He. by guards. Qed.

Lemma authorize_inv now origin id outcome s s' u :
  authorize_market_outcome ensure_origin CorrectionPeriod now origin id outcome s = (Ok u, s') →
  ∃ m, ensure_origin origin = Ok tt ∧ api_market id (commons s) = Ok m ∧ status m = Disputed ∧
    matches_outcome_report m outcome = true ∧ dispute_mechanism m = Some MDM_Authorized ∧
    events s' = AuthorityReported id outcome :: events s ∧ commons s' = commons s ∧
    ((∃ r, reports s !! id = Some r ∧ resolution s' = resolution s ∧
        reports s' = <[id := mk_AuthorityReport (ar_resolve_at r) outcome]> (reports s)) ∨
     (reports s !! id = None ∧
      let resolve_at := saturating_add u64_max now CorrectionPeriod in
      (∃ n, add_auto_resolve id resolve_at (resolution s) = (Ok n, resolution s')) ∧
      reports s' = <[id := mk_AuthorityReport resolve_at outcome]> (reports s))).
Proof.
  unfold authorize_market_outcome, deposit_event. intros Ha. run_inv Ha. guards.
  repeat match goal with
  | u : unit |- _ => destruct u
  | Hx : ensure_dispute_mechanism _ = _ |- _ => apply ensure_mechanism_inv in Hx
  | Hx : match reports s !! id with _ => _ end _ = _ |- _ => rename Hx into Hr
  end.
  eexists. split_and!; try (reflexivity || eassumption).
  - destruct (reports s !! id) as [r|] eqn:Hid; run_inv Hr; [done|done].
  - destruct (reports s !! id) as [r|] eqn:Hid; run_inv Hr; [done|done].
  - destruct (reports s !! id) as [r|] eqn:Hid; run_inv Hr; [left|right]; eauto 10.
Qed.

(** The authority reports a first outcome and then corrects it any number of
    times, each call in a block of its own. *)
Definition authorize_all (calls : list (BlockNumber * Origin * OutcomeReport)) (id : MarketId)
    : Store (State C R) unit :=
  for_each (λ c, authorize_market_outcome ensure_origin CorrectionPeriod c.1.1 c.1.2 id c.2) calls.

Definition last_outcome (o : OutcomeReport) (calls : list (BlockNumber * Origin * OutcomeReport))
    : OutcomeReport :=
  foldl (λ _ c, c.2) o calls.

Lemma corrections_keep calls id r s s' :
  reports s !! id = Some r → authorize_all calls id s = (Ok tt, s') →
  resolution s' = resolution s ∧
  reports s' = <[id := mk_AuthorityReport (ar_resolve_at r) (last_outcome (ar_outcome r) calls)]>
    (reports s).
Proof.
  revert r s. induction calls as [|[[now o] out] calls IH]; intros r s Hid Hrun.
  - injection Hrun as <-. destruct r as [at_ out]. cbn.
    split; [done|]. by rewrite insert_id.
  - cbn [authorize_all for_each] in Hrun. unfold authorize_all in Hrun. cbn [for_each] in Hrun.
    apply bind_ok_inv in Hrun as ([] & s1 & Hc & Hrun). cbn in Hc.
    apply authorize_inv in Hc as (m & _ & _ & _ & _ & _ & _ & _ & [(r' & Hr' & Hres & Hrep)|[? _]]);
      [|congruence].
    assert (r' = r) as -> by congruence.
    edestruct (IH (mk_AuthorityReport (ar_resolve_at r) out) s1) as [Hres' Hrep'].
    { rewrite Hrep. by rewrite lookup_insert_eq. }
    { exact Hrun. }
    split; [congruence|]. rewrite Hrep', Hrep. cbn. by rewrite insert_insert_eq.
Qed.

(** (C23) The first report schedules the market once, at the end of the
    correction period; corrections neither move nor repeat that block and the
    last one wins: [on_resolution] then hands out exactly that outcome and forgets
    the report, so a second resolution finds none. No other market's report or
    schedule changes. *)
Theorem authorize_corrections {L : Type} now o out calls id s s' :
  reports s !! id = None → authorize_all ((now, o, out) :: calls) id s = (Ok tt, s') →
  let resolve_at := saturating_add u64_max now CorrectionPeriod in
  let final := last_outcome out calls in
  reports s' = <[id := mk_AuthorityReport resolve_at final]> (reports s) ∧
  (∀ id' b, auto_resolve_count id' b (resolution s') =
    auto_resolve_count id' b (resolution s) + if decide ((id, resolve_at) = (id', b)) then 1 else 0) ∧
  (∀ m (r : R) (l : L), dispute_mechanism m = Some MDM_Authorized →
    let after := snd (on_resolution id m (reports s', r, l)) in
    on_resolution id m (reports s', r, l) = (Ok (Some final), (reports s, r, l)) ∧
    fst (on_resolution id m after) = Ok None).
Proof.
  intros Hid Hrun resolve_at final. unfold authorize_all in Hrun. cbn [for_each] in Hrun.
  apply bind_ok_inv in Hrun as ([] & s1 & Hc & Hrun). cbn in Hc.
  apply authorize_inv in Hc as (m & _ & _ & _ & _ & _ & _ & _ & [(r' & Hr' & _)|(_ & [n Hadd] & Hrep)]);
    [congruence|]. fold resolve_at in Hadd, Hrep.
  edestruct (corrections_keep calls id (mk_AuthorityReport resolve_at out) s1) as [Hres' Hrep'].
  { rewrite Hrep. by rewrite lookup_insert_eq. }
  { exact Hrun. }
  cbn in Hrep'. rewrite Hrep, insert_insert_eq in Hrep'. split; [done|]. split.
  - intros id' b. rewrite Hres'. by apply (add_auto_resolve_ok _ _ _ _ n).
  - intros m' r l Hm'.
    assert (∀ d : AuthorizedOutcomeReports, on_resolution id m' (d, r, l) =
      (Ok (ar_outcome <$> d !! id), (delete id d, r, l))) as Hon.
    { intros d. unfold on_resolution, ensure_dispute_mechanism, ensureR.
      by rewrite bool_decide_true by done. }
    cbv zeta. rewrite !Hon. cbn. rewrite Hon, Hrep', lookup_insert_eq, lookup_delete_eq.
    cbn. by rewrite delete_insert_id by done.
Qed.

(** An outcome that does not fit the market, a market that is not
    disputed or that uses another mechanism, and an origin without the privilege
    are refused, without any change of the storage. *)
Theorem authorize_refused now origin id outcome s m :
  api_market id (commons s) = Ok m →
  (is_ok (ensure_origin origin) = false ∨ status m ≠ Disputed ∨
   matches_outcome_report m outcome = false ∨ dispute_mechanism m ≠ Some MDM_Authorized) →
  ∃ e, authorize_market_outcome ensure_origin CorrectionPeriod now origin id outcome s = (Err e, s).
Proof.
  intros Hm Hbad.
  destruct (authorize_market_outcome _ _ now origin id outcome s) as [[u|e] s'] eqn:Ha.
  - apply authorize_inv in Ha as (m' & Ho & Hm' & Hst & Hmat & Hmech & _).
    assert (m' = m) as -> by congruence. rewrite Ho in Hbad. naive_solver congruence.
  - exists e. apply transactional_err in Ha. by subst.
Qed.
End Properties.

(** ** Example *)
Module Example.
Definition chain : Type := State MarketCommons.State MarketIdsPerDisputeBlock.
Definition the_market : Market :=
  mk_Market Ztg 9 Permissionless 0 9 [] (MT_Categorical 3) (Block (mk_Range 0 100))
    (mk_Deadlines 1 1 1) Lmsr Disputed None None (Some MDM_Authorized) MarketBonds_default None.
Definition start : chain :=
  mk_State (MarketCommons.mk_State {[ 7 := the_market ]} (Some 8) ∅) ∅ ∅ [].
(** The origin is a boolean: privileged or not. *)
Definition ensure_root (b : bool) : Res unit := ensureR b BadOrigin.
Definition corrected : chain :=
  snd (authorize_all ensure_root 20 [(100, true, Categorical 1); (105, true, Categorical 2)] 7 start).

Lemma authorize_corrections_witness :
  reports corrected = <[7 := mk_AuthorityReport 120 (Categorical 2)]> ∅.
Proof.
  destruct (authorize_corrections (L := unit) ensure_root 20 100 true (Categorical 1)
    [(105, true, Categorical 2)] 7 start corrected) as [Hr _]; [done|vm_compute; reflexivity|].
  exact Hr.
Defined.

Lemma authorize_refused_witness :
  ∃ e, authorize_market_outcome ensure_root 20 100 true 7 (Categorical 5) start = (Err e, start).
Proof.
  apply (authorize_refused ensure_root 20 100 true 7 (Categorical 5) start the_market).
  - vm_compute; reflexivity.
  - right. right. left. reflexivity.
Defined.
End Example.
