(* ===== verification/SimpleDisputes.v ===== *)
(** * Simple disputes

    [zrml/simple-disputes/src/lib.rs]: anyone may suggest another outcome for a
    disputed market against a bond that grows with the number of suggestions; the
    last suggestion wins, the bonds of the others are slashed and shared. *)
From S2P Require Import Prelude Types Errors Currencies Ledgers MarketCommons Disputes.

Abbreviation DisputesMap := (gmap MarketId (list MarketDispute)).

Inductive Event : Type := OutcomeReserved (market_id : MarketId) (dispute : MarketDispute).

Record State (C R L : Type) : Type := mk_State {
  commons : C;
  resolution : R;
  currency : L;
  Disputes : DisputesMap;
  events : list Event;
}.
Arguments mk_State {C R L} _ _ _ _ _.
Arguments commons {C R L} _.
Arguments resolution {C R L} _.
Arguments currency {C R L} _.
Arguments Disputes {C R L} _.
Arguments events {C R L} _.

Definition set_resolution {C R L} (r : R) (s : State C R L) : State C R L :=
  mk_State (commons s) r (currency s) (Disputes s) (events s).
Definition set_currency {C R L} (l : L) (s : State C R L) : State C R L :=
  mk_State (commons s) (resolution s) l (Disputes s) (events s).
Definition set_Disputes {C R L} (f : DisputesMap → DisputesMap) (s : State C R L) : State C R L :=
  mk_State (commons s) (resolution s) (currency s) (f (Disputes s)) (events s).
Definition deposit_event {C R L} (e : Event) : Store (State C R L) unit :=
  modify (λ s, mk_State (commons s) (resolution s) (currency s) (Disputes s) (e :: events s)).

(** A value query. *)
Definition disputes_of (id : MarketId) (d : DisputesMap) : list MarketDispute := default [] (d !! id).

Definition ensure_can_not_dispute_the_same_outcome (disputes : list MarketDispute) (r : Report)
    (outcome : OutcomeReport) : Res unit :=
  match last disputes with
  | Some last_dispute =>
      ensureR (negb (bool_decide (md_outcome last_dispute = outcome))) SD_CannotDisputeSameOutcome
  | None => ensureR (negb (bool_decide (report_outcome r = outcome))) SD_CannotDisputeSameOutcome
  end.

Definition ensure_dispute_mechanism (m : Market) : Res unit :=
  ensureR (bool_decide (dispute_mechanism m = Some MDM_SimpleDisputes))
    SD_MarketDoesNotHaveSimpleDisputesMechanism.

Definition get_auto_resolve (disputes : list MarketDispute) (m : Market) : option BlockNumber :=
  (λ last_dispute, saturating_add u64_max (md_at last_dispute) (dispute_duration (deadlines m)))
    <$> last disputes.

Section SimpleDisputes.
Context {C R L : Type} `{MarketCommonsPalletApi C, DisputeResolutionApi R, Currency L}.
(** Constants of the runtime. *)
Context (reserve_id : ReserveIdentifier) (OutcomeBond OutcomeFactor : Balance) (MaxDisputes : Z).

Definition default_outcome_bond (n : nat) : Balance :=
  saturating_add u128_max OutcomeBond
    (saturating_mul u128_max OutcomeFactor (Z.min u32_max (Z.of_nat n))).

Definition ensure_disputes_does_not_exceed_max_disputes (num_disputes : Z) : Res unit :=
  ensureR (num_disputes <? MaxDisputes) SD_MaxDisputesReached.

(** [BoundedVec::try_push] *)
Definition try_push_dispute (d : MarketDispute) (l : list MarketDispute)
    : Res (list MarketDispute) :=
  if Z.of_nat (length l) <? MaxDisputes then Ok (l ++ [d]) else Err SD_StorageOverflow.

Definition remove_auto_resolve (disputes : list MarketDispute) (id : MarketId) (m : Market)
    (r : R) : Z * R :=
  match get_auto_resolve disputes m with
  | Some dispute_duration_ends_at_block =>
      Disputes.remove_auto_resolve id dispute_duration_ends_at_block r
  | None => (0, r)
  end.

Definition suggest_outcome (now : BlockNumber) (origin : option AccountId) (market_id : MarketId)
    (outcome : OutcomeReport) : Store (State C R L) unit :=
  transactional (
    who ← ok_or origin BadOrigin;
    rm ← gets (λ s, api_market market_id (commons s));
    m ← lift rm;
    _ ← lift (ensure_dispute_mechanism m);
    _ ← ensure (bool_decide (status m = Disputed)) SD_InvalidMarketStatus;
    _ ← ensure (matches_outcome_report m outcome) SD_OutcomeMismatch;
    r ← ok_or (report m) SD_MarketIsNotReported;
    disputes ← gets (λ s, disputes_of market_id (Disputes s));
    let num_disputes := Z.min u32_max (Z.of_nat (length disputes)) in
    _ ← lift (ensure_can_not_dispute_the_same_outcome disputes r outcome);
    _ ← lift (ensure_disputes_does_not_exceed_max_disputes num_disputes);
    let bond := default_outcome_bond (length disputes) in
    _ ← zoom currency set_currency (cur_reserve_named reserve_id who bond);
    let market_dispute := mk_MarketDispute now who outcome bond in
    disputes_now ← gets (λ s, disputes_of market_id (Disputes s));
    disputes' ← lift (try_push_dispute market_dispute disputes_now);
    _ ← modify (set_Disputes (insert market_id disputes'));
    _ ← zoom resolution set_resolution (infallible (remove_auto_resolve disputes market_id m));
    let dispute_duration_ends_at_block :=
      saturating_add u64_max now (dispute_duration (deadlines m)) in
    _ ← zoom resolution set_resolution
          (add_auto_resolve market_id dispute_duration_ends_at_block);
    deposit_event (OutcomeReserved market_id market_dispute)).

(** ** The dispute interface *)
Abbreviation St := (DisputesMap * R * L)%type.

Definition set_D (d : DisputesMap) (s : St) : St := (d, s.1.2, s.2).
Definition set_L (l : L) (s : St) : St := (s.1, l).

Definition on_dispute (id : MarketId) (m : Market) : Store St unit :=
  lift (ensure_dispute_mechanism m).

Definition on_resolution (id : MarketId) (m : Market) : Store St (option OutcomeReport) :=
  _ ← lift (ensure_dispute_mechanism m);
  _ ← ensure (bool_decide (status m = Disputed)) SD_InvalidMarketStatus;
  disputes ← gets (λ s, disputes_of id s.1.1);
  mret (md_outcome <$> last disputes).

(** The loop over the disputes: gives the correct reporters their bond back and
    collects the bonds of the others; returns the imbalance and the reporters. *)
Fixpoint exchange_settle (resolved_outcome : OutcomeReport) (disputes : list MarketDispute)
    (overall_imbalance : Balance) (correct_reporters : list AccountId) (l : L)
    : Balance * list AccountId * L :=
  match disputes with
  | [] => (overall_imbalance, correct_reporters, l)
  | d :: disputes =>
      if bool_decide (md_outcome d = resolved_outcome) then
        let '(missing, l) := cur_unreserve_named reserve_id (md_by d) (md_bond d) l in
        exchange_settle resolved_outcome disputes overall_imbalance
          (correct_reporters ++ [md_by d]) l
      else
        let '(imbalance, missing, l) := cur_slash_reserved_named reserve_id (md_by d) (md_bond d) l in
        exchange_settle resolved_outcome disputes
          (saturating_add u128_max overall_imbalance imbalance) correct_reporters l
  end.

(** [split] and [resolve_creating] for every correct reporter. *)
Fixpoint exchange_reward (reward_per_each : Balance) (correct_reporters : list AccountId)
    (overall_imbalance : Balance) (l : L) : Balance * L :=
  match correct_reporters with
  | [] => (overall_imbalance, l)
  | x :: correct_reporters =>
      let actual_reward := Z.min overall_imbalance reward_per_each in
      exchange_reward reward_per_each correct_reporters (overall_imbalance - actual_reward)
        (cur_resolve_creating x actual_reward l)
  end.

Definition exchange (id : MarketId) (m : Market) (resolved_outcome : OutcomeReport)
    (overall_imbalance : Balance) : Store St Balance :=
  _ ← lift (ensure_dispute_mechanism m);
  _ ← ensure (bool_decide (status m = Disputed)) SD_InvalidMarketStatus;
  disputes ← gets (λ s, disputes_of id s.1.1);
  settled ← zoom snd set_L (infallible (exchange_settle resolved_outcome disputes
    overall_imbalance []));
  let '(overall_imbalance, correct_reporters) := settled in
  (* [checked_div] *)
  overall_imbalance ←
    (if bool_decide (correct_reporters = []) then mret overall_imbalance
     else zoom snd set_L (infallible (exchange_reward
       (overall_imbalance / Z.of_nat (length correct_reporters)) correct_reporters
       overall_imbalance)));
  _ ← modify (λ s, set_D (delete id s.1.1) s);
  mret overall_imbalance.

Definition api_get_auto_resolve (id : MarketId) (m : Market) (d : DisputesMap)
    : option BlockNumber :=
  if bool_decide (dispute_mechanism m = Some MDM_SimpleDisputes)
  then get_auto_resolve (disputes_of id d) m else None.

Definition has_failed (id : MarketId) (m : Market) : Store St bool :=
  _ ← lift (ensure_dispute_mechanism m);
  disputes ← gets (λ s, disputes_of id s.1.1);
  mret (Z.of_nat (length disputes) =? MaxDisputes).

Definition on_global_dispute (id : MarketId) (m : Market) : Store St (list GlobalDisputeItem) :=
  _ ← lift (ensure_dispute_mechanism m);
  disputes ← gets (λ s, disputes_of id s.1.1);
  mret ((λ d, mk_GlobalDisputeItem (md_by d) (md_outcome d) (md_bond d)) <$> disputes).

Fixpoint unreserve_all (disputes : list MarketDispute) (l : L) : L :=
  match disputes with
  | [] => l
  | d :: disputes =>
      unreserve_all disputes (snd (cur_unreserve_named reserve_id (md_by d) (md_bond d) l))
  end.

Definition clear (id : MarketId) (m : Market) : Store St unit :=
  _ ← lift (ensure_dispute_mechanism m);
  if bool_decide (status m = Disputed) then
    disputes ← gets (λ s, disputes_of id s.1.1);
    _ ← modify (λ s, set_D (delete id s.1.1) s);
    modify (λ s, set_L (unreserve_all disputes s.2) s)
  else mret tt.

#[export] Instance SimpleDisputes_dispute_api : DisputeApi DisputesMap R L := {
  api_on_dispute := on_dispute;
  api_on_resolution _ := on_resolution;
  api_exchange := exchange;
  Disputes.api_get_auto_resolve := api_get_auto_resolve;
  api_has_failed _ := has_failed;
  api_on_global_dispute := on_global_dispute;
  api_clear := clear;
}.
End SimpleDisputes.

(** ** Bonds *)
Section Bonds.
Implicit Types ds : list MarketDispute.

(** The bonds of an account. *)
Definition bonds_by (x : AccountId) ds : Balance :=
  zsum (λ d, if md_by d =? x then md_bond d else 0) ds.
(** The bonds the account gets back when the market resolves to [o]. *)
Definition returned (o : OutcomeReport) (x : AccountId) ds : Balance :=
  zsum (λ d, if bool_decide (md_outcome d = o) && (md_by d =? x) then md_bond d else 0) ds.
(** The bonds that are lost then. *)
Definition slashed (o : OutcomeReport) ds : Balance :=
  zsum (λ d, if bool_decide (md_outcome d = o) then 0 else md_bond d) ds.
(** Who suggested [o], once per suggestion. *)
Definition correct (o : OutcomeReport) ds : list AccountId :=
  md_by <$> filter (λ d, md_outcome d = o) ds.

Lemma bonds_by_cons x d ds :
  bonds_by x (d :: ds) = at_ (md_by d) x (md_bond d) + bonds_by x ds.
Proof.
  unfold bonds_by. rewrite zsum_cons. unfold at_.
  destruct (Z.eqb_spec (md_by d) x), (decide (md_by d = x)); lia.
Qed.
Lemma correct_cons o d ds :
  correct o (d :: ds) = (if bool_decide (md_outcome d = o) then [md_by d] else []) ++ correct o ds.
Proof.
  unfold correct. rewrite filter_cons.
  destruct (bool_decide_reflect (md_outcome d = o)); [by rewrite decide_True|by rewrite decide_False].
Qed.
Lemma returned_cons o x d ds :
  returned o x (d :: ds) =
  (if bool_decide (md_outcome d = o) then at_ (md_by d) x (md_bond d) else 0) + returned o x ds.
Proof.
  unfold returned, at_. rewrite zsum_cons. destruct (bool_decide _); cbn [andb]; [|done].
  destruct (Z.eqb_spec (md_by d) x), (decide (md_by d = x)); lia.
Qed.
Lemma bond_le_returned o d ds :
  Forall (λ d, 0 ≤ md_bond d) ds → d ∈ ds → md_outcome d = o →
  md_bond d ≤ returned o (md_by d) ds.
Proof.
  intros Hds Hd Ho. rewrite Forall_forall in Hds. unfold returned. set (f := λ y, _).
  assert (f d = md_bond d) as <- by (unfold f; by rewrite bool_decide_true, Z.eqb_refl).
  apply zsum_elem_le; [|done]. intros y Hy. specialize (Hds y Hy). unfold f.
  destruct (_ && _); lia.
Qed.
Lemma slashed_cons o d ds :
  slashed o (d :: ds) = (if bool_decide (md_outcome d = o) then 0 else md_bond d) + slashed o ds.
Proof. done. Qed.
Lemma slashed_nonneg o ds : Forall (λ d, 0 ≤ md_bond d) ds → 0 ≤ slashed o ds.
Proof.
  intros Hds. apply zsum_nonneg. intros d Hd. rewrite Forall_forall in Hds.
  specialize (Hds d Hd). destruct (bool_decide _); lia.
Qed.
Lemma bonds_by_nonneg x ds : Forall (λ d, 0 ≤ md_bond d) ds → 0 ≤ bonds_by x ds.
Proof.
  intros Hds. apply zsum_nonneg. intros d Hd. rewrite Forall_forall in Hds.
  specialize (Hds d Hd). destruct (_ =? _); lia.
Qed.
Lemma bonds_by_snoc x d ds :
  bonds_by x (ds ++ [d]) = bonds_by x ds + at_ (md_by d) x (md_bond d).
Proof.
  unfold bonds_by. rewrite zsum_app, zsum_cons. unfold at_. change (zsum ?f []) with 0.
  destruct (Z.eqb_spec (md_by d) x), (decide (md_by d = x)); lia.
Qed.
End Bonds.

Section Settlement.
Context {L : Type} `{CurrencyLaws L}.
Context (rid : ReserveIdentifier).
Implicit Types l : L.

Lemma at_rid_swap (x z : AccountId) amt : at_ (rid, x) (rid, z) amt = at_ x z amt.
Proof. unfold at_. repeat destruct (decide _); congruence. Qed.

Lemma exchange_settle_spec o ds acc rs l acc' rs' l' :
  Forall (λ d, 0 ≤ md_bond d) ds → (∀ x, bonds_by x ds ≤ cur_reserved_named rid x l) →
  0 ≤ acc → acc + slashed o ds ≤ u128_max →
  exchange_settle rid o ds acc rs l = (acc', rs', l') →
  rs' = rs ++ correct o ds ∧ acc' = acc + slashed o ds ∧
  (∀ x, cur_reserved_named rid x l' = cur_reserved_named rid x l - bonds_by x ds) ∧
  (∀ x, cur_free_balance x l' = cur_free_balance x l + returned o x ds).
Proof.
  intros Hds. revert acc rs l. induction Hds as [|d ds Hd Hds IH]; intros acc rs l Hres Hacc Hmax Hex.
  - cbn in *. simplify_eq. unfold correct. cbn. rewrite app_nil_r.
    split; [done|]. split; [lia|]. split; intros; lia.
  - assert (∀ x, at_ (md_by d) x (md_bond d) + bonds_by x ds ≤ cur_reserved_named rid x l) as Hres'.
    { intros x. rewrite <- bonds_by_cons. apply Hres. }
    assert (md_bond d ≤ cur_reserved_named rid (md_by d) l) as Hle.
    { specialize (Hres' (md_by d)). rewrite at_eq in Hres'.
      pose proof (bonds_by_nonneg (md_by d) ds Hds). lia. }
    pose proof (slashed_nonneg o ds Hds). rewrite slashed_cons in *.
    setoid_rewrite returned_cons. setoid_rewrite bonds_by_cons. rewrite correct_cons.
    cbn [exchange_settle] in Hex.
    destruct (bool_decide_reflect (md_outcome d = o)) as [Ho|Ho].
    + destruct (cur_unreserve_named rid (md_by d) (md_bond d) l) as [missing l1] eqn:Hun.
      apply cur_unreserve_named_spec in Hun as (_ & Hf & Hr); [|done].
      rewrite Z.min_l in * by lia.
      edestruct (IH acc (rs ++ [md_by d]) l1) as (-> & -> & Hr' & Hf'); [|lia|lia|exact Hex|].
      { intros x. rewrite Hr, at_rid_swap. specialize (Hres' x). lia. }
      rewrite <- app_assoc. split; [done|]. split; [lia|]. split; intros x.
      * rewrite Hr', Hr, at_rid_swap. lia.
      * rewrite Hf', Hf. lia.
    + destruct (cur_slash_reserved_named rid (md_by d) (md_bond d) l) as [[im missing] l1] eqn:Hsl1.
      apply cur_slash_reserved_named_spec in Hsl1 as (-> & _ & Hf & Hr); [|done].
      rewrite Z.min_l in * by lia.
      assert (saturating_add u128_max acc (md_bond d) = acc + md_bond d) as Hsat
        by (unfold saturating_add; lia).
      rewrite Hsat in Hex.
      edestruct (IH (acc + md_bond d) rs l1) as (-> & -> & Hr' & Hf'); [|lia|lia|exact Hex|].
      { intros x. rewrite Hr, at_rid_swap. specialize (Hres' x). lia. }
      split; [done|]. split; [lia|]. split; intros x.
      * rewrite Hr', Hr, at_rid_swap. lia.
      * rewrite Hf', Hf. lia.
Qed.

Lemma exchange_reward_spec share rs acc l acc' l' :
  0 ≤ share → share * Z.of_nat (length rs) ≤ acc →
  (∀ x, x ∈ rs → cur_minimum_balance ≤ cur_free_balance x l + share) →
  exchange_reward share rs acc l = (acc', l') →
  acc' = acc - share * Z.of_nat (length rs) ∧
  (∀ x, cur_free_balance x l' = cur_free_balance x l + share * count_id x rs) ∧
  (∀ j x, cur_reserved_named j x l' = cur_reserved_named j x l).
Proof.
  intros Hshare. revert acc l. induction rs as [|y rs IH]; intros acc l Hacc Hmin Hex.
  - cbn in *. simplify_eq. split; [lia|]. split; intros; lia.
  - cbn [length exchange_reward] in *. rewrite Nat2Z.inj_succ in *.
    rewrite Z.min_r in Hex by lia.
    destruct (cur_resolve_creating_spec y share l) as [Hf Hr]; [done|apply Hmin; by left|].
    edestruct (IH (acc - share) (cur_resolve_creating y share l)) as (-> & Hf' & Hr');
      [lia| |exact Hex|].
    { intros x Hx. rewrite Hf. pose proof (at_nonneg y x share Hshare).
      specialize (Hmin x ltac:(by right)). lia. }
    split; [lia|]. split.
    + intros x. rewrite Hf', Hf, count_id_cons. unfold at_.
      destruct (Z.eqb_spec y x), (decide (y = x)); lia.
    + intros j x. by rewrite Hr', Hr.
Qed.

Lemma unreserve_all_spec ds l :
  Forall (λ d, 0 ≤ md_bond d) ds → (∀ x, bonds_by x ds ≤ cur_reserved_named rid x l) →
  (∀ x, cur_reserved_named rid x (unreserve_all rid ds l) =
    cur_reserved_named rid x l - bonds_by x ds) ∧
  (∀ x, cur_free_balance x (unreserve_all rid ds l) = cur_free_balance x l + bonds_by x ds).
Proof.
  intros Hds. revert l. induction Hds as [|d ds Hd Hds IH]; intros l Hres.
  - cbn. split; intros; lia.
  - assert (∀ x, at_ (md_by d) x (md_bond d) + bonds_by x ds ≤ cur_reserved_named rid x l) as Hres'.
    { intros x. rewrite <- bonds_by_cons. apply Hres. }
    assert (md_bond d ≤ cur_reserved_named rid (md_by d) l) as Hle.
    { specialize (Hres' (md_by d)). rewrite at_eq in Hres'.
      pose proof (bonds_by_nonneg (md_by d) ds Hds). lia. }
    setoid_rewrite bonds_by_cons. cbn [unreserve_all].
    destruct (cur_unreserve_named rid (md_by d) (md_bond d) l) as [missing l1] eqn:Hun. cbn [snd].
    apply cur_unreserve_named_spec in Hun as (_ & Hf & Hr); [|done]. rewrite Z.min_l in * by lia.
    destruct (IH l1) as [Hr' Hf'].
    { intros x. rewrite Hr, at_rid_swap. specialize (Hres' x). lia. }
    split; intros x.
    + rewrite Hr', Hr, at_rid_swap. lia.
    + rewrite Hf', Hf. lia.
Qed.
End Settlement.

(** ** Every bond is reserved *)
Section Properties.
Context {C R L : Type} `{MarketCommonsPalletApi C, DisputeResolutionLaws R, CurrencyLaws L}.
Context (reserve_id : ReserveIdentifier) (OutcomeBond OutcomeFactor : Balance) (MaxDisputes : Z).
Context (Hbond : 0 ≤ OutcomeBond ≤ u128_max) (Hfactor : 0 ≤ OutcomeFactor)
  (Hmax : 0 ≤ MaxDisputes ≤ u32_max).
Implicit Types s : State C R L.

Abbreviation suggest := (suggest_outcome reserve_id OutcomeBond OutcomeFactor MaxDisputes).

Definition all_bonds_by (x : AccountId) (d : DisputesMap) : Balance := map_sum (λ _, bonds_by x) d.

Record Inv (d : DisputesMap) (l : L) : Prop := {
  (** the reserve of an account is the sum of its bonds *)
  inv_funded x : cur_reserved_named reserve_id x l = all_bonds_by x d;
  inv_length id ds : d !! id = Some ds → Z.of_nat (length ds) ≤ MaxDisputes;
  (** the bond grows with the position *)
  inv_bond id ds i x : d !! id = Some ds → ds !! i = Some x →
    md_bond x = default_outcome_bond OutcomeBond OutcomeFactor i;
}.

Lemma bond_bounds i :
  OutcomeBond ≤ default_outcome_bond OutcomeBond OutcomeFactor i ≤ u128_max.
Proof.
  unfold default_outcome_bond, saturating_add, saturating_mul.
  assert (0 ≤ OutcomeFactor * Z.min u32_max (Z.of_nat i)).
  { apply Z.mul_nonneg_nonneg; [done|]. pose proof u32_max_pos. lia. }
  pose proof u128_max_pos. lia.
Qed.

Lemma inv_bonds_nonneg d l id ds : Inv d l → d !! id = Some ds → Forall (λ d, 0 ≤ md_bond d) ds.
Proof.
  intros Hinv Hid. apply list.Forall_lookup. intros i x Hx. rewrite (inv_bond d l Hinv id ds i x) by done.
  pose proof (bond_bounds i). lia.
Qed.

Lemma inv_market_bonds d l id x :
  Inv d l → bonds_by x (disputes_of id d) ≤ cur_reserved_named reserve_id x l.
Proof.
  intros Hinv. rewrite (inv_funded d l Hinv). unfold disputes_of.
  pose proof (entry_le_map_sum (λ _, bonds_by x) d id) as Hle. unfold entry in Hle.
  destruct (d !! id) as [ds|] eqn:Hid; cbn; apply Hle;
    intros id' ds' Hid'; by eapply bonds_by_nonneg, inv_bonds_nonneg.
Qed.

Lemma inv_disputes_nonneg d l id : Inv d l → Forall (λ d, 0 ≤ md_bond d) (disputes_of id d).
Proof.
  intros Hinv. unfold disputes_of. destruct (d !! id) as [ds|] eqn:Hid; cbn; [|done].
  by eapply inv_bonds_nonneg.
Qed.

Lemma inv_delete d l id l' :
  Inv d l →
  (∀ x, cur_reserved_named reserve_id x l' =
    cur_reserved_named reserve_id x l - bonds_by x (disputes_of id d)) →
  Inv (delete id d) l'.
Proof.
  intros Hinv Hres. split.
  - intros x. rewrite Hres, (inv_funded d l Hinv). unfold all_bonds_by.
    rewrite (map_sum_split _ d id). unfold entry, disputes_of.
    destruct (d !! id); cbn -[bonds_by]; [lia|]. change (bonds_by x []) with 0. lia.
  - intros id' ds [_ Hid]%lookup_delete_Some. by apply (inv_length d l Hinv id').
  - intros id' ds i x [_ Hid]%lookup_delete_Some. by apply (inv_bond d l Hinv id').
Qed.

Lemma mechanism_inv m u :
  ensure_dispute_mechanism m = Ok u → dispute_mechanism m = Some MDM_SimpleDisputes.
Proof. unfold ensure_dispute_mechanism. intros He. run_inv He. by guards. Qed.

Lemma suggest_inv now origin id outcome s s' u :
  suggest now origin id outcome s = (Ok u, s') →
  ∃ who m r l r1 n r1' n',
    let ds := disputes_of id (Disputes s) in
    let bond := default_outcome_bond OutcomeBond OutcomeFactor (length ds) in
    let d := mk_MarketDispute now who outcome bond in
    origin = Some who ∧ api_market id (commons s) = Ok m ∧
    dispute_mechanism m = Some MDM_SimpleDisputes ∧ status m = Disputed ∧
    matches_outcome_report m outcome = true ∧ report m = Some r ∧
    md_outcome <$> last ds ≠ Some outcome ∧ (ds = [] → report_outcome r ≠ outcome) ∧
    Z.of_nat (length ds) < MaxDisputes ∧
    cur_reserve_named reserve_id who bond (currency s) = (Ok tt, l) ∧
    remove_auto_resolve ds id m (resolution s) = (n, r1) ∧
    add_auto_resolve id (saturating_add u64_max now (dispute_duration (deadlines m))) r1
      = (Ok n', r1') ∧
    s' = mk_State (commons s) r1' l (<[id := ds ++ [d]]> (Disputes s))
           (OutcomeReserved id d :: events s).
Proof.
  unfold suggest_outcome, deposit_event. intros Hs. run_inv Hs. guards.
  repeat match goal with
  | u : unit |- _ => destruct u
  | Hx : ensure_dispute_mechanism _ = _ |- _ => apply mechanism_inv in Hx
  | Hx : ensure_disputes_does_not_exceed_max_disputes _ _ = _ |- _ =>
      unfold ensure_disputes_does_not_exceed_max_disputes in Hx; run_inv Hx; guards
  end.
  match goal with Hx : ensure_can_not_dispute_the_same_outcome _ _ _ = _ |- _ => rename Hx into Hsame end.
  match goal with Hx : try_push_dispute _ _ _ = _ |- _ => rename Hx into Hpush end.
  cbn [Disputes set_currency] in *. set (ds := disputes_of id (Disputes s)) in *.
  unfold try_push_dispute in Hpush. destruct (Z.ltb_spec (Z.of_nat (length ds)) MaxDisputes); [|done].
  injection Hpush as <-.
  cbv zeta. do 8 eexists. split_and!; try (reflexivity || eassumption).
  - unfold ensure_can_not_dispute_the_same_outcome in Hsame.
    destruct (last ds); [|done]. cbn. run_inv Hsame. guards. congruence.
  - unfold ensure_can_not_dispute_the_same_outcome in Hsame. intros Hds. rewrite Hds in Hsame. cbn in Hsame.
    run_inv Hsame. by guards.
Qed.

Lemma suggest_Inv now origin id outcome s s' u :
  Inv (Disputes s) (currency s) → suggest now origin id outcome s = (Ok u, s') →
  Inv (Disputes s') (currency s').
Proof.
  intros Hinv Hs. apply suggest_inv in Hs as
    (who & m & r & l & r1 & n & r1' & n' & Hs). cbv zeta in Hs.
  destruct Hs as (_ & _ & _ & _ & _ & _ & _ & _ & Hlen & Hres & _ & _ & ->).
  set (ds := disputes_of id (Disputes s)) in *. cbn [Disputes currency].
  set (d := mk_MarketDispute _ _ _ _).
  pose proof (bond_bounds (length ds)) as Hb.
  apply cur_reserve_named_ok in Hres as (_ & _ & Hres); [|lia]. split.
  - intros x. rewrite Hres, (inv_funded _ _ Hinv), at_rid_swap. unfold all_bonds_by.
    rewrite map_sum_update, bonds_by_snoc. cbn [md_by md_bond d]. unfold entry, ds, disputes_of.
    destruct (Disputes s !! id); cbn -[bonds_by]; [lia|]. change (bonds_by x []) with 0. lia.
  - intros id' ds' [[<- <-]|[_ Hid]]%lookup_insert_Some.
    + rewrite length_app. cbn. lia.
    + by apply (inv_length _ _ Hinv id').
  - intros id' ds' i x [[<- <-]|[_ Hid]]%lookup_insert_Some; [|by apply (inv_bond _ _ Hinv id')].
    intros [Hx|[Hi Hx]]%lookup_app_Some.
    + unfold ds, disputes_of in Hx. destruct (Disputes s !! id) as [ds0|] eqn:Hid; [|done].
      by apply (inv_bond _ _ Hinv id ds0).
    + apply list_lookup_singleton_Some in Hx as [Hi' <-]. cbn. f_equal. lia.
Qed.

(** Runs of the dispute interface on the pallet's part of the state. *)
Definition view s : DisputesMap * R * L := (Disputes s, resolution s, currency s).
Definition put (v : DisputesMap * R * L) s : State C R L :=
  mk_State (commons s) v.1.2 v.2 v.1.1 (events s).

Lemma exchange_inv id m o amt d (r : R) (l : L) b v' :
  exchange reserve_id id m o amt (d, r, l) = (Ok b, v') →
  ∃ acc rs l1 l2, let ds := disputes_of id d in
    dispute_mechanism m = Some MDM_SimpleDisputes ∧ status m = Disputed ∧
    exchange_settle reserve_id o ds amt [] l = (acc, rs, l1) ∧
    (rs = [] ∧ b = acc ∧ l2 = l1 ∨
     rs ≠ [] ∧ exchange_reward (acc / Z.of_nat (length rs)) rs acc l1 = (b, l2)) ∧
    v' = (delete id d, r, l2).
Proof.
  unfold exchange. intros He. run_inv He. guards.
  repeat match goal with
  | u : unit |- _ => destruct u
  | Hx : ensure_dispute_mechanism _ = _ |- _ => apply mechanism_inv in Hx
  | p : (Balance * list AccountId)%type |- _ => destruct p as [acc rs]
  end. run_inv He. cbn [fst snd] in *.
  match goal with Hx : (if _ then _ else _) _ = _ |- _ => rename Hx into Hrew end.
  destruct (bool_decide_reflect (rs = [])) as [->|Hne]; run_inv Hrew; do 4 eexists; cbv zeta;
    (split; [done|]; split; [done|]; split; [eassumption|]).
  - split; [by left|done].
  - split; [right; split; [done|]; eassumption|]. done.
Qed.

(** The conservation of an [exchange], for any state that meets the invariant. *)
Lemma exchange_effect id m o amt d (r : R) (l : L) b v' :
  Inv d l → cur_minimum_balance ≤ OutcomeBond → 0 ≤ amt →
  exchange reserve_id id m o amt (d, r, l) = (Ok b, v') →
  let ds := disputes_of id d in
  let winners := correct o ds in
  let pool := amt + slashed o ds in
  let share := if bool_decide (winners = []) then 0 else pool / Z.of_nat (length winners) in
  pool ≤ u128_max →
  v'.1 = (delete id d, r) ∧ b = pool - share * Z.of_nat (length winners) ∧
  (∀ x, cur_reserved_named reserve_id x v'.2 =
    cur_reserved_named reserve_id x l - bonds_by x ds) ∧
  (∀ x, cur_free_balance x v'.2 =
    cur_free_balance x l + returned o x ds + share * count_id x winners).
Proof.
  intros Hinv Hed Hamt He ds winners pool share Hpool.
  apply exchange_inv in He as (acc & rs & l1 & l2 & _ & _ & Hset & Hrew & ->).
  pose proof (inv_disputes_nonneg d l id Hinv) as Hnn. fold ds in Hnn, Hset.
  apply exchange_settle_spec in Hset as (Hrs & Hacc & Hr & Hf); [|done| |done|done].
  2:{ intros x. by apply inv_market_bonds. }
  cbn [app] in Hrs. fold winners in Hrs. fold pool in Hacc. subst rs acc. cbn [fst snd].
  split; [done|]. destruct Hrew as [(Hw & -> & ->)|[Hw Hrew]].
  - subst share. rewrite bool_decide_true by done. split; [lia|]. split; [done|].
    intros x. rewrite Hf. lia.
  - assert (share = pool / Z.of_nat (length winners)) as Hshare
      by (subst share; by rewrite bool_decide_false).
    assert (0 < Z.of_nat (length winners)) by (destruct winners; [done|cbn; lia]).
    assert (0 ≤ pool) by (pose proof (slashed_nonneg o ds Hnn); subst pool; lia).
    rewrite <- Hshare in Hrew.
    apply exchange_reward_spec in Hrew as (-> & Hf' & Hr').
    + split; [done|]. split.
      * intros x. by rewrite Hr', Hr.
      * intros x. by rewrite Hf', Hf.
    + rewrite Hshare. by apply Z.div_pos; lia.
    + rewrite Hshare, Z.mul_comm. by apply Z.mul_div_le.
    + intros x Hx. rewrite Hf. pose proof (cur_free_nonneg x l).
      assert (0 ≤ share) by (rewrite Hshare; apply Z.div_pos; lia).
      assert (OutcomeBond ≤ returned o x ds); [|lia].
      unfold winners, correct in Hx. apply list_elem_of_fmap in Hx as (dd & -> & Hdd).
      apply list_elem_of_filter in Hdd as [Ho Hdd].
      transitivity (md_bond dd).
      * apply list_elem_of_lookup in Hdd as [i Hi]. unfold ds, disputes_of in Hi.
        destruct (d !! id) as [ds0|] eqn:Hid; [|done].
        rewrite (inv_bond d l Hinv id ds0 i dd) by done. apply bond_bounds.
      * by apply bond_le_returned.
Qed.

Lemma exchange_err id m o amt v e v' : exchange (R := R) (L := L) reserve_id id m o amt v = (Err e, v') → v' = v.
Proof.
  unfold exchange, lift, ensure, Prelude.lift, Prelude.ensure, mbind, M_bind, gets, Prelude.gets.
  destruct (ensure_dispute_mechanism m); [|naive_solver].
  destruct (bool_decide _); [|naive_solver]. unfold zoom, infallible, modify, Prelude.modify.
  destruct (exchange_settle _ _ _ _ _ _) as [[acc rs] l1]. destruct (bool_decide (rs = [])); cbn; [done|].
  destruct (exchange_reward _ _ _ _). done.
Qed.

Lemma clear_Inv id m d (r : R) (l : L) res v' :
  Inv d l → clear reserve_id id m (d, r, l) = (res, v') → Inv v'.1.1 v'.2.
Proof.
  intros Hinv. unfold clear, mbind, M_bind, lift, Prelude.lift.
  destruct (ensure_dispute_mechanism m) as [?|e]; [|by intros [= <- <-]].
  destruct (bool_decide _); [|by intros [= <- <-]]. cbn. intros [= <- <-]. cbn.
  apply (inv_delete d l id); [done|]. apply unreserve_all_spec.
  - by apply (inv_disputes_nonneg d l id).
  - intros x. by apply inv_market_bonds.
Qed.

(** Calls of the extrinsic and of the dispute interface, successful or not, and
    changes of the rest of the chain. *)
Inductive step s : State C R L → Prop :=
| step_suggest now origin id outcome : step s (snd (suggest now origin id outcome s))
| step_exchange id m o amt :
    0 ≤ amt → amt + slashed o (disputes_of id (Disputes s)) ≤ u128_max →
    step s (put (snd (exchange reserve_id id m o amt (view s))) s)
| step_clear id m : step s (put (snd (clear reserve_id id m (view s))) s)
| step_environment c r l :
    (∀ x, cur_reserved_named reserve_id x l = cur_reserved_named reserve_id x (currency s)) →
    step s (mk_State c r l (Disputes s) (events s)).

Definition genesis s : Prop :=
  Disputes s = ∅ ∧ ∀ x, cur_reserved_named reserve_id x (currency s) = 0.
Definition reachable s : Prop := ∃ s0, genesis s0 ∧ rtc step s0 s.

Lemma disputes_step_Inv s s' :
  cur_minimum_balance ≤ OutcomeBond → step s s' →
  Inv (Disputes s) (currency s) → Inv (Disputes s') (currency s').
Proof.
  intros Hed Hs Hinv. destruct Hs as [now origin id out|id m o amt Ha Hp|id m|c r l Hl].
  - destruct (suggest now origin id out s) as [[u|e] s'] eqn:Hr; cbn.
    + by eapply suggest_Inv.
    + by apply transactional_err in Hr as ->.
  - destruct (exchange reserve_id id m o amt (view s)) as [[b|e] v'] eqn:He; cbn.
    + eapply exchange_effect in He as (Hv & _ & Hr & _); [|done..].
      rewrite Hv. cbn. by apply (inv_delete _ _ id _ Hinv).
    + by apply exchange_err in He as ->.
  - destruct (clear reserve_id id m (view s)) as [res v'] eqn:Hc. cbn.
    by eapply clear_Inv.
  - destruct Hinv. split; cbn; [intros x; by rewrite Hl|done..].
Qed.

Lemma disputes_reachable_Inv s :
  cur_minimum_balance ≤ OutcomeBond → reachable s → Inv (Disputes s) (currency s).
Proof.
  intros Hed (s0 & [Hd Hr] & Hrtc).
  assert (Inv (Disputes s0) (currency s0)) as Hinv.
  { rewrite Hd. split.
    - intros x. by rewrite Hr.
    - intros id ds. by rewrite lookup_empty.
    - intros id ds i x. by rewrite lookup_empty. }
  clear Hd Hr. induction Hrtc as [|x y z Hxy _ IH]; [done|]. by apply IH, (disputes_step_Inv x).
Qed.

(** (C14) In every reachable state an account's reserve is exactly the sum of its
    bonds over all disputed markets, no market has more than [MaxDisputes]
    suggestions, and the [i]-th suggestion carries the [i]-th bond. *)
Theorem disputes_funded s :
  cur_minimum_balance ≤ OutcomeBond → reachable s →
  (∀ x, cur_reserved_named reserve_id x (currency s) = all_bonds_by x (Disputes s)) ∧
  (∀ id, Z.of_nat (length (disputes_of id (Disputes s))) ≤ MaxDisputes) ∧
  (∀ id i d, disputes_of id (Disputes s) !! i = Some d →
    md_bond d = default_outcome_bond OutcomeBond OutcomeFactor i).
Proof.
  intros Hed Hr%disputes_reachable_Inv; [|done]. split; [apply (inv_funded _ _ Hr)|]. unfold disputes_of.
  split; intros id; destruct (Disputes s !! id) as [ds|] eqn:Hid; cbn; try lia.
  - by apply (inv_length _ _ Hr id).
  - intros i d Hd. by apply (inv_bond _ _ Hr id ds).
  - done.
Qed.

(** (C24) When the market resolves to [o], every bond of the market is freed:
    those who suggested [o] get theirs back and an equal share of the pool of the
    lost bonds and the incoming imbalance; only the remainder of the division -
    the whole pool when nobody suggested [o] - is handed back, and all disputes of
    the market, and only those, are forgotten. *)
Theorem exchange_settles s id m o amt b v' :
  cur_minimum_balance ≤ OutcomeBond → reachable s → 0 ≤ amt →
  let ds := disputes_of id (Disputes s) in
  let winners := correct o ds in
  let pool := amt + slashed o ds in
  let share := pool / Z.of_nat (length winners) in
  pool ≤ u128_max →
  exchange reserve_id id m o amt (view s) = (Ok b, v') →
  v'.1 = (delete id (Disputes s), resolution s) ∧
  (∀ x, cur_reserved_named reserve_id x v'.2 =
    cur_reserved_named reserve_id x (currency s) - bonds_by x ds) ∧
  (if bool_decide (winners = []) then
     b = pool ∧ ∀ x, cur_free_balance x v'.2 = cur_free_balance x (currency s)
   else
     b = pool mod Z.of_nat (length winners) ∧
     ∀ x, cur_free_balance x v'.2 =
       cur_free_balance x (currency s) + returned o x ds + share * count_id x winners).
Proof.
  intros Hed Hr%disputes_reachable_Inv Hamt ds winners pool share Hpool He; [|done].
  eapply exchange_effect in He as (Hv & -> & Hres & Hf); [|done..].
  fold ds winners in Hv, Hres, Hf |- *. fold pool in Hf |- *.
  split; [done|]. split; [done|].
  destruct (bool_decide_reflect (winners = [])) as [Hw|Hw].
  - split; [lia|]. intros x. rewrite Hf, Hw.
    change (count_id x []) with 0. assert (returned o x ds = 0); [|lia].
    unfold returned. rewrite (zsum_ext _ (λ _, 0)).
    + clear. induction ds as [|d ds IH]; [done|]. by rewrite zsum_cons, IH.
    + intros d Hd. destruct (bool_decide_reflect (md_outcome d = o)) as [Ho|]; [|done].
      assert (md_by d ∈ winners) as Hin; [|rewrite Hw in Hin; by apply not_elem_of_nil in Hin].
      apply list_elem_of_fmap. exists d. split; [done|]. by apply list_elem_of_filter.
  - split; [|done]. rewrite Z.mod_eq; [lia|]. destruct winners; [done|cbn; lia].
Qed.

(** A successful suggestion differs from the current last outcome (or the
    report), becomes the outcome the market would resolve to, and moves the
    market's automatic resolution: the previous block loses one entry, the block
    [dispute_duration] from now gains one. *)
Theorem suggest_effect s s' now who id outcome :
  suggest now (Some who) id outcome s = (Ok tt, s') →
  ∃ m r, let ds := disputes_of id (Disputes s) in
    let bond := default_outcome_bond OutcomeBond OutcomeFactor (length ds) in
    let ends := saturating_add u64_max now (dispute_duration (deadlines m)) in
    api_market id (commons s) = Ok m ∧ report m = Some r ∧
    matches_outcome_report m outcome = true ∧
    md_outcome <$> last ds ≠ Some outcome ∧ (ds = [] → report_outcome r ≠ outcome) ∧
    fst (on_resolution id m (view s')) = Ok (Some outcome) ∧
    api_get_auto_resolve id m (Disputes s') = Some ends ∧
    cur_free_balance who (currency s') = cur_free_balance who (currency s) - bond ∧
    ∀ id' b, auto_resolve_count id' b (resolution s') =
      (if decide (id = id' ∧ api_get_auto_resolve id m (Disputes s) = Some b)
       then Z.max 0 (auto_resolve_count id' b (resolution s) - 1)
       else auto_resolve_count id' b (resolution s))
      + (if decide ((id, ends) = (id', b)) then 1 else 0).
Proof.
  intros Hs. apply suggest_inv in Hs as (who' & m & r & l & r1 & n & r1' & n' & Hs). cbv zeta in Hs.
  destruct Hs as ([= <-] & Hm & Hmech & Hst & Hmat & Hrep & Hlast & Hnil & _ & Hres & Hrem & Hadd & ->).
  exists m, r. cbv zeta. set (ds := disputes_of id (Disputes s)) in *.
  assert (bool_decide (dispute_mechanism m = Some MDM_SimpleDisputes) = true) as Hbm
    by by apply bool_decide_true.
  assert (∀ d : DisputesMap, api_get_auto_resolve id m d = get_auto_resolve (disputes_of id d) m) as Hget.
  { intros d. unfold api_get_auto_resolve. by rewrite Hbm. }
  rewrite !Hget. cbn [Disputes resolution currency]. fold ds.
  assert (∀ d, disputes_of id (<[id := ds ++ [d]]> (Disputes s)) = ds ++ [d]) as Hds.
  { intros d. unfold disputes_of. by rewrite lookup_insert_eq. }
  split_and!; try done.
  - unfold on_resolution, view, ensure_dispute_mechanism, ensureR.
    cbn [Disputes resolution currency]. rewrite Hbm.
    unfold mbind, M_bind, lift, Prelude.lift, Prelude.ensureR, ensure, Prelude.ensure.
    rewrite bool_decide_true by done. cbn. rewrite Hds, last_snoc. done.
  - rewrite Hds. unfold get_auto_resolve. by rewrite last_snoc.
  - apply cur_reserve_named_ok in Hres as (_ & Hf & _); [|pose proof (bond_bounds (length ds)); lia].
    by rewrite Hf, at_eq.
  - intros id' b. rewrite (add_auto_resolve_ok _ _ _ _ _ Hadd). f_equal.
    unfold remove_auto_resolve in Hrem. destruct (get_auto_resolve ds m) as [b0|].
    + rewrite (remove_auto_resolve_spec _ _ _ _ _ Hrem).
      repeat destruct (decide _); try done; naive_solver.
    + injection Hrem as _ <-. rewrite decide_False; [done|]. naive_solver.
Qed.
End Properties.

(** ** Example *)
Module Example.
Definition chain : Type := State MarketCommons.State MarketIdsPerDisputeBlock NativeLedger.
Definition alice : AccountId := 1.
Definition bob : AccountId := 2.
Definition rid : ReserveIdentifier := "zge/spdi".
Definition the_report : Report := mk_Report 90 9 (Categorical 0).
Definition the_market : Market :=
  mk_Market Ztg 9 Permissionless 0 9 [] (MT_Categorical 3) (Block (mk_Range 0 100))
    (mk_Deadlines 1 1 30) Lmsr Disputed (Some the_report) None (Some MDM_SimpleDisputes)
    MarketBonds_default None.
Definition start : chain :=
  mk_State (MarketCommons.mk_State {[ 7 := the_market ]} (Some 8) ∅) ∅
    (mk_NativeLedger {[ alice := 10000%N; bob := 10000%N ]} ∅ ∅) ∅ [].

Definition suggest_ now who id o : Store chain unit := suggest_outcome rid 2000 500 6 now who id o.
Definition first : chain := snd (suggest_ 100 (Some alice) 7 (Categorical 1) start).
Definition second : chain := snd (suggest_ 110 (Some bob) 7 (Categorical 2) first).

Lemma second_reachable : reachable rid 2000 500 6 second.
Proof.
  exists start. split; [by split|]. eapply rtc_l; [|eapply rtc_l; [|apply rtc_refl]].
  - apply (step_suggest rid 2000 500 6 start 100 (Some alice) 7 (Categorical 1)).
  - apply (step_suggest rid 2000 500 6 first 110 (Some bob) 7 (Categorical 2)).
Qed.

Lemma bond_in_range : 0 ≤ 2000 ≤ u128_max. Proof. done. Qed.
Lemma factor_nonneg : 0 ≤ 500. Proof. done. Qed.
Lemma max_in_range : 0 ≤ 6 ≤ u32_max. Proof. done. Qed.
Lemma deposit_le_bond : cur_minimum_balance (L := NativeLedger) ≤ 2000. Proof. done. Qed.

Lemma disputes_funded_witness :
  cur_reserved_named rid bob (currency second) = all_bonds_by bob (Disputes second) ∧
  md_bond <$> disputes_of 7 (Disputes second) = [2000; 2500].
Proof.
  split; [|vm_compute; reflexivity].
  destruct (disputes_funded rid 2000 500 6 bond_in_range factor_nonneg max_in_range second
    deposit_le_bond second_reachable) as [Hf _]. apply Hf.
Defined.

(** The market resolves to Bob's outcome with an incoming imbalance of 100. *)
Lemma exchange_settles_witness :
  let v' := snd (exchange rid 7 the_market (Categorical 2) 100 (view second)) in
  cur_free_balance bob v'.2 = 10000 + 2100.
Proof.
  cbv zeta. destruct (exchange_settles rid 2000 500 6 bond_in_range factor_nonneg max_in_range second 7
    the_market (Categorical 2) 100 0 (snd (exchange rid 7 the_market (Categorical 2) 100 (view second)))
    deposit_le_bond second_reachable) as (_ & _ & Hpay);
    [done|by vm_compute|vm_compute; reflexivity|].
  rewrite bool_decide_false in Hpay by (by vm_compute). destruct Hpay as [_ Hpay].
  rewrite Hpay. vm_compute. reflexivity.
Defined.

Lemma suggest_effect_witness :
  fst (on_resolution 7 the_market (view second)) = Ok (Some (Categorical 2)) ∧
  auto_resolve_count 7 140 (resolution second) = 1 ∧
  auto_resolve_count 7 130 (resolution second) = 0.
Proof.
  destruct (suggest_effect rid 2000 500 6 bond_in_range factor_nonneg max_in_range first second 110 bob 7 (Categorical 2))
    as (m & r & Hm & _ & _ & _ & _ & Hres & _ & _ & Hcount); [vm_compute; reflexivity|].
  assert (api_market 7 (commons first) = Ok the_market) as Hm' by (vm_compute; reflexivity).
  rewrite Hm in Hm'. injection Hm' as ->.
  split; [exact Hres|]. rewrite !Hcount. vm_compute. done.
Defined.
End Example.
