(* ===== verification/GlobalDisputes.v ===== *)
(** * Global disputes

    [zrml/global-disputes/src/{lib,types,global_disputes_pallet_api}.rs]: when a
    dispute mechanism fails, token holders vote on the outcome by locking tokens;
    the outcome with the largest sum of locks is cached while votes come in, and
    the fees go to the owners of the winning outcome. *)
From S2P Require Import Prelude Types Errors Currencies Ledgers MarketCommons Disputes.

(** ** Data *)

Inductive Possession : Type :=
| Paid (owner : AccountId) (fee : Balance)
| Shared (owners : list AccountId).

Definition get_shared_owners (p : Possession) : option (list AccountId) :=
  match p with Shared owners => Some owners | _ => None end.

Record OutcomeInfo : Type := mk_OutcomeInfo {
  outcome_sum : Balance;
  possession : Possession;
}.

Inductive GdStatus : Type :=
| GdActive (add_outcome_end vote_end : BlockNumber)
| GdFinished
| GdDestroyed.
#[export] Instance GdStatus_eq_dec : EqDecision GdStatus.
Proof. solve_decision. Defined.

Record GlobalDisputeInfo : Type := mk_GlobalDisputeInfo {
  winner_outcome : OutcomeReport;
  outcome_info : OutcomeInfo;
  gd_status : GdStatus;
}.

(** [GlobalDisputeInfo::new] and [GlobalDisputeInfo::update_winner] *)
Definition GlobalDisputeInfo_new (outcome : OutcomeReport) (p : Possession) (vote_sum : Balance)
    : GlobalDisputeInfo :=
  mk_GlobalDisputeInfo outcome (mk_OutcomeInfo vote_sum p) (GdActive 0 0).
Definition GlobalDisputeInfo_update_winner (outcome : OutcomeReport) (vote_sum : Balance)
    (g : GlobalDisputeInfo) : GlobalDisputeInfo :=
  mk_GlobalDisputeInfo outcome (mk_OutcomeInfo vote_sum (possession (outcome_info g)))
    (gd_status g).
Definition set_status (st : GdStatus) (g : GlobalDisputeInfo) : GlobalDisputeInfo :=
  mk_GlobalDisputeInfo (winner_outcome g) (outcome_info g) st.
Definition set_outcome_info (i : OutcomeInfo) (g : GlobalDisputeInfo) : GlobalDisputeInfo :=
  mk_GlobalDisputeInfo (winner_outcome g) i (gd_status g).

Record InitialItem : Type := mk_InitialItem {
  item_outcome : OutcomeReport;
  item_owner : AccountId;
  item_amount : Balance;
}.

Inductive Event : Type :=
| AddedVotingOutcome (market_id : MarketId) (owner : AccountId) (outcome : OutcomeReport)
| GlobalDisputeWinnerDetermined (market_id : MarketId)
| OutcomeOwnersRewarded (market_id : MarketId) (owners : list AccountId)
| OutcomeOwnerRewarded (market_id : MarketId) (owner : AccountId)
| OutcomesPartiallyCleaned (market_id : MarketId)
| OutcomesFullyCleaned (market_id : MarketId)
| VotedOnOutcome (voter : AccountId) (market_id : MarketId) (outcome : OutcomeReport)
    (vote_amount : Balance).

Abbreviation OutcomeMap := (gmap OutcomeReport OutcomeInfo).
Abbreviation LockInfo := (list (MarketId * Balance)).

(** The storage of the pallet. [Outcomes] is a double map. *)
Record Storage : Type := mk_Storage {
  Locks : gmap AccountId LockInfo;
  Outcomes : gmap MarketId OutcomeMap;
  GlobalDisputesInfo : gmap MarketId GlobalDisputeInfo;
  events : list Event;
}.

Definition outcomes_of (id : MarketId) (g : Storage) : OutcomeMap := default ∅ (Outcomes g !! id).
Definition locks_of (x : AccountId) (g : Storage) : LockInfo := default [] (Locks g !! x).

Definition set_locks (x : AccountId) (l : LockInfo) (g : Storage) : Storage :=
  mk_Storage (<[x := l]> (Locks g)) (Outcomes g) (GlobalDisputesInfo g) (events g).
Definition set_outcomes (id : MarketId) (m : OutcomeMap) (g : Storage) : Storage :=
  mk_Storage (Locks g) (<[id := m]> (Outcomes g)) (GlobalDisputesInfo g) (events g).
Definition insert_outcome (id : MarketId) (o : OutcomeReport) (i : OutcomeInfo) (g : Storage)
    : Storage :=
  set_outcomes id (<[o := i]> (outcomes_of id g)) g.
Definition set_info (id : MarketId) (i : GlobalDisputeInfo) (g : Storage) : Storage :=
  mk_Storage (Locks g) (Outcomes g) (<[id := i]> (GlobalDisputesInfo g)) (events g).
Definition add_event (e : Event) (g : Storage) : Storage :=
  mk_Storage (Locks g) (Outcomes g) (GlobalDisputesInfo g) (e :: events g).

(** The storage together with the rest of the chain the extrinsics work on. *)
Record State (C R L : Type) : Type := mk_State {
  commons : C;
  resolution : R;
  currency : L;
  storage : Storage;
}.
Arguments mk_State {C R L} _ _ _ _.
Arguments commons {C R L} _.
Arguments resolution {C R L} _.
Arguments currency {C R L} _.
Arguments storage {C R L} _.

Definition set_currency {C R L} (l : L) (s : State C R L) : State C R L :=
  mk_State (commons s) (resolution s) l (storage s).
Definition set_storage {C R L} (f : Storage → Storage) (s : State C R L) : State C R L :=
  mk_State (commons s) (resolution s) (currency s) (f (storage s)).
Definition deposit_event {C R L} (e : Event) : Store (State C R L) unit :=
  modify (set_storage (add_event e)).

(** ** The cached winner *)

Definition update_winner (id : MarketId) (outcome : OutcomeReport) (info : OutcomeInfo)
    (g : Storage) : Storage :=
  let amount := outcome_sum info in
  set_info id
    match GlobalDisputesInfo g !! id with
    | None => GlobalDisputeInfo_new outcome (possession info) amount
    | Some prev =>
        if outcome_sum (outcome_info prev) <=? amount
        then GlobalDisputeInfo_update_winner outcome amount prev else prev
    end g.

(** [update_winner] followed by the insertion of the outcome. *)
Definition put_outcome (id : MarketId) (o : OutcomeReport) (i : OutcomeInfo) (g : Storage)
    : Storage :=
  insert_outcome id o i (update_winner id o i g).

Section GlobalDisputes.
Context {C R L : Type} `{MarketCommonsPalletApi C, DisputeResolutionApi R, Currency L}.
(** Constants of the runtime. *)
Context (GlobalDisputeLockId : LockIdentifier) (reward_account : MarketId → AccountId).
Context (AddOutcomePeriod GdVotingPeriod : BlockNumber).
Context (MaxGlobalDisputeVotes MaxOwners RemoveKeysLimit : Z).
Context (MinOutcomeVoteAmount VotingOutcomeFee : Balance).
(** The order in which [drain_prefix] visits the outcomes (by hashed key). *)
Context (iteration_order : OutcomeMap → list (OutcomeReport * OutcomeInfo)).

Definition add_vote_outcome (now : BlockNumber) (origin : option AccountId) (market_id : MarketId)
    (outcome : OutcomeReport) : Store (State C R L) unit :=
  transactional (
    owner ← ok_or origin BadOrigin;
    rm ← gets (λ s, api_market market_id (commons s));
    m ← lift rm;
    _ ← ensure (matches_outcome_report m outcome) GD_OutcomeMismatch;
    oi ← gets (λ s, GlobalDisputesInfo (storage s) !! market_id);
    gd_info ← ok_or oi GD_GlobalDisputeNotFound;
    _ ← match gd_status gd_info with
        | GdActive add_outcome_end _ => ensure (now <=? add_outcome_end) GD_AddOutcomePeriodIsOver
        | _ => fail GD_InvalidGlobalDisputeStatus
        end;
    existing ← gets (λ s, outcomes_of market_id (storage s) !! outcome);
    _ ← ensure (negb (bool_decide (is_Some existing))) GD_OutcomeAlreadyExists;
    _ ← zoom currency set_currency
          (cur_transfer owner (reward_account market_id) VotingOutcomeFee KeepAlive);
    let info := mk_OutcomeInfo VotingOutcomeFee (Paid owner VotingOutcomeFee) in
    _ ← modify (set_storage (put_outcome market_id outcome info));
    deposit_event (AddedVotingOutcome market_id owner outcome)).

(** [drain_prefix(market_id).take(RemoveKeysLimit)] *)
Definition drained (id : MarketId) (g : Storage) : list (OutcomeReport * OutcomeInfo) :=
  take (Z.to_nat RemoveKeysLimit) (iteration_order (outcomes_of id g)).
Definition drain (id : MarketId) (g : Storage) : Storage :=
  set_outcomes id (foldr (λ p m, delete p.1 m) (outcomes_of id g) (drained id g)) g.

Definition cleaned_event (id : MarketId) : Store (State C R L) unit :=
  m ← gets (λ s, outcomes_of id (storage s));
  deposit_event (if bool_decide (m = ∅) then OutcomesFullyCleaned id
                 else OutcomesPartiallyCleaned id).

Definition refund_vote_fees (origin : option AccountId) (market_id : MarketId)
    : Store (State C R L) unit :=
  transactional (
    _ ← ok_or origin BadOrigin;
    oi ← gets (λ s, GlobalDisputesInfo (storage s) !! market_id);
    gd_info ← ok_or oi GD_GlobalDisputeNotFound;
    _ ← ensure (bool_decide (gd_status gd_info = GdDestroyed)) GD_GlobalDisputeNotDestroyed;
    items ← gets (λ s, drained market_id (storage s));
    _ ← modify (set_storage (drain market_id));
    _ ← for_each (λ p, match possession p.2 with
          | Paid owner fee =>
              _ ← attempt (zoom currency set_currency
                    (cur_transfer (reward_account market_id) owner fee AllowDeath));
              mret tt
          | Shared _ => mret tt
          end) items;
    cleaned_event market_id).

Definition purge_outcomes (origin : option AccountId) (market_id : MarketId)
    : Store (State C R L) unit :=
  transactional (
    _ ← ok_or origin BadOrigin;
    oi ← gets (λ s, GlobalDisputesInfo (storage s) !! market_id);
    gd_info ← ok_or oi GD_GlobalDisputeNotFound;
    _ ← ensure (bool_decide (gd_status gd_info = GdFinished)) GD_UnfinishedGlobalDispute;
    winning_outcome ← gets (λ s, outcomes_of market_id (storage s) !! winner_outcome gd_info);
    _ ← modify (set_storage (λ g,
          set_outcomes market_id (delete (winner_outcome gd_info) (outcomes_of market_id g)) g));
    _ ← match winning_outcome with
        | Some info => modify (set_storage (set_info market_id (set_outcome_info info gd_info)))
        | None => mret tt
        end;
    _ ← modify (set_storage (drain market_id));
    cleaned_event market_id).

(** The loop over the owners; a transfer that fails is ignored. *)
Fixpoint reward_owners (from : AccountId) (reward_per_each : Balance) (owners : list AccountId)
    (remainder : Balance) : Store L unit :=
  match owners with
  | [] => mret tt
  | winner :: owners =>
      let reward := Z.min remainder reward_per_each in
      let remainder := saturating_sub remainder reward in
      _ ← attempt (cur_transfer from winner reward AllowDeath);
      reward_owners from reward_per_each owners remainder
  end.

Definition reward_shared_possession (market_id : MarketId) (reward : Balance)
    (owners : list AccountId) : Store (State C R L) unit :=
  _ ← (if bool_decide (owners = []) then mret tt
       else zoom currency set_currency (reward_owners (reward_account market_id)
              (reward / Z.of_nat (length owners)) owners reward));
  deposit_event (OutcomeOwnersRewarded market_id owners).

Definition reward_paid_possession (market_id : MarketId) (reward : Balance) (owner : AccountId)
    : Store (State C R L) unit :=
  _ ← attempt (zoom currency set_currency
        (cur_transfer (reward_account market_id) owner reward AllowDeath));
  deposit_event (OutcomeOwnerRewarded market_id owner).

Definition reward_outcome_owner (origin : option AccountId) (market_id : MarketId)
    : Store (State C R L) unit :=
  transactional (
    _ ← ok_or origin BadOrigin;
    m ← gets (λ s, outcomes_of market_id (storage s));
    _ ← ensure (bool_decide (m = ∅)) GD_OutcomesNotFullyCleaned;
    oi ← gets (λ s, GlobalDisputesInfo (storage s) !! market_id);
    gd_info ← ok_or oi GD_GlobalDisputeNotFound;
    _ ← ensure (bool_decide (gd_status gd_info = GdFinished)) GD_UnfinishedGlobalDispute;
    reward ← gets (λ s, cur_free_balance (reward_account market_id) (currency s));
    _ ← ensure (negb (reward =? 0)) GD_NoFundsToReward;
    match possession (outcome_info gd_info) with
    | Shared owners => reward_shared_possession market_id reward owners
    | Paid owner _ => reward_paid_possession market_id reward owner
    end).

(** [BoundedVec::try_insert] *)
Definition try_insert_lock (i : nat) (p : MarketId * Balance) (l : LockInfo) : Res LockInfo :=
  if Z.of_nat (length l) <? MaxGlobalDisputeVotes then Ok (take i l ++ p :: drop i l)
  else Err GD_MaxVotesReached.

Definition vote_on_outcome (now : BlockNumber) (origin : option AccountId) (market_id : MarketId)
    (outcome : OutcomeReport) (amount : Balance) : Store (State C R L) unit :=
  transactional (
    voter ← ok_or origin BadOrigin;
    voter_free_balance ← gets (λ s, cur_free_balance voter (currency s));
    _ ← ensure (amount <=? voter_free_balance) GD_InsufficientAmount;
    _ ← ensure (MinOutcomeVoteAmount <=? amount) GD_AmountTooLow;
    oi ← gets (λ s, GlobalDisputesInfo (storage s) !! market_id);
    gd_info ← ok_or oi GD_GlobalDisputeNotFound;
    _ ← match gd_status gd_info with
        | GdActive add_outcome_end vote_end =>
            ensure ((add_outcome_end <? now) && (now <=? vote_end)) GD_NotInGdVotingPeriod
        | _ => fail GD_InvalidGlobalDisputeStatus
        end;
    oo ← gets (λ s, outcomes_of market_id (storage s) !! outcome);
    info ← ok_or oo GD_OutcomeDoesNotExist;
    let add_to_outcome_sum a :=
      modify (set_storage (put_outcome market_id outcome
        (mk_OutcomeInfo (saturating_add u128_max (outcome_sum info) a) (possession info)))) in
    lock_info ← gets (λ s, locks_of voter (storage s));
    locked ←
      match search_key fst market_id lock_info with
      | Ok i =>
          let prev_amount_acc := default 0 (snd <$> lock_info !! i) in
          let new_amount_acc := saturating_add u128_max amount prev_amount_acc in
          _ ← ensure (new_amount_acc <=? voter_free_balance) GD_InsufficientAmount;
          _ ← add_to_outcome_sum amount;
          mret (new_amount_acc, <[i := (market_id, new_amount_acc)]> lock_info)
      | Err i =>
          lock_info' ← lift (try_insert_lock i (market_id, amount) lock_info);
          _ ← add_to_outcome_sum amount;
          mret (amount, lock_info')
      end;
    let '(lock_amount, lock_info) := locked in
    _ ← modify (λ s, set_currency
          (cur_extend_lock GlobalDisputeLockId voter lock_amount (currency s)) s);
    _ ← modify (set_storage (set_locks voter lock_info));
    deposit_event (VotedOnOutcome voter market_id outcome amount)).

(** The predicate of [retain]: locks on disputes that are still active. *)
Definition keeps_lock (g : Storage) (p : MarketId * Balance) : bool :=
  match GlobalDisputesInfo g !! p.1 with
  | Some gd_info => match gd_status gd_info with GdActive _ _ => true | _ => false end
  | None => false
  end.

(** [retain] and the maximum it computes. *)
Fixpoint retain_locks (g : Storage) (l : LockInfo) (lock_needed : Balance) : LockInfo * Balance :=
  match l with
  | [] => ([], lock_needed)
  | p :: l =>
      if keeps_lock g p then
        let '(l', lock_needed) := retain_locks g l (Z.max lock_needed p.2) in (p :: l', lock_needed)
      else retain_locks g l lock_needed
  end.

(** [T::Lookup::lookup] resolves the address; here it is an account already. *)
Definition unlock_vote_balance (origin : option AccountId) (voter : AccountId)
    : Store (State C R L) unit :=
  transactional (
    _ ← ok_or origin BadOrigin;
    g ← gets storage;
    let '(lock_info, lock_needed) := retain_locks g (locks_of voter g) 0 in
    _ ← modify (set_storage (set_locks voter lock_info));
    modify (λ s, set_currency
      (if lock_needed =? 0 then cur_remove_lock GlobalDisputeLockId voter (currency s)
       else cur_set_lock GlobalDisputeLockId voter lock_needed (currency s)) s)).
End GlobalDisputes.

(** ** The interface of the prediction markets pallet *)

Class GlobalDisputesPalletApi (C G R : Type) := {
  gd_get_add_outcome_period : BlockNumber;
  gd_get_vote_period : BlockNumber;
  gd_determine_voting_winner : MarketId → Store (G * R) (option OutcomeReport);
  gd_does_exist : MarketId → G → bool;
  gd_is_active : MarketId → G → bool;
  gd_start_global_dispute : BlockNumber → C → MarketId → list InitialItem → Store (G * R) Z;
  gd_destroy_global_dispute : MarketId → Store (G * R) unit;
}.

Section Api.
Context {C R : Type} `{MarketCommonsPalletApi C, DisputeResolutionApi R}.
Context (AddOutcomePeriod GdVotingPeriod : BlockNumber) (MaxOwners : Z).
Abbreviation St := (Storage * R)%type.

Definition on_storage (f : Storage → Storage) (s : St) : St := (f s.1, s.2).
Definition set_schedule (r : R) (s : St) : St := (s.1, r).

Definition determine_voting_winner (id : MarketId) : Store St (option OutcomeReport) :=
  oi ← gets (λ s, GlobalDisputesInfo s.1 !! id);
  match oi with
  | Some gd_info =>
      _ ← modify (on_storage (set_info id (set_status GdFinished gd_info)));
      _ ← modify (on_storage (add_event (GlobalDisputeWinnerDetermined id)));
      mret (Some (winner_outcome gd_info))
  | None => mret None
  end.

Definition does_exist (id : MarketId) (g : Storage) : bool :=
  bool_decide (is_Some (GlobalDisputesInfo g !! id)).
Definition is_active (id : MarketId) (g : Storage) : bool :=
  match GlobalDisputesInfo g !! id with
  | Some gd_info => match gd_status gd_info with GdActive _ _ => true | _ => false end
  | None => false
  end.

(** [BoundedVec::try_push] *)
Definition try_push_owner (x : AccountId) (owners : list AccountId) : Res (list AccountId) :=
  if Z.of_nat (length owners) <? MaxOwners then Ok (owners ++ [x]) else Err GD_MaxOwnersReached.

(** One round of the loop over the initial items. *)
Definition add_initial_item (m : Market) (id : MarketId) (item : InitialItem) : Store St unit :=
  _ ← ensure (matches_outcome_report m (item_outcome item)) GD_OutcomeMismatch;
  oo ← gets (λ s, outcomes_of id s.1 !! item_outcome item);
  match oo with
  | Some info =>
      let sum := saturating_add u128_max (outcome_sum info) (item_amount item) in
      owners ← ok_or (get_shared_owners (possession info)) GD_SharedPossessionRequired;
      owners ← lift (try_push_owner (item_owner item) owners);
      modify (on_storage (put_outcome id (item_outcome item) (mk_OutcomeInfo sum (Shared owners))))
  | None =>
      (* [BoundedVec::try_from] of one element *)
      if 1 <=? MaxOwners then
        modify (on_storage (put_outcome id (item_outcome item)
          (mk_OutcomeInfo (item_amount item) (Shared [item_owner item]))))
      else mret tt
  end.

Definition start_global_dispute (now : BlockNumber) (c : C) (id : MarketId)
    (initial_items : list InitialItem) : Store St Z :=
  m ← lift (api_market id c);
  oi ← gets (λ s, GlobalDisputesInfo s.1 !! id);
  _ ← ensure (negb (bool_decide (is_Some oi))) GD_GlobalDisputeAlreadyExists;
  _ ← for_each (add_initial_item m id) initial_items;
  let add_outcome_end := saturating_add u64_max now AddOutcomePeriod in
  let vote_end := saturating_add u64_max add_outcome_end GdVotingPeriod in
  ids_len ← zoom snd set_schedule (add_auto_resolve id vote_end);
  oi ← gets (λ s, GlobalDisputesInfo s.1 !! id);
  gd_info ← ok_or oi GD_GlobalDisputeNotFound;
  _ ← modify (on_storage (set_info id (set_status (GdActive add_outcome_end vote_end) gd_info)));
  mret ids_len.

Definition destroy_global_dispute (id : MarketId) : Store St unit :=
  oi ← gets (λ s, GlobalDisputesInfo s.1 !! id);
  gd_info ← ok_or oi GD_GlobalDisputeNotFound;
  match gd_status gd_info with
  | GdActive _ vote_end =>
      _ ← modify (λ s, set_schedule (snd (remove_auto_resolve id vote_end s.2)) s);
      modify (on_storage (set_info id (set_status GdDestroyed gd_info)))
  | _ => mret tt
  end.

#[export] Instance GlobalDisputes_api : GlobalDisputesPalletApi C Storage R := {
  gd_get_add_outcome_period := AddOutcomePeriod;
  gd_get_vote_period := GdVotingPeriod;
  gd_determine_voting_winner := determine_voting_winner;
  gd_does_exist := does_exist;
  gd_is_active := is_active;
  gd_start_global_dispute := start_global_dispute;
  gd_destroy_global_dispute := destroy_global_dispute;
}.
End Api.

(** ** The cached winner has the largest sum *)
Section Winner.
Implicit Types g : Storage.

Lemma outcomes_insert id o i g id' :
  outcomes_of id' (insert_outcome id o i g) =
  if decide (id = id') then <[o := i]> (outcomes_of id g) else outcomes_of id' g.
Proof.
  unfold outcomes_of at 1, insert_outcome, set_outcomes. cbn [Outcomes]. rewrite lookup_insert.
  by destruct (decide _).
Qed.

(** The cache [gd] agrees with the outcomes [m] of its dispute. *)
Definition winner_ok (gd : GlobalDisputeInfo) (m : OutcomeMap) : Prop :=
  (∃ i, m !! winner_outcome gd = Some i ∧ outcome_sum i = outcome_sum (outcome_info gd)) ∧
  ∀ o i, m !! o = Some i → outcome_sum i ≤ outcome_sum (outcome_info gd).

Definition is_active_status (st : GdStatus) : bool :=
  match st with GdActive _ _ => true | _ => false end.

(** Disputes that were never started have no outcomes, and the cache of every
    active one is right. *)
Definition winners_inv g : Prop :=
  ∀ id, match GlobalDisputesInfo g !! id with
        | None => outcomes_of id g = ∅
        | Some gd => is_active_status (gd_status gd) = true → winner_ok gd (outcomes_of id g)
        end.

Lemma put_outcome_info id o i g id' :
  GlobalDisputesInfo (put_outcome id o i g) !! id' =
  if decide (id = id') then
    Some match GlobalDisputesInfo g !! id with
    | None => GlobalDisputeInfo_new o (possession i) (outcome_sum i)
    | Some prev =>
        if outcome_sum (outcome_info prev) <=? outcome_sum i
        then GlobalDisputeInfo_update_winner o (outcome_sum i) prev else prev
    end
  else GlobalDisputesInfo g !! id'.
Proof. unfold put_outcome. cbn. rewrite lookup_insert. by destruct (decide _). Qed.

Lemma put_outcome_outcomes id o i g id' :
  outcomes_of id' (put_outcome id o i g) =
  if decide (id = id') then <[o := i]> (outcomes_of id g) else outcomes_of id' g.
Proof. unfold put_outcome. by rewrite outcomes_insert. Qed.

(** An outcome whose sum does not decrease keeps the cache right. *)
Lemma put_outcome_inv id o i g :
  (∀ i', outcomes_of id g !! o = Some i' → outcome_sum i' ≤ outcome_sum i) →
  winners_inv g → winners_inv (put_outcome id o i g).
Proof.
  intros Hmono Hinv id'. specialize (Hinv id'). rewrite put_outcome_info, put_outcome_outcomes.
  destruct (decide (id = id')) as [<-|]; [|done].
  destruct (GlobalDisputesInfo g !! id) as [gd|].
  2:{ rewrite Hinv. intros _. split; cbn.
      - exists i. by rewrite lookup_insert_eq.
      - intros o' i' [[_ <-]|[_ ?]]%lookup_insert_Some; [lia|done]. }
  destruct (Z.leb_spec (outcome_sum (outcome_info gd)) (outcome_sum i)) as [Hle|Hlt]; intros Hact.
  - specialize (Hinv Hact) as [_ Hmax]. split; cbn.
    + exists i. by rewrite lookup_insert_eq.
    + intros o' i' [[_ <-]|[_ Ho']]%lookup_insert_Some; [lia|]. specialize (Hmax o' i' Ho'). lia.
  - specialize (Hinv Hact) as [(iw & Hw & Hs) Hmax]. split.
    + exists iw. split; [|done]. rewrite lookup_insert_ne; [done|]. intros ->.
      specialize (Hmono iw Hw). lia.
    + intros o' i' [[_ <-]|[_ Ho']]%lookup_insert_Some; [lia|by apply (Hmax o')].
Qed.
End Winner.

(** ** Locks *)
Section LockInfo.
Implicit Types l : LockInfo.

Definition max_lock l : Balance := foldr (λ p acc, Z.max p.2 acc) 0 l.

Lemma max_lock_cons p l : max_lock (p :: l) = Z.max p.2 (max_lock l).
Proof. done. Qed.
Lemma max_lock_nonneg l : 0 ≤ max_lock l.
Proof. induction l as [|p l IH]; [done|]. rewrite max_lock_cons. lia. Qed.
Lemma max_lock_app l k : max_lock (l ++ k) = Z.max (max_lock l) (max_lock k).
Proof.
  induction l as [|p l IH]; cbn [app].
  - pose proof (max_lock_nonneg k). change (max_lock []) with 0. lia.
  - rewrite !max_lock_cons, IH. lia.
Qed.
Lemma le_max_lock p l : p ∈ l → p.2 ≤ max_lock l.
Proof. induction 1; rewrite max_lock_cons; lia. Qed.

Lemma max_lock_insert i p l : max_lock (take i l ++ p :: drop i l) = Z.max p.2 (max_lock l).
Proof.
  rewrite max_lock_app, max_lock_cons. pose proof (max_lock_app (take i l) (drop i l)) as Hl.
  rewrite take_drop in Hl. lia.
Qed.
Lemma max_lock_update i p q l :
  l !! i = Some p → p.2 ≤ q.2 → max_lock (<[i := q]> l) = Z.max q.2 (max_lock l).
Proof.
  intros Hp Hle. rewrite insert_take_drop by (by eapply lookup_lt_Some).
  rewrite <- (take_drop_middle l i p Hp) at 3. rewrite !max_lock_app, !max_lock_cons. lia.
Qed.

Lemma retain_locks_spec g l acc :
  0 ≤ acc →
  retain_locks g l acc =
    (filter (λ p, keeps_lock g p = true) l,
     Z.max acc (max_lock (filter (λ p, keeps_lock g p = true) l))).
Proof.
  revert acc. induction l as [|p l IH]; intros acc Hacc; cbn [retain_locks].
  - change (filter _ []) with ([] : LockInfo). change (max_lock []) with 0. by rewrite Z.max_l.
  - rewrite filter_cons. destruct (keeps_lock g p) eqn:Hk.
    + rewrite IH by lia. rewrite decide_True by done. rewrite max_lock_cons. f_equal. lia.
    + rewrite IH by done. by rewrite decide_False.
Qed.
End LockInfo.

(** ** Reachable states *)
Section Properties.
Context {C R L : Type} `{MarketCommonsPalletApi C, DisputeResolutionApi R, CurrencyLaws L}.
Context (GlobalDisputeLockId : LockIdentifier) (reward_account : MarketId → AccountId).
Context (AddOutcomePeriod GdVotingPeriod : BlockNumber).
Context (MaxGlobalDisputeVotes MaxOwners RemoveKeysLimit : Z).
Context (MinOutcomeVoteAmount VotingOutcomeFee : Balance).
Context (iteration_order : OutcomeMap → list (OutcomeReport * OutcomeInfo)).
Context (Hfee : 0 ≤ VotingOutcomeFee ≤ u128_max) (Hmin : 0 ≤ MinOutcomeVoteAmount).
Context (Horder : ∀ m, iteration_order m ≡ₚ map_to_list m).
Implicit Types s : State C R L.

Abbreviation add_outcome := (add_vote_outcome reward_account VotingOutcomeFee).
Abbreviation refund := (refund_vote_fees reward_account RemoveKeysLimit iteration_order).
Abbreviation purge := (purge_outcomes RemoveKeysLimit iteration_order).
Abbreviation reward := (reward_outcome_owner reward_account).
Abbreviation vote := (vote_on_outcome GlobalDisputeLockId MaxGlobalDisputeVotes MinOutcomeVoteAmount).
Abbreviation unlock := (unlock_vote_balance GlobalDisputeLockId).
Abbreviation start := (start_global_dispute AddOutcomePeriod GdVotingPeriod MaxOwners).

Definition info_ok (i : OutcomeInfo) : Prop :=
  0 ≤ outcome_sum i ≤ u128_max ∧ ∀ x fee, possession i = Paid x fee → 0 ≤ fee.
Definition sums_inv (g : Storage) : Prop :=
  ∀ id o i, outcomes_of id g !! o = Some i → info_ok i.

Record StorageInv (g : Storage) : Prop := {
  inv_winners : winners_inv g;
  inv_sums : sums_inv g;
}.

(** The lock of every account is the largest of its votes. *)
Record LockInv (g : Storage) (l : L) : Prop := {
  inv_locked x : cur_locked GlobalDisputeLockId x l = max_lock (locks_of x g);
  inv_sorted x : key_sorted fst (locks_of x g);
  inv_amounts x : Forall (λ p, 0 ≤ p.2 ≤ u128_max) (locks_of x g);
}.

Lemma put_outcome_StorageInv id o i g :
  info_ok i →
  (∀ i', outcomes_of id g !! o = Some i' → outcome_sum i' ≤ outcome_sum i) →
  StorageInv g → StorageInv (put_outcome id o i g).
Proof.
  intros Hi Hmono [Hw Hs]. split; [by apply put_outcome_inv|].
  intros id' o' i'. rewrite put_outcome_outcomes. destruct (decide (id = id')) as [<-|].
  - intros [[_ <-]|[_ Ho]]%lookup_insert_Some; [done|by apply (Hs id o')].
  - apply Hs.
Qed.

Lemma outcomes_of_set id m g id' :
  outcomes_of id' (set_outcomes id m g) = if decide (id = id') then m else outcomes_of id' g.
Proof.
  unfold outcomes_of, set_outcomes. cbn [Outcomes]. rewrite lookup_insert.
  by destruct (decide _).
Qed.

(** Shrinking the outcomes of a dispute that is not active any more. *)
Lemma shrink_StorageInv id m g gd :
  GlobalDisputesInfo g !! id = Some gd → is_active_status (gd_status gd) = false →
  m ⊆ outcomes_of id g → StorageInv g → StorageInv (set_outcomes id m g).
Proof.
  intros Hgd Hst Hm [Hw Hs]. split.
  - intros id'. specialize (Hw id'). rewrite outcomes_of_set. cbn.
    destruct (decide (id = id')) as [<-|]; [|done]. rewrite Hgd. by rewrite Hst.
  - intros id' o i. rewrite outcomes_of_set. destruct (decide (id = id')) as [<-|]; [|apply Hs].
    intros Ho. apply (Hs id o). by eapply lookup_weaken.
Qed.

(** A change of the cache that leaves the dispute inactive. *)
Lemma deactivate_StorageInv id gd' g :
  is_Some (GlobalDisputesInfo g !! id) → is_active_status (gd_status gd') = false →
  StorageInv g → StorageInv (set_info id gd' g).
Proof.
  intros Hgd Hst [Hw Hs]. split; [|done]. intros id'. specialize (Hw id'). cbn.
  rewrite lookup_insert. destruct (decide (id = id')) as [<-|]; [by rewrite Hst|done].
Qed.

Lemma foldr_delete_subseteq (l : list (OutcomeReport * OutcomeInfo)) (m : OutcomeMap) :
  foldr (λ p m, delete p.1 m) m l ⊆ m.
Proof.
  induction l as [|p l IH]; cbn; [done|]. transitivity (foldr (λ p m, delete p.1 m) m l); [|done].
  apply delete_subseteq.
Qed.

Lemma add_outcome_inv now origin id o s s' u :
  add_outcome now origin id o s = (Ok u, s') →
  ∃ owner m gd a e l, origin = Some owner ∧ api_market id (commons s) = Ok m ∧
    matches_outcome_report m o = true ∧ GlobalDisputesInfo (storage s) !! id = Some gd ∧
    gd_status gd = GdActive a e ∧ now ≤ a ∧ outcomes_of id (storage s) !! o = None ∧
    cur_transfer owner (reward_account id) VotingOutcomeFee KeepAlive (currency s) = (Ok tt, l) ∧
    s' = mk_State (commons s) (resolution s) l (add_event (AddedVotingOutcome id owner o)
      (put_outcome id o (mk_OutcomeInfo VotingOutcomeFee (Paid owner VotingOutcomeFee)) (storage s))).
Proof.
  unfold add_vote_outcome, deposit_event. intros Ha. run_inv Ha. guards.
  match goal with Hx : match gd_status ?g with _ => _ end _ = _ |- _ =>
    destruct (gd_status g) as [ae ve| |] eqn:Hst; run_inv Hx; guards end.
  repeat match goal with
  | u : unit |- _ => destruct u
  | Hn : ¬ is_Some _ |- _ => apply eq_None_not_Some in Hn
  end.
  do 6 eexists. split_and!; try (reflexivity || eassumption).
Qed.

Lemma vote_inv now origin id o amount s s' u :
  vote now origin id o amount s = (Ok u, s') →
  ∃ voter gd a e info lock_amount locks',
    let free := cur_free_balance voter (currency s) in
    let locks := locks_of voter (storage s) in
    let info' := mk_OutcomeInfo (saturating_add u128_max (outcome_sum info) amount)
      (possession info) in
    origin = Some voter ∧ amount ≤ free ∧ MinOutcomeVoteAmount ≤ amount ∧
    GlobalDisputesInfo (storage s) !! id = Some gd ∧ gd_status gd = GdActive a e ∧
    a < now ≤ e ∧ outcomes_of id (storage s) !! o = Some info ∧
    ((∃ i prev, search_key fst id locks = Ok i ∧ locks !! i = Some (id, prev) ∧
        lock_amount = saturating_add u128_max amount prev ∧ lock_amount ≤ free ∧
        locks' = <[i := (id, lock_amount)]> locks) ∨
     (∃ i, search_key fst id locks = Err i ∧ Z.of_nat (length locks) < MaxGlobalDisputeVotes ∧
        lock_amount = amount ∧ locks' = take i locks ++ (id, amount) :: drop i locks)) ∧
    s' = mk_State (commons s) (resolution s)
           (cur_extend_lock GlobalDisputeLockId voter lock_amount (currency s))
           (add_event (VotedOnOutcome voter id o amount)
             (set_locks voter locks' (put_outcome id o info' (storage s)))).
Proof.
  unfold vote_on_outcome, deposit_event. intros Ha. run_inv Ha. guards.
  match goal with Hx : match gd_status ?g with _ => _ end _ = _ |- _ =>
    destruct (gd_status g) as [ae ve| |] eqn:Hst; run_inv Hx; guards end.
  match goal with p : (Z * LockInfo)%type |- _ => destruct p as [lock_amount locks'] end.
  run_inv Ha.
  match goal with Hx : match search_key fst id ?l with _ => _ end _ = _ |- _ =>
    rename Hx into Hlock; destruct (search_key fst id l) as [i|i] eqn:Hsearch; run_inv Hlock end.
  - pose proof (search_key_ok fst id _ i Hsearch) as ([id' prev] & Hi & Heq). cbn in Heq. subst id'.
    rewrite Hi in *. cbn [fmap option_fmap option_map snd default from_option] in *.
    change (Datatypes.id prev) with prev in *. guards. do 7 eexists. cbv zeta.
    split_and!; try (eassumption || lia || (lazymatch goal with |- Some _ = Some _ => reflexivity end)).
    + left. exists i, prev. split; [done|]. split; [done|]. split; [reflexivity|]. split; [done|reflexivity].
    + reflexivity.
  - unfold try_insert_lock in *.
    match goal with Hx : (if ?a <? ?b then _ else _) = Ok _ |- _ => destruct (Z.ltb_spec a b); simplify_eq end.
    do 7 eexists. cbv zeta.
    split_and!; try (eassumption || lia || (lazymatch goal with |- Some _ = Some _ => reflexivity end)).
    + right. exists i. split; [done|]. split; [done|]. split; reflexivity.
    + reflexivity.
Qed.

(** Only balances move. *)
Definition calm s s' : Prop :=
  storage s' = storage s ∧
  ∀ x, cur_locked GlobalDisputeLockId x (currency s') = cur_locked GlobalDisputeLockId x (currency s).
#[local] Instance calm_preorder : PreOrder calm.
Proof.
  split; [by split|]. intros s1 s2 s3 [H1' H2'] [H3' H4']. split; [congruence|].
  intros x. by rewrite H4', H2'.
Qed.

Lemma transfer_calm from to amt er s s' r :
  0 ≤ amt → zoom currency set_currency (cur_transfer from to amt er) s = (r, s') → calm s s'.
Proof.
  intros Hamt. unfold zoom. destruct (cur_transfer from to amt er (currency s)) as [[[]|e] l] eqn:Ht;
    intros [= <- <-]; (split; [done|]); intros x; cbn.
  - apply cur_transfer_ok in Ht as (_ & _ & _ & Hl); [|done]. by rewrite Hl.
  - by apply cur_transfer_err in Ht as ->.
Qed.

Lemma attempt_transfer_calm from to amt er s s' r :
  0 ≤ amt → attempt (zoom currency set_currency (cur_transfer from to amt er)) s = (Ok r, s') →
  calm s s'.
Proof. intros Hamt Ha. apply attempt_ok_inv in Ha. by eapply transfer_calm. Qed.

Lemma cleaned_event_inv id s s' u :
  cleaned_event id s = (Ok u, s') → ∃ e, s' = set_storage (add_event e) s.
Proof. unfold cleaned_event, deposit_event. intros Hc. run_inv Hc. eauto. Qed.

Lemma refund_inv origin id s s' u :
  (∀ i o x fee, outcomes_of id (storage s) !! o = Some i → possession i = Paid x fee → 0 ≤ fee) →
  refund origin id s = (Ok u, s') →
  ∃ gd e, GlobalDisputesInfo (storage s) !! id = Some gd ∧ gd_status gd = GdDestroyed ∧
    calm (set_storage (λ g, add_event e (drain RemoveKeysLimit iteration_order id g)) s) s'.
Proof.
  intros Hpaid. unfold refund_vote_fees. intros Hr. run_inv Hr. guards.
  match goal with Hc : cleaned_event _ _ = _ |- _ => apply cleaned_event_inv in Hc as [e ->] end.
  match goal with Hc : for_each _ _ _ = _ |- _ => rename Hc into Hloop end.
  eexists _, e. split; [eassumption|]. split; [done|].
  apply (for_each_rel calm) in Hloop.
  - destruct Hloop as [Hs Hl]. split; [cbn in *; by rewrite Hs|done].
  - intros p t t' v Hp Hx. destruct (possession p.2) as [x fee|] eqn:Hposs; run_inv Hx; [|done].
    eapply transfer_calm; [|eassumption].
    apply elem_of_take in Hp as (i & Hi & _). apply list_elem_of_lookup_2 in Hi.
    rewrite Horder in Hi. destruct p as [o oi]. apply elem_of_map_to_list in Hi. by eapply Hpaid.
Qed.

Lemma set_info_id id gd g : GlobalDisputesInfo g !! id = Some gd → set_info id gd g = g.
Proof. intros Hg. unfold set_info. rewrite insert_id by done. by destruct g. Qed.

(** What [purge_outcomes] does before it drains. *)
Definition purged_info (gd : GlobalDisputeInfo) (m : OutcomeMap) : GlobalDisputeInfo :=
  match m !! winner_outcome gd with Some info => set_outcome_info info gd | None => gd end.
Lemma purged_info_status gd m : gd_status (purged_info gd m) = gd_status gd.
Proof. unfold purged_info. by destruct (m !! _). Qed.
Lemma purged_info_winner gd m : winner_outcome (purged_info gd m) = winner_outcome gd.
Proof. unfold purged_info. by destruct (m !! _). Qed.
Definition purged id gd (g : Storage) : Storage :=
  set_info id (purged_info gd (outcomes_of id g))
    (set_outcomes id (delete (winner_outcome gd) (outcomes_of id g)) g).

Lemma purge_inv origin id s s' u :
  purge origin id s = (Ok u, s') →
  ∃ gd e, GlobalDisputesInfo (storage s) !! id = Some gd ∧ gd_status gd = GdFinished ∧
    s' = set_storage (λ g, add_event e (drain RemoveKeysLimit iteration_order id (purged id gd g))) s.
Proof.
  unfold purge_outcomes. intros Hr. run_inv Hr. guards.
  match goal with Hc : cleaned_event _ _ = _ |- _ => apply cleaned_event_inv in Hc as [e ->] end.
  match goal with Hg : GlobalDisputesInfo _ !! id = Some ?g, Hx : match _ with _ => _ end _ = _ |- _ =>
    rename Hx into Hwin; exists g, e end.
  split; [done|]. split; [done|].
  destruct (outcomes_of id (storage s) !! winner_outcome _) as [info|] eqn:Hw; run_inv Hwin;
    unfold set_storage; cbn -[set_info]; unfold purged, purged_info; rewrite Hw; [done|].
  by rewrite set_info_id.
Qed.

Lemma reward_owners_locks from share owners rem (l l' : L) u :
  0 ≤ share → 0 ≤ rem → reward_owners from share owners rem l = (Ok u, l') →
  ∀ x, cur_locked GlobalDisputeLockId x l' = cur_locked GlobalDisputeLockId x l.
Proof.
  intros Hshare. revert rem l. induction owners as [|y owners IH]; intros rem l Hrem Hloop x;
    cbn [reward_owners] in Hloop.
  - by run_inv Hloop.
  - apply bind_ok_inv in Hloop as (r & l1 & Hx & Hloop). apply attempt_ok_inv in Hx.
    transitivity (cur_locked GlobalDisputeLockId x l1).
    + eapply IH; [|exact Hloop]. unfold saturating_sub. lia.
    + destruct r as [[]|e].
      * apply cur_transfer_ok in Hx as (_ & _ & _ & Hl); [by rewrite Hl|lia].
      * by apply cur_transfer_err in Hx as ->.
Qed.

Lemma reward_inv origin id s s' u :
  reward origin id s = (Ok u, s') →
  ∃ gd e, outcomes_of id (storage s) = ∅ ∧ GlobalDisputesInfo (storage s) !! id = Some gd ∧
    gd_status gd = GdFinished ∧ cur_free_balance (reward_account id) (currency s) ≠ 0 ∧
    calm (set_storage (add_event e) s) s'.
Proof.
  unfold reward_outcome_owner. intros Hr. run_inv Hr. guards.
  set (pot := cur_free_balance _ _) in *. assert (0 ≤ pot) as Hpot by apply cur_free_nonneg.
  match goal with Hg : GlobalDisputesInfo _ !! id = Some ?g |- _ => exists g end.
  destruct (possession _) as [x fee|owners].
  - unfold reward_paid_possession, deposit_event in Hr. run_inv Hr.
    match goal with Hx : zoom _ _ _ _ = _ |- _ => apply transfer_calm in Hx as [Hs Hl]; [|done] end.
    eexists. split_and!; try done. unfold set_storage. cbn. by rewrite Hs.
  - unfold reward_shared_possession, deposit_event in Hr. run_inv Hr.
    match goal with Hx : (if _ then _ else _) _ = (_, ?t) |- _ => rename Hx into Hloop; rename t into s1 end.
    assert (calm s s1) as [Hs Hl].
    + destruct (bool_decide_reflect (owners = [])) as [|Hne]; run_inv Hloop; [done|].
      split; [done|]. cbn. intros y. eapply reward_owners_locks; [|exact Hpot|exact Hloop].
      apply Z.div_pos; [done|]. destruct owners; [done|cbn; lia].
    + eexists. split_and!; try done. unfold set_storage. cbn. by rewrite Hs.
Qed.

(** ** The invariants are kept *)

Lemma saturating_sum x y : 0 ≤ x ≤ u128_max → 0 ≤ y → x ≤ saturating_add u128_max x y ≤ u128_max.
Proof. unfold saturating_add. lia. Qed.

Lemma add_event_StorageInv e g : StorageInv g → StorageInv (add_event e g).
Proof. by intros [Hw Hs]. Qed.
Lemma set_locks_StorageInv x l g : StorageInv g → StorageInv (set_locks x l g).
Proof. by intros [Hw Hs]. Qed.

Lemma drain_StorageInv id g gd :
  GlobalDisputesInfo g !! id = Some gd → is_active_status (gd_status gd) = false →
  StorageInv g → StorageInv (drain RemoveKeysLimit iteration_order id g).
Proof.
  intros Hgd Hst Hinv. apply (shrink_StorageInv id _ g gd); try done. apply foldr_delete_subseteq.
Qed.

(** While the initial items are added the dispute is absent or active. *)
Definition starting id (g : Storage) : Prop :=
  match GlobalDisputesInfo g !! id with
  | None => True | Some gd => is_active_status (gd_status gd) = true
  end.

Lemma put_outcome_starting id o i g : starting id g → starting id (put_outcome id o i g).
Proof.
  unfold starting. rewrite put_outcome_info, decide_True by done.
  destruct (GlobalDisputesInfo g !! id); [|done]. by destruct (_ <=? _).
Qed.

Lemma add_initial_item_inv m id item (v v' : Storage * R) u :
  0 ≤ item_amount item ≤ u128_max →
  add_initial_item (R := R) MaxOwners m id item v = (Ok u, v') →
  StorageInv v.1 ∧ starting id v.1 → StorageInv v'.1 ∧ starting id v'.1.
Proof.
  intros Hamt Ha [Hinv Hst]. unfold add_initial_item in Ha. run_inv Ha.
  destruct (outcomes_of id v.1 !! item_outcome item) as [info|] eqn:Ho.
  - run_inv Ha. destruct (inv_sums _ Hinv id _ info Ho) as [Hr _].
    pose proof (saturating_sum (outcome_sum info) (item_amount item)).
    split; [|by apply put_outcome_starting].
    apply put_outcome_StorageInv; [|intros i' Hi'|done].
    + split; [cbn; lia|done].
    + rewrite Ho in Hi'. injection Hi' as <-. cbn. lia.
  - destruct (1 <=? MaxOwners); run_inv Ha; [|done]. split; [|by apply put_outcome_starting].
    apply put_outcome_StorageInv; [by split|congruence|done].
Qed.

Lemma start_inv now c id items (v v' : Storage * R) n :
  Forall (λ item, 0 ≤ item_amount item ≤ u128_max) items → StorageInv v.1 →
  start now c id items v = (Ok n, v') →
  StorageInv v'.1 ∧ Locks v'.1 = Locks v.1 ∧ GlobalDisputesInfo v.1 !! id = None ∧
  ∃ gd, GlobalDisputesInfo v'.1 !! id = Some gd ∧
    let add_outcome_end := saturating_add u64_max now AddOutcomePeriod in
    let vote_end := saturating_add u64_max add_outcome_end GdVotingPeriod in
    gd_status gd = GdActive add_outcome_end vote_end ∧
    add_auto_resolve id vote_end v.2 = (Ok n, v'.2).
Proof.
  intros Hitems Hinv Hs. unfold start_global_dispute in Hs. run_inv Hs. guards.
  match goal with Hl : for_each _ _ _ = (_, ?t) |- _ => rename Hl into Hloop; rename t into v1 end.
  match goal with Hn : ¬ is_Some _ |- _ => apply eq_None_not_Some in Hn; rename Hn into Hnone end.
  pose (P := λ w w' : Storage * R, (StorageInv w.1 ∧ starting id w.1 →
    StorageInv w'.1 ∧ starting id w'.1) ∧ Locks w'.1 = Locks w.1 ∧ w'.2 = w.2).
  assert (PreOrder P) as Hpre.
  { split; [by intros w|]. intros w1 w2 w3 (? & ? & ?) (? & ? & ?). split; [auto|]. split; congruence. }
  apply (for_each_rel P) in Hloop as (Hinv1 & Hlocks & Hres).
  2:{ intros item w w' u Hin Hitem. split; [|].
      - eapply add_initial_item_inv; [|exact Hitem]. rewrite Forall_forall in Hitems. by apply Hitems.
      - unfold add_initial_item in Hitem. run_inv Hitem.
        destruct (outcomes_of id w.1 !! _); run_inv Hitem; [done|].
        destruct (1 <=? MaxOwners); by run_inv Hitem. }
  destruct Hinv1 as [[Hw Hsum] Hst]; [split; [done|]; unfold starting; by rewrite Hnone|].
  cbn in *. match goal with Hg : _ !! id = Some ?g |- _ => rename g into gd; rename Hg into Hgd end.
  split; [|split; [done|split; [done|]]].
  - split; [|done]. intros id'. specialize (Hw id'). cbn.
    rewrite lookup_insert. destruct (decide (id = id')) as [<-|]; [|done].
    unfold starting in Hst. rewrite Hgd in Hw, Hst. intros _. by apply Hw.
  - eexists. rewrite lookup_insert_eq. split; [done|]. split; [done|]. by rewrite Hres in *.
Qed.

Lemma calm_LockInv s s' g :
  calm s s' → Locks (storage s') = Locks g → LockInv g (currency s) →
  LockInv (storage s') (currency s').
Proof.
  intros [_ Hl] Hlocks [Hlk Hs Ha].
  assert (∀ x, locks_of x (storage s') = locks_of x g) as He by (intros x; unfold locks_of; by rewrite Hlocks).
  split; intros x; rewrite He; [by rewrite Hl|done|done].
Qed.

Lemma same_LockInv g g' (l : L) : Locks g' = Locks g → LockInv g l → LockInv g' l.
Proof.
  intros Hlocks [Hlk Hs Ha].
  assert (∀ x, locks_of x g' = locks_of x g) as He by (intros x; unfold locks_of; by rewrite Hlocks).
  split; intros x; by rewrite He.
Qed.

Lemma locks_of_set x l g y : locks_of y (set_locks x l g) = if decide (x = y) then l else locks_of y g.
Proof. unfold locks_of, set_locks. cbn. rewrite lookup_insert. by destruct (decide _). Qed.

Lemma at_lock (x y : AccountId) {A} (a b : A) :
  (if decide ((GlobalDisputeLockId, x) = (GlobalDisputeLockId, y)) then a else b) =
  (if decide (x = y) then a else b).
Proof. repeat destruct (decide _); congruence. Qed.

Definition Inv s : Prop := StorageInv (storage s) ∧ LockInv (storage s) (currency s).

(** The effect of a vote on the list of locks. *)
Definition vote_locks (id : MarketId) (amount free la : Balance) (locks locks' : LockInfo) : Prop :=
  (∃ i prev, search_key fst id locks = Ok i ∧ locks !! i = Some (id, prev) ∧
     la = saturating_add u128_max amount prev ∧ la ≤ free ∧ locks' = <[i := (id, la)]> locks) ∨
  (∃ i, search_key fst id locks = Err i ∧ Z.of_nat (length locks) < MaxGlobalDisputeVotes ∧
     la = amount ∧ locks' = take i locks ++ (id, amount) :: drop i locks).

Lemma vote_locks_ok id amount free la locks locks' :
  0 ≤ amount ≤ u128_max → key_sorted fst locks → Forall (λ p, 0 ≤ p.2 ≤ u128_max) locks →
  vote_locks id amount free la locks locks' →
  0 ≤ la ≤ u128_max ∧ key_sorted fst locks' ∧ Forall (λ p, 0 ≤ p.2 ≤ u128_max) locks' ∧
  max_lock locks' = Z.max la (max_lock locks).
Proof.
  intros Hamt Hks Hall [(i & prev & Hsearch & Hi & -> & _ & ->)|(i & Hsearch & _ & -> & ->)].
  - pose proof (Forall_lookup_1 _ _ _ _ Hall Hi) as Hprev. cbn in Hprev.
    assert (prev ≤ saturating_add u128_max amount prev ≤ u128_max) as Hsat
      by (unfold saturating_add; lia).
    split; [lia|]. split; [by eapply key_sorted_update|]. split.
    + apply Forall_insert; [done|cbn; lia].
    + by rewrite (max_lock_update _ (id, prev)) by (done || cbn; lia).
  - split; [lia|]. split; [by apply key_sorted_insert|]. split.
    + apply Forall_app. split; [by apply Forall_take|]. constructor; [done|by apply Forall_drop].
    + apply max_lock_insert.
Qed.

Lemma vote_Inv now origin id o amount s s' u :
  amount ≤ u128_max → Inv s → vote now origin id o amount s = (Ok u, s') → Inv s'.
Proof.
  intros Hmax [Hinv Hlock] Hv. apply vote_inv in Hv as
    (voter & gd & a & e & info & la & locks' & _ & Hfree & Hamt & Hgd & Hst & _ & Ho & Hcase & ->).
  destruct (inv_sums _ Hinv id o info Ho) as [Hr Hp].
  pose proof (saturating_sum (outcome_sum info) amount Hr ltac:(lia)) as Hsum.
  apply vote_locks_ok in Hcase as (Hla & Hks & Hall & Hm);
    [|lia|apply (inv_sorted _ _ Hlock)|apply (inv_amounts _ _ Hlock)].
  split; cbn [storage currency].
  - apply add_event_StorageInv, set_locks_StorageInv, put_outcome_StorageInv;
      [split; [cbn; lia|done]| |done].
    intros i' Hi'. rewrite Ho in Hi'. injection Hi' as <-. cbn. lia.
  - apply (same_LockInv (set_locks voter locks' (storage s))); [done|].
    destruct (cur_extend_lock_spec GlobalDisputeLockId voter la (currency s)) as [_ Hl].
    split; intros x; rewrite locks_of_set.
    + rewrite Hl, at_lock, (inv_locked _ _ Hlock). by destruct (decide (voter = x)) as [<-|].
    + destruct (decide _); [done|apply (inv_sorted _ _ Hlock)].
    + destruct (decide _); [done|apply (inv_amounts _ _ Hlock)].
Qed.

Lemma unlock_inv origin x s s' u :
  unlock origin x s = (Ok u, s') →
  let kept := filter (λ p, keeps_lock (storage s) p = true) (locks_of x (storage s)) in
  is_Some origin ∧
  s' = mk_State (commons s) (resolution s)
    (if max_lock kept =? 0 then cur_remove_lock GlobalDisputeLockId x (currency s)
     else cur_set_lock GlobalDisputeLockId x (max_lock kept) (currency s))
    (set_locks x kept (storage s)).
Proof.
  unfold unlock_vote_balance. intros Hu. run_inv Hu. rewrite retain_locks_spec in Hu by lia.
  rewrite Z.max_r in Hu by apply max_lock_nonneg. run_inv Hu. split; [by eexists|done].
Qed.

Lemma unlock_locked x kept (l : L) y :
  cur_locked GlobalDisputeLockId y
    (if max_lock kept =? 0 then cur_remove_lock GlobalDisputeLockId x l
     else cur_set_lock GlobalDisputeLockId x (max_lock kept) l) =
  if decide (x = y) then max_lock kept else cur_locked GlobalDisputeLockId y l.
Proof.
  destruct (Z.eqb_spec (max_lock kept) 0) as [Hz|Hz].
  - destruct (cur_remove_lock_spec GlobalDisputeLockId x l) as [_ ->]. by rewrite at_lock, Hz.
  - destruct (cur_set_lock_spec GlobalDisputeLockId x (max_lock kept) l) as [_ ->].
    by rewrite at_lock.
Qed.

Lemma unlock_Inv origin x s s' u : Inv s → unlock origin x s = (Ok u, s') → Inv s'.
Proof.
  intros [Hinv Hlock] Hu. apply unlock_inv in Hu as [_ ->]. split; cbn [storage currency].
  - by apply set_locks_StorageInv.
  - split; intros y; rewrite locks_of_set.
    + rewrite unlock_locked, (inv_locked _ _ Hlock). by destruct (decide _).
    + destruct (decide _); [|apply (inv_sorted _ _ Hlock)].
      apply key_sorted_filter, (inv_sorted _ _ Hlock).
    + destruct (decide _); [|apply (inv_amounts _ _ Hlock)].
      apply Forall_forall. intros p [_ Hp]%list_elem_of_filter.
      revert p Hp. apply Forall_forall, (inv_amounts _ _ Hlock).
Qed.

(** Runs of the interface on the pallet's part of the state. *)
Definition view s : Storage * R := (storage s, resolution s).
Definition put (v : Storage * R) s : State C R L := mk_State (commons s) v.2 (currency s) v.1.

(** Calls of the extrinsics, successful or not, successful calls of the interface
    (the caller undoes the others), and changes of the rest of the chain. *)
Inductive step s : State C R L → Prop :=
| step_add_outcome now origin id o : step s (snd (add_outcome now origin id o s))
| step_refund origin id : step s (snd (refund origin id s))
| step_purge origin id : step s (snd (purge origin id s))
| step_reward origin id : step s (snd (reward origin id s))
| step_vote now origin id o amount :
    amount ≤ u128_max → step s (snd (vote now origin id o amount s))
| step_unlock origin x : step s (snd (unlock origin x s))
| step_start now id items n v :
    Forall (λ item, 0 ≤ item_amount item ≤ u128_max) items →
    start now (commons s) id items (view s) = (Ok n, v) → step s (put v s)
| step_determine id w v : determine_voting_winner id (view s) = (Ok w, v) → step s (put v s)
| step_destroy id u v : destroy_global_dispute id (view s) = (Ok u, v) → step s (put v s)
| step_environment c r l :
    (∀ x, cur_locked GlobalDisputeLockId x l = cur_locked GlobalDisputeLockId x (currency s)) →
    step s (mk_State c r l (storage s)).

Definition genesis s : Prop :=
  storage s = mk_Storage ∅ ∅ ∅ [] ∧ ∀ x, cur_locked GlobalDisputeLockId x (currency s) = 0.
Definition reachable s : Prop := ∃ s0, genesis s0 ∧ rtc step s0 s.

Lemma call_Inv (f : Store (State C R L) unit) s :
  (∀ s' u, transactional f s = (Ok u, s') → Inv s') → Inv s → Inv (snd (transactional f s)).
Proof.
  intros Hf Hinv. destruct (transactional f s) as [[u|e] s'] eqn:Ht; cbn; [by eapply Hf|].
  by apply transactional_err in Ht as ->.
Qed.

Lemma determine_inv id w v v' :
  determine_voting_winner (R := R) id v = (Ok w, v') →
  v'.2 = v.2 ∧
  match GlobalDisputesInfo v.1 !! id with
  | Some gd => w = Some (winner_outcome gd) ∧ v'.1 = add_event (GlobalDisputeWinnerDetermined id)
      (set_info id (set_status GdFinished gd) v.1)
  | None => w = None ∧ v'.1 = v.1
  end.
Proof.
  unfold determine_voting_winner. intros Hd. run_inv Hd.
  destruct (GlobalDisputesInfo v.1 !! id); run_inv Hd; done.
Qed.

Lemma destroy_inv id u v v' :
  destroy_global_dispute (R := R) id v = (Ok u, v') →
  ∃ gd, GlobalDisputesInfo v.1 !! id = Some gd ∧
    match gd_status gd with
    | GdActive _ vote_end => v' = (set_info id (set_status GdDestroyed gd) v.1,
        snd (remove_auto_resolve id vote_end v.2))
    | _ => v' = v
    end.
Proof.
  unfold destroy_global_dispute. intros Hd. run_inv Hd. eexists. split; [eassumption|].
  destruct (gd_status _); by run_inv Hd.
Qed.

Lemma gd_step_Inv s s' : step s s' → Inv s → Inv s'.
Proof.
  intros Hs Hinv.
  destruct Hs as [now origin id o|origin id|origin id|origin id|now origin id o amount Hamt|origin x
    |now id items n v Hitems Hs|id w v Hd|id u v Hd|c r l Hl].
  - apply call_Inv; [|done]. intros s' u Ha. apply add_outcome_inv in Ha as
      (owner & m & gd & a & e & l & _ & _ & _ & _ & _ & _ & Ho & Ht & ->).
    destruct Hinv as [Hst Hlk]. apply cur_transfer_ok in Ht as (_ & _ & _ & Hl); [|lia].
    split; cbn [storage currency].
    + apply add_event_StorageInv, put_outcome_StorageInv; [|congruence|done].
      split; [cbn; lia|]. intros x fee [= _ <-]. lia.
    + apply (same_LockInv (storage s)); [done|]. destruct Hlk as [H1' H2' H3'].
      split; [intros x; by rewrite Hl|done..].
  - apply call_Inv; [|done]. destruct Hinv as [Hst Hlk]. intros s' u Ha. apply refund_inv in Ha as
      (gd & e & Hgd & Hd & Hcalm).
    2:{ intros i o x fee Hi Hp. by eapply (proj2 (inv_sums _ Hst id o i Hi)). }
    split; [|eapply (calm_LockInv _ s' (storage s)); [exact Hcalm|by rewrite (proj1 Hcalm)|exact Hlk]].
     destruct Hcalm as [-> _].
    apply add_event_StorageInv, (drain_StorageInv _ _ gd); [done|by rewrite Hd|done].
  - apply call_Inv; [|done]. destruct Hinv as [Hst Hlk]. intros s' u Ha. apply purge_inv in Ha as
      (gd & e & Hgd & Hd & ->). split; [|by apply (same_LockInv (storage s))].
    apply add_event_StorageInv.
    set (gd' := purged_info gd (outcomes_of id (storage s))).
    assert (is_active_status (gd_status gd') = false) as Hgd'.
    { subst gd'. unfold purged_info.
      destruct (outcomes_of id (storage s) !! _); cbn; by rewrite Hd. }
    apply (drain_StorageInv _ _ gd'); [by cbn; rewrite lookup_insert_eq|done|].
    apply deactivate_StorageInv; [by eexists|done|].
    apply (shrink_StorageInv _ _ _ gd); [done|by rewrite Hd|apply delete_subseteq|done].
  - apply call_Inv; [|done]. destruct Hinv as [Hst Hlk]. intros s' u Ha.
    apply reward_inv in Ha as (gd & e & _ & _ & _ & _ & Hcalm).
    split; [|eapply (calm_LockInv _ s' (storage s)); [exact Hcalm|by rewrite (proj1 Hcalm)|exact Hlk]].
     destruct Hcalm as [-> _]. by apply add_event_StorageInv.
  - apply call_Inv; [|done]. intros s' u. by apply vote_Inv.
  - apply call_Inv; [|done]. intros s' u. by apply unlock_Inv.
  - destruct Hinv as [Hst Hlk]. apply start_inv in Hs as (Hst' & Hlocks & _); [|done|done].
    split; [done|]. by apply (same_LockInv (storage s)).
  - destruct Hinv as [Hst Hlk]. apply determine_inv in Hd as [_ Hd]. cbn in Hd.
    destruct (GlobalDisputesInfo (storage s) !! id) as [gd|] eqn:Hgd; destruct Hd as [_ Hv];
      (split; [unfold put; cbn; rewrite Hv|by apply (same_LockInv (storage s)); [cbn; rewrite Hv|]]).
    + apply add_event_StorageInv, deactivate_StorageInv; [by eexists|done|done].
    + done.
  - destruct Hinv as [Hst Hlk]. apply destroy_inv in Hd as (gd & Hgd & Hd). cbn in Hgd.
    destruct (gd_status gd); subst v; [|done|done].
    split; [|by apply (same_LockInv (storage s))]. apply deactivate_StorageInv; [by eexists|done|done].
  - destruct Hinv as [Hst [H1' H2' H3']]. split; [done|].
    split; [intros x; cbn; by rewrite Hl|done..].
Qed.

Lemma gd_reachable_Inv s : reachable s → Inv s.
Proof.
  intros (s0 & [Hg Hl] & Hrtc). assert (Inv s0) as Hinv.
  { assert (∀ x, locks_of x (storage s0) = []) as Hlocks.
    { intros x. rewrite Hg. unfold locks_of. cbn. by rewrite lookup_empty. }
    assert (∀ id, outcomes_of id (storage s0) = ∅) as Hout.
    { intros id. rewrite Hg. unfold outcomes_of. cbn. by rewrite lookup_empty. }
    split; split.
    - intros id. rewrite Hout, Hg. cbn. by rewrite lookup_empty.
    - intros id o i. rewrite Hout. by rewrite lookup_empty.
    - intros x. by rewrite Hl, Hlocks.
    - intros x. rewrite Hlocks. constructor.
    - intros x. rewrite Hlocks. constructor. }
  clear Hg Hl. induction Hrtc as [|x y z Hxy _ IH]; [done|]. by apply IH, (gd_step_Inv x).
Qed.

(** (C13) In every reachable state the cached winner of an active global dispute is
    one of its outcomes and has the largest sum of locks, so closing the dispute
    hands out an outcome that no other outcome beats; the cache can be trusted
    although votes only ever compare with it. *)
Theorem voting_winner_is_max s id gd (r : R) :
  reachable s → GlobalDisputesInfo (storage s) !! id = Some gd →
  is_active id (storage s) = true →
  ∃ w i g', determine_voting_winner id (storage s, r) = (Ok (Some w), (g', r)) ∧
    outcomes_of id (storage s) !! w = Some i ∧
    (∀ o i', outcomes_of id (storage s) !! o = Some i' → outcome_sum i' ≤ outcome_sum i) ∧
    is_active id g' = false ∧ outcomes_of id g' = outcomes_of id (storage s) ∧
    Locks g' = Locks (storage s).
Proof.
  intros [[Hw _] _]%gd_reachable_Inv Hgd Hact. unfold is_active in Hact. rewrite Hgd in Hact.
  specialize (Hw id). rewrite Hgd in Hw. destruct (Hw Hact) as [(i & Hi & Hsum) Hmax].
  destruct (determine_voting_winner id (storage s, r)) as [[w|e] [g' r']] eqn:Hd.
  2:{ unfold determine_voting_winner, mbind, M_bind, gets, Prelude.gets, modify, Prelude.modify in Hd.
      cbn in Hd. by rewrite Hgd in Hd. }
  apply determine_inv in Hd as [Hr Hd]. cbn in Hr, Hd. rewrite Hgd in Hd. destruct Hd as [-> ->].
  exists (winner_outcome gd), i. eexists. rewrite Hr. split; [done|]. split; [done|].
  split; [intros o i' Ho; rewrite Hsum; by apply (Hmax o)|].
  split; [|done]. unfold is_active. cbn. by rewrite lookup_insert_eq.
Qed.

(** In every reachable state the lock of an account is the largest of its
    votes. [unlock_vote_balance], which anyone may call for anyone, always succeeds,
    drops exactly the votes on disputes that are over and lowers the lock to the
    largest remaining vote - to nothing when none is left - without touching other
    accounts or any balance. *)
Theorem unlock_effect s caller x :
  reachable s →
  let kept := filter (λ p, keeps_lock (storage s) p = true) (locks_of x (storage s)) in
  ∃ s', unlock (Some caller) x s = (Ok tt, s') ∧
    cur_locked GlobalDisputeLockId x (currency s) = max_lock (locks_of x (storage s)) ∧
    cur_locked GlobalDisputeLockId x (currency s') = max_lock kept ∧
    locks_of x (storage s') = kept ∧
    (∀ y, y ≠ x → cur_locked GlobalDisputeLockId y (currency s') =
      cur_locked GlobalDisputeLockId y (currency s) ∧
      locks_of y (storage s') = locks_of y (storage s)) ∧
    same_funds (currency s) (currency s') ∧
    ((∀ p, p ∈ locks_of x (storage s) → is_active p.1 (storage s) = false) →
      cur_locked GlobalDisputeLockId x (currency s') = 0).
Proof.
  intros [_ Hlk]%gd_reachable_Inv kept.
  destruct (unlock (Some caller) x s) as [[[]|e] s'] eqn:Hu.
  2:{ unfold unlock_vote_balance, transactional, mbind, M_bind, gets, Prelude.gets, modify, Prelude.modify in Hu.
      cbn in Hu. by destruct (retain_locks _ _ _). }
  exists s'. split; [done|]. apply unlock_inv in Hu as [_ ->]. cbn [storage currency]. fold kept.
  rewrite unlock_locked, locks_of_set, !decide_True by done.
  split; [apply (inv_locked _ _ Hlk)|]. split; [done|]. split; [done|]. split; [|split].
  - intros y Hy. by rewrite unlock_locked, locks_of_set, !decide_False by done.
  - destruct (_ =? _); [apply cur_remove_lock_spec|apply cur_set_lock_spec].
  - intros Hover. assert (kept = []) as ->; [|done].
    destruct kept as [|p l] eqn:Hk; [done|]. exfalso.
    assert (p ∈ kept) as Hp by (rewrite Hk; by left).
    apply list_elem_of_filter in Hp as [Hkp Hp]. specialize (Hover p Hp).
    unfold keeps_lock, is_active in *. by rewrite Hkp in Hover.
Qed.

Lemma outcomes_of_voted e x l id o i g id' :
  outcomes_of id' (add_event e (set_locks x l (put_outcome id o i g))) =
  if decide (id = id') then <[o := i]> (outcomes_of id g) else outcomes_of id' g.
Proof. apply put_outcome_outcomes. Qed.
Lemma locks_of_voted e x l g : locks_of x (add_event e (set_locks x l g)) = l.
Proof. unfold locks_of. cbn. by rewrite lookup_insert_eq. Qed.

(** A vote is counted in full and once: the outcome's sum grows by the
    amount, no other sum changes, the voter's total on the market is the sum of its
    votes there, stays within the free balance and within the voter's lock, and the
    number of markets voted on stays bounded. *)
Theorem vote_effect s s' now voter id o amount :
  reachable s → amount ≤ u128_max → vote now (Some voter) id o amount s = (Ok tt, s') →
  ∃ i total, outcomes_of id (storage s) !! o = Some i ∧ MinOutcomeVoteAmount ≤ amount ∧
    outcomes_of id (storage s') = <[o := mk_OutcomeInfo
      (saturating_add u128_max (outcome_sum i) amount) (possession i)]> (outcomes_of id (storage s)) ∧
    (∀ id', id' ≠ id → outcomes_of id' (storage s') = outcomes_of id' (storage s)) ∧
    (id, total) ∈ locks_of voter (storage s') ∧
    ((∃ prev, (id, prev) ∈ locks_of voter (storage s) ∧
        total = saturating_add u128_max amount prev) ∨
     (∀ p, p ∈ locks_of voter (storage s) → p.1 ≠ id) ∧ total = amount) ∧
    total ≤ cur_free_balance voter (currency s) ∧
    cur_locked GlobalDisputeLockId voter (currency s') =
      Z.max total (cur_locked GlobalDisputeLockId voter (currency s)) ∧
    Z.of_nat (length (locks_of voter (storage s'))) ≤
      Z.max MaxGlobalDisputeVotes (Z.of_nat (length (locks_of voter (storage s)))).
Proof.
  intros [Hst Hlk]%gd_reachable_Inv Hmax Hv. apply vote_inv in Hv as
    (v & gd & a & e & info & la & locks' & [= <-] & Hfree & Hamt & _ & _ & _ & Ho & Hcase & ->).
  exists info, la. cbn [storage currency].
  rewrite locks_of_voted. setoid_rewrite outcomes_of_voted.
  destruct (cur_extend_lock_spec GlobalDisputeLockId voter la (currency s)) as [_ Hl].
  rewrite Hl, !decide_True by done. split; [done|]. split; [done|]. split; [|split].
  - done.
  - intros id' Hne. by rewrite decide_False.
  - destruct Hcase as [(i & prev & Hsearch & Hi & -> & Hle & ->)|(i & Hsearch & Hlen & -> & ->)].
    + split; [by apply list_elem_of_insert, (lookup_lt_Some _ _ _ Hi)|]. split.
      { left. exists prev. split; [by eapply list_elem_of_lookup_2|done]. }
      split; [done|]. split; [done|]. rewrite length_insert. lia.
    + split; [apply elem_of_app; right; by left|]. split.
      { right. split; [|done]. by eapply search_key_not_in; [apply (inv_sorted _ _ Hlk)|]. }
      split; [done|]. split; [done|]. rewrite length_app. cbn. rewrite length_take, length_drop. lia.
Qed.

(** ** Purging *)

Lemma size_delete_all (l : list (OutcomeReport * OutcomeInfo)) (m : OutcomeMap) :
  NoDup l.*1 → (∀ p, p ∈ l → m !! p.1 = Some p.2) →
  (size (foldr (λ p m, delete p.1 m) m l) + length l = size m)%nat.
Proof.
  induction l as [|p l IH]; cbn; intros Hnd Hin; [lia|]. apply NoDup_cons in Hnd as [Hp Hnd].
  specialize (IH Hnd ltac:(intros q Hq; apply Hin; by right)).
  assert (foldr (λ p m, delete p.1 m) m l !! p.1 = Some p.2) as Hlook.
  { assert (∀ k, k ∉ l.*1 → foldr (λ p m, delete p.1 m) m l !! k = m !! k) as Hk.
    { clear. intros k. induction l as [|q l IH]; cbn; [done|]. intros Hk.
      apply not_elem_of_cons in Hk as [? ?]. by rewrite lookup_delete_ne, IH by done. }
    rewrite Hk by done. apply Hin. by left. }
  pose proof (map_size_delete_Some p.1 (foldr (λ p m, delete p.1 m) m l) ltac:(eauto)) as Hd.
  assert (size (foldr (λ p m, delete p.1 m) m l) ≠ 0%nat).
  { intros Hz%map_size_empty_inv. by rewrite Hz, lookup_empty in Hlook. }
  lia.
Qed.

Lemma drain_size id g :
  outcomes_of id (drain RemoveKeysLimit iteration_order id g) ⊆ outcomes_of id g ∧
  size (outcomes_of id (drain RemoveKeysLimit iteration_order id g)) =
    (size (outcomes_of id g) - Z.to_nat RemoveKeysLimit)%nat.
Proof.
  unfold drain. rewrite outcomes_of_set, decide_True by done. split; [apply foldr_delete_subseteq|].
  set (m := outcomes_of id g). set (l := drained RemoveKeysLimit iteration_order id g).
  assert (∀ p, p ∈ l → m !! p.1 = Some p.2) as Hin.
  { intros [o i] Hp. subst l. unfold drained in Hp. apply elem_of_take in Hp as (j & Hj & _).
    apply list_elem_of_lookup_2 in Hj. rewrite Horder in Hj. by apply elem_of_map_to_list in Hj. }
  assert (NoDup l.*1) as Hnd.
  { subst l. unfold drained. rewrite fmap_take. eapply (NoDup_app _ (drop _ (_ <$> _))).
    rewrite take_drop, Horder. apply NoDup_fst_map_to_list. }
  pose proof (size_delete_all l m Hnd Hin) as Hsz.
  assert (length l = min (Z.to_nat RemoveKeysLimit) (size m)) as Hlen.
  { subst l. unfold drained. rewrite length_take. f_equal. rewrite Horder. apply length_map_to_list. }
  lia.
Qed.

Lemma purge_round s id gd caller :
  GlobalDisputesInfo (storage s) !! id = Some gd → gd_status gd = GdFinished →
  ∃ s', purge (Some caller) id s = (Ok tt, s') ∧ currency s' = currency s ∧
    GlobalDisputesInfo (storage s') !! id = Some (purged_info gd (outcomes_of id (storage s))) ∧
    outcomes_of id (storage s') !! winner_outcome gd = None ∧
    (size (outcomes_of id (storage s'))
      ≤ size (outcomes_of id (storage s)) - Z.to_nat RemoveKeysLimit)%nat.
Proof.
  intros Hgd Hst. destruct (purge (Some caller) id s) as [[[]|e] s'] eqn:Hp.
  - exists s'. split; [done|]. apply purge_inv in Hp as (gd' & e & Hgd' & _ & ->).
    assert (gd' = gd) as -> by congruence. set (g1 := purged id gd (storage s)).
    destruct (drain_size id g1) as [Hsub Hsz].
    assert (outcomes_of id g1 = delete (winner_outcome gd) (outcomes_of id (storage s))) as Hg1.
    { change (outcomes_of id (set_outcomes id (delete (winner_outcome gd) (outcomes_of id (storage s)))
        (storage s)) = delete (winner_outcome gd) (outcomes_of id (storage s))).
      by rewrite outcomes_of_set, decide_True. }
    split; [done|]. split; [by cbn; rewrite lookup_insert_eq|].
    change (outcomes_of id (storage (set_storage _ s))) with
      (outcomes_of id (drain RemoveKeysLimit iteration_order id g1)).
    rewrite Hsz, Hg1 in *. split.
    + apply eq_None_not_Some. intros [i Hi]. eapply lookup_weaken in Hi; [|exact Hsub].
      by rewrite lookup_delete_eq in Hi.
    + assert (size (delete (winner_outcome gd) (outcomes_of id (storage s)))
        ≤ size (outcomes_of id (storage s)))%nat; [|lia].
      apply map_subseteq_size, delete_subseteq.
  - unfold purge_outcomes, transactional, mbind, M_bind, gets, Prelude.gets, modify,
      Prelude.modify, ensure, Prelude.ensure in Hp. cbn in Hp. rewrite Hgd in Hp. cbn in Hp.
    rewrite bool_decide_true in Hp by done. by destruct (_ !! winner_outcome gd).
Qed.

Lemma purge_rounds n s id gd caller ks :
  length ks = n →
  GlobalDisputesInfo (storage s) !! id = Some gd → gd_status gd = GdFinished →
  (size (outcomes_of id (storage s)) ≤ n * Z.to_nat RemoveKeysLimit)%nat →
  ∃ s', for_each (λ _ : nat, purge (Some caller) id) ks s = (Ok tt, s') ∧
    outcomes_of id (storage s') = ∅ ∧ currency s' = currency s ∧
    GlobalDisputesInfo (storage s') !! id = Some (purged_info gd (outcomes_of id (storage s))).
Proof.
  revert s gd ks. induction n as [|n IH]; intros s gd ks Hks Hgd Hst Hsz.
  - destruct ks; [|done]. exists s. split; [done|].
    assert (outcomes_of id (storage s) = ∅) as He by (apply map_size_empty_inv; lia).
    rewrite He. unfold purged_info. by rewrite lookup_empty.
  - rewrite Nat.mul_succ_l in Hsz. destruct ks as [|k ks]; [done|]. cbn [for_each].
    destruct (purge_round s id gd caller Hgd Hst) as (s1 & Hp & Hc & Hgd1 & Hw & Hsz1).
    destruct (IH s1 (purged_info gd (outcomes_of id (storage s))) ks) as (s' & Hl & Ho & Hc' & Hgd');
      [by injection Hks|done|by rewrite purged_info_status| |].
    { clear -Hsz Hsz1. set (lim := Z.to_nat RemoveKeysLimit) in *. clearbody lim. lia. }
    exists s'. rewrite (bind_ok _ _ _ _ _ Hp). split; [done|]. split; [done|]. split; [congruence|].
    rewrite Hgd'. f_equal. unfold purged_info at 1.
    rewrite purged_info_winner.
    by rewrite Hw.
Qed.

(** (C25) Purging a finished dispute ends: [n] calls that together may remove as
    many outcomes as there are all succeed and leave none, the winning outcome's
    owners are kept for the reward, no balance moves; and then the reward can be
    paid out as soon as the pot holds anything, which before is refused. *)
Theorem purge_completes n s id gd caller :
  GlobalDisputesInfo (storage s) !! id = Some gd → gd_status gd = GdFinished →
  (0 < n)%nat → (size (outcomes_of id (storage s)) ≤ n * Z.to_nat RemoveKeysLimit)%nat →
  (outcomes_of id (storage s) ≠ ∅ →
    reward (Some caller) id s = (Err (GlobalDisputes_Error GD_OutcomesNotFullyCleaned), s)) ∧
  ∃ s', for_each (λ _, purge (Some caller) id) (seq 0 n) s = (Ok tt, s') ∧
    outcomes_of id (storage s') = ∅ ∧ currency s' = currency s ∧
    GlobalDisputesInfo (storage s') !! id = Some (purged_info gd (outcomes_of id (storage s))) ∧
    (cur_free_balance (reward_account id) (currency s) ≠ 0 →
      fst (reward (Some caller) id s') = Ok tt).
Proof.
  intros Hgd Hst Hn Hsz. split.
  - intros Hne. unfold reward_outcome_owner, transactional, mbind, M_bind, gets, Prelude.gets.
    cbn. unfold ensure, Prelude.ensure. by rewrite bool_decide_false.
  - destruct (purge_rounds n s id gd caller (seq 0 n)) as (s' & Hl & Ho & Hc & Hgd');
      [apply length_seq|done|done|done|].
    exists s'. split_and!; try done. rewrite <- Hc. intros Hpot.
    unfold reward_outcome_owner, transactional. rewrite (ok_or_some_bind _ caller), gets_bind by done.
    rewrite ensure_true_bind, gets_bind by (by apply bool_decide_true).
    rewrite (ok_or_some_bind _ _ _ _ _ Hgd'), ensure_true_bind, gets_bind.
    2:{ apply bool_decide_true. by rewrite purged_info_status. }
    rewrite ensure_true_bind by (by apply negb_true_iff, Z.eqb_neq).
    destruct (possession _) as [x fee|owners].
    + unfold reward_paid_possession, attempt, mbind, M_bind, zoom.
      by destruct (cur_transfer _ _ _ _ _) as [r l].
    + unfold reward_shared_possession. destruct (bool_decide _); [done|].
      generalize (cur_free_balance (reward_account id) (currency s')) at 2 as rem.
      generalize (cur_free_balance (reward_account id) (currency s') / Z.of_nat (length owners))
        as share. intros share rem.
      assert (∀ l, ∃ l', reward_owners (reward_account id) share owners rem l = (Ok tt, l')) as Hok.
      { generalize rem. clear. induction owners as [|x owners IH]; intros rem l; cbn; [by eexists|].
        unfold attempt, mbind, M_bind. destruct (cur_transfer _ _ _ _ _) as [r l1]. apply IH. }
      destruct (Hok (currency s')) as [l' Hl'].
      by erewrite bind_ok by (unfold zoom; by rewrite Hl').
Qed.
End Properties.

(** ** Example *)
Module Example.
Definition chain : Type := State MarketCommons.State MarketIdsPerDisputeBlock NativeLedger.
Definition alice : AccountId := 1.
Definition bob : AccountId := 2.
Definition lock_id : LockIdentifier := "zge/gdlk".
Definition pot (id : MarketId) : AccountId := 100 + id.
Definition the_market : Market :=
  mk_Market Ztg 9 Permissionless 0 9 [] (MT_Categorical 3) (Block (mk_Range 0 100))
    (mk_Deadlines 1 1 30) Lmsr Disputed None None (Some MDM_Authorized) MarketBonds_default None.
Definition start_state : chain :=
  mk_State (MarketCommons.mk_State {[ 7 := the_market ]} (Some 8) ∅) ∅
    (mk_NativeLedger {[ alice := 10000%N; bob := 10000%N ]} ∅ ∅) (mk_Storage ∅ ∅ ∅ []).

Definition items : list InitialItem :=
  [mk_InitialItem (Categorical 0) 9 0; mk_InitialItem (Categorical 1) 9 0].
Definition started : chain :=
  match start_global_dispute 10 20 5 100 (commons start_state) 7 items
          (storage start_state, resolution start_state) with
  | (_, v) => put v start_state
  end.
(** Alice adds a third outcome, Bob votes for the first one. *)
Definition added : chain :=
  snd (add_vote_outcome pot 200 105 (Some alice) 7 (Categorical 2) started).
Definition voted : chain :=
  snd (vote_on_outcome lock_id 10 50 115 (Some bob) 7 (Categorical 0) 3000 added).
Definition determined : chain :=
  put (snd (determine_voting_winner 7 (storage voted, resolution voted))) voted.

Abbreviation reachable_ := (reachable lock_id pot 10 20 10 5 2 50 200 map_to_list).
Lemma fee_range : 0 ≤ 200 ≤ u128_max. Proof. done. Qed.
Lemma min_nonneg : 0 ≤ 50. Proof. done. Qed.
Lemma order_perm (m : OutcomeMap) : map_to_list m ≡ₚ map_to_list m. Proof. done. Qed.

Lemma added_reachable : reachable_ added.
Proof.
  exists start_state. split; [by split|]. eapply rtc_l; [|eapply rtc_l; [|apply rtc_refl]].
  - apply (step_start lock_id pot 10 20 10 5 2 50 200 map_to_list start_state 100 7 items 1
      (storage started, resolution started)).
    + repeat constructor; done.
    + vm_compute. reflexivity.
  - apply (step_add_outcome lock_id pot 10 20 10 5 2 50 200 map_to_list started 105 (Some alice)).
Qed.
Lemma voted_reachable : reachable_ voted.
Proof.
  destruct added_reachable as (s0 & Hg & Hr). exists s0. split; [done|]. eapply rtc_r; [exact Hr|].
  apply (step_vote lock_id pot 10 20 10 5 2 50 200 map_to_list added 115 (Some bob)). done.
Qed.
Lemma determined_reachable : reachable_ determined.
Proof.
  destruct voted_reachable as (s0 & Hg & Hr). exists s0. split; [done|]. eapply rtc_r; [exact Hr|].
  apply (step_determine lock_id pot 10 20 10 5 2 50 200 map_to_list voted 7 (Some (Categorical 0))).
  vm_compute. reflexivity.
Qed.

Lemma voting_winner_is_max_witness :
  ∃ w i, outcomes_of 7 (storage voted) !! w = Some i ∧
    ∀ o i', outcomes_of 7 (storage voted) !! o = Some i' → outcome_sum i' ≤ outcome_sum i.
Proof.
  destruct (GlobalDisputesInfo (storage voted) !! 7) as [gd|] eqn:Hgd; [|by vm_compute in Hgd].
  destruct (voting_winner_is_max lock_id pot 10 20 10 5 2 50 200 map_to_list fee_range min_nonneg
    order_perm voted 7 gd (∅ : MarketIdsPerDisputeBlock) voted_reachable Hgd) as (w & i & g' & _ & Hw & Hm & _);
    [vm_compute; reflexivity|].
  exists w, i. split; [exact Hw|exact Hm].
Defined.

Lemma unlock_effect_witness :
  cur_locked lock_id bob (currency determined) = 3000 ∧
  ∃ s', unlock_vote_balance lock_id (Some alice) bob determined = (Ok tt, s') ∧
    cur_locked lock_id bob (currency s') = 0.
Proof.
  split; [vm_compute; reflexivity|].
  destruct (unlock_effect lock_id pot 10 20 10 5 2 50 200 map_to_list fee_range min_nonneg
    order_perm determined alice bob determined_reachable) as (s' & Hs & _ & _ & _ & _ & _ & Hz).
  exists s'. split; [exact Hs|]. apply Hz. intros p Hp.
  assert (locks_of bob (storage determined) = [(7, 3000)]) as Hl by (vm_compute; reflexivity).
  rewrite Hl in Hp. apply list_elem_of_singleton in Hp as ->. vm_compute. reflexivity.
Defined.

Lemma vote_effect_witness :
  ∃ i total, outcomes_of 7 (storage added) !! Categorical 0 = Some i ∧
    (7, total) ∈ locks_of bob (storage voted) ∧ total ≤ cur_free_balance bob (currency added).
Proof.
  destruct (vote_effect lock_id pot 10 20 10 5 2 50 200 map_to_list fee_range min_nonneg
    order_perm added voted 115 bob 7 (Categorical 0) 3000 added_reachable)
    as (i & total & Hi & _ & _ & _ & Hin & _ & Hle & _); [done|vm_compute; reflexivity|].
  exists i, total. split_and!; [exact Hi|exact Hin|exact Hle].
Defined.

Lemma purge_completes_witness :
  ∃ s', for_each (λ _ : nat, purge_outcomes 2 map_to_list (Some bob) 7) (seq 0 2) determined
      = (Ok tt, s') ∧ outcomes_of 7 (storage s') = ∅ ∧
    fst (reward_outcome_owner pot (Some bob) 7 s') = Ok tt.
Proof.
  destruct (GlobalDisputesInfo (storage determined) !! 7) as [gd|] eqn:Hgd; [|by vm_compute in Hgd].
  destruct (purge_completes (C := MarketCommons.State) (R := MarketIdsPerDisputeBlock) pot 2 map_to_list order_perm 2 determined 7 gd bob Hgd)
    as [_ (s' & Hl & Ho & _ & _ & Hrew)].
  - apply (f_equal (fmap gd_status)) in Hgd. vm_compute in Hgd. by injection Hgd.
  - lia.
  - vm_compute. lia.
  - exists s'. split_and!; [exact Hl|exact Ho|]. apply Hrew. by vm_compute.
Defined.
End Example.
