(* ===== verification/SwapsMath.v ===== *)
(** * Constant function market maker: arithmetic

    [zrml/swaps/src/{fixed,math}.rs]: powers of fixed point numbers, by repeated
    squaring for whole exponents and by the binomial series for the rest, and the
    formulas of the pools built on them. Balances are [u128]. *)
From S2P Require Import Prelude Types Errors Fixed.

Definition BPOW_PRECISION : Z := 10.
Definition BPOW_APPROX_BASE_MIN : Z := BASE / 4.
Definition BPOW_APPROX_BASE_MAX : Z := 7 * BASE / 4.
Definition BPOW_APPROX_MAX_ITERATIONS : nat := 100.

(** The operations at the width of a balance. *)
Abbreviation add := (checked_add_res u128_max).
Abbreviation sub := checked_sub_res.
Abbreviation mul := (checked_mul_res u128_max).
Abbreviation bmul := (Fixed.bmul u128_max).
Abbreviation bdiv := (Fixed.bdiv u128_max).

(** ** [fixed.rs] *)

Definition btoi (a : Z) : Res Z := checked_div_res a BASE.
Definition bfloor (a : Z) : Res Z := i ← btoi a; mul i BASE.
Definition bsub_sign (a b : Z) : Res (Z * bool) :=
  if b <=? a then d ← sub a b; mret (d, false) else d ← sub b a; mret (d, true).

(** The loop of [bpowi]: [m] halves in each round, so that a round per binary digit
    of a [u128] is enough ([bpowi_fuel]). *)
Fixpoint bpowi_loop (fuel : nat) (z b m : Z) : Res Z :=
  match fuel with
  | O => Err (Panic "bpowi_loop: out of fuel")
  | S fuel =>
      if m =? 0 then Ok z else
      b ← bmul b b;
      z ← (if negb (m mod 2 =? 0) then bmul z b else mret z);
      m ← checked_div_res m 2;
      bpowi_loop fuel z b m
  end.

Lemma bpowi_loop_S fuel z b m :
  bpowi_loop (S fuel) z b m =
    if m =? 0 then Ok z else
    b ← bmul b b;
    z ← (if negb (m mod 2 =? 0) then bmul z b else mret z);
    m ← checked_div_res m 2;
    bpowi_loop fuel z b m.
Proof. reflexivity. Qed.

Definition bpowi (a n : Z) : Res Z :=
  let z := if negb (n mod 2 =? 0) then a else BASE in
  m ← checked_div_res n 2;
  bpowi_loop 128 z a m.

(** The series of [bpow_approx] from the term [i], with [iters] rounds left: the
    last term and the sum. *)
Fixpoint bpow_approx_loop (iters : nat) (a x : Z) (xneg : bool) (i term sum : Z)
    (negative : bool) : Res (Z * Z) :=
  match iters with
  | O => Ok (term, sum)
  | S iters =>
      if term <? BPOW_PRECISION then Ok (term, sum) else
      big_k ← mul i BASE;
      k1 ← sub big_k BASE;
      '(c, cneg) ← bsub_sign a k1;
      cx ← bmul c x;
      term ← bmul term cx;
      term ← bdiv term big_k;
      if term =? 0 then Ok (term, sum) else
      let negative := if xneg then negb negative else negative in
      let negative := if (cneg : bool) then negb negative else negative in
      sum ← (if negative then sub sum term else add sum term);
      bpow_approx_loop iters a x xneg (i + 1) term sum negative
  end.

Definition bpow_approx (base exp : Z) : Res Z :=
  if BASE <? exp then Err (OtherError "[bpow_approx]: expected exp <= BASE") else
  if base <? BPOW_APPROX_BASE_MIN
  then Err (OtherError "[bpow_approx]: expected base >= BASE / 4") else
  if BPOW_APPROX_BASE_MAX <? base
  then Err (OtherError "[bpow_approx]: expected base <= 7 * BASE / 4") else
  let a := exp in
  '(x, xneg) ← bsub_sign base BASE;
  '(term, sum) ← bpow_approx_loop BPOW_APPROX_MAX_ITERATIONS a x xneg 1 BASE BASE false;
  if BPOW_PRECISION <=? term
  then Err (OtherError "[bpow_approx] Maximum number of iterations exceeded") else
  Ok sum.

Definition bpow (base exp : Z) : Res Z :=
  whole ← bfloor exp;
  remain ← sub exp whole;
  n ← btoi whole;
  whole_pow ← bpowi base n;
  if remain =? 0 then Ok whole_pow else
  partial_result ← bpow_approx base remain;
  bmul whole_pow partial_result.

(** ** [math.rs] *)

Definition calc_spot_price (asset_balance_in asset_weight_in asset_balance_out
    asset_weight_out swap_fee : Z) : Res Z :=
  numer ← bdiv asset_balance_in asset_weight_in;
  denom ← bdiv asset_balance_out asset_weight_out;
  ratio ← bdiv numer denom;
  net ← sub BASE swap_fee;
  scale ← bdiv BASE net;
  bmul ratio scale.

Definition calc_out_given_in (asset_balance_in asset_weight_in asset_balance_out
    asset_weight_out asset_amount_in swap_fee : Z) : Res Z :=
  weight_ratio ← bdiv asset_weight_in asset_weight_out;
  adjusted_in ← sub BASE swap_fee;
  adjusted_in ← bmul adjusted_in asset_amount_in;
  total ← add asset_balance_in adjusted_in;
  y ← bdiv asset_balance_in total;
  pow ← bpow y weight_ratio;
  bar ← sub BASE pow;
  bmul asset_balance_out bar.

Definition calc_in_given_out (asset_balance_in asset_weight_in asset_balance_out
    asset_weight_out asset_amount_out swap_fee : Z) : Res Z :=
  weight_ratio ← bdiv asset_weight_out asset_weight_in;
  diff ← sub asset_balance_out asset_amount_out;
  y ← bdiv asset_balance_out diff;
  pow ← bpow y weight_ratio;
  pow ← sub pow BASE;
  prod ← bmul asset_balance_in pow;
  net ← sub BASE swap_fee;
  bdiv prod net.

Definition calc_pool_out_given_single_in (asset_balance_in asset_weight_in pool_supply
    total_weight asset_amount_in swap_fee : Z) : Res Z :=
  normalized_weight ← bdiv asset_weight_in total_weight;
  zaz ← sub BASE normalized_weight;
  zaz ← bmul zaz swap_fee;
  after_fee ← sub BASE zaz;
  asset_amount_in_after_fee ← bmul asset_amount_in after_fee;
  new_asset_balance_in ← add asset_balance_in asset_amount_in_after_fee;
  asset_in_ratio ← bdiv new_asset_balance_in asset_balance_in;
  pool_ratio ← bpow asset_in_ratio normalized_weight;
  new_pool_supply ← bmul pool_ratio pool_supply;
  sub new_pool_supply pool_supply.

Definition calc_single_in_given_pool_out (asset_balance_in asset_weight_in pool_supply
    total_weight pool_amount_out swap_fee : Z) : Res Z :=
  normalized_weight ← bdiv asset_weight_in total_weight;
  new_pool_supply ← add pool_supply pool_amount_out;
  pool_ratio ← bdiv new_pool_supply pool_supply;
  boo ← bdiv BASE normalized_weight;
  asset_in_ratio ← bpow pool_ratio boo;
  new_asset_balance_in ← bmul asset_in_ratio asset_balance_in;
  asset_amount_in_after_fee ← sub new_asset_balance_in asset_balance_in;
  zar ← sub BASE normalized_weight;
  zar ← bmul zar swap_fee;
  after_fee ← sub BASE zar;
  bdiv asset_amount_in_after_fee after_fee.

Definition calc_single_out_given_pool_in (asset_balance_out asset_weight_out pool_supply
    total_weight pool_amount_in swap_fee exit_fee : Z) : Res Z :=
  normalized_weight ← bdiv asset_weight_out total_weight;
  net ← sub BASE exit_fee;
  pool_amount_in_after_exit_fee ← bmul pool_amount_in net;
  new_pool_supply ← sub pool_supply pool_amount_in_after_exit_fee;
  pool_ratio ← bdiv new_pool_supply pool_supply;
  exp ← bdiv BASE normalized_weight;
  asset_out_ratio ← bpow pool_ratio exp;
  new_asset_balance_out ← bmul asset_out_ratio asset_balance_out;
  asset_amount_before_swap_fee ← sub asset_balance_out new_asset_balance_out;
  zaz ← sub BASE normalized_weight;
  zaz ← bmul zaz swap_fee;
  after_fee ← sub BASE zaz;
  bmul asset_amount_before_swap_fee after_fee.

Definition calc_pool_in_given_single_out (asset_balance_out asset_weight_out pool_supply
    total_weight asset_amount_out swap_fee exit_fee : Z) : Res Z :=
  normalized_weight ← bdiv asset_weight_out total_weight;
  zoo ← sub BASE normalized_weight;
  zar ← bmul zoo swap_fee;
  after_fee ← sub BASE zar;
  asset_amount_out_before_swap_fee ← bdiv asset_amount_out after_fee;
  new_asset_balance_out ← sub asset_balance_out asset_amount_out_before_swap_fee;
  asset_out_ratio ← bdiv new_asset_balance_out asset_balance_out;
  pool_ratio ← bpow asset_out_ratio normalized_weight;
  new_pool_supply ← bmul pool_ratio pool_supply;
  pool_amount_in_after_exit_fee ← sub pool_supply new_pool_supply;
  net ← sub BASE exit_fee;
  bdiv pool_amount_in_after_exit_fee net.

(** ** Rounding *)
Lemma BASE_val : BASE = 10000000000. Proof. done. Qed.
Lemma u128_val : u128_max = 340282366920938463463374607431768211455. Proof. done. Qed.

Lemma bmul_run x y : x * y + BASE / 2 ≤ u128_max → bmul x y = Ok ((x * y + BASE / 2) / BASE).
Proof.
  assert (0 ≤ BASE / 2) by done. intros Hm. unfold Fixed.bmul.
  rewrite (proj2 (checked_mul_ok _ x y (x * y))) by lia. cbn [mbind result_bind].
  rewrite ZeitgeistBase_ok by done. cbn [mbind result_bind].
  change (checked_div_res BASE 2) with (@Ok DispatchError _ (BASE / 2)). cbn [mbind result_bind].
  by rewrite (proj2 (checked_add_ok _ (x * y) (BASE / 2) _)) by (split; [done|reflexivity]).
Qed.

Lemma bdiv_run x y : 0 < y → x * BASE + y / 2 ≤ u128_max → bdiv x y = Ok ((x * BASE + y / 2) / y).
Proof.
  intros Hy Hm. assert (0 ≤ y / 2) by (apply Z.div_pos; lia). unfold Fixed.bdiv.
  rewrite ZeitgeistBase_ok by done. cbn [mbind result_bind].
  rewrite (proj2 (checked_mul_ok _ x BASE (x * BASE))) by lia. cbn [mbind result_bind].
  rewrite (proj2 (checked_div_ok y 2 (y / 2))) by lia. cbn [mbind result_bind].
  rewrite (proj2 (checked_add_ok _ (x * BASE) (y / 2) _)) by (split; [done|reflexivity]).
  cbn [mbind result_bind]. apply checked_div_ok. lia.
Qed.

(** A rounded quotient is within half a unit of the exact one. *)
Lemma round_bounds x d : 0 < d → 2 * d * ((x + d / 2) / d) ≤ 2 * x + d ∧ 2 * x - d < 2 * d * ((x + d / 2) / d).
Proof.
  intros Hd. pose proof (Z.div_mod (x + d / 2) d ltac:(lia)) as Hq.
  pose proof (Z.mod_pos_bound (x + d / 2) d Hd) as Hr.
  pose proof (Z.div_mod d 2 ltac:(lia)) as Hh. pose proof (Z.mod_pos_bound d 2 ltac:(lia)).
  lia.
Qed.

Lemma bmul_bounds x y r : bmul x y = Ok r → 2 * x * y - BASE ≤ 2 * r * BASE ≤ 2 * x * y + BASE.
Proof.
  intros [_ ->]%bmul_ok. pose proof (Z.div_mod (x * y + BASE / 2) BASE ltac:(done)) as Hq.
  pose proof (Z.mod_pos_bound (x * y + BASE / 2) BASE BASE_pos) as Hr.
  change (BASE / 2) with 5000000000 in *. rewrite BASE_val in *. lia.
Qed.

Lemma bmul_nonneg x y r : 0 ≤ x → 0 ≤ y → bmul x y = Ok r → 0 ≤ r.
Proof.
  intros Hx Hy [_ ->]%bmul_ok. assert (0 ≤ x * y) by nia. apply Z.div_pos; [|done].
  change (BASE / 2) with 5000000000. lia.
Qed.

(** Rounding to the nearest multiple respects the order and is exact on multiples. *)
Lemma bmul_le x y z r : bmul x y = Ok r → x * y ≤ z * BASE → r ≤ z.
Proof. intros Hb Hz. pose proof (bmul_bounds _ _ _ Hb). rewrite BASE_val in *. lia. Qed.
Lemma bmul_ge x y z r : bmul x y = Ok r → z * BASE ≤ x * y → z ≤ r.
Proof.
  intros [_ ->]%bmul_ok Hz. apply le_floor_of_mul; [done|].
  change (BASE / 2) with 5000000000. lia.
Qed.
Lemma bdiv_le x y z r : 0 < y → bdiv x y = Ok r → x * BASE ≤ z * y → r ≤ z.
Proof.
  intros Hy [_ [_ ->]]%bdiv_ok Hz. pose proof (round_bounds (x * BASE) y Hy). nia.
Qed.
Lemma bdiv_ge x y z r : 0 < y → bdiv x y = Ok r → z * y ≤ x * BASE → z ≤ r.
Proof.
  intros Hy [_ [_ ->]]%bdiv_ok Hz. apply le_floor_of_mul; [done|].
  assert (0 ≤ y / 2) by (apply Z.div_pos; lia). lia.
Qed.
Lemma bdiv_nonneg x y r : 0 ≤ x → 0 < y → bdiv x y = Ok r → 0 ≤ r.
Proof. intros Hx Hy Hb. apply (bdiv_ge _ _ _ _ Hy Hb). rewrite BASE_val. lia. Qed.

(** ** Whole exponents *)

(** [x] is [a ^ i] in fixed point, up to half a unit for each of the [i - 1]
    multiplications. *)
Definition power_of (a i x : Z) : Prop :=
  0 ≤ x ≤ BASE ∧ (i = 0 ∧ x = BASE ∨ 0 < i ∧ Z.abs (2 * x * BASE ^ i - 2 * a ^ i * BASE) ≤ (i - 1) * BASE ^ i).

(** The errors of two factors add up. *)
Lemma product_error (x y r u v P Q i j B : Z) :
  0 < B → 0 < P → 0 < Q → 0 ≤ x ≤ B → 0 ≤ v ≤ Q →
  Z.abs (2 * x * P - 2 * u * B) ≤ (i - 1) * P → Z.abs (2 * y * Q - 2 * v * B) ≤ (j - 1) * Q →
  2 * x * y - B ≤ 2 * r * B ≤ 2 * x * y + B →
  Z.abs (2 * r * (P * Q) - 2 * (u * v) * B) ≤ (i + j - 1) * (P * Q).
Proof.
  intros HB HP HQ Hx Hv [Hu1 Hu2]%Z.abs_le [Hv1 Hv2]%Z.abs_le [Hr1 Hr2].
  assert (- (x * P * ((j - 1) * Q)) ≤ x * P * (2 * y * Q - 2 * v * B) ≤ x * P * ((j - 1) * Q)) by nia.
  assert (- (v * B * ((i - 1) * P)) ≤ v * B * (2 * x * P - 2 * u * B) ≤ v * B * ((i - 1) * P)) by nia.
  assert (0 ≤ (j - 1) * Q) by lia. assert (0 ≤ (i - 1) * P) by lia.
  assert (x * P * ((j - 1) * Q) ≤ B * P * ((j - 1) * Q)) by (apply Z.mul_le_mono_nonneg_r; nia).
  assert (v * B * ((i - 1) * P) ≤ Q * B * ((i - 1) * P)) by (apply Z.mul_le_mono_nonneg_r; nia).
  assert (0 < P * Q) by nia.
  assert ((2 * x * y - B) * (P * Q) ≤ 2 * r * B * (P * Q) ≤ (2 * x * y + B) * (P * Q)) by nia.
  apply Z.abs_le. split; apply (Z.mul_le_mono_pos_l _ _ B HB); lia.
Qed.

Lemma bmul_fraction x y : 0 ≤ x ≤ BASE → 0 ≤ y ≤ BASE → ∃ r, bmul x y = Ok r ∧ 0 ≤ r ≤ BASE.
Proof.
  intros Hx Hy. assert (Hr : bmul x y = Ok ((x * y + BASE / 2) / BASE)).
  { apply bmul_run. change (BASE / 2) with 5000000000. rewrite u128_val, BASE_val in *. nia. }
  eexists. split; [exact Hr|]. split; [apply (bmul_nonneg x y); [lia..|done]|].
  apply (bmul_le x y _ _ Hr). nia.
Qed.

Section WholePowers.
Context (a : Z) (Ha : 0 ≤ a ≤ BASE).

Lemma power_of_mul i j x y r :
  0 ≤ i → 0 ≤ j → power_of a i x → power_of a j y → bmul x y = Ok r → power_of a (i + j) r.
Proof.
  intros Hi Hj [Hx Hpx] [Hy Hpy] Hr. destruct (bmul_fraction x y Hx Hy) as (r' & Hr' & Hb).
  assert (r' = r) as -> by congruence. split; [done|].
  pose proof (bmul_bounds _ _ _ Hr) as Hrb.
  destruct Hpx as [[-> ->]|[Hi' Hpx]], Hpy as [[-> ->]|[Hj' Hpy]].
  - left. split; [lia|]. rewrite BASE_val in *. lia.
  - right. split; [lia|]. assert (r = y) as -> by (rewrite BASE_val in *; lia). done.
  - right. split; [lia|]. assert (r = x) as -> by (rewrite BASE_val in *; lia). by rewrite Z.add_0_r.
  - right. split; [lia|]. rewrite !Z.pow_add_r by lia.
    apply (product_error x y); try done; try (apply Z.pow_pos_nonneg; done || lia).
    split; [apply Z.pow_nonneg; lia|apply Z.pow_le_mono_l; lia].
Qed.

Lemma bpowi_loop_spec fuel : ∀ i k z b m,
  0 ≤ i → 0 < k → power_of a i z → power_of a k b → 0 ≤ m < 2 ^ Z.of_nat fuel →
  ∃ r, bpowi_loop (S fuel) z b m = Ok r ∧ power_of a (i + 2 * k * m) r.
Proof.
  induction fuel as [|fuel IH]; intros i k z b m Hi Hk Hz Hb Hm; rewrite bpowi_loop_S;
    destruct (Z.eqb_spec m 0) as [->|Hne].
  1, 3: exists z; by rewrite Z.mul_0_r, Z.add_0_r.
  { cbn in Hm. lia. }
  rewrite Nat2Z.inj_succ, Z.pow_succ_r in Hm by lia.
  destruct (bmul_fraction b b (proj1 Hb) (proj1 Hb)) as (b' & Hb' & _). rewrite Hb'. cbn [mbind result_bind].
  pose proof (power_of_mul k k b b b' ltac:(lia) ltac:(lia) Hb Hb Hb') as Hpb.
  pose proof (Z.div_mod m 2 ltac:(done)) as Hd. pose proof (Z.mod_pos_bound m 2 ltac:(done)).
  assert (0 ≤ m / 2 < 2 ^ Z.of_nat fuel) as Hh by lia.
  destruct (Z.eqb_spec (m mod 2) 0) as [He|Ho]; cbn [negb].
  - destruct (IH i (k + k) z b' (m / 2)) as (r & Hr & Hp); [lia..|done|done|done|].
    exists r. split; [exact Hr|]. by replace (i + 2 * k * m) with (i + 2 * (k + k) * (m / 2)) by nia.
  - destruct (bmul_fraction z b' (proj1 Hz) (proj1 Hpb)) as (z' & Hz' & _). rewrite Hz'. cbn [mbind result_bind].
    destruct (IH (i + (k + k)) (k + k) z' b' (m / 2)) as (r & Hr & Hp); [lia..| |done|done|].
    { apply (power_of_mul i (k + k) z b'); [lia..|done|done|done]. }
    exists r. split; [exact Hr|].
    by replace (i + 2 * k * m) with (i + (k + k) + 2 * (k + k) * (m / 2)) by nia.
Qed.

Lemma power_of_1 : power_of a 1 a.
Proof. split; [done|]. right. split; [done|]. rewrite !Z.pow_1_r. lia. Qed.

Lemma bpowi_spec n : in_u128 n → ∃ r, bpowi a n = Ok r ∧ power_of a n r.
Proof.
  intros [Hn0 Hn]. unfold bpowi, checked_div_res. cbn [Z.eqb mbind result_bind].
  pose proof (Z.div_mod n 2 ltac:(done)) as Hd. pose proof (Z.mod_pos_bound n 2 ltac:(done)).
  destruct (bpowi_loop_spec 127 (n mod 2) 1 (if negb (n mod 2 =? 0) then a else BASE) a (n / 2))
    as (r & Hr & Hp); [lia|lia| |apply power_of_1| |].
  - destruct (Z.eqb_spec (n mod 2) 0) as [->|]; cbn [negb]; [by split; [|left]|].
    replace (n mod 2) with 1 by lia. apply power_of_1.
  - rewrite u128_val in Hn. change (2 ^ Z.of_nat 127) with 170141183460469231731687303715884105728. lia.
  - exists r. split; [exact Hr|]. by replace n with (n mod 2 + 2 * 1 * (n / 2)) at 1 by lia.
Qed.
End WholePowers.

(** A base above one gives at least one. *)
Lemma bmul_ge_one x y r : BASE ≤ x → BASE ≤ y → bmul x y = Ok r → BASE ≤ r.
Proof. intros Hx Hy Hr. apply (bmul_ge _ _ _ _ Hr). rewrite BASE_val in *. nia. Qed.
Lemma bpowi_loop_ge fuel : ∀ z b m r,
  BASE ≤ z → BASE ≤ b → bpowi_loop fuel z b m = Ok r → BASE ≤ r.
Proof.
  induction fuel as [|fuel IH]; intros z b m r Hz Hb Hr; cbn [bpowi_loop] in Hr; [done|].
  destruct (m =? 0); [by simplify_eq|]. destruct (negb (m mod 2 =? 0)); run_inv Hr; [|intros <-].
  all: eapply IH; [| |exact Hr]; eauto using bmul_ge_one.
Qed.
Lemma bpowi_ge a n r : BASE ≤ a → bpowi a n = Ok r → BASE ≤ r.
Proof.
  intros Ha Hr. unfold bpowi in Hr. run_inv Hr. apply (bpowi_loop_ge _ _ _ _ _) in Hr; [done| |done].
  by destruct (negb _).
Qed.

Lemma bmul_err x y e : bmul x y = Err e → e = Arithmetic Overflow.
Proof.
  unfold Fixed.bmul. destruct (mul x y) as [p|e'] eqn:Hp; cbn [mbind result_bind].
  2:{ apply checked_mul_err in Hp as [-> _]. congruence. }
  rewrite ZeitgeistBase_ok by done. cbn [mbind result_bind].
  change (checked_div_res BASE 2) with (@Ok DispatchError _ (BASE / 2)). cbn [mbind result_bind].
  destruct (add p (BASE / 2)) as [q|e'] eqn:Hq; cbn [mbind result_bind]; [done|].
  apply checked_add_err in Hq as [-> _]. congruence.
Qed.

(** The loop of [bpowi] stops before its rounds run out. *)
Lemma bpowi_loop_err fuel : ∀ z b m e,
  0 ≤ m < 2 ^ Z.of_nat fuel → bpowi_loop (S fuel) z b m = Err e → e = Arithmetic Overflow.
Proof.
  induction fuel as [|fuel IH]; intros z b m e Hm Hr; rewrite bpowi_loop_S in Hr;
    destruct (Z.eqb_spec m 0) as [|Hne]; [done|cbn in Hm; lia|done|].
  rewrite Nat2Z.inj_succ, Z.pow_succ_r in Hm by lia.
  destruct (bmul b b) as [b'|] eqn:Hb; [|cbn in Hr; simplify_eq; by eapply bmul_err].
  cbn [mbind result_bind] in Hr.
  assert (0 ≤ m / 2 < 2 ^ Z.of_nat fuel) by (split; [apply Z.div_pos|apply Z.div_lt_upper_bound]; lia).
  destruct (negb (m mod 2 =? 0)); [|exact (IH _ _ _ _ ltac:(eassumption) Hr)].
  destruct (bmul z b') as [z'|] eqn:Hz; [|cbn in Hr; simplify_eq; by eapply bmul_err].
  exact (IH _ _ _ _ ltac:(eassumption) Hr).
Qed.
Lemma bpowi_fuel a n e : in_u128 n → bpowi a n = Err e → e = Arithmetic Overflow.
Proof.
  intros [Hn0 Hn] Hr. unfold bpowi, checked_div_res in Hr. cbn [Z.eqb mbind result_bind] in Hr.
  apply (bpowi_loop_err 127) in Hr; [done|]. split; [apply Z.div_pos; lia|].
  apply Z.div_lt_upper_bound; [done|]. rewrite u128_val in Hn.
  change (2 ^ Z.of_nat 127) with 170141183460469231731687303715884105728. lia.
Qed.

(** ** The binomial series *)

Lemma bsub_sign_eq p q : bsub_sign p q = Ok (Z.abs (p - q), p <? q).
Proof.
  unfold bsub_sign, checked_sub_res. rewrite (Z.ltb_antisym q p).
  destruct (Z.leb_spec q p); cbn.
  - by rewrite Z.abs_eq by lia.
  - destruct (Z.leb_spec p q); [|lia]. cbn. by rewrite Z.abs_neq, Z.opp_sub_distr, Z.add_comm by lia.
Qed.

Section Series.
Context (a x : Z) (xneg : bool) (Ha : 0 ≤ a ≤ BASE) (Hx : 0 ≤ x) (Hx34 : 4 * x ≤ 3 * BASE).

Lemma bpow_approx_loop_stop iters i term sum negative :
  term < BPOW_PRECISION → bpow_approx_loop iters a x xneg i term sum negative = Ok (term, sum).
Proof. intros Ht. destruct iters; [done|]. cbn [bpow_approx_loop]. by apply Z.ltb_lt in Ht as ->. Qed.

(** What the round [i] does with the term [t] it computes. *)
Definition next_round (iters : nat) (i t sum : Z) (negative : bool) : Res (Z * Z) :=
  if t =? 0 then Ok (t, sum) else
  let negative := if xneg then negb negative else negative in
  let negative := if a <? (i - 1) * BASE then negb negative else negative in
  sum ← (if negative : bool then sub sum t else add sum t);
  bpow_approx_loop iters a x xneg (i + 1) t sum negative.

Lemma series_round i term :
  1 ≤ i ≤ 100 → BPOW_PRECISION ≤ term ≤ BASE →
  ∃ cx t, 0 ≤ cx ∧ 2 * BASE * cx ≤ 2 * Z.abs (a - (i - 1) * BASE) * x + BASE ∧ 0 ≤ t ∧
    2 * i * BASE * t ≤ 2 * term * cx + (i + 1) * BASE ∧ 4 * t ≤ 3 * term + 4 ∧
    (a = (i - 1) * BASE ∨ x = 0 → t = 0) ∧
    ∀ iters sum negative,
      bpow_approx_loop (S iters) a x xneg i term sum negative = next_round iters i t sum negative.
Proof.
  intros Hi Hterm. set (c := Z.abs (a - (i - 1) * BASE)).
  assert (0 ≤ c ≤ i * BASE) as Hc by (subst c; rewrite BASE_val in *; lia).
  assert (2 * c * x ≤ 2 * (Z.max 1 (i - 1)) * x * BASE) as Hcx by (subst c; rewrite BASE_val in *; nia).
  set (cx := (c * x + BASE / 2) / BASE). set (t1 := (term * cx + BASE / 2) / BASE).
  set (t := (t1 * BASE + i * BASE / 2) / (i * BASE)).
  assert (Hb1 : bmul c x = Ok cx).
  { apply bmul_run. change (BASE / 2) with 5000000000. rewrite u128_val, BASE_val in *. nia. }
  assert (0 ≤ cx) as Hcx0 by (apply (bmul_nonneg c x); [lia..|done]).
  pose proof (bmul_bounds _ _ _ Hb1) as Hb1'.
  assert (4 * cx ≤ 3 * i * BASE) as Hcx34.
  { pose proof (bmul_le _ _ (Z.max 1 (i - 1) * x) _ Hb1). rewrite BASE_val in *. nia. }
  assert (Hb2 : bmul term cx = Ok t1).
  { apply bmul_run. change (BASE / 2) with 5000000000. rewrite u128_val, BASE_val in *. nia. }
  assert (0 ≤ t1) as Ht1 by (apply (bmul_nonneg term cx); [unfold BPOW_PRECISION in *; lia|lia|done]).
  pose proof (bmul_bounds _ _ _ Hb2) as Hb2'.
  assert (Hb3 : bdiv t1 (i * BASE) = Ok t).
  { apply bdiv_run; [rewrite BASE_val; lia|].
    assert (i * BASE / 2 ≤ i * BASE) by (apply Z.div_le_upper_bound; [done|rewrite BASE_val; lia]).
    rewrite u128_val, BASE_val in *. nia. }
  assert (0 ≤ t) as Ht by (apply (bdiv_nonneg t1 (i * BASE)); [done|rewrite BASE_val; lia|done]).
  pose proof (round_bounds (t1 * BASE) (i * BASE) ltac:(rewrite BASE_val; lia)) as [Hb3' _].
  change ((t1 * BASE + i * BASE / 2) / (i * BASE)) with t in Hb3'.
  assert (2 * i * BASE * t ≤ 2 * term * cx + (i + 1) * BASE) as Hterm' by lia.
  exists cx, t. repeat split; [done|lia|done|done| | |].
  - rewrite BASE_val in *. unfold BPOW_PRECISION in *. nia.
  - intros Hai. assert (c * x = 0) as Hc0 by (destruct Hai as [Hai| ->]; [subst c; rewrite Hai|]; lia).
    assert (cx = 0) as -> by (subst cx; by rewrite Hc0). assert (t1 = 0) by (subst t1; by rewrite Z.mul_0_r).
    assert (2 * i * BASE * t ≤ i * BASE) by lia. rewrite BASE_val in *. nia.
  - intros iters sum negative. cbn [bpow_approx_loop].
    destruct (Z.ltb_spec term BPOW_PRECISION); [lia|].
    rewrite (proj2 (checked_mul_ok _ i BASE (i * BASE)))
      by (split; [rewrite u128_val, BASE_val in *; lia|done]). cbn [mbind result_bind].
    rewrite (proj2 (checked_sub_ok (i * BASE) BASE ((i - 1) * BASE)))
      by (rewrite BASE_val in *; lia). cbn [mbind result_bind].
    rewrite bsub_sign_eq. cbn [mbind result_bind]. fold c. rewrite Hb1. cbn [mbind result_bind].
    rewrite Hb2. cbn [mbind result_bind]. rewrite Hb3. reflexivity.
Qed.

(** Before the round [i]: the terms shrink by a quarter and the sum stays on the side
    of one where the base is, at most [S] away. *)
Definition series_inv (i term sum : Z) (negative : bool) (S : Z) : Prop :=
  0 ≤ term ≤ BASE ∧ (term - 4) * 4 ^ (i - 1) ≤ 3 ^ (i - 1) * BASE ∧ Z.abs (sum - BASE) ≤ S ∧
  (if xneg then (2 ≤ i → negative = true) ∧ sum ≤ BASE
   else BASE ≤ sum ∧ (2 ≤ i → negative = false → BASE ≤ sum - term)).

(** What [bpow_approx] needs of the series. *)
Definition series_result (r : Res (Z * Z)) : Prop :=
  ∃ term sum, r = Ok (term, sum) ∧ term < BPOW_PRECISION ∧ 10 * Z.abs (sum - BASE) ≤ 9 * BASE ∧
    (if xneg then sum ≤ BASE else BASE ≤ sum).

Lemma series_stop i term sum negative S :
  series_inv i term sum negative S → 10 * S ≤ 9 * BASE → term < BPOW_PRECISION →
  series_result (Ok (term, sum)).
Proof.
  intros (_ & _ & Hs & Hd) HS Ht. exists term, sum. split; [done|]. split; [done|]. split; [lia|].
  destruct xneg; naive_solver.
Qed.

Lemma next_round_inv iters i term t sum negative S :
  1 ≤ i → series_inv i term sum negative S → (i = 1 → negative = false ∧ sum = BASE) →
  BPOW_PRECISION ≤ term → 0 ≤ t → 4 * t ≤ 3 * term + 4 → (a = (i - 1) * BASE ∨ x = 0 → t = 0) → S + t ≤ BASE →
  next_round iters i t sum negative = Ok (0, sum) ∧ t = 0 ∨
  ∃ sum' negative', series_inv (i + 1) t sum' negative' (S + t) ∧
    next_round iters i t sum negative = bpow_approx_loop iters a x xneg (i + 1) t sum' negative'.
Proof.
  intros Hi (Hterm & Hgeo & Hs & Hd) H1 Hp Ht Ht4 Hai HSt. unfold next_round.
  destruct (Z.eqb_spec t 0) as [->|Hne]; [by left|right].
  assert (t ≤ term) by (unfold BPOW_PRECISION in Hp; lia).
  set (neg1 := if xneg then negb negative else negative).
  set (neg2 := if a <? (i - 1) * BASE then negb neg1 else neg1).
  assert (Hc : (a <? (i - 1) * BASE) = negb (i =? 1)).
  { destruct (Z.eqb_spec i 1) as [->|]; cbn [negb]; [apply Z.ltb_ge; lia|].
    apply Z.ltb_lt. assert (a ≠ (i - 1) * BASE) by tauto. rewrite BASE_val in *. nia. }
  assert ((t - 4) * 4 ^ (i + 1 - 1) ≤ 3 ^ (i + 1 - 1) * BASE) as Hgeo'.
  { replace (i + 1 - 1) with (Z.succ (i - 1)) by lia. rewrite !Z.pow_succ_r by lia.
    pose proof (Z.pow_pos_nonneg 4 (i - 1) ltac:(done) ltac:(lia)). nia. }
  exists (if neg2 then sum - t else sum + t), neg2. split.
  - split; [lia|]. split; [done|]. split; [destruct neg2; lia|].
    subst neg2 neg1. rewrite Hc. destruct (Z.eqb_spec i 1) as [->|]; cbn [negb].
    + destruct H1 as [-> ->]; [done|]. destruct xneg; cbn [negb]; naive_solver lia.
    + destruct xneg.
      * destruct Hd as [-> Hd]; [|lia]. cbn [negb]. split; [done|lia].
      * destruct Hd as [Hd1 Hd2]. destruct negative; cbn [negb]; [split; [lia|]; intros; lia|].
        specialize (Hd2 ltac:(lia) eq_refl). split; [lia|done].
  - destruct neg2; cbn [mbind].
    + by rewrite (proj2 (checked_sub_ok sum t (sum - t))) by lia.
    + by rewrite (proj2 (checked_add_ok u128_max sum t (sum + t)))
        by (split; [rewrite u128_val, BASE_val in *; lia|done]).
Qed.

Lemma series_tail iters : ∀ i term sum negative S,
  3 ≤ i → Z.of_nat iters + i = 101 → series_inv i term sum negative S →
  10 * (S + 3 * term + 4 * Z.of_nat iters) ≤ 9 * BASE →
  series_result (bpow_approx_loop iters a x xneg i term sum negative).
Proof.
  induction iters as [|iters IH]; intros i term sum negative S Hi Hit Hinv HS.
  - eapply (series_stop i); [exact Hinv|destruct Hinv as (? & _); lia|].
    destruct Hinv as (_ & Hgeo & _). assert (i = 101) as -> by lia. unfold BPOW_PRECISION.
    assert (3 ^ (101 - 1) * BASE < 6 * 4 ^ (101 - 1)) by (vm_compute; reflexivity).
    pose proof (Z.pow_pos_nonneg 4 (101 - 1) ltac:(done) ltac:(done)). nia.
  - pose proof Hinv as (Hterm & _ & _).
    destruct (Z.ltb_spec term BPOW_PRECISION) as [Hlt|Hge].
    { rewrite bpow_approx_loop_stop by done. eapply (series_stop i); [exact Hinv|lia|done]. }
    destruct (series_round i term ltac:(lia) ltac:(lia)) as (cx & t & _ & _ & Ht & _ & Ht4 & Hai & Hrun).
    rewrite Hrun. unfold BPOW_PRECISION in Hge.
    destruct (next_round_inv iters i term t sum negative S ltac:(lia) Hinv ltac:(lia) Hge Ht Ht4 Hai
      ltac:(rewrite BASE_val in *; lia)) as [[-> ->]|(sum' & negative' & Hinv' & ->)].
    + destruct Hinv as (_ & _ & Hs & Hd). exists 0, sum. split; [done|]. split; [done|]. split; [lia|].
      destruct xneg; naive_solver.
    + apply (IH (i + 1) t sum' negative' (S + t)); [lia..|done|lia].
Qed.

(** The first two terms take less than four fifths. *)
Lemma first_terms t1 t2 cx1 cx2 :
  0 ≤ cx1 → 0 ≤ cx2 → 0 ≤ t1 → 0 ≤ t2 →
  2 * BASE * cx1 ≤ 2 * a * x + BASE → 2 * BASE * t1 ≤ 2 * BASE * cx1 + 2 * BASE →
  2 * BASE * cx2 ≤ 2 * (BASE - a) * x + BASE → 4 * BASE * t2 ≤ 2 * t1 * cx2 + 3 * BASE →
  10 * (t1 + 4 * t2 + 4 * 98) ≤ 9 * BASE.
Proof.
  intros Hc1 Hc2 H1 H2 Hcx1 Ht1 Hcx2 Ht2.
  assert (4 * (a * x) ≤ 3 * (a * BASE)) by nia.
  assert (4 * ((BASE - a) * x) ≤ 3 * ((BASE - a) * BASE)) by nia.
  rewrite <- Z.mul_assoc in Hcx1, Hcx2, Ht2. rewrite <- (Z.mul_assoc 2 a x) in Hcx1.
  assert (4 * t1 ≤ 3 * a + 8) as Ha1 by (rewrite BASE_val in *; lia).
  assert (4 * cx2 ≤ 3 * (BASE - a) + 4) as Ha2 by (rewrite BASE_val in *; lia).
  assert (16 * (t1 * cx2) ≤ (3 * a + 8) * (3 * (BASE - a) + 4)) as Hp.
  { transitivity (4 * t1 * (4 * cx2)); [lia|]. apply Z.mul_le_mono_nonneg; lia. }
  pose proof (Z.square_nonneg (6 * a - 5 * BASE)) as Hsq. rewrite BASE_val in *. lia.
Qed.

Lemma series_total :
  series_result (bpow_approx_loop BPOW_APPROX_MAX_ITERATIONS a x xneg 1 BASE BASE false).
Proof.
  change BPOW_APPROX_MAX_ITERATIONS with 100%nat.
  assert (Hinv : series_inv 1 BASE BASE false 0).
  { split; [done|]. split; [cbn; lia|]. split; [lia|]. destruct xneg; split; lia || done. }
  destruct (series_round 1 BASE ltac:(done) ltac:(done))
    as (cx1 & t1 & Hcx1 & Hc1 & Ht1 & Hb1 & H41 & Hai1 & Hrun1). rewrite Hrun1.
  assert (10 * t1 ≤ 8 * BASE) by (rewrite BASE_val in *; lia).
  destruct (next_round_inv 99 1 BASE t1 BASE false 0 ltac:(done) Hinv ltac:(done) ltac:(done) Ht1 H41 Hai1
    ltac:(lia)) as [[-> ->]|(sum & negative & Hinv2 & ->)].
  { exists 0, BASE. split; [done|]. split; [done|]. split; [rewrite BASE_val; lia|]. by destruct xneg. }
  change (1 + 1) with 2 in *. change (0 + t1) with t1 in Hinv2.
  destruct (Z.ltb_spec t1 BPOW_PRECISION) as [Hlt|Hge].
  { rewrite bpow_approx_loop_stop by done. eapply (series_stop 2); [exact Hinv2|lia|done]. }
  destruct (series_round 2 t1 ltac:(done) ltac:(rewrite BASE_val in *; lia))
    as (cx2 & t2 & Hcx2 & Hc2 & Ht2 & Hb2 & H42 & Hai2 & Hrun2). rewrite Hrun2.
  assert (10 * (t1 + 4 * t2 + 4 * 98) ≤ 9 * BASE) as Hsmall.
  { apply (first_terms t1 t2 cx1 cx2); rewrite BASE_val in *; lia. }
  destruct (next_round_inv 98 2 t1 t2 sum negative t1 ltac:(done) Hinv2 ltac:(done) Hge Ht2 H42 Hai2
    ltac:(rewrite BASE_val in *; lia)) as [[-> ->]|(sum' & negative' & Hinv3 & ->)].
  - destruct Hinv2 as (_ & _ & Hs & Hd). exists 0, sum. split; [done|]. split; [done|]. split; [lia|].
    destruct xneg; naive_solver.
  - apply (series_tail 98 _ _ _ _ (t1 + t2)); [done|done|done|lia].
Qed.
End Series.

(** A base of one has no terms. *)
Lemma series_one exp : 0 ≤ exp ≤ BASE →
  bpow_approx_loop BPOW_APPROX_MAX_ITERATIONS exp 0 false 1 BASE BASE false = Ok (0, BASE).
Proof.
  intros Hexp.
  destruct (series_round exp 0 false Hexp ltac:(done) ltac:(done) 1 BASE ltac:(done) ltac:(done))
    as (cx & t & _ & _ & _ & _ & _ & Hz & Hr).
  rewrite Hz in Hr by by right. exact (Hr 99%nat BASE false).
Qed.

Lemma bpow_approx_run base exp term sum :
  BPOW_APPROX_BASE_MIN ≤ base ≤ BPOW_APPROX_BASE_MAX → exp ≤ BASE → term < BPOW_PRECISION →
  bpow_approx_loop BPOW_APPROX_MAX_ITERATIONS exp (Z.abs (base - BASE)) (base <? BASE) 1 BASE BASE false
    = Ok (term, sum) →
  bpow_approx base exp = Ok sum.
Proof.
  intros [Hb1%Z.ltb_ge Hb2%Z.ltb_ge] Hexp%Z.ltb_ge Hterm%Z.leb_gt Hrun. unfold bpow_approx.
  rewrite Hexp, Hb1, Hb2, (bindR_ok _ _ _ (bsub_sign_eq _ _)), (bindR_ok _ _ _ Hrun). by rewrite Hterm.
Qed.

Lemma bpow_approx_ok base exp :
  BPOW_APPROX_BASE_MIN ≤ base ≤ BPOW_APPROX_BASE_MAX → 0 ≤ exp ≤ BASE →
  ∃ r, bpow_approx base exp = Ok r ∧ 10 * Z.abs (r - BASE) ≤ 9 * BASE ∧
    (base ≤ BASE → r ≤ BASE) ∧ (BASE ≤ base → BASE ≤ r).
Proof.
  intros Hb Hexp. assert (4 * Z.abs (base - BASE) ≤ 3 * BASE) as Hx.
  { change BPOW_APPROX_BASE_MIN with 2500000000 in Hb. change BPOW_APPROX_BASE_MAX with 17500000000 in Hb.
    rewrite BASE_val. lia. }
  destruct (series_total exp (Z.abs (base - BASE)) (base <? BASE) Hexp (Z.abs_nonneg _) Hx)
    as (term & sum & Hrun & Hterm & Hs & Hd).
  exists sum. split; [by apply (bpow_approx_run base exp term _ Hb (proj2 Hexp))|]. split; [done|].
  destruct (Z.ltb_spec base BASE) as [Hlt|Hge]; split; intros; try lia.
  assert (base = BASE) as -> by lia. rewrite Z.sub_diag, series_one in Hrun by done. by simplify_eq.
Qed.

(** ** Arbitrary exponents *)
Section Bpow.
Context (base exp : Z).

Lemma bpow_inv r : bpow base exp = Ok r → ∃ p, bpowi base (exp / BASE) = Ok p ∧
  (r = p ∨ ∃ q, bpow_approx base (exp - exp / BASE * BASE) = Ok q ∧ bmul p q = Ok r).
Proof.
  intros Hr. unfold bpow, bfloor, btoi in Hr.
  change (checked_div_res exp BASE) with (@Ok DispatchError _ (exp / BASE)) in Hr. cbn [mbind result_bind] in Hr.
  destruct (mul (exp / BASE) BASE) as [w|] eqn:Hw; [|done]. apply checked_mul_ok in Hw as [_ ->].
  cbn [mbind result_bind] in Hr. destruct (sub exp _) as [d|] eqn:Hd; [|done]. apply checked_sub_ok in Hd as [_ ->].
  cbn [mbind result_bind] in Hr.
  change (checked_div_res (exp / BASE * BASE) BASE) with (@Ok DispatchError _ (exp / BASE * BASE / BASE)) in Hr.
  rewrite Z.div_mul in Hr by done. cbn [mbind result_bind] in Hr.
  destruct (bpowi base (exp / BASE)) as [p|]; [|done]. cbn [mbind result_bind] in Hr. exists p. split; [done|].
  destruct (_ =? 0); [left; congruence|]. destruct (bpow_approx _ _) as [q|]; [|done]. right. by exists q.
Qed.

Lemma bpow_ge r : BASE ≤ base → 0 ≤ exp → bpow base exp = Ok r → BASE ≤ r.
Proof.
  intros Hb He (p & Hp%bpowi_ge & [->|(q & Hq & Hr)])%bpow_inv; [done..| |done].
  pose proof (Z.div_mod exp BASE ltac:(done)). pose proof (Z.mod_pos_bound exp BASE BASE_pos).
  destruct (Z.ltb_spec BPOW_APPROX_BASE_MAX base) as [Hlt|Hle].
  { unfold bpow_approx in Hq. destruct (BASE <? _); [done|]. destruct (base <? _); [done|].
    by rewrite (proj2 (Z.ltb_lt _ _) Hlt) in Hq. }
  destruct (bpow_approx_ok base (exp - exp / BASE * BASE)) as (q' & Hq' & _ & _ & Hge).
  { split; [|done]. change BPOW_APPROX_BASE_MIN with 2500000000. rewrite BASE_val in *. lia. }
  { lia. }
  assert (q' = q) as -> by congruence. by apply (bmul_ge_one p q); [|apply Hge|].
Qed.

Lemma bpow_le r : 0 ≤ base ≤ BASE → in_u128 exp → bpow base exp = Ok r → 0 ≤ r ≤ BASE.
Proof.
  intros Hb [He1 He2] (p & Hp & Hr)%bpow_inv.
  destruct (bpowi_spec base Hb (exp / BASE)) as (p' & Hp' & Hpp & _).
  { split; [by apply Z.div_pos|]. apply Z.div_le_upper_bound; [done|]. rewrite BASE_val. lia. }
  assert (p' = p) as -> by congruence. destruct Hr as [->|(q & Hq & Hr)]; [done|].
  pose proof (Z.div_mod exp BASE ltac:(done)). pose proof (Z.mod_pos_bound exp BASE BASE_pos).
  destruct (Z.ltb_spec base BPOW_APPROX_BASE_MIN) as [Hlt|Hle].
  { unfold bpow_approx in Hq. destruct (BASE <? _); [done|]. by rewrite (proj2 (Z.ltb_lt _ _) Hlt) in Hq. }
  destruct (bpow_approx_ok base (exp - exp / BASE * BASE)) as (q' & Hq' & Hab & Hle' & _).
  { split; [done|]. change BPOW_APPROX_BASE_MAX with 17500000000. rewrite BASE_val in *. lia. }
  { lia. }
  assert (q' = q) as -> by congruence. specialize (Hle' (proj2 Hb)).
  destruct (bmul_fraction p q ltac:(lia) ltac:(rewrite BASE_val in *; lia)) as (r' & Hr' & ?). congruence.
Qed.

(** A base between a quarter and one can be raised to any power. *)
Lemma bpow_total : BPOW_APPROX_BASE_MIN ≤ base ≤ BASE → in_u128 exp → ∃ r, bpow base exp = Ok r ∧ 0 ≤ r ≤ BASE.
Proof.
  intros [Hb1 Hb2] [He1 He2]. unfold bpow, bfloor, btoi.
  pose proof (Z.div_mod exp BASE ltac:(done)). pose proof (Z.mod_pos_bound exp BASE BASE_pos).
  change (checked_div_res exp BASE) with (@Ok DispatchError _ (exp / BASE)). cbn [mbind result_bind].
  rewrite (proj2 (checked_mul_ok _ _ BASE (exp / BASE * BASE))) by lia. cbn [mbind result_bind].
  rewrite (proj2 (checked_sub_ok exp _ (exp - exp / BASE * BASE))) by lia. cbn [mbind result_bind].
  change (checked_div_res (exp / BASE * BASE) BASE) with (@Ok DispatchError _ (exp / BASE * BASE / BASE)).
  rewrite Z.div_mul by done. cbn [mbind result_bind].
  assert (0 ≤ base) by (change BPOW_APPROX_BASE_MIN with 2500000000 in *; lia).
  destruct (bpowi_spec base ltac:(lia) (exp / BASE)) as (p & -> & Hp & _).
  { split; [by apply Z.div_pos|]. apply Z.div_le_upper_bound; [done|]. rewrite BASE_val. lia. }
  cbn [mbind result_bind]. destruct (_ =? 0); [by exists p|].
  destruct (bpow_approx_ok base (exp - exp / BASE * BASE)) as (q & -> & Hab & Hle & _).
  { split; [done|]. change BPOW_APPROX_BASE_MAX with 17500000000. rewrite BASE_val in *. lia. }
  { lia. }
  specialize (Hle Hb2). cbn [mbind result_bind].
  apply bmul_fraction; rewrite BASE_val in *; lia.
Qed.
End Bpow.

(** ** Properties *)
Module SwapsMath.

(** Exponentiation by squaring of a fraction never fails, uses fewer rounds than
    it is given and is within half a unit per multiplication of the exact power:
    [| r / BASE - (a / BASE) ^ n | <= (n - 1) / (2 BASE)]. *)
Theorem bpowi_accurate (a n : Z) :
  0 ≤ a ≤ BASE → in_u128 n → 0 < n →
  ∃ r, bpowi a n = Ok r ∧ 0 ≤ r ≤ BASE ∧
    Z.abs (2 * r * BASE ^ n - 2 * a ^ n * BASE) ≤ (n - 1) * BASE ^ n.
Proof.
  intros Ha Hn Hpos. destruct (bpowi_spec a Ha n Hn) as (r & Hr & Hb & [[? _]|[_ He]]); [lia|].
  by exists r.
Qed.

Lemma bpowi_accurate_witness : ∃ r, bpowi 9000000000 5 = Ok r ∧ 0 ≤ r ≤ BASE ∧
  Z.abs (2 * r * BASE ^ 5 - 2 * 9000000000 ^ 5 * BASE) ≤ (5 - 1) * BASE ^ 5.
Proof. apply (bpowi_accurate 9000000000 5); [split; vm_compute; discriminate..|done]. Defined.

(** (C33) Within its limits the series of [bpow_approx] always converges: the hundred
    rounds suffice, no step overflows or underflows, and the result is on the side of
    one where the base is, at most nine tenths away from it. Outside the limits the
    call returns the error that names the violated one. *)
Theorem bpow_approx_total (base exp : Z) :
  0 ≤ base → 0 ≤ exp →
  (BPOW_APPROX_BASE_MIN ≤ base ≤ BPOW_APPROX_BASE_MAX → exp ≤ BASE →
     ∃ r, bpow_approx base exp = Ok r ∧ 10 * Z.abs (r - BASE) ≤ 9 * BASE ∧
       (base ≤ BASE → r ≤ BASE) ∧ (BASE ≤ base → BASE ≤ r)) ∧
  (BASE < exp → bpow_approx base exp = Err (OtherError "[bpow_approx]: expected exp <= BASE")) ∧
  (exp ≤ BASE → base < BPOW_APPROX_BASE_MIN →
     bpow_approx base exp = Err (OtherError "[bpow_approx]: expected base >= BASE / 4")) ∧
  (exp ≤ BASE → BPOW_APPROX_BASE_MAX < base →
     bpow_approx base exp = Err (OtherError "[bpow_approx]: expected base <= 7 * BASE / 4")).
Proof.
  intros Hb He. split; [intros; by apply bpow_approx_ok|]. unfold bpow_approx. split; [|split].
  - by intros ->%Z.ltb_lt.
  - intros ->%Z.ltb_ge ->%Z.ltb_lt. done.
  - intros ->%Z.ltb_ge Hmax. assert ((base <? BPOW_APPROX_BASE_MIN) = false) as ->.
    { apply Z.ltb_ge. change BPOW_APPROX_BASE_MIN with 2500000000.
      change BPOW_APPROX_BASE_MAX with 17500000000 in Hmax. lia. }
    by apply Z.ltb_lt in Hmax as ->.
Qed.

Lemma bpow_approx_total_witness : ∃ r, bpow_approx 2500000000 5000000000 = Ok r ∧ 10 * Z.abs (r - BASE) ≤ 9 * BASE ∧
  r ≤ BASE ∧ bpow_approx 2400000000 1 = Err (OtherError "[bpow_approx]: expected base >= BASE / 4").
Proof.
  destruct (bpow_approx_total 2500000000 5000000000 ltac:(done) ltac:(done)) as [Hok _].
  destruct (Hok ltac:(split; vm_compute; discriminate) ltac:(vm_compute; discriminate)) as (r & Hr & Ha & Hl & _).
  exists r. split; [exact Hr|]. split; [exact Ha|]. split; [apply Hl; vm_compute; discriminate|].
  destruct (bpow_approx_total 2400000000 1 ltac:(done) ltac:(done)) as (_ & _ & Hm & _).
  apply Hm; [vm_compute; discriminate|reflexivity].
Defined.

(** The amount out of a swap is always defined when the amount in is at most the
    balance, the fee at most one and the numbers below [10 ^ 28], and it is at most the
    balance of the pool; so a trade within [MaxInRatio] is never refused by the formula. *)
Theorem calc_out_given_in_total (bi wi bo wo ai sf : Z) :
  0 < bi ≤ 10 ^ 28 → 0 < wi ≤ 10 ^ 28 → 0 ≤ bo ≤ 10 ^ 28 → 0 < wo ≤ 10 ^ 28 → 0 ≤ ai ≤ bi → 0 ≤ sf ≤ BASE →
  ∃ r, calc_out_given_in bi wi bo wo ai sf = Ok r ∧ 0 ≤ r ≤ bo.
Proof.
  intros Hbi Hwi Hbo Hwo Hai Hsf. change (10 ^ 28) with 10000000000000000000000000000 in *.
  unfold calc_out_given_in.
  assert (∀ y, y / 2 ≤ y ∨ y < 0) as Hhalf by (intros y; pose proof (Z.div_mod y 2 ltac:(done));
    pose proof (Z.mod_pos_bound y 2 ltac:(done)); lia).
  assert (Hratio : bdiv wi wo = Ok ((wi * BASE + wo / 2) / wo)).
  { apply bdiv_run; [lia|]. destruct (Hhalf wo); [rewrite u128_val, BASE_val; lia|lia]. }
  rewrite (bindR_ok _ _ _ Hratio). apply bdiv_nonneg in Hratio as Hr0; [|lia..].
  assert (Hr1 : (wi * BASE + wo / 2) / wo ≤ u128_max).
  { apply Z.div_le_upper_bound; [lia|]. destruct (Hhalf wo); [rewrite u128_val, BASE_val; nia|lia]. }
  rewrite (bindR_ok _ _ (BASE - sf)) by (apply checked_sub_ok; lia).
  assert (Hadj : bmul (BASE - sf) ai = Ok (((BASE - sf) * ai + BASE / 2) / BASE)).
  { apply bmul_run. change (BASE / 2) with 5000000000. rewrite u128_val, BASE_val in *. nia. }
  rewrite (bindR_ok _ _ _ Hadj). set (adj := _ / BASE) in *.
  assert (0 ≤ adj ≤ ai) as Hadj'.
  { split; [apply (bmul_nonneg (BASE - sf) ai); [lia|lia|exact Hadj]|]. apply (bmul_le _ _ _ _ Hadj). nia. }
  rewrite (bindR_ok _ _ (bi + adj)) by (apply checked_add_ok; split; [rewrite u128_val; lia|done]).
  assert (Hy : bdiv bi (bi + adj) = Ok ((bi * BASE + (bi + adj) / 2) / (bi + adj))).
  { apply bdiv_run; [lia|]. destruct (Hhalf (bi + adj)); [rewrite u128_val, BASE_val; lia|lia]. }
  rewrite (bindR_ok _ _ _ Hy). set (y := _ / (bi + adj)) in *.
  assert (BPOW_APPROX_BASE_MIN ≤ y ≤ BASE) as Hyb.
  { assert (0 < bi + adj) as Hpos by lia.
    split; [apply (bdiv_ge _ _ _ _ Hpos Hy)|apply (bdiv_le _ _ _ _ Hpos Hy)].
    - change BPOW_APPROX_BASE_MIN with 2500000000. rewrite BASE_val. lia.
    - nia. }
  destruct (bpow_total y ((wi * BASE + wo / 2) / wo) Hyb (conj Hr0 Hr1)) as (pow & Hpow & Hp).
  rewrite (bindR_ok _ _ _ Hpow), (bindR_ok _ _ (BASE - pow)) by (apply checked_sub_ok; lia).
  assert (Hout : bmul bo (BASE - pow) = Ok ((bo * (BASE - pow) + BASE / 2) / BASE)).
  { apply bmul_run. change (BASE / 2) with 5000000000. rewrite u128_val, BASE_val in *. nia. }
  eexists. split; [exact Hout|]. split; [apply (bmul_nonneg bo (BASE - pow)); [lia|lia|exact Hout]|].
  apply (bmul_le _ _ _ _ Hout). nia.
Qed.

Lemma calc_out_given_in_total_witness : ∃ r,
  calc_out_given_in (100 * BASE) BASE (200 * BASE) (3 * BASE) (30 * BASE) (BASE / 100) = Ok r ∧ 0 ≤ r ≤ 200 * BASE.
Proof. apply calc_out_given_in_total; vm_compute; split; congruence. Defined.

(** The values of the unit tests. *)
Example bpow_test1 : bpow 2500000000 33333333333 = Ok 98431332. Proof. vm_compute. reflexivity. Qed.
Example bpow_test2 : bpow 17500000000 500000000000 = Ok 14187387615522523114310. Proof. vm_compute. reflexivity. Qed.
End SwapsMath.
