(* ===== verification/Swaps.v ===== *)
(** * Constant function market maker: the pools

    [zrml/swaps/src/{lib,utils,events}.rs] and [types/pool.rs]: pools of weighted
    assets, traded at the price their balances and weights set. The tokens of a pool
    are in an account of its own; its providers hold the asset [PoolShare].
    [SwapsMath] holds the formulas. The code passes closures to the common parts of
    joining, leaving and swapping: they are function arguments here. *)
From S2P Require Import Prelude Types Errors Fixed Currencies SwapsMath.

(** ** Data *)

Inductive PoolStatus : Type := Open | Closed.
#[export] Instance PoolStatus_eq_dec : EqDecision PoolStatus.
Proof. solve_decision. Defined.

Record Pool : Type := mk_Pool {
  assets : list Asset;
  status : PoolStatus;
  swap_fee : Balance;
  total_weight : Z;
  weights : gmap Asset Z;
}.
Definition set_status (x : PoolStatus) (p : Pool) : Pool :=
  mk_Pool (assets p) x (swap_fee p) (total_weight p) (weights p).

(** [Pool::bound] *)
Definition bound (p : Pool) (a : Asset) : bool := bool_decide (is_Some (weights p !! a)).

Record CommonPoolEventParams : Type := mk_CommonPoolEventParams { cpep_pool_id : PoolId; cpep_who : AccountId }.
Record PoolAssetsEvent : Type := mk_PoolAssetsEvent {
  pas_assets : list Asset;
  pas_bounds : list Balance;
  pas_cpep : CommonPoolEventParams;
  pas_transferred : list Balance;
  pas_pool_amount : Balance;
}.
Record PoolAssetEvent : Type := mk_PoolAssetEvent {
  pa_asset : Asset;
  pa_bound : Balance;
  pa_cpep : CommonPoolEventParams;
  pa_transferred : Balance;
  pa_pool_amount : Balance;
}.
Record SwapEvent : Type := mk_SwapEvent {
  sw_asset_amount_in : Balance;
  sw_asset_amount_out : Balance;
  sw_asset_bound : option Balance;
  sw_asset_in : Asset;
  sw_asset_out : Asset;
  sw_cpep : CommonPoolEventParams;
  sw_max_price : option Balance;
}.

(** The events the pallet deposits. *)
Inductive Event : Type :=
| PoolCreate (cpep : CommonPoolEventParams) (pool : Pool) (pool_amount : Balance) (pool_account : AccountId)
| PoolClosed (pool_id : PoolId)
| PoolActive (pool_id : PoolId)
| PoolDestroyed (pool_id : PoolId)
| PoolExit (e : PoolAssetsEvent)
| PoolExitWithExactAssetAmount (e : PoolAssetEvent)
| PoolExitWithExactPoolAmount (e : PoolAssetEvent)
| PoolJoin (e : PoolAssetsEvent)
| PoolJoinWithExactAssetAmount (e : PoolAssetEvent)
| PoolJoinWithExactPoolAmount (e : PoolAssetEvent)
| SwapExactAmountIn (e : SwapEvent)
| SwapExactAmountOut (e : SwapEvent).

Record State (L : Type) : Type := mk_State {
  ledger : L;
  Pools : gmap PoolId Pool;
  NextPoolId : PoolId;
  events : list Event;
}.
Arguments mk_State {L} _ _ _ _.
Arguments ledger {L} _.
Arguments Pools {L} _.
Arguments NextPoolId {L} _.
Arguments events {L} _.

(** The constants of [Config]; [PalletId] is only used through [pool_account_id]. *)
Class SwapsConfig := {
  ExitFee : Balance;
  MaxAssets : Z;
  MaxInRatio : Balance;
  MaxOutRatio : Balance;
  MaxSwapFee : Balance;
  MaxTotalWeight : Z;
  MaxWeight : Z;
  MinAssets : Z;
  MinWeight : Z;
  pool_account_id : PoolId → AccountId;
}.

Definition MIN_BALANCE : Balance := CENT.

(** ** The pallet *)
Section Swaps.
Context {L : Type} `{AssetManager L, SwapsConfig}.
Abbreviation St := (State L).
Implicit Types s : St.

Definition set_ledger (x : L) (s : St) : St := mk_State x (Pools s) (NextPoolId s) (events s).
Definition set_Pools (x : gmap PoolId Pool) (s : St) : St :=
  mk_State (ledger s) x (NextPoolId s) (events s).
Definition set_NextPoolId (x : PoolId) (s : St) : St := mk_State (ledger s) (Pools s) x (events s).
Definition deposit_event (e : Event) : Store St unit :=
  modify (λ s, mk_State (ledger s) (Pools s) (NextPoolId s) (e :: events s)).
Definition on_ledger {A} (m : Store L A) : Store St A := zoom ledger set_ledger m.
Definition balance_of (a : Asset) (x : AccountId) : Store St Balance :=
  gets (λ s, free_balance a x (ledger s)).

(** *** Pool shares and minimum balances *)

Definition pool_shares_id (pool_id : PoolId) : Asset := PoolShare pool_id.

Definition pool_by_id (pool_id : PoolId) : Store St Pool := λ s,
  ok_or (Pools s !! pool_id) SW_PoolDoesNotExist s.

Definition pool_weight_rslt (pool : Pool) (a : Asset) : Res Z :=
  ok_orR (weights pool !! a) SW_AssetNotBound.

Definition min_balance (a : Asset) : Balance := Z.max (minimum_balance a) MIN_BALANCE.

Definition min_balance_of_pool (pool_id : PoolId) (l : list Asset) : Balance :=
  let of_assets :=
    match min_balance <$> l with
    | [] => MIN_BALANCE
    | x :: xs => foldr Z.max x xs
    end in
  Z.max of_assets (min_balance (pool_shares_id pool_id)).

Definition ensure_minimum_liquidity_shares (pool_id : PoolId) (pool : Pool) (amount : Balance) : Store St unit :=
  if bool_decide (status pool = Closed) then mret tt else
  let pool_shares_id := pool_shares_id pool_id in
  total_issuance ← gets (λ s, total_issuance pool_shares_id (ledger s));
  let max_withdraw := saturating_sub total_issuance (min_balance pool_shares_id) in
  ensure (amount <=? max_withdraw) SW_PoolDrain.

Definition ensure_minimum_balance (pool_id : PoolId) (pool : Pool) (a : Asset) (amount : Balance) : Store St unit :=
  if bool_decide (status pool = Closed) then mret tt else
  balance ← balance_of a (pool_account_id pool_id);
  let max_withdraw := saturating_sub balance (min_balance a) in
  ensure (amount <=? max_withdraw) SW_PoolDrain.

(** The amount that is missing for the slash is only asserted to be zero. *)
Definition burn_pool_shares (pool_id : PoolId) (from : AccountId) (amount : Balance) : Store St unit :=
  let shares_id := pool_shares_id pool_id in
  can ← gets (λ s, is_ok (ensure_can_withdraw shares_id from amount (ledger s)));
  _ ← ensure can SW_InsufficientBalance;
  _ ← on_ledger (infallible (slash shares_id from amount));
  mret tt.

Definition mint_pool_shares (pool_id : PoolId) (to : AccountId) (amount : Balance) : Store St unit :=
  on_ledger (deposit (pool_shares_id pool_id) to amount).

Definition check_provided_values_len_must_equal_assets_len {A} (l : list Asset) (provided_values : list A) : Res unit :=
  ensureR (bool_decide (length l = length provided_values)) SW_ProvidedValuesLenMustEqualAssetsLen.

Definition ensure_pool_is_active (pool : Pool) : Res unit :=
  match status pool with Open => Ok tt | Closed => Err SW_PoolIsNotActive end.

Definition calc_exit_fee (pool : Pool) : Balance :=
  match status pool with Open => ExitFee | Closed => 0 end.

Definition inc_next_pool_id : Store St PoolId :=
  id ← gets NextPoolId;
  n ← lift (checked_add_res u128_max id 1);
  _ ← modify (set_NextPoolId n);
  mret id.

Definition mutate_pool (pool_id : PoolId) (cb : Pool → Res Pool) : Store St unit :=
  pool ← pool_by_id pool_id;
  pool ← lift (cb pool);
  modify (λ s, set_Pools (<[pool_id := pool]> (Pools s)) s).

(** [slice::binary_search] *)
Definition asset_in_pool (pool : Pool) (a : Asset) : bool :=
  is_ok (binary_search_by (λ x, Asset_compare x a) (assets pool)).

Definition get_spot_price (pool_id : PoolId) (asset_in asset_out : Asset) (with_fees : bool) : Store St Balance :=
  pool ← pool_by_id pool_id;
  _ ← ensure (asset_in_pool pool asset_in) SW_AssetNotInPool;
  _ ← ensure (asset_in_pool pool asset_out) SW_AssetNotInPool;
  let pool_account := pool_account_id pool_id in
  balance_in ← balance_of asset_in pool_account;
  balance_out ← balance_of asset_out pool_account;
  in_weight ← lift (pool_weight_rslt pool asset_in);
  out_weight ← lift (pool_weight_rslt pool asset_out);
  let swap_fee := if with_fees then swap_fee pool else 0 in
  lift (calc_spot_price balance_in in_weight balance_out out_weight swap_fee).

(** *** The common parts ([utils.rs]) *)

Definition pool_exit_with_exact_amount (asset : Asset)
    (asset_amount : Balance → Balance → Store St Balance) (bound_ : Balance)
    (ensure_balance : Balance → Res unit) (event : PoolAssetEvent → Event) (who : AccountId)
    (pool_amount : Balance → Balance → Store St Balance) (pool_id : PoolId) (pool : Pool) : Store St unit :=
  _ ← lift (ensure_pool_is_active pool);
  _ ← ensure (bound pool asset) SW_AssetNotBound;
  let pool_account := pool_account_id pool_id in
  asset_balance ← balance_of asset pool_account;
  _ ← lift (ensure_balance asset_balance);
  total_issuance ← gets (λ s, total_issuance (pool_shares_id pool_id) (ledger s));
  asset_amount ← asset_amount asset_balance total_issuance;
  pool_amount ← pool_amount asset_balance total_issuance;
  _ ← burn_pool_shares pool_id who pool_amount;
  _ ← on_ledger (transfer asset pool_account who asset_amount);
  deposit_event (event (mk_PoolAssetEvent asset bound_ (mk_CommonPoolEventParams pool_id who)
    asset_amount pool_amount)).

Definition pool_join_with_exact_amount (asset : Asset)
    (asset_amount : Balance → Balance → Store St Balance) (bound_ : Balance)
    (event : PoolAssetEvent → Event) (who : AccountId)
    (pool_amount : Balance → Balance → Store St Balance) (pool_id : PoolId) (pool : Pool) : Store St unit :=
  _ ← lift (ensure_pool_is_active pool);
  let pool_account := pool_account_id pool_id in
  total_issuance ← gets (λ s, total_issuance (pool_shares_id pool_id) (ledger s));
  _ ← ensure (bound pool asset) SW_AssetNotBound;
  asset_balance ← balance_of asset pool_account;
  asset_amount ← asset_amount asset_balance total_issuance;
  pool_amount ← pool_amount asset_balance total_issuance;
  _ ← mint_pool_shares pool_id who pool_amount;
  _ ← on_ledger (transfer asset who pool_account asset_amount);
  deposit_event (event (mk_PoolAssetEvent asset bound_ (mk_CommonPoolEventParams pool_id who)
    asset_amount pool_amount)).

(** The loop of [pool]: the amounts that were moved. *)
Fixpoint pool_loop (fee : Balance → Res Balance) (transfer_asset : Balance → Balance → Asset → Store St unit)
    (pool_account : AccountId) (ratio : Balance) (l : list (Asset * Balance)) : Store St (list Balance) :=
  match l with
  | [] => mret []
  | (asset, amount_bound) :: l =>
      balance ← balance_of asset pool_account;
      amount ← lift (bmul ratio balance);
      fee_amount ← lift (fee amount);
      amount_minus_fee ← lift (sub amount fee_amount);
      _ ← ensure (negb (amount_minus_fee =? 0)) SW_MathApproximation;
      _ ← transfer_asset amount_minus_fee amount_bound asset;
      transferred ← pool_loop fee transfer_asset pool_account ratio l;
      mret (amount_minus_fee :: transferred)
  end.

Definition pool_ (asset_bounds : list Balance) (event : PoolAssetsEvent → Event) (pool_account : AccountId)
    (pool_amount : Balance) (pool_id : PoolId) (pool : Pool)
    (transfer_asset : Balance → Balance → Asset → Store St unit) (transfer_pool : Store St unit)
    (fee : Balance → Res Balance) (who : AccountId) : Store St unit :=
  total_issuance ← gets (λ s, total_issuance (pool_shares_id pool_id) (ledger s));
  ratio ← lift (bdiv pool_amount total_issuance);
  _ ← lift (check_provided_values_len_must_equal_assets_len (assets pool) asset_bounds);
  _ ← ensure (negb (ratio =? 0)) SW_MathApproximation;
  transferred ← pool_loop fee transfer_asset pool_account ratio (zip (assets pool) asset_bounds);
  _ ← transfer_pool;
  deposit_event (event (mk_PoolAssetsEvent (assets pool) asset_bounds
    (mk_CommonPoolEventParams pool_id who) transferred pool_amount)).

(** [if let Some(limit) = opt { ensure!(test limit, e) }] *)
Definition ensure_limit (opt : option Balance) (test : Balance → bool) (e : SwapsError) : Store St unit :=
  match opt with Some limit => ensure (test limit) e | None => mret tt end.

Definition swap_exact_amount (asset_amounts : Store St (Balance * Balance)) (asset_bound : option Balance)
    (asset_in asset_out : Asset) (event : SwapEvent → Event) (max_price : option Balance)
    (pool_account : AccountId) (pool_id : PoolId) (pool : Pool) (who : AccountId) : Store St unit :=
  _ ← lift (ensure_pool_is_active pool);
  _ ← ensure (asset_in_pool pool asset_in) SW_AssetNotInPool;
  _ ← ensure (asset_in_pool pool asset_out) SW_AssetNotInPool;
  _ ← ensure (bound pool asset_in) SW_AssetNotBound;
  _ ← ensure (bound pool asset_out) SW_AssetNotBound;
  spot_price_before ← get_spot_price pool_id asset_in asset_out true;
  spot_price_before_without_fees ← get_spot_price pool_id asset_in asset_out false;
  _ ← ensure_limit max_price (λ max_price, spot_price_before <=? max_price) SW_BadLimitPrice;
  amounts ← asset_amounts;
  let '(asset_amount_in, asset_amount_out) := (amounts : Balance * Balance) in
  _ ← on_ledger (transfer asset_in who pool_account asset_amount_in);
  _ ← on_ledger (transfer asset_out pool_account who asset_amount_out);
  spot_price_after ← get_spot_price pool_id asset_in asset_out true;
  _ ← ensure (spot_price_before <=? spot_price_after) SW_MathApproximation;
  _ ← ensure_limit max_price (λ max_price, spot_price_after <=? max_price) SW_BadLimitPrice;
  effective ← lift (bdiv asset_amount_in asset_amount_out);
  _ ← ensure (spot_price_before_without_fees <=? effective) SW_MathApproximation;
  deposit_event (event (mk_SwapEvent asset_amount_in asset_amount_out asset_bound asset_in asset_out
    (mk_CommonPoolEventParams pool_id who) max_price)).

(** *** Joining and leaving *)

Definition pool_exit (origin : option AccountId) (pool_id : PoolId) (pool_amount : Balance)
    (min_assets_out : list Balance) : Store St unit :=
  transactional (
    who ← ok_or origin BadOrigin;
    _ ← ensure (negb (pool_amount =? 0)) SW_ZeroAmount;
    pool ← pool_by_id pool_id;
    _ ← ensure_minimum_liquidity_shares pool_id pool pool_amount;
    let pool_account := pool_account_id pool_id in
    pool_ min_assets_out PoolExit pool_account pool_amount pool_id pool
      (λ amount amount_bound asset,
        _ ← ensure_minimum_balance pool_id pool asset amount;
        _ ← ensure (amount_bound <=? amount) SW_LimitOut;
        on_ledger (transfer asset pool_account who amount))
      (burn_pool_shares pool_id who pool_amount)
      (λ amount, bmul amount (calc_exit_fee pool))
      who).

(** [Swaps::pool_exit_with_exact_asset_amount]; the extrinsic of the same name only
    checks the origin. *)
Definition api_pool_exit_with_exact_asset_amount (who : AccountId) (pool_id : PoolId) (asset : Asset)
    (asset_amount max_pool_amount : Balance) : Store St unit :=
  transactional (
    pool ← pool_by_id pool_id;
    _ ← ensure_minimum_balance pool_id pool asset asset_amount;
    pool_exit_with_exact_amount asset
      (λ _ _, mret asset_amount)
      max_pool_amount
      (λ asset_balance,
        m ← bmul asset_balance MaxOutRatio;
        ensureR (asset_amount <=? m) SW_MaxOutRatio)
      PoolExitWithExactAssetAmount who
      (λ asset_balance total_supply,
        weight ← lift (pool_weight_rslt pool asset);
        pool_amount ← lift (calc_pool_in_given_single_out asset_balance weight total_supply
          (total_weight pool) asset_amount (swap_fee pool) ExitFee);
        _ ← ensure (negb (pool_amount =? 0)) SW_ZeroAmount;
        _ ← ensure (pool_amount <=? max_pool_amount) SW_LimitIn;
        _ ← ensure_minimum_liquidity_shares pool_id pool pool_amount;
        mret pool_amount)
      pool_id pool).

Definition pool_exit_with_exact_asset_amount (origin : option AccountId) (pool_id : PoolId) (asset : Asset)
    (asset_amount max_pool_amount : Balance) : Store St unit :=
  who ← ok_or origin BadOrigin;
  api_pool_exit_with_exact_asset_amount who pool_id asset asset_amount max_pool_amount.

Definition pool_exit_with_exact_pool_amount (origin : option AccountId) (pool_id : PoolId) (asset : Asset)
    (pool_amount min_asset_amount : Balance) : Store St unit :=
  transactional (
    _ ← ensure (negb (pool_amount =? 0)) SW_ZeroAmount;
    pool ← pool_by_id pool_id;
    who ← ok_or origin BadOrigin;
    _ ← ensure_minimum_liquidity_shares pool_id pool pool_amount;
    pool_exit_with_exact_amount asset
      (λ asset_balance total_supply,
        m ← lift (bmul total_supply MaxInRatio);
        _ ← ensure (pool_amount <=? m) SW_MaxInRatio;
        weight ← lift (pool_weight_rslt pool asset);
        asset_amount ← lift (calc_single_out_given_pool_in asset_balance weight total_supply
          (total_weight pool) pool_amount (swap_fee pool) ExitFee);
        _ ← ensure (negb (asset_amount =? 0)) SW_ZeroAmount;
        _ ← ensure (min_asset_amount <=? asset_amount) SW_LimitOut;
        m ← lift (bmul asset_balance MaxOutRatio);
        _ ← ensure (asset_amount <=? m) SW_MaxOutRatio;
        _ ← ensure_minimum_balance pool_id pool asset asset_amount;
        mret asset_amount)
      min_asset_amount (λ _, Ok tt) PoolExitWithExactPoolAmount who
      (λ _ _, mret pool_amount) pool_id pool).

Definition pool_join (origin : option AccountId) (pool_id : PoolId) (pool_amount : Balance)
    (max_assets_in : list Balance) : Store St unit :=
  transactional (
    who ← ok_or origin BadOrigin;
    _ ← ensure (negb (pool_amount =? 0)) SW_ZeroAmount;
    pool ← pool_by_id pool_id;
    _ ← ensure (bool_decide (status pool = Open)) SW_InvalidPoolStatus;
    let pool_account := pool_account_id pool_id in
    pool_ max_assets_in PoolJoin pool_account pool_amount pool_id pool
      (λ amount amount_bound asset,
        _ ← ensure (amount <=? amount_bound) SW_LimitIn;
        on_ledger (transfer asset who pool_account amount))
      (mint_pool_shares pool_id who pool_amount)
      (λ _, Ok 0)
      who).

Definition api_pool_join_with_exact_asset_amount (who : AccountId) (pool_id : PoolId) (asset_in : Asset)
    (asset_amount min_pool_amount : Balance) : Store St unit :=
  transactional (
    _ ← ensure (negb (asset_amount =? 0)) SW_ZeroAmount;
    pool ← pool_by_id pool_id;
    pool_join_with_exact_amount asset_in
      (λ _ _, mret asset_amount)
      min_pool_amount PoolJoinWithExactAssetAmount who
      (λ asset_balance total_supply,
        m ← lift (bmul asset_balance MaxInRatio);
        _ ← ensure (asset_amount <=? m) SW_MaxInRatio;
        weight ← lift (pool_weight_rslt pool asset_in);
        pool_amount ← lift (calc_pool_out_given_single_in asset_balance weight total_supply
          (total_weight pool) asset_amount (swap_fee pool));
        _ ← ensure (min_pool_amount <=? pool_amount) SW_LimitOut;
        mret pool_amount)
      pool_id pool).

Definition pool_join_with_exact_asset_amount (origin : option AccountId) (pool_id : PoolId) (asset_in : Asset)
    (asset_amount min_pool_amount : Balance) : Store St unit :=
  who ← ok_or origin BadOrigin;
  api_pool_join_with_exact_asset_amount who pool_id asset_in asset_amount min_pool_amount.

(** The last bound is a plain product, not [bmul]. *)
Definition pool_join_with_exact_pool_amount (origin : option AccountId) (pool_id : PoolId) (asset : Asset)
    (pool_amount max_asset_amount : Balance) : Store St unit :=
  transactional (
    pool ← pool_by_id pool_id;
    who ← ok_or origin BadOrigin;
    pool_join_with_exact_amount asset
      (λ asset_balance total_supply,
        m ← lift (bmul total_supply MaxOutRatio);
        _ ← ensure (pool_amount <=? m) SW_MaxOutRatio;
        weight ← lift (pool_weight_rslt pool asset);
        asset_amount ← lift (calc_single_in_given_pool_out asset_balance weight total_supply
          (total_weight pool) pool_amount (swap_fee pool));
        _ ← ensure (negb (asset_amount =? 0)) SW_ZeroAmount;
        _ ← ensure (asset_amount <=? max_asset_amount) SW_LimitIn;
        m ← lift (mul asset_balance MaxInRatio);
        _ ← ensure (asset_amount <=? m) SW_MaxInRatio;
        mret asset_amount)
      max_asset_amount PoolJoinWithExactPoolAmount who
      (λ _ _, mret pool_amount) pool_id pool).

(** *** Swapping *)

Definition api_swap_exact_amount_in (who : AccountId) (pool_id : PoolId) (asset_in : Asset)
    (asset_amount_in : Balance) (asset_out : Asset) (min_asset_amount_out max_price : option Balance) :
    Store St unit :=
  _ ← ensure (bool_decide (is_Some min_asset_amount_out) || bool_decide (is_Some max_price)) SW_LimitMissing;
  pool ← pool_by_id pool_id;
  let pool_account := pool_account_id pool_id in
  funds ← balance_of asset_in who;
  _ ← ensure (asset_amount_in <=? funds) SW_InsufficientBalance;
  swap_exact_amount
    (balance_out ← balance_of asset_out pool_account;
     balance_in ← balance_of asset_in pool_account;
     m ← lift (bmul balance_in MaxInRatio);
     _ ← ensure (asset_amount_in <=? m) SW_MaxInRatio;
     weight_in ← lift (pool_weight_rslt pool asset_in);
     weight_out ← lift (pool_weight_rslt pool asset_out);
     asset_amount_out ← lift (calc_out_given_in balance_in weight_in balance_out weight_out
       asset_amount_in (swap_fee pool));
     _ ← ensure_limit min_asset_amount_out (λ maao, maao <=? asset_amount_out) SW_LimitOut;
     _ ← ensure_minimum_balance pool_id pool asset_out asset_amount_out;
     mret (asset_amount_in, asset_amount_out))
    min_asset_amount_out asset_in asset_out SwapExactAmountIn max_price pool_account pool_id pool who.

Definition swap_exact_amount_in (origin : option AccountId) (pool_id : PoolId) (asset_in : Asset)
    (asset_amount_in : Balance) (asset_out : Asset) (min_asset_amount_out max_price : option Balance) :
    Store St unit :=
  transactional (
    who ← ok_or origin BadOrigin;
    api_swap_exact_amount_in who pool_id asset_in asset_amount_in asset_out min_asset_amount_out max_price).

Definition api_swap_exact_amount_out (who : AccountId) (pool_id : PoolId) (asset_in : Asset)
    (max_asset_amount_in : option Balance) (asset_out : Asset) (asset_amount_out : Balance)
    (max_price : option Balance) : Store St unit :=
  pool ← pool_by_id pool_id;
  let pool_account := pool_account_id pool_id in
  _ ← ensure (bool_decide (is_Some max_asset_amount_in) || bool_decide (is_Some max_price)) SW_LimitMissing;
  _ ← ensure_minimum_balance pool_id pool asset_out asset_amount_out;
  swap_exact_amount
    (balance_out ← balance_of asset_out pool_account;
     m ← lift (bmul balance_out MaxOutRatio);
     _ ← ensure (asset_amount_out <=? m) SW_MaxOutRatio;
     balance_in ← balance_of asset_in pool_account;
     weight_in ← lift (pool_weight_rslt pool asset_in);
     weight_out ← lift (pool_weight_rslt pool asset_out);
     asset_amount_in ← lift (calc_in_given_out balance_in weight_in balance_out weight_out
       asset_amount_out (swap_fee pool));
     _ ← ensure_limit max_asset_amount_in (λ maai, asset_amount_in <=? maai) SW_LimitIn;
     mret (asset_amount_in, asset_amount_out))
    max_asset_amount_in asset_in asset_out SwapExactAmountOut max_price pool_account pool_id pool who.

Definition swap_exact_amount_out (origin : option AccountId) (pool_id : PoolId) (asset_in : Asset)
    (max_asset_amount_in : option Balance) (asset_out : Asset) (asset_amount_out : Balance)
    (max_price : option Balance) : Store St unit :=
  transactional (
    who ← ok_or origin BadOrigin;
    api_swap_exact_amount_out who pool_id asset_in max_asset_amount_in asset_out asset_amount_out max_price).

(** *** Creating, opening, closing and destroying *)

Definition Asset_le (a b : Asset) : Prop := Asset_compare a b ≠ Gt.
#[export] Instance Asset_le_dec : RelDecision Asset_le.
Proof. intros a b. unfold Asset_le. apply _. Defined.

(** The fold of [create_pool] over neighbours in the ordered list. *)
Definition has_duplicates (sorted_assets : list Asset) : bool :=
  foldl (λ acc xy, acc || bool_decide (xy.1 = xy.2)) false (zip sorted_assets (drop 1 sorted_assets)).

Fixpoint create_pool_loop (who pool_account : AccountId) (amount : Balance) (l : list (Asset * Z))
    (map : gmap Asset Z) (total_weight : Z) : Store St (gmap Asset Z * Z) :=
  match l with
  | [] => mret (map, total_weight)
  | (asset, weight) :: l =>
      free_balance ← balance_of asset who;
      _ ← ensure (amount <=? free_balance) SW_InsufficientBalance;
      _ ← ensure (MinWeight <=? weight) SW_BelowMinimumWeight;
      _ ← ensure (weight <=? MaxWeight) SW_AboveMaximumWeight;
      total_weight ← lift (add total_weight weight);
      _ ← on_ledger (transfer asset who pool_account amount);
      create_pool_loop who pool_account amount l (<[asset := weight]> map) total_weight
  end.

(** [try_into] of a [BoundedVec] or [BoundedBTreeMap]. *)
Definition bounded {A} (n : nat) (x : A) : Res A :=
  _ ← ensureR (Z.of_nat n <=? MAX_ASSETS) (SW_Unexpected SW_StorageOverflow); Ok x.

Definition create_pool (who : AccountId) (l : list Asset) (swap_fee amount : Balance) (ws : list Z) :
    Store St PoolId :=
  transactional (
    _ ← ensure (Z.of_nat (length l) <=? MaxAssets) SW_TooManyAssets;
    _ ← ensure (MinAssets <=? Z.of_nat (length l)) SW_TooFewAssets;
    next_pool_id ← inc_next_pool_id;
    let pool_shares_id := pool_shares_id next_pool_id in
    let pool_account := pool_account_id next_pool_id in
    let sorted_assets := merge_sort Asset_le l in
    _ ← ensure (negb (has_duplicates sorted_assets)) SW_SomeIdenticalAssets;
    _ ← ensure (min_balance_of_pool next_pool_id l <=? amount) SW_InsufficientLiquidity;
    _ ← ensure (swap_fee <=? MaxSwapFee) SW_SwapFeeTooHigh;
    _ ← lift (check_provided_values_len_must_equal_assets_len l ws);
    acc ← create_pool_loop who pool_account amount (zip l ws) ∅ 0;
    let '(map, total_weight) := (acc : gmap Asset Z * Z) in
    _ ← ensure (total_weight <=? MaxTotalWeight) SW_MaxTotalWeight;
    _ ← on_ledger (deposit pool_shares_id who amount);
    sorted_assets ← lift (bounded (length sorted_assets) sorted_assets);
    map ← lift (bounded (size map) map);
    let pool := mk_Pool sorted_assets Closed swap_fee total_weight map in
    _ ← modify (λ s, set_Pools (<[next_pool_id := pool]> (Pools s)) s);
    _ ← deposit_event (PoolCreate (mk_CommonPoolEventParams next_pool_id who) pool amount pool_account);
    mret next_pool_id).

Definition close_pool (pool_id : PoolId) : Store St unit :=
  _ ← mutate_pool pool_id (λ pool,
    _ ← ensureR (bool_decide (status pool = Open)) SW_InvalidStateTransition;
    Ok (set_status Closed pool));
  deposit_event (PoolClosed pool_id).

Definition open_pool (pool_id : PoolId) : Store St unit :=
  _ ← mutate_pool pool_id (λ pool,
    _ ← ensureR (bool_decide (status pool = Closed)) SW_InvalidStateTransition;
    Ok (set_status Open pool));
  _ ← pool_by_id pool_id;
  deposit_event (PoolActive pool_id).

(** One round of the loop of [destroy_pool]. *)
Definition slash_all (pool_account : AccountId) (asset : Asset) : Store St unit :=
  amount ← balance_of asset pool_account;
  _ ← on_ledger (infallible (slash asset pool_account amount));
  mret tt.

Definition destroy_pool (pool_id : PoolId) : Store St unit :=
  pool ← pool_by_id pool_id;
  _ ← for_each (slash_all (pool_account_id pool_id)) (assets pool);
  _ ← modify (λ s, set_Pools (delete pool_id (Pools s)) s);
  deposit_event (PoolDestroyed pool_id).

(** ** Steps *)

Inductive Call : Type :=
| Call_pool_exit (origin : option AccountId) (pool_id : PoolId) (pool_amount : Balance) (bounds : list Balance)
| Call_pool_exit_with_exact_asset_amount (origin : option AccountId) (pool_id : PoolId) (asset : Asset)
    (asset_amount limit : Balance)
| Call_pool_exit_with_exact_pool_amount (origin : option AccountId) (pool_id : PoolId) (asset : Asset)
    (pool_amount limit : Balance)
| Call_pool_join (origin : option AccountId) (pool_id : PoolId) (pool_amount : Balance) (bounds : list Balance)
| Call_pool_join_with_exact_asset_amount (origin : option AccountId) (pool_id : PoolId) (asset : Asset)
    (asset_amount limit : Balance)
| Call_pool_join_with_exact_pool_amount (origin : option AccountId) (pool_id : PoolId) (asset : Asset)
    (pool_amount limit : Balance)
| Call_swap_exact_amount_in (origin : option AccountId) (pool_id : PoolId) (asset_in : Asset)
    (asset_amount_in : Balance) (asset_out : Asset) (min_asset_amount_out max_price : option Balance)
| Call_swap_exact_amount_out (origin : option AccountId) (pool_id : PoolId) (asset_in : Asset)
    (max_asset_amount_in : option Balance) (asset_out : Asset) (asset_amount_out : Balance)
    (max_price : option Balance)
| Api_create_pool (who : AccountId) (l : list Asset) (swap_fee amount : Balance) (ws : list Z)
| Api_close_pool (pool_id : PoolId)
| Api_open_pool (pool_id : PoolId)
| Api_destroy_pool (pool_id : PoolId).

Definition dispatch (c : Call) : Store St unit :=
  match c with
  | Call_pool_exit origin pool_id pool_amount bounds => pool_exit origin pool_id pool_amount bounds
  | Call_pool_exit_with_exact_asset_amount origin pool_id asset asset_amount limit =>
      pool_exit_with_exact_asset_amount origin pool_id asset asset_amount limit
  | Call_pool_exit_with_exact_pool_amount origin pool_id asset pool_amount limit =>
      pool_exit_with_exact_pool_amount origin pool_id asset pool_amount limit
  | Call_pool_join origin pool_id pool_amount bounds => pool_join origin pool_id pool_amount bounds
  | Call_pool_join_with_exact_asset_amount origin pool_id asset asset_amount limit =>
      pool_join_with_exact_asset_amount origin pool_id asset asset_amount limit
  | Call_pool_join_with_exact_pool_amount origin pool_id asset pool_amount limit =>
      pool_join_with_exact_pool_amount origin pool_id asset pool_amount limit
  | Call_swap_exact_amount_in origin pool_id asset_in asset_amount_in asset_out min_asset_amount_out max_price =>
      swap_exact_amount_in origin pool_id asset_in asset_amount_in asset_out min_asset_amount_out max_price
  | Call_swap_exact_amount_out origin pool_id asset_in max_asset_amount_in asset_out asset_amount_out max_price =>
      swap_exact_amount_out origin pool_id asset_in max_asset_amount_in asset_out asset_amount_out max_price
  | Api_create_pool who l swap_fee amount ws => _ ← create_pool who l swap_fee amount ws; mret tt
  | Api_close_pool pool_id => close_pool pool_id
  | Api_open_pool pool_id => open_pool pool_id
  | Api_destroy_pool pool_id => destroy_pool pool_id
  end.
End Swaps.
