(* ===== verification/SwapsPools.v ===== *)
(** * Constant function market maker: the composition of the pools

    Every pool of every reachable state is well formed and keeps its composition; what
    the formulas return; and which runs leave the pools alone. *)
From S2P Require Import Prelude BTree Types Errors Fixed Currencies Ledgers SwapsMath Swaps.

(** ** The amounts the formulas return *)
Section Amounts.

Lemma bdiv_pos_nonneg x y r : 0 ≤ x → 0 ≤ y → bdiv x y = Ok r → 0 ≤ r.
Proof. intros Hx Hy Hr. apply (bdiv_nonneg x y); [done| |done]. apply bdiv_ok in Hr as [? _]. lia. Qed.

(** Differences and rounded products and quotients of non-negative numbers. *)
Ltac amounts := repeat match goal with
  | H : checked_sub_res _ _ = Ok _ |- _ => apply checked_sub_ok in H as [? ->]
  | H : checked_add_res _ _ _ = Ok _ |- _ => apply checked_add_ok in H as [? ->]
  end.

Lemma calc_pool_out_given_single_in_nonneg bi wi ps tw ai sf r :
  calc_pool_out_given_single_in bi wi ps tw ai sf = Ok r → 0 ≤ r.
Proof. intros Hr. unfold calc_pool_out_given_single_in in Hr. run_inv Hr. amounts. lia. Qed.

Lemma calc_single_in_given_pool_out_nonneg bi wi ps tw po sf r :
  calc_single_in_given_pool_out bi wi ps tw po sf = Ok r → 0 ≤ r.
Proof.
  intros Hr. unfold calc_single_in_given_pool_out in Hr. run_inv Hr. amounts.
  eapply bdiv_pos_nonneg; [| |exact Hr]; lia.
Qed.

Lemma calc_single_out_given_pool_in_nonneg bo wo ps tw pi sf ef r :
  calc_single_out_given_pool_in bo wo ps tw pi sf ef = Ok r → 0 ≤ r.
Proof.
  intros Hr. unfold calc_single_out_given_pool_in in Hr. run_inv Hr. amounts.
  eapply bmul_nonneg; [| |exact Hr]; lia.
Qed.

Lemma calc_pool_in_given_single_out_nonneg bo wo ps tw ao sf ef r :
  calc_pool_in_given_single_out bo wo ps tw ao sf ef = Ok r → 0 ≤ r.
Proof.
  intros Hr. unfold calc_pool_in_given_single_out in Hr. run_inv Hr. amounts.
  eapply bdiv_pos_nonneg; [| |exact Hr]; lia.
Qed.

Lemma calc_in_given_out_nonneg bi wi bo wo ao sf r :
  0 ≤ bi → calc_in_given_out bi wi bo wo ao sf = Ok r → 0 ≤ r.
Proof.
  intros Hbi Hr. unfold calc_in_given_out in Hr. run_inv Hr. amounts.
  eapply bdiv_pos_nonneg; [| |exact Hr]; [eapply bmul_nonneg; [exact Hbi| |eassumption]; lia|lia].
Qed.

Lemma calc_out_given_in_nonneg bi wi bo wo ai sf r :
  0 ≤ bo → calc_out_given_in bi wi bo wo ai sf = Ok r → 0 ≤ r.
Proof.
  intros Hbo Hr. unfold calc_out_given_in in Hr. run_inv Hr. amounts.
  eapply bmul_nonneg; [exact Hbo| |exact Hr]. lia.
Qed.
End Amounts.

(** ** Runs that leave the pools alone *)
Section Storage.
Context {L : Type} `{AssetManager L, SwapsConfig}.
Abbreviation St := (State L).

Definition same_pools (s s' : St) : Prop := Pools s' = Pools s ∧ NextPoolId s' = NextPoolId s.
#[export] Instance same_pools_preorder : PreOrder same_pools.
Proof. split; [done|]. intros s1 s2 s3 [Hp Hn] [Hp2 Hn2]. split; congruence. Qed.

Lemma on_ledger_pools {A} (m : Store L A) : respects same_pools (on_ledger m).
Proof. by apply respects_zoom. Qed.
Lemma deposit_event_pools e : respects same_pools (deposit_event (L := L) e).
Proof. by intros s. Qed.
Lemma balance_of_pools a x : respects same_pools (balance_of (L := L) a x).
Proof. by intros s. Qed.
Lemma pool_by_id_pools id : respects same_pools (pool_by_id (L := L) id).
Proof. intros s. unfold pool_by_id. by destruct (Pools s !! id). Qed.
Hint Resolve on_ledger_pools deposit_event_pools balance_of_pools pool_by_id_pools : respects.

Lemma ensure_limit_pools opt test e : respects same_pools (ensure_limit (L := L) opt test e).
Proof. unfold ensure_limit. respects. Qed.
Lemma ensure_minimum_balance_pools id p a amt : respects same_pools (ensure_minimum_balance (L := L) id p a amt).
Proof. unfold ensure_minimum_balance. respects. Qed.
Lemma ensure_minimum_shares_pools id p amt :
  respects same_pools (ensure_minimum_liquidity_shares (L := L) id p amt).
Proof. unfold ensure_minimum_liquidity_shares. respects. Qed.
Lemma burn_pool_shares_pools id x amt : respects same_pools (burn_pool_shares (L := L) id x amt).
Proof. unfold burn_pool_shares. respects. Qed.
Lemma mint_pool_shares_pools id x amt : respects same_pools (mint_pool_shares (L := L) id x amt).
Proof. unfold mint_pool_shares. respects. Qed.
Lemma get_spot_price_pools id a b fees : respects same_pools (get_spot_price (L := L) id a b fees).
Proof. unfold get_spot_price. respects. Qed.
Hint Resolve ensure_limit_pools ensure_minimum_balance_pools ensure_minimum_shares_pools burn_pool_shares_pools
  mint_pool_shares_pools get_spot_price_pools : respects.

Lemma pool_exit_with_exact_amount_pools a f b g ev who h id p :
  (∀ x y, respects same_pools (f x y)) → (∀ x y, respects same_pools (h x y)) →
  respects same_pools (pool_exit_with_exact_amount (L := L) a f b g ev who h id p).
Proof. intros Hf Hh. unfold pool_exit_with_exact_amount. respects. Qed.
Lemma pool_join_with_exact_amount_pools a f b ev who h id p :
  (∀ x y, respects same_pools (f x y)) → (∀ x y, respects same_pools (h x y)) →
  respects same_pools (pool_join_with_exact_amount (L := L) a f b ev who h id p).
Proof. intros Hf Hh. unfold pool_join_with_exact_amount. respects. Qed.
Lemma pool_loop_pools f t acc r l :
  (∀ x y a, respects same_pools (t x y a)) → respects same_pools (pool_loop (L := L) f t acc r l).
Proof. intros Ht. induction l as [|[a b] l IH]; cbn [pool_loop]; respects. Qed.
Lemma pool_pools bs ev acc amt id p t tp f who :
  (∀ x y a, respects same_pools (t x y a)) → respects same_pools tp →
  respects same_pools (pool_ (L := L) bs ev acc amt id p t tp f who).
Proof.
  intros Ht Htp. unfold pool_. pose proof (λ r l, pool_loop_pools f t acc r l Ht). respects.
Qed.
Lemma swap_exact_amount_pools f b ai ao ev mp acc id p who :
  respects same_pools f → respects same_pools (swap_exact_amount (L := L) f b ai ao ev mp acc id p who).
Proof. intros Hf. unfold swap_exact_amount. respects. Qed.

(** Joins, exits and swaps. *)
Definition trades (c : Call) : bool :=
  match c with
  | Api_create_pool _ _ _ _ _ | Api_close_pool _ | Api_open_pool _ | Api_destroy_pool _ => false
  | _ => true
  end.

Lemma trade_pools c : trades c = true → respects same_pools (dispatch (L := L) c).
Proof.
  destruct c; try done; intros _; cbn [dispatch];
    unfold pool_exit, pool_exit_with_exact_asset_amount, api_pool_exit_with_exact_asset_amount,
      pool_exit_with_exact_pool_amount, pool_join, pool_join_with_exact_asset_amount,
      api_pool_join_with_exact_asset_amount, pool_join_with_exact_pool_amount, swap_exact_amount_in,
      api_swap_exact_amount_in, swap_exact_amount_out, api_swap_exact_amount_out;
    repeat first
      [ progress respects
      | apply pool_exit_with_exact_amount_pools; intros ? ?
      | apply pool_join_with_exact_amount_pools; intros ? ?
      | apply pool_pools; [intros ? ? ?|]
      | apply pool_loop_pools; intros ? ? ?
      | apply swap_exact_amount_pools ].
Qed.
End Storage.

(** ** The order of the assets *)

(** Assets are ordered as their encodings. *)
Lemma Asset_compare_encode a b :
  Asset_compare a b =
    pair_compare (pair_compare Z.compare Z.compare) Z.compare (Asset_encode a) (Asset_encode b).
Proof.
  unfold pair_compare.
  destruct a as [m i|m []| |p| |i|m i], b as [n j|n []| |q| |j|n j]; cbn; unfold lex; try done.
  all: try by destruct (m ?= n). all: try by destruct (p ?= q). all: by destruct (i ?= j).
Qed.

#[export] Instance Asset_ord : OrdLaws Asset_compare.
Proof.
  split; intros *; rewrite ?Asset_compare_encode.
  - rewrite <- Asset_compare_encode. apply Asset_compare_eq.
  - apply ord_lt_trans.
  - apply ord_flip.
Qed.

Lemma Asset_le_alt a b : Asset_le a b ↔ Asset_compare a b = Lt ∨ a = b.
Proof.
  unfold Asset_le. rewrite <- Asset_compare_eq. destruct (Asset_compare a b); naive_solver.
Qed.
#[export] Instance Asset_le_trans : Transitive Asset_le.
Proof.
  intros a b c. rewrite !Asset_le_alt. intros [Hab| ->] [Hbc| ->]; eauto. left. by apply (ord_lt_trans a b c).
Qed.
#[export] Instance Asset_le_total : Total Asset_le.
Proof.
  intros a b. unfold Asset_le. rewrite (ord_flip (cmp := Asset_compare) b a).
  destruct (Asset_compare a b); cbn; naive_solver.
Qed.

(** Sorting and looking for equal neighbours finds every duplicate. *)
Lemma foldl_or {A} (f : A → bool) l acc : foldl (λ acc x, acc || f x)%bool acc l = (acc || existsb f l)%bool.
Proof. revert acc. induction l as [|x l IH]; intros acc; cbn; [by rewrite orb_false_r|]. by rewrite IH, orb_assoc. Qed.

Lemma has_duplicates_false l :
  StronglySorted Asset_le l → has_duplicates l = false → StronglySorted (λ a b, Asset_compare a b = Lt) l.
Proof.
  unfold has_duplicates. rewrite (foldl_or (λ xy, bool_decide (xy.1 = xy.2))). cbn [orb].
  induction 1 as [|a l Hs IH Hf]; intros Hd; [constructor|].
  destruct l as [|b l]; [by repeat constructor|]. cbn in Hd. apply orb_false_iff in Hd as [Hne Hd].
  apply bool_decide_eq_false in Hne. constructor; [by apply IH|]. specialize (IH Hd).
  apply Forall_cons in Hf as [Hab Hf]. apply Asset_le_alt in Hab as [Hab| ->]; [|done].
  apply Forall_cons. split; [done|]. apply StronglySorted_inv in IH as [_ IH].
  eapply Forall_impl; [exact IH|]. intros c Hbc. by apply (ord_lt_trans a b c).
Qed.

Lemma strictly_sorted_NoDup l : StronglySorted (λ a b, Asset_compare a b = Lt) l → NoDup l.
Proof.
  induction 1 as [|a l Hs IH Hf]; constructor; [|done]. intros Ha. rewrite Forall_forall in Hf.
  specialize (Hf a Ha). assert (Asset_compare a a = Eq) by by apply Asset_compare_eq. congruence.
Qed.

(** ** The composition of pools *)
Section Composition.
Context {L : Type} `{AssetManager L, SwapsConfig}.
Abbreviation St := (State L).

Record pool_wf (p : Pool) : Prop := {
  wf_sorted : StronglySorted (λ a b, Asset_compare a b = Lt) (assets p);
  wf_weights : dom (weights p) = list_to_set (assets p);
  wf_weight a w : weights p !! a = Some w → MinWeight ≤ w ≤ MaxWeight;
  wf_total : total_weight p = map_sum (λ _ w, w) (weights p) ∧ total_weight p ≤ MaxTotalWeight;
  wf_fee : swap_fee p ≤ MaxSwapFee;
  wf_length : MinAssets ≤ Z.of_nat (length (assets p)) ≤ Z.min MaxAssets MAX_ASSETS;
}.

Definition pools_wf (s : St) : Prop :=
  ∀ id p, Pools s !! id = Some p → id < NextPoolId s ∧ pool_wf p.

(** What happens to the pools: identifiers are used once, a pool keeps its assets,
    its weights and its fee, and is either there or destroyed. *)
Definition pools_evolve (s s' : St) : Prop :=
  NextPoolId s ≤ NextPoolId s' ∧
  ∀ id, id < NextPoolId s →
    match Pools s !! id with
    | None => Pools s' !! id = None
    | Some p => Pools s' !! id = None ∨ ∃ st, Pools s' !! id = Some (set_status st p)
    end.

#[export] Instance pools_evolve_preorder : PreOrder pools_evolve.
Proof.
  split.
  - intros s. split; [done|]. intros id _. destruct (Pools s !! id) as [p|]; [|done].
    right. exists (status p). by destruct p.
  - intros s1 s2 s3 [Hn12 H12] [Hn23 H23]. split; [lia|]. intros id Hid.
    specialize (H12 id Hid). specialize (H23 id ltac:(lia)).
    destruct (Pools s1 !! id) as [p|]; [|by rewrite H12 in H23].
    destruct H12 as [H12|[st H12]]; rewrite H12 in H23; [by left|].
    destruct H23 as [H23|[st' H23]]; [by left|right]. exists st'. by rewrite H23.
Qed.

Lemma create_pool_loop_inv who acc amt l : ∀ map total s map' total' s',
  NoDup l.*1 → (∀ a, a ∈ l.*1 → map !! a = None) →
  create_pool_loop who acc amt l map total s = (Ok (map', total'), s') →
  dom map' = dom map ∪ list_to_set l.*1 ∧
  (∀ a w, map' !! a = Some w → map !! a = Some w ∨ MinWeight ≤ w ≤ MaxWeight) ∧
  total' - total = map_sum (λ _ w, w) map' - map_sum (λ _ w, w) map.
Proof.
  induction l as [|[a w] l IH]; intros map total s map' total' s' Hnd Hfresh Hr; cbn [create_pool_loop] in Hr.
  - run_inv Hr. cbn. split; [set_solver|]. split; [by left|lia].
  - run_inv Hr. guards. rename Hr into Hloop. apply NoDup_cons in Hnd as [Ha Hnd]. cbn [fmap list_fmap] in *.
    match goal with Ht : add total w = Ok _ |- _ => apply checked_add_ok in Ht as [_ ->] end.
    assert (map !! a = None) as Hna by (apply Hfresh; by left).
    apply IH in Hloop as (Hd & Hw & Ht); [|done|].
    + rewrite dom_insert_L in Hd. split; [set_solver|]. split.
      * intros b v Hb. destruct (Hw b v Hb) as [Hi|Hi]; [|by right].
        apply lookup_insert_Some in Hi as [[<- <-]|[_ Hi]]; [by right|by left].
      * rewrite map_sum_insert in Ht by done. lia.
    + intros b Hb. rewrite lookup_insert_ne; [apply Hfresh; by right|]. by intros ->.
Qed.

Lemma create_pool_loop_pools who acc amt l : ∀ map total,
  respects same_pools (create_pool_loop (L := L) who acc amt l map total).
Proof.
  induction l as [|[a w] l IH]; intros map total; cbn [create_pool_loop]; [respects|].
  repeat first [apply balance_of_pools | apply on_ledger_pools | apply IH | respects_step].
Qed.

Lemma zip_fst {A B} (l : list A) (k : list B) : length l = length k → (zip l k).*1 = l.
Proof. intros. apply fst_zip. lia. Qed.

(** What [create_pool] makes. *)
Lemma create_pool_inv who l fee amount ws (s s' : St) id :
  create_pool who l fee amount ws s = (Ok id, s') →
  id = NextPoolId s ∧ NextPoolId s' = NextPoolId s + 1 ∧
  ∃ p, Pools s' = <[id := p]> (Pools s) ∧ pool_wf p ∧ status p = Closed ∧ swap_fee p = fee ∧ assets p ≡ₚ l.
Proof.
  intros Hr. unfold create_pool, inc_next_pool_id in Hr. run_inv Hr. destruct a7 as [map total].
  unfold bounded, check_provided_values_len_must_equal_assets_len, deposit_event in *. run_inv Hm5. run_inv Hr.
  intros _ _. guards. rename a11 into map, Hm5 into Hlen. cbn [NextPoolId Pools set_Pools].
  pose proof (respects_run _ _ _ _ _ (create_pool_loop_pools _ _ _ _ _ _) Hm6) as Hsp1.
  pose proof (respects_run _ _ _ _ _ (on_ledger_pools _) Hm8) as Hsp2.
  destruct Hsp1 as [Hp1 Hn1], Hsp2 as [Hp2 Hn2]. cbn in Hp1, Hn1, Hp2, Hn2. apply checked_add_ok in Hm2 as [_ ->].
  split; [done|]. split; [congruence|]. eexists. split; [by rewrite Hp2, Hp1|].
  pose proof (has_duplicates_false _ (StronglySorted_merge_sort Asset_le l) Hm1) as Hs.
  pose proof (merge_sort_Permutation Asset_le l) as Hperm.
  assert (NoDup l) as Hnd by (rewrite <- Hperm; by apply strictly_sorted_NoDup).
  apply create_pool_loop_inv in Hm6 as (Hd & Hw & Ht); [|by rewrite zip_fst|intros; apply lookup_empty].
  rewrite zip_fst in Hd by done. rewrite Hperm in *.
  split; [|done]. split; cbn [assets weights total_weight swap_fee].
  - done.
  - rewrite Hd, dom_empty_L, Hperm. set_solver.
  - intros b w Hb. by destruct (Hw b w Hb) as [?%lookup_empty_Some|].
  - rewrite map_sum_empty in Ht. lia.
  - done.
  - rewrite Hperm. lia.
Qed.

(** ** Runs *)

(** A call, or anything else that leaves the storage of the pallet alone. *)
Inductive step : St → St → Prop :=
| step_call c s : step s (dispatch c s).2
| step_other s s' : same_pools s s' → step s s'.
Definition genesis (s : St) : Prop := Pools s = ∅ ∧ NextPoolId s = 0.
Definition reachable (s : St) : Prop := ∃ s0, genesis s0 ∧ rtc step s0 s.

Lemma same_pools_evolve s s' : same_pools s s' → pools_evolve s s'.
Proof.
  intros [Hp Hn]. split; [lia|]. intros id _. rewrite Hp. destruct (Pools s !! id) as [p|]; [|done].
  right. exists (status p). by destruct p.
Qed.
Lemma same_pools_wf s s' : same_pools s s' → pools_wf s → pools_wf s'.
Proof. intros [Hp Hn] Hwf id p. rewrite Hp, Hn. apply Hwf. Qed.

(** [mutate_pool] with a change of the status. *)
Lemma set_status_step id st p (s s' : St) :
  Pools s !! id = Some p → Pools s' = <[id := set_status st p]> (Pools s) → NextPoolId s' = NextPoolId s →
  pools_evolve s s' ∧ (pools_wf s → pools_wf s').
Proof.
  intros Hp Hp' Hn. split; [split; [lia|]|].
  - intros k _. rewrite Hp'. destruct (decide (k = id)) as [->|Hne].
    + rewrite Hp, lookup_insert_eq. right. by exists st.
    + rewrite lookup_insert_ne by done. destruct (Pools s !! k) as [q|]; [|done].
      right. exists (status q). by destruct q.
  - intros Hwf k q. rewrite Hp', Hn. intros [[<- <-]|[_ Hq]]%lookup_insert_Some; [|by apply Hwf].
    destruct (Hwf id p Hp) as [? [? ? ? ? ? ?]]. by split.
Qed.

Lemma mutate_status_step id (b : Pool → bool) e st ev (s : St) :
  let s' := ((_ ← mutate_pool id (λ p, _ ← ensureR (b p) e; Ok (set_status st p)); deposit_event ev) s).2 in
  pools_evolve s s' ∧ (pools_wf s → pools_wf s').
Proof.
  unfold mutate_pool, pool_by_id, deposit_event, ok_or, lift, modify, ensureR, mbind, M_bind, result_bind.
  destruct (Pools s !! id) as [p|] eqn:Hp; cbn; [|by split].
  destruct (b p); cbn; [|by split]. by apply (set_status_step id st p).
Qed.

Lemma open_pool_eq id (s : St) : (open_pool id s).2 =
  ((_ ← mutate_pool id (λ p, _ ← ensureR (bool_decide (status p = Closed)) SW_InvalidStateTransition;
      Ok (set_status Open p)); deposit_event (PoolActive id)) s).2.
Proof.
  unfold open_pool, mutate_pool, pool_by_id, deposit_event, ok_or, lift, modify, ensureR, mbind, M_bind, result_bind.
  destruct (Pools s !! id) as [p|] eqn:Hp; cbn; [|done].
  destruct (bool_decide (status p = Closed)); cbn; [|done]. by rewrite lookup_insert_eq.
Qed.

Lemma slash_loop_pools acc l : respects same_pools (for_each (slash_all (L := L) acc) l).
Proof.
  apply respects_for_each; [typeclasses eauto|]. intros x _. unfold slash_all.
  repeat first [apply balance_of_pools | apply on_ledger_pools | respects_step].
Qed.

Lemma destroy_pools id (s s' : St) u :
  destroy_pool id s = (Ok u, s') → Pools s' = delete id (Pools s) ∧ NextPoolId s' = NextPoolId s.
Proof.
  intros Hr. unfold destroy_pool, deposit_event in Hr. run_inv Hr.
  pose proof (respects_run _ _ _ _ _ (pool_by_id_pools _) Hm) as [Hp1 Hn1].
  pose proof (respects_run _ _ _ _ _ (slash_loop_pools _ _) Hm0) as [Hp2 Hn2]. cbn. split; congruence.
Qed.

Lemma call_wf c (s : St) : pools_wf s → pools_evolve s (dispatch c s).2 ∧ pools_wf (dispatch c s).2.
Proof.
  intros Hwf. destruct (trades c) eqn:Hc.
  { pose proof (trade_pools c Hc s) as Hsp. split; [by apply same_pools_evolve|by apply (same_pools_wf s)]. }
  destruct c; try done; cbn [dispatch].
  - destruct (create_pool who l swap_fee amount ws s) as [[id|e] s'] eqn:Hr.
    2:{ rewrite (bind_err _ _ _ _ _ Hr). apply transactional_err in Hr as ->. by split. }
    rewrite (bind_ok _ _ _ _ _ Hr). cbn. apply create_pool_inv in Hr as (-> & Hn & p & Hp & Hpw & _).
    split; [split; [lia|]|].
    + intros id Hid. rewrite Hp, lookup_insert_ne by lia. destruct (Pools s !! id) as [q|]; [|done].
      right. exists (status q). by destruct q.
    + intros id q. rewrite Hp, Hn. intros [[<- <-]|[_ Hq]]%lookup_insert_Some; [split; [lia|done]|].
      destruct (Hwf id q Hq). split; [lia|done].
  - destruct (mutate_status_step pool_id (λ p, bool_decide (status p = Open)) SW_InvalidStateTransition Closed
      (PoolClosed pool_id) s) as [He Hw]. split; [exact He|exact (Hw Hwf)].
  - rewrite open_pool_eq. destruct (mutate_status_step pool_id (λ p, bool_decide (status p = Closed))
      SW_InvalidStateTransition Open (PoolActive pool_id) s) as [He Hw]. split; [exact He|exact (Hw Hwf)].
  - destruct (destroy_pool pool_id s) as [[u|e] s'] eqn:Hr; cbn [snd].
    + apply destroy_pools in Hr as [Hp Hn]. split; [split; [lia|]|].
      * intros id _. rewrite Hp. destruct (decide (id = pool_id)) as [->|Hne].
        { rewrite lookup_delete_eq. destruct (Pools s !! pool_id); [by left|done]. }
        rewrite lookup_delete_ne by done. destruct (Pools s !! id) as [q|]; [|done].
        right. exists (status q). by destruct q.
      * intros id q. rewrite Hp, Hn. intros [_ Hq]%lookup_delete_Some. by apply Hwf.
    + unfold destroy_pool, pool_by_id, ok_or in Hr. unfold mbind at 1, M_bind at 1 in Hr.
      destruct (Pools s !! pool_id) as [p|]; [|simplify_eq; by split].
      destruct (for_each (slash_all (pool_account_id pool_id)) (assets p) s) as [[v|e'] s1] eqn:Hl.
      { by rewrite (bind_ok _ _ _ _ _ Hl) in Hr. }
      rewrite (bind_err _ _ _ _ _ Hl) in Hr. simplify_eq.
      pose proof (respects_run _ _ _ _ _ (slash_loop_pools _ _) Hl) as Hsp.
      split; [by apply same_pools_evolve|by apply (same_pools_wf s)].
Qed.

Lemma run_wf (s s' : St) : pools_wf s → rtc step s s' → pools_evolve s s' ∧ pools_wf s'.
Proof.
  intros Hwf Hrun. induction Hrun as [s|s1 s2 s3 Hs Hrun IH]; [by split|].
  assert (pools_evolve s1 s2 ∧ pools_wf s2) as [He Hw].
  { destruct Hs as [c s1|s1 s2 Hsp]; [by apply call_wf|].
    split; [by apply same_pools_evolve|by apply (same_pools_wf s1)]. }
  destruct (IH Hw) as [He' Hw']. split; [by transitivity s2|done].
Qed.

(** (C4) In every state that calls of the pallet (and anything else that does not
    touch its storage) lead to, every pool is well formed - its assets are strictly
    ordered, so that the binary search of the swaps is correct, exactly they have
    weights, each within the bounds, the total is their sum and within its bound, the
    fee and the number of assets are within theirs - and along the run identifiers are
    used once and a pool keeps its composition until it is destroyed. *)
Theorem swaps_pools_wellformed (s0 s s' : St) :
  genesis s0 → rtc step s0 s → rtc step s s' →
  (∀ id p, Pools s !! id = Some p → id < NextPoolId s ∧ pool_wf p ∧
     ∀ a, asset_in_pool p a = true ↔ a ∈ assets p ∧ bound p a = true) ∧
  pools_evolve s s'.
Proof.
  intros [Hg _] Hrun Hrun'. destruct (run_wf s0 s) as [_ Hwf]; [|done|].
  { intros id p. by rewrite Hg, lookup_empty. }
  split; [|by apply run_wf]. intros id p Hp. destruct (Hwf id p Hp) as [Hid Hpw]. split; [done|]. split; [done|].
  intros a. unfold asset_in_pool, bound. rewrite bool_decide_eq_true, binary_search_is_ok.
  - setoid_rewrite Asset_compare_eq. rewrite <- elem_of_dom, (wf_weights p Hpw), elem_of_list_to_set. naive_solver.
  - apply (ord_sorted_cmp Asset_compare (λ x, x)). apply (wf_sorted p Hpw).
Qed.
End Composition.
