(* ===== verification/SwapsTrades.v ===== *)
(** * Constant function market maker: the movements of the funds

    What joins, exits and swaps do to the balances and the shares, and the limits they
    respect. *)
From S2P Require Import Prelude BTree Types Errors Fixed Currencies Ledgers SwapsMath Swaps SwapsPools.

Lemma Forall2_impl_elem {A B} (P Q : A → B → Prop) l k :
  Forall2 P l k → (∀ x y, x ∈ l → P x y → Q x y) → Forall2 Q l k.
Proof.
  induction 1 as [|x y l k Hxy Hlk IH]; intros Hpq; constructor.
  - apply Hpq; [by left|done].
  - apply IH. intros a b Ha. apply Hpq. by right.
Qed.

Section Trades.
Context {L : Type} `{AssetManager L, !AssetManagerLaws L, SwapsConfig}.
Abbreviation St := (State L).
Implicit Types s : St.

Definition bal (a : Asset) (x : AccountId) (s : St) : Balance := free_balance a x (ledger s).
Definition iss (a : Asset) (s : St) : Balance := total_issuance a (ledger s).
Definition share (id : PoolId) : Asset := pool_shares_id id.

(** A computation that only reads. *)
Definition pure {A} (m : Store St A) : Prop := ∀ s r s', m s = (Ok r, s') → s' = s.

(** ** The guards *)

Lemma pool_by_id_inv id s p s' : pool_by_id id s = (Ok p, s') → s' = s ∧ Pools s !! id = Some p.
Proof. unfold pool_by_id, ok_or. destruct (Pools s !! id); naive_solver. Qed.

Lemma balance_of_inv a x s b s' : balance_of a x s = (Ok b, s') → s' = s ∧ b = bal a x s.
Proof. unfold balance_of. intros Hr. by run_inv Hr. Qed.

Lemma ensure_limit_inv opt test e s s' u :
  ensure_limit opt test e s = (Ok u, s') → s' = s ∧ ∀ x, opt = Some x → test x = true.
Proof. unfold ensure_limit. destruct opt; intros Hr; run_inv Hr; naive_solver. Qed.

(** What is taken leaves the minimum, unless the pool is closed. *)
Lemma ensure_minimum_balance_inv id p a amt s s' u :
  ensure_minimum_balance id p a amt s = (Ok u, s') →
  s' = s ∧ (status p = Open → 0 < amt → amt + min_balance a ≤ bal a (pool_account_id id) s).
Proof.
  unfold ensure_minimum_balance. intros Hr. case_bool_decide as Hs.
  - injection Hr as _ <-. split; [done|congruence].
  - run_inv Hr. apply balance_of_inv in Hm as [-> ->]. guards. unfold saturating_sub in Hr. split; [done|lia].
Qed.
Lemma ensure_minimum_shares_inv id p amt s s' u :
  ensure_minimum_liquidity_shares id p amt s = (Ok u, s') →
  s' = s ∧ (status p = Open → 0 < amt → amt + min_balance (share id) ≤ iss (share id) s).
Proof.
  unfold ensure_minimum_liquidity_shares. intros Hr. case_bool_decide as Hs.
  - injection Hr as _ <-. split; [done|congruence].
  - run_inv Hr. guards. unfold saturating_sub in Hr. split; [done|]. unfold iss, share. lia.
Qed.

Lemma get_spot_price_inv id a b fees s r s' :
  get_spot_price id a b fees s = (Ok r, s') →
  s' = s ∧ ∃ p wa wb, Pools s !! id = Some p ∧ weights p !! a = Some wa ∧ weights p !! b = Some wb ∧
    calc_spot_price (bal a (pool_account_id id) s) wa (bal b (pool_account_id id) s) wb
      (if fees then swap_fee p else 0) = Ok r.
Proof.
  unfold get_spot_price, pool_weight_rslt. intros Hr. run_inv Hr.
  apply pool_by_id_inv in Hm as [-> Hp]. apply balance_of_inv in Hm2 as [-> ->].
  apply balance_of_inv in Hm3 as [-> ->]. split; [done|]. by exists a0, a5, a6.
Qed.

(** ** What the common parts do *)

Lemma burn_pool_shares_inv id who amt s s' u :
  0 ≤ amt → burn_pool_shares id who amt s = (Ok u, s') →
  ∃ m l, slash (share id) who amt (ledger s) = (m, l) ∧ amt ≤ bal (share id) who s ∧ s' = set_ledger l s.
Proof.
  intros Hamt Hr. unfold burn_pool_shares in Hr. run_inv Hr. unfold on_ledger in *.
  run_inv Hm0. exists a0, t. split; [done|]. split; [|done].
  destruct (ensure_can_withdraw _ _ _ _) as [[]|] eqn:He; [|done]. by apply ensure_can_withdraw_ok in He.
Qed.

(** The event of a run. *)
Definition after (l : L) (e : Event) (s : St) : St := mk_State l (Pools s) (NextPoolId s) (e :: events s).

Lemma exit_inv a f b g ev who h id p s s' u :
  (∀ x y, pure (f x y)) → (∀ x y, pure (h x y)) →
  (∀ x y z, f x y s = (Ok z, s) → 0 ≤ z) → (∀ x y z, h x y s = (Ok z, s) → 0 ≤ z) →
  pool_exit_with_exact_amount a f b g ev who h id p s = (Ok u, s') →
  let acc := pool_account_id id in
  ∃ x y m l1 l2 e, status p = Open ∧ bound p a = true ∧ g (bal a acc s) = Ok tt ∧
    f (bal a acc s) (iss (share id) s) s = (Ok x, s) ∧ h (bal a acc s) (iss (share id) s) s = (Ok y, s) ∧
    0 ≤ x ∧ 0 ≤ y ≤ bal (share id) who s ∧ slash (share id) who y (ledger s) = (m, l1) ∧
    transfer a acc who x l1 = (Ok tt, l2) ∧ s' = after l2 e s.
Proof.
  intros Hf Hh Hnx Hny Hr. unfold pool_exit_with_exact_amount, ensure_pool_is_active, deposit_event in Hr.
  run_inv Hr. apply balance_of_inv in Hm1 as [-> ->].
  destruct (status p); [|done]. destruct a3, a7.
  pose proof (Hf _ _ _ _ _ Hm3) as ->. pose proof (Hh _ _ _ _ _ Hm4) as ->.
  apply burn_pool_shares_inv in Hm5 as (m & l1 & Hs & Hle & ->); [|by eapply Hny].
  unfold on_ledger in Hm6. run_inv Hm6. do 6 eexists. repeat split; try done; [by eapply Hnx|by eapply Hny].
Qed.

Lemma join_inv a f b ev who h id p s s' u :
  (∀ x y, pure (f x y)) → (∀ x y, pure (h x y)) →
  (∀ x y z, f x y s = (Ok z, s) → 0 ≤ z) → (∀ x y z, h x y s = (Ok z, s) → 0 ≤ z) →
  pool_join_with_exact_amount a f b ev who h id p s = (Ok u, s') →
  let acc := pool_account_id id in
  ∃ x y l1 l2 e, status p = Open ∧ bound p a = true ∧
    f (bal a acc s) (iss (share id) s) s = (Ok x, s) ∧ h (bal a acc s) (iss (share id) s) s = (Ok y, s) ∧
    0 ≤ x ∧ 0 ≤ y ∧ deposit (share id) who y (ledger s) = (Ok tt, l1) ∧
    transfer a who acc x l1 = (Ok tt, l2) ∧ s' = after l2 e s.
Proof.
  intros Hf Hh Hnx Hny Hr.
  unfold pool_join_with_exact_amount, ensure_pool_is_active, mint_pool_shares, on_ledger, deposit_event in Hr.
  run_inv Hr. apply balance_of_inv in Hm1 as [-> ->]. destruct (status p); [|done].
  pose proof (Hf _ _ _ _ _ Hm2) as ->. pose proof (Hh _ _ _ _ _ Hm3) as ->.
  do 5 eexists. repeat match goal with x : () |- _ => destruct x end.
  repeat split; try done; [by eapply Hnx|by eapply Hny].
Qed.

Lemma swap_inv f b ai ao ev mp acc id p who s s' u :
  pure f → swap_exact_amount f b ai ao ev mp acc id p who s = (Ok u, s') →
  ∃ before net_price x y l1 l2 price eff e, status p = Open ∧
    get_spot_price id ai ao true s = (Ok before, s) ∧ get_spot_price id ai ao false s = (Ok net_price, s) ∧
    f s = (Ok (x, y), s) ∧ transfer ai who acc x (ledger s) = (Ok tt, l1) ∧
    transfer ao acc who y l1 = (Ok tt, l2) ∧
    get_spot_price id ai ao true (set_ledger l2 s) = (Ok price, set_ledger l2 s) ∧
    before ≤ price ∧ (∀ m, mp = Some m → price ≤ m) ∧ bdiv x y = Ok eff ∧ net_price ≤ eff ∧ s' = after l2 e s.
Proof.
  intros Hf Hr. unfold swap_exact_amount, ensure_pool_is_active, on_ledger, deposit_event in Hr.
  run_inv Hr. destruct (status p); [|done].
  pose proof (get_spot_price_inv _ _ _ _ _ _ _ Hm4) as [-> _].
  pose proof (get_spot_price_inv _ _ _ _ _ _ _ Hm5) as [-> _]. apply ensure_limit_inv in Hm6 as [-> _].
  destruct a7 as [x y]. pose proof (Hf _ _ _ Hm7) as ->. run_inv Hr. guards.
  pose proof (get_spot_price_inv _ _ _ _ _ _ _ Hm9) as [-> _]. apply ensure_limit_inv in Hm11 as [-> Hlim].
  repeat match goal with x : () |- _ => destruct x end. do 9 eexists. repeat split; try done.
  intros m Hm'. specialize (Hlim m Hm'). lia.
Qed.

(** ** Balances after the movements *)

(** The changes of the balances and of the issuances. *)
Definition moved (d : Asset → AccountId → Z) (i : Asset → Z) (s s' : St) : Prop :=
  (∀ a x, bal a x s' = bal a x s + d a x) ∧ (∀ a, iss a s' = iss a s + i a).

Lemma exit_moved id who a acc x y m l1 l2 e s :
  0 ≤ x → 0 ≤ y ≤ bal (share id) who s → slash (share id) who y (ledger s) = (m, l1) →
  transfer a acc who x l1 = (Ok tt, l2) →
  moved (λ b z, at_ (a, who) (b, z) x - at_ (a, acc) (b, z) x - at_ (share id, who) (b, z) y)
    (λ b, - at_ (share id) b y) s (after l2 e s).
Proof.
  intros Hx Hy Hs Ht. apply slash_spec in Hs as (_ & Hb1 & Hi1 & _); [|done].
  apply transfer_ok in Ht as (_ & Hb2 & Hi2 & _); [|done]. unfold moved, bal, iss. cbn [ledger after].
  split; [intros b z; rewrite Hb2, Hb1|intros b; rewrite Hi2, Hi1]; lia.
Qed.

Lemma join_moved id who a acc x y l1 l2 e s :
  0 ≤ x → 0 ≤ y → deposit (share id) who y (ledger s) = (Ok tt, l1) →
  transfer a who acc x l1 = (Ok tt, l2) →
  moved (λ b z, at_ (a, acc) (b, z) x - at_ (a, who) (b, z) x + at_ (share id, who) (b, z) y)
    (λ b, at_ (share id) b y) s (after l2 e s).
Proof.
  intros Hx Hy Hs Ht. apply deposit_ok in Hs as (Hb1 & Hi1 & _); [|done].
  apply transfer_ok in Ht as (_ & Hb2 & Hi2 & _); [|done]. unfold moved, bal, iss. cbn [ledger after].
  split; [intros b z; rewrite Hb2, Hb1|intros b; rewrite Hi2, Hi1]; lia.
Qed.

Lemma swap_moved who ai ao acc x y l1 l2 e s :
  0 ≤ x → 0 ≤ y → transfer ai who acc x (ledger s) = (Ok tt, l1) → transfer ao acc who y l1 = (Ok tt, l2) →
  moved (λ b z, at_ (ai, acc) (b, z) x - at_ (ai, who) (b, z) x
      + at_ (ao, who) (b, z) y - at_ (ao, acc) (b, z) y)
    (λ _, 0) s (after l2 e s).
Proof.
  intros Hx Hy Ht1 Ht2. apply transfer_ok in Ht1 as (_ & Hb1 & Hi1 & _); [|done].
  apply transfer_ok in Ht2 as (_ & Hb2 & Hi2 & _); [|done]. unfold moved, bal, iss. cbn [ledger after].
  split; [intros b z; rewrite Hb2, Hb1|intros b; rewrite Hi2, Hi1]; lia.
Qed.

(** ** Each call *)

Ltac pure_step := let Hq := fresh in intros ? ? ? Hq; unfold pool_weight_rslt in *; run_inv1 Hq; repeat match goal with
  | Hg : ensure_limit _ _ _ _ = (Ok _, _) |- _ => apply ensure_limit_inv in Hg as [-> _]
  | Hg : ensure_minimum_balance _ _ _ _ _ = (Ok _, _) |- _ => apply ensure_minimum_balance_inv in Hg as [-> _]
  | Hg : ensure_minimum_liquidity_shares _ _ _ _ = (Ok _, _) |- _ => apply ensure_minimum_shares_inv in Hg as [-> _]
  | Hg : balance_of _ _ _ = (Ok _, _) |- _ => apply balance_of_inv in Hg as [-> ->]
  end; done.

Lemma exit_asset_inv who id a amt lim s s' u :
  0 ≤ amt → api_pool_exit_with_exact_asset_amount who id a amt lim s = (Ok u, s') →
  let acc := pool_account_id id in
  ∃ p w y m l1 l2 e, Pools s !! id = Some p ∧ status p = Open ∧ weights p !! a = Some w ∧
    (0 < amt → amt + min_balance a ≤ bal a acc s) ∧
    calc_pool_in_given_single_out (bal a acc s) w (iss (share id) s) (total_weight p) amt (swap_fee p) ExitFee
      = Ok y ∧
    0 < y ≤ lim ∧ y + min_balance (share id) ≤ iss (share id) s ∧
    (∃ r, bmul (bal a acc s) MaxOutRatio = Ok r ∧ amt ≤ r) ∧
    y ≤ bal (share id) who s ∧ slash (share id) who y (ledger s) = (m, l1) ∧
    transfer a acc who amt l1 = (Ok tt, l2) ∧ s' = after l2 e s.
Proof.
  intros Hamt Hr. unfold api_pool_exit_with_exact_asset_amount in Hr. run_inv Hr.
  apply pool_by_id_inv in Hm as [-> Hp]. apply ensure_minimum_balance_inv in Hm0 as [-> Hmin].
  assert (∀ x y z, (weight ← lift (pool_weight_rslt a0 a);
    pool_amount ← lift (calc_pool_in_given_single_out x weight y (total_weight a0) amt (swap_fee a0) ExitFee);
    _ ← ensure (negb (pool_amount =? 0)) SW_ZeroAmount; _ ← ensure (pool_amount <=? lim) SW_LimitIn;
    _ ← ensure_minimum_liquidity_shares id a0 pool_amount; mret pool_amount) s = (Ok z, s) →
    ∃ w, weights a0 !! a = Some w ∧
      calc_pool_in_given_single_out x w y (total_weight a0) amt (swap_fee a0) ExitFee = Ok z ∧ 0 < z ≤ lim ∧
      (status a0 = Open → z + min_balance (share id) ≤ iss (share id) s)) as Hy.
  { intros x y z Hz. unfold pool_weight_rslt in Hz. run_inv Hz. guards.
    apply calc_pool_in_given_single_out_nonneg in Hm0 as Hnn. apply ensure_minimum_shares_inv in Hm3 as [_ Hsh].
    eexists. repeat split; [done|exact Hm0|lia|done|]. intros. apply Hsh; [done|lia]. }
  apply exit_inv in Hr as (x & y & m & l1 & l2 & e & Hst & _ & Hg & Hf & Hh & _ & [_ Hle] & Hs & Ht & ->).
  - run_inv Hf. run_inv Hg. guards. apply Hy in Hh as (w & Hw & Hcalc & Hpos & Hsh).
    do 7 eexists. repeat split; try done; eauto; lia.
  - intros ? ?. pure_step.
  - intros ? ?. pure_step.
  - intros ? ? ? Hz. by run_inv Hz.
  - intros ? ? ? Hz%Hy. destruct Hz as (? & ? & ? & ? & _). lia.
Qed.

Lemma exit_shares_inv origin id a y lim s s' u :
  0 ≤ y → pool_exit_with_exact_pool_amount origin id a y lim s = (Ok u, s') →
  let acc := pool_account_id id in
  ∃ who p w x m l1 l2 e, origin = Some who ∧ Pools s !! id = Some p ∧ status p = Open ∧ weights p !! a = Some w ∧
    0 < y ∧ y + min_balance (share id) ≤ iss (share id) s ∧
    (∃ r, bmul (iss (share id) s) MaxInRatio = Ok r ∧ y ≤ r) ∧
    calc_single_out_given_pool_in (bal a acc s) w (iss (share id) s) (total_weight p) y (swap_fee p) ExitFee
      = Ok x ∧
    0 < x ∧ lim ≤ x ∧ (∃ r, bmul (bal a acc s) MaxOutRatio = Ok r ∧ x ≤ r) ∧
    x + min_balance a ≤ bal a acc s ∧
    y ≤ bal (share id) who s ∧ slash (share id) who y (ledger s) = (m, l1) ∧
    transfer a acc who x l1 = (Ok tt, l2) ∧ s' = after l2 e s.
Proof.
  intros Hy0 Hr. unfold pool_exit_with_exact_pool_amount in Hr. run_inv Hr. guards.
  apply pool_by_id_inv in Hm0 as [-> Hp]. apply ensure_minimum_shares_inv in Hm2 as [-> Hsh].
  match type of Hr with pool_exit_with_exact_amount _ ?f _ _ _ _ _ _ _ _ = _ => assert (∀ x y0 z, f x y0 s = (Ok z, s) →
    ∃ w, weights a1 !! a = Some w ∧ (∃ r, bmul y0 MaxInRatio = Ok r ∧ y ≤ r) ∧
      calc_single_out_given_pool_in x w y0 (total_weight a1) y (swap_fee a1) ExitFee = Ok z ∧
      0 < z ∧ lim ≤ z ∧ (∃ r, bmul x MaxOutRatio = Ok r ∧ z ≤ r) ∧
      (status a1 = Open → z + min_balance a ≤ bal a (pool_account_id id) s)) as Hx end.
  { intros x y0 z Hz. unfold pool_weight_rslt in Hz. run_inv Hz. guards.
    match goal with Hg : ensure_minimum_balance _ _ _ _ _ = _ |- _ => apply ensure_minimum_balance_inv in Hg as [_ Hmin] end.
    match goal with Hc : calc_single_out_given_pool_in _ _ _ _ _ _ _ = Ok _ |- _ =>
      apply calc_single_out_given_pool_in_nonneg in Hc as Hnn end.
    eexists. repeat split; try done; eauto; [lia|]. intros. apply Hmin; [done|lia]. }
  apply exit_inv in Hr as (x & y' & m & l1 & l2 & e & Hst & _ & _ & Hf & Hh & Hx0 & [_ Hle] & Hs & Ht & ->).
  - run_inv Hh. apply Hx in Hf as (w & Hw & Hmax & Hcalc & Hpos & Hlim & Hout & Hmin).
    do 8 eexists. repeat split; try done; eauto; [lia|]. apply Hsh; [done|lia].
  - intros ? ?. pure_step.
  - intros ? ?. pure_step.
  - intros ? ? ? Hz%Hx. destruct Hz as (? & ? & ? & ? & ? & _). lia.
  - intros ? ? ? Hz. by run_inv Hz.
Qed.

Lemma join_asset_inv who id a x lim s s' u :
  0 ≤ x → api_pool_join_with_exact_asset_amount who id a x lim s = (Ok u, s') →
  let acc := pool_account_id id in
  ∃ p w y l1 l2 e, Pools s !! id = Some p ∧ status p = Open ∧ weights p !! a = Some w ∧ 0 < x ∧
    (∃ r, bmul (bal a acc s) MaxInRatio = Ok r ∧ x ≤ r) ∧
    calc_pool_out_given_single_in (bal a acc s) w (iss (share id) s) (total_weight p) x (swap_fee p) = Ok y ∧
    0 ≤ y ∧ lim ≤ y ∧ deposit (share id) who y (ledger s) = (Ok tt, l1) ∧
    transfer a who acc x l1 = (Ok tt, l2) ∧ s' = after l2 e s.
Proof.
  intros Hx0 Hr. unfold api_pool_join_with_exact_asset_amount in Hr. run_inv Hr. guards.
  apply pool_by_id_inv in Hm0 as [-> Hp].
  match type of Hr with pool_join_with_exact_amount _ _ _ _ _ ?h _ _ _ = _ => assert (∀ x0 y0 z, h x0 y0 s = (Ok z, s) →
    ∃ w, weights a1 !! a = Some w ∧ (∃ r, bmul x0 MaxInRatio = Ok r ∧ x ≤ r) ∧
      calc_pool_out_given_single_in x0 w y0 (total_weight a1) x (swap_fee a1) = Ok z ∧ 0 ≤ z ∧ lim ≤ z) as Hy end.
  { intros x0 y0 z Hz. unfold pool_weight_rslt in Hz. run_inv Hz. guards.
    match goal with Hc : calc_pool_out_given_single_in _ _ _ _ _ _ = Ok _ |- _ =>
      apply calc_pool_out_given_single_in_nonneg in Hc as Hnn end.
    eexists. repeat split; try done; eauto. }
  apply join_inv in Hr as (x' & y & l1 & l2 & e & Hst & _ & Hf & Hh & _ & _ & Hs & Ht & ->).
  - run_inv Hf. apply Hy in Hh as (w & Hw & Hmax & Hcalc & Hpos & Hlim).
    do 6 eexists. repeat split; try done; eauto; lia.
  - intros ? ?. pure_step.
  - intros ? ?. pure_step.
  - intros ? ? ? Hz. by run_inv Hz.
  - intros ? ? ? Hz%Hy. destruct Hz as (? & ? & ? & ? & ? & _). done.
Qed.

Lemma join_shares_inv origin id a y lim s s' u :
  0 ≤ y → pool_join_with_exact_pool_amount origin id a y lim s = (Ok u, s') →
  let acc := pool_account_id id in
  ∃ who p w x l1 l2 e, origin = Some who ∧ Pools s !! id = Some p ∧ status p = Open ∧ weights p !! a = Some w ∧
    (∃ r, bmul (iss (share id) s) MaxOutRatio = Ok r ∧ y ≤ r) ∧
    calc_single_in_given_pool_out (bal a acc s) w (iss (share id) s) (total_weight p) y (swap_fee p) = Ok x ∧
    0 < x ≤ lim ∧ x ≤ bal a acc s * MaxInRatio ∧ deposit (share id) who y (ledger s) = (Ok tt, l1) ∧
    transfer a who acc x l1 = (Ok tt, l2) ∧ s' = after l2 e s.
Proof.
  intros Hy0 Hr. unfold pool_join_with_exact_pool_amount in Hr. run_inv Hr. guards.
  apply pool_by_id_inv in Hm as [-> Hp].
  match type of Hr with pool_join_with_exact_amount _ ?f _ _ _ _ _ _ _ = _ => assert (∀ x0 y0 z, f x0 y0 s = (Ok z, s) →
    ∃ w, weights a0 !! a = Some w ∧ (∃ r, bmul y0 MaxOutRatio = Ok r ∧ y ≤ r) ∧
      calc_single_in_given_pool_out x0 w y0 (total_weight a0) y (swap_fee a0) = Ok z ∧ 0 < z ≤ lim ∧
      z ≤ x0 * MaxInRatio) as Hx end.
  { intros x0 y0 z Hz. unfold pool_weight_rslt in Hz. run_inv Hz. guards. checked.
    match goal with Hc : calc_single_in_given_pool_out _ _ _ _ _ _ = Ok _ |- _ =>
      apply calc_single_in_given_pool_out_nonneg in Hc as Hnn end.
    eexists. repeat split; try done; eauto. lia. }
  apply join_inv in Hr as (x & y' & l1 & l2 & e & Hst & _ & Hf & Hh & _ & _ & Hs & Ht & ->).
  - run_inv Hh. apply Hx in Hf as (w & Hw & Hmax & Hcalc & Hpos & Hlim).
    do 7 eexists. repeat split; try done; eauto; lia.
  - intros ? ?. pure_step.
  - intros ? ?. pure_step.
  - intros ? ? ? Hz%Hx. destruct Hz as (? & ? & ? & ? & ? & _). lia.
  - intros ? ? ? Hz. by run_inv Hz.
Qed.

Definition swap_call (exact_in : bool) (who : AccountId) (id : PoolId) (ai ao : Asset) (amount : Balance)
    (limit price : option Balance) : Call :=
  if exact_in then Call_swap_exact_amount_in (Some who) id ai amount ao limit price
  else Call_swap_exact_amount_out (Some who) id ai limit ao amount price.

(** The amounts [x] in and [y] out of a swap at a price the formulas give. *)
Definition swap_amounts (exact_in : bool) (amount : Balance) (limit : option Balance) (p : Pool)
    (bi wi bo wo x y : Balance) : Prop :=
  if exact_in
  then x = amount ∧ calc_out_given_in bi wi bo wo x (swap_fee p) = Ok y ∧
    (∀ m, limit = Some m → m ≤ y) ∧ ∃ r, bmul bi MaxInRatio = Ok r ∧ x ≤ r
  else y = amount ∧ calc_in_given_out bi wi bo wo y (swap_fee p) = Ok x ∧
    (∀ m, limit = Some m → x ≤ m) ∧ ∃ r, bmul bo MaxOutRatio = Ok r ∧ y ≤ r.

Lemma bdiv_divisor x y r : bdiv x y = Ok r → y ≠ 0.
Proof. by intros [? _]%bdiv_ok. Qed.

Lemma bal_nonneg a x s : 0 ≤ bal a x s.
Proof. apply free_nonneg. Qed.

(** Both calls run the common part with amounts that the formulas give. *)
Definition swap_run (exact_in : bool) (who : AccountId) (id : PoolId) (ai ao : Asset) (amount : Balance)
    (limit price : option Balance) (s : St) (r : Res unit * St) : Prop :=
  let acc := pool_account_id id in
  ∃ p f b ev, Pools s !! id = Some p ∧ (is_Some limit ∨ is_Some price) ∧ pure f ∧
    swap_exact_amount f b ai ao ev price acc id p who s = r ∧
    ∀ x y, f s = (Ok (x, y), s) → ∃ wi wo, weights p !! ai = Some wi ∧ weights p !! ao = Some wo ∧
      swap_amounts exact_in amount limit p (bal ai acc s) wi (bal ao acc s) wo x y ∧ 0 ≤ x ∧ 0 ≤ y ∧
      (status p = Open → 0 < y → y + min_balance ao ≤ bal ao acc s).

Lemma swap_in_run who id ai ao amount limit price s s' u :
  0 ≤ amount → swap_exact_amount_in (Some who) id ai amount ao limit price s = (Ok u, s') →
  swap_run true who id ai ao amount limit price s (Ok u, s').
Proof.
  intros Hamt Hr. unfold swap_exact_amount_in, api_swap_exact_amount_in in Hr. run_inv Hr. injection Hm as <-.
  apply pool_by_id_inv in Hm1 as [-> Hp]. apply balance_of_inv in Hm2 as [-> ->].
  do 4 eexists. split; [exact Hp|]. apply orb_true_iff in Hm0. rewrite !bool_decide_eq_true in Hm0.
  split; [done|]. split; [|split; [exact Hr|]]; [pure_step|]. intros x y Hf. unfold pool_weight_rslt in Hf.
  run_inv Hf. apply balance_of_inv in Hm as [-> ->]. apply balance_of_inv in Hm1 as [-> ->]. guards.
  apply ensure_limit_inv in Hm8 as [-> Hlim]. apply ensure_minimum_balance_inv in Hm9 as [_ Hmin].
  do 2 eexists. split; [done|]. split; [done|]. split; [|split; [done|]].
  - split; [done|]. split; [done|]. split; [intros m Hm'; specialize (Hlim m Hm'); lia|]. by eexists.
  - split; [|done]. eapply calc_out_given_in_nonneg; [apply bal_nonneg|exact Hm7].
Qed.

Lemma swap_out_run who id ai ao amount limit price s s' u :
  0 ≤ amount → swap_exact_amount_out (Some who) id ai limit ao amount price s = (Ok u, s') →
  swap_run false who id ai ao amount limit price s (Ok u, s').
Proof.
  intros Hamt Hr. unfold swap_exact_amount_out, api_swap_exact_amount_out in Hr. run_inv Hr. injection Hm as <-.
  apply pool_by_id_inv in Hm0 as [-> Hp]. apply ensure_minimum_balance_inv in Hm2 as [-> Hmin].
  do 4 eexists. split; [exact Hp|]. apply orb_true_iff in Hm1. rewrite !bool_decide_eq_true in Hm1.
  split; [done|]. split; [|split; [exact Hr|]]; [pure_step|]. intros x y Hf. unfold pool_weight_rslt in Hf.
  run_inv Hf. apply balance_of_inv in Hm as [-> ->]. apply balance_of_inv in Hm3 as [-> ->]. guards.
  apply ensure_limit_inv in Hm7 as [_ Hlim].
  do 2 eexists. split; [done|]. split; [done|]. split; [|split; [|done]].
  - split; [done|]. split; [done|]. split; [intros m Hm'; specialize (Hlim m Hm'); lia|]. by eexists.
  - eapply calc_in_given_out_nonneg; [apply bal_nonneg|eassumption].
Qed.

Lemma swap_call_inv exact_in who id ai ao amount limit price s s' u :
  0 ≤ amount → dispatch (swap_call exact_in who id ai ao amount limit price) s = (Ok u, s') →
  let acc := pool_account_id id in
  (is_Some limit ∨ is_Some price) ∧
  ∃ p wi wo x y before net_price price' eff l1 l2 e,
    Pools s !! id = Some p ∧ status p = Open ∧ weights p !! ai = Some wi ∧ weights p !! ao = Some wo ∧
    swap_amounts exact_in amount limit p (bal ai acc s) wi (bal ao acc s) wo x y ∧
    0 ≤ x ∧ 0 < y ∧ y + min_balance ao ≤ bal ao acc s ∧
    transfer ai who acc x (ledger s) = (Ok tt, l1) ∧ transfer ao acc who y l1 = (Ok tt, l2) ∧ s' = after l2 e s ∧
    calc_spot_price (bal ai acc s) wi (bal ao acc s) wo (swap_fee p) = Ok before ∧
    calc_spot_price (bal ai acc s) wi (bal ao acc s) wo 0 = Ok net_price ∧
    calc_spot_price (bal ai acc s') wi (bal ao acc s') wo (swap_fee p) = Ok price' ∧
    before ≤ price' ∧ (∀ m, price = Some m → price' ≤ m) ∧ bdiv x y = Ok eff ∧ net_price ≤ eff.
Proof.
  intros Hamt Hr acc. assert (swap_run exact_in who id ai ao amount limit price s (Ok u, s'))
    as (p & f & b & ev & Hp & Hlim & Hpure & Hswap & Hf).
  { destruct exact_in; [by apply swap_in_run|by apply swap_out_run]. }
  split; [done|].
  apply swap_inv in Hswap as (before & net & x & y & l1 & l2 & price' & eff & e & Hst & Hb & Hn & Hxy & Ht1 & Ht2
    & Ha & Hle & Hpl & He & Hne & ->); [|done].
  apply Hf in Hxy as (wi & wo & Hwi & Hwo & Hamts & Hx & Hy & Hmin). apply bdiv_divisor in He as Hy0.
  apply get_spot_price_inv in Hb as (_ & p1 & w1 & w2 & Hp1 & Hw1 & Hw2 & Hb).
  apply get_spot_price_inv in Hn as (_ & p2 & w3 & w4 & Hp2 & Hw3 & Hw4 & Hn).
  apply get_spot_price_inv in Ha as (_ & p3 & w5 & w6 & Hp3 & Hw5 & Hw6 & Ha). cbn [Pools set_ledger] in Hp3.
  simplify_eq. eexists _, _, _, x, y, before, net, price', eff, l1, l2, e.
  repeat split; try done; [lia|]. apply Hmin; [done|lia].
Qed.

(** ** All assets at once *)

(** What the loop of [pool] moved for one asset with balance [b] in the pool. *)
Definition asset_moved (fee : Balance → Res Balance) (Q : Balance → Balance → Asset → Balance → Prop)
    (acc src dst : AccountId) (ratio : Balance) (s0 s' : St) (ab : Asset * Balance) (x : Balance) : Prop :=
  ∃ g f, bmul ratio (bal ab.1 acc s0) = Ok g ∧ fee g = Ok f ∧ f + x = g ∧ 0 < x ∧
    Q x ab.2 ab.1 (bal ab.1 acc s0) ∧
    bal ab.1 src s' = bal ab.1 src s0 - x ∧ bal ab.1 dst s' = bal ab.1 dst s0 + x.

Section Loop.
Context (fee : Balance → Res Balance) (t : Balance → Balance → Asset → Store St unit)
  (Q : Balance → Balance → Asset → Balance → Prop) (acc src dst : AccountId) (Hsd : src ≠ dst).
Context (Ht : ∀ x b a s u s', t x b a s = (Ok u, s') →
  Q x b a (bal a acc s) ∧ ∃ l, transfer a src dst x (ledger s) = (Ok tt, l) ∧ s' = set_ledger l s).

Lemma pool_loop_effect ratio l : ∀ s0 s ts s',
  NoDup l.*1 → (∀ a z, a ∈ l.*1 → bal a z s = bal a z s0) →
  pool_loop fee t acc ratio l s = (Ok ts, s') →
  Forall2 (asset_moved fee Q acc src dst ratio s0 s') l ts ∧
  (∀ a z, a ∉ l.*1 ∨ z ≠ src ∧ z ≠ dst → bal a z s' = bal a z s) ∧
  (∀ a, iss a s' = iss a s) ∧ s' = set_ledger (ledger s') s.
Proof.
  induction l as [|[a b] l IH]; intros s0 s ts s' Hnd Hagree Hr; cbn [pool_loop] in Hr.
  - injection Hr as <- <-. split; [constructor|]. split; [done|]. split; [done|]. by destruct s.
  - change (((a, b) :: l).*1) with (a :: l.*1) in *. apply NoDup_cons in Hnd as [Ha Hnd].
    run_inv Hr. apply balance_of_inv in Hm as [-> ->]. guards. apply checked_sub_ok in Hm2 as [Hfle ->].
    apply Ht in Hm4 as (HQ & lt & Htr & ->). assert (0 < a1 - a2) as Hpos by lia.
    apply transfer_ok in Htr as (_ & Hb & Hi & _); [|lia].
    apply (IH s0) in Hm5 as (Hall & Hframe & Hiss & Hs'); [|done|].
    2:{ intros c z Hc. unfold bal at 1. cbn [ledger set_ledger]. rewrite Hb, !at_ne by (intros [=]; by subst).
        rewrite <- Hagree by by right. unfold bal. lia. }
    assert (∀ z, bal a z s' = bal a z s - at_ (a, src) (a, z) (a1 - a2) + at_ (a, dst) (a, z) (a1 - a2)) as Hbal.
    { intros z. rewrite Hframe by by left. apply Hb. }
    assert (∀ z, bal a z s = bal a z s0) as Hs0 by (intros; apply Hagree; by left).
    split; [|split; [|split]].
    + constructor; [|done]. exists a1, a2. cbn [fst snd]. rewrite !Hbal, !at_eq, !at_ne, <- !Hs0 by congruence.
      repeat split; try done; lia.
    + intros c z Hcz. rewrite Hframe by (destruct Hcz; [left|right]; set_solver). unfold bal. cbn [ledger set_ledger].
      rewrite Hb, !at_ne; [lia|..]; intros [=]; subst; destruct Hcz as [Hc|[? ?]]; set_solver.
    + intros c. rewrite Hiss. apply Hi.
    + rewrite Hs'. done.
Qed.
End Loop.

Lemma pool_inv bs ev acc amt id p t tp fee who s s' u :
  pool_ bs ev acc amt id p t tp fee who s = (Ok u, s') →
  ∃ r ts s1 s2 e, bdiv amt (iss (share id) s) = Ok r ∧ length (assets p) = length bs ∧
    pool_loop fee t acc r (zip (assets p) bs) s = (Ok ts, s1) ∧ tp s1 = (Ok tt, s2) ∧ s' = after (ledger s2) e s2.
Proof.
  intros Hr. unfold pool_, check_provided_values_len_must_equal_assets_len, deposit_event in Hr. run_inv Hr. guards.
  repeat match goal with x : () |- _ => destruct x end. do 5 eexists. repeat split; try done.
Qed.

(** An amount in proportion to the shares, up to the two roundings. *)
Definition proportional (x shares balance issuance : Z) : Prop :=
  2 * BASE * Z.abs (x * issuance - shares * balance) ≤ issuance * (BASE + balance).

Lemma ratio_proportional amt S r b g :
  0 < S → 0 ≤ b → bdiv amt S = Ok r → bmul r b = Ok g → proportional g amt b S.
Proof.
  intros HS Hb Hr Hg. apply bmul_bounds in Hg. apply bdiv_ok in Hr as (_ & _ & Hr).
  pose proof (round_bounds (amt * BASE) S HS) as [Hr1 Hr2]. rewrite <- Hr in Hr1, Hr2. unfold proportional.
  assert (- (S * BASE) ≤ S * (2 * g * BASE - 2 * r * b) ≤ S * BASE) by nia.
  assert (- (b * S) ≤ b * (2 * S * r - 2 * (amt * BASE)) ≤ b * S) by nia.
  replace (2 * BASE * Z.abs (g * S - amt * b)) with (Z.abs (2 * BASE * (g * S - amt * b)))
    by (rewrite Z.abs_mul; reflexivity).
  apply Z.abs_le. lia.
Qed.

Lemma iss_nonneg a s : 0 ≤ iss a s.
Proof. pose proof (free_nonneg a 0 (ledger s)). pose proof (free_le_issuance a 0 (ledger s)). unfold iss. lia. Qed.

Lemma bdiv_issuance_pos amt a s r : bdiv amt (iss a s) = Ok r → 0 < iss a s.
Proof. intros [? _]%bdiv_ok. pose proof (iss_nonneg a s). lia. Qed.

Lemma wf_NoDup p : pool_wf p → NoDup (assets p).
Proof. intros Hp. apply strictly_sorted_NoDup, Hp. Qed.

(** What a successful [pool_join] and a successful [pool_exit] do. *)
Lemma pool_join_run who id amt bounds s s' u :
  let acc := pool_account_id id in
  who ≠ acc → 0 ≤ amt → pool_join (Some who) id amt bounds s = (Ok u, s') →
  ∃ p r, Pools s !! id = Some p ∧ status p = Open ∧ 0 < amt ∧ bdiv amt (iss (share id) s) = Ok r ∧
    length (assets p) = length bounds ∧
    (NoDup (assets p) → ∃ ts s1, Pools s' = Pools s ∧
      Forall2 (asset_moved (λ _, Ok 0) (λ x b _ _, x ≤ b) acc who acc r s s1) (zip (assets p) bounds) ts ∧
      (∀ a z, a ∉ assets p ∨ z ≠ who ∧ z ≠ acc → bal a z s1 = bal a z s) ∧
      moved (λ a z, at_ (share id, who) (a, z) amt) (λ a, at_ (share id) a amt) s1 s' ∧
      (∀ a, iss a s1 = iss a s)).
Proof.
  intros acc Hwho Hamt Hr. unfold pool_join in Hr. run_inv Hr. guards.
  apply pool_by_id_inv in Hm1 as [-> Hp]. injection Hm as <-.
  apply pool_inv in Hr as (r & ts & s1 & s2 & e & Hratio & Hlen & Hloop & Hmint & ->).
  exists a1, r. split; [done|]. split; [done|]. split; [lia|]. split; [done|]. split; [done|]. intros Hnd.
  apply (pool_loop_effect _ _ (λ x b _ _, x ≤ b) acc who acc Hwho) with (s0 := s) in Hloop
    as (Hall & Hframe & Hiss & Hs1); [| |by rewrite zip_fst|done].
  2:{ intros x b c st w st' Hst. unfold on_ledger in Hst. run_inv Hst. guards. destruct w. split; [done|]. by eexists. }
  rewrite zip_fst in Hframe by done. unfold mint_pool_shares, on_ledger in Hmint. run_inv Hmint.
  apply deposit_ok in Hmint as (Hb & Hi & _); [|done].
  exists ts, s1. split; [rewrite Hs1; done|]. split; [done|]. split; [done|]. split; [|done]. split; [apply Hb|apply Hi].
Qed.

Lemma pool_exit_run who id amt bounds s s' u :
  let acc := pool_account_id id in
  who ≠ acc → 0 ≤ amt → pool_exit (Some who) id amt bounds s = (Ok u, s') →
  ∃ p r, Pools s !! id = Some p ∧ 0 < amt ∧ (status p = Open → amt + min_balance (share id) ≤ iss (share id) s) ∧
    bdiv amt (iss (share id) s) = Ok r ∧ length (assets p) = length bounds ∧
    (NoDup (assets p) → ∃ ts s1, Pools s' = Pools s ∧
      Forall2 (asset_moved (λ x, bmul x (calc_exit_fee p))
        (λ x b a y, b ≤ x ∧ (status p = Open → 0 < x → x + min_balance a ≤ y)) acc acc who r s s1)
        (zip (assets p) bounds) ts ∧
      (∀ a z, a ∉ assets p ∨ z ≠ who ∧ z ≠ acc → bal a z s1 = bal a z s) ∧
      amt ≤ bal (share id) who s1 ∧
      moved (λ a z, - at_ (share id, who) (a, z) amt) (λ a, - at_ (share id) a amt) s1 s' ∧
      (∀ a, iss a s1 = iss a s)).
Proof.
  intros acc Hwho Hamt Hr. unfold pool_exit in Hr. run_inv Hr. guards.
  apply pool_by_id_inv in Hm1 as [-> Hp]. injection Hm as <-. apply ensure_minimum_shares_inv in Hm2 as [-> Hmin].
  apply pool_inv in Hr as (r & ts & s1 & s2 & e & Hratio & Hlen & Hloop & Hburn & ->).
  exists a1, r. split; [done|]. split; [lia|]. split; [intros; apply Hmin; [done|lia]|]. split; [done|].
  split; [done|]. intros Hnd.
  apply (pool_loop_effect _ _ (λ x b c y, b ≤ x ∧ (status a1 = Open → 0 < x → x + min_balance c ≤ y))
    acc acc who) with (s0 := s) in Hloop as (Hall & Hframe & Hiss & Hs1); [|done| |by rewrite zip_fst|done].
  2:{ intros x b c st w st' Hst. unfold on_ledger in Hst. run_inv Hst.
      match goal with Hg : ensure_minimum_balance _ _ _ _ _ = _ |- _ => apply ensure_minimum_balance_inv in Hg as [-> ?] end.
      guards. destruct w. split; [done|]. by eexists. }
  rewrite zip_fst in Hframe by done. apply burn_pool_shares_inv in Hburn as (m & l & Hslash & Hle & ->); [|done].
  apply slash_spec in Hslash as (_ & Hb & Hi & _); [|done].
  exists ts, s1. split; [rewrite Hs1; done|]. split; [done|]. split; [intros; apply Hframe; tauto|].
  split; [done|]. split; [|done]. split; [intros a z; unfold bal; cbn; rewrite Hb; lia|].
  intros a. unfold iss. cbn. rewrite Hi. lia.
Qed.

(** (C35) Who joins a pool gets exactly the shares asked for and pays of each asset of
    the pool at most the bound given for it and, up to the rounding, the amount in
    proportion to the shares; nothing else moves. *)
Theorem pool_join_effect who id amt bounds s s' p :
  let acc := pool_account_id id in let S := iss (share id) s in
  Pools s !! id = Some p → pool_wf p → share id ∉ assets p → who ≠ acc → 0 ≤ amt →
  pool_join (Some who) id amt bounds s = (Ok tt, s') →
  status p = Open ∧ 0 < amt ∧ length bounds = length (assets p) ∧
  (∃ ts, Forall2 (λ ab x, 0 < x ≤ ab.2 ∧ proportional x amt (bal ab.1 acc s) S ∧
      bal ab.1 who s' = bal ab.1 who s - x ∧ bal ab.1 acc s' = bal ab.1 acc s + x)
    (zip (assets p) bounds) ts) ∧
  bal (share id) who s' = bal (share id) who s + amt ∧ iss (share id) s' = S + amt ∧
  (∀ a z, (a ∉ assets p ∨ z ≠ who ∧ z ≠ acc) → (a, z) ≠ (share id, who) → bal a z s' = bal a z s) ∧
  (∀ a, a ≠ share id → iss a s' = iss a s) ∧ Pools s' = Pools s.
Proof.
  intros acc S Hp Hwf Hsh Hwho Hamt Hr.
  apply pool_join_run in Hr as (p' & r & Hp' & Hst & Hpos & Hratio & Hlen & Hrun); [|done|done].
  assert (p' = p) as -> by congruence. pose proof (bdiv_issuance_pos _ _ _ _ Hratio) as HS.
  destruct (Hrun (wf_NoDup p Hwf)) as (ts & s1 & Hpools & Hall & Hframe & [Hbal Hissue] & Hiss).
  do 3 (split; [done|]). split; [|split_and!; [| | | |done]].
  - exists ts. eapply Forall2_impl_elem; [exact Hall|].
    intros [a b] x Hab%elem_of_zip_l (g & f & Hg & [= <-] & <- & Hx & Hxb & Hb1 & Hb2). cbn [fst snd] in *.
    rewrite !Hbal, !at_ne, !Z.add_0_r by congruence.
    split; [lia|]. split; [|done]. eapply ratio_proportional; [done|apply bal_nonneg|exact Hratio|done].
  - rewrite Hbal, at_eq, Hframe by (left; done). done.
  - rewrite Hissue, at_eq, Hiss. done.
  - intros a z Haz Hne. rewrite Hbal, at_ne, Z.add_0_r by congruence. by apply Hframe.
  - intros a Ha. rewrite Hissue, at_ne, Hiss by done. lia.
Qed.

(** Who leaves a pool burns exactly the shares given and receives of each asset of
    the pool at least the bound given for it: the amount in proportion to the shares,
    up to the rounding, less the exit fee, which only an open pool takes. What leaves
    an open pool leaves the minimum behind. *)
Theorem pool_exit_effect who id amt bounds s s' p :
  let acc := pool_account_id id in let S := iss (share id) s in
  Pools s !! id = Some p → pool_wf p → share id ∉ assets p → who ≠ acc → 0 ≤ amt →
  pool_exit (Some who) id amt bounds s = (Ok tt, s') →
  0 < amt ≤ bal (share id) who s ∧ (status p = Open → amt + min_balance (share id) ≤ S) ∧
  length bounds = length (assets p) ∧
  (∃ ts, Forall2 (λ ab x, 0 < x ∧ ab.2 ≤ x ∧
      (∃ f, proportional (f + x) amt (bal ab.1 acc s) S ∧ bmul (f + x) (calc_exit_fee p) = Ok f) ∧
      (status p = Open → x + min_balance ab.1 ≤ bal ab.1 acc s) ∧
      bal ab.1 who s' = bal ab.1 who s + x ∧ bal ab.1 acc s' = bal ab.1 acc s - x)
    (zip (assets p) bounds) ts) ∧
  bal (share id) who s' = bal (share id) who s - amt ∧ iss (share id) s' = S - amt ∧
  (∀ a z, (a ∉ assets p ∨ z ≠ who ∧ z ≠ acc) → (a, z) ≠ (share id, who) → bal a z s' = bal a z s) ∧
  (∀ a, a ≠ share id → iss a s' = iss a s) ∧ Pools s' = Pools s.
Proof.
  intros acc S Hp Hwf Hsh Hwho Hamt Hr.
  apply pool_exit_run in Hr as (p' & r & Hp' & Hpos & Hmin & Hratio & Hlen & Hrun); [|done|done].
  assert (p' = p) as -> by congruence. pose proof (bdiv_issuance_pos _ _ _ _ Hratio) as HS.
  destruct (Hrun (wf_NoDup p Hwf)) as (ts & s1 & Hpools & Hall & Hframe & Hle & [Hbal Hissue] & Hiss).
  rewrite Hframe in Hle by by left. do 3 (split; [done|]). split; [|split_and!; [| | | |done]].
  - exists ts. eapply Forall2_impl_elem; [exact Hall|].
    intros [a b] x Hab%elem_of_zip_l (g & f & Hg & Hf & <- & Hx & [Hxb Hmin'] & Hb1 & Hb2). cbn [fst snd] in *.
    rewrite !Hbal, !at_ne, !Z.add_0_r by congruence. repeat split; try done; [|by intros; apply Hmin'].
    exists f. split; [|done]. eapply ratio_proportional; [done|apply bal_nonneg|exact Hratio|done].
  - rewrite Hbal, at_eq, Hframe by (left; done). lia.
  - rewrite Hissue, at_eq, Hiss. lia.
  - intros a z Haz Hne. rewrite Hbal, at_ne, Z.add_0_r by congruence. by apply Hframe.
  - intros a Ha. rewrite Hissue, at_ne, Hiss by done. lia.
Qed.

(** (C34) A successful swap of two different assets, of an exact amount in or out, is one
    with an open pool that has both, at the amounts the formulas give; it respects the limits given on the other amount and on the price, of which at least
    one is, never lowers the price, gives at most what the price without fees allows,
    and leaves the minimum of the asset that leaves in the pool. *)
Theorem swap_effect exact_in who id ai ao amount limit price s s' :
  let acc := pool_account_id id in
  0 ≤ amount → who ≠ acc → ai ≠ ao →
  dispatch (swap_call exact_in who id ai ao amount limit price) s = (Ok tt, s') →
  (is_Some limit ∨ is_Some price) ∧
  ∃ p wi wo x y before net_price price' eff,
    Pools s !! id = Some p ∧ status p = Open ∧ weights p !! ai = Some wi ∧ weights p !! ao = Some wo ∧
    swap_amounts exact_in amount limit p (bal ai acc s) wi (bal ao acc s) wo x y ∧
    (bal ai who s' = bal ai who s - x ∧ bal ao who s' = bal ao who s + y ∧
     bal ai acc s' = bal ai acc s + x ∧ bal ao acc s' = bal ao acc s - y ∧ min_balance ao ≤ bal ao acc s') ∧
    (∀ a z, (a ≠ ai ∧ a ≠ ao ∨ z ≠ who ∧ z ≠ acc) → bal a z s' = bal a z s) ∧
    (∀ a, iss a s' = iss a s) ∧ Pools s' = Pools s ∧
    calc_spot_price (bal ai acc s) wi (bal ao acc s) wo (swap_fee p) = Ok before ∧
    calc_spot_price (bal ai acc s) wi (bal ao acc s) wo 0 = Ok net_price ∧
    calc_spot_price (bal ai acc s') wi (bal ao acc s') wo (swap_fee p) = Ok price' ∧
    before ≤ price' ∧ (∀ m, price = Some m → price' ≤ m) ∧ bdiv x y = Ok eff ∧ net_price ≤ eff.
Proof.
  intros acc Hamt Hwho Hne Hr. apply swap_call_inv in Hr as (Hlim & p & wi & wo & x & y & before & net & price' & eff
    & l1 & l2 & e & Hp & Hst & Hwi & Hwo & Hxy & Hx & Hy & Hmin & Ht1 & Ht2 & -> & Hprices); [|done].
  destruct (swap_moved who ai ao acc x y l1 l2 e s Hx ltac:(lia) Ht1 Ht2) as [Hb Hi].
  split; [done|]. exists p, wi, wo, x, y, before, net, price', eff.
  do 5 (split; [done|]). split; [subst acc; rewrite !Hb; at_simpl; lia|]. split; [|split; [intros a; rewrite Hi; lia|done]].
  intros a z Haz. rewrite Hb, !at_ne; [lia|..]; intros [=]; subst; naive_solver.
Qed.
End Trades.
