(* ===== verification/SwapsDrain.v ===== *)
(** * Constant function market maker: open pools are not drained

    No call takes an asset of an open pool, or its shares, below the minimum. *)
From S2P Require Import Prelude BTree Types Errors Fixed Currencies Ledgers SwapsMath Swaps SwapsPools SwapsTrades.

Section Drain.
Context {L : Type} `{AssetManager L, !AssetManagerLaws L, SwapsConfig}.
Abbreviation St := (State L).
Implicit Types s : St.

(** [b'] is at least [b] or the minimum [m]. *)
Definition keeps (m b b' : Balance) : Prop := Z.min b m ≤ b'.

(** What a join, an exit or a swap of [who] with the pool [id] leaves alone. *)
Definition trade_ok (who : AccountId) (id : PoolId) (s s' : St) : Prop :=
  let acc := pool_account_id id in
  ∃ p, Pools s !! id = Some p ∧ Pools s' = Pools s ∧
    (∀ a z, z ≠ who → z ≠ acc → bal a z s' = bal a z s) ∧
    (status p = Open → ∀ a, a ∈ assets p → keeps (min_balance a) (bal a acc s) (bal a acc s')) ∧
    (status p = Open → keeps (min_balance (share id)) (iss (share id) s) (iss (share id) s')) ∧
    (∀ a, a ≠ share id → iss a s' = iss a s).

Lemma trade_ok_moved who id p s l e (d : Asset → AccountId → Z) i :
  let acc := pool_account_id id in
  Pools s !! id = Some p → moved d i s (after l e s) →
  (∀ a z, z ≠ who → z ≠ acc → d a z = 0) → (∀ a, a ≠ share id → i a = 0) →
  (∀ a, keeps (min_balance a) (bal a acc s) (bal a acc s + d a acc)) →
  keeps (min_balance (share id)) (iss (share id) s) (iss (share id) s + i (share id)) →
  trade_ok who id s (after l e s).
Proof.
  intros acc Hp [Hb Hi] Hd0 Hi0 Hd Hsh. exists p. split; [done|]. split; [done|].
  split; [intros a z Hw Ha; rewrite Hb, Hd0 by done; lia|]. split; [intros _ a _; rewrite Hb; apply Hd|].
  split; [intros _; rewrite Hi; apply Hsh|]. intros a Ha. rewrite Hi, Hi0 by done. lia.
Qed.

Lemma at_who (a b : Asset) (who z : AccountId) x : z ≠ who → at_ (a, who) (b, z) x = 0.
Proof. intros Hz. apply at_ne. by intros [= _ <-]. Qed.
Lemma at_keeps a b (acc : AccountId) x s :
  0 ≤ x → (0 < x → x + min_balance a ≤ bal a acc s) →
  keeps (min_balance b) (bal b acc s) (bal b acc s - at_ (a, acc) (b, acc) x).
Proof.
  intros Hx Hmin. unfold keeps, at_. destruct (decide _) as [[= <-]|]; [|lia].
  destruct (decide (x = 0)) as [->|]; [lia|]. specialize (Hmin ltac:(lia)). lia.
Qed.

Ltac by_moves := cbv beta; repeat match goal with v := _ |- _ => subst v end; repeat first [rewrite at_who by congruence | rewrite (at_ne (share _)) by congruence]; lia.

Lemma exit_ok who id p a x y m l1 l2 e s :
  let acc := pool_account_id id in
  who ≠ acc → Pools s !! id = Some p → 0 ≤ x → 0 ≤ y ≤ bal (share id) who s →
  (0 < x → x + min_balance a ≤ bal a acc s) → y + min_balance (share id) ≤ iss (share id) s →
  slash (share id) who y (ledger s) = (m, l1) → transfer a acc who x l1 = (Ok tt, l2) →
  trade_ok who id s (after l2 e s).
Proof.
  intros acc Hwho Hp Hx Hy Hmin Hsh Hs Ht. pose proof (exit_moved id who a acc x y m l1 l2 e s Hx Hy Hs Ht) as Hm.
  eapply trade_ok_moved; [exact Hp|exact Hm|..].
  - intros b z Hz Hz'. by_moves.
  - intros b Hb. by_moves.
  - intros b. pose proof (at_keeps a b acc x s Hx Hmin) as Hk. unfold keeps in *. cbv beta. fold acc.
    rewrite !(at_who _ _ who) by congruence. lia.
  - unfold keeps. rewrite at_eq. lia.
Qed.

Lemma join_ok who id p a x y l1 l2 e s :
  let acc := pool_account_id id in
  who ≠ acc → Pools s !! id = Some p → 0 ≤ x → 0 ≤ y →
  deposit (share id) who y (ledger s) = (Ok tt, l1) → transfer a who acc x l1 = (Ok tt, l2) →
  trade_ok who id s (after l2 e s).
Proof.
  intros acc Hwho Hp Hx Hy Hs Ht. pose proof (join_moved id who a acc x y l1 l2 e s Hx Hy Hs Ht) as Hm.
  eapply trade_ok_moved; [exact Hp|exact Hm|..].
  - intros b z Hz Hz'. by_moves.
  - intros b Hb. by_moves.
  - intros b. unfold keeps. cbv beta. fold acc. rewrite !(at_who _ _ who) by congruence.
    pose proof (at_nonneg (a, acc) (b, acc) x Hx). lia.
  - unfold keeps. rewrite at_eq. lia.
Qed.

Lemma swap_ok exact_in who id ai ao amount limit price s s' u :
  0 ≤ amount → who ≠ pool_account_id id →
  dispatch (swap_call exact_in who id ai ao amount limit price) s = (Ok u, s') → trade_ok who id s s'.
Proof.
  intros Hamt Hwho Hr. apply swap_call_inv in Hr as (_ & p & wi & wo & x & y & before & net & price' & eff
    & l1 & l2 & e & Hp & Hst & Hwi & Hwo & Hxy & Hx & Hy & Hmin & Ht1 & Ht2 & -> & _); [|done].
  pose proof (swap_moved who ai ao (pool_account_id id) x y l1 l2 e s Hx ltac:(lia) Ht1 Ht2) as Hm.
  eapply trade_ok_moved; [exact Hp|exact Hm|..].
  - intros b z Hz Hz'. by_moves.
  - done.
  - intros b. pose proof (at_keeps ao b (pool_account_id id) y s ltac:(lia) (λ _, Hmin)) as Hk. unfold keeps in *. cbv beta.
    rewrite !(at_who _ _ who) by congruence. pose proof (at_nonneg (ai, pool_account_id id) (b, pool_account_id id) x Hx). lia.
  - unfold keeps. lia.
Qed.

(** The loops of [pool_join] and [pool_exit]. *)
Lemma zip_lookup_elem {A B} (l : list A) (k : list B) a : length l = length k → a ∈ l → ∃ b, (a, b) ∈ zip l k.
Proof.
  intros Hlen Ha. rewrite <- (zip_fst l k Hlen) in Ha. apply list_elem_of_fmap in Ha as ([a' b] & -> & Hab). by exists b.
Qed.
Lemma Forall2_elem_l {A B} (P : A → B → Prop) l k x : Forall2 P l k → x ∈ l → ∃ y, P x y.
Proof. induction 1; [by intros ?%not_elem_of_nil|]. intros [->|?]%elem_of_cons; eauto. Qed.

Lemma loop_join_ok who id amt bounds s s' u :
  who ≠ pool_account_id id → 0 ≤ amt → (∀ p, Pools s !! id = Some p → NoDup (assets p)) →
  pool_join (Some who) id amt bounds s = (Ok u, s') → trade_ok who id s s'.
Proof.
  intros Hwho Hamt Hnd Hr. apply pool_join_run in Hr as (p & r & Hp & Hst & Hpos & Hratio & Hlen & Hrun); [|done|done].
  destruct (Hrun (Hnd p Hp)) as (ts & s1 & Hpools & Hall & Hframe & [Hbal Hissue] & Hiss).
  exists p. split; [done|]. split; [done|]. split; [|split; [|split]].
  - intros a z Hz Hz'. rewrite Hbal, Hframe, at_who by auto. lia.
  - intros _ a Ha. destruct (zip_lookup_elem _ _ a Hlen Ha) as [b Hb].
    destruct (Forall2_elem_l _ _ _ _ Hall Hb) as (x & g & f & _ & _ & _ & Hx & _ & _ & Hacc). cbn [fst] in Hacc.
    unfold keeps. rewrite Hbal, Hacc, at_who by congruence. lia.
  - intros _. unfold keeps. rewrite Hissue, Hiss, at_eq. lia.
  - intros a Ha. rewrite Hissue, Hiss, at_ne by congruence. lia.
Qed.

Lemma loop_exit_ok who id amt bounds s s' u :
  who ≠ pool_account_id id → 0 ≤ amt → (∀ p, Pools s !! id = Some p → NoDup (assets p)) →
  pool_exit (Some who) id amt bounds s = (Ok u, s') → trade_ok who id s s'.
Proof.
  intros Hwho Hamt Hnd Hr. apply pool_exit_run in Hr as (p & r & Hp & Hpos & Hmin & Hratio & Hlen & Hrun); [|done|done].
  destruct (Hrun (Hnd p Hp)) as (ts & s1 & Hpools & Hall & Hframe & _ & [Hbal Hissue] & Hiss).
  exists p. split; [done|]. split; [done|]. split; [|split; [|split]].
  - intros a z Hz Hz'. rewrite Hbal, Hframe, at_who by auto. lia.
  - intros Hst a Ha. destruct (zip_lookup_elem _ _ a Hlen Ha) as [b Hb].
    destruct (Forall2_elem_l _ _ _ _ Hall Hb) as (x & g & f & _ & _ & _ & Hx & [_ Hk] & Hacc & _). cbn [fst snd] in *.
    specialize (Hk Hst Hx). unfold keeps. rewrite Hbal, Hacc, at_who by congruence. lia.
  - intros Hst. specialize (Hmin Hst). unfold keeps. rewrite Hissue, Hiss, at_eq. lia.
  - intros a Ha. rewrite Hissue, Hiss, at_ne by congruence. lia.
Qed.

(** ** Every call *)

Definition caller (c : Call) : option AccountId :=
  match c with
  | Call_pool_exit o _ _ _ | Call_pool_exit_with_exact_asset_amount o _ _ _ _
  | Call_pool_exit_with_exact_pool_amount o _ _ _ _ | Call_pool_join o _ _ _
  | Call_pool_join_with_exact_asset_amount o _ _ _ _ | Call_pool_join_with_exact_pool_amount o _ _ _ _
  | Call_swap_exact_amount_in o _ _ _ _ _ _ | Call_swap_exact_amount_out o _ _ _ _ _ _ => o
  | Api_create_pool who _ _ _ _ => Some who
  | Api_close_pool _ | Api_open_pool _ | Api_destroy_pool _ => None
  end.
(** The amount that a trade is given is an unsigned integer. *)
Definition given_amount (c : Call) : Balance :=
  match c with
  | Call_pool_exit _ _ x _ | Call_pool_exit_with_exact_asset_amount _ _ _ x _
  | Call_pool_exit_with_exact_pool_amount _ _ _ x _ | Call_pool_join _ _ x _
  | Call_pool_join_with_exact_asset_amount _ _ _ x _ | Call_pool_join_with_exact_pool_amount _ _ _ x _
  | Call_swap_exact_amount_in _ _ _ x _ _ _ | Call_swap_exact_amount_out _ _ _ _ _ x _ => x
  | _ => 0
  end.

Lemma trade_dispatch_ok c s s' u :
  trades c = true → 0 ≤ given_amount c → pools_wf s → dispatch c s = (Ok u, s') →
  ∃ who id, caller c = Some who ∧ (who ≠ pool_account_id id → trade_ok who id s s').
Proof.
  intros Hc Hamt Hwf Hr. assert (Hnd : ∀ id p, Pools s !! id = Some p → NoDup (assets p)).
  { intros id p Hp. apply wf_NoDup. by apply (Hwf id p). }
  destruct c; try done; cbn [caller given_amount dispatch] in *.
  - destruct origin as [who|]; [|done]. exists who, pool_id. split; [done|]. intros Hwho. exact (loop_exit_ok _ _ _ _ _ _ _ Hwho Hamt (Hnd _) Hr).
  - unfold pool_exit_with_exact_asset_amount in Hr. run_inv Hr. eexists _, pool_id. split; [exact Hm|].
    intros Hwho. apply exit_asset_inv in Hr as (p & w & y & m & l1 & l2 & e & Hp & _ & _ & Hmin & _ & Hy & Hsh & _ & Hle & Hs & Ht & ->); [|done].
    eapply (exit_ok _ _ p asset asset_amount y); [done|exact Hp|done| |exact Hmin|exact Hsh|exact Hs|exact Ht]. lia.
  - apply exit_shares_inv in Hr as (who & p & w & x & m & l1 & l2 & e & -> & Hp & _ & _ & Hy & Hsh & _ & _ & Hx & _ & _ & Hmin & Hle & Hs & Ht & ->); [|done].
    exists who, pool_id. split; [done|]. intros Hwho.
    eapply (exit_ok _ _ p asset x pool_amount); [done|exact Hp|lia| |intros _; exact Hmin|exact Hsh|exact Hs|exact Ht]. lia.
  - destruct origin as [who|]; [|done]. exists who, pool_id. split; [done|]. intros Hwho. exact (loop_join_ok _ _ _ _ _ _ _ Hwho Hamt (Hnd _) Hr).
  - unfold pool_join_with_exact_asset_amount in Hr. run_inv Hr. eexists _, pool_id. split; [exact Hm|].
    intros Hwho. apply join_asset_inv in Hr as (p & w & y & l1 & l2 & e & Hp & _ & _ & _ & _ & _ & Hy & _ & Hs & Ht & ->); [|done].
    by apply (join_ok _ _ p asset asset_amount y l1 l2).
  - apply join_shares_inv in Hr as (who & p & w & x & l1 & l2 & e & -> & Hp & _ & _ & _ & _ & Hx & _ & Hs & Ht & ->); [|done].
    exists who, pool_id. split; [done|]. intros Hwho. eapply (join_ok _ _ p asset x pool_amount); [done|exact Hp|lia|done|exact Hs|exact Ht].
  - destruct origin as [who|]; [|done]. exists who, pool_id. split; [done|]. intros Hwho.
    by apply (swap_ok true who pool_id asset_in asset_out asset_amount_in min_asset_amount_out max_price s s' u).
  - destruct origin as [who|]; [|done]. exists who, pool_id. split; [done|]. intros Hwho.
    by apply (swap_ok false who pool_id asset_in asset_out asset_amount_out max_asset_amount_in max_price s s' u).
Qed.

(** A trade that fails changes nothing. *)
Lemma trade_dispatch_err c s s' e : trades c = true → dispatch c s = (Err e, s') → s' = s.
Proof.
  destruct c; try done; intros _ Hr; cbn [dispatch] in Hr;
    try (by apply transactional_err in Hr);
    unfold pool_exit_with_exact_asset_amount, pool_join_with_exact_asset_amount in Hr;
    (destruct origin as [who|]; [|by injection Hr]);
    rewrite (ok_or_some_bind _ who) in Hr by done; by apply transactional_err in Hr.
Qed.

(** The balances of [z] and the issuances only grow. *)
Definition grows (z : AccountId) (s s' : St) : Prop :=
  (∀ a, bal a z s ≤ bal a z s') ∧ (∀ a, iss a s ≤ iss a s').
#[local] Instance grows_preorder z : PreOrder (grows z).
Proof. split; [by split|]. intros s1 s2 s3 [Hb Hi] [Hb' Hi']. split; intros a; etransitivity; eauto. Qed.

Lemma create_pool_loop_grows who acc amt z l : ∀ map total s map' total' s',
  z ≠ who → 0 ≤ amt → create_pool_loop who acc amt l map total s = (Ok (map', total'), s') → grows z s s'.
Proof.
  induction l as [|[a w] l IH]; intros map total s map' total' s' Hz Hamt Hr; cbn [create_pool_loop] in Hr.
  - injection Hr as _ _ <-. reflexivity.
  - unfold on_ledger in Hr. run_inv Hr. apply balance_of_inv in Hm as [-> ->].
    transitivity (set_ledger t s); [|by eapply IH].
    apply transfer_ok in Hm4 as (_ & Hb & Hi & _); [|done]. unfold grows, bal, iss. cbn [ledger set_ledger].
    split; intros b; [rewrite Hb, at_who by done|rewrite Hi; lia].
    pose proof (at_nonneg (a, acc) (b, z) amt Hamt). lia.
Qed.

Lemma min_balance_of_pool_pos id l : 0 ≤ min_balance_of_pool id l.
Proof. unfold min_balance_of_pool, min_balance at 2, MIN_BALANCE. pose proof (eq_refl : (0 <? CENT) = true). lia. Qed.

Lemma create_pool_grows who l fee amount ws z s s' id :
  z ≠ who → create_pool who l fee amount ws s = (Ok id, s') → grows z s s'.
Proof.
  intros Hz Hr. unfold create_pool, inc_next_pool_id, on_ledger in Hr. run_inv Hr. destruct a7 as [map total].
  pose proof (min_balance_of_pool_pos (NextPoolId s) l). guards.
  apply (create_pool_loop_grows _ _ _ z) in Hm6 as Hg; [|done|lia].
  unfold deposit_event in Hr. run_inv Hr. etransitivity; [exact Hg|].
  apply deposit_ok in Hm8 as (Hb & Hi & _); [|lia]. unfold grows, bal, iss. cbn.
  split; intros b; [rewrite Hb|rewrite Hi].
  - pose proof (at_nonneg (pool_shares_id (NextPoolId s), who) (b, z) amount ltac:(lia)). lia.
  - pose proof (at_nonneg (pool_shares_id (NextPoolId s)) b amount ltac:(lia)). lia.
Qed.

(** The balances of [z] are untouched when another account is emptied. *)
Lemma slash_loop_others acc z l s s' u :
  z ≠ acc → for_each (slash_all acc) l s = (Ok u, s') → ∀ a, bal a z s' = bal a z s.
Proof.
  intros Hz. assert (PreOrder (λ s s' : St, ∀ a, bal a z s' = bal a z s)).
  { split; [done|]. intros s1 s2 s3 H12 H23 a. by rewrite H23. }
  apply (for_each_rel (λ s s', ∀ a, bal a z s' = bal a z s)).
  intros x t t' v _ Ht a. unfold slash_all, on_ledger in Ht. run_inv Ht. apply balance_of_inv in Hm as [-> ->].
  apply slash_spec in Hm0 as (_ & Hb & _); [|split; [apply bal_nonneg|done]].
  unfold bal. cbn. rewrite Hb, at_who by done. lia.
Qed.

(** *** Opening, closing, destroying *)
Lemma mutate_pool_ledger id f s : ledger (mutate_pool id f s).2 = ledger s.
Proof.
  unfold mutate_pool, pool_by_id, ok_or, lift, modify, mbind, M_bind. destruct (Pools s !! id); [|done].
  by destruct (f p).
Qed.

Lemma destroy_others id z s : z ≠ pool_account_id id → ∀ a, bal a z (destroy_pool id s).2 = bal a z s.
Proof.
  intros Hz a. destruct (destroy_pool id s) as [[u|e] s'] eqn:Hr; cbn [snd].
  - unfold destroy_pool, deposit_event in Hr. run_inv Hr. apply pool_by_id_inv in Hm as [-> _].
    by apply (slash_loop_others _ z _ _ _ _ Hz Hm0).
  - unfold destroy_pool in Hr. destruct (pool_by_id id s) as [[p|e'] s1] eqn:Hp.
    + apply pool_by_id_inv in Hp as Hp'. destruct Hp' as [-> _]. rewrite (bind_ok _ _ _ _ _ Hp) in Hr.
      destruct (for_each (slash_all (pool_account_id id)) (assets p) s) as [[v|e''] s1] eqn:Hl.
      { by rewrite (bind_ok _ _ _ _ _ Hl) in Hr. }
      exfalso. clear Hr Hp. revert s Hl. induction (assets p) as [|x l IH]; intros s Hl; [done|].
      cbn [for_each] in Hl. unfold mbind, M_bind in Hl. destruct (slash_all (pool_account_id id) x s) as [[[]|] s2] eqn:Hx.
      * by eapply IH.
      * unfold slash_all, balance_of, on_ledger, Prelude.gets, infallible, zoom, mbind, M_bind in Hx.
        by destruct (slash _ _ _ _).
    + rewrite (bind_err _ _ _ _ _ Hp) in Hr. simplify_eq.
      unfold pool_by_id, ok_or in Hp. destruct (Pools s !! id); by simplify_eq.
Qed.

(** (C5) No call takes an open pool below its minimum: when the account of a pool is not
    the caller's and no two pools share an account, whatever the call and whether it
    succeeds or fails, of each of its assets the pool keeps the minimum balance or what
    it had, and the shares issued stay at the minimum or where they were, except that
    destroying a pool empties its own account, with the shares of others in it. *)
Theorem open_pools_not_drained c s id p :
  let acc := pool_account_id id in let s' := (dispatch c s).2 in
  (∀ id id', pool_account_id id = pool_account_id id' → id = id') → pools_wf s →
  0 ≤ given_amount c → (∀ who id, caller c = Some who → who ≠ pool_account_id id) →
  Pools s !! id = Some p → status p = Open → c ≠ Api_destroy_pool id →
  (∀ a, a ∈ assets p → keeps (min_balance a) (bal a acc s) (bal a acc s')) ∧
  ((∀ id', c ≠ Api_destroy_pool id') → keeps (min_balance (share id)) (iss (share id) s) (iss (share id) s')).
Proof.
  intros acc s' Hinj Hwf Hamt Hcaller Hp Hst Hnd. subst s'.
  assert (Hrefl : ∀ t, ledger t = ledger s → (∀ a, a ∈ assets p → keeps (min_balance a) (bal a acc s) (bal a acc t))
    ∧ ((∀ id', c ≠ Api_destroy_pool id') → keeps (min_balance (share id)) (iss (share id) s) (iss (share id) t))).
  { intros t Ht. unfold keeps, bal, iss. rewrite Ht. split; intros; lia. }
  destruct (trades c) eqn:Hc.
  - destruct (dispatch c s) as [[u|e] s'] eqn:Hr; cbn [snd].
    + destruct (trade_dispatch_ok c s s' u Hc Hamt Hwf Hr) as (who & id' & Hwho & Hok).
      destruct (Hok (Hcaller who id' Hwho)) as (p' & Hp' & _ & Hoth & Hbal & Hsh & Hiss).
      destruct (decide (id' = id)) as [->|Hne]; [assert (p' = p) as -> by congruence; auto|].
      unfold keeps. rewrite (Hiss (share id)) by (intros [=]; congruence). split; [|intros; lia].
      intros a _. rewrite Hoth; [lia|by apply not_eq_sym, Hcaller|]. intros Heq. apply Hne. symmetry. by apply Hinj.
    + rewrite (trade_dispatch_err c s s' e Hc Hr). by apply Hrefl.
  - destruct c as [ | | | | | | | |who l fee amount ws|id'|id'|id']; try done; cbn [dispatch].
    + destruct (create_pool who l fee amount ws s) as [[k|e] s'] eqn:Hr.
      2:{ rewrite (bind_err _ _ _ _ _ Hr). apply transactional_err in Hr as ->. by apply Hrefl. }
      rewrite (bind_ok _ _ _ _ _ Hr). cbn [mret M_ret snd].
      destruct (create_pool_grows who l fee amount ws acc s s' k) as [Hb Hi];
        [by apply not_eq_sym, Hcaller|done|]. unfold keeps.
      split; [intros a _; specialize (Hb a); lia|]. intros _. specialize (Hi (share id)). lia.
    + apply Hrefl. unfold close_pool. rewrite <- (mutate_pool_ledger id' (λ pool,
        _ ← ensureR (bool_decide (status pool = Open)) SW_InvalidStateTransition; Ok (set_status Closed pool)) s).
      unfold mbind at 1, M_bind at 1. by destruct (mutate_pool _ _ s) as [[|] ?].
    + apply Hrefl. rewrite open_pool_eq. rewrite <- (mutate_pool_ledger id' (λ pool,
        _ ← ensureR (bool_decide (status pool = Closed)) SW_InvalidStateTransition; Ok (set_status Open pool)) s).
      unfold mbind at 1, M_bind at 1. by destruct (mutate_pool _ _ s) as [[|] ?].
    + split; [|by intros Hno; destruct (Hno id')]. intros a _. unfold keeps. rewrite destroy_others; [lia|].
      intros Heq%Hinj. congruence.
Qed.
End Drain.
