(* ===== verification/SwapsExample.v ===== *)
(** * Constant function market maker: an example

    A pool of three assets at work on a concrete ledger: the witnesses of the
    properties and observations on the code. *)
From S2P Require Import Prelude BTree Types Errors Fixed Currencies Ledgers SwapsMath Swaps SwapsPools SwapsTrades.
From S2P Require Import SwapsDrain.

Module SwapsExample.

(** The constants of the mock runtime; accounts of pools from 1000 on. *)
#[export] Instance config : SwapsConfig := {
  ExitFee := 3 * BASE / 1000;
  MaxAssets := 65;
  MaxInRatio := BASE / 3 + 1;
  MaxOutRatio := BASE / 3 + 1;
  MaxSwapFee := BASE / 10;
  MaxTotalWeight := 50 * BASE;
  MaxWeight := 50 * BASE;
  MinAssets := 2;
  MinWeight := BASE;
  pool_account_id id := if 0 <=? id then 1001 + 2 * id else 1000 - 2 * id;
}.

Definition alice : AccountId := 1.
Definition bob : AccountId := 2.
Definition gold : Asset := ForeignAsset 0.
Definition silver : Asset := ForeignAsset 1.
Definition funds : N := 10000000000000.

Definition start : State Ledger :=
  mk_State (mk_Ledger {[ (Ztg, alice) := funds; (gold, alice) := funds; (silver, alice) := funds;
                         (Ztg, bob) := funds; (gold, bob) := funds; (silver, bob) := funds ]} ∅) ∅ 0 [].

(** Alice creates a pool with a hundred of each asset, which then opens. *)
Definition create : Call := Api_create_pool alice [silver; Ztg; gold] (BASE / 100) (100 * BASE) [BASE; 2 * BASE; BASE].
Definition created : State Ledger := Eval vm_compute in (dispatch create start).2.
Definition opened : State Ledger := Eval vm_compute in (dispatch (Api_open_pool 0) created).2.
Lemma created_run : dispatch create start = (Ok tt, created). Proof. vm_cast_no_check (eq_refl (dispatch create start)). Qed.
Lemma pool_opened_run : dispatch (Api_open_pool 0) created = (Ok tt, opened).
Proof. vm_cast_no_check (eq_refl (dispatch (Api_open_pool 0) created)). Qed.

Definition the_pool : Pool :=
  mk_Pool [Ztg; gold; silver] Open (BASE / 100) (4 * BASE) {[ silver := BASE; Ztg := 2 * BASE; gold := BASE ]}.
Lemma the_pool_stored : Pools opened !! 0 = Some the_pool.
Proof. vm_compute. reflexivity. Qed.

Lemma start_is_genesis : genesis start. Proof. by split. Qed.
Lemma created_steps : rtc step start created.
Proof. eapply rtc_l; [|apply rtc_refl]. pose proof (step_call create start) as Hs. by rewrite created_run in Hs. Qed.
Lemma opened_steps : rtc step created opened.
Proof.
  eapply rtc_l; [|apply rtc_refl]. pose proof (step_call (Api_open_pool 0) created) as Hs. by rewrite pool_opened_run in Hs.
Qed.
Lemma the_pool_wf : pool_wf the_pool ∧ pools_wf opened.
Proof.
  destruct (run_wf start opened) as [_ Hwf].
  - intros id p. cbn. by rewrite lookup_empty.
  - etransitivity; [apply created_steps|apply opened_steps].
  - split; [apply (Hwf 0 the_pool the_pool_stored)|done].
Qed.

Lemma swaps_pools_wellformed_witness :
  (0 < NextPoolId opened ∧ pool_wf the_pool ∧ (asset_in_pool the_pool gold = true ↔ gold ∈ assets the_pool ∧ bound the_pool gold = true))
  ∧ pools_evolve created opened.
Proof.
  split.
  - destruct (swaps_pools_wellformed start opened opened start_is_genesis) as [Hall _].
    + transitivity created; [exact created_steps|exact opened_steps].
    + apply rtc_refl.
    + destruct (Hall 0 the_pool the_pool_stored) as (Hid & Hwf & Hin). exact (conj Hid (conj Hwf (Hin gold))).
  - exact (proj2 (swaps_pools_wellformed start created opened start_is_genesis created_steps opened_steps)).
Defined.

(** Bob joins with ten shares, swaps and leaves. *)
Definition joined : State Ledger :=
  Eval vm_compute in (pool_join (Some bob) 0 (10 * BASE) [10 * BASE; 10 * BASE; 10 * BASE] opened).2.
Lemma pool_joined_run : pool_join (Some bob) 0 (10 * BASE) [10 * BASE; 10 * BASE; 10 * BASE] opened = (Ok tt, joined).
Proof. vm_cast_no_check (eq_refl (@Ok DispatchError _ tt, joined)). Qed.

Lemma pool_join_effect_witness :
  bal (share 0) bob joined = bal (share 0) bob opened + 10 * BASE ∧ iss (share 0) joined = iss (share 0) opened + 10 * BASE.
Proof.
  destruct (pool_join_effect bob 0 (10 * BASE) [10 * BASE; 10 * BASE; 10 * BASE] opened joined the_pool
    the_pool_stored (proj1 the_pool_wf)) as (_ & _ & _ & _ & Hb & Hi & _).
  - vm_compute. intros Hin. by repeat (apply elem_of_cons in Hin as [?|Hin]); [..|apply not_elem_of_nil in Hin].
  - vm_compute. discriminate.
  - vm_compute. discriminate.
  - exact pool_joined_run.
  - exact (conj Hb Hi).
Defined.

Definition exited : State Ledger := Eval vm_compute in (pool_exit (Some alice) 0 (50 * BASE) [1; 1; 1] opened).2.
Lemma exited_run : pool_exit (Some alice) 0 (50 * BASE) [1; 1; 1] opened = (Ok tt, exited).
Proof. vm_cast_no_check (eq_refl (@Ok DispatchError _ tt, exited)). Qed.

Lemma pool_exit_effect_witness :
  bal (share 0) alice exited = bal (share 0) alice opened - 50 * BASE ∧
  iss (share 0) exited = iss (share 0) opened - 50 * BASE.
Proof.
  destruct (pool_exit_effect alice 0 (50 * BASE) [1; 1; 1] opened exited the_pool
    the_pool_stored (proj1 the_pool_wf)) as (_ & _ & _ & _ & Hb & Hi & _).
  - vm_compute. intros Hin. by repeat (apply elem_of_cons in Hin as [?|Hin]); [..|apply not_elem_of_nil in Hin].
  - vm_compute. discriminate.
  - vm_compute. discriminate.
  - exact exited_run.
  - exact (conj Hb Hi).
Defined.

Definition the_swap : Call := swap_call true bob 0 Ztg gold BASE (Some 1) None.
Definition swapped : State Ledger := Eval vm_compute in (dispatch the_swap opened).2.
Lemma swapped_run : dispatch the_swap opened = (Ok tt, swapped).
Proof. vm_cast_no_check (eq_refl (@Ok DispatchError _ tt, swapped)). Qed.

Lemma swap_effect_witness : ∃ y, 1 ≤ y ∧ bal gold bob swapped = bal gold bob opened + y ∧
  bal Ztg bob swapped = bal Ztg bob opened - BASE.
Proof.
  destruct (swap_effect true bob 0 Ztg gold BASE (Some 1) None opened swapped)
    as (_ & p & wi & wo & x & y & _ & _ & _ & _ & _ & _ & _ & _ & (Hx & _ & Hlim & _) & (Hb1 & Hb2 & _) & _).
  - vm_compute. discriminate.
  - vm_compute. discriminate.
  - discriminate.
  - exact swapped_run.
  - exists y. subst x. exact (conj (Hlim 1 eq_refl) (conj Hb2 Hb1)).
Defined.

Lemma open_pools_not_drained_witness :
  keeps (min_balance gold) (bal gold 1001 opened) (bal gold 1001 (dispatch the_swap opened).2).
Proof.
  destruct (open_pools_not_drained the_swap opened 0 the_pool) as [Hk _].
  - intros i j. cbn [pool_account_id config]. destruct (Z.leb_spec 0 i), (Z.leb_spec 0 j); lia.
  - exact (proj2 the_pool_wf).
  - vm_compute. discriminate.
  - intros who id [= <-]. cbn [pool_account_id config]. unfold bob. destruct (Z.leb_spec 0 id); lia.
  - exact the_pool_stored.
  - reflexivity.
  - discriminate.
  - apply (Hk gold). vm_compute. right. left.
Defined.
End SwapsExample.

(** ** Observations *)
Module SwapsObservations.
Import SwapsExample.

(** Joining with an exact amount of shares compares the asset amount with the product of
    the balance and [MaxInRatio], not with the ratio of the balance: here the pool takes
    more of the asset than it has, where [MaxInRatio] is a third. *)
Definition flooded : State Ledger :=
  Eval vm_compute in (pool_join_with_exact_pool_amount (Some bob) 0 gold (30 * BASE) (500 * BASE) opened).2.
Example max_in_ratio_not_enforced :
  pool_join_with_exact_pool_amount (Some bob) 0 gold (30 * BASE) (500 * BASE) opened = (Ok tt, flooded) ∧
  2 * bal gold 1001 opened < bal gold 1001 flooded ∧
  pool_join_with_exact_asset_amount (Some bob) 0 gold (bal gold 1001 flooded - bal gold 1001 opened) 0 opened
    = (Err (Swaps_Error SW_MaxInRatio), opened).
Proof. split; [vm_compute; reflexivity|]. split; vm_compute; reflexivity. Qed.

(** [create_pool] makes a closed pool; its comment speaks of an initial active pool. *)
Example created_pool_is_closed : status <$> Pools created !! 0 = Some Closed.
Proof. vm_compute. reflexivity. Qed.

(** Destroying a pool leaves the shares with their holders, and any closed pool can be
    opened, also one that has been left by everybody. *)
Definition drained : State Ledger :=
  Eval vm_compute in (pool_exit (Some alice) 0 (100 * BASE) [1; 1; 1] created).2.
Example destroyed_pool_keeps_shares : bal (share 0) alice (destroy_pool 0 opened).2 = 100 * BASE.
Proof. vm_compute. reflexivity. Qed.
Example empty_pool_opens :
  iss (share 0) drained = 0 ∧ (open_pool 0 drained).1 = Ok tt ∧
  (pool_join (Some bob) 0 BASE [BASE; BASE; BASE] (open_pool 0 drained).2).1 = Err (Arithmetic DivisionByZero).
Proof. split_and!; vm_compute; reflexivity. Qed.

(** The formulas announce [DispatchError::Other] where they return arithmetic errors. *)
Example spot_price_fee_errors :
  calc_spot_price BASE BASE BASE BASE BASE = Err (Arithmetic DivisionByZero) ∧
  calc_spot_price BASE BASE BASE BASE (BASE + 1) = Err (Arithmetic Underflow) ∧
  bpow (2 ^ 64) (4 * BASE) = Err (Arithmetic Overflow).
Proof. split_and!; vm_compute; reflexivity. Qed.
End SwapsObservations.
