(* ===== verification/FixedDecimal.v ===== *)
(** * Decimal conversion of fixed numbers

    The conversions between balances, which are decimals with a fixed number of
    places, and the binary fixed point numbers of the [fixed] crate:
    [FromFixedDecimal], [FromFixedToDecimal] and their [Into] variants of
    [primitives/src/math/fixed.rs]. They go through strings. The crate's numbers
    are the class [FixedType]; strings are lists of characters. *)
From Stdlib Require Import Ascii.
From S2P Require Import Prelude Types Errors.

Abbreviation str := (list ascii).

(** ** Numbers of the [fixed] crate and the functions on them that the code calls *)

(** [inner_exp] and [ln] are [hydra_dx_math::transcendental]'s; a Boolean is the
    sign of an operand or a result. *)
Class FixedType (F : Type) := {
  fx_checked_add : F → F → option F;
  fx_checked_sub : F → F → option F;
  fx_checked_mul : F → F → option F;
  fx_checked_div : F → F → option F;
  fx_checked_from_num : Z → option F;
  fx_one : F;
  fx_is_zero : F → bool;
  fx_eqb : F → F → bool;
  fx_ltb : F → F → bool;
  fx_from_bits : Z → F;
  fx_from_str : str → option F;
  fx_to_string : F → str;
  inner_exp : F → bool → option F;
  ln : F → option (F * bool);
}.

(** ** Strings of the standard library *)

Definition dot : ascii := ".".
Definition digit_char (d : Z) : ascii := ascii_of_nat (48 + Z.to_nat d).
(** [char::to_digit(10)] *)
Definition to_digit (c : ascii) : option Z :=
  let n := Z.of_nat (nat_of_ascii c) in
  if (48 <=? n) && (n <=? 57) then Some (n - 48) else None.

(** [u128::to_string]: 39 digits are enough for 128 bits. *)
Fixpoint decimal_digits (fuel : nat) (n : Z) : str :=
  match fuel with
  | O => []
  | S fuel => if n <? 10 then [digit_char n]
              else decimal_digits fuel (n / 10) ++ [digit_char (n mod 10)]
  end.
Definition u128_to_string (n : Z) : str := decimal_digits 39 n.

(** [str::parse::<u128>]: an optional plus sign and at least one digit. *)
Fixpoint parse_digits (acc : Z) (s : str) : option Z :=
  match s with
  | [] => Some acc
  | c :: s =>
      match to_digit c with
      | Some d => if 10 * acc + d <=? u128_max then parse_digits (10 * acc + d) s else None
      | None => None
      end
  end.
Definition parse_u128 (s : str) : option Z :=
  let s := match s with c :: (_ :: _) as t => if Ascii.eqb c "+" then tail s else s | _ => s end in
  match s with [] => None | _ => parse_digits 0 s end.

(** [str::split('.')] *)
Fixpoint split_dot (s : str) : list str :=
  match s with
  | [] => [[]]
  | c :: s =>
      if Ascii.eqb c dot then [] :: split_dot s
      else match split_dot s with
           | part :: parts => (c :: part) :: parts
           | [] => [[c]]
           end
  end.

(** ** The conversions *)
Section Conversions.
Context {F : Type} `{FixedType F}.

(** [from_fixed_decimal]: the string that is parsed, and the number. *)
Definition fixed_decimal_string (decimal : Z) (places : nat) : str :=
  let decimal_string := u128_to_string decimal in
  if (length decimal_string <=? places)%nat then
    ["0"%char; dot] ++ replicate (places - length decimal_string) "0"%char ++ decimal_string
  else
    let i := (length decimal_string - places)%nat in
    take i decimal_string ++ dot :: drop i decimal_string.
Definition from_fixed_decimal (decimal : Z) (places : nat) : option F :=
  fx_from_str (fixed_decimal_string decimal places).
Definition to_fixed_from_fixed_decimal (decimal : Z) (places : nat) : option F :=
  from_fixed_decimal decimal places.

(** The fractional part cut or filled to [decimals] digits, and whether to round up. *)
Definition new_frac_part (frac_part : str) (decimals : nat) : result string (str * bool) :=
  match (length frac_part ?= decimals)%nat with
  | Lt => Ok (frac_part ++ replicate (decimals - length frac_part) "0"%char, false)
  | Gt =>
      match frac_part !! decimals ≫= to_digit with
      | Some round_digit => Ok (take decimals frac_part, 5 <=? round_digit)
      | None => Err "The char at decimals_usize was not found, although the frac_part length is higher than decimals_usize."%string
      end
  | Eq => Ok (frac_part, false)
  end.
(** The target type is that of balances, [u128], so that the last conversion cannot fail. *)
Definition from_fixed_to_fixed_decimal (fixed : F) (decimals : nat) : result string Z :=
  match split_dot (fx_to_string fixed) with
  | [] => Err "Empty string provided"%string
  | int_part :: parts =>
      let frac_part := match parts with p :: _ => p | [] => ["0"%char] end in
      match tail parts with
      | _ :: _ => Err "The string contains multiple decimal points"%string
      | [] =>
          match new_frac_part frac_part decimals with
          | Err e => Err e
          | Ok (frac, increment_int_part) =>
              match parse_u128 (int_part ++ frac) with
              | None => Err "Failed to parse the fixed decimal representation into u128"%string
              | Some fixed_decimal =>
                  Ok (if (increment_int_part : bool) then saturating_add u128_max fixed_decimal 1
                      else fixed_decimal)
              end
          end
      end
  end.
Definition to_fixed_decimal (fixed : F) (places : nat) : result string Z :=
  from_fixed_to_fixed_decimal fixed places.
End Conversions.

(** ** The value of a string of digits *)

Definition all_digits (s : str) : Prop := Forall (λ c, is_Some (to_digit c)) s.
Definition digits_value (s : str) : Z :=
  foldl (λ acc c, 10 * acc + default 0 (to_digit c)) 0 s.
Definition places_of (s : str) : Z := 10 ^ Z.of_nat (length s).

Lemma places_pos s : 0 < places_of s.
Proof. unfold places_of. lia. Qed.
Lemma places_app s t : places_of (s ++ t) = places_of s * places_of t.
Proof. unfold places_of. rewrite length_app, Nat2Z.inj_add, Z.pow_add_r by lia. done. Qed.
Lemma places_cons c s : places_of (c :: s) = 10 * places_of s.
Proof. unfold places_of. cbn [length]. rewrite Nat2Z.inj_succ, Z.pow_succ_r by lia. done. Qed.

Lemma digit_roundtrip d : 0 ≤ d < 10 → to_digit (digit_char d) = Some d.
Proof.
  intros Hd. unfold to_digit, digit_char. rewrite nat_ascii_embedding by lia.
  rewrite (proj2 (Z.leb_le _ _)), (proj2 (Z.leb_le _ _)) by lia. cbn. f_equal. lia.
Qed.

Lemma to_digit_range c d : to_digit c = Some d → 0 ≤ d < 10.
Proof. unfold to_digit. repeat case_match; intros; simplify_eq. lia. Qed.

Lemma foldl_digits acc s :
  foldl (λ acc c, 10 * acc + default 0 (to_digit c)) acc s = acc * places_of s + digits_value s.
Proof.
  unfold digits_value. revert acc. induction s as [|c s IH]; intros acc; cbn [foldl].
  - unfold places_of. cbn. lia.
  - rewrite IH, (IH (10 * 0 + _)), places_cons. lia.
Qed.

Lemma value_app s t : digits_value (s ++ t) = digits_value s * places_of t + digits_value t.
Proof. unfold digits_value at 1. rewrite foldl_app. by rewrite foldl_digits. Qed.
Lemma value_cons c s :
  digits_value (c :: s) = default 0 (to_digit c) * places_of s + digits_value s.
Proof. unfold digits_value at 1. cbn [foldl]. rewrite foldl_digits. ring. Qed.
Lemma value_zeros n : digits_value (replicate n "0"%char) = 0.
Proof.
  induction n; [done|]. cbn [replicate]. rewrite value_cons, IHn. by change (to_digit "0") with (Some 0).
Qed.
Lemma zeros_digits n : all_digits (replicate n "0"%char).
Proof. apply Forall_replicate. by eexists. Qed.

Lemma value_range s : all_digits s → 0 ≤ digits_value s < places_of s.
Proof.
  induction 1 as [|c s [d Hd] _ IH]; [done|]. rewrite value_cons, places_cons, Hd. cbn [default id].
  apply to_digit_range in Hd. nia.
Qed.

Lemma decimal_digits_value fuel n :
  0 ≤ n < 10 ^ Z.of_nat fuel →
  all_digits (decimal_digits fuel n) ∧ digits_value (decimal_digits fuel n) = n ∧
  ((0 < fuel)%nat → decimal_digits fuel n ≠ []).
Proof.
  revert n. induction fuel as [|fuel IH]; intros n Hn; [cbn in *; split_and!; [constructor|unfold digits_value; cbn; lia|lia]|].
  rewrite Nat2Z.inj_succ, Z.pow_succ_r in Hn by lia. cbn [decimal_digits].
  destruct (Z.ltb_spec n 10) as [Hlt|Hge].
  - split; [repeat constructor; rewrite digit_roundtrip by lia; eauto|]. split; [|done].
    rewrite value_cons, digit_roundtrip by lia. change (places_of []) with 1. unfold digits_value. cbn. lia.
  - pose proof (Z.mod_pos_bound n 10 ltac:(lia)) as Hmod.
    destruct (IH (n / 10)) as (Hd & Hv & _).
    { split; [apply Z.div_pos; lia|]. apply Z.div_lt_upper_bound; lia. }
    split; [|split].
    + apply Forall_app. split; [done|]. repeat constructor. rewrite digit_roundtrip by lia. eauto.
    + rewrite value_app, Hv, value_cons, digit_roundtrip by lia. cbn [default id].
      rewrite places_cons. change (places_of []) with 1. change (digits_value []) with 0.
      pose proof (Z.div_mod n 10). lia.
    + intros _ Hnil. by apply app_nil in Hnil as [_ ?].
Qed.

Lemma u128_string n :
  in_u128 n → all_digits (u128_to_string n) ∧ digits_value (u128_to_string n) = n ∧ u128_to_string n ≠ [].
Proof.
  intros [Hn Hm]. destruct (decimal_digits_value 39 n) as (? & ? & Hne).
  - split; [done|]. assert (u128_max < 10 ^ Z.of_nat 39) by (vm_compute; done). lia.
  - split_and!; [done..|]. apply Hne. lia.
Qed.

(** ** Parsing *)

Lemma parse_digits_value acc s :
  all_digits s → 0 ≤ acc →
  parse_digits acc s =
    (if decide (s = []) then Some acc
     else if acc * places_of s + digits_value s <=? u128_max
          then Some (acc * places_of s + digits_value s) else None).
Proof.
  intros Hs. revert acc. induction Hs as [|c s [d Hd] Hs IH]; intros acc Hacc; cbn [parse_digits]; [done|].
  rewrite decide_False, Hd, places_cons, value_cons, Hd by done. cbn [default id].
  pose proof (to_digit_range c d Hd) as Hr. pose proof (value_range s Hs) as Hv.
  pose proof (places_pos s) as Hp.
  replace (acc * (10 * places_of s) + (d * places_of s + digits_value s))
    with ((10 * acc + d) * places_of s + digits_value s) by lia.
  destruct (Z.leb_spec (10 * acc + d) u128_max) as [Hle|Hgt].
  - rewrite IH by lia. destruct (decide (s = [])) as [->|]; [|done].
    change (places_of []) with 1. change (digits_value []) with 0.
    replace ((10 * acc + d) * 1 + 0) with (10 * acc + d) by lia.
    by apply Z.leb_le in Hle; rewrite Hle.
  - destruct (Z.leb_spec ((10 * acc + d) * places_of s + digits_value s) u128_max) as [Hle|]; [nia|done].
Qed.

Lemma parse_value s :
  all_digits s → s ≠ [] →
  parse_u128 s = if digits_value s <=? u128_max then Some (digits_value s) else None.
Proof.
  intros Hs Hne. unfold parse_u128.
  assert (∀ c t, s = c :: t → Ascii.eqb c "+" = false) as Hplus.
  { intros c t ->. apply Forall_cons in Hs as [[d Hd] _].
    destruct (Ascii.eqb_spec c "+") as [->|]; [by vm_compute in Hd|done]. }
  destruct s as [|c s]; [done|]. rewrite (Hplus c s) by done.
  replace (match s with [] => c :: s | _ :: _ => c :: s end) with (c :: s) by (by destruct s).
  rewrite parse_digits_value by done. by rewrite decide_False by done.
Qed.

Lemma digit_not_dot c : is_Some (to_digit c) → Ascii.eqb c dot = false.
Proof.
  intros [d Hd]. destruct (Ascii.eqb_spec c dot) as [->|]; [by vm_compute in Hd|done].
Qed.

Lemma split_digits s : all_digits s → split_dot s = [s].
Proof.
  induction 1 as [|c s Hc _ IH]; [done|]. cbn [split_dot]. by rewrite digit_not_dot, IH.
Qed.
Lemma split_number ip fp : all_digits ip → all_digits fp → split_dot (ip ++ dot :: fp) = [ip; fp].
Proof.
  intros Hi Hf. induction Hi as [|c s Hc _ IH]; cbn [split_dot app].
  - change (Ascii.eqb dot dot) with true. cbv iota. by rewrite split_digits.
  - by rewrite digit_not_dot, IH.
Qed.

(** ** Rounding *)

(** [x] in units of [1 / q], rounded to the nearest unit of [1 / p], half up. *)
Definition rescale (x q p : Z) : Z := (2 * x * p + q) / (2 * q).

Lemma rescale_fill x q k : 0 < q → rescale x q (q * k) = x * k.
Proof.
  intros Hq. unfold rescale. replace (2 * x * (q * k) + q) with ((x * k) * (2 * q) + q) by ring.
  rewrite Z.div_add_l by lia. rewrite Z.div_small by lia. lia.
Qed.

Lemma rescale_cut a d b p t :
  0 < p → 0 < t → 0 ≤ d < 10 → 0 ≤ b < t →
  rescale (a * (10 * t) + d * t + b) (p * (10 * t)) p = a + (if 5 <=? d then 1 else 0).
Proof.
  intros Hp Ht Hd Hb. unfold rescale.
  replace (2 * (a * (10 * t) + d * t + b) * p + p * (10 * t))
    with (p * (a * (20 * t) + (2 * d * t + 2 * b + 10 * t))) by ring.
  replace (2 * (p * (10 * t))) with (p * (20 * t)) by ring.
  rewrite Z.div_mul_cancel_l by lia. rewrite Z.div_add_l by lia. f_equal.
  destruct (Z.leb_spec 5 d).
  - symmetry. apply Z.div_unique with (2 * d * t + 2 * b + 10 * t - 20 * t); [nia|ring].
  - apply Z.div_small. nia.
Qed.

Lemma rescale_whole i x q p : 0 < q → rescale (i * q + x) q p = i * p + rescale x q p.
Proof.
  intros Hq. unfold rescale. replace (2 * (i * q + x) * p + q) with ((i * p) * (2 * q) + (2 * x * p + q)) by ring.
  by rewrite Z.div_add_l by lia.
Qed.

Lemma new_frac_value fp places :
  all_digits fp →
  ∃ frac up, new_frac_part fp places = Ok (frac, up) ∧ all_digits frac ∧ length frac = places ∧
    digits_value frac = digits_value fp * 10 ^ Z.of_nat places / places_of fp ∧
    digits_value frac + (if (up : bool) then 1 else 0) =
      rescale (digits_value fp) (places_of fp) (10 ^ Z.of_nat places).
Proof.
  intros Hf. unfold new_frac_part.
  assert (∀ k, (length fp + k = places)%nat →
    digits_value (fp ++ replicate k "0"%char) = digits_value fp * 10 ^ Z.of_nat places / places_of fp ∧
    digits_value (fp ++ replicate k "0"%char) + 0 =
      rescale (digits_value fp) (places_of fp) (10 ^ Z.of_nat places)) as Hfill.
  { intros k Hk. rewrite value_app, value_zeros. pose proof (places_pos fp).
    replace (10 ^ Z.of_nat places) with (places_of fp * places_of (replicate k "0"%char)).
    - rewrite rescale_fill by done. split; [|lia].
      replace (digits_value fp * (places_of fp * places_of (replicate k "0"%char)))
        with (digits_value fp * places_of (replicate k "0"%char) * places_of fp) by ring.
      rewrite Z.div_mul by lia. lia.
    - rewrite <- places_app. unfold places_of. rewrite length_app, length_replicate. by rewrite Hk. }
  destruct (Nat.compare_spec (length fp) places) as [Heq|Hlt|Hgt].
  - exists fp, false. do 3 (split; [done|]). specialize (Hfill 0%nat).
    cbn [replicate] in Hfill. rewrite app_nil_r in Hfill. apply Hfill. lia.
  - eexists _, false. split; [done|]. split; [apply Forall_app; split; [done|apply zeros_digits]|].
    split; [rewrite length_app, length_replicate; lia|]. apply Hfill. lia.
  - destruct (lookup_lt_is_Some_2 fp places Hgt) as [c Hc].
    pose proof (Forall_lookup_1 _ _ _ _ Hf Hc) as [d Hd]. rewrite Hc. cbn [mbind option_bind]. rewrite Hd.
    exists (take places fp), (5 <=? d). split; [done|]. split; [by apply Forall_take|].
    split; [rewrite length_take; lia|].
    pose proof (Forall_drop _ (S places) _ Hf) as Hb. apply value_range in Hb.
    pose proof (places_pos (drop (S places) fp)) as Ht. pose proof (to_digit_range c d Hd) as Hr.
    assert (places_of (take places fp) = 10 ^ Z.of_nat places) as HP
      by (unfold places_of; rewrite length_take, Nat.min_l by lia; done).
    set (tl := drop (S places) fp) in *.
    assert (digits_value fp = digits_value (take places fp) * (10 * places_of tl) + d * places_of tl
      + digits_value tl) as ->.
    { rewrite <- (take_drop_middle fp places c Hc) at 1.
      rewrite value_app, value_cons, places_cons, Hd. cbn [default id]. subst tl. lia. }
    assert (places_of fp = 10 ^ Z.of_nat places * (10 * places_of tl)) as ->.
    { rewrite <- (take_drop_middle fp places c Hc) at 1. by rewrite places_app, places_cons, HP. }
    rewrite rescale_cut by lia. split; [|done].
    rewrite (Z.mul_comm (10 ^ _)), Z.div_mul_cancel_r by lia.
    apply Z.div_unique with (d * places_of tl + digits_value tl); [nia|ring].
Qed.

Section Values.
Context {F : Type} `{FixedType F}.

(** [f] prints as the digits [ip], and [fp] after the point. *)
Definition prints (f : F) (ip fp : str) : Prop :=
  all_digits ip ∧ all_digits fp ∧ ip ≠ [] ∧
  (fx_to_string f = ip ++ dot :: fp ∨ fx_to_string f = ip ∧ fp = ["0"%char]).

Lemma split_printed f ip fp :
  prints f ip fp → split_dot (fx_to_string f) = [ip; fp] ∨ split_dot (fx_to_string f) = [ip] ∧ fp = ["0"%char].
Proof.
  intros (Hi & Hf & _ & [->|[-> ->]]); [left; by apply split_number|right; by rewrite split_digits].
Qed.

Lemma to_fixed_decimal_value f ip fp places :
  prints f ip fp →
  let value := digits_value (ip ++ fp) in
  to_fixed_decimal f places =
    if value * 10 ^ Z.of_nat places / places_of fp <=? u128_max
    then Ok (Z.min u128_max (rescale value (places_of fp) (10 ^ Z.of_nat places)))
    else Err "Failed to parse the fixed decimal representation into u128"%string.
Proof.
  intros Hp value. pose proof Hp as (Hi & Hf & Hne & _).
  destruct (new_frac_value fp places Hf) as (frac & up & Hnf & Hfr & Hlen & Hv & Hr).
  pose proof (places_pos fp) as Hq.
  assert (places_of frac = 10 ^ Z.of_nat places) as HP by (unfold places_of; by rewrite Hlen).
  assert (value * 10 ^ Z.of_nat places / places_of fp = digits_value (ip ++ frac)) as ->.
  { subst value. rewrite !value_app, HP, Hv, <- Z.div_add_l by lia. f_equal. ring. }
  assert (rescale value (places_of fp) (10 ^ Z.of_nat places) =
    digits_value (ip ++ frac) + (if up then 1 else 0)) as ->.
  { subst value. rewrite !value_app, HP, rescale_whole, <- Hr by done. lia. }
  unfold to_fixed_decimal, from_fixed_to_fixed_decimal.
  assert (parse_u128 (ip ++ frac) = if digits_value (ip ++ frac) <=? u128_max
    then Some (digits_value (ip ++ frac)) else None) as Hparse.
  { apply parse_value; [by apply Forall_app|]. intros Hnil. by apply app_nil in Hnil as [? _]. }
  assert (0 ≤ digits_value (ip ++ frac)) by (apply value_range; by apply Forall_app).
  destruct (split_printed f ip fp Hp) as [->|[-> ->]]; cbn [tail]; rewrite Hnf, Hparse;
    destruct (Z.leb_spec (digits_value (ip ++ frac)) u128_max); try done;
    f_equal; unfold saturating_add; destruct up; lia.
Qed.

(** [s] is the string of digits around a point whose value is [x / q]. *)
Definition denotes (s : str) (x q : Z) : Prop :=
  ∃ ip fp, s = ip ++ dot :: fp ∧ all_digits ip ∧ all_digits fp ∧
    digits_value (ip ++ fp) * q = x * places_of fp.

Lemma fixed_decimal_string_value x places :
  in_u128 x → denotes (fixed_decimal_string x places) x (10 ^ Z.of_nat places).
Proof.
  intros Hx. destruct (u128_string x Hx) as (Hd & Hv & _). unfold fixed_decimal_string.
  set (s := u128_to_string x) in *. destruct (Nat.leb_spec (length s) places) as [Hle|Hgt].
  - exists ["0"%char], (replicate (places - length s) "0"%char ++ s). split; [done|].
    split; [repeat constructor; by eexists|]. split; [apply Forall_app; split; [apply zeros_digits|done]|].
    rewrite !value_app, value_zeros, Hv. change (digits_value ["0"%char]) with 0.
    unfold places_of. rewrite length_app, length_replicate. rewrite Nat.sub_add by done. lia.
  - exists (take (length s - places) s), (drop (length s - places) s). split; [done|].
    split; [by apply Forall_take|]. split; [by apply Forall_drop|]. rewrite take_drop, Hv.
    unfold places_of. rewrite length_drop. do 2 f_equal. lia.
Qed.

End Values.

(** Documented precision of the number type: what it parses it prints with an error
    below half a unit of the last of [places] decimal places. *)
Class FixedPrints (F : Type) `{FixedType F} (places : nat) := {
  fx_print_parse s y q f :
    0 < q → denotes s y q → fx_from_str s = Some f →
    ∃ ip fp, prints f ip fp ∧
      2 * 10 ^ Z.of_nat places * Z.abs (digits_value (ip ++ fp) * q - y * places_of fp)
        < q * places_of fp;
}.

Section Theorems.
Context {F : Type} `{FixedType F}.

(** (C28) Converting a fixed point number to a decimal balance rounds the printed
    value to the nearest multiple of the smallest unit, half up, whatever number of
    digits the number prints with, and fails exactly when the value cut to that unit
    does not fit into 128 bits. *)
Theorem to_fixed_decimal_rounds f ip fp places :
  prints f ip fp →
  let value := digits_value (ip ++ fp) in
  to_fixed_decimal f places =
    if value * 10 ^ Z.of_nat places / places_of fp <=? u128_max
    then Ok (Z.min u128_max (rescale value (places_of fp) (10 ^ Z.of_nat places)))
    else Err "Failed to parse the fixed decimal representation into u128"%string.
Proof. apply to_fixed_decimal_value. Qed.

(** A balance survives the round trip through fixed point numbers: when the
    number type prints what it parsed with an error below half a unit of the last
    decimal place, converting a balance of at most 128 bits to a fixed point number
    and back returns the balance. *)
Theorem decimal_roundtrip `{!FixedPrints F places} x f :
  in_u128 x → to_fixed_from_fixed_decimal x places = Some f → to_fixed_decimal f places = Ok x.
Proof.
  intros Hx Hf. pose proof (fixed_decimal_string_value x places Hx) as Hs.
  assert (0 < 10 ^ Z.of_nat places) as H10 by lia.
  destruct (fx_print_parse _ _ _ _ H10 Hs Hf) as (ip & fp & Hp & Hclose).
  rewrite (to_fixed_decimal_value f ip fp) by done.
  pose proof (places_pos fp) as Hq. set (q := places_of fp) in *.
  set (p := 10 ^ Z.of_nat places) in *. assert (0 < p) by (subst p; lia).
  set (v := digits_value (ip ++ fp)) in *.
  assert (2 * Z.abs (v * p - x * q) < q) as Hc by nia.
  assert (rescale v q p = x) as ->.
  { unfold rescale. symmetry. apply Z.div_unique with (2 * v * p + q - 2 * q * x); [nia|ring]. }
  destruct Hx as [_ Hx]. assert (v * p / q < x + 1) by (apply Z.div_lt_upper_bound; nia).
  rewrite (proj2 (Z.leb_le _ _)) by lia. f_equal. lia.
Qed.
End Theorems.

(** ** A concrete number type

    128 bits with 80 fractional bits, as [FixedU128<U80>]: a number is its bits.
    Parsing rounds to the nearest number, printing is exact. The exponential function
    and the logarithm are crude series, good enough to evaluate examples. *)
Module FixedExample.
Definition unit80 : Z := 2 ^ 80.
Definition fits (x : Z) : option N :=
  if (0 <=? x) && (x <? 2 ^ 128) then Some (Z.to_N x) else None.
Lemma fits_inv x n : fits x = Some n → 0 ≤ x < 2 ^ 128 ∧ Z.of_N n = x.
Proof.
  unfold fits. destruct (Z.leb_spec 0 x), (Z.ltb_spec x (2 ^ 128)); cbn; intros; simplify_eq. lia.
Qed.

Definition parse_fixed (s : str) : option N :=
  match split_dot s with
  | [ip; fp] =>
      let q := 10 ^ Z.of_nat (length fp) in
      fits ((2 * digits_value (ip ++ fp) * unit80 + q) / (2 * q))
  | _ => None
  end.
Fixpoint frac_digits (k : nat) (x : Z) : str :=
  match k with
  | O => []
  | S k => digit_char (x * 10 / unit80) :: frac_digits k (x * 10 mod unit80)
  end.
Definition print_fixed (x : Z) : str :=
  u128_to_string (x / unit80) ++ dot :: frac_digits 80 (x mod unit80).

Definition mul80 (x y : Z) : Z := x * y / unit80.
(** The sum of [x ^ k / k!]. *)
Fixpoint exp_series (fuel : nat) (k term x : Z) : Z :=
  match fuel with
  | O => term
  | S fuel => term + exp_series fuel (k + 1) (mul80 term x / k) x
  end.
Definition exp80 (x : Z) : Z := exp_series 80 1 unit80 x.
Definition exp_signed (x : Z) (neg : bool) : option N :=
  if (neg : bool) then fits (unit80 * unit80 / exp80 x) else fits (exp80 x).
(** Bisection for the exponent. *)
Fixpoint ln_search (fuel : nat) (lo hi y : Z) : Z :=
  match fuel with
  | O => lo
  | S fuel =>
      let mid := (lo + hi) / 2 in
      if exp80 mid <=? y then ln_search fuel mid hi y else ln_search fuel lo mid y
  end.
Definition ln80 (y : Z) : option (N * bool) :=
  if y <=? 0 then None
  else if unit80 <=? y then Some (Z.to_N (ln_search 90 0 (40 * unit80) y), false)
  else Some (Z.to_N (ln_search 90 0 (40 * unit80) (unit80 * unit80 / y)), true).

#[export] Instance fixed80 : FixedType N := {
  fx_checked_add x y := fits (Z.of_N x + Z.of_N y);
  fx_checked_sub x y := fits (Z.of_N x - Z.of_N y);
  fx_checked_mul x y := fits (mul80 (Z.of_N x) (Z.of_N y));
  fx_checked_div x y := if (y =? 0)%N then None else fits (Z.of_N x * unit80 / Z.of_N y);
  fx_checked_from_num n := fits (n * unit80);
  fx_one := Z.to_N unit80;
  fx_is_zero x := (x =? 0)%N;
  fx_eqb := N.eqb;
  fx_ltb := N.ltb;
  fx_from_bits := Z.to_N;
  fx_from_str := parse_fixed;
  fx_to_string x := print_fixed (Z.of_N x);
  inner_exp x := exp_signed (Z.of_N x);
  ln x := ln80 (Z.of_N x);
}.

Lemma frac_digits_value k x :
  0 ≤ x < unit80 →
  all_digits (frac_digits k x) ∧ length (frac_digits k x) = k ∧
  digits_value (frac_digits k x) = x * 10 ^ Z.of_nat k / unit80.
Proof.
  assert (0 < unit80) as Hu by (vm_compute; done).
  revert x. induction k as [|k IH]; intros x Hx; cbn [frac_digits].
  - split_and!; [constructor|done|]. change (digits_value []) with 0. symmetry. apply Z.div_small. lia.
  - assert (0 ≤ x * 10 / unit80 < 10) as Hd
      by (split; [apply Z.div_pos|apply Z.div_lt_upper_bound]; lia).
    destruct (IH (x * 10 mod unit80)) as (Ha & Hl & Hv); [by apply Z.mod_pos_bound|].
    split; [constructor; [rewrite digit_roundtrip by done; eauto|done]|].
    split; [cbn [length]; by rewrite Hl|]. rewrite value_cons, digit_roundtrip, Hv by done.
    cbn [default id]. unfold places_of. rewrite Hl, Nat2Z.inj_succ, Z.pow_succ_r by lia.
    rewrite <- Z.div_add_l by lia. f_equal. pose proof (Z.div_mod (x * 10) unit80 ltac:(lia)). nia.
Qed.

Lemma print_value x :
  0 ≤ x < 2 ^ 128 →
  ∃ ip fp, prints (Z.to_N x) ip fp ∧ digits_value (ip ++ fp) * unit80 = x * places_of fp.
Proof.
  intros Hx. assert (0 < unit80) as Hu by (vm_compute; done).
  destruct (u128_string (x / unit80)) as (Hi & Hiv & Hne).
  { split; [apply Z.div_pos; lia|]. apply Z.lt_succ_r, Z.div_lt_upper_bound; [done|].
    change (2 ^ 128) with (u128_max + 1) in Hx. unfold u128_max, unit80 in *. lia. }
  destruct (frac_digits_value 80 (x mod unit80)) as (Hf & Hl & Hfv); [by apply Z.mod_pos_bound|].
  eexists _, _. split; [split; [exact Hi|]; split; [exact Hf|]; split; [done|]; left; cbn; by rewrite Z2N.id by lia|].
  rewrite value_app, Hiv, Hfv. unfold places_of. rewrite Hl.
  assert (10 ^ Z.of_nat 80 = unit80 * 5 ^ 80) as -> by (vm_compute; done).
  replace (x mod unit80 * (unit80 * 5 ^ 80)) with (x mod unit80 * 5 ^ 80 * unit80) by ring.
  rewrite Z.div_mul by lia. pose proof (Z.div_mod x unit80 ltac:(lia)). nia.
Qed.

(** Parsing is exact up to half a bit, so that [10] decimal places survive. *)
Lemma rounded_close r v0 q0 v q y q1 :
  0 < q0 → 0 < q → 0 < q1 → r = (2 * v0 * unit80 + q0) / (2 * q0) →
  v0 * q = y * q0 → v * unit80 = r * q1 → 2 * 10 ^ 10 * Z.abs (v * q - y * q1) < q * q1.
Proof.
  intros Hq0 Hq Hq1 Hr Hy Hv.
  assert (- q0 ≤ 2 * (r * q0 - v0 * unit80) ≤ q0) as Hb.
  { pose proof (Z.div_mod (2 * v0 * unit80 + q0) (2 * q0) ltac:(lia)) as Hd.
    pose proof (Z.mod_pos_bound (2 * v0 * unit80 + q0) (2 * q0) ltac:(lia)). rewrite <- Hr in Hd. lia. }
  assert (unit80 * q0 * (v * q - y * q1) = q * q1 * (r * q0 - v0 * unit80)) as He.
  { replace (unit80 * q0 * (v * q - y * q1)) with (v * unit80 * q * q0 - y * q0 * q1 * unit80) by ring.
    rewrite Hv, <- Hy. ring. }
  set (e := v * q - y * q1) in *. set (b := r * q0 - v0 * unit80) in *.
  assert (2 * unit80 * Z.abs e ≤ q * q1) as Ha.
  { assert (2 * (unit80 * q0 * Z.abs e) ≤ q * q1 * q0); [|nia].
    replace (unit80 * q0 * Z.abs e) with (Z.abs (q * q1 * b)); [|rewrite <- He, !Z.abs_mul, (Z.abs_eq unit80), (Z.abs_eq q0); [done|lia|by vm_compute]].
    rewrite !Z.abs_mul, (Z.abs_eq q), (Z.abs_eq q1) by lia. nia. }
  assert (10 ^ 10 < unit80) by (vm_compute; done). nia.
Qed.

#[export] Instance fixed80_prints : FixedPrints N 10.
Proof.
  split. intros s y q f Hq (ip0 & fp0 & -> & Hi & Hf & Hv) Hp.
  cbn in Hp. unfold parse_fixed in Hp. rewrite split_number in Hp by done.
  fold (places_of fp0) in Hp. pose proof (places_pos fp0) as Hq0. apply fits_inv in Hp as [Hr Hfr].
  set (r := (2 * digits_value (ip0 ++ fp0) * unit80 + places_of fp0) / (2 * places_of fp0)) in *.
  destruct (print_value r) as (ip & fp & Hpr & Hex); [done|].
  rewrite <- Hfr, N2Z.id in Hpr. exists ip, fp. split; [done|].
  change (10 ^ Z.of_nat 10) with (10 ^ 10).
  by apply (rounded_close r (digits_value (ip0 ++ fp0)) (places_of fp0)); auto using places_pos.
Qed.

Lemma decimal_roundtrip_witness :
  from_option (λ f, to_fixed_decimal f 10) (Err "no number"%string)
    (to_fixed_from_fixed_decimal (F := N) 12345678901234 10) = Ok 12345678901234.
Proof.
  destruct (to_fixed_from_fixed_decimal (F := N) 12345678901234 10) as [f|] eqn:Hf.
  - cbn [from_option]. apply (decimal_roundtrip 12345678901234 f); [|exact Hf].
    split; vm_compute; discriminate.
  - exfalso. vm_compute in Hf. discriminate Hf.
Defined.

Definition third : Z := 2 * unit80 / 3.
Lemma third_range : 0 ≤ third < unit80.
Proof. split; vm_compute; [discriminate|reflexivity]. Qed.
Lemma third_prints : prints (Z.to_N third) (u128_to_string 0) (frac_digits 80 third).
Proof.
  split; [repeat constructor; by eexists|].
  split; [exact (proj1 (frac_digits_value 80 third third_range))|].
  split; [vm_compute; discriminate|]. left. vm_compute. reflexivity.
Qed.
Lemma to_fixed_decimal_rounds_witness :
  let value := digits_value (u128_to_string 0 ++ frac_digits 80 third) in
  to_fixed_decimal (Z.to_N third) 10 =
    (if value * 10 ^ Z.of_nat 10 / places_of (frac_digits 80 third) <=? u128_max
     then Ok (Z.min u128_max (rescale value (places_of (frac_digits 80 third)) (10 ^ Z.of_nat 10)))
     else Err "Failed to parse the fixed decimal representation into u128"%string).
Proof. exact (to_fixed_decimal_rounds (Z.to_N third) (u128_to_string 0) (frac_digits 80 third) 10 third_prints). Defined.
Example third_rounds : to_fixed_decimal (Z.to_N third) 10 = Ok 6666666667.
Proof. vm_compute. reflexivity. Qed.
End FixedExample.
