(* ===== verification/NeoMath.v ===== *)
(** * The formulas of the automated market maker

    [zrml/neo-swaps/src/math.rs]: the LMSR formulas over fixed point numbers and
    their wrappers over balances. The exponential function and the logarithm are
    those of [FixedType]. *)
From S2P Require Import Prelude Types Errors FixedDecimal.

Section Math.
Context {F : Type} `{FixedType F}.

(** [FixedType::from_bits(0x20_72EC_ECDA_6EBE_EACC_40C7)] *)
Definition EXP_OVERFLOW_THRESHOLD : F := fx_from_bits 0x2072ECECDA6EBEEACC40C7.

(** [0.367879441171442321595523770161460867445] *)
Definition e_inverse_string : str :=
  String.list_ascii_of_string "0.367879441171442321595523770161460867445".

(** [transcendental::exp] *)
Definition exp (operand : F) (neg : bool) : option F :=
  if fx_eqb operand fx_one && neg then fx_from_str e_inverse_string
  else inner_exp operand neg.

Definition to_fixed (value : Balance) : option F :=
  to_fixed_from_fixed_decimal value (Z.to_nat DECIMALS).
Definition from_fixed (value : F) : option Balance :=
  match to_fixed_decimal value (Z.to_nat DECIMALS) with Ok x => Some x | Err _ => None end.

(** *** Over fixed point numbers *)

Definition calculate_buy_ln_argument_fixed (reserve amount_in liquidity : F) : option F :=
  x_over_b ← fx_checked_div amount_in liquidity;
  exp_x_over_b ← exp x_over_b false;
  r_over_b ← fx_checked_div reserve liquidity;
  exp_neg_r_over_b ←
    (if fx_ltb r_over_b EXP_OVERFLOW_THRESHOLD then
       q ← fx_checked_div reserve liquidity; exp q true
     else fx_checked_from_num 0);
  sum ← fx_checked_add exp_x_over_b exp_neg_r_over_b;
  one ← fx_checked_from_num 1;
  fx_checked_sub sum one.

Definition calculate_swap_amount_out_for_buy_fixed (reserve amount_in liquidity : F) : option F :=
  inside_ln ← calculate_buy_ln_argument_fixed reserve amount_in liquidity;
  '(ln_result, ln_neg) ← ln inside_ln;
  blob ← fx_checked_mul liquidity ln_result;
  reserve_plus_blob ←
    (if (ln_neg : bool) then fx_checked_sub reserve blob else fx_checked_add reserve blob);
  fx_checked_sub reserve_plus_blob amount_in.

Definition calculate_swap_amount_out_for_sell_fixed (reserve amount_in liquidity : F) : option F :=
  if fx_is_zero reserve then None
  else
    x_over_b ← fx_checked_div amount_in liquidity;
    exp_neg_x_over_b ← exp x_over_b true;
    r_over_b ← fx_checked_div reserve liquidity;
    exp_r_over_b ← exp r_over_b false;
    sum ← fx_checked_add exp_neg_x_over_b exp_r_over_b;
    one ← fx_checked_from_num 1;
    inside_ln ← fx_checked_sub sum one;
    '(ln_result, ln_neg) ← ln inside_ln;
    blob ← fx_checked_mul liquidity ln_result;
    if (ln_neg : bool) then fx_checked_add reserve blob else fx_checked_sub reserve blob.

Definition calculate_spot_price_fixed (reserve liquidity : F) : option F :=
  q ← fx_checked_div reserve liquidity; exp q true.

(** [Iterator::max] *)
Definition fx_max (l : list F) : option F :=
  match l with
  | [] => None
  | x :: l => Some (foldl (λ acc y, if fx_ltb y acc then acc else y) x l)
  end.

Definition calculate_reserve_from_spot_prices_fixed (amount : F) (spot_prices : list F)
    : option (F * list F) :=
  tmp_reserves ← mapM (λ price, fst <$> ln price) spot_prices;
  max_value ← fx_max tmp_reserves;
  liquidity ← fx_checked_div amount max_value;
  reserves ← mapM (λ r, fx_checked_mul r liquidity) tmp_reserves;
  Some (liquidity, reserves).

(** *** Over balances *)

Definition math_res {A} (o : option A) : Res A := ok_orR o NS_MathError.

Definition calculate_swap_amount_out_for_buy (reserve amount_in liquidity : Balance) : Res Balance :=
  math_res (r ← to_fixed reserve; x ← to_fixed amount_in; b ← to_fixed liquidity;
            result_fixed ← calculate_swap_amount_out_for_buy_fixed r x b; from_fixed result_fixed).
Definition calculate_swap_amount_out_for_sell (reserve amount_in liquidity : Balance) : Res Balance :=
  math_res (r ← to_fixed reserve; x ← to_fixed amount_in; b ← to_fixed liquidity;
            result_fixed ← calculate_swap_amount_out_for_sell_fixed r x b; from_fixed result_fixed).
Definition calculate_spot_price (reserve liquidity : Balance) : Res Balance :=
  math_res (r ← to_fixed reserve; b ← to_fixed liquidity;
            result_fixed ← calculate_spot_price_fixed r b; from_fixed result_fixed).
Definition calculate_reserves_from_spot_prices (amount : Balance) (spot_prices : list Balance)
    : Res (Balance * list Balance) :=
  math_res (a ← to_fixed amount; ps ← mapM to_fixed spot_prices;
            '(liquidity_fixed, reserve_fixed) ← calculate_reserve_from_spot_prices_fixed a ps;
            liquidity ← from_fixed liquidity_fixed;
            reserve ← mapM from_fixed reserve_fixed;
            Some (liquidity, reserve)).
Definition calculate_buy_ln_argument (reserve amount_in liquidity : Balance) : Res Balance :=
  math_res (r ← to_fixed reserve; x ← to_fixed amount_in; b ← to_fixed liquidity;
            result_fixed ← calculate_buy_ln_argument_fixed r x b; from_fixed result_fixed).
End Math.

(** ** Initial reserves *)

(** Documented arithmetic of the [fixed] crate: numbers are multiples of [1 / unit],
    products and quotients round down. *)
Class FixedArith (F : Type) `{FixedType F} := {
  fx_unit : Z;
  fx_bits : F → Z;
  fx_bits_nonneg x : 0 ≤ fx_bits x;
  fx_unit_pos : 0 < fx_unit;
  fx_ltb_spec x y : fx_ltb x y = (fx_bits x <? fx_bits y);
  fx_mul_spec x y z : fx_checked_mul x y = Some z → fx_bits z = fx_bits x * fx_bits y / fx_unit;
  fx_div_spec x y z :
    fx_checked_div x y = Some z → 0 < fx_bits y ∧ fx_bits z = fx_bits x * fx_unit / fx_bits y;
}.

Section Reserves.
Context {F : Type} `{FixedArith F}.

Lemma fold_max_spec x (l : list F) :
  let r := foldl (λ acc y, if fx_ltb y acc then acc else y) x l in
  r ∈ x :: l ∧ ∀ y, y ∈ x :: l → fx_bits y ≤ fx_bits r.
Proof.
  revert x. induction l as [|y l IH]; intros x; cbn [foldl].
  - split; [by left|]. intros y Hy%list_elem_of_singleton. by subst.
  - rewrite fx_ltb_spec. destruct (Z.ltb_spec (fx_bits y) (fx_bits x)) as [Hlt|Hge].
    + destruct (IH x) as [Hin Hmax]. split; [set_solver|].
      intros z [->|[->|Hz]%elem_of_cons]%elem_of_cons; [apply Hmax; set_solver| |apply Hmax; set_solver].
      specialize (Hmax x ltac:(set_solver)). lia.
    + destruct (IH y) as [Hin Hmax]. split; [set_solver|].
      intros z [->|Hz]%elem_of_cons; [|by apply Hmax].
      specialize (Hmax y ltac:(set_solver)). lia.
Qed.

Lemma fx_max_spec (l : list F) m : fx_max l = Some m → m ∈ l ∧ ∀ y, y ∈ l → fx_bits y ≤ fx_bits m.
Proof. destruct l as [|x l]; [done|]. intros [= <-]. apply fold_max_spec. Qed.

(** The reserves of a new pool never exceed what its creator offers: for any
    prices, each reserve is at most the amount, there is one for every price, and the
    liquidity parameter times the largest logarithm of a price is at most the amount. *)
Theorem reserves_within_amount amount prices liquidity reserves :
  calculate_reserve_from_spot_prices_fixed amount prices = Some (liquidity, reserves) →
  length reserves = length prices ∧
  (∀ r, r ∈ reserves → fx_bits r ≤ fx_bits amount) ∧
  (∀ p l neg, p ∈ prices → ln p = Some (l, neg) →
     fx_bits liquidity * fx_bits l ≤ fx_bits amount * fx_unit).
Proof.
  unfold calculate_reserve_from_spot_prices_fixed. intros Hc.
  apply bind_Some in Hc as (tmp & Htmp & Hc). apply bind_Some in Hc as (m & Hm & Hc).
  apply bind_Some in Hc as (b & Hb & Hc). apply bind_Some in Hc as (rs & Hrs & [= <- <-]).
  apply mapM_Some in Htmp, Hrs. apply fx_max_spec in Hm as [_ Hmax].
  apply fx_div_spec in Hb as [Hpos Hb]. pose proof fx_unit_pos.
  assert (∀ t, t ∈ tmp → fx_bits b * fx_bits t ≤ fx_bits amount * fx_unit) as Hle.
  { intros t Ht. specialize (Hmax t Ht). pose proof (fx_bits_nonneg t).
    pose proof (Z.mul_div_le (fx_bits amount * fx_unit) (fx_bits m) Hpos).
    assert (0 ≤ fx_bits b) by apply fx_bits_nonneg. rewrite <- Hb in *. nia. }
  split; [|split].
  - apply Forall2_length in Htmp, Hrs. lia.
  - intros r Hr. apply list_elem_of_lookup in Hr as [i Hi].
    destruct (Forall2_lookup_r _ _ _ _ _ Hrs Hi) as (t & Ht%list_elem_of_lookup_2 & Hmul).
    apply fx_mul_spec in Hmul. rewrite Hmul. specialize (Hle t Ht).
    apply Z.div_le_upper_bound; lia.
  - intros p l neg Hp Hln. apply list_elem_of_lookup in Hp as [i Hi].
    destruct (Forall2_lookup_l _ _ _ _ _ Htmp Hi) as (t & Ht%list_elem_of_lookup_2 & Hfst).
    rewrite Hln in Hfst. injection Hfst as <-. by apply Hle.
Qed.
End Reserves.

(** ** Examples *)
Module MathExample.
Import FixedExample.

#[export] Instance fixed80_arith : FixedArith N.
Proof.
  refine {| fx_unit := unit80; fx_bits := Z.of_N |}.
  - intros x. apply N2Z.is_nonneg.
  - by vm_compute.
  - intros x y. cbn. destruct (N.ltb_spec x y), (Z.ltb_spec (Z.of_N x) (Z.of_N y)); lia || done.
  - intros x y z [_ Hz]%fits_inv. exact Hz.
  - intros x y z Hz. cbn in Hz. destruct (N.eqb_spec y 0); [done|].
    apply fits_inv in Hz as [_ Hz]. split; [lia|done].
Defined.

(** A unit of liquidity at even prices. *)
Definition half : N := Z.to_N (unit80 / 2).
Definition even : N * list N :=
  Eval vm_compute in
    default (0%N, []) (calculate_reserve_from_spot_prices_fixed (Z.to_N unit80) [half; half]).
Lemma even_reserves :
  calculate_reserve_from_spot_prices_fixed (Z.to_N unit80) [half; half] = Some (even.1, even.2).
Proof. vm_compute. reflexivity. Qed.

Lemma reserves_within_amount_witness :
  length even.2 = length [half; half] ∧
  (∀ r, r ∈ even.2 → fx_bits r ≤ fx_bits (Z.to_N unit80)) ∧
  (∀ p l neg, p ∈ [half; half] → ln p = Some (l, neg) →
     fx_bits even.1 * fx_bits l ≤ fx_bits (Z.to_N unit80) * fx_unit).
Proof. exact (reserves_within_amount (Z.to_N unit80) [half; half] even.1 even.2 even_reserves). Defined.
End MathExample.
