(* ===== verification/LiquidityTree.v ===== *)
(** * Liquidity tree

    [zrml/neo-swaps/src/liquidity_tree] and
    [zrml/neo-swaps/src/traits/liquidity_shares_manager.rs]: a segment tree that
    records the stake of every liquidity provider of a pool and distributes fees
    lazily. Indices are [u32] values, balances [u128] values. *)
From S2P Require Import Prelude Types Errors Fixed.

(** ** Data *)

Record Node : Type := mk_Node {
  account : option AccountId;
  stake : Balance;
  fees : Balance;
  descendant_stake : Balance;
  lazy_fees : Balance;
}.

(** [Node::new] *)
Definition Node_new (who : AccountId) (amount : Balance) : Node :=
  mk_Node (Some who) amount 0 0 0.
(** [Node::total_stake] *)
Definition total_stake (n : Node) : Res Balance :=
  checked_add_res u128_max (stake n) (descendant_stake n).
(** [Node::is_weak_leaf] *)
Definition is_weak_leaf (n : Node) : bool := descendant_stake n =? 0.

Definition set_account (a : option AccountId) (n : Node) : Node :=
  mk_Node a (stake n) (fees n) (descendant_stake n) (lazy_fees n).
Definition set_stake (x : Balance) (n : Node) : Node :=
  mk_Node (account n) x (fees n) (descendant_stake n) (lazy_fees n).
Definition set_fees (x : Balance) (n : Node) : Node :=
  mk_Node (account n) (stake n) x (descendant_stake n) (lazy_fees n).
Definition set_descendant_stake (x : Balance) (n : Node) : Node :=
  mk_Node (account n) (stake n) (fees n) x (lazy_fees n).
Definition set_lazy_fees (x : Balance) (n : Node) : Node :=
  mk_Node (account n) (stake n) (fees n) (descendant_stake n) x.

Record LiquidityTree : Type := mk_LiquidityTree {
  nodes : list Node;
  account_to_index : gmap AccountId Z;
  abandoned_nodes : list Z;
}.

Definition set_nodes (l : list Node) (t : LiquidityTree) : LiquidityTree :=
  mk_LiquidityTree l (account_to_index t) (abandoned_nodes t).
Definition set_account_to_index (m : gmap AccountId Z) (t : LiquidityTree) : LiquidityTree :=
  mk_LiquidityTree (nodes t) m (abandoned_nodes t).
Definition set_abandoned_nodes (l : list Z) (t : LiquidityTree) : LiquidityTree :=
  mk_LiquidityTree (nodes t) (account_to_index t) l.

Inductive BenchmarkInfo : Type := InPlace | Reassigned | Leaf.
Inductive UpdateDescendantStakeOperation : Type := Add | Sub.
Record LiquidityTreeChildIndices : Type := mk_ChildIndices { lhs : option Z; rhs : option Z }.

Abbreviation Tree := (Store LiquidityTree).
Definition so (e : StorageOverflowError) : DispatchError := LT_StorageOverflow e.

(** ** [LiquidityTreeHelper] *)
Section Helper.
(** [U::get()] *)
Context (max_depth : Z).

(** [LiquidityTreeMaxNodes::get] *)
Definition max_node_count : Z :=
  saturating_sub (Z.min u32_max (2 ^ (max_depth + 1))) 1.

Definition node_count (t : LiquidityTree) : Z := Z.of_nat (length (nodes t)).

Definition get_node (index : Z) : Tree Node :=
  n ← gets (λ t, nodes t !! Z.to_nat index);
  ok_or n LT_NodeNotFound.

(** The mutator returns the new node, and what it leaves in captured variables. *)
Definition mutate_node {A} (index : Z) (mutator : Node → Res (Node * A)) : Tree A :=
  n ← get_node index;
  r ← lift (mutator n);
  _ ← modify (λ t, set_nodes (<[Z.to_nat index := r.1]> (nodes t)) t);
  mret r.2.

Definition map_account_to_index (who : AccountId) : Tree Z :=
  i ← gets (λ t, account_to_index t !! who);
  ok_or i LT_AccountNotFound.

Definition parent_index (index : Z) : option Z :=
  if index =? 0 then None else Some ((index - 1) / 2).

Definition children (index : Z) : Tree LiquidityTreeChildIndices :=
  count ← gets node_count;
  let calculate_child child_index := if child_index <? count then Some child_index else None in
  doubled ← lift (checked_mul_res u32_max index 2);
  left_child_index ← lift (checked_add_res u32_max doubled 1);
  let lhs := calculate_child left_child_index in
  right_child_index ← lift (checked_add_res u32_max left_child_index 1);
  let rhs := calculate_child right_child_index in
  mret (mk_ChildIndices lhs rhs).

(** [LiquidityTreeChildIndices::apply] and [mutate_each_child] *)
Definition apply_children (c : LiquidityTreeChildIndices) (f : Z → Tree unit) : Tree unit :=
  _ ← match lhs c with Some i => f i | None => mret tt end;
  match rhs c with Some i => f i | None => mret tt end.
Definition mutate_each_child (index : Z) (mutator : Node → Res (Node * unit)) : Tree unit :=
  c ← children index;
  apply_children c (λ i, mutate_node i mutator).

(** The remaining iterations are the fuel of the recursion. *)
Fixpoint path_to_node_loop (remaining_iterations : nat) (index : Z) : Res (list Z) :=
  match remaining_iterations with
  | O => Err LT_MaxIterationsReached
  | S remaining_iterations =>
      match parent_index index with
      | Some parent =>
          path ← path_to_node_loop remaining_iterations parent;
          Ok (path ++ [index])
      | None => Ok [0]
      end
  end.
Definition path_to_node (index : Z) : Res (list Z) :=
  iterations ← checked_add_res u32_max max_depth 1;
  path_to_node_loop (Z.to_nat iterations) index.

Definition propagate_fees (index : Z) : Tree unit :=
  node ← get_node index;
  total ← lift (total_stake node);
  if total =? 0 then mret tt
  else
    _ ← (if is_weak_leaf node then
           mutate_node index (λ node,
             f ← checked_add_res u128_max (fees node) (lazy_fees node);
             Ok (set_fees f node, tt))
         else
           let node_descendant_stake := descendant_stake node in
           total ← lift (total_stake node);
           remaining_lazy_fees ←
             lift (bmul_bdiv u128_max (descendant_stake node) (lazy_fees node) total);
           own ← lift (checked_sub_res (lazy_fees node) remaining_lazy_fees);
           _ ← mutate_node index (λ node,
                 f ← checked_add_res u128_max (fees node) own;
                 Ok (set_fees f node, tt));
           c ← children index;
           remaining_lazy_fees ←
             match lhs c with
             | Some lhs_index =>
                 mutate_node lhs_index (λ lhs_node,
                   t ← total_stake lhs_node;
                   child_lazy_fees ← bmul_bdiv u128_max t remaining_lazy_fees node_descendant_stake;
                   l ← checked_add_res u128_max (lazy_fees lhs_node) child_lazy_fees;
                   r ← checked_sub_res remaining_lazy_fees child_lazy_fees;
                   Ok (set_lazy_fees l lhs_node, r))
             | None => mret remaining_lazy_fees
             end;
           match rhs c with
           | Some rhs_index =>
               mutate_node rhs_index (λ rhs_node,
                 l ← checked_add_res u128_max (lazy_fees rhs_node) remaining_lazy_fees;
                 Ok (set_lazy_fees l rhs_node, tt))
           | None => mret tt
           end);
    mutate_node index (λ node, Ok (set_lazy_fees 0 node, tt)).

Definition propagate_fees_to_node (index : Z) : Tree unit :=
  path ← lift (path_to_node index);
  for_each propagate_fees path.

(** [Vec::pop] *)
Definition take_last_abandoned_node_index : Tree (option Z) :=
  l ← gets abandoned_nodes;
  match last l with
  | Some i => _ ← modify (set_abandoned_nodes (take (pred (length l)) l)); mret (Some i)
  | None => mret None
  end.

Definition peek_next_free_leaf (t : LiquidityTree) : option Z :=
  if node_count t <? max_node_count then Some (node_count t) else None.

Definition update_descendant_stake_of_ancestors (index : Z) (delta : Balance)
    (op : UpdateDescendantStakeOperation) : Tree unit :=
  path ← lift (path_to_node index);
  for_each (λ i, mutate_node i (λ node,
    d ← match op with
        | Add => checked_add_res u128_max (descendant_stake node) delta
        | Sub => checked_sub_res (descendant_stake node) delta
        end;
    Ok (set_descendant_stake d node, tt))) path.

(** [BoundedVec::try_push] and [BoundedBTreeMap::try_insert] with bound [max_node_count] *)
Definition try_push_node (n : Node) : Tree unit :=
  l ← gets nodes;
  _ ← ensure (Z.of_nat (length l) <? max_node_count) (so SO_Nodes);
  modify (set_nodes (l ++ [n])).
Definition try_push_abandoned (i : Z) : Tree unit :=
  l ← gets abandoned_nodes;
  _ ← ensure (Z.of_nat (length l) <? max_node_count) (so SO_AbandonedNodes);
  modify (set_abandoned_nodes (l ++ [i])).
Definition try_insert_account (who : AccountId) (i : Z) : Tree unit :=
  m ← gets account_to_index;
  _ ← ensure ((Z.of_nat (size m) <? max_node_count) || bool_decide (is_Some (m !! who)))
        (so SO_AccountToIndex);
  modify (set_account_to_index (<[who := i]> m)).

(** ** [LiquiditySharesManager] *)

(** [LiquidityTree::new] *)
Definition new (who : AccountId) (amount : Balance) : Res LiquidityTree :=
  _ ← ensureR (1 <=? max_node_count) (so SO_Nodes);
  _ ← ensureR (0 <? max_node_count) (so SO_AccountToIndex);
  Ok (mk_LiquidityTree [Node_new who amount] {[who := 0]} []).

Definition join (who : AccountId) (amount : Balance) : Tree BenchmarkInfo :=
  opt_index ← gets (λ t, account_to_index t !! who);
  r ← match opt_index with
      | Some index =>
          _ ← propagate_fees_to_node index;
          _ ← mutate_node index (λ node,
                s ← checked_add_res u128_max (stake node) amount;
                Ok (set_stake s node, tt));
          mret (index, InPlace)
      | None =>
          abandoned ← take_last_abandoned_node_index;
          r ← match abandoned with
              | Some index =>
                  _ ← propagate_fees_to_node index;
                  _ ← mutate_node index (λ node,
                        Ok (set_lazy_fees 0 (set_fees 0 (set_stake amount
                          (set_account (Some who) node))), tt));
                  mret (index, Reassigned)
              | None =>
                  leaf ← gets peek_next_free_leaf;
                  match leaf with
                  | Some index =>
                      _ ← match parent_index index with
                          | Some parent => propagate_fees_to_node parent
                          | None => mret tt
                          end;
                      _ ← try_push_node (Node_new who amount);
                      mret (index, Leaf)
                  | None => fail LT_TreeIsFull
                  end
              end;
          _ ← try_insert_account who r.1;
          mret r
      end;
  let '(index, benchmark_info) := r in
  _ ← match parent_index index with
      | Some parent => update_descendant_stake_of_ancestors parent amount Add
      | None => mret tt
      end;
  mret benchmark_info.

Definition exit (who : AccountId) (amount : Balance) : Tree unit :=
  index ← map_account_to_index who;
  _ ← propagate_fees_to_node index;
  node ← get_node index;
  _ ← ensure (fees node =? 0) LT_UnwithdrawnFees;
  remaining ← mutate_node index (λ node,
    s ← ok_orR (if amount <=? stake node then Some (stake node - amount) else None)
          LT_InsufficientStake;
    Ok (set_stake s node, s));
  _ ← (if remaining =? 0 then
         _ ← mutate_node index (λ node, Ok (set_account None node, tt));
         _ ← try_push_abandoned index;
         modify (λ t, set_account_to_index (delete who (account_to_index t)) t)
       else mret tt);
  match parent_index index with
  | Some parent => update_descendant_stake_of_ancestors parent amount Sub
  | None => mret tt
  end.

Definition split (sender receiver : AccountId) (amount : Balance) : Tree unit :=
  fail NS_NotImplemented.

Definition deposit_fees (amount : Balance) : Tree unit :=
  mutate_node 0 (λ root,
    l ← checked_add_res u128_max (lazy_fees root) amount;
    Ok (set_lazy_fees l root, tt)).

Definition withdraw_fees (who : AccountId) : Tree Balance :=
  index ← map_account_to_index who;
  _ ← propagate_fees_to_node index;
  mutate_node index (λ node, Ok (set_fees 0 node, fees node)).

Definition shares_of (who : AccountId) : Tree Balance :=
  index ← map_account_to_index who;
  node ← get_node index;
  mret (stake node).

Definition total_shares : Tree Balance :=
  root ← get_node 0;
  lift (total_stake root).
End Helper.

(** ** Nodes and indices *)
Section Steps.
Implicit Types t : LiquidityTree.

Lemma get_node_inv i t t' n :
  get_node i t = (Ok n, t') → nodes t !! Z.to_nat i = Some n ∧ t' = t.
Proof. unfold get_node. intros Hg. by run_inv Hg. Qed.

Lemma get_node_ok i t n : nodes t !! Z.to_nat i = Some n → get_node i t = (Ok n, t).
Proof. intros Hn. unfold get_node. rewrite gets_bind, Hn. done. Qed.

Lemma mutate_node_inv {A} i (f : Node → Res (Node * A)) t t' a :
  mutate_node i f t = (Ok a, t') →
  ∃ n n', nodes t !! Z.to_nat i = Some n ∧ f n = Ok (n', a) ∧
    t' = set_nodes (<[Z.to_nat i := n']> (nodes t)) t.
Proof.
  unfold mutate_node. intros Hm. run_inv Hm.
  match goal with Hg : get_node _ _ = _ |- _ => apply get_node_inv in Hg as [? ->] end.
  match goal with p : (Node * A)%type |- _ => destruct p as [n' b] end. eauto.
Qed.

Lemma mutate_node_ok {A} i (f : Node → Res (Node * A)) t n n' a :
  nodes t !! Z.to_nat i = Some n → f n = Ok (n', a) →
  mutate_node i f t = (Ok a, set_nodes (<[Z.to_nat i := n']> (nodes t)) t).
Proof.
  intros Hn Hf. unfold mutate_node. rewrite (bind_ok _ _ _ _ _ (get_node_ok i t n Hn)).
  by rewrite (lift_ok_bind _ _ _ _ Hf).
Qed.

Lemma zsum_insert {A} (f : A → Z) (l : list A) i x y :
  l !! i = Some x → zsum f (<[i := y]> l) = zsum f l - f x + f y.
Proof.
  intros Hx. rewrite insert_take_drop by (by eapply lookup_lt_Some).
  rewrite <- (take_drop_middle l i x Hx) at 3. rewrite !zsum_app, !zsum_cons. lia.
Qed.

(** ** Fees *)

(** What every node owes. *)
Definition owed (n : Node) : Balance := fees n + lazy_fees n.
Definition total_fees t : Balance := zsum owed (nodes t).
Definition nonneg_node (n : Node) : Prop :=
  0 ≤ stake n ∧ 0 ≤ fees n ∧ 0 ≤ descendant_stake n ∧ 0 ≤ lazy_fees n.

(** The part of a node that fees do not touch. *)
Definition shape (n : Node) : option AccountId * Balance * Balance :=
  (account n, stake n, descendant_stake n).
Definition same_shape t t' : Prop :=
  shape <$> nodes t' = shape <$> nodes t ∧ account_to_index t' = account_to_index t ∧
  abandoned_nodes t' = abandoned_nodes t.
#[export] Instance same_shape_preorder : PreOrder same_shape.
Proof.
  split; [by split|]. intros t1 t2 t3 (? & ? & ?) (? & ? & ?). split_and!; congruence.
Qed.

Lemma same_shape_update t i n n' :
  nodes t !! i = Some n → shape n' = shape n → same_shape t (set_nodes (<[i := n']> (nodes t)) t).
Proof.
  intros Hn Hs. split; [|done]. cbn. rewrite list_fmap_insert, Hs.
  apply list_insert_id. by rewrite list_lookup_fmap, Hn.
Qed.

Lemma same_shape_lookup t t' i n :
  same_shape t t' → nodes t' !! i = Some n → ∃ n0, nodes t !! i = Some n0 ∧ shape n = shape n0.
Proof.
  intros (Hs & _) Hn. assert ((shape <$> nodes t') !! i = Some (shape n)) as Hl
    by (by rewrite list_lookup_fmap, Hn).
  rewrite Hs, list_lookup_fmap in Hl. destruct (nodes t !! i) as [n0|]; [|done].
  exists n0. split; [done|]. cbn in Hl. congruence.
Qed.

Lemma bmul_bdiv_nonneg x m d r : 0 ≤ x → 0 ≤ m → 0 ≤ d → bmul_bdiv u128_max x m d = Ok r → 0 ≤ r.
Proof.
  intros Hx Hm Hd Hr. apply bmul_bdiv_ok in Hr as [Hd0 Hr]; [|done].
  assert (0 ≤ BASE / 2 ∧ 0 < BASE) by done.
  destruct Hr as [(_ & _ & ->)|[_ ->]]; (apply Z.div_pos; [|lia]).
  - assert (0 ≤ x * m * BASE / d) by (apply Z.div_pos; nia). lia.
  - assert (0 ≤ Z.max x m * BASE / d) by (apply Z.div_pos; nia). nia.
Qed.

(** A step that keeps the shape and moves fees within bounds. *)
Record fee_step t t' (gain : Balance) : Prop := {
  fs_shape : same_shape t t';
  fs_nonneg : Forall nonneg_node (nodes t) → Forall nonneg_node (nodes t');
  fs_total : total_fees t' ≤ total_fees t + gain;
}.

Lemma fee_step_trans t1 t2 t3 g1 g2 g :
  fee_step t1 t2 g1 → fee_step t2 t3 g2 → g1 + g2 ≤ g → fee_step t1 t3 g.
Proof. intros [? ? ?] [? ? ?] Hg. split; [by etransitivity|auto|lia]. Qed.

Lemma fee_step_update t i n n' :
  nodes t !! i = Some n → shape n' = shape n →
  (nonneg_node n → nonneg_node n') →
  fee_step t (set_nodes (<[i := n']> (nodes t)) t) (owed n' - owed n).
Proof.
  intros Hn Hs Hnn. split; [by apply (same_shape_update t i n n')| |].
  - intros Hall. apply Forall_insert; [done|]. apply Hnn. by eapply Forall_lookup_1.
  - unfold total_fees. cbn [nodes set_nodes]. rewrite (zsum_insert _ _ _ _ _ Hn). lia.
Qed.

Lemma children_inv i t t' c :
  children i t = (Ok c, t') →
  t' = t ∧ (lhs c = None ∨ lhs c = Some (2 * i + 1)) ∧ (rhs c = None ∨ rhs c = Some (2 * i + 2)).
Proof.
  unfold children. intros Hc. run_inv Hc. checked. cbn. split; [done|].
  split; destruct (_ <? _); auto; right; f_equal; lia.
Qed.

Lemma total_stake_ok n r :
  total_stake n = Ok r ↔ stake n + descendant_stake n ≤ u128_max ∧ r = stake n + descendant_stake n.
Proof. apply checked_add_ok. Qed.

(** One node's fees change; every other node stays. *)
Lemma mutate_fees {A} j (f : Node → Res (Node * A)) t t' a gain :
  Forall nonneg_node (nodes t) → mutate_node j f t = (Ok a, t') →
  (∀ n n', f n = Ok (n', a) → nonneg_node n →
     shape n' = shape n ∧ nonneg_node n' ∧ owed n' - owed n ≤ gain) →
  fee_step t t' gain ∧ Forall nonneg_node (nodes t') ∧
  ∀ k, k ≠ Z.to_nat j → nodes t' !! k = nodes t !! k.
Proof.
  intros Hnn Hm Hf. apply mutate_node_inv in Hm as (n & n' & Hn & Hfn & ->).
  pose proof (Forall_lookup_1 _ _ _ _ Hnn Hn) as Hn0.
  destruct (Hf n n' Hfn Hn0) as (Hs & Hn' & Hg).
  pose proof (fee_step_update t _ n n' Hn Hs (λ _, Hn')) as [? ? ?].
  split; [split; [done|done|lia]|]. split; [auto|].
  intros k Hk. cbn. by rewrite list_lookup_insert_ne.
Qed.

(** Handing a share of the lazy fees to a child. *)
Lemma give_to_lhs j rem d t t' r :
  Forall nonneg_node (nodes t) → 0 ≤ rem → 0 ≤ d →
  mutate_node j (λ lhs_node,
    tot ← total_stake lhs_node;
    child_lazy_fees ← bmul_bdiv u128_max tot rem d;
    l ← checked_add_res u128_max (lazy_fees lhs_node) child_lazy_fees;
    r ← checked_sub_res rem child_lazy_fees;
    Ok (set_lazy_fees l lhs_node, r)) t = (Ok r, t') →
  0 ≤ r ≤ rem ∧ fee_step t t' (rem - r) ∧ Forall nonneg_node (nodes t') ∧
  ∀ k, k ≠ Z.to_nat j → nodes t' !! k = nodes t !! k.
Proof.
  intros Hnn Hrem Hd Hm.
  assert (∀ n n' : Node, nonneg_node n →
    (tot ← total_stake n; child_lazy_fees ← bmul_bdiv u128_max tot rem d;
     l ← checked_add_res u128_max (lazy_fees n) child_lazy_fees;
     r ← checked_sub_res rem child_lazy_fees; Ok (set_lazy_fees l n, r)) = Ok (n', r) →
    0 ≤ r ≤ rem ∧ n' = set_lazy_fees (lazy_fees n + (rem - r)) n) as Hf.
  { intros n n' (Hs & _ & Hds & _) Hf. run_inv Hf. checked.
    match goal with Hx : total_stake _ = Ok _ |- _ => apply total_stake_ok in Hx as [? ->] end.
    match goal with Hx : bmul_bdiv _ _ _ _ = Ok ?c |- _ => rename Hx into Hb end.
    apply bmul_bdiv_nonneg in Hb; [|lia..]. intros <- <-. split; [lia|]. f_equal. lia. }
  pose proof Hm as Hm'. apply mutate_node_inv in Hm' as (n & n' & Hn & Hfn & _).
  destruct (Hf n n' (Forall_lookup_1 _ _ _ _ Hnn Hn) Hfn) as [Hr _]. split; [done|].
  apply (mutate_fees _ _ _ _ _ (rem - r) Hnn Hm). intros m m' Hfm Hm0.
  destruct (Hf m m' Hm0 Hfm) as [_ ->]. unfold nonneg_node, owed in *. cbn. split; [done|]. lia.
Qed.

Lemma give_to_rhs j rem t t' u :
  Forall nonneg_node (nodes t) → 0 ≤ rem →
  mutate_node j (λ rhs_node,
    l ← checked_add_res u128_max (lazy_fees rhs_node) rem;
    Ok (set_lazy_fees l rhs_node, tt)) t = (Ok u, t') →
  fee_step t t' rem ∧ Forall nonneg_node (nodes t') ∧
  ∀ k, k ≠ Z.to_nat j → nodes t' !! k = nodes t !! k.
Proof.
  intros Hnn Hrem Hm. apply (mutate_fees _ _ _ _ _ rem Hnn Hm). intros n n' Hf Hn.
  destruct u. run_inv Hf. checked. intros <-. unfold nonneg_node, owed in *. cbn. split; [done|]. lia.
Qed.

Lemma give_to_self i x t t' u :
  Forall nonneg_node (nodes t) → 0 ≤ x →
  mutate_node i (λ node, f ← checked_add_res u128_max (fees node) x;
    Ok (set_fees f node, tt)) t = (Ok u, t') →
  fee_step t t' x ∧ Forall nonneg_node (nodes t') ∧
  ∀ n, nodes t !! Z.to_nat i = Some n → ∃ n', nodes t' !! Z.to_nat i = Some n' ∧
    lazy_fees n' = lazy_fees n.
Proof.
  intros Hnn Hx Hm. split; [|split].
  1,2: apply (mutate_fees _ _ _ _ _ x Hnn Hm); intros n n' Hf Hn; destruct u; run_inv Hf; checked; intros <-;
    unfold nonneg_node, owed in *; cbn; split; [done|]; lia.
  intros n Hn. apply mutate_node_inv in Hm as (m & m' & Hm & Hf & ->).
  destruct u. run_inv Hf. checked. intros <-. eexists. cbn. rewrite list_lookup_insert_eq by (by eapply lookup_lt_Some).
  split; [done|]. cbn. congruence.
Qed.

(** Handing the lazy fees of the node [i] to its descendants. *)
Lemma propagate_down i t t' u n :
  0 ≤ i → Forall nonneg_node (nodes t) → nodes t !! Z.to_nat i = Some n →
  (let node_descendant_stake := descendant_stake n in
   total ← lift (total_stake n);
   remaining_lazy_fees ← lift (bmul_bdiv u128_max (descendant_stake n) (lazy_fees n) total);
   own ← lift (checked_sub_res (lazy_fees n) remaining_lazy_fees);
   _ ← mutate_node i (λ node,
         f ← checked_add_res u128_max (fees node) own; Ok (set_fees f node, tt));
   c ← children i;
   remaining_lazy_fees ←
     match lhs c with
     | Some lhs_index =>
         mutate_node lhs_index (λ lhs_node,
           t ← total_stake lhs_node;
           child_lazy_fees ← bmul_bdiv u128_max t remaining_lazy_fees node_descendant_stake;
           l ← checked_add_res u128_max (lazy_fees lhs_node) child_lazy_fees;
           r ← checked_sub_res remaining_lazy_fees child_lazy_fees;
           Ok (set_lazy_fees l lhs_node, r))
     | None => mret remaining_lazy_fees
     end;
   match rhs c with
   | Some rhs_index =>
       mutate_node rhs_index (λ rhs_node,
         l ← checked_add_res u128_max (lazy_fees rhs_node) remaining_lazy_fees;
         Ok (set_lazy_fees l rhs_node, tt))
   | None => mret tt
   end) t = (Ok u, t') →
  fee_step t t' (lazy_fees n) ∧ Forall nonneg_node (nodes t') ∧
  ∃ n', nodes t' !! Z.to_nat i = Some n' ∧ lazy_fees n' = lazy_fees n.
Proof.
  intros Hi Hnn Hn Hp. cbv zeta in Hp.
  apply bind_ok_inv in Hp as (total & s0 & Ht & Hp). run_inv Ht.
  apply total_stake_ok in Ht as [? ->].
  apply bind_ok_inv in Hp as (rem & s0 & Hb & Hp). run_inv Hb.
  apply bind_ok_inv in Hp as (own & s0 & Hown & Hp). run_inv Hown. checked.
  apply bind_ok_inv in Hp as (v & t1 & Hself & Hp).
  apply bind_ok_inv in Hp as ([l r] & s0 & Hc & Hp). apply children_inv in Hc as (-> & Hlhs & Hrhs).
  apply bind_ok_inv in Hp as (rest & t2 & Hl & Hp). cbn [lhs rhs] in *.
  pose proof (Forall_lookup_1 _ _ _ _ Hnn Hn) as (Hs & Hf & Hd & Hlz).
  apply bmul_bdiv_le in Hb as Hrem; [|done|lia|done].
  apply give_to_self in Hself as (F1 & N1 & L1); [|done|lia].
  destruct (L1 n Hn) as (n1 & Hn1 & Hlz1). clear L1.
  assert (0 ≤ rest ≤ rem ∧ fee_step t1 t2 (rem - rest) ∧ Forall nonneg_node (nodes t2) ∧
    nodes t2 !! Z.to_nat i = nodes t1 !! Z.to_nat i) as (Hrest & F2 & N2 & E2).
  { destruct Hlhs as [->| ->].
    - run_inv Hl. split; [lia|]. split; [|done]. replace (rest - rest) with 0 by lia.
      by split; [|done|lia].
    - apply give_to_lhs in Hl as (Hr & F2 & N2 & E2); [|done|lia|done].
      split; [done|]. split; [done|]. split; [done|]. apply E2. lia. }
  assert (fee_step t2 t' rest ∧ Forall nonneg_node (nodes t') ∧
    nodes t' !! Z.to_nat i = nodes t2 !! Z.to_nat i) as (F3 & N3 & E3).
  { destruct Hrhs as [->| ->].
    - run_inv Hp. by split; [split; [|done|lia]|].
    - apply give_to_rhs in Hp as (F3 & N3 & E3); [|done|lia].
      split; [done|]. split; [done|]. apply E3. lia. }
  split; [|split; [done|]].
  - eapply fee_step_trans; [exact F1| |].
    + eapply fee_step_trans; [exact F2|exact F3|reflexivity].
    + lia.
  - exists n1. split; [congruence|done].
Qed.

Lemma propagate_fees_step i t t' u :
  0 ≤ i → Forall nonneg_node (nodes t) → propagate_fees i t = (Ok u, t') →
  fee_step t t' 0 ∧ Forall nonneg_node (nodes t').
Proof.
  intros Hi Hnn Hp. unfold propagate_fees in Hp.
  apply bind_ok_inv in Hp as (n & s0 & Hn & Hp). apply get_node_inv in Hn as [Hn ->].
  apply bind_ok_inv in Hp as (total & s0 & Ht & Hp). run_inv Ht.
  destruct (total =? 0); [run_inv Hp; split; [by split; [|done|lia]|done]|].
  apply bind_ok_inv in Hp as (v & t1 & Hdown & Hzero).
  pose proof (Forall_lookup_1 _ _ _ _ Hnn Hn) as (_ & _ & _ & Hlz).
  assert (fee_step t t1 (lazy_fees n) ∧ Forall nonneg_node (nodes t1) ∧
    ∃ n', nodes t1 !! Z.to_nat i = Some n' ∧ lazy_fees n' = lazy_fees n) as (F1 & N1 & n1 & Hn1 & Hl1).
  { destruct (is_weak_leaf n).
    - assert (mutate_node i (λ node, f ← checked_add_res u128_max (fees node) (lazy_fees n);
        Ok (set_fees f node, tt)) t = (Ok v, t1)) as Hdown'.
      { rewrite <- Hdown. unfold mutate_node. by rewrite !(bind_ok _ _ _ _ _ (get_node_ok i t n Hn)). }
      apply give_to_self in Hdown' as (F1 & N1 & L1); [|done|done]. auto.
    - by apply propagate_down in Hdown. }
  apply mutate_node_inv in Hzero as (m & m' & Hm & [= <- _] & ->).
  assert (m = n1) as -> by congruence.
  pose proof (Forall_lookup_1 _ _ _ _ N1 Hm) as Hm0.
  assert (nonneg_node (set_lazy_fees 0 n1)) as Hm1 by (unfold nonneg_node in *; cbn; lia).
  pose proof (fee_step_update t1 _ n1 (set_lazy_fees 0 n1) Hm eq_refl (λ _, Hm1)) as F2. split.
  - eapply fee_step_trans; [exact F1|exact F2|]. unfold owed. cbn. lia.
  - by apply F2.
Qed.

Lemma path_nonneg fuel i path : 0 ≤ i → path_to_node_loop fuel i = Ok path → Forall (λ j, 0 ≤ j) path.
Proof.
  revert i path. induction fuel as [|fuel IH]; intros i path Hi Hp; cbn in Hp; [done|].
  unfold parent_index in Hp. destruct (Z.eqb_spec i 0).
  - injection Hp as <-. by constructor.
  - destruct (path_to_node_loop fuel ((i - 1) / 2)) as [p|] eqn:Hpp; [|done]. injection Hp as <-.
    apply Forall_app. split; [|by constructor]. eapply IH; [|done]. apply Z.div_pos; lia.
Qed.

(** Propagating along a path moves fees, creates none and touches no stake. *)
Lemma propagate_to_node_step d i t t' u :
  0 ≤ i → Forall nonneg_node (nodes t) → propagate_fees_to_node d i t = (Ok u, t') →
  fee_step t t' 0 ∧ Forall nonneg_node (nodes t').
Proof.
  intros Hi Hnn Hp. unfold propagate_fees_to_node in Hp.
  apply bind_ok_inv in Hp as (path & s0 & Hpath & Hp). run_inv Hpath.
  unfold path_to_node in Hpath. run_inv Hpath. apply path_nonneg in Hpath; [|done].
  clear Hm. revert t Hnn Hp. induction Hpath as [|j path Hj _ IH]; intros t Hnn Hp; cbn in Hp.
  - run_inv Hp. split; [by split; [|done|lia]|done].
  - apply bind_ok_inv in Hp as (v & t1 & H1 & Hp). apply propagate_fees_step in H1 as [F1 N1]; [|done..].
    destruct (IH t1 N1 Hp) as [F2 N2]. split; [|done]. by eapply fee_step_trans.
Qed.
End Steps.

(** ** Paths *)
Section Paths.

Definition on_path (j : Z) (path : list Z) : Z := zsum (λ x, if x =? j then 1 else 0) path.

Lemma on_path_app j p q : on_path j (p ++ q) = on_path j p + on_path j q.
Proof. apply zsum_app. Qed.
Lemma on_path_cons j x p : on_path j (x :: p) = (if x =? j then 1 else 0) + on_path j p.
Proof. apply zsum_cons. Qed.
Lemma on_path_nil j : on_path j [] = 0.
Proof. done. Qed.
Lemma on_path_nonneg j p : 0 ≤ on_path j p.
Proof. apply zsum_nonneg. intros x _. by destruct (_ =? _). Qed.
Lemma on_path_notin j p : j ∉ p → on_path j p = 0.
Proof.
  induction p as [|x p IH]; [done|]. intros Hj. apply not_elem_of_cons in Hj as [? ?].
  rewrite on_path_cons, IH by done. destruct (Z.eqb_spec x j); [congruence|done].
Qed.

Lemma parent_child i p j :
  0 ≤ i → 0 ≤ j → parent_index i = Some p →
  (if i =? 2 * j + 1 then 1 else 0) + (if i =? 2 * j + 2 then 1 else 0) =
  (if p =? j then 1 else 0).
Proof.
  intros Hi Hj Hp. unfold parent_index in Hp. destruct (Z.eqb_spec i 0); [done|].
  injection Hp as <-. pose proof (Z.div_mod (i - 1) 2 ltac:(lia)).
  pose proof (Z.mod_pos_bound (i - 1) 2 ltac:(lia)).
  destruct (Z.eqb_spec i (2 * j + 1)), (Z.eqb_spec i (2 * j + 2)),
    (Z.eqb_spec ((i - 1) / 2) j); lia.
Qed.

(** A node on the path to [i] other than [i] has exactly one child on it; a node
    off the path has none. *)
Lemma path_children fuel i path j :
  0 ≤ i → 0 ≤ j → path_to_node_loop fuel i = Ok path →
  on_path (2 * j + 1) path + on_path (2 * j + 2) path =
  on_path j path - (if i =? j then 1 else 0).
Proof.
  revert i path. induction fuel as [|fuel IH]; intros i path Hi Hj Hp; cbn [path_to_node_loop] in Hp; [done|].
  destruct (parent_index i) as [p|] eqn:Hpar.
  - pose proof (parent_child i p j Hi Hj Hpar) as Hpc.
    assert (0 ≤ p) as Hp0.
    { unfold parent_index in Hpar. destruct (Z.eqb_spec i 0); [done|]. injection Hpar as <-.
      apply Z.div_pos; lia. }
    destruct (path_to_node_loop fuel p) as [q|] eqn:Hq; [|done]. injection Hp as <-.
    specialize (IH p q Hp0 Hj Hq). rewrite !on_path_app, !on_path_cons, !on_path_nil. lia.
  - unfold parent_index in Hpar. destruct (Z.eqb_spec i 0) as [->|]; [|done]. injection Hp as <-.
    rewrite !on_path_cons, !on_path_nil.
    destruct (Z.eqb_spec 0 (2 * j + 1)), (Z.eqb_spec 0 (2 * j + 2)); try lia;
      by destruct (0 =? j).
Qed.

Lemma path_bounded fuel i path j :
  0 ≤ i → path_to_node_loop fuel i = Ok path → on_path j path ≠ 0 → j ≤ i.
Proof.
  revert i path. induction fuel as [|fuel IH]; intros i path Hi Hp Hj; cbn in Hp; [done|].
  unfold parent_index in Hp. destruct (Z.eqb_spec i 0) as [->|].
  - injection Hp as <-. rewrite on_path_cons, on_path_nil in Hj. destruct (Z.eqb_spec 0 j); lia.
  - destruct (path_to_node_loop fuel ((i - 1) / 2)) as [q|] eqn:Hq; [|done]. injection Hp as <-.
    rewrite on_path_app, on_path_cons, on_path_nil in Hj.
    destruct (Z.eqb_spec i j); [lia|]. assert (0 ≤ (i - 1) / 2) as H0 by (apply Z.div_pos; lia).
    specialize (IH _ q H0 Hq ltac:(lia)). pose proof (Z.div_le_upper_bound (i - 1) 2 i). lia.
Qed.

(** The ancestors of a node. *)
Definition ancestors (d i : Z) : Res (list Z) :=
  match parent_index i with Some p => path_to_node d p | None => Ok [] end.

Lemma ancestors_children d i path j :
  0 ≤ i → 0 ≤ j → ancestors d i = Ok path →
  ((if i =? 2 * j + 1 then 1 else 0) + on_path (2 * j + 1) path) +
  ((if i =? 2 * j + 2 then 1 else 0) + on_path (2 * j + 2) path) = on_path j path.
Proof.
  intros Hi Hj Ha. unfold ancestors in Ha. destruct (parent_index i) as [p|] eqn:Hp.
  - pose proof (parent_child i p j Hi Hj Hp) as Hpc. unfold path_to_node in Ha. run_inv Ha.
    apply (path_children _ _ _ j) in Ha; [lia| |done].
    unfold parent_index in Hp. destruct (Z.eqb_spec i 0); [done|]. injection Hp as <-.
    apply Z.div_pos; lia.
  - injection Ha as <-. rewrite !on_path_nil. unfold parent_index in Hp.
    destruct (Z.eqb_spec i 0) as [->|]; [|done].
    destruct (Z.eqb_spec 0 (2 * j + 1)), (Z.eqb_spec 0 (2 * j + 2)); lia.
Qed.

Lemma ancestors_bounded d i path j :
  0 ≤ i → ancestors d i = Ok path → on_path j path ≠ 0 → j ≤ i.
Proof.
  intros Hi Ha Hj. unfold ancestors, parent_index in Ha. destruct (Z.eqb_spec i 0).
  - injection Ha as <-. done.
  - unfold path_to_node in Ha. run_inv Ha.
    assert (0 ≤ (i - 1) / 2) as H0 by (apply Z.div_pos; lia).
    apply (path_bounded _ _ _ j) in Ha; [|done..].
    pose proof (Z.div_le_upper_bound (i - 1) 2 i). lia.
Qed.

(** Enough iterations are always available: a node of a tree of depth [d] has at
    most [d] ancestors. *)
Lemma path_to_node_total fuel i :
  0 ≤ i < 2 ^ Z.of_nat fuel - 1 → is_ok (path_to_node_loop fuel i) = true.
Proof.
  revert i. induction fuel as [|fuel IH]; intros i Hi; [cbn in Hi; lia|].
  rewrite Nat2Z.inj_succ, Z.pow_succ_r in Hi by lia. cbn [path_to_node_loop].
  unfold parent_index. destruct (Z.eqb_spec i 0); [done|].
  specialize (IH ((i - 1) / 2)). destruct (path_to_node_loop fuel ((i - 1) / 2)); [done|].
  apply IH. split; [apply Z.div_pos; lia|]. apply Z.div_lt_upper_bound; lia.
Qed.
End Paths.

(** ** Stakes *)
Section Stakes.
Implicit Types t : LiquidityTree.

Definition at_node (f : Node → Z) t (i : Z) : Z :=
  match nodes t !! Z.to_nat i with Some n => f n | None => 0 end.
Definition weight (n : Node) : Z := stake n + descendant_stake n.

(** The descendant stake of every node is what its children weigh. *)
Definition balanced t : Prop :=
  ∀ i, 0 ≤ i →
    at_node descendant_stake t i = at_node weight t (2 * i + 1) + at_node weight t (2 * i + 2).

Lemma at_node_shape (f : option AccountId * Balance * Balance → Z) t t' i :
  same_shape t t' → at_node (λ n, f (shape n)) t' i = at_node (λ n, f (shape n)) t i.
Proof.
  intros [Hs _]. unfold at_node.
  assert ((shape <$> nodes t') !! Z.to_nat i = (shape <$> nodes t) !! Z.to_nat i) as Hl by (by rewrite Hs).
  rewrite !list_lookup_fmap in Hl.
  destruct (nodes t' !! Z.to_nat i), (nodes t !! Z.to_nat i); try done.
  change (Some (shape n) = Some (shape n0)) in Hl. apply (inj Some) in Hl. by rewrite Hl.
Qed.

Lemma same_shape_count t t' : same_shape t t' → node_count t' = node_count t.
Proof.
  intros [Hs _]. unfold node_count. f_equal.
  by rewrite <- (length_fmap shape (nodes t')), Hs, length_fmap.
Qed.

Lemma same_shape_balanced t t' : same_shape t t' → balanced t → balanced t'.
Proof.
  intros Hs Hb i Hi. specialize (Hb i Hi).
  pose proof (at_node_shape (λ s, s.2) t t' i Hs) as H1.
  pose proof (at_node_shape (λ s, s.1.2 + s.2) t t' (2 * i + 1) Hs) as H2.
  pose proof (at_node_shape (λ s, s.1.2 + s.2) t t' (2 * i + 2) Hs) as H3.
  change (at_node descendant_stake t' i = at_node descendant_stake t i) in H1.
  change (at_node weight t' (2 * i + 1) = at_node weight t (2 * i + 1)) in H2.
  change (at_node weight t' (2 * i + 2) = at_node weight t (2 * i + 2)) in H3. lia.
Qed.

(** Sums over the nodes as sums over indices. *)
Lemma zsum_nodes f t : zsum f (nodes t) = zsum (at_node f t) (seqZ 0 (node_count t)).
Proof.
  unfold node_count, at_node. induction (nodes t) as [|n l IH] using rev_ind; [done|].
  rewrite length_app, Nat2Z.inj_add, seqZ_app by lia. cbn [length].
  rewrite !zsum_app, !zsum_cons. f_equal.
  - rewrite IH. apply zsum_ext. intros x Hx%elem_of_seqZ. rewrite lookup_app_l; [done|lia].
  - change (seqZ (0 + Z.of_nat (length l)) (Z.of_nat 1)) with [0 + Z.of_nat (length l)].
    rewrite zsum_cons, Z.add_0_l, Nat2Z.id, lookup_app_r, Nat.sub_diag by lia. done.
Qed.

Lemma zsum_children (g : Z → Z) n :
  zsum (λ i, g (2 * i + 1) + g (2 * i + 2)) (seqZ 0 (Z.of_nat n)) + g 0 =
  zsum g (seqZ 0 (2 * Z.of_nat n + 1)).
Proof.
  induction n as [|n IH].
  { change (seqZ 0 (2 * Z.of_nat 0 + 1)) with [0]. rewrite zsum_cons.
    change (zsum ?f []) with 0. change (zsum ?f (seqZ 0 (Z.of_nat 0))) with 0. lia. }
  replace (2 * Z.of_nat (S n) + 1) with ((2 * Z.of_nat n + 1) + 2) by lia.
  rewrite Nat2Z.inj_succ, <- Z.add_1_r, (seqZ_app 0 (Z.of_nat n) 1),
    (seqZ_app 0 (2 * Z.of_nat n + 1) 2), !zsum_app by lia.
  change (seqZ (0 + Z.of_nat n) 1) with [0 + Z.of_nat n].
  change (seqZ (0 + (2 * Z.of_nat n + 1)) 2) with
    [0 + (2 * Z.of_nat n + 1); 1 + (0 + (2 * Z.of_nat n + 1))].
  rewrite !zsum_cons. change (zsum ?f []) with 0. rewrite <- IH.
  replace (2 * (0 + Z.of_nat n) + 1) with (0 + (2 * Z.of_nat n + 1)) by lia.
  replace (2 * (0 + Z.of_nat n) + 2) with (1 + (0 + (2 * Z.of_nat n + 1))) by lia. lia.
Qed.

(** The root of a balanced tree weighs what all stakes sum up to. *)
Lemma root_weight t : balanced t → at_node weight t 0 = zsum stake (nodes t).
Proof.
  intros Hb. set (n := length (nodes t)).
  assert (zsum (at_node descendant_stake t) (seqZ 0 (node_count t)) =
    zsum (λ i, at_node weight t (2 * i + 1) + at_node weight t (2 * i + 2))
      (seqZ 0 (node_count t))) as Hd.
  { apply zsum_ext. intros i Hi%elem_of_seqZ. apply Hb. lia. }
  pose proof (zsum_children (at_node weight t) n) as Hc. unfold node_count in Hd. fold n in Hd.
  rewrite <- Hd in Hc.
  assert (zsum (at_node weight t) (seqZ 0 (2 * Z.of_nat n + 1)) =
    zsum (at_node weight t) (seqZ 0 (Z.of_nat n))) as Hw.
  { replace (2 * Z.of_nat n + 1) with (Z.of_nat n + (Z.of_nat n + 1)) by lia.
    rewrite seqZ_app, zsum_app by lia.
    rewrite (zsum_ext _ (λ _, 0) (seqZ (0 + Z.of_nat n) (Z.of_nat n + 1))).
    - replace (zsum (λ _, 0) _) with 0; [lia|].
      induction (seqZ (0 + Z.of_nat n) (Z.of_nat n + 1)); [done|]. rewrite zsum_cons. lia.
    - intros i Hi%elem_of_seqZ. unfold at_node. by rewrite lookup_ge_None_2 by (fold n; lia). }
  rewrite Hw in Hc. rewrite zsum_nodes. unfold node_count. fold n.
  rewrite (zsum_ext (at_node weight t) (λ i, at_node stake t i + at_node descendant_stake t i)) in Hc.
  - rewrite zsum_plus in Hc. lia.
  - intros i _. unfold at_node. by destruct (nodes t !! _).
Qed.

(** The descendant stakes along a path change by [delta] per visit. *)
Definition adjusted (path : list Z) (delta : Z) (l l' : list Node) : Prop :=
  ∀ i, l' !! i = (λ n, set_descendant_stake
    (descendant_stake n + delta * on_path (Z.of_nat i) path) n) <$> (l !! i).

Definition signed (op : UpdateDescendantStakeOperation) (amount : Z) : Z :=
  match op with Add => amount | Sub => - amount end.

Lemma adjusted_trans p q delta l1 l2 l3 :
  adjusted p delta l1 l2 → adjusted q delta l2 l3 → adjusted (p ++ q) delta l1 l3.
Proof.
  intros H1 H2 i. rewrite (H2 i), (H1 i). destruct (l1 !! i) as [n|]; [|done]. cbn.
  rewrite on_path_app. unfold set_descendant_stake. cbn. do 2 f_equal. lia.
Qed.

Lemma adjusted_refl delta l : adjusted [] delta l l.
Proof.
  intros i. destruct (l !! i) as [[]|]; [|done]. cbn.
  unfold set_descendant_stake. cbn. do 2 f_equal. lia.
Qed.

Lemma adjust_one_inv op j amount t t' u :
  0 ≤ j → 0 ≤ amount →
  mutate_node j (λ node,
    d ← match op with
        | Add => checked_add_res u128_max (descendant_stake node) amount
        | Sub => checked_sub_res (descendant_stake node) amount
        end;
    Ok (set_descendant_stake d node, tt)) t = (Ok u, t') →
  t' = set_nodes (nodes t') t ∧ adjusted [j] (signed op amount) (nodes t) (nodes t') ∧
  (Forall nonneg_node (nodes t) → Forall nonneg_node (nodes t')).
Proof.
  intros Hj Ham Hm. apply mutate_node_inv in Hm as (n & n' & Hn & Hf & ->).
  assert (n' = set_descendant_stake (descendant_stake n + signed op amount) n ∧
    (0 ≤ descendant_stake n → 0 ≤ descendant_stake n + signed op amount)) as [-> Hpos].
  { destruct u, op; run_inv Hf; checked; intros <-; cbn; split; try done; lia. }
  split; [done|]. split.
  - intros i. cbn [nodes set_nodes]. rewrite on_path_cons, on_path_nil.
    destruct (decide (i = Z.to_nat j)) as [->|Hne].
    + rewrite list_lookup_insert_eq by (by eapply lookup_lt_Some). rewrite Hn. cbn.
      rewrite Z2Nat.id, Z.eqb_refl by done. by rewrite Z.mul_1_r.
    + rewrite list_lookup_insert_ne by done. destruct (Z.eqb_spec j (Z.of_nat i)); [lia|].
      destruct (nodes t !! i) as [[]|]; [|done]. unfold set_descendant_stake. cbn. do 2 f_equal. lia.
  - intros Hall. apply Forall_insert; [done|]. pose proof (Forall_lookup_1 _ _ _ _ Hall Hn) as Hnn.
    unfold nonneg_node in *. cbn. naive_solver.
Qed.

(** The last step of [join] and [exit]. *)
Lemma update_ancestors_inv d index amount op t t' u :
  0 ≤ index → 0 ≤ amount →
  match parent_index index with
  | Some parent => update_descendant_stake_of_ancestors d parent amount op
  | None => mret tt
  end t = (Ok u, t') →
  ∃ path, ancestors d index = Ok path ∧ t' = set_nodes (nodes t') t ∧
    adjusted path (signed op amount) (nodes t) (nodes t') ∧
    (Forall nonneg_node (nodes t) → Forall nonneg_node (nodes t')).
Proof.
  intros Hi Ham Hu. unfold ancestors. destruct (parent_index index) as [p|] eqn:Hp.
  2:{ run_inv Hu. exists []. split; [done|]. split; [by destruct t'|].
      split; [apply adjusted_refl|done]. }
  assert (0 ≤ p) as Hp0.
  { unfold parent_index in Hp. destruct (Z.eqb_spec index 0); [done|]. injection Hp as <-.
    apply Z.div_pos; lia. }
  unfold update_descendant_stake_of_ancestors in Hu.
  apply bind_ok_inv in Hu as (path & s0 & Hpath & Hu). run_inv Hpath. exists path. split; [done|].
  unfold path_to_node in Hpath. run_inv Hpath. apply path_nonneg in Hpath; [|done]. clear Hm.
  revert t Hu. induction Hpath as [|j path Hj _ IH]; intros t Hu; cbn in Hu.
  - run_inv Hu. split; [by destruct t'|]. split; [apply adjusted_refl|done].
  - apply bind_ok_inv in Hu as (v & t1 & H1 & Hu).
    apply adjust_one_inv in H1 as (E1 & A1 & N1); [|done..].
    destruct (IH t1 Hu) as (E2 & A2 & N2). split; [|split; [|auto]].
    + rewrite E2, E1. done.
    + apply (adjusted_trans [j] path _ _ (nodes t1)); done.
Qed.

Lemma adjusted_fmap {B} (f : Node → B) path delta l l' :
  adjusted path delta l l' → (∀ n x, f (set_descendant_stake x n) = f n) → f <$> l' = f <$> l.
Proof.
  intros Ha Hf. apply list_eq. intros i. rewrite !list_lookup_fmap, (Ha i).
  destruct (l !! i); cbn; [by rewrite Hf|done].
Qed.

Lemma zsum_fmap {A} (f : A → Z) (l : list A) : zsum f l = zsum (λ x, x) (f <$> l).
Proof. induction l as [|x l IH]; [done|]. rewrite fmap_cons, !zsum_cons. by rewrite IH. Qed.

(** Changing the stake of a node by [delta] and its ancestors accordingly keeps the
    tree balanced. *)
Lemma balanced_restake d index delta path t t1 t' :
  0 ≤ index → balanced t → ancestors d index = Ok path →
  (∀ i, 0 ≤ i → at_node descendant_stake t1 i = at_node descendant_stake t i ∧
     at_node weight t1 i = at_node weight t i + delta * (if index =? i then 1 else 0)) →
  index < node_count t1 →
  adjusted path delta (nodes t1) (nodes t') → balanced t'.
Proof.
  intros Hidx Hb Hpath Hstep Hin Hadj i Hi.
  assert (∀ k, 0 ≤ k → at_node descendant_stake t' k =
      at_node descendant_stake t1 k + delta * on_path k path ∧
    at_node weight t' k = at_node weight t1 k + delta * on_path k path) as Hall.
  { intros k Hk. pose proof (Hadj (Z.to_nat k)) as Hak. rewrite Z2Nat.id in Hak by done.
    unfold at_node. rewrite Hak. destruct (nodes t1 !! Z.to_nat k) as [n|] eqn:Hn; cbn.
    - unfold weight. cbn. lia.
    - assert (on_path k path = 0) as ->; [|lia]. destruct (decide (on_path k path = 0)); [done|].
      apply lookup_ge_None in Hn. unfold node_count in Hin.
      assert (k ≤ index) by (by eapply ancestors_bounded). lia. }
  destruct (Hall i Hi) as [-> _]. destruct (Hall (2 * i + 1) ltac:(lia)) as [_ ->].
  destruct (Hall (2 * i + 2) ltac:(lia)) as [_ ->].
  destruct (Hstep i Hi) as [-> _]. destruct (Hstep (2 * i + 1) ltac:(lia)) as [_ ->].
  destruct (Hstep (2 * i + 2) ltac:(lia)) as [_ ->].
  rewrite (Hb i Hi). pose proof (ancestors_children d index path i Hidx Hi Hpath). nia.
Qed.
End Stakes.

(** ** Accounts and abandoned nodes *)
Section Book.
Implicit Types t : LiquidityTree.

(** Who a node belongs to, and its stake. *)
Definition holder (n : Node) : option AccountId * Balance := (account n, stake n).
Definition holder_at t (i : Z) : option (option AccountId * Balance) :=
  holder <$> (nodes t !! Z.to_nat i).

(** The index of accounts and the list of abandoned nodes describe the nodes. *)
Record Book t : Prop := {
  bk_index : ∀ who i, account_to_index t !! who = Some i ↔
    0 ≤ i ∧ ∃ s, holder_at t i = Some (Some who, s);
  bk_abandoned : ∀ i, i ∈ abandoned_nodes t ↔ 0 ≤ i ∧ ∃ s, holder_at t i = Some (None, s);
  bk_nodup : NoDup (abandoned_nodes t);
  bk_empty : ∀ i s, 0 ≤ i → holder_at t i = Some (None, s) → s = 0;
}.

Lemma book_ext t t' :
  holder <$> nodes t' = holder <$> nodes t → account_to_index t' = account_to_index t →
  abandoned_nodes t' = abandoned_nodes t → Book t → Book t'.
Proof.
  intros Hh Ha Hab [H1 H2 H3 H4].
  assert (∀ i, holder_at t' i = holder_at t i) as Hat
    by (intros i; unfold holder_at; by rewrite <- !list_lookup_fmap, Hh).
  split.
  - intros who i. rewrite Ha, Hat. apply H1.
  - intros i. rewrite Hab, Hat. apply H2.
  - by rewrite Hab.
  - intros i s. rewrite Hat. apply H4.
Qed.

Lemma holder_at_insert t i j n' :
  0 ≤ i → 0 ≤ j → is_Some (holder_at t i) →
  holder_at (set_nodes (<[Z.to_nat i := n']> (nodes t)) t) j =
  (if decide (j = i) then Some (holder n') else holder_at t j).
Proof.
  intros Hi Hj [h Hh]. unfold holder_at in *. cbn [nodes set_nodes].
  apply fmap_Some in Hh as (n & Hn & _). destruct (decide (j = i)) as [->|Hne].
  - rewrite list_lookup_insert_eq; [done|]. by eapply lookup_lt_Some.
  - rewrite list_lookup_insert_ne; [done|]. intros ?%Z2Nat.inj; lia.
Qed.

Lemma holder_at_push t j n :
  0 ≤ j → holder_at (set_nodes (nodes t ++ [n]) t) j =
  (if decide (j = node_count t) then Some (holder n) else holder_at t j).
Proof.
  intros Hj. unfold holder_at, node_count. cbn [nodes set_nodes].
  destruct (decide (j = _)) as [->|Hne].
  - by rewrite Nat2Z.id, lookup_app_r, Nat.sub_diag by lia.
  - destruct (decide (j < Z.of_nat (length (nodes t)))).
    + by rewrite lookup_app_l by lia.
    + rewrite !lookup_ge_None_2; [done|lia|]. rewrite length_app. cbn. lia.
Qed.

(** The owner of a node keeps it: the stake changes. *)
Lemma book_restake t i who s n' :
  0 ≤ i → Book t → holder_at t i = Some (Some who, s) → account n' = Some who →
  Book (set_nodes (<[Z.to_nat i := n']> (nodes t)) t).
Proof.
  intros Hi [H1 H2 H3 H4] Hh Hn'. unfold holder in *.
  assert (∀ j, 0 ≤ j → holder_at (set_nodes (<[Z.to_nat i := n']> (nodes t)) t) j =
    (if decide (j = i) then Some (account n', stake n') else holder_at t j)) as Hat
    by (intros; apply holder_at_insert; [done..|by rewrite Hh]).
  rewrite Hn' in Hat. split; cbn [account_to_index abandoned_nodes set_nodes].
  - intros w j. rewrite H1. split; intros [Hj [s' Hs']]; (split; [done|]);
      [rewrite Hat by done|rewrite Hat in Hs' by done];
      destruct (decide (j = i)) as [->|]; simplify_eq; eauto.
  - intros j. rewrite H2. split; intros [Hj [s' Hs']]; (split; [done|]);
      [rewrite Hat by done|rewrite Hat in Hs' by done];
      destruct (decide (j = i)) as [->|]; simplify_eq; eauto.
  - done.
  - intros j s' Hj Hs'. rewrite Hat in Hs' by done.
    destruct (decide (j = i)) as [->|]; [congruence|by eapply H4].
Qed.

(** A new owner for the last abandoned node. *)
Lemma book_reassign t l i who n' :
  Book t → abandoned_nodes t = l ++ [i] → account_to_index t !! who = None →
  account n' = Some who →
  Book (mk_LiquidityTree (<[Z.to_nat i := n']> (nodes t)) (<[who := i]> (account_to_index t)) l).
Proof.
  intros [H1 H2 H3 H4] Hl Hw Hn'.
  assert (i ∈ abandoned_nodes t) as [Hi [s Hh]]%H2 by (rewrite Hl; set_solver).
  rewrite Hl in H3. apply NoDup_app in H3 as (Hnd & Hni & _).
  assert (∀ j, 0 ≤ j → holder_at (set_nodes (<[Z.to_nat i := n']> (nodes t)) t) j =
    (if decide (j = i) then Some (account n', stake n') else holder_at t j)) as Hat
    by (intros; apply holder_at_insert; [done..|by rewrite Hh]).
  rewrite Hn' in Hat. split; cbn [account_to_index abandoned_nodes].
  - intros w j. unfold holder_at at 1. cbn [nodes]. change (holder <$> _) with
      (holder_at (set_nodes (<[Z.to_nat i := n']> (nodes t)) t) j).
    destruct (decide (w = who)) as [->|Hne].
    + rewrite lookup_insert_eq. split.
      * intros [= <-]. split; [done|]. exists (stake n'). rewrite Hat by done. by rewrite decide_True.
      * intros [Hj [s' Hs']]. rewrite Hat in Hs' by done. destruct (decide (j = i)); [congruence|].
        assert (account_to_index t !! who = Some j) by (apply H1; eauto). congruence.
    + rewrite lookup_insert_ne, H1 by done. split; intros [Hj [s' Hs']]; (split; [done|]);
        [rewrite Hat by done|rewrite Hat in Hs' by done];
        destruct (decide (j = i)) as [->|]; simplify_eq; eauto.
  - intros j. change (holder_at _ j) with
      (holder_at (set_nodes (<[Z.to_nat i := n']> (nodes t)) t) j).
    transitivity (j ∈ abandoned_nodes t ∧ j ≠ i).
    + rewrite Hl. set_solver.
    + rewrite H2. split.
      * intros [[Hj [s' Hs']] Hne]. split; [done|]. rewrite Hat, decide_False by done. eauto.
      * intros [Hj [s' Hs']]. rewrite Hat in Hs' by done. destruct (decide (j = i)); simplify_eq; eauto.
  - done.
  - intros j s' Hj Hs'. change (holder_at (set_nodes (<[Z.to_nat i := n']> (nodes t)) t) j =
      Some (None, s')) in Hs'. rewrite Hat in Hs' by done.
    destruct (decide (j = i)) as [->|]; [congruence|by eapply H4].
Qed.

(** A new leaf. *)
Lemma book_push t who n :
  Book t → account_to_index t !! who = None → account n = Some who →
  Book (mk_LiquidityTree (nodes t ++ [n]) (<[who := node_count t]> (account_to_index t))
    (abandoned_nodes t)).
Proof.
  intros [H1 H2 H3 H4] Hw Hn.
  assert (∀ j, 0 ≤ j → holder_at (set_nodes (nodes t ++ [n]) t) j =
    (if decide (j = node_count t) then Some (Some who, stake n) else holder_at t j)) as Hat
    by (intros; rewrite <- Hn; by apply holder_at_push).
  assert (0 ≤ node_count t) as H0 by (unfold node_count; lia).
  assert (holder_at t (node_count t) = None) as Hnew.
  { unfold holder_at, node_count. rewrite Nat2Z.id, lookup_ge_None_2; done. }
  split; cbn [account_to_index abandoned_nodes].
  - intros w j. change (holder_at _ j) with (holder_at (set_nodes (nodes t ++ [n]) t) j).
    destruct (decide (w = who)) as [->|Hne].
    + rewrite lookup_insert_eq. split.
      * intros [= <-]. split; [done|]. rewrite Hat, decide_True by done. eauto.
      * intros [Hj [s' Hs']]. rewrite Hat in Hs' by done. destruct (decide (j = _)); [congruence|].
        assert (account_to_index t !! who = Some j) by (apply H1; eauto). congruence.
    + rewrite lookup_insert_ne, H1 by done. split; intros [Hj [s' Hs']]; (split; [done|]);
        [rewrite Hat by done|rewrite Hat in Hs' by done];
        destruct (decide (j = node_count t)) as [->|]; simplify_eq; eauto.
  - intros j. change (holder_at _ j) with (holder_at (set_nodes (nodes t ++ [n]) t) j).
    rewrite H2. split; intros [Hj [s' Hs']]; (split; [done|]);
        [rewrite Hat by done|rewrite Hat in Hs' by done];
        destruct (decide (j = node_count t)) as [->|]; simplify_eq; eauto.
  - done.
  - intros j s' Hj Hs'. change (holder_at (set_nodes (nodes t ++ [n]) t) j = Some (None, s')) in Hs'.
    rewrite Hat in Hs' by done. destruct (decide (j = _)); [congruence|by eapply H4].
Qed.

(** The owner leaves the node. *)
Lemma book_abandon t who i n' :
  Book t → account_to_index t !! who = Some i → holder n' = (None, 0) →
  Book (mk_LiquidityTree (<[Z.to_nat i := n']> (nodes t)) (delete who (account_to_index t))
    (abandoned_nodes t ++ [i])).
Proof.
  intros [H1 H2 H3 H4] Hw Hn'. pose proof (proj1 (H1 who i) Hw) as [Hi [s Hh]].
  assert (∀ j, 0 ≤ j → holder_at (set_nodes (<[Z.to_nat i := n']> (nodes t)) t) j =
    (if decide (j = i) then Some (None, 0) else holder_at t j)) as Hat.
  { intros j Hj. rewrite <- Hn'. apply holder_at_insert; [done..|by rewrite Hh]. }
  split; cbn [account_to_index abandoned_nodes].
  - intros w j. change (holder_at _ j) with
      (holder_at (set_nodes (<[Z.to_nat i := n']> (nodes t)) t) j).
    destruct (decide (w = who)) as [->|Hne].
    + rewrite lookup_delete_eq. split; [done|]. intros [Hj [s' Hs']]. rewrite Hat in Hs' by done.
      destruct (decide (j = i)); [done|].
      assert (account_to_index t !! who = Some j) by (apply H1; eauto). congruence.
    + rewrite lookup_delete_ne, H1 by done. split; intros [Hj [s' Hs']]; (split; [done|]);
        [rewrite Hat by done|rewrite Hat in Hs' by done];
        destruct (decide (j = i)) as [->|]; simplify_eq; eauto.
  - intros j. change (holder_at _ j) with
      (holder_at (set_nodes (<[Z.to_nat i := n']> (nodes t)) t) j).
    rewrite elem_of_app, H2, list_elem_of_singleton. split.
    + intros [[Hj [s' Hs']]| ->]; [|split; [done|]; rewrite Hat, decide_True by done; eauto].
      split; [done|]. rewrite Hat by done. destruct (decide (j = i)); eauto.
    + intros [Hj [s' Hs']]. rewrite Hat in Hs' by done. destruct (decide (j = i)); eauto.
  - apply NoDup_app. split; [done|]. split; [|apply NoDup_singleton].
    intros j [Hj [s' Hs']]%H2 ->%list_elem_of_singleton. congruence.
  - intros j s' Hj Hs'. change (holder_at (set_nodes (<[Z.to_nat i := n']> (nodes t)) t) j =
      Some (None, s')) in Hs'. rewrite Hat in Hs' by done.
    destruct (decide (j = i)); [congruence|by eapply H4].
Qed.
End Book.

(** ** The invariant *)
Section Invariant.
Context (d : Z).
Implicit Types t : LiquidityTree.

Record TreeInv t : Prop := {
  ti_nonneg : Forall nonneg_node (nodes t);
  ti_balanced : balanced t;
  ti_book : Book t;
  ti_size : 0 < node_count t ≤ max_node_count d;
}.

(** The stake of an account, zero for strangers, and all stakes. *)
Definition shares t (who : AccountId) : Balance :=
  match account_to_index t !! who with Some i => at_node stake t i | None => 0 end.
Definition stakes t : Balance := zsum stake (nodes t).

Lemma at_node_insert (f : Node → Z) t i j n' :
  0 ≤ i < node_count t → 0 ≤ j →
  at_node f (set_nodes (<[Z.to_nat i := n']> (nodes t)) t) j =
  (if i =? j then f n' else at_node f t j).
Proof.
  intros Hi Hj. unfold at_node, node_count in *. cbn [nodes set_nodes].
  destruct (Z.eqb_spec i j) as [->|Hne].
  - rewrite list_lookup_insert_eq by lia. done.
  - by rewrite list_lookup_insert_ne by (intros ?%Z2Nat.inj; lia).
Qed.

Lemma at_node_holder t i :
  at_node stake t i = match holder_at t i with Some h => h.2 | None => 0 end.
Proof. unfold at_node, holder_at. by destruct (nodes t !! Z.to_nat i). Qed.

Lemma lookup_count t i n : 0 ≤ i → nodes t !! Z.to_nat i = Some n → 0 ≤ i < node_count t.
Proof. intros Hi Hn%lookup_lt_Some. unfold node_count. lia. Qed.

Lemma shape_holder t t' : same_shape t t' → holder <$> nodes t' = holder <$> nodes t.
Proof.
  intros [Hs _]. assert (∀ l : list Node, holder <$> l = fst <$> (shape <$> l)) as Hl.
  { intros l. rewrite <- list_fmap_compose. done. }
  by rewrite !Hl, Hs.
Qed.

Lemma holder_stakes t t' : holder <$> nodes t' = holder <$> nodes t → stakes t' = stakes t.
Proof.
  intros Hh. unfold stakes. rewrite (zsum_fmap stake), (zsum_fmap stake (nodes t)).
  assert (∀ l : list Node, stake <$> l = snd <$> (holder <$> l)) as Hl
    by (intros l; by rewrite <- list_fmap_compose).
  by rewrite !Hl, Hh.
Qed.

Lemma holder_shares t t' who :
  holder <$> nodes t' = holder <$> nodes t → account_to_index t' = account_to_index t →
  shares t' who = shares t who.
Proof.
  intros Hh Ha. unfold shares. rewrite Ha. destruct (account_to_index t !! who); [|done].
  rewrite !at_node_holder. unfold holder_at. by rewrite <- !list_lookup_fmap, Hh.
Qed.

(** Moving fees keeps everything but the fees. *)
Lemma fee_step_inv t t' g :
  fee_step t t' g → TreeInv t →
  TreeInv t' ∧ stakes t' = stakes t ∧ ∀ who, shares t' who = shares t who.
Proof.
  intros [Hs Hn Ht] [H1 H2 H3 H4]. pose proof (shape_holder t t' Hs) as Hh.
  pose proof Hs as (_ & Ha & Hab). split; [split|split].
  - auto.
  - by apply (same_shape_balanced t).
  - by apply (book_ext t).
  - by rewrite (same_shape_count t t' Hs).
  - by apply holder_stakes.
  - intros who. by apply holder_shares.
Qed.

(** The first half of [join] and [exit]: the stake of [index] changes by [delta]. *)
Record restaked t t' (index delta : Z) (who : AccountId) : Prop := {
  rs_index : 0 ≤ index < node_count t';
  rs_weight : ∀ i, 0 ≤ i → at_node descendant_stake t' i = at_node descendant_stake t i ∧
    at_node weight t' i = at_node weight t i + delta * (if index =? i then 1 else 0);
  rs_nonneg : Forall nonneg_node (nodes t');
  rs_fees : total_fees t' ≤ total_fees t;
  rs_stakes : stakes t' = stakes t + delta;
  rs_book : Book t';
  rs_size : node_count t' ≤ max_node_count d;
  rs_shares : ∀ w, shares t' w = shares t w + (if decide (w = who) then delta else 0);
}.

Lemma restaked_node t t' i n n' delta who :
  TreeInv t → 0 ≤ i → nodes t !! Z.to_nat i = Some n →
  nodes t' = <[Z.to_nat i := n']> (nodes t) →
  descendant_stake n' = descendant_stake n → stake n' = stake n + delta →
  0 ≤ stake n' → 0 ≤ fees n' ≤ fees n → 0 ≤ lazy_fees n' ≤ lazy_fees n →
  Book t' →
  (∀ w, shares t' w = shares t w + (if decide (w = who) then delta else 0)) →
  restaked t t' i delta who.
Proof.
  intros [H1 H2 H3 H4] Hi Hn Hn' Hd Hst H0 Hf Hl Hb Hsh.
  pose proof (lookup_count t i n Hi Hn) as Hc.
  assert (∀ f j, 0 ≤ j → at_node f t' j = if i =? j then f n' else at_node f t j) as Hat.
  { intros f j Hj. rewrite <- (at_node_insert f t i j n' Hc Hj). unfold at_node. by rewrite Hn'. }
  assert (node_count t' = node_count t) as Hcount
    by (unfold node_count; by rewrite Hn', length_insert).
  split; try done.
  - by rewrite Hcount.
  - intros j Hj. rewrite !Hat by done. destruct (Z.eqb_spec i j) as [<-|]; [|lia].
    unfold at_node. rewrite Hn. unfold weight. lia.
  - rewrite Hn'. apply Forall_insert; [done|]. pose proof (Forall_lookup_1 _ _ _ _ H1 Hn) as Hnn.
    unfold nonneg_node in *. lia.
  - unfold total_fees. rewrite Hn', (zsum_insert _ _ _ _ _ Hn). unfold owed. lia.
  - unfold stakes. rewrite Hn', (zsum_insert _ _ _ _ _ Hn). lia.
  - rewrite Hcount. lia.
Qed.

(** The second half: the ancestors follow. *)
Lemma restaked_finish t t1 t' index amount op who u :
  balanced t → restaked t t1 index (signed op amount) who → 0 ≤ amount →
  match parent_index index with
  | Some parent => update_descendant_stake_of_ancestors d parent amount op
  | None => mret tt
  end t1 = (Ok u, t') →
  TreeInv t' ∧ total_fees t' ≤ total_fees t ∧ stakes t' = stakes t + signed op amount ∧
  ∀ w, shares t' w = shares t w + (if decide (w = who) then signed op amount else 0).
Proof.
  intros Hb [R1 R2 R3 R4 R5 R6 R7 R8] Ham Hu.
  apply update_ancestors_inv in Hu as (path & Hpath & Heq & Hadj & Hnn); [|lia|done].
  pose proof (adjusted_fmap holder _ _ _ _ Hadj (λ _ _, eq_refl)) as Hh.
  pose proof (adjusted_fmap owed _ _ _ _ Hadj (λ _ _, eq_refl)) as Ho.
  assert (account_to_index t' = account_to_index t1 ∧ abandoned_nodes t' = abandoned_nodes t1)
    as [Ha Hab] by (by rewrite Heq).
  assert (node_count t' = node_count t1) as Hc
    by (unfold node_count; by rewrite <- (length_fmap holder (nodes t')), Hh, length_fmap).
  split; [split|split; [|split]].
  - auto.
  - eapply (balanced_restake d index _ path t t1); try done; lia.
  - by apply (book_ext t1).
  - lia.
  - unfold total_fees in *. rewrite (zsum_fmap owed (nodes t')), Ho, <- zsum_fmap. done.
  - by rewrite (holder_stakes t1 t' Hh).
  - intros w. by rewrite (holder_shares t1 t' w Hh Ha).
Qed.

(** ** [join] and [exit] *)

Lemma index_holder t who i :
  Book t → account_to_index t !! who = Some i →
  0 ≤ i ∧ ∃ n, nodes t !! Z.to_nat i = Some n ∧ account n = Some who.
Proof.
  intros Hb Hw. apply (bk_index t Hb) in Hw as [Hi [s Hs]]. split; [done|].
  unfold holder_at in Hs. destruct (nodes t !! Z.to_nat i) as [n|]; [|done].
  exists n. split; [done|]. by injection Hs.
Qed.

Lemma index_inj t who who' i :
  Book t → account_to_index t !! who = Some i → account_to_index t !! who' = Some i → who = who'.
Proof.
  intros Hb (_ & n & Hn & Hw)%index_holder (_ & m & Hm & Hw')%index_holder; [congruence|done..].
Qed.

(** The owner of the node [i] restakes. *)
Lemma restaked_owner t i n n' who delta :
  TreeInv t → account_to_index t !! who = Some i → nodes t !! Z.to_nat i = Some n →
  n' = set_stake (stake n + delta) n → 0 ≤ stake n + delta →
  restaked t (set_nodes (<[Z.to_nat i := n']> (nodes t)) t) i delta who.
Proof.
  intros Ht Hw Hn -> H0. pose proof (ti_book t Ht) as Hb.
  pose proof (index_holder t who i Hb Hw) as (Hi & m & Hm & Hacc).
  assert (m = n) as -> by congruence.
  pose proof (Forall_lookup_1 _ _ _ _ (ti_nonneg t Ht) Hn) as (? & ? & ? & ?).
  pose proof (lookup_count t i n Hi Hn) as Hc.
  apply (restaked_node t _ i n (set_stake (stake n + delta) n)); try done.
  - by apply (book_restake t i who (stake n)); [| |unfold holder_at, holder; rewrite Hn; cbn; rewrite Hacc|].
  - intros w. unfold shares. cbn [account_to_index set_nodes].
    destruct (account_to_index t !! w) as [j|] eqn:Hj.
    + pose proof (index_holder t w j Hb Hj) as (Hj0 & _). rewrite at_node_insert by done.
      destruct (decide (w = who)) as [->|Hne].
      * assert (j = i) as -> by congruence. rewrite Z.eqb_refl. unfold at_node. rewrite Hn. cbn. lia.
      * destruct (Z.eqb_spec i j) as [->|]; [|lia].
        destruct Hne. by apply (index_inj t w who j).
    + rewrite decide_False; [done|]. intros ->. congruence.
Qed.

(** A stranger receives the last abandoned node. *)
Lemma restaked_stranger t l i n n' who amount :
  TreeInv t → account_to_index t !! who = None → abandoned_nodes t = l ++ [i] →
  nodes t !! Z.to_nat i = Some n → 0 ≤ amount →
  n' = set_lazy_fees 0 (set_fees 0 (set_stake amount (set_account (Some who) n))) →
  restaked t (mk_LiquidityTree (<[Z.to_nat i := n']> (nodes t))
    (<[who := i]> (account_to_index t)) l) i amount who.
Proof.
  intros Ht Hw Hl Hn H0 ->. pose proof (ti_book t Ht) as Hb.
  assert (i ∈ abandoned_nodes t) as Hin by (rewrite Hl; set_solver).
  apply (bk_abandoned t Hb) in Hin as [Hi [s Hs]].
  assert (stake n = 0) as Hst.
  { pose proof (bk_empty t Hb i s Hi Hs) as ->. unfold holder_at in Hs. rewrite Hn in Hs.
    by injection Hs. }
  pose proof (Forall_lookup_1 _ _ _ _ (ti_nonneg t Ht) Hn) as (? & ? & ? & ?).
  pose proof (lookup_count t i n Hi Hn) as Hc.
  set (n' := set_lazy_fees 0 _). apply (restaked_node t _ i n n'); try done; cbn; try lia.
  - by apply book_reassign.
  - intros w. unfold shares. cbn [account_to_index].
    change (at_node stake (mk_LiquidityTree ?a ?b ?c)) with (at_node stake (set_nodes (<[Z.to_nat i := n']> (nodes t)) t)).
    destruct (decide (w = who)) as [->|Hne].
    + rewrite lookup_insert_eq, Hw, at_node_insert, Z.eqb_refl by done. done.
    + rewrite lookup_insert_ne by done. destruct (account_to_index t !! w) as [j|] eqn:Hj; [|done].
      pose proof (proj1 (bk_index t Hb w j) Hj) as (Hj0 & s' & Hs'). rewrite at_node_insert by done.
      destruct (Z.eqb_spec i j) as [->|]; [congruence|lia].
Qed.

(** A stranger receives a new leaf. *)
Lemma restaked_leaf t who amount :
  TreeInv t → account_to_index t !! who = None → node_count t < max_node_count d → 0 ≤ amount →
  restaked t (mk_LiquidityTree (nodes t ++ [Node_new who amount])
    (<[who := node_count t]> (account_to_index t)) (abandoned_nodes t)) (node_count t) amount who.
Proof.
  intros Ht Hw Hc H0. pose proof (ti_book t Ht) as Hb.
  pose proof (ti_nonneg t Ht) as Hnn.
  assert (0 ≤ node_count t) as Hpos by (unfold node_count; lia).
  set (t' := mk_LiquidityTree _ _ _).
  assert (∀ f j, 0 ≤ j → at_node f t' j =
    if node_count t =? j then f (Node_new who amount) else at_node f t j) as Hat.
  { intros f j Hj. unfold at_node, t', node_count. cbn [nodes].
    destruct (Z.eqb_spec (Z.of_nat (length (nodes t))) j) as [<-|Hne].
    - by rewrite Nat2Z.id, lookup_app_r, Nat.sub_diag by lia.
    - destruct (decide (j < Z.of_nat (length (nodes t)))).
      + by rewrite lookup_app_l by lia.
      + rewrite !lookup_ge_None_2; [done|lia|]. rewrite length_app. cbn. lia. }
  assert (∀ f, at_node f t (node_count t) = 0) as Hnew.
  { intros f. unfold at_node, node_count. by rewrite Nat2Z.id, lookup_ge_None_2 by lia. }
  assert (node_count t' = node_count t + 1) as Hcount
    by (unfold node_count, t'; cbn [nodes]; rewrite length_app; cbn; lia).
  split.
  - lia.
  - intros j Hj. rewrite !Hat by done. destruct (Z.eqb_spec (node_count t) j) as [<-|]; [|lia].
    rewrite !Hnew. unfold weight. cbn. lia.
  - apply Forall_app. split; [done|]. constructor; [|constructor]. unfold nonneg_node. cbn. lia.
  - unfold total_fees, t'. cbn [nodes]. rewrite zsum_app, zsum_cons. unfold owed. cbn. lia.
  - unfold stakes, t'. cbn [nodes]. rewrite zsum_app, zsum_cons. cbn. lia.
  - by apply book_push.
  - lia.
  - intros w. unfold shares. cbn [account_to_index t']. destruct (decide (w = who)) as [->|Hne].
    + by rewrite lookup_insert_eq, Hw, Hat, Z.eqb_refl by done.
    + rewrite lookup_insert_ne by done. destruct (account_to_index t !! w) as [j|] eqn:Hj; [|done].
      pose proof (index_holder t w j Hb Hj) as (Hj0 & n & Hn & _). rewrite Hat by done.
      pose proof (lookup_count t j n Hj0 Hn). destruct (Z.eqb_spec (node_count t) j); lia.
Qed.

(** What an operation by [who] that changes its stake by [delta] leaves. *)
Record restake_step t t' (who : AccountId) (delta : Z) : Prop := {
  rk_inv : TreeInv t';
  rk_fees : total_fees t' ≤ total_fees t;
  rk_stakes : stakes t' = stakes t + delta;
  rk_shares : ∀ w, shares t' w = shares t w + (if decide (w = who) then delta else 0);
}.

(** Fees move, then a node is restaked, then its ancestors follow. *)
Lemma restake_step_intro t t1 t2 t' index amount op who u :
  TreeInv t → fee_step t t1 0 → restaked t1 t2 index (signed op amount) who → 0 ≤ amount →
  match parent_index index with
  | Some parent => update_descendant_stake_of_ancestors d parent amount op
  | None => mret tt
  end t2 = (Ok u, t') →
  restake_step t t' who (signed op amount).
Proof.
  intros Ht Hf Hr Ham Hu. pose proof (fs_total _ _ _ Hf) as Hfees.
  destruct (fee_step_inv t t1 0 Hf Ht) as (Ht1 & Hst & Hsh).
  pose proof (ti_balanced t1 Ht1) as Hb1.
  destruct (restaked_finish t1 t2 t' index amount op who u Hb1 Hr Ham Hu) as (? & ? & ? & Hw).
  split; [done|lia|lia|]. intros w. by rewrite Hw, Hsh.
Qed.

Lemma fee_step_refl t : Forall nonneg_node (nodes t) → fee_step t t 0.
Proof. by split; [|done|lia]. Qed.

(** A [fee_step] does not look at the list of abandoned nodes. *)
Lemma fee_step_abandoned t t' l :
  fee_step (set_abandoned_nodes l t) t' 0 → fee_step t (set_abandoned_nodes (abandoned_nodes t) t') 0.
Proof. intros [(H1 & H2 & H3) Hn Ht]. split; [|done|done]. by split. Qed.

Lemma take_last_inv t t' o :
  take_last_abandoned_node_index t = (Ok o, t') →
  match o with
  | Some i => ∃ l, abandoned_nodes t = l ++ [i] ∧ t' = set_abandoned_nodes l t
  | None => t' = t
  end.
Proof.
  intros Ht. unfold take_last_abandoned_node_index in Ht. rewrite gets_bind in Ht.
  destruct (list.last (abandoned_nodes t)) as [i|] eqn:Hl; [|run_inv Ht; done].
  run_inv Ht. apply last_Some in Hl as [l ->]. exists l. split; [done|].
  rewrite length_app. cbn. rewrite Nat.add_1_r. cbn. by rewrite take_app_length.
Qed.

Lemma try_insert_account_inv who i t t' u :
  try_insert_account d who i t = (Ok u, t') →
  t' = set_account_to_index (<[who := i]> (account_to_index t)) t.
Proof. unfold try_insert_account. intros Ht. run_inv Ht. done. Qed.

(** The three ways of [join] to find a node. *)
Lemma join_owner who i amount t t2 r :
  TreeInv t → 0 ≤ amount → account_to_index t !! who = Some i →
  (_ ← propagate_fees_to_node d i;
   _ ← mutate_node i (λ node,
         s ← checked_add_res u128_max (stake node) amount; Ok (set_stake s node, tt));
   mret (i, InPlace)) t = (Ok r, t2) →
  ∃ t1, fee_step t t1 0 ∧ restaked t1 t2 r.1 amount who.
Proof.
  intros Ht Ham Hw Hr. pose proof (index_holder t who i (ti_book t Ht) Hw) as (Hi & _).
  apply bind_ok_inv in Hr as (v & t1 & Hp & Hr).
  apply propagate_to_node_step in Hp as [F1 _]; [|done|exact (ti_nonneg t Ht)].
  apply bind_ok_inv in Hr as (v' & s0 & Hm & Hr). run_inv Hr. exists t1. split; [done|].
  destruct (fee_step_inv t t1 0 F1 Ht) as (Ht1 & _ & _). pose proof F1 as [(_ & Ha & _) _ _].
  apply mutate_node_inv in Hm as (n & n' & Hn & Hf & ->). destruct v'. run_inv Hf. checked. intros <-.
  pose proof (Forall_lookup_1 _ _ _ _ (ti_nonneg t1 Ht1) Hn) as (? & _).
  apply (restaked_owner t1 i n); [done|by rewrite Ha|done|done|lia].
Qed.

Lemma join_abandoned who i l amount t t3 r :
  TreeInv t → 0 ≤ amount → account_to_index t !! who = None → abandoned_nodes t = l ++ [i] →
  (r ← (_ ← propagate_fees_to_node d i;
        _ ← mutate_node i (λ node,
              Ok (set_lazy_fees 0 (set_fees 0 (set_stake amount
                (set_account (Some who) node))), tt));
        mret (i, Reassigned));
   _ ← try_insert_account d who r.1; mret r) (set_abandoned_nodes l t) = (Ok r, t3) →
  ∃ t1, fee_step t t1 0 ∧ restaked t1 t3 r.1 amount who.
Proof.
  intros Ht Ham Hw Hl Hr. apply bind_ok_inv in Hr as (r' & t2 & Hcase & Hr).
  apply bind_ok_inv in Hr as (v & s0 & Hins & Hr). run_inv Hr.
  apply try_insert_account_inv in Hins as ->.
  assert (0 ≤ i) as Hi by (apply (bk_abandoned t (ti_book t Ht) i); rewrite Hl; set_solver).
  apply bind_ok_inv in Hcase as (v' & t1 & Hp & Hcase).
  apply propagate_to_node_step in Hp as [F1 _]; [|done|exact (ti_nonneg t Ht)].
  apply bind_ok_inv in Hcase as (w & s0 & Hm & Hcase). run_inv Hcase.
  apply mutate_node_inv in Hm as (n & n' & Hn & [= <- _] & ->).
  pose proof F1 as [(_ & Ha & Hab) _ _]. apply fee_step_abandoned in F1.
  destruct (fee_step_inv t _ 0 F1 Ht) as (Ht1 & _ & _). eexists. split; [exact F1|].
  epose proof (restaked_stranger _ l i n _ who amount Ht1) as Hrs.
  cbn in Ha, Hab, Hrs |- *. rewrite Ha, Hl in Hrs. unfold set_account_to_index, set_nodes. cbn. rewrite Ha, Hab, Hl. by apply Hrs.
Qed.

Lemma join_leaf who amount t t3 r :
  TreeInv t → 0 ≤ amount → account_to_index t !! who = None →
  (r ← (leaf ← gets (peek_next_free_leaf d);
        match leaf with
        | Some index =>
            _ ← match parent_index index with
                | Some parent => propagate_fees_to_node d parent
                | None => mret tt
                end;
            _ ← try_push_node d (Node_new who amount);
            mret (index, Leaf)
        | None => fail LT_TreeIsFull
        end);
   _ ← try_insert_account d who r.1; mret r) t = (Ok r, t3) →
  ∃ t1, fee_step t t1 0 ∧ restaked t1 t3 r.1 amount who.
Proof.
  intros Ht Ham Hw Hr. apply bind_ok_inv in Hr as (r' & t2 & Hcase & Hr).
  apply bind_ok_inv in Hr as (v & s0 & Hins & Hr). run_inv Hr.
  apply try_insert_account_inv in Hins as ->.
  apply bind_ok_inv in Hcase as (leaf & s0 & Hleaf & Hcase). run_inv Hleaf.
  unfold peek_next_free_leaf in Hcase.
  destruct (Z.ltb_spec (node_count t) (max_node_count d)); [|by run_inv Hcase].
  apply bind_ok_inv in Hcase as (v' & t1 & Hp & Hcase).
  apply bind_ok_inv in Hcase as (w & s0 & Hpush & Hcase). run_inv Hcase.
  unfold try_push_node in Hpush. run_inv Hpush.
  pose proof (ti_nonneg t Ht) as Hnn.
  assert (fee_step t t1 0) as F1.
  { unfold parent_index in Hp. destruct (Z.eqb_spec (node_count t) 0) as [|Hc0].
    - run_inv Hp. by apply fee_step_refl.
    - apply propagate_to_node_step in Hp as [F1 _]; [done| |done].
      apply Z.div_pos; [|done]. unfold node_count in *. lia. }
  destruct (fee_step_inv t t1 0 F1 Ht) as (Ht1 & _ & _). pose proof F1 as [Hs _ _].
  pose proof (same_shape_count t t1 Hs) as Hc. destruct Hs as (_ & Ha & _).
  exists t1. split; [done|]. cbn [fst]. rewrite <- Hc.
  apply (restaked_leaf t1); [done|by rewrite Ha|lia|done].
Qed.

Lemma join_step who amount t t' info :
  TreeInv t → 0 ≤ amount → join d who amount t = (Ok info, t') → restake_step t t' who amount.
Proof.
  intros Ht Ham Hj. unfold join in Hj. rewrite gets_bind in Hj.
  apply bind_ok_inv in Hj as (r & t2 & Hr & Hj).
  assert (∃ t1, fee_step t t1 0 ∧ restaked t1 t2 r.1 amount who) as (t1 & F1 & R1).
  { destruct (account_to_index t !! who) as [i|] eqn:Hw; [by eapply join_owner|].
    apply bind_ok_inv in Hr as (o & t0 & Ho & Hr). apply take_last_inv in Ho. destruct o as [i|].
    - destruct Ho as (l & Hl & ->). by apply (join_abandoned who i l amount t t2 r).
    - subst t0. by eapply join_leaf. }
  destruct r as [index bi]. apply bind_ok_inv in Hj as (u & s0 & Hu & Hj). run_inv Hj.
  change amount with (signed Add amount). by eapply restake_step_intro.
Qed.

(** The owner of the node [i] leaves. *)
Lemma restaked_leaves t i n who :
  TreeInv t → account_to_index t !! who = Some i → nodes t !! Z.to_nat i = Some n →
  restaked t (mk_LiquidityTree (<[Z.to_nat i := set_account None (set_stake 0 n)]> (nodes t))
    (delete who (account_to_index t)) (abandoned_nodes t ++ [i])) i (- stake n) who.
Proof.
  intros Ht Hw Hn. pose proof (ti_book t Ht) as Hb.
  pose proof (index_holder t who i Hb Hw) as (Hi & _).
  pose proof (Forall_lookup_1 _ _ _ _ (ti_nonneg t Ht) Hn) as (? & ? & ? & ?).
  pose proof (lookup_count t i n Hi Hn) as Hc. set (n' := set_account None _).
  apply (restaked_node t _ i n n'); try done; cbn; try lia.
  - by apply book_abandon.
  - intros w. unfold shares. cbn [account_to_index].
    change (at_node stake (mk_LiquidityTree ?a ?b ?c)) with
      (at_node stake (set_nodes (<[Z.to_nat i := n']> (nodes t)) t)).
    destruct (decide (w = who)) as [->|Hne].
    + rewrite lookup_delete_eq, Hw. unfold at_node. rewrite Hn. lia.
    + rewrite lookup_delete_ne by done. destruct (account_to_index t !! w) as [j|] eqn:Hj; [|done].
      pose proof (index_holder t w j Hb Hj) as (Hj0 & _). rewrite at_node_insert by done.
      destruct (Z.eqb_spec i j) as [->|]; [|lia]. destruct Hne. by apply (index_inj t w who j).
Qed.

Lemma exit_step who amount t t' u :
  TreeInv t → 0 ≤ amount → exit d who amount t = (Ok u, t') →
  amount ≤ shares t who ∧ restake_step t t' who (- amount).
Proof.
  intros Ht Ham He. unfold exit in He.
  apply bind_ok_inv in He as (index & s0 & Hw & He). unfold map_account_to_index in Hw. run_inv Hw.
  pose proof (index_holder t who index (ti_book t Ht) Hw) as (Hi & _).
  apply bind_ok_inv in He as (v & t1 & Hp & He).
  apply propagate_to_node_step in Hp as [F1 _]; [|done|exact (ti_nonneg t Ht)].
  destruct (fee_step_inv t t1 0 F1 Ht) as (Ht1 & _ & Hsh). pose proof F1 as [(_ & Ha & _) _ _].
  rewrite <- Ha in Hw.
  apply bind_ok_inv in He as (node & s0 & Hn & He). apply get_node_inv in Hn as [Hn ->].
  apply bind_ok_inv in He as (v' & s0 & He0 & He). run_inv He0.
  apply bind_ok_inv in He as (rest & t2 & Hm & He).
  apply mutate_node_inv in Hm as (n & n' & Hn' & Hf & ->). assert (n = node) as -> by congruence.
  assert (amount ≤ stake node ∧ rest = stake node - amount ∧ n' = set_stake rest node)
    as (Hle & -> & ->).
  { run_inv Hf. destruct (Z.leb_spec amount (stake node)); [|done]. intros <- <-. naive_solver. }
  assert (shares t who = stake node) as ->
    by (rewrite <- Hsh; unfold shares, at_node; by rewrite Hw, Hn).
  split; [done|]. apply bind_ok_inv in He as (v'' & t2 & Hcase & He).
  change (- amount) with (signed Sub amount).
  eapply restake_step_intro; [exact Ht|exact F1| |exact Ham|exact He]. cbn [signed].
  destruct (Z.eqb_spec (stake node - amount) 0) as [Hz|Hz].
  - apply bind_ok_inv in Hcase as (w1 & t3 & Hm & Hcase).
    apply mutate_node_inv in Hm as (m & m' & Hm & [= <- _] & ->). unfold try_push_abandoned in Hcase.
    run_inv Hcase. cbn in Hm. rewrite list_lookup_insert_eq in Hm by (by eapply lookup_lt_Some).
    injection Hm as <-. cbn. rewrite list_insert_insert_eq, Hz.
    replace (- amount) with (- stake node) by lia. by apply restaked_leaves.
  - run_inv Hcase. apply (restaked_owner t1 index node); [done..| |lia]. by rewrite Z.add_opp_r.
Qed.

Lemma deposit_step amount t t' u :
  TreeInv t → 0 ≤ amount → deposit_fees amount t = (Ok u, t') → fee_step t t' amount.
Proof.
  intros Ht Ham Hd. unfold deposit_fees in Hd. pose proof (ti_nonneg t Ht) as Hnn.
  apply give_to_rhs in Hd as (H & _ & _); done.
Qed.

Lemma withdraw_step who t t' amount :
  TreeInv t → withdraw_fees d who t = (Ok amount, t') → 0 ≤ amount ∧ fee_step t t' (- amount).
Proof.
  intros Ht Hx. unfold withdraw_fees in Hx.
  apply bind_ok_inv in Hx as (index & s0 & Hw & Hx). unfold map_account_to_index in Hw. run_inv Hw.
  pose proof (index_holder t who index (ti_book t Ht) Hw) as (Hi & _).
  apply bind_ok_inv in Hx as (v & t1 & Hp & Hx).
  apply propagate_to_node_step in Hp as [F1 N1]; [|done|exact (ti_nonneg t Ht)].
  apply mutate_node_inv in Hx as (n & n' & Hn & [= <- <-] & ->).
  pose proof (Forall_lookup_1 _ _ _ _ N1 Hn) as (? & ? & ? & ?). split; [done|].
  assert (nonneg_node n → nonneg_node (set_fees 0 n)) as Hnn by (unfold nonneg_node; cbn; lia).
  pose proof (fee_step_update t1 _ n (set_fees 0 n) Hn eq_refl Hnn) as F2.
  eapply fee_step_trans; [exact F1|exact F2|]. unfold owed. cbn. lia.
Qed.
End Invariant.

(** ** Runs of a pool *)
Section Runs.
Context (d : Z).
Implicit Types t : LiquidityTree.

Inductive TreeCall : Type :=
| Join (who : AccountId) (amount : Balance)
| Exit (who : AccountId) (amount : Balance)
| Deposit (amount : Balance)
| Withdraw (who : AccountId).

Definition valid_call (c : TreeCall) : Prop :=
  match c with Join _ a | Exit _ a | Deposit a => in_u128 a | Withdraw _ => True end.

(** A tree with the fees deposited and withdrawn so far. *)
Definition Account : Type := LiquidityTree * Balance * Balance.

(** A call, inside the transaction of the extrinsic that makes it. *)
Definition call (c : TreeCall) (s : Account) : Account :=
  let '(t, deposited, withdrawn) := s in
  match c with
  | Join who amount =>
      match join d who amount t with (Ok _, t') => (t', deposited, withdrawn) | _ => s end
  | Exit who amount =>
      match exit d who amount t with (Ok _, t') => (t', deposited, withdrawn) | _ => s end
  | Deposit amount =>
      match deposit_fees amount t with
      | (Ok _, t') => (t', deposited + amount, withdrawn)
      | _ => s
      end
  | Withdraw who =>
      match withdraw_fees d who t with
      | (Ok amount, t') => (t', deposited, withdrawn + amount)
      | _ => s
      end
  end.

Definition run_calls (cs : list TreeCall) (s : Account) : Account := foldl (flip call) s cs.

Definition solvent (s : Account) : Prop :=
  let '(t, deposited, withdrawn) := s in
  TreeInv d t ∧ 0 ≤ withdrawn ∧ withdrawn + total_fees t ≤ deposited.

Lemma new_inv who amount t :
  0 ≤ amount → new d who amount = Ok t →
  TreeInv d t ∧ total_fees t = 0 ∧ stakes t = amount ∧
  ∀ w, shares t w = if decide (w = who) then amount else 0.
Proof.
  intros Ham Hn. unfold new in Hn. run_inv Hn. guards. intros <-.
  assert (∀ j, 0 ≤ j → nodes (mk_LiquidityTree [Node_new who amount] {[who := 0]} []) !! Z.to_nat j =
    if decide (j = 0) then Some (Node_new who amount) else None) as Hat.
  { intros j Hj. cbn. destruct (decide (j = 0)) as [->|]; [done|].
    apply lookup_ge_None_2. cbn. lia. }
  split; [split|split; [|split]].
  - constructor; [|constructor]. unfold nonneg_node. cbn. lia.
  - intros i Hi. unfold at_node. rewrite !Hat by lia. rewrite (decide_False (P := 2 * i + 1 = 0)) by lia.
    rewrite (decide_False (P := 2 * i + 2 = 0)) by lia. by destruct (decide (i = 0)).
  - split; cbn [account_to_index abandoned_nodes].
    + intros w i. unfold holder_at. split.
      * intros Hw. apply lookup_singleton_Some in Hw as [<- <-]. split; [done|]. by exists amount.
      * intros [Hi [s Hs]]. rewrite Hat in Hs by done. destruct (decide (i = 0)); [|done].
        injection Hs as <- _. subst i. apply lookup_singleton_eq.
    + intros i. split; [set_solver|]. intros [Hi [s Hs]]. unfold holder_at in Hs.
      rewrite Hat in Hs by done. by destruct (decide (i = 0)).
    + constructor.
    + intros i s Hi Hs. unfold holder_at in Hs. rewrite Hat in Hs by done. by destruct (decide (i = 0)).
  - change (node_count _) with 1. lia.
  - done.
  - unfold stakes. cbn. lia.
  - intros w. unfold shares. cbn [account_to_index]. destruct (decide (w = who)) as [->|].
    + by rewrite lookup_singleton_eq.
    + by rewrite lookup_singleton_ne.
Qed.

Lemma call_solvent c s : valid_call c → solvent s → solvent (call c s).
Proof.
  destruct s as [[t dep] wd]. intros Hc (Ht & Hwd & Hs). destruct c as [who a|who a|a|who]; cbn.
  - destruct (join d who a t) as [[info|] t'] eqn:Hr; [|done].
    apply join_step in Hr as [? ? _ _]; [|done|apply Hc]. split; [done|]. lia.
  - destruct (exit d who a t) as [[info|] t'] eqn:Hr; [|done].
    apply exit_step in Hr as [_ [? ? _ _]]; [|done|apply Hc]. split; [done|]. lia.
  - destruct (deposit_fees a t) as [[u|] t'] eqn:Hr; [|done].
    apply (deposit_step d) in Hr; [|done|apply Hc]. pose proof (fs_total _ _ _ Hr).
    apply (fee_step_inv d) in Hr as [? _]; [|done]. split; [done|]. lia.
  - destruct (withdraw_fees d who t) as [[a|] t'] eqn:Hr; [|done].
    apply withdraw_step in Hr as [? Hr]; [|done]. pose proof (fs_total _ _ _ Hr).
    apply (fee_step_inv d) in Hr as [? _]; [|done]. split; [done|]. lia.
Qed.

Lemma run_calls_solvent cs s : Forall valid_call cs → solvent s → solvent (run_calls cs s).
Proof.
  intros Hcs. revert s. induction Hcs as [|c cs Hc _ IH]; intros s Hs; [done|].
  apply IH. by apply call_solvent.
Qed.

Lemma run_from_new who amount t cs :
  in_u128 amount → Forall valid_call cs → new d who amount = Ok t →
  solvent (run_calls cs (t, 0, 0)).
Proof.
  intros [Ham _] Hcs Hn. apply run_calls_solvent; [done|].
  apply new_inv in Hn as (Ht & Hf & _); [|done]. split; [done|]. lia.
Qed.

Lemma total_shares_sum t :
  TreeInv d t → total_shares t = (checked_add_res u128_max 0 (stakes t), t).
Proof.
  intros [_ Hb _ [Hsz _]]. apply root_weight in Hb as Hw. fold (stakes t) in Hw. unfold total_shares.
  unfold at_node in Hw. unfold node_count in Hsz.
  destruct (nodes t !! Z.to_nat 0) as [root|] eqn:Hroot.
  2:{ apply lookup_ge_None in Hroot. lia. }
  rewrite (bind_ok _ _ _ _ _ (get_node_ok 0 t root Hroot)). unfold lift, total_stake.
  rewrite <- Hw. unfold weight, checked_add_res. cbn. done.
Qed.

(** ** Properties *)

(** (C9) The tree never pays out more than it took in: after any sequence of
    joins, exits, deposits and withdrawals on a new tree, the fees withdrawn so far
    together with everything still owed to the nodes are at most the fees deposited,
    and the invariant of the tree holds (accounts and abandoned nodes describe the
    nodes, descendant stakes are what the children weigh, nothing is negative). *)
Theorem fees_solvent who amount t cs t' deposited withdrawn :
  in_u128 amount → Forall valid_call cs → new d who amount = Ok t →
  run_calls cs (t, 0, 0) = (t', deposited, withdrawn) →
  TreeInv d t' ∧ 0 ≤ withdrawn ∧ withdrawn + total_fees t' ≤ deposited.
Proof.
  intros Ham Hcs Hn Hr. pose proof (run_from_new who amount t cs Ham Hcs Hn) as Hs.
  by rewrite Hr in Hs.
Qed.

(** Reading the root is reading the whole tree: on every reachable tree
    [total_shares] returns the sum of all stakes, or the overflow error when that sum
    does not fit, and changes nothing. *)
Theorem total_shares_is_sum who amount t cs t' deposited withdrawn :
  in_u128 amount → Forall valid_call cs → new d who amount = Ok t →
  run_calls cs (t, 0, 0) = (t', deposited, withdrawn) →
  total_shares t' = (checked_add_res u128_max 0 (stakes t'), t').
Proof.
  intros Ham Hcs Hn Hr. pose proof (run_from_new who amount t cs Ham Hcs Hn) as Hs.
  rewrite Hr in Hs. destruct Hs as [Ht _]. by apply total_shares_sum.
Qed.

(** Joining adds exactly the amount to the stake of the account that joins and
    to the sum of all stakes, leaves every other account's stake alone, creates no
    fees, and keeps the invariant, whichever of the three kinds of node it gets. *)
Theorem join_effect who amount t t' info :
  TreeInv d t → in_u128 amount → join d who amount t = (Ok info, t') →
  TreeInv d t' ∧ stakes t' = stakes t + amount ∧ total_fees t' ≤ total_fees t ∧
  ∀ w, shares t' w = shares t w + (if decide (w = who) then amount else 0).
Proof.
  intros Ht [Ham _] Hj. by apply join_step in Hj as [? ? ? ?].
Qed.

(** Leaving takes exactly the amount from the stake of the account that leaves,
    never more than it has, leaves every other account's stake alone, creates no fees,
    and keeps the invariant, also when the node is abandoned. *)
Theorem exit_effect who amount t t' u :
  TreeInv d t → in_u128 amount → exit d who amount t = (Ok u, t') →
  amount ≤ shares t who ∧ TreeInv d t' ∧ stakes t' = stakes t - amount ∧
  total_fees t' ≤ total_fees t ∧
  ∀ w, shares t' w = shares t w - (if decide (w = who) then amount else 0).
Proof.
  intros Ht [Ham _] He. apply exit_step in He as [? [? ? ? Hw]]; [|done..].
  do 4 (split; [done|]). intros w. rewrite Hw. destruct (decide _); lia.
Qed.
End Runs.

(** ** Paths from the root *)

Definition path_from_root (path : list Z) (i : Z) : Prop :=
  head path = Some 0 ∧ last path = Some i ∧
  ∀ k a b, path !! k = Some a → path !! S k = Some b → parent_index b = Some a.

Lemma path_to_node_loop_correct fuel i path :
  path_to_node_loop fuel i = Ok path → path_from_root path i.
Proof.
  revert i path. induction fuel as [|fuel IH]; intros i path Hp; cbn in Hp; [done|].
  destruct (parent_index i) as [p|] eqn:Hpar.
  - destruct (path_to_node_loop fuel p) as [q|] eqn:Hq; [|done]. injection Hp as <-.
    destruct (IH p q Hq) as (Hh & Hl & Hc). split; [by destruct q|].
    split; [by rewrite last_snoc|]. intros k a b Ha Hb.
    apply lookup_app_Some in Hb as [Hb|[Hlen Hb]].
    + apply (Hc k); [|done]. rewrite lookup_app_l in Ha; [done|].
      apply lookup_lt_Some in Hb. lia.
    + assert (S k = length q) as Hk.
      { apply lookup_lt_Some in Hb. cbn in Hb. lia. }
      rewrite Hk, Nat.sub_diag in Hb. injection Hb as <-.
      rewrite lookup_app_l in Ha by lia. rewrite last_lookup, <- Hk in Hl. cbn in Hl. congruence.
  - unfold parent_index in Hpar. destruct (Z.eqb_spec i 0) as [->|]; [|done]. injection Hp as <-.
    split; [done|]. split; [done|]. intros [] a b Ha Hb; done.
Qed.

(** [MaxIterationsReached] never happens: for every index a tree of depth [d]
    can hold, [path_to_node] stops within its iterations and returns the path that
    starts at the root, ends at the node and goes from parent to child. *)
Theorem path_to_node_correct d i :
  0 ≤ d < u32_max → 0 ≤ i < max_node_count d →
  ∃ path, path_to_node d i = Ok path ∧ path_from_root path i.
Proof.
  intros Hd Hi. unfold max_node_count, saturating_sub in Hi. unfold path_to_node, checked_add_res.
  destruct (Z.leb_spec (d + 1) u32_max); [|lia]. cbn.
  pose proof (path_to_node_total (Z.to_nat (d + 1)) i) as Hok.
  destruct (path_to_node_loop (Z.to_nat (d + 1)) i) as [path|e] eqn:Hp.
  - exists path. split; [done|]. by eapply path_to_node_loop_correct.
  - discriminate Hok. rewrite Z2Nat.id by lia. lia.
Qed.

(** ** Examples *)
Module TreeExample.
Definition alice : AccountId := 1.
Definition bob : AccountId := 2.
Definition carol : AccountId := 3.
Definition dave : AccountId := 4.
Definition seed : LiquidityTree :=
  mk_LiquidityTree [Node_new alice (60 * BASE)] {[alice := 0]} [].
(** Bob leaves, Dave takes over his node. *)
Definition calls : list TreeCall :=
  [Join bob (30 * BASE); Join carol (10 * BASE); Deposit (10 * BASE); Withdraw bob;
   Exit bob (30 * BASE); Join dave (20 * BASE); Deposit (9 * BASE); Withdraw dave;
   Withdraw alice; Exit carol (20 * BASE)].
Definition final : Account := run_calls 2 calls (seed, 0, 0).

Lemma calls_valid : Forall valid_call calls.
Proof. repeat constructor; vm_compute; done. Defined.

Lemma fees_solvent_witness :
  TreeInv 2 final.1.1 ∧ 0 ≤ final.2 ∧ final.2 + total_fees final.1.1 ≤ final.1.2.
Proof.
  apply (fees_solvent 2 alice (60 * BASE) seed calls final.1.1 final.1.2 final.2).
  - by vm_compute.
  - apply calls_valid.
  - reflexivity.
  - vm_compute. reflexivity.
Defined.

Lemma total_shares_is_sum_witness :
  total_shares final.1.1 = (checked_add_res u128_max 0 (stakes final.1.1), final.1.1) ∧
  stakes final.1.1 = 90 * BASE.
Proof.
  split; [|by vm_compute].
  apply (total_shares_is_sum 2 alice (60 * BASE) seed calls final.1.1 final.1.2 final.2).
  - by vm_compute.
  - apply calls_valid.
  - reflexivity.
  - vm_compute. reflexivity.
Defined.

Lemma seed_inv : TreeInv 2 seed.
Proof. by apply (new_inv 2 alice (60 * BASE) seed). Defined.

Definition joined : LiquidityTree := (join 2 bob (30 * BASE) seed).2.

Lemma join_effect_witness :
  TreeInv 2 joined ∧ stakes joined = stakes seed + 30 * BASE ∧
  total_fees joined ≤ total_fees seed ∧
  ∀ w, shares joined w = shares seed w + (if decide (w = bob) then 30 * BASE else 0).
Proof.
  apply (join_effect 2 bob (30 * BASE) seed joined Leaf); [apply seed_inv|by vm_compute|reflexivity].
Defined.

Lemma joined_inv : TreeInv 2 joined.
Proof. by apply (join_step 2 bob (30 * BASE) seed joined Leaf seed_inv). Defined.

Definition left_tree : LiquidityTree := (exit 2 bob (30 * BASE) joined).2.

Lemma exit_effect_witness :
  30 * BASE ≤ shares joined bob ∧ TreeInv 2 left_tree ∧
  stakes left_tree = stakes joined - 30 * BASE ∧ total_fees left_tree ≤ total_fees joined ∧
  ∀ w, shares left_tree w = shares joined w - (if decide (w = bob) then 30 * BASE else 0).
Proof.
  apply (exit_effect 2 bob (30 * BASE) joined left_tree tt);
    [apply joined_inv|by vm_compute|reflexivity].
Defined.

Lemma path_to_node_correct_witness :
  ∃ path, path_to_node 2 6 = Ok path ∧ path_from_root path 6.
Proof. apply (path_to_node_correct 2 6); by vm_compute. Defined.
End TreeExample.
