(* ===== verification/LiquidityShares.v ===== *)
(** * The contract of the managers of liquidity shares

    [zrml/neo-swaps/src/traits/liquidity_shares_manager.rs] as an interface, what it
    promises as a transition relation on an abstract ledger of shares, and a proof that
    both implementations keep the promise: [LiquidityTree], which the pools use, and
    [SoloLp] ([zrml/neo-swaps/src/types/solo_lp.rs]), which the pools had before
    [Migrations] replaced it. *)
From S2P Require Import Prelude Types Errors Fixed LiquidityTree.

(** ** The trait *)

(** [M] is the manager; the information for benchmarks that [join] returns is dropped. *)
Class LiquiditySharesManager (M : Type) := {
  lsm_join : AccountId → Balance → Store M unit;
  lsm_exit : AccountId → Balance → Store M unit;
  lsm_split : AccountId → AccountId → Balance → Store M unit;
  lsm_deposit_fees : Balance → Store M unit;
  lsm_withdraw_fees : AccountId → Store M Balance;
  lsm_shares_of : AccountId → M → Res Balance;
  lsm_total_shares : M → Res Balance;
}.

#[export] Instance LiquidityTree_manager (max_depth : Z) : LiquiditySharesManager LiquidityTree := {
  lsm_join who amount := (_ ← join max_depth who amount; mret tt);
  lsm_exit := exit max_depth;
  lsm_split := split;
  lsm_deposit_fees := deposit_fees;
  lsm_withdraw_fees := withdraw_fees max_depth;
  lsm_shares_of who t := (shares_of who t).1;
  lsm_total_shares t := (total_shares t).1;
}.

(** ** [SoloLp] *)

Definition checked_add (m x y : Z) : option Z := if x + y <=? m then Some (x + y) else None.
Definition checked_sub (x y : Z) : option Z := if y <=? x then Some (x - y) else None.

Record SoloLp : Type := mk_SoloLp {
  owner : AccountId;
  solo_total_shares : Balance;
  solo_fees : Balance;
}.
Definition set_solo_shares (x : Balance) (m : SoloLp) : SoloLp := mk_SoloLp (owner m) x (solo_fees m).
Definition set_solo_fees (x : Balance) (m : SoloLp) : SoloLp := mk_SoloLp (owner m) (solo_total_shares m) x.

Definition solo_new (who : AccountId) (total : Balance) : SoloLp := mk_SoloLp who total 0.

Definition solo_join (who : AccountId) (shares : Balance) : Store SoloLp unit :=
  o ← gets owner;
  _ ← ensure (who =? o) NS_NotAllowed;
  total ← gets solo_total_shares;
  total ← ok_or (checked_add u128_max total shares) NS_MathError;
  modify (set_solo_shares total).

Definition solo_exit (who : AccountId) (shares : Balance) : Store SoloLp unit :=
  o ← gets owner;
  _ ← ensure (who =? o) NS_NotAllowed;
  total ← gets solo_total_shares;
  _ ← ensure (shares <=? total) NS_InsufficientPoolShares;
  total ← ok_or (checked_sub total shares) NS_MathError;
  modify (set_solo_shares total).

Definition solo_split (sender receiver : AccountId) (amount : Balance) : Store SoloLp unit :=
  fail NS_NotImplemented.

Definition solo_deposit_fees (amount : Balance) : Store SoloLp unit :=
  fees ← gets solo_fees;
  fees ← ok_or (checked_add u128_max fees amount) NS_MathError;
  modify (set_solo_fees fees).

Definition solo_withdraw_fees (who : AccountId) : Store SoloLp Balance :=
  o ← gets owner;
  _ ← ensure (who =? o) NS_NotAllowed;
  result ← gets solo_fees;
  _ ← modify (set_solo_fees 0);
  mret result.

Definition solo_shares_of (who : AccountId) (m : SoloLp) : Res Balance :=
  _ ← ensureR (who =? owner m) NS_NotAllowed;
  Ok (solo_total_shares m).

#[export] Instance SoloLp_manager : LiquiditySharesManager SoloLp := {
  lsm_join := solo_join;
  lsm_exit := solo_exit;
  lsm_split := solo_split;
  lsm_deposit_fees := solo_deposit_fees;
  lsm_withdraw_fees := solo_withdraw_fees;
  lsm_shares_of := solo_shares_of;
  lsm_total_shares m := Ok (solo_total_shares m);
}.

(** ** The contract *)

Inductive Request : Type :=
| Join (who : AccountId) (amount : Balance)
| Exit (who : AccountId) (amount : Balance)
| Split (sender receiver : AccountId) (amount : Balance)
| DepositFees (amount : Balance)
| WithdrawFees (who : AccountId)
| SharesOf (who : AccountId)
| TotalShares.

Inductive Answer : Type := Done | Amount (x : Balance) | Refused (e : DispatchError).

(** Balances are unsigned integers of 128 bits. *)
Definition valid_request (r : Request) : Prop :=
  match r with
  | Join _ x | Exit _ x | Split _ _ x | DepositFees x => in_u128 x
  | _ => True
  end.

Definition is_query (r : Request) : bool :=
  match r with SharesOf _ | TotalShares => true | _ => false end.

(** The shares of every account, and the fees that are not withdrawn yet. *)
Record Contract : Type := mk_Contract { holdings : gmap AccountId Balance; pot : Balance }.

Definition holding (c : Contract) (who : AccountId) : Balance := default 0 (holdings c !! who).
Definition issuance (c : Contract) : Balance := map_sum (λ _ x, x) (holdings c).
Definition credit (who : AccountId) (x : Balance) (c : Contract) : Contract :=
  mk_Contract (<[who := holding c who + x]> (holdings c)) (pot c).
Definition collect (x : Balance) (c : Contract) : Contract := mk_Contract (holdings c) (pot c + x).

(** What a manager may answer. Joining and leaving are exact and nobody leaves with more
    than they have; a withdrawal takes at most the fees that are left; the queries are
    exact. Any change may be refused, and then it changes nothing. *)
Inductive promises : Request → Answer → Contract → Contract → Prop :=
| joined who x c : promises (Join who x) Done c (credit who x c)
| left who x c : x ≤ holding c who → promises (Exit who x) Done c (credit who (- x) c)
| deposited x c : promises (DepositFees x) Done c (collect x c)
| withdrew who x c : 0 ≤ x ≤ pot c → promises (WithdrawFees who) (Amount x) c (collect (- x) c)
| shares_told who c : promises (SharesOf who) (Amount (holding c who)) c c
| shares_unknown who e c : holding c who = 0 → promises (SharesOf who) (Refused e) c c
| total_told c : promises TotalShares (Amount (issuance c)) c c
| total_overflow e c : u128_max < issuance c → promises TotalShares (Refused e) c c
| refused r e c : is_query r = false → promises r (Refused e) c c.

(** A conversation: the answers to the requests, one after the other. *)
Inductive conversation : list Request → list Answer → Contract → Contract → Prop :=
| conversation_nil c : conversation [] [] c c
| conversation_cons r a c c' rs ans c'' :
    promises r a c c' → conversation rs ans c' c'' → conversation (r :: rs) (a :: ans) c c''.

(** ** Managers *)
Section Managers.
Context {M : Type} `{LiquiditySharesManager M}.

(** The caller is an extrinsic: what a refused call changed is rolled back. *)
Definition respond (r : Request) (m : M) : Answer * M :=
  let run {A} (op : Store M A) (ans : A → Answer) : Answer * M :=
    match op m with (Ok x, m') => (ans x, m') | (Err e, _) => (Refused e, m) end in
  let ask (x : Res Balance) : Answer * M :=
    match x with Ok x => (Amount x, m) | Err e => (Refused e, m) end in
  match r with
  | Join who x => run (lsm_join who x) (λ _, Done)
  | Exit who x => run (lsm_exit who x) (λ _, Done)
  | Split from to x => run (lsm_split from to x) (λ _, Done)
  | DepositFees x => run (lsm_deposit_fees x) (λ _, Done)
  | WithdrawFees who => run (lsm_withdraw_fees who) Amount
  | SharesOf who => ask (lsm_shares_of who m)
  | TotalShares => ask (lsm_total_shares m)
  end.

Fixpoint converse (rs : list Request) (m : M) : list Answer * M :=
  match rs with
  | [] => ([], m)
  | r :: rs =>
      let '(a, m') := respond r m in
      let '(ans, m'') := converse rs m' in
      (a :: ans, m'')
  end.

(** A manager that keeps the contract: its states stand for states of the contract, and
    every answer is one the contract allows. *)
Class Implements (stands_for : M → Contract → Prop) : Prop :=
  respond_promises r m c : valid_request r → stands_for m c →
    ∃ c', promises r (respond r m).1 c c' ∧ stands_for (respond r m).2 c'.

Lemma converse_promises (stands_for : M → Contract → Prop) `{!Implements stands_for} rs m c :
  Forall valid_request rs → stands_for m c →
  ∃ c', conversation rs (converse rs m).1 c c' ∧ stands_for (converse rs m).2 c'.
Proof.
  intros Hrs. revert m c. induction Hrs as [|r rs Hr _ IH]; intros m c Hm; cbn [converse].
  { exists c. split; [constructor|done]. }
  destruct (respond_promises r m c Hr Hm) as (c1 & Hp & Hm1).
  destruct (respond r m) as [a m1]. destruct (IH m1 c1 Hm1) as (c2 & Hc & Hm2).
  destruct (converse rs m1) as [ans m2]. exists c2. split; [by econstructor|done].
Qed.
End Managers.

(** ** What the contract guarantees *)

Lemma holding_credit who x c w :
  holding (credit who x c) w = holding c w + (if decide (w = who) then x else 0).
Proof.
  unfold holding, credit. cbn. destruct (decide (w = who)) as [->|].
  - by rewrite lookup_insert_eq.
  - rewrite lookup_insert_ne by done. lia.
Qed.

Lemma issuance_credit who x c : issuance (credit who x c) = issuance c + x.
Proof.
  unfold issuance, credit. cbn. rewrite map_sum_update. unfold entry, holding.
  destruct (holdings c !! who); cbn; lia.
Qed.

(** ** The liquidity tree keeps the contract *)
Section Tree.
Context (d : Z).

Definition tree_stands_for (t : LiquidityTree) (c : Contract) : Prop :=
  TreeInv d t ∧ (∀ w, holding c w = shares t w) ∧ issuance c = stakes t ∧ total_fees t ≤ pot c.

Lemma total_fees_nonneg t : TreeInv d t → 0 ≤ total_fees t.
Proof.
  intros [Hn _ _ _]. apply zsum_nonneg. intros n Hin. pose proof (proj1 (Forall_forall _ _) Hn n Hin) as Hnn.
  unfold nonneg_node, owed in *. lia.
Qed.

Lemma restake_stands t t' who delta c :
  tree_stands_for t c → restake_step d t t' who delta → tree_stands_for t' (credit who delta c).
Proof.
  intros (Ht & Hh & Hi & Hp) [Ht' Hf Hs Hsh]. split; [done|]. split; [|split].
  - intros w. by rewrite holding_credit, Hh, Hsh.
  - by rewrite issuance_credit, Hi, Hs.
  - cbn. lia.
Qed.

Lemma fees_stand t t' gain c :
  tree_stands_for t c → fee_step t t' gain → tree_stands_for t' (collect gain c).
Proof.
  intros (Ht & Hh & Hi & Hp) Hf. pose proof (fs_total _ _ _ Hf) as Hle.
  destruct (fee_step_inv d t t' gain Hf Ht) as (Ht' & Hs & Hsh). split; [done|]. split; [|split].
  - intros w. by rewrite Hsh, <- Hh.
  - by rewrite Hs, <- Hi.
  - cbn. lia.
Qed.

Lemma shares_of_answers t who :
  TreeInv d t → (∃ e, shares_of who t = (Err e, t) ∧ shares t who = 0) ∨
    shares_of who t = (Ok (shares t who), t).
Proof.
  intros Ht. unfold shares. destruct (account_to_index t !! who) as [i|] eqn:Hw.
  - right. destruct (index_holder t who i (ti_book d t Ht) Hw) as (Hi & n & Hn & _).
    unfold at_node. rewrite Hn. unfold shares_of.
    erewrite bind_ok by (unfold map_account_to_index; by rewrite gets_bind, Hw).
    by erewrite bind_ok by (by apply get_node_ok).
  - left. exists LT_AccountNotFound. split; [|done].
    unfold shares_of. apply bind_err. unfold map_account_to_index. by rewrite gets_bind, Hw.
Qed.

#[export] Instance tree_implements : @Implements LiquidityTree (LiquidityTree_manager d) tree_stands_for.
Proof.
  intros r t c Hv Hst. pose proof Hst as (Ht & Hh & Hi & Hp).
  destruct r as [who x|who x|sender receiver x|x|who|who|]; cbn [respond lsm_join lsm_exit lsm_split
    lsm_deposit_fees lsm_withdraw_fees lsm_shares_of lsm_total_shares LiquidityTree_manager].
  - destruct ((_ ← join d who x; mret tt) t) as [[u|e] t'] eqn:Hr; [|by exists c; split; [constructor|]].
    apply bind_ok_inv in Hr as (info & t1 & Hj & Hr). run_inv Hr.
    apply join_step in Hj; [|done|apply Hv]. eexists. split; [constructor|by eapply restake_stands].
  - destruct (exit d who x t) as [[u|e] t'] eqn:Hr; [|by exists c; split; [constructor|]].
    apply exit_step in Hr as [Hle Hr]; [|done|apply Hv].
    eexists. split; [constructor; by rewrite Hh|by eapply restake_stands].
  - exists c. split; [by constructor|done].
  - destruct (deposit_fees x t) as [[u|e] t'] eqn:Hr; [|by exists c; split; [constructor|]].
    apply (deposit_step d) in Hr; [|done|apply Hv]. eexists. split; [constructor|by eapply fees_stand].
  - destruct (withdraw_fees d who t) as [[x|e] t'] eqn:Hr; [|by exists c; split; [constructor|]].
    apply withdraw_step in Hr as [Hx Hr]; [|done]. pose proof (fees_stand t t' _ c Hst Hr) as Hst'.
    pose proof Hst' as (Ht' & _ & _ & Hp'). pose proof (total_fees_nonneg t' Ht'). cbn in Hp'.
    eexists. split; [constructor; lia|exact Hst'].
  - exists c. destruct (shares_of_answers t who Ht) as [(e & -> & Hz)| ->]; cbn.
    + split; [|done]. apply shares_unknown. by rewrite Hh.
    + split; [|done]. rewrite <- Hh. constructor.
  - exists c. rewrite (total_shares_sum d t Ht), <- Hi. unfold checked_add_res. rewrite Z.add_0_l.
    destruct (Z.leb_spec (issuance c) u128_max); cbn; (split; [|done]).
    + constructor.
    + by constructor.
Qed.
End Tree.

(** ** The single provider keeps the contract *)

Definition solo_stands_for (m : SoloLp) (c : Contract) : Prop :=
  in_u128 (solo_total_shares m) ∧ 0 ≤ solo_fees m ≤ pot c ∧ issuance c = solo_total_shares m ∧
  ∀ w, holding c w = if decide (w = owner m) then solo_total_shares m else 0.

(** A refusal changes nothing. *)
Ltac refuse := match goal with c : Contract |- _ => exists c; split; [by constructor|done] end.

#[export] Instance solo_implements : Implements solo_stands_for.
Proof.
  intros r m c Hv Hst. pose proof Hst as (Hu & Hf & Hi & Hh).
  assert (∀ delta, in_u128 (solo_total_shares m + delta) →
    solo_stands_for (set_solo_shares (solo_total_shares m + delta) m) (credit (owner m) delta c)) as Hcredit.
  { intros delta Hd. split; [done|]. split; [done|]. split; [by rewrite issuance_credit, Hi|].
    intros w. rewrite holding_credit, Hh. cbn. destruct (decide _); lia. }
  destruct r as [who x|who x|sender receiver x|x|who|who|]; cbn -[u128_max].
  - unfold solo_join. rewrite gets_bind. destruct (Z.eqb_spec who (owner m)) as [->|];
      [|refuse].
    rewrite ensure_true_bind, gets_bind by done. unfold checked_add.
    destruct (Z.leb_spec (solo_total_shares m + x) u128_max); [|refuse].
    eexists. split; [constructor|apply Hcredit]. cbn in Hv. unfold in_u128 in *. lia.
  - unfold solo_exit. rewrite gets_bind. destruct (Z.eqb_spec who (owner m)) as [->|];
      [|refuse].
    rewrite ensure_true_bind, gets_bind by done. unfold checked_sub.
    destruct (Z.leb_spec x (solo_total_shares m)) as [Hle|]; [|refuse].
    eexists. split; [constructor; rewrite Hh, decide_True by done; done|].
    apply (Hcredit (- x)). cbn in Hv. unfold in_u128 in *. lia.
  - exists c. split; [by constructor|done].
  - destruct Hv as [Hx0 Hx1]. unfold solo_deposit_fees. rewrite gets_bind. unfold checked_add.
    destruct (Z.leb_spec (solo_fees m + x) u128_max); [|refuse].
    eexists. split; [constructor|]. split; [done|]. split; [|done].
    change (0 ≤ solo_fees m + x ≤ pot c + x). lia.
  - unfold solo_withdraw_fees. rewrite gets_bind. destruct (Z.eqb_spec who (owner m)) as [->|];
      [|refuse].
    eexists. split; [constructor; exact Hf|]. split; [done|]. split; [|done].
    change (0 ≤ 0 ≤ pot c + - solo_fees m). lia.
  - exists c. unfold solo_shares_of. destruct (Z.eqb_spec who (owner m)) as [->|Hne]; cbn; (split; [|done]).
    + replace (solo_total_shares m) with (holding c (owner m)); [constructor|].
      by rewrite Hh, decide_True.
    + apply shares_unknown. by rewrite Hh, decide_False.
  - exists c. split; [|done]. rewrite <- Hi. constructor.
Qed.

(** ** Properties *)

Lemma new_stands d who amount t :
  0 ≤ amount → new d who amount = Ok t → tree_stands_for d t (mk_Contract {[who := amount]} 0).
Proof.
  intros Ham Hn. apply new_inv in Hn as (Ht & Hf & Hs & Hsh); [|done]. split; [done|]. split; [|split].
  - intros w. rewrite Hsh. unfold holding. cbn. destruct (decide (w = who)) as [->|].
    + by rewrite lookup_singleton_eq.
    + by rewrite lookup_singleton_ne.
  - rewrite Hs. unfold issuance. cbn. rewrite <- insert_empty, map_sum_insert by done.
    rewrite map_sum_empty. lia.
  - cbn. lia.
Qed.

(** (C8) The liquidity tree refines the contract of a manager of liquidity shares:
    whatever requests a new tree is sent, in whatever order, there is a run of the
    abstract ledger that gives the same answers: it adds exactly what is joined with,
    takes exactly what is left with from those who have it, answers the queries exactly,
    never pays out more fees than were deposited, and is not changed by what is refused. *)
Theorem tree_refines_contract d who amount t rs :
  in_u128 amount → Forall valid_request rs → new d who amount = Ok t →
  ∃ c, conversation rs (@converse _ (LiquidityTree_manager d) rs t).1
         (mk_Contract {[who := amount]} 0) c ∧
    tree_stands_for d (@converse _ (LiquidityTree_manager d) rs t).2 c.
Proof.
  intros [Ham _] Hrs Hn. apply (converse_promises (tree_stands_for d)); [done|].
  by apply (new_stands d).
Qed.

Module SharesExample.
Definition requests : list Request :=
  [Join 2 (30 * BASE); DepositFees (9 * BASE); Exit 2 (30 * BASE); WithdrawFees 2;
   Exit 2 (40 * BASE); Exit 2 (30 * BASE); SharesOf 2; SharesOf 1; TotalShares].
Definition seed : LiquidityTree := mk_LiquidityTree [Node_new 1 (60 * BASE)] {[1 := 0]} [].

(** Fees have to be withdrawn before leaving; who has left is unknown. *)
Example pool_answers : (@converse _ (LiquidityTree_manager 2) requests seed).1 =
  [Done; Done; Refused LT_UnwithdrawnFees; Amount (3 * BASE); Refused LT_InsufficientStake; Done;
   Refused LT_AccountNotFound; Amount (60 * BASE); Amount (60 * BASE)].
Proof. vm_compute. reflexivity. Qed.

Lemma tree_refines_contract_witness :
  ∃ c, conversation requests (@converse _ (LiquidityTree_manager 2) requests seed).1
         (mk_Contract {[1 := 60 * BASE]} 0) c ∧
    tree_stands_for 2 (@converse _ (LiquidityTree_manager 2) requests seed).2 c.
Proof.
  apply (tree_refines_contract 2 1 (60 * BASE) seed requests).
  - by vm_compute.
  - repeat constructor; vm_compute; done.
  - reflexivity.
Defined.
End SharesExample.
