(* ===== verification/LiquidityAccrual.v ===== *)
(** * Fees of a provider in the liquidity tree

    The fees in the node of an account are the account's: no call of the tree takes them
    away but the account's own withdrawal, which pays them. [Migrations] uses this for
    the fees that had accrued before a pool got its tree. *)
From S2P Require Import Prelude Types Errors Fixed LiquidityTree LiquidityShares.

Implicit Types t : LiquidityTree.

(** ** Fees of nodes *)

Definition fees_grow t t' : Prop :=
  ∀ k n, nodes t !! k = Some n → ∃ n', nodes t' !! k = Some n' ∧ fees n ≤ fees n'.
#[export] Instance fees_grow_preorder : PreOrder fees_grow.
Proof.
  split; [by intros t k n ?; exists n|]. intros t1 t2 t3 H12 H23 k n Hn. destruct (H12 k n Hn) as (n2 & Hn2 & ?).
  destruct (H23 k n2 Hn2) as (n3 & ? & ?). exists n3. split; [done|lia].
Qed.

Lemma mutate_node_grow {A} j (f : Node → Res (Node * A)) t t' a :
  mutate_node j f t = (Ok a, t') →
  (∀ n n', nodes t !! Z.to_nat j = Some n → f n = Ok (n', a) → fees n ≤ fees n') →
  fees_grow t t' ∧ account_to_index t' = account_to_index t.
Proof.
  intros (n & n' & Hn & Hf & ->)%mutate_node_inv Hle. split; [|done]. intros k m Hm.
  cbn. destruct (decide (k = Z.to_nat j)) as [->|Hne].
  - rewrite list_lookup_insert_eq by by eapply lookup_lt_Some. exists n'. split; [done|].
    assert (m = n) as -> by congruence. by apply Hle.
  - rewrite list_lookup_insert_ne by done. by exists m.
Qed.

(** Only the node that is propagated from changes its fees, and gains its part. *)
Lemma propagate_fees_grow i t t' u :
  Forall nonneg_node (nodes t) → propagate_fees i t = (Ok u, t') → fees_grow t t'.
Proof.
  intros Hnn Hp. unfold propagate_fees in Hp.
  apply bind_ok_inv in Hp as (n & s0 & Hn & Hp). apply get_node_inv in Hn as [Hn ->].
  apply bind_ok_inv in Hp as (total & s0 & Ht & Hp). run_inv Ht.
  destruct (total =? 0); [by run_inv Hp|].
  apply bind_ok_inv in Hp as (v & t1 & Hdown & Hzero).
  apply mutate_node_grow in Hzero as [Hzero _]; [|by intros m m' _ [= <- _]]. etransitivity; [|exact Hzero]. clear Hzero.
  destruct (is_weak_leaf n).
  { apply mutate_node_grow in Hdown as [? _]; [done|]. intros m m' Hm Hf. destruct v. run_inv Hf. checked. intros <-.
    destruct (Forall_lookup_1 _ _ _ _ Hnn Hm) as (_ & _ & _ & ?). cbn. lia. }
  cbv zeta in Hdown. apply bind_ok_inv in Hdown as (total' & s0 & Ht' & Hdown). run_inv Ht'.
  apply bind_ok_inv in Hdown as (rem & s0 & Hb & Hdown). run_inv Hb.
  apply bind_ok_inv in Hdown as (own & s0 & Hown & Hdown). run_inv Hown. checked.
  apply bind_ok_inv in Hdown as (w & t2 & Hself & Hdown).
  apply mutate_node_grow in Hself as [Hself _]; [|intros m m' _ Hf; destruct w; run_inv Hf; checked; intros <-; cbn; lia].
  apply bind_ok_inv in Hdown as ([l r] & s0 & Hc & Hdown). apply children_inv in Hc as (-> & _ & _). cbn [lhs rhs] in Hdown.
  apply bind_ok_inv in Hdown as (rest & t3 & Hl & Hr).
  assert (fees_grow t2 t3) as Hl'.
  { destruct l as [l|]; [|by run_inv Hl]. apply mutate_node_grow in Hl as [? _]; [done|].
    intros m m' _ Hf. run_inv Hf. checked. by intros <- _. }
  assert (fees_grow t3 t1) as Hr'.
  { destruct r as [r|]; [|by run_inv Hr]. apply mutate_node_grow in Hr as [? _]; [done|].
    intros m m' _ Hf. destruct v. run_inv Hf. checked. by intros <-. }
  by do 2 (etransitivity; [eassumption|]).
Qed.

Lemma propagate_to_node_grow d i t t' u :
  0 ≤ i → Forall nonneg_node (nodes t) → propagate_fees_to_node d i t = (Ok u, t') →
  fees_grow t t' ∧ account_to_index t' = account_to_index t.
Proof.
  intros Hi Hnn Hp. pose proof (propagate_to_node_step d i t t' u Hi Hnn Hp) as [[(_ & Ha & _) _ _] _].
  split; [|done]. clear Ha. unfold propagate_fees_to_node in Hp.
  apply bind_ok_inv in Hp as (path & s0 & Hpath & Hp). run_inv Hpath.
  unfold path_to_node in Hpath. run_inv Hpath. apply path_nonneg in Hpath; [|done].
  clear Hm. revert t Hnn Hp. induction Hpath as [|j path Hj _ IH]; intros t Hnn Hp; cbn in Hp; [by run_inv Hp|].
  apply bind_ok_inv in Hp as (v & t1 & H1 & Hp). pose proof (propagate_fees_step j t t1 v Hj Hnn H1) as [_ N1].
  apply propagate_fees_grow in H1; [|done]. etransitivity; [exact H1|]. by apply IH.
Qed.

Lemma update_stakes_grow d i amount op t t' u :
  update_descendant_stake_of_ancestors d i amount op t = (Ok u, t') →
  fees_grow t t' ∧ account_to_index t' = account_to_index t.
Proof.
  intros Hu. unfold update_descendant_stake_of_ancestors in Hu.
  apply bind_ok_inv in Hu as (path & s0 & Hpath & Hu). run_inv Hpath. clear Hpath.
  revert t Hu. induction path as [|j path IH]; intros t Hu; cbn in Hu; [by run_inv Hu|].
  apply bind_ok_inv in Hu as (v & t1 & H1 & Hu). destruct (IH t1 Hu) as [Hg ->].
  apply mutate_node_grow in H1 as [Hg1 ->]; [split; [by etransitivity|done]|].
  intros m m' _ Hf. run_inv Hf. by intros <-.
Qed.

(** ** Fees of accounts *)

(** The account [w] has a node, with fees of [f] at least. *)
Definition accrued t (w : AccountId) (f : Balance) : Prop :=
  ∃ j n, account_to_index t !! w = Some j ∧ nodes t !! Z.to_nat j = Some n ∧ f ≤ fees n.

Lemma accrued_grow t t' w f :
  fees_grow t t' ∧ account_to_index t' = account_to_index t → accrued t w f → accrued t' w f.
Proof.
  intros [Hg Ha] (j & n & Hw & Hn & Hf). destruct (Hg _ _ Hn) as (n' & Hn' & ?). exists j, n'.
  split; [by rewrite Ha|]. split; [done|lia].
Qed.

Section Calls.
Context (d : Z).

(** The ancestors of a node that joined or left. *)
Lemma ancestors_grow i amount op t t' u :
  match parent_index i with
  | Some parent => update_descendant_stake_of_ancestors d parent amount op
  | None => mret tt
  end t = (Ok u, t') → fees_grow t t' ∧ account_to_index t' = account_to_index t.
Proof. destruct (parent_index i); [apply update_stakes_grow|]. by intros [= _ <-]. Qed.

(** A node whose account is not [w] changes. *)
Lemma accrued_other t w f i n' :
  accrued t w f → account_to_index t !! w ≠ Some i → 0 ≤ i → (∀ j, account_to_index t !! w = Some j → 0 ≤ j) →
  accrued (set_nodes (<[Z.to_nat i := n']> (nodes t)) t) w f.
Proof.
  intros (j & n & Hw & Hn & Hf) Hne Hi Hj. exists j, n. split; [done|]. split; [|done]. cbn.
  rewrite list_lookup_insert_ne; [done|]. specialize (Hj j Hw). intros Hij. apply Hne. rewrite Hw. f_equal. lia.
Qed.

Lemma join_accrued who amount t t' info w f :
  TreeInv d t → join d who amount t = (Ok info, t') → accrued t w f → accrued t' w f.
Proof.
  intros Ht Hr Hacc. pose proof (ti_nonneg d t Ht) as Hnn. pose proof (ti_book d t Ht) as Hb.
  unfold join in Hr. rewrite gets_bind in Hr. apply bind_ok_inv in Hr as ([i bi] & t3 & Hr & Hfin).
  apply bind_ok_inv in Hfin as (v & t4 & Hfin & Hret). run_inv Hret.
  eapply accrued_grow; [by eapply ancestors_grow|]. clear Hfin.
  destruct (account_to_index t !! who) as [k|] eqn:Hwho.
  - apply bind_ok_inv in Hr as (v' & t1 & Hp & Hr). apply bind_ok_inv in Hr as (v'' & t2 & Hm & Hr). run_inv Hr.
    eapply accrued_grow; [eapply mutate_node_grow; [exact Hm|]|].
    { intros m m' _ Hf. destruct v''. run_inv Hf. checked. by intros <-. }
    eapply accrued_grow; [|exact Hacc]. eapply propagate_to_node_grow; [|done|exact Hp].
    by apply (index_holder t who i) in Hwho as [? _].
  - assert (w ≠ who) as Hne by (intros ->; destruct Hacc as (? & ? & ? & _); congruence).
    apply bind_ok_inv in Hr as (o & t0 & Ho & Hr). apply take_last_inv in Ho.
    apply bind_ok_inv in Hr as (r & t2 & Hr & Hins). apply bind_ok_inv in Hins as (v' & s0 & Hins & Hret). run_inv Hret.
    apply try_insert_account_inv in Hins as ->.
    assert (accrued t2 w f) as Hacc2; [|destruct Hacc2 as (j & n & Hw & Hn & ?); exists j, n; cbn;
      by rewrite lookup_insert_ne]. clear Hne. destruct o as [k|].
    + destruct Ho as (l & Hl & ->). assert (k ∈ abandoned_nodes t) as Hk by (rewrite Hl; set_solver).
      apply (bk_abandoned t Hb) in Hk as (Hk & s & Hs).
      apply bind_ok_inv in Hr as (v'' & t1 & Hp & Hr). apply bind_ok_inv in Hr as (x & t5 & Hm & Hr). run_inv Hr.
      apply propagate_to_node_grow in Hp as [Hg Ha]; [|done|done]. cbn [account_to_index set_abandoned_nodes] in Ha.
      apply mutate_node_inv in Hm as (n & n' & _ & _ & ->). apply accrued_other; [|rewrite Ha|done|rewrite Ha].
      * by apply (accrued_grow (set_abandoned_nodes l t)).
      * intros (_ & m & Hm & Hacct)%(index_holder t w i Hb). unfold holder_at in Hs. rewrite Hm in Hs.
        cbn in Hs. unfold holder in Hs. congruence.
      * intros j Hj. by apply (index_holder t w j) in Hj as [? _].
    + subst t0. apply bind_ok_inv in Hr as (leaf & s0 & Hleaf & Hr). run_inv Hleaf.
      unfold peek_next_free_leaf in Hr.
      destruct (Z.ltb_spec (node_count t) (max_node_count d)); [|by run_inv Hr].
      apply bind_ok_inv in Hr as (v'' & t1 & Hp & Hr). apply bind_ok_inv in Hr as (x & s0 & Hpush & Hr). run_inv Hr.
      assert (accrued t1 w f) as (j & n & Hw & Hn & ?).
      { unfold parent_index in Hp. destruct (Z.eqb_spec (node_count t) 0); [by run_inv Hp|].
        eapply accrued_grow; [|exact Hacc]. eapply propagate_to_node_grow; [|done|exact Hp].
        apply Z.div_pos; [|done]. unfold node_count in *. lia. }
      unfold try_push_node in Hpush. run_inv Hpush. exists j, n. cbn. split; [done|]. split; [|done].
      by apply lookup_app_l_Some.
Qed.

(** Nobody leaves with fees in the node. *)
Lemma exit_accrued who amount t t' u w f :
  TreeInv d t → 0 < f → exit d who amount t = (Ok u, t') → accrued t w f → accrued t' w f.
Proof.
  intros Ht Hf Hr Hacc. pose proof (ti_nonneg d t Ht) as Hnn. pose proof (ti_book d t Ht) as Hb. unfold exit in Hr.
  apply bind_ok_inv in Hr as (i & s0 & Hw & Hr). unfold map_account_to_index in Hw. run_inv Hw.
  pose proof (index_holder t who i Hb Hw) as (Hi & _).
  apply bind_ok_inv in Hr as (v & t1 & Hp & Hr). apply propagate_to_node_grow in Hp as [Hg Ha]; [|done|done].
  assert (accrued t1 w f) as Hacc1 by by apply (accrued_grow t).
  apply bind_ok_inv in Hr as (node & s0 & Hn & Hr). apply get_node_inv in Hn as [Hn ->].
  apply bind_ok_inv in Hr as (v' & s0 & He0 & Hr). run_inv He0. guards.
  assert (w ≠ who) as Hne.
  { intros ->. destruct Hacc1 as (j & m & Hj & Hm & ?). rewrite Ha in Hj. assert (j = i) as -> by congruence.
    assert (m = node) as -> by congruence. lia. }
  apply bind_ok_inv in Hr as (rest & t2 & Hm & Hr).
  assert (accrued t2 w f) as Hacc2.
  { eapply accrued_grow; [eapply mutate_node_grow; [exact Hm|]|done].
    intros m m' _ Hfm. cbv beta in Hfm. run_inv Hfm. destruct (Z.leb_spec amount (stake m)); [|done]. by intros <- <-. }
  apply bind_ok_inv in Hr as (v'' & t3 & Hcase & Hr).
  eapply accrued_grow; [by eapply ancestors_grow|]. clear Hr.
  destruct (rest =? 0); [|by run_inv Hcase].
  apply bind_ok_inv in Hcase as (x & t4 & Hm' & Hcase).
  assert (accrued t4 w f) as (j & m & Hj & Hmn & ?).
  { eapply accrued_grow; [eapply mutate_node_grow; [exact Hm'|]|done]. by intros m m' _ [= <-]. }
  unfold try_push_abandoned in Hcase. run_inv Hcase. exists j, m. cbn. by rewrite lookup_delete_ne.
Qed.

Lemma deposit_accrued amount t t' u w f :
  deposit_fees amount t = (Ok u, t') → accrued t w f → accrued t' w f.
Proof.
  intros Hr. apply accrued_grow. eapply mutate_node_grow; [exact Hr|]. intros m m' _ Hf. destruct u. run_inv Hf. checked. by intros <-.
Qed.

(** A withdrawal pays the fees of the node, and leaves those of the others. *)
Lemma withdraw_accrued who t t' x w f :
  TreeInv d t → withdraw_fees d who t = (Ok x, t') → accrued t w f →
  if decide (w = who) then f ≤ x else accrued t' w f.
Proof.
  intros Ht Hr Hacc. pose proof (ti_nonneg d t Ht) as Hnn. pose proof (ti_book d t Ht) as Hb. unfold withdraw_fees in Hr.
  apply bind_ok_inv in Hr as (i & s0 & Hw & Hr). unfold map_account_to_index in Hw. run_inv Hw.
  pose proof (index_holder t who i Hb Hw) as (Hi & _).
  apply bind_ok_inv in Hr as (v & t1 & Hp & Hr). apply propagate_to_node_grow in Hp as [Hg Ha]; [|done|done].
  apply (accrued_grow _ t1) in Hacc; [|done].
  apply mutate_node_inv in Hr as (n & n' & Hn & [= <- <-] & ->). destruct (decide (w = who)) as [->|Hne].
  - destruct Hacc as (j & m & Hj & Hm & ?). rewrite Ha in Hj. assert (j = i) as -> by congruence.
    assert (m = n) as -> by congruence. done.
  - apply accrued_other; [done|rewrite Ha|done|rewrite Ha].
    + intros Hwi. by apply Hne, (index_inj t w who i).
    + intros j Hj. by apply (index_holder t w j) in Hj as [? _].
Qed.

(** ** Requests *)
Abbreviation respond := (@respond LiquidityTree (LiquidityTree_manager d)).
Abbreviation converse := (@converse LiquidityTree (LiquidityTree_manager d)).

Lemma respond_accrued r t w f :
  TreeInv d t → 0 < f → r ≠ WithdrawFees w → accrued t w f → accrued (respond r t).2 w f.
Proof.
  intros Ht Hf Hne Hacc. destruct r as [who x|who x|sender receiver x|x|who|who|]; cbn [LiquidityShares.respond lsm_join
    lsm_exit lsm_split lsm_deposit_fees lsm_withdraw_fees lsm_shares_of lsm_total_shares LiquidityTree_manager].
  - destruct ((_ ← join d who x; mret tt) t) as [[u|e] t'] eqn:Hr; [|done].
    apply bind_ok_inv in Hr as (info & t1 & Hj & Hr). run_inv Hr. by eapply join_accrued.
  - destruct (exit d who x t) as [[u|e] t'] eqn:Hr; [|done]. by eapply exit_accrued.
  - done.
  - destruct (deposit_fees x t) as [[u|e] t'] eqn:Hr; [|done]. by eapply deposit_accrued.
  - destruct (withdraw_fees d who t) as [[x|e] t'] eqn:Hr; [|done].
    eapply (withdraw_accrued who) in Hacc; [|done..]. rewrite decide_False in Hacc by congruence. done.
  - by destruct (shares_of who t).1.
  - by destruct (total_shares t).1.
Qed.

(** Fees that have accrued wait for their owner, who gets them all. *)
Lemma converse_withdraw rs t c w f x :
  Forall valid_request rs → WithdrawFees w ∉ rs → tree_stands_for d t c → 0 < f → accrued t w f →
  (respond (WithdrawFees w) (converse rs t).2).1 = Amount x → f ≤ x.
Proof.
  intros Hrs. revert t c. induction Hrs as [|r rs Hr _ IH]; intros t c Hw Ht Hf Hacc.
  - cbn. intros Hx. destruct (withdraw_fees d w t) as [[y|e] t'] eqn:Hy; [|done]. injection Hx as ->.
    eapply (withdraw_accrued w) in Hacc; [|by apply Ht|exact Hy]. by rewrite decide_True in Hacc.
  - apply not_elem_of_cons in Hw as [Hne Hw].
    destruct (@respond_promises _ (LiquidityTree_manager d) (tree_stands_for d) _ r t c Hr Ht) as (c1 & _ & Ht1).
    apply (respond_accrued r) in Hacc; [|by apply Ht|done|by intros ->]. cbn [LiquidityShares.converse].
    destruct (respond r t) as [a t1]. specialize (IH t1 c1 Hw Ht1 Hf Hacc). destruct (converse rs t1) as [ans t2].
    exact IH.
Qed.

(** Of a single node everything can be withdrawn at once. *)
Lemma single_withdraw w stake fee :
  0 ≤ d < u32_max → in_u128 stake → in_u128 fee →
  ∃ t', withdraw_fees d w (mk_LiquidityTree [set_fees fee (Node_new w stake)] {[w := 0]} []) = (Ok fee, t').
Proof.
  intros Hd Hu Hf. set (n := set_fees fee (Node_new w stake)). set (t := mk_LiquidityTree [n] _ _).
  assert (propagate_fees 0 t = (Ok tt, t)) as Hp.
  { unfold propagate_fees. rewrite (bind_ok _ _ _ _ _ (get_node_ok 0 t n eq_refl)).
    assert (total_stake n = Ok stake) as Ht by (apply total_stake_ok; cbn; unfold in_u128 in Hu; lia).
    rewrite (lift_ok_bind _ _ _ _ Ht). destruct (stake =? 0); [done|].
    change (is_weak_leaf n) with true. cbv iota.
    assert (mutate_node 0 (λ node, f ← checked_add_res u128_max (fees node) (lazy_fees node);
      Ok (set_fees f node, tt)) t = (Ok tt, t)) as Hm.
    { rewrite (mutate_node_ok 0 _ t n n tt); [done|done|]. change (fees n) with fee. change (lazy_fees n) with 0.
      assert (checked_add_res u128_max fee 0 = Ok fee) as ->; [|done].
      apply checked_add_ok. unfold in_u128 in Hf. lia. }
    rewrite (bind_ok _ _ _ _ _ Hm). by rewrite (mutate_node_ok 0 _ t n n tt). }
  assert (path_to_node d 0 = Ok [0]) as Hpath.
  { unfold path_to_node. assert (checked_add_res u32_max d 1 = Ok (d + 1)) as -> by (apply checked_add_ok; lia).
    cbn [mbind result_bind]. by replace (Z.to_nat (d + 1)) with (S (Z.to_nat d)) by lia. }
  assert (map_account_to_index w t = (Ok 0, t)) as Hw.
  { unfold map_account_to_index. rewrite gets_bind. cbn. by rewrite lookup_singleton_eq. }
  assert (propagate_fees_to_node d 0 t = (Ok tt, t)) as Hpp.
  { unfold propagate_fees_to_node. rewrite (lift_ok_bind _ _ _ _ Hpath). cbn [for_each].
    by rewrite (bind_ok _ _ _ _ _ Hp). }
  eexists. unfold withdraw_fees. rewrite (bind_ok _ _ _ _ _ Hw), (bind_ok _ _ _ _ _ Hpp).
  apply (mutate_node_ok 0 _ t n); done.
Qed.
End Calls.
