(* ===== verification/NeoSwaps.v ===== *)
(** * The automated market maker

    [zrml/neo-swaps/src/lib.rs], [types/pool.rs] and [types/fee_distribution.rs]:
    LMSR pools that trade outcome tokens against collateral. A pool keeps its
    reserves, its liquidity parameter and the [LiquidityTree] of its providers; its
    tokens are in an account of its own. Trades use the complete sets of the
    prediction markets pallet and the external fees through their interfaces. *)
From S2P Require Import Prelude Types Errors Fixed Currencies MarketCommons Fees.
From S2P Require Import FixedDecimal NeoMath LiquidityTree.

(** ** Interfaces *)

(** [CompleteSetOperationsApi] ([primitives/src/traits]): [E] is what the pallet
    that implements it stores besides the markets [C] and the ledger [L]. *)
Class CompleteSetOperationsApi (C E L : Type) := {
  cso_buy_complete_set : AccountId → MarketId → Balance → C → Store (E * L) unit;
  cso_sell_complete_set : AccountId → MarketId → Balance → C → Store (E * L) unit;
}.

(** ** Pools *)

(** [reserves] is ordered by the order of assets. *)
Record Pool : Type := mk_Pool {
  account_id : AccountId;
  reserves : list (Asset * Balance);
  collateral : Asset;
  liquidity_parameter : Balance;
  liquidity_shares_manager : LiquidityTree;
  swap_fee : Balance;
}.
Definition set_reserves (x : list (Asset * Balance)) (p : Pool) : Pool :=
  mk_Pool (account_id p) x (collateral p) (liquidity_parameter p) (liquidity_shares_manager p) (swap_fee p).
Definition set_liquidity_parameter (x : Balance) (p : Pool) : Pool :=
  mk_Pool (account_id p) (reserves p) (collateral p) x (liquidity_shares_manager p) (swap_fee p).
Definition set_manager (x : LiquidityTree) (p : Pool) : Pool :=
  mk_Pool (account_id p) (reserves p) (collateral p) (liquidity_parameter p) x (swap_fee p).

Definition EXP_NUMERICAL_LIMIT : Z := 10.
Definition LN_NUMERICAL_LIMIT : Z := BASE / 10.
(** [neo_swaps::consts::MAX_ASSETS] *)
Definition MAX_POOL_ASSETS : Z := 128.
Definition EXIT_FEE : Balance := CENT / 10.
Definition MIN_SWAP_FEE : Balance := BASE / 1000.
Definition MAX_SPOT_PRICE : Balance := BASE - CENT / 2.
Definition MIN_SPOT_PRICE : Balance := CENT / 2.
Definition MIN_LIQUIDITY : Balance := BASE.
Definition MIN_RELATIVE_LP_POSITION_VALUE : Balance := 139098411.

(** [BTreeMap]: insertion into an ordered association list, replacing an entry. *)
Fixpoint btree_insert (a : Asset) (x : Balance) (l : list (Asset * Balance)) : list (Asset * Balance) :=
  match l with
  | [] => [(a, x)]
  | (b, y) :: l' =>
      match Asset_compare a b with
      | Lt => (a, x) :: l
      | Eq => (a, x) :: l'
      | Gt => (b, y) :: btree_insert a x l'
      end
  end.
Fixpoint btree_get (a : Asset) (l : list (Asset * Balance)) : option Balance :=
  match l with
  | [] => None
  | (b, y) :: l => if decide (b = a) then Some y else btree_get a l
  end.
(** [get_mut] with an update that may fail. *)
Fixpoint btree_update (a : Asset) (f : Balance → Res Balance) (l : list (Asset * Balance))
    : Res (list (Asset * Balance)) :=
  match l with
  | [] => Err NS_AssetNotFound
  | (b, y) :: l =>
      if decide (b = a) then y' ← f y; Ok ((b, y') :: l)
      else l' ← btree_update a f l; Ok ((b, y) :: l')
  end.

(** *** [PoolOperations] *)

Definition assets (p : Pool) : list Asset := (reserves p).*1.
Definition contains (a : Asset) (p : Pool) : bool := bool_decide (is_Some (btree_get a (reserves p))).
Definition reserve_of (a : Asset) (p : Pool) : Res Balance :=
  ok_orR (btree_get a (reserves p)) NS_AssetNotFound.
Definition checked_add (x y : Z) : option Z := if x + y <=? u128_max then Some (x + y) else None.
Definition checked_sub (x y : Z) : option Z := if y <=? x then Some (x - y) else None.
Definition increase_reserve (a : Asset) (increase_amount : Balance) (p : Pool) : Res Pool :=
  rs ← btree_update a (λ v, ok_orR (checked_add v increase_amount) NS_MathError) (reserves p);
  Ok (set_reserves rs p).
Definition decrease_reserve (a : Asset) (decrease_amount : Balance) (p : Pool) : Res Pool :=
  rs ← btree_update a (λ v, ok_orR (checked_sub v decrease_amount) NS_MathError) (reserves p);
  Ok (set_reserves rs p).
Definition calculate_numerical_threshold (p : Pool) : Balance :=
  saturating_mul u128_max (liquidity_parameter p) EXP_NUMERICAL_LIMIT.

(** ** The pallet *)

Inductive Event : Type :=
| BuyExecuted (who : AccountId) (id : MarketId) (asset_out : Asset)
    (amount_in amount_out swap_fee_amount external_fee_amount : Balance)
| SellExecuted (who : AccountId) (id : MarketId) (asset_in : Asset)
    (amount_in amount_out swap_fee_amount external_fee_amount : Balance)
| FeesWithdrawn (who : AccountId) (id : MarketId) (amount : Balance)
| JoinExecuted (who : AccountId) (id : MarketId) (pool_shares_amount : Balance)
    (amounts_in : list Balance) (new_liquidity_parameter : Balance)
| ExitExecuted (who : AccountId) (id : MarketId) (pool_shares_amount : Balance)
    (amounts_out : list Balance) (new_liquidity_parameter : Balance)
| PoolDeployed (who : AccountId) (id : MarketId) (account : AccountId)
    (rs : list (Asset * Balance)) (collateral : Asset)
    (liquidity_parameter pool_shares_amount swap_fee : Balance)
| PoolDestroyed (who : AccountId) (id : MarketId) (amounts_out : list Balance).

Record State (C E L : Type) : Type := mk_State {
  commons : C;
  complete_sets : E;
  ledger : L;
  Pools : gmap MarketId Pool;
  events : list Event;
}.
Arguments mk_State {C E L} _ _ _ _ _.
Arguments commons {C E L} _.
Arguments complete_sets {C E L} _.
Arguments ledger {C E L} _.
Arguments Pools {C E L} _.
Arguments events {C E L} _.

(** [FeeDistribution] *)
Record FeeDistribution : Type := mk_FeeDistribution {
  remaining : Balance;
  swap_fees : Balance;
  external_fees : Balance;
}.

Section Setters.
Context {C E L : Type}.
Definition set_ledger (x : L) (s : State C E L) : State C E L :=
  mk_State (commons s) (complete_sets s) x (Pools s) (events s).
Definition set_sets (x : E * L) (s : State C E L) : State C E L :=
  mk_State (commons s) x.1 x.2 (Pools s) (events s).
Definition set_Pools (x : gmap MarketId Pool) (s : State C E L) : State C E L :=
  mk_State (commons s) (complete_sets s) (ledger s) x (events s).
Definition deposit_event (e : Event) : Store (State C E L) unit :=
  modify (λ s, mk_State (commons s) (complete_sets s) (ledger s) (Pools s) (e :: events s)).
Definition sets_view (s : State C E L) : E * L := (complete_sets s, ledger s).
End Setters.

Section NeoSwaps.
Context {C E L F : Type} `{MarketCommonsPalletApi C, AssetManager L, DistributeFees C L}.
Context `{CompleteSetOperationsApi C E L, FixedType F}.
(** [MaxLiquidityTreeDepth], [MaxSwapFee] and the accounts of pools. *)
Context (MaxLiquidityTreeDepth : Z) (MaxSwapFee : Balance) (pool_account_id : MarketId → AccountId).
Abbreviation St := (State C E L).
Abbreviation ST := (Store St).

Definition market (id : MarketId) : ST Market :=
  r ← gets (λ s, api_market id (commons s)); lift r.
Definition transfer_asset (a : Asset) (from to : AccountId) (amount : Balance) : ST unit :=
  zoom ledger set_ledger (transfer a from to amount).

(** Runs an operation of the liquidity shares manager of a pool. *)
Definition with_manager {A} (f : Tree A) (p : Pool) : Res (A * Pool) :=
  match f (liquidity_shares_manager p) with
  | (Ok a, t) => Ok (a, set_manager t p)
  | (Err e, _) => Err e
  end.
Definition ask_manager {A} (f : Tree A) (p : Pool) : Res A := (f (liquidity_shares_manager p)).1.

Definition outcomes_of (id : MarketId) (m : Market) : list Asset :=
  match market_type m with
  | MT_Categorical categories => CategoricalOutcome id <$> seqZ 0 categories
  | MT_Scalar _ _ => [ScalarOutcome id Long; ScalarOutcome id Short]
  end.
Definition outcomes (id : MarketId) : ST (list Asset) := m ← market id; mret (outcomes_of id m).

(** The mutator returns the new pool; it is written when the mutator succeeds. *)
Definition try_mutate_pool {A} (id : MarketId) (mutator : Pool → ST (A * Pool)) : ST A :=
  pools ← gets Pools;
  pool ← ok_or (pools !! id) NS_PoolNotFound;
  r ← mutator pool;
  _ ← modify (λ s, set_Pools (<[id := r.2]> (Pools s)) s);
  mret r.1.

Definition distribute_fees (id : MarketId) (p : Pool) (amount : Balance)
    : ST (FeeDistribution * Pool) :=
  swap_fees ← lift (bmul u128_max (swap_fee p) amount);
  '(_, p) ← lift (with_manager (deposit_fees swap_fees) p);
  c ← gets commons;
  external_fees ← zoom ledger set_ledger
                    (infallible (distribute id (collateral p) (account_id p) amount c));
  let total_fees := saturating_add u128_max external_fees swap_fees in
  remaining ← ok_or (checked_sub amount total_fees) NS_Unexpected;
  mret (mk_FeeDistribution remaining swap_fees external_fees, p).

(** The loops over the assets of a pool. *)
Fixpoint buy_reserves (asset_out : Asset) (amount_in amount_out : Balance) (l : list Asset) (p : Pool)
    : Res Pool :=
  match l with
  | [] => Ok p
  | a :: l =>
      p ← increase_reserve a amount_in p;
      p ← (if decide (a = asset_out) then decrease_reserve a amount_out p else Ok p);
      buy_reserves asset_out amount_in amount_out l p
  end.
Fixpoint sell_reserves (asset_in : Asset) (amount_in amount_out : Balance) (l : list Asset) (p : Pool)
    : Res Pool :=
  match l with
  | [] => Ok p
  | a :: l =>
      p ← (if decide (a = asset_in) then increase_reserve a amount_in p else Ok p);
      p ← decrease_reserve a amount_out p;
      sell_reserves asset_in amount_in amount_out l p
  end.

Definition do_buy (who : AccountId) (id : MarketId) (asset_out : Asset)
    (amount_in min_amount_out : Balance) : ST unit :=
  _ ← ensure (negb (amount_in =? 0)) NS_ZeroAmount;
  m ← market id;
  _ ← ensure (bool_decide (status m = Active)) NS_MarketNotActive;
  try_mutate_pool id (λ p,
    _ ← ensure (contains asset_out p) NS_AssetNotFound;
    _ ← transfer_asset (collateral p) who (account_id p) amount_in;
    '(fd, p) ← distribute_fees id p amount_in;
    let amount_in_minus_fees := remaining fd in
    _ ← ensure (amount_in_minus_fees <=? calculate_numerical_threshold p)
          (NS_NumericalLimits MaxAmountExceeded);
    reserve ← lift (reserve_of asset_out p);
    ln_argument ← lift (calculate_buy_ln_argument (F := F) reserve amount_in_minus_fees
                          (liquidity_parameter p));
    _ ← ensure (LN_NUMERICAL_LIMIT <=? ln_argument) (NS_NumericalLimits MinAmountNotMet);
    swap_amount_out ← lift (calculate_swap_amount_out_for_buy (F := F) reserve amount_in_minus_fees
                              (liquidity_parameter p));
    amount_out ← lift (checked_add_res u128_max swap_amount_out amount_in_minus_fees);
    _ ← ensure (min_amount_out <=? amount_out) NS_AmountOutBelowMin;
    c ← gets commons;
    _ ← zoom sets_view set_sets (cso_buy_complete_set (account_id p) id amount_in_minus_fees c);
    _ ← transfer_asset asset_out (account_id p) who amount_out;
    p ← lift (buy_reserves asset_out amount_in_minus_fees amount_out (assets p) p);
    _ ← deposit_event (BuyExecuted who id asset_out amount_in amount_out (swap_fees fd)
                         (external_fees fd));
    mret (tt, p)).

Definition do_sell (who : AccountId) (id : MarketId) (asset_in : Asset)
    (amount_in min_amount_out : Balance) : ST unit :=
  _ ← ensure (negb (amount_in =? 0)) NS_ZeroAmount;
  m ← market id;
  _ ← ensure (bool_decide (status m = Active)) NS_MarketNotActive;
  try_mutate_pool id (λ p,
    _ ← ensure (contains asset_in p) NS_AssetNotFound;
    reserve ← lift (reserve_of asset_in p);
    _ ← ensure (reserve <=? calculate_numerical_threshold p) (NS_NumericalLimits SpotPriceTooLow);
    _ ← ensure (amount_in <=? calculate_numerical_threshold p) (NS_NumericalLimits MaxAmountExceeded);
    amount_out ← lift (calculate_swap_amount_out_for_sell (F := F) reserve amount_in
                         (liquidity_parameter p));
    _ ← transfer_asset asset_in who (account_id p) amount_in;
    c ← gets commons;
    _ ← zoom sets_view set_sets (cso_sell_complete_set (account_id p) id amount_out c);
    '(fd, p) ← distribute_fees id p amount_out;
    let amount_out_minus_fees := remaining fd in
    _ ← ensure (min_amount_out <=? amount_out_minus_fees) NS_AmountOutBelowMin;
    _ ← transfer_asset (collateral p) (account_id p) who amount_out_minus_fees;
    p ← lift (sell_reserves asset_in amount_in amount_out (assets p) p);
    reserve ← lift (reserve_of asset_in p);
    _ ← ensure (reserve <=? calculate_numerical_threshold p)
          (NS_NumericalLimits SpotPriceSlippedTooLow);
    _ ← deposit_event (SellExecuted who id asset_in amount_in amount_out (swap_fees fd)
                         (external_fees fd));
    mret (tt, p)).

(** [iter_mut().zip(...)]: the longer list is cut. *)
Fixpoint zip_reserves (f : Balance → Balance → Res Balance) (rs : list (Asset * Balance))
    (amounts : list Balance) : Res (list (Asset * Balance)) :=
  match rs, amounts with
  | (a, balance) :: rs, amount :: amounts =>
      b ← f balance amount;
      rs ← zip_reserves f rs amounts;
      Ok ((a, b) :: rs)
  | _, _ => Ok rs
  end.

Definition join_asset (who : AccountId) (p : Pool) (ratio : Balance) (w : Asset * Balance) : ST Balance :=
  balance_in_pool ← lift (reserve_of w.1 p);
  amount_in ← lift (bmul_ceil u128_max ratio balance_in_pool);
  _ ← ensure (amount_in <=? w.2) NS_AmountInAboveMax;
  _ ← transfer_asset w.1 who (account_id p) amount_in;
  mret amount_in.

Definition do_join (who : AccountId) (id : MarketId) (pool_shares_amount : Balance)
    (max_amounts_in : list Balance) : ST unit :=
  _ ← ensure (negb (pool_shares_amount =? 0)) NS_ZeroAmount;
  m ← market id;
  _ ← ensure (bool_decide (status m = Active)) NS_MarketNotActive;
  _ ← ensure (Z.of_nat (length max_amounts_in) =? Types.outcomes m) NS_IncorrectAssetCount;
  _ ← try_mutate_pool id (λ p,
    total ← lift (ask_manager total_shares p);
    ratio ← lift (bdiv_ceil u128_max pool_shares_amount total);
    _ ← (if is_ok (ask_manager (shares_of who) p) then mret tt
         else ensure (MIN_RELATIVE_LP_POSITION_VALUE <=? ratio)
                NS_MinRelativeLiquidityThresholdViolated);
    amounts_in ← mapM (join_asset who p ratio) (zip (assets p) max_amounts_in);
    rs ← lift (zip_reserves (checked_add_res u128_max) (reserves p) amounts_in);
    let p := set_reserves rs p in
    '(benchmark_info, p) ← lift (with_manager (LiquidityTree.join MaxLiquidityTreeDepth who
                                                 pool_shares_amount) p);
    increase ← lift (bmul u128_max ratio (liquidity_parameter p));
    new_liquidity_parameter ← lift (checked_add_res u128_max (liquidity_parameter p) increase);
    let p := set_liquidity_parameter new_liquidity_parameter p in
    _ ← deposit_event (JoinExecuted who id pool_shares_amount amounts_in new_liquidity_parameter);
    mret (benchmark_info, p));
  mret tt.

Definition exit_asset (who : AccountId) (p : Pool) (ratio : Balance) (w : Asset * Balance) : ST Balance :=
  balance_in_pool ← lift (reserve_of w.1 p);
  amount_out ← lift (bmul_floor u128_max ratio balance_in_pool);
  _ ← ensure (w.2 <=? amount_out) NS_AmountOutBelowMin;
  _ ← transfer_asset w.1 (account_id p) who amount_out;
  mret amount_out.

(** The closure [withdraw_remaining] of [do_exit]. *)
Definition withdraw_remaining (p : Pool) (a : Asset) : ST unit :=
  remaining ← gets (λ s, free_balance a (account_id p) (ledger s));
  zoom ledger set_ledger (withdraw a (account_id p) remaining).

(** [try_mutate_exists]: the mutator may delete the pool. *)
Definition try_mutate_pool_exists (id : MarketId) (mutator : Pool → ST (option Pool)) : ST unit :=
  pools ← gets Pools;
  pool ← ok_or (pools !! id) NS_PoolNotFound;
  r ← mutator pool;
  modify (λ s, set_Pools (match r with Some p => <[id := p]> (Pools s) | None => delete id (Pools s) end) s).

(** The ratio of the pool that leaves. *)
Definition exit_ratio (m : Market) (p : Pool) (pool_shares_amount : Balance) : Res Balance :=
  total ← ask_manager total_shares p;
  ratio ← bdiv_floor u128_max pool_shares_amount total;
  if bool_decide (status m = Active) then
    base ← ZeitgeistBase_get u128_max;
    multiplier ← checked_sub_res base EXIT_FEE;
    bmul_floor u128_max ratio multiplier
  else Ok ratio.

Definition do_exit (who : AccountId) (id : MarketId) (pool_shares_amount : Balance)
    (min_amounts_out : list Balance) : ST unit :=
  _ ← ensure (negb (pool_shares_amount =? 0)) NS_ZeroAmount;
  m ← market id;
  try_mutate_pool_exists id (λ p,
    ratio ← lift (exit_ratio m p pool_shares_amount);
    amounts_out ← mapM (exit_asset who p ratio) (zip (assets p) min_amounts_out);
    rs ← lift (zip_reserves checked_sub_res (reserves p) amounts_out);
    let p := set_reserves rs p in
    '(_, p) ← lift (with_manager (LiquidityTree.exit MaxLiquidityTreeDepth who pool_shares_amount) p);
    total ← lift (ask_manager total_shares p);
    if total =? 0 then
      _ ← withdraw_remaining p (collateral p);
      _ ← for_each (withdraw_remaining p) (assets p);
      _ ← deposit_event (PoolDestroyed who id amounts_out);
      mret None
    else
      let old_liquidity_parameter := liquidity_parameter p in
      decrease ← lift (bmul u128_max ratio old_liquidity_parameter);
      new_liquidity_parameter ← lift (checked_sub_res old_liquidity_parameter decrease);
      _ ← match ask_manager (shares_of who) p with
          | Ok remaining_pool_shares_amount =>
              _ ← ensure (MIN_LIQUIDITY <=? new_liquidity_parameter) NS_LiquidityTooLow;
              total ← lift (ask_manager total_shares p);
              remaining_pool_shares_ratio ←
                lift (bdiv_floor u128_max remaining_pool_shares_amount total);
              ensure (MIN_RELATIVE_LP_POSITION_VALUE <=? remaining_pool_shares_ratio)
                NS_MinRelativeLiquidityThresholdViolated
          | Err _ => mret tt
          end;
      let p := set_liquidity_parameter new_liquidity_parameter p in
      _ ← deposit_event (ExitExecuted who id pool_shares_amount amounts_out new_liquidity_parameter);
      mret (Some p)).

Definition do_withdraw_fees (who : AccountId) (id : MarketId) : ST unit :=
  try_mutate_pool id (λ p,
    '(amount, p) ← lift (with_manager (LiquidityTree.withdraw_fees MaxLiquidityTreeDepth who) p);
    _ ← transfer_asset (collateral p) (account_id p) who amount;
    _ ← deposit_event (FeesWithdrawn who id amount);
    mret (tt, p)).

Definition deploy_asset (who account : AccountId) (w : Balance * Asset) : ST unit :=
  transfer_asset w.2 who account w.1.

Definition do_deploy_pool (who : AccountId) (id : MarketId) (amount : Balance)
    (spot_prices : list Balance) (fee : Balance) : ST unit :=
  pools ← gets Pools;
  _ ← ensure (bool_decide (pools !! id = None)) NS_DuplicatePool;
  m ← market id;
  _ ← ensure (bool_decide (status m = Active)) NS_MarketNotActive;
  _ ← ensure (bool_decide (scoring_rule m = Lmsr)) NS_InvalidTradingMechanism;
  let asset_count := Z.of_nat (length spot_prices) in
  _ ← ensure (asset_count mod 2 ^ 16 =? Types.outcomes m) NS_IncorrectVecLen;
  _ ← ensure (Types.outcomes m <=? MAX_POOL_ASSETS) NS_AssetCountAboveMax;
  _ ← ensure (MIN_SWAP_FEE <=? fee) NS_SwapFeeBelowMin;
  _ ← ensure (fee <=? MaxSwapFee) NS_SwapFeeAboveMax;
  _ ← ensure (foldl (saturating_add u128_max) 0 spot_prices =? BASE) NS_InvalidSpotPrices;
  _ ← for_each (λ p,
        _ ← ensure (MIN_SPOT_PRICE <=? p) NS_SpotPriceBelowMin;
        ensure (p <=? MAX_SPOT_PRICE) NS_SpotPriceAboveMax) spot_prices;
  '(liquidity_parameter, amounts_in) ←
    lift (calculate_reserves_from_spot_prices (F := F) amount spot_prices);
  _ ← ensure (MIN_LIQUIDITY <=? liquidity_parameter) NS_LiquidityTooLow;
  let account := pool_account_id id in
  assets ← outcomes id;
  _ ← for_each (deploy_asset who account) (zip amounts_in assets);
  let rs := foldl (λ acc w, btree_insert w.2 w.1 acc) [] (zip amounts_in assets) in
  tree ← lift (LiquidityTree.new MaxLiquidityTreeDepth who amount);
  let pool := mk_Pool account rs (base_asset m) liquidity_parameter tree fee in
  _ ← transfer_asset (collateral pool) who account (minimum_balance (collateral pool));
  _ ← modify (λ s, set_Pools (<[id := pool]> (Pools s)) s);
  deposit_event (PoolDeployed who id account rs (base_asset m) liquidity_parameter amount fee).

(** *** Extrinsics *)

Definition buy (who : AccountId) (id : MarketId) (asset_count : Z) (asset_out : Asset)
    (amount_in min_amount_out : Balance) : ST unit :=
  transactional (
    m ← market id;
    _ ← ensure (asset_count =? Types.outcomes m) NS_IncorrectAssetCount;
    do_buy who id asset_out amount_in min_amount_out).
Definition sell (who : AccountId) (id : MarketId) (asset_count : Z) (asset_in : Asset)
    (amount_in min_amount_out : Balance) : ST unit :=
  transactional (
    m ← market id;
    _ ← ensure (asset_count =? Types.outcomes m) NS_IncorrectAssetCount;
    do_sell who id asset_in amount_in min_amount_out).
Definition join (who : AccountId) (id : MarketId) (pool_shares_amount : Balance)
    (max_amounts_in : list Balance) : ST unit :=
  transactional (
    m ← market id;
    _ ← ensure (Z.of_nat (length max_amounts_in) =? Types.outcomes m) NS_IncorrectVecLen;
    do_join who id pool_shares_amount max_amounts_in).
Definition exit (who : AccountId) (id : MarketId) (pool_shares_amount_out : Balance)
    (min_amounts_out : list Balance) : ST unit :=
  transactional (
    m ← market id;
    _ ← ensure (Z.of_nat (length min_amounts_out) =? Types.outcomes m) NS_IncorrectVecLen;
    do_exit who id pool_shares_amount_out min_amounts_out).
Definition withdraw_fees (who : AccountId) (id : MarketId) : ST unit :=
  transactional (do_withdraw_fees who id).
Definition deploy_pool (who : AccountId) (id : MarketId) (amount : Balance)
    (spot_prices : list Balance) (fee : Balance) : ST unit :=
  transactional (
    m ← market id;
    _ ← ensure (Z.of_nat (length spot_prices) =? Types.outcomes m) NS_IncorrectVecLen;
    do_deploy_pool who id amount spot_prices fee).
End NeoSwaps.
