(* ===== verification/NeoPools.v ===== *)
(** * Solvency of the pools

    Theorems about [NeoSwaps]: the account of every pool holds its reserves and
    every fee it still owes to its liquidity providers, whatever calls are made; and
    a provider cannot gain from joining and leaving. The complete sets and the
    external fees are used through the laws of their interfaces. *)
From S2P Require Import Prelude Types Errors Fixed Currencies Ledgers MarketCommons Fees.
From S2P Require Import FixedDecimal NeoMath LiquidityTree NeoSwaps.

(** What buying and selling complete sets move: base asset to or from the account
    that backs the sets of a market, outcome tokens to or from the trader. *)
Class CompleteSetLaws (C E L : Type)
    `{MarketCommonsPalletApi C, AssetManager L, !CompleteSetOperationsApi C E L} := {
  sets_account : MarketId → AccountId;
  cso_buy_ok who id amount (c : C) (x x' : E * L) u :
    0 ≤ amount → cso_buy_complete_set who id amount c x = (Ok u, x') →
    ∃ m, api_market id c = Ok m ∧ ∀ b z, free_balance b z x'.2 = free_balance b z x.2
      - at_ (base_asset m, who) (b, z) amount + at_ (base_asset m, sets_account id) (b, z) amount
      + (if decide (b ∈ outcomes_of id m ∧ z = who) then amount else 0);
  cso_sell_ok who id amount (c : C) (x x' : E * L) u :
    0 ≤ amount → cso_sell_complete_set who id amount c x = (Ok u, x') →
    ∃ m, api_market id c = Ok m ∧ ∀ b z, free_balance b z x'.2 = free_balance b z x.2
      + at_ (base_asset m, who) (b, z) amount - at_ (base_asset m, sets_account id) (b, z) amount
      - (if decide (b ∈ outcomes_of id m ∧ z = who) then amount else 0);
}.

(** ** Reserves *)
Section Reserves.
Implicit Types (rs : list (Asset * Balance)) (p : Pool).

Lemma btree_update_app a f rs r rs2 :
  a ∉ rs.*1 → btree_update a f (rs ++ (a, r) :: rs2) = (r' ← f r; Ok (rs ++ (a, r') :: rs2)).
Proof.
  intros Ha. induction rs as [|[b y] rs IH]; cbn [btree_update app].
  - by rewrite decide_True.
  - cbn in Ha. apply not_elem_of_cons in Ha as [Hne Ha]. rewrite decide_False by done.
    rewrite IH by done. by destruct (f r).
Qed.

Lemma btree_get_in a r rs : btree_get a rs = Some r → (a, r) ∈ rs.
Proof.
  induction rs as [|[b y] rs IH]; cbn [btree_get]; [done|].
  destruct (decide (b = a)) as [->|]; [intros [= ->]; by left|]. intros. right. auto.
Qed.
Lemma btree_get_key a rs : is_Some (btree_get a rs) → a ∈ rs.*1.
Proof. intros [r Hr%btree_get_in]. apply list_elem_of_fmap. by exists (a, r). Qed.
Lemma btree_get_nodup a r rs : NoDup rs.*1 → (a, r) ∈ rs → btree_get a rs = Some r.
Proof.
  induction rs as [|[b y] rs IH]; cbn [btree_get fmap list_fmap]; intros Hnd Hin; [by apply elem_of_nil in Hin|].
  apply NoDup_cons in Hnd as [Hb Hnd]. apply elem_of_cons in Hin as [[= -> ->]|Hin]; [by rewrite decide_True|].
  rewrite decide_False; [auto|]. intros ->. apply Hb, list_elem_of_fmap. by exists (a, r).
Qed.

(** The trade loops change every reserve by the amounts of the trade. *)
Definition traded (special : Asset) (every once : Z) (w : Asset * Balance) : Asset * Balance :=
  (w.1, w.2 + every + (if decide (w.1 = special) then once else 0)).

Lemma reserves_set rs rs' p : set_reserves rs (set_reserves rs' p) = set_reserves rs p.
Proof. done. Qed.

Lemma update_step a r f rs1 rs2 p p' :
  a ∉ rs1.*1 → (rs ← btree_update a f (reserves (set_reserves (rs1 ++ (a, r) :: rs2) p));
    Ok (set_reserves rs (set_reserves (rs1 ++ (a, r) :: rs2) p))) = Ok p' →
  ∃ r', f r = Ok r' ∧ p' = set_reserves (rs1 ++ (a, r') :: rs2) p.
Proof.
  intros Ha Hu. cbn [reserves set_reserves] in Hu. rewrite btree_update_app in Hu by done.
  destruct (f r) as [r'|]; [|done]. injection Hu as <-. by exists r'.
Qed.

Lemma increase_step a x r rs1 rs2 p p' :
  a ∉ rs1.*1 → increase_reserve a x (set_reserves (rs1 ++ (a, r) :: rs2) p) = Ok p' →
  p' = set_reserves (rs1 ++ (a, r + x) :: rs2) p.
Proof.
  intros Ha Hi. apply update_step in Hi as (r' & Hf & ->); [|done].
  apply ok_orR_ok_inv in Hf. unfold checked_add in Hf. by destruct (_ <=? _); simplify_eq.
Qed.
Lemma decrease_step a x r rs1 rs2 p p' :
  a ∉ rs1.*1 → decrease_reserve a x (set_reserves (rs1 ++ (a, r) :: rs2) p) = Ok p' →
  x ≤ r ∧ p' = set_reserves (rs1 ++ (a, r - x) :: rs2) p.
Proof.
  intros Ha Hi. apply update_step in Hi as (r' & Hf & ->); [|done].
  apply ok_orR_ok_inv in Hf. unfold checked_sub in Hf. destruct (Z.leb_spec x r); by simplify_eq.
Qed.

Lemma move_head rs1 (w : Asset * Balance) rs2 : rs1 ++ w :: rs2 = (rs1 ++ [w]) ++ rs2.
Proof. by rewrite <- app_assoc. Qed.
Lemma not_in_snoc rs1 a x rs2 :
  NoDup (fst <$> (rs1 ++ ((a, x) :: rs2))) → (a ∉ rs1.*1) ∧ (∀ y, NoDup (fst <$> ((rs1 ++ [(a, y)]) ++ rs2))).
Proof.
  rewrite fmap_app. intros Hnd. split.
  - apply NoDup_app in Hnd as (_ & Hd & _). intros Hin. apply (Hd a Hin). by left.
  - intros y. rewrite <- app_assoc, fmap_app. exact Hnd.
Qed.

Lemma buy_reserves_spec out x y rs1 rs2 p p' :
  NoDup (rs1 ++ rs2).*1 → 0 ≤ x →
  (∀ w, w ∈ rs2 → 0 ≤ w.2) →
  buy_reserves out x y (rs2.*1) (set_reserves (rs1 ++ rs2) p) = Ok p' →
  p' = set_reserves (rs1 ++ (traded out x (- y) <$> rs2)) p ∧
  ∀ w, w ∈ (traded out x (- y) <$> rs2) → 0 ≤ w.2.
Proof.
  intros Hnd Hx. revert rs1 Hnd. induction rs2 as [|[a r] rs2 IH]; intros rs1 Hnd Hnn Hb.
  { cbn in Hb. injection Hb as <-. split; [done|]. intros w Hw. by apply elem_of_nil in Hw. }
  cbn [buy_reserves fmap list_fmap fst] in Hb. apply not_in_snoc in Hnd as [Ha Hnd].
  apply bindR_ok_inv in Hb as (p1 & H1 & Hb). apply increase_step in H1 as ->; [|done].
  apply bindR_ok_inv in Hb as (p2 & H2 & Hb).
  assert (p2 = set_reserves (rs1 ++ traded out x (- y) (a, r) :: rs2) p ∧ 0 ≤ (traded out x (- y) (a, r)).2) as [-> Hw].
  { unfold traded. cbn [fst snd]. pose proof (Hnn (a, r) ltac:(by left)) as Hr. cbn in Hr.
    destruct (decide (a = out)).
    - apply decrease_step in H2 as [? ->]; [|done]. split; [by rewrite Z.add_opp_r|lia].
    - injection H2 as <-. split; [by rewrite Z.add_0_r|lia]. }
  rewrite move_head in Hb. apply IH in Hb as [-> Hall]; [|apply Hnd|intros; apply Hnn; by right].
  split; [by rewrite <- app_assoc|].
  intros w [->|Hin]%elem_of_cons; auto.
Qed.

Lemma sell_reserves_spec inn x y rs1 rs2 p p' :
  NoDup (rs1 ++ rs2).*1 →
  sell_reserves inn x y (rs2.*1) (set_reserves (rs1 ++ rs2) p) = Ok p' →
  p' = set_reserves (rs1 ++ (traded inn (- y) x <$> rs2)) p ∧
  ∀ w, w ∈ (traded inn (- y) x <$> rs2) → 0 ≤ w.2.
Proof.
  intros Hnd. revert rs1 Hnd. induction rs2 as [|[a r] rs2 IH]; intros rs1 Hnd Hb.
  { cbn in Hb. injection Hb as <-. split; [done|]. intros w Hw. by apply elem_of_nil in Hw. }
  cbn [sell_reserves fmap list_fmap fst] in Hb. apply not_in_snoc in Hnd as [Ha Hnd].
  apply bindR_ok_inv in Hb as (p1 & H1 & Hb).
  assert (p1 = set_reserves (rs1 ++ (a, r + (if decide (a = inn) then x else 0)) :: rs2) p) as ->.
  { destruct (decide (a = inn)); [by apply increase_step in H1|].
    injection H1 as <-. by rewrite Z.add_0_r. }
  apply bindR_ok_inv in Hb as (p2 & H2 & Hb). apply decrease_step in H2 as [Hle ->]; [|done].
  rewrite move_head in Hb. apply IH in Hb as [-> Hall]; [|apply Hnd].
  assert ((a, r + (if decide (a = inn) then x else 0) - y) = traded inn (- y) x (a, r)) as Heq
    by (unfold traded; cbn; f_equal; lia).
  rewrite Heq. split; [by rewrite <- app_assoc|].
  intros w [->|Hin]%elem_of_cons; [|auto]. rewrite <- Heq. cbn. lia.
Qed.
(** A new key is only put into its place. *)
Lemma btree_insert_perm a x rs : a ∉ rs.*1 → btree_insert a x rs ≡ₚ (a, x) :: rs.
Proof.
  induction rs as [|[b y] rs IH]; intros Ha; cbn [btree_insert]; [done|].
  cbn in Ha. apply not_elem_of_cons in Ha as [Hne Ha].
  destruct (Asset_compare a b) eqn:Hc; [by apply Asset_compare_eq in Hc|done|].
  rewrite IH by done. apply perm_swap.
Qed.
Lemma deploy_reserves_perm (ws : list (Balance * Asset)) rs :
  NoDup (ws.*2 ++ rs.*1) →
  foldl (λ acc w, btree_insert w.2 w.1 acc) rs ws ≡ₚ (prod_swap <$> ws) ++ rs.
Proof.
  revert rs. induction ws as [|[x a] ws IH]; intros rs Hnd; cbn [foldl fst snd]; [done|].
  cbn in Hnd. apply NoDup_cons in Hnd as [Ha Hnd]. apply not_elem_of_app in Ha as [Haw Har].
  pose proof (btree_insert_perm a x rs Har) as Hperm. rewrite IH.
  - cbn. rewrite Hperm. symmetry. apply Permutation_middle.
  - rewrite Hperm. cbn. rewrite <- Permutation_middle. constructor; [|done]. set_solver.
Qed.
Lemma swap_zip_fst (xs : list Balance) (l : list Asset) :
  length xs = length l → (prod_swap <$> zip xs l).*1 = l.
Proof.
  revert l. induction xs as [|x xs IH]; intros [|a l] Hlen; try done. cbn. f_equal. apply IH. by injection Hlen.
Qed.
End Reserves.

(** ** Amounts are not negative *)
Section Amounts.
Context {F : Type} `{FixedType F}.

Lemma parse_digits_u128 acc s x : in_u128 acc → parse_digits acc s = Some x → in_u128 x.
Proof.
  revert acc. induction s as [|c s IH]; intros acc Hacc; cbn [parse_digits]; [by intros [= <-]|].
  destruct (to_digit c) as [d|] eqn:Hd; [|done]. apply to_digit_range in Hd.
  destruct (Z.leb_spec (10 * acc + d) u128_max); [|done]. apply IH. unfold in_u128 in *. lia.
Qed.
Lemma to_fixed_decimal_u128 (f : F) places x : to_fixed_decimal f places = Ok x → in_u128 x.
Proof.
  unfold to_fixed_decimal, from_fixed_to_fixed_decimal, parse_u128. intros Hx.
  pose proof u128_max_pos. assert (in_u128 0) as H00 by (unfold in_u128; lia).
  repeat case_match; simplify_eq;
    match goal with Hp : parse_digits 0 _ = Some _ |- _ => apply parse_digits_u128 in Hp; [|done] end;
    unfold saturating_add, in_u128 in *; lia.
Qed.

Lemma from_fixed_u128 (f : F) x : from_fixed f = Some x → in_u128 x.
Proof.
  unfold from_fixed. destruct (to_fixed_decimal f _) as [y|] eqn:Hy; [|done]. intros [= <-].
  by apply to_fixed_decimal_u128 in Hy.
Qed.
Lemma from_fixed_nonneg (f : F) x : from_fixed f = Some x → 0 ≤ x.
Proof. intros Hx. by apply (proj1 (from_fixed_u128 f x Hx)). Qed.
Lemma swap_for_buy_nonneg r x b y :
  calculate_swap_amount_out_for_buy (F := F) r x b = Ok y → 0 ≤ y.
Proof.
  unfold calculate_swap_amount_out_for_buy, math_res. intros Hy. apply ok_orR_ok_inv in Hy.
  repeat (apply bind_Some in Hy as (? & _ & Hy)). by apply from_fixed_nonneg in Hy.
Qed.
Lemma swap_for_sell_u128 r x b y :
  calculate_swap_amount_out_for_sell (F := F) r x b = Ok y → in_u128 y.
Proof.
  unfold calculate_swap_amount_out_for_sell, math_res. intros Hy. apply ok_orR_ok_inv in Hy.
  repeat (apply bind_Some in Hy as (? & _ & Hy)). by apply from_fixed_u128 in Hy.
Qed.
Lemma reserves_from_prices_spec amount ps b rs :
  calculate_reserves_from_spot_prices (F := F) amount ps = Ok (b, rs) →
  length rs = length ps ∧ Forall (λ r, 0 ≤ r) rs.
Proof.
  unfold calculate_reserves_from_spot_prices, math_res. intros Hy. apply ok_orR_ok_inv in Hy.
  apply bind_Some in Hy as (a & _ & Hy). apply bind_Some in Hy as (qs & Hqs & Hy).
  apply bind_Some in Hy as ([lf rf] & Hc & Hy). apply bind_Some in Hy as (l & Hl & Hy).
  apply bind_Some in Hy as (rs' & Hrs & [= <- <-]).
  unfold calculate_reserve_from_spot_prices_fixed in Hc.
  apply bind_Some in Hc as (tmp & Htmp & Hc). apply bind_Some in Hc as (m & _ & Hc).
  apply bind_Some in Hc as (b' & _ & Hc). apply bind_Some in Hc as (rs0 & Hrs0 & [= <- <-]).
  apply mapM_Some in Hqs, Htmp, Hrs0, Hrs. split.
  - apply Forall2_length in Hqs, Htmp, Hrs0, Hrs. lia.
  - clear -Hrs. induction Hrs as [|f r fs rs Hf _ IH]; constructor; [|done]. by apply from_fixed_nonneg in Hf.
Qed.
End Amounts.

(** ** Solvency *)
Section Solvency.
Context {C E L F : Type} `{MarketCommonsPalletApi C, AssetManager L, DistributeFees C L}.
Context `{CompleteSetOperationsApi C E L, FixedType F}.
Context `{!AssetManagerLaws L, !DistributeFeesLaws C L, !CompleteSetLaws C E L}.
Context (d : Z) (MaxSwapFee : Balance) (pool_account_id : MarketId → AccountId).
(** Pools and markets have accounts of their own. *)
Context (pool_account_inj : ∀ id id', pool_account_id id = pool_account_id id' → id = id').
Context (pool_not_sets : ∀ id id', pool_account_id id ≠ sets_account id').
Abbreviation St := (State C E L).
Implicit Types (s : St) (l : L) (p : Pool) (c : C).

Record pool_backed c l (id : MarketId) p : Prop := {
  pb_account : account_id p = pool_account_id id;
  pb_tree : TreeInv d (liquidity_shares_manager p);
  pb_fees : total_fees (liquidity_shares_manager p) ≤ free_balance (collateral p) (account_id p) l;
  pb_reserves a r : (a, r) ∈ reserves p → 0 ≤ r ≤ free_balance a (account_id p) l;
  pb_nodup : NoDup (assets p);
  pb_collateral : collateral p ∉ assets p;
  pb_fee : MIN_SWAP_FEE ≤ swap_fee p;
  pb_market m : api_market id c = Ok m →
    base_asset m = collateral p ∧ ∀ a, a ∈ assets p ↔ a ∈ outcomes_of id m;
}.

Definition pools_backed_inv s : Prop :=
  ∀ id p, Pools s !! id = Some p → pool_backed (commons s) (ledger s) id p.

(** No pool other than that of [id] loses anything. *)
Definition others_kept (id : MarketId) l l' : Prop :=
  ∀ id' b, id' ≠ id → free_balance b (pool_account_id id') l ≤ free_balance b (pool_account_id id') l'.
#[local] Instance others_kept_preorder id : PreOrder (others_kept id).
Proof.
  split; [intros l id' b _; lia|]. intros l1 l2 l3 H12 H23 id' b Hne.
  specialize (H12 id' b Hne). specialize (H23 id' b Hne). lia.
Qed.

Lemma backed_mono c l l' id p :
  (∀ b, free_balance b (pool_account_id id) l ≤ free_balance b (pool_account_id id) l') →
  pool_backed c l id p → pool_backed c l' id p.
Proof.
  intros Hle [Ha Ht Hf Hr Hn Hc Hs Hm]. rewrite Ha in *. split; try done; rewrite ?Ha.
  - specialize (Hle (collateral p)). lia.
  - intros a r Hin. rewrite ?Ha. specialize (Hle a). specialize (Hr a r Hin). lia.
Qed.

Lemma backed_insert s c l e id p ev :
  pools_backed_inv s → others_kept id (ledger s) l → c = commons s → pool_backed c l id p →
  pools_backed_inv (mk_State c e l (<[id := p]> (Pools s)) ev).
Proof.
  intros Hs Hk -> Hp id' p' Hp'. cbn in Hp'.
  apply lookup_insert_Some in Hp' as [[<- <-]|[Hne Hp']]; [done|].
  apply (backed_mono _ (ledger s)); [|by apply Hs]. intros b. apply Hk. congruence.
Qed.
Lemma backed_delete s c l e id ev :
  pools_backed_inv s → others_kept id (ledger s) l → c = commons s →
  pools_backed_inv (mk_State c e l (delete id (Pools s)) ev).
Proof.
  intros Hs Hk -> id' p' Hp'. cbn in Hp'. apply lookup_delete_Some in Hp' as [Hne Hp'].
  apply (backed_mono _ (ledger s)); [|by apply Hs]. intros b. apply Hk. congruence.
Qed.

(** *** Movements of funds *)

Lemma transfer_moves a x y amt (l l' : L) u :
  0 ≤ amt → transfer a x y amt l = (Ok u, l') →
  ∀ b z, free_balance b z l' = free_balance b z l - at_ (a, x) (b, z) amt + at_ (a, y) (b, z) amt.
Proof. intros Ha Ht. by apply transfer_ok in Ht as (_ & Hf & _). Qed.

Lemma from_trader_kept id a who amt (l l' : L) u :
  0 ≤ amt → (∀ id', who ≠ pool_account_id id') →
  transfer a who (pool_account_id id) amt l = (Ok u, l') → others_kept id l l'.
Proof.
  intros Ha Hw Ht id' b Hne. rewrite (transfer_moves _ _ _ _ _ _ _ Ha Ht).
  rewrite (at_ne (a, who)) by (intros [= _ Heq]; by apply (Hw id')).
  pose proof (at_nonneg (a, pool_account_id id) (b, pool_account_id id') amt Ha). lia.
Qed.
Lemma to_trader_kept id a who amt (l l' : L) u :
  0 ≤ amt → transfer a (pool_account_id id) who amt l = (Ok u, l') → others_kept id l l'.
Proof.
  intros Ha Ht id' b Hne. rewrite (transfer_moves _ _ _ _ _ _ _ Ha Ht).
  rewrite (at_ne (a, pool_account_id id)) by (intros [= _ Heq]; by apply Hne, pool_account_inj).
  pose proof (at_nonneg (a, who) (b, pool_account_id id') amt Ha). lia.
Qed.

(** The balance of the account of the pool. *)
Lemma from_trader_pool id a who amt (l l' : L) u b :
  0 ≤ amt → who ≠ pool_account_id id → transfer a who (pool_account_id id) amt l = (Ok u, l') →
  free_balance b (pool_account_id id) l' = free_balance b (pool_account_id id) l + at_ a b amt.
Proof.
  intros Ha Hw Ht. rewrite (transfer_moves _ _ _ _ _ _ _ Ha Ht), (at_ne (a, who)) by congruence.
  unfold at_. repeat destruct (decide _); simplify_eq; lia.
Qed.
Lemma to_trader_pool id a who amt (l l' : L) u b :
  0 ≤ amt → who ≠ pool_account_id id → transfer a (pool_account_id id) who amt l = (Ok u, l') →
  free_balance b (pool_account_id id) l' = free_balance b (pool_account_id id) l - at_ a b amt.
Proof.
  intros Ha Hw Ht. rewrite (transfer_moves _ _ _ _ _ _ _ Ha Ht), (at_ne (a, who)) by congruence.
  unfold at_. repeat destruct (decide _); simplify_eq; lia.
Qed.

(** *** Fees *)

Record fees_taken p (amount : Balance) (fd : FeeDistribution) p' l l' : Prop := {
  ft_pool : p' = set_manager (liquidity_shares_manager p') p;
  ft_tree : TreeInv d (liquidity_shares_manager p');
  ft_total : total_fees (liquidity_shares_manager p') ≤
             total_fees (liquidity_shares_manager p) + swap_fees fd;
  ft_sum : remaining fd + swap_fees fd + external_fees fd ≤ amount;
  ft_nonneg : 0 ≤ remaining fd ∧ 0 ≤ swap_fees fd ∧ 0 ≤ external_fees fd;
  ft_paid : free_balance (collateral p) (account_id p) l - external_fees fd ≤
            free_balance (collateral p) (account_id p) l';
  ft_others b z : z ≠ account_id p → free_balance b z l ≤ free_balance b z l';
  ft_tokens b z : b ≠ collateral p → free_balance b z l' = free_balance b z l;
}.

Lemma distribute_fees_taken id p amount s s' fd p' :
  TreeInv d (liquidity_shares_manager p) → MIN_SWAP_FEE ≤ swap_fee p → in_u128 amount →
  distribute_fees id p amount s = (Ok (fd, p'), s') →
  fees_taken p amount fd p' (ledger s) (ledger s') ∧ s' = set_ledger (ledger s') s.
Proof.
  intros Ht Hfee [Ham Hmax] Hd. unfold distribute_fees in Hd.
  apply bind_ok_inv in Hd as (swap & s1 & Hsw & Hd). run_inv Hsw.
  apply bmul_ok in Hsw as [Hmul Hswap].
  change MIN_SWAP_FEE with 10000000 in Hfee. change (BASE / 2) with 5000000000 in Hswap.
  assert (0 ≤ swap) as Hsw0 by (rewrite Hswap; apply Z.div_pos; [nia|done]). clear Hswap.
  apply bind_ok_inv in Hd as ([u p1] & s1 & Hm & Hd). run_inv Hm. unfold with_manager in Hm.
  destruct (deposit_fees swap _) as [[u'|] t1] eqn:Hdep; [|done]. injection Hm as -> <-.
  apply (deposit_step d) in Hdep; [|done..].
  pose proof (fs_total _ _ _ Hdep). apply (fee_step_inv d) in Hdep as [Ht1 _]; [|done].
  apply bind_ok_inv in Hd as (c & s1 & Hc & Hd). run_inv Hc.
  apply bind_ok_inv in Hd as (ext & s1 & He & Hd). run_inv He.
  apply bind_ok_inv in Hd as (rest & s2 & Hr & Hd). run_inv Hr. run_inv Hd. cbv zeta in *.
  unfold checked_sub in *. destruct (Z.leb_spec (saturating_add u128_max ext swap) amount) as [Hle|]; [|done].
  match goal with Hx : Some _ = Some _ |- _ => injection Hx as Hrest end.
  match goal with Hx : distribute _ _ _ _ _ _ = _ |- _ =>
    apply distribute_spec in Hx as (Hext & Hpay & Hoth & Hass & _ & _); [|done] end.
  cbn [collateral account_id set_manager] in *.
  assert (saturating_add u128_max ext swap = ext + swap) as Hsat.
  { unfold saturating_add in *. destruct (Z.min_spec u128_max (ext + swap)) as [[? Heq]|[? Heq]]; rewrite Heq in *; [|done].
    assert (amount = u128_max) as -> by lia.
    pose proof u128_max_pos. nia. }
  split; [|done]. split; cbn; try done.
  - lia.
  - lia.
  - lia.
  - intros b z Hz. destruct (decide (b = collateral p)) as [->|Hb]; [by apply Hoth|].
    rewrite Hass by done. lia.
Qed.

Lemma fees_kept id p amount fd p' l l' :
  account_id p = pool_account_id id → fees_taken p amount fd p' l l' → others_kept id l l'.
Proof.
  intros Hacc Ht id' b Hne. apply (ft_others _ _ _ _ _ _ Ht). rewrite Hacc.
  intros Heq. by apply Hne, pool_account_inj.
Qed.

(** *** Complete sets *)

Lemma sets_bought id c who amount (x x' : E * L) u :
  0 ≤ amount → who = pool_account_id id → cso_buy_complete_set who id amount c x = (Ok u, x') →
  others_kept id x.2 x'.2 ∧ ∃ m, api_market id c = Ok m ∧
    ∀ b, free_balance b who x'.2 = free_balance b who x.2 - at_ (base_asset m) b amount
      + (if decide (b ∈ outcomes_of id m) then amount else 0).
Proof.
  intros Ha Hw Hb. apply cso_buy_ok in Hb as (m & Hm & Hf); [|done]. split.
  - intros id' b Hne. rewrite Hf, (at_ne (base_asset m, who)).
    2:{ rewrite Hw. intros [= _ Heq]. by apply Hne, pool_account_inj. }
    pose proof (at_nonneg (base_asset m, sets_account id) (b, pool_account_id id') amount Ha).
    destruct (decide _); lia.
  - exists m. split; [done|]. intros b. rewrite Hf.
    rewrite (at_ne (base_asset m, sets_account id)) by (rewrite Hw; intros [= _ Heq]; by apply (pool_not_sets id id)).
    assert (at_ (base_asset m, who) (b, who) amount = at_ (base_asset m) b amount) as ->
      by (unfold at_; repeat destruct (decide _); simplify_eq; done).
    rewrite (decide_ext _ (b ∈ outcomes_of id m)) by naive_solver. lia.
Qed.
Lemma sets_sold id c who amount (x x' : E * L) u :
  0 ≤ amount → who = pool_account_id id → cso_sell_complete_set who id amount c x = (Ok u, x') →
  others_kept id x.2 x'.2 ∧ ∃ m, api_market id c = Ok m ∧
    ∀ b, free_balance b who x'.2 = free_balance b who x.2 + at_ (base_asset m) b amount
      - (if decide (b ∈ outcomes_of id m) then amount else 0).
Proof.
  intros Ha Hw Hb. apply cso_sell_ok in Hb as (m & Hm & Hf); [|done]. split.
  - intros id' b Hne. rewrite Hf. rewrite decide_False.
    2:{ rewrite Hw. intros [_ Heq]. by apply Hne, pool_account_inj. }
    rewrite (at_ne (base_asset m, sets_account id)) by (intros [= _ Heq]; by apply (pool_not_sets id' id)).
    pose proof (at_nonneg (base_asset m, who) (b, pool_account_id id') amount Ha). lia.
  - exists m. split; [done|]. intros b. rewrite Hf.
    rewrite (at_ne (base_asset m, sets_account id)) by (rewrite Hw; intros [= _ Heq]; by apply (pool_not_sets id id)).
    assert (at_ (base_asset m, who) (b, who) amount = at_ (base_asset m) b amount) as ->
      by (unfold at_; repeat destruct (decide _); simplify_eq; done).
    rewrite (decide_ext _ (b ∈ outcomes_of id m)) by naive_solver. lia.
Qed.

(** *** Trades *)

(** What a trade does to the pool: [x] of every token enters (or leaves), [y] of the
    traded one leaves (or enters), the fees stay or are paid. *)
Record trade_result (id : MarketId) (special : Asset) (x y gain : Balance) (fd : FeeDistribution)
    p p' s s' : Prop := {
  tr_before : Pools s !! id = Some p;
  tr_after : Pools s' = <[id := p']> (Pools s);
  tr_commons : commons s' = commons s;
  tr_pool : p' = set_reserves (traded special x y <$> reserves p)
                   (set_manager (liquidity_shares_manager p') p);
  tr_tree : TreeInv d (liquidity_shares_manager p');
  tr_total : total_fees (liquidity_shares_manager p') ≤
             total_fees (liquidity_shares_manager p) + swap_fees fd;
  tr_reserves w : w ∈ reserves p' → 0 ≤ w.2;
  tr_tokens a : a ∈ assets p → free_balance a (account_id p) (ledger s') =
    free_balance a (account_id p) (ledger s) + x + (if decide (a = special) then y else 0);
  tr_collateral : free_balance (collateral p) (account_id p) (ledger s) + swap_fees fd ≤
                  free_balance (collateral p) (account_id p) (ledger s');
  tr_others : others_kept id (ledger s) (ledger s');
}.

Lemma traded_assets special x y rs : (traded special x y <$> rs).*1 = rs.*1.
Proof. rewrite <- list_fmap_compose. by apply list_fmap_ext. Qed.

Lemma trade_backed id special x y gain fd p p' s s' :
  pools_backed_inv s → trade_result id special x y gain fd p p' s s' → pools_backed_inv s'.
Proof.
  intros Hinv [R1 R2 R3 R4 R5 R6 R7 R8 R9 R10].
  pose proof (Hinv id p R1) as [Ba Bt Bf Br Bn Bc Bs Bm].
  destruct s' as [c' e' l' ps' ev']. cbn in *. subst c' ps'.
  apply backed_insert; [done|done|done|].
  assert (account_id p' = account_id p ∧ collateral p' = collateral p ∧ swap_fee p' = swap_fee p ∧
    assets p' = assets p) as (Ea & Ec & Ef & Es).
  { rewrite R4. split_and!; try done. unfold assets. cbn. apply traded_assets. }
  split; rewrite ?Ea, ?Ec, ?Ef, ?Es; try done.
  - lia.
  - intros a r Hin. pose proof (R7 _ Hin) as Hnn. cbn in Hnn. split; [done|].
    rewrite R4 in Hin. cbn in Hin. apply list_elem_of_fmap in Hin as ([b r0] & [= -> ->] & Hin).
    destruct (Br b r0 Hin) as [_ Hle]. rewrite R8; [lia|].
    unfold assets. apply list_elem_of_fmap. by exists (b, r0).
Qed.

(** A pool whose market is [m]. *)
Record pool_of (id : MarketId) (m : Market) p : Prop := {
  po_account : account_id p = pool_account_id id;
  po_base : base_asset m = collateral p;
  po_assets a : a ∈ assets p ↔ a ∈ outcomes_of id m;
  po_collateral : collateral p ∉ assets p;
}.
Lemma backed_pool_of c l id p m : pool_backed c l id p → api_market id c = Ok m → pool_of id m p.
Proof. intros [] Hm. destruct (pb_market0 m Hm). by split. Qed.

(** The ledger over a purchase: payment, fees, complete sets, delivery. *)
Lemma buy_moves id m p who out amount fd p1 y l t l2 (x3 : E * L) c e l4 u1 u2 u3 :
  pool_of id m p → (∀ id', who ≠ pool_account_id id') → out ∈ assets p → 0 ≤ amount → 0 ≤ y →
  transfer (collateral p) who (pool_account_id id) amount l = (Ok u1, t) →
  fees_taken p amount fd p1 t l2 → api_market id c = Ok m →
  cso_buy_complete_set (pool_account_id id) id (remaining fd) c (e, l2) = (Ok u2, x3) →
  transfer out (pool_account_id id) who y x3.2 = (Ok u3, l4) →
  (∀ a, a ∈ assets p → free_balance a (account_id p) l4 =
     free_balance a (account_id p) l + remaining fd + (if decide (a = out) then - y else 0)) ∧
  free_balance (collateral p) (account_id p) l + swap_fees fd ≤
    free_balance (collateral p) (account_id p) l4 ∧
  others_kept id l l4.
Proof.
  intros [Pa Pb Pc Pd] Hw Hin Ham Hy Ht1 Hd Hm Hset Ht2. rewrite Pa in *.
  pose proof Hd as [Dp Dt Dtot Dsum Dnn Dpaid Doth Dtok]. rewrite Pa in *.
  apply (sets_bought _ _ _ _ (e, l2)) in Hset as [Hk3 (m' & Hm' & Hf3)]; [|lia|done].
  rewrite Hm in Hm'. injection Hm' as <-. cbn [snd] in Hf3, Hk3.
  pose proof (Hw id) as Hw'.
  split; [|split].
  - intros a Ha. rewrite (to_trader_pool _ _ _ _ _ _ _ a Hy Hw' Ht2), Hf3.
    assert (a ≠ collateral p) as Hac by (intros ->; done).
    rewrite Dtok, (from_trader_pool _ _ _ _ _ _ _ a Ham Hw' Ht1), Pb by done.
    rewrite !(at_ne (collateral p)) by congruence. rewrite decide_True by (by apply Pc).
    unfold at_. repeat destruct (decide _); simplify_eq; lia.
  - rewrite (to_trader_pool _ _ _ _ _ _ _ _ Hy Hw' Ht2), Hf3, Pb.
    rewrite (at_ne out) by (intros ->; done). rewrite at_eq, decide_False by (by rewrite <- Pc).
    pose proof (from_trader_pool _ _ _ _ _ _ _ (collateral p) Ham Hw' Ht1) as Hcol.
    rewrite at_eq in Hcol. lia.
  - transitivity t; [by apply (from_trader_kept id (collateral p) who amount l t u1)|].
    transitivity l2; [by apply (fees_kept id p amount fd p1)|].
    transitivity x3.2; [done|]. by apply (to_trader_kept id out who y x3.2 l4 u3).
Qed.

(** What the buyer pays and gets. *)
Lemma buyer_moves id m p who out amount fd p1 y l t l2 (x3 : E * L) c e l4 u1 u2 u3 :
  pool_of id m p → (∀ id', who ≠ pool_account_id id') → (∀ id', who ≠ sets_account id') →
  out ∈ assets p → 0 ≤ amount → 0 ≤ y →
  transfer (collateral p) who (pool_account_id id) amount l = (Ok u1, t) →
  fees_taken p amount fd p1 t l2 →
  cso_buy_complete_set (pool_account_id id) id (remaining fd) c (e, l2) = (Ok u2, x3) →
  transfer out (pool_account_id id) who y x3.2 = (Ok u3, l4) →
  free_balance (collateral p) who l - amount ≤ free_balance (collateral p) who l4 ∧
  free_balance out who l4 = free_balance out who l + y.
Proof.
  intros [Pa Pb Pc Pd] Hw Hws Hin Ham Hy Ht1 Hd Hset Ht2.
  pose proof Hd as [Dp Dt Dtot Dsum Dnn Dpaid Doth Dtok]. rewrite Pa in *.
  apply cso_buy_ok in Hset as (m' & Hm' & Hf3); [|lia]. cbn [snd] in Hf3.
  assert (out ≠ collateral p) as Hne by (intros ->; done).
  rewrite !(transfer_moves _ _ _ _ _ _ _ Hy Ht2), !Hf3.
  rewrite (decide_False (P := collateral p ∈ _ ∧ _)), (decide_False (P := out ∈ _ ∧ _))
    by (intros [_ Heq]; by apply (Hw id)).
  rewrite !(at_ne (base_asset m', _)) by (intros [= _ Heq]; first [by apply (Hw id)|by apply (Hws id)]).
  rewrite (at_ne (out, _) (collateral p, _)), (at_ne (out, who) (collateral p, _)) by congruence.
  rewrite (at_ne (out, pool_account_id id) (out, who)), at_eq by (intros [= Heq]; by apply (Hw id)).
  rewrite (Dtok out) by done. specialize (Doth (collateral p) who (Hw id)).
  pose proof (transfer_moves _ _ _ _ _ _ _ Ham Ht1 (collateral p) who) as Hc1.
  pose proof (transfer_moves _ _ _ _ _ _ _ Ham Ht1 out who) as Hc2.
  rewrite at_eq, (at_ne (_, pool_account_id id)) in Hc1 by (intros [= Heq]; by apply (Hw id)).
  rewrite !(at_ne (collateral p, _)) in Hc2 by congruence. lia.
Qed.

Lemma set_manager_reserves p t : set_manager t p = set_reserves ([] ++ reserves p) (set_manager t p).
Proof. by destruct p. Qed.

Lemma pool_buy_inv who id out amount_in min s s' u :
  pools_backed_inv s → (∀ id', who ≠ pool_account_id id') → (∀ id', who ≠ sets_account id') →
  in_u128 amount_in → do_buy (F := F) who id out amount_in min s = (Ok u, s') →
  ∃ p p' fd y, trade_result id out (remaining fd) (- y) amount_in fd p p' s s' ∧
    0 ≤ remaining fd ≤ amount_in ∧ out ∈ assets p ∧ min ≤ y ∧ remaining fd ≤ y ∧
    free_balance (collateral p) who (ledger s) - amount_in ≤ free_balance (collateral p) who (ledger s') ∧
    free_balance out who (ledger s') = free_balance out who (ledger s) + y.
Proof.
  intros Hinv Hwho Hws Ham Hb. pose proof (Hwho id) as Hw. unfold do_buy in Hb.
  apply bind_ok_inv in Hb as (v0 & s0 & He0 & Hb). run_inv He0.
  apply bind_ok_inv in Hb as (m & s0 & Hm & Hb). unfold market in Hm. run_inv Hm.
  apply bind_ok_inv in Hb as (v1 & s0 & He1 & Hb). run_inv He1.
  unfold try_mutate_pool in Hb. rewrite gets_bind in Hb.
  apply bind_ok_inv in Hb as (p & s0 & Hp & Hb). run_inv Hp.
  apply bind_ok_inv in Hb as ([[] p'] & s5 & Hb & Hfin). run_inv Hfin.
  destruct (Hinv id p Hp) as [Ba Bt Bf Br Bn Bc Bs Bm]. specialize (Bm m Hm) as [Bbase Bout].
  apply bind_ok_inv in Hb as (v2 & s0 & Hc & Hb). run_inv Hc.
  assert (out ∈ assets p) as Hin by (unfold contains in *; guards; by apply btree_get_key).
  apply bind_ok_inv in Hb as (v3 & s1 & Ht1 & Hb). unfold transfer_asset in Ht1. run_inv Ht1.
  rewrite Ba in Ht1.
  apply bind_ok_inv in Hb as ([fd p1] & s2 & Hd & Hb).
  apply distribute_fees_taken in Hd as [Hd Hs2]; [|done..].
  cbn [ledger set_ledger] in Hd. pose proof Hd as [Dp Dt Dtot Dsum Dnn Dpaid Doth Dtok].
  apply bind_ok_inv in Hb as (v4 & s0 & Hc4 & Hb). run_inv Hc4.
  apply bind_ok_inv in Hb as (reserve & s0 & Hr & Hb). run_inv Hr.
  apply bind_ok_inv in Hb as (lnarg & s0 & Hl & Hb). run_inv Hl.
  apply bind_ok_inv in Hb as (v5 & s0 & Hc5 & Hb). run_inv Hc5.
  apply bind_ok_inv in Hb as (swap_out & s0 & Hso & Hb). run_inv Hso. apply swap_for_buy_nonneg in Hso.
  apply bind_ok_inv in Hb as (y & s0 & Hy & Hb). run_inv Hy. apply checked_add_ok in Hy as [_ Hy].
  apply bind_ok_inv in Hb as (v6 & s0 & Hc6 & Hb). run_inv Hc6. guards.
  apply bind_ok_inv in Hb as (c & s0 & Hcc & Hb). run_inv Hcc.
  apply bind_ok_inv in Hb as (v7 & s3 & Hset & Hb). run_inv Hset.
  apply bind_ok_inv in Hb as (v8 & s4 & Ht2 & Hb). unfold transfer_asset in Ht2. run_inv Ht2.
  apply bind_ok_inv in Hb as (p2 & s0 & Hres & Hb). run_inv Hres. unfold deposit_event in Hb. run_inv Hb.
  cbn [set_sets ledger set_ledger] in Ht2.
  assert (account_id p1 = pool_account_id id ∧ assets p1 = assets p) as [Ea Es] by (by rewrite Dp).
  rewrite Ea in *. rewrite Hs2 in Hset. unfold sets_view in Hset. cbn in Hset.
  set (y := swap_out + remaining fd) in *.
  assert (pool_of id m p) as Hpo by (by split).
  destruct (buy_moves id m p who out amount_in fd p1 y (ledger s) t (ledger s2) t0 (commons s)
    (complete_sets s) _ _ _ _ Hpo Hwho Hin ltac:(apply Ham) ltac:(lia) Ht1 Hd Hm Hset Ht2)
    as (Htok & Hcol & Hoth).
  destruct (buyer_moves id m p who out amount_in fd p1 y (ledger s) t (ledger s2) t0 (commons s)
    (complete_sets s) _ _ _ _ Hpo Hwho Hws Hin ltac:(apply Ham) ltac:(lia) Ht1 Hd Hset Ht2) as [Hpay Hget].
  rewrite Es, Dp, set_manager_reserves in Hres.
  apply buy_reserves_spec in Hres as [-> Hnn]; [|done|lia|intros [b r] Har; by apply (Br b r)].
  exists p, (set_reserves (traded out (remaining fd) (- y) <$> reserves p)
               (set_manager (liquidity_shares_manager p1) p)), fd, y.
  split; [|split_and!; try done; lia].
  split; [exact Hp|by rewrite Hs2|by rewrite Hs2|reflexivity|exact Dt|exact Dtot|exact Hnn|
    exact Htok|exact Hcol|exact Hoth].
Qed.

(** The ledger over a sale: delivery, complete sets, fees, payment. *)
Lemma sell_moves id m p who inn x fd p1 y l l1 (x2 : E * L) c e l3 l4 u1 u2 u3 :
  pool_of id m p → (∀ id', who ≠ pool_account_id id') → inn ∈ assets p → 0 ≤ x → 0 ≤ y →
  transfer inn who (pool_account_id id) y l = (Ok u1, l1) → api_market id c = Ok m →
  cso_sell_complete_set (pool_account_id id) id x c (e, l1) = (Ok u2, x2) →
  fees_taken p x fd p1 x2.2 l3 →
  transfer (collateral p) (pool_account_id id) who (remaining fd) l3 = (Ok u3, l4) →
  (∀ a, a ∈ assets p → free_balance a (account_id p) l4 =
     free_balance a (account_id p) l + (- x) + (if decide (a = inn) then y else 0)) ∧
  free_balance (collateral p) (account_id p) l + swap_fees fd ≤
    free_balance (collateral p) (account_id p) l4 ∧
  others_kept id l l4.
Proof.
  intros [Pa Pb Pc Pd] Hw Hin Hx Hy Ht1 Hm Hset Hd Ht2. rewrite Pa in *.
  pose proof Hd as [Dp Dt Dtot Dsum Dnn Dpaid Doth Dtok]. rewrite Pa in *.
  apply (sets_sold _ _ _ _ (e, l1)) in Hset as [Hk3 (m' & Hm' & Hf3)]; [|lia|done].
  rewrite Hm in Hm'. injection Hm' as <-. cbn [snd] in Hf3, Hk3.
  pose proof (Hw id) as Hw'. destruct Dnn as (Dr & Dnn).
  split; [|split].
  - intros a Ha. assert (a ≠ collateral p) as Hac by (intros ->; done).
    rewrite (to_trader_pool _ _ _ _ _ _ _ a Dr Hw' Ht2), Dtok, Hf3 by done.
    rewrite (from_trader_pool _ _ _ _ _ _ _ a Hy Hw' Ht1), Pb.
    rewrite !(at_ne (collateral p)) by congruence. rewrite decide_True by (by apply Pc).
    unfold at_. repeat destruct (decide _); simplify_eq; lia.
  - rewrite (to_trader_pool _ _ _ _ _ _ _ _ Dr Hw' Ht2), at_eq.
    specialize (Hf3 (collateral p)).
    rewrite Pb, at_eq, decide_False in Hf3 by (by rewrite <- Pc).
    rewrite (from_trader_pool _ _ _ _ _ _ _ (collateral p) Hy Hw' Ht1) in Hf3.
    rewrite (at_ne inn) in Hf3 by (intros ->; done). lia.
  - transitivity l1; [by apply (from_trader_kept id inn who y l l1 u1)|].
    transitivity x2.2; [done|]. transitivity l3; [by apply (fees_kept id p x fd p1)|].
    by apply (to_trader_kept id (collateral p) who (remaining fd) l3 l4 u3).
Qed.

Lemma seller_moves id m p who inn x fd p1 y l l1 (x2 : E * L) c e l3 l4 u1 u2 u3 :
  pool_of id m p → (∀ id', who ≠ pool_account_id id') → (∀ id', who ≠ sets_account id') →
  inn ∈ assets p → 0 ≤ x → 0 ≤ y →
  transfer inn who (pool_account_id id) y l = (Ok u1, l1) →
  cso_sell_complete_set (pool_account_id id) id x c (e, l1) = (Ok u2, x2) →
  fees_taken p x fd p1 x2.2 l3 →
  transfer (collateral p) (pool_account_id id) who (remaining fd) l3 = (Ok u3, l4) →
  free_balance (collateral p) who l + remaining fd ≤ free_balance (collateral p) who l4 ∧
  free_balance inn who l4 = free_balance inn who l - y.
Proof.
  intros [Pa Pb Pc Pd] Hw Hws Hin Hx Hy Ht1 Hset Hd Ht2.
  pose proof Hd as [Dp Dt Dtot Dsum Dnn Dpaid Doth Dtok]. rewrite Pa in *.
  apply cso_sell_ok in Hset as (m' & Hm' & Hf3); [|lia]. cbn [snd] in Hf3.
  assert (inn ≠ collateral p) as Hne by (intros ->; done). destruct Dnn as (Dr & Dnn).
  assert (∀ b, free_balance b who x2.2 = free_balance b who l1) as Hsame.
  { intros b. rewrite Hf3, decide_False by (intros [_ Heq]; by apply (Hw id)).
    rewrite !(at_ne (base_asset m', _)) by (intros [= _ Heq]; first [by apply (Hw id)|by apply (Hws id)]).
    lia. }
  rewrite !(transfer_moves _ _ _ _ _ _ _ Dr Ht2).
  rewrite !(at_ne (collateral p, _) (inn, _)) by congruence.
  rewrite at_eq, (at_ne (collateral p, pool_account_id id)) by (intros [= Heq]; by apply (Hw id)).
  rewrite (Dtok inn), Hsame by done. specialize (Doth (collateral p) who (Hw id)).
  rewrite Hsame in Doth. rewrite !(transfer_moves _ _ _ _ _ _ _ Hy Ht1) in *.
  rewrite !(at_ne (inn, _) (collateral p, _)) in Doth by congruence.
  rewrite at_eq, (at_ne (inn, pool_account_id id)) by (intros [= Heq]; by apply (Hw id)). lia.
Qed.

Lemma pool_sell_inv who id inn amount_in min s s' u :
  pools_backed_inv s → (∀ id', who ≠ pool_account_id id') → (∀ id', who ≠ sets_account id') →
  0 ≤ amount_in → do_sell (F := F) who id inn amount_in min s = (Ok u, s') →
  ∃ p p' fd x, trade_result id inn (- x) amount_in x fd p p' s s' ∧
    inn ∈ assets p ∧ min ≤ remaining fd ∧ 0 ≤ remaining fd ≤ x ∧
    free_balance (collateral p) who (ledger s) + remaining fd ≤
      free_balance (collateral p) who (ledger s') ∧
    free_balance inn who (ledger s') = free_balance inn who (ledger s) - amount_in.
Proof.
  intros Hinv Hwho Hws Ham Hb. unfold do_sell in Hb.
  apply bind_ok_inv in Hb as (v0 & s0 & He0 & Hb). run_inv He0.
  apply bind_ok_inv in Hb as (m & s0 & Hm & Hb). unfold market in Hm. run_inv Hm.
  apply bind_ok_inv in Hb as (v1 & s0 & He1 & Hb). run_inv He1.
  unfold try_mutate_pool in Hb. rewrite gets_bind in Hb.
  apply bind_ok_inv in Hb as (p & s0 & Hp & Hb). run_inv Hp.
  apply bind_ok_inv in Hb as ([[] p'] & s5 & Hb & Hfin). run_inv Hfin.
  destruct (Hinv id p Hp) as [Ba Bt Bf Br Bn Bc Bs Bm]. specialize (Bm m Hm) as [Bbase Bout].
  apply bind_ok_inv in Hb as (v2 & s0 & Hc & Hb). run_inv Hc.
  assert (inn ∈ assets p) as Hin by (unfold contains in *; guards; by apply btree_get_key).
  apply bind_ok_inv in Hb as (reserve & s0 & Hr & Hb). run_inv Hr.
  apply bind_ok_inv in Hb as (v3 & s0 & Hc3 & Hb). run_inv Hc3.
  apply bind_ok_inv in Hb as (v4 & s0 & Hc4 & Hb). run_inv Hc4.
  apply bind_ok_inv in Hb as (x & s0 & Hx & Hb). run_inv Hx. apply swap_for_sell_u128 in Hx.
  apply bind_ok_inv in Hb as (v5 & s1 & Ht1 & Hb). unfold transfer_asset in Ht1. run_inv Ht1.
  rewrite Ba in Ht1.
  apply bind_ok_inv in Hb as (c & s0 & Hcc & Hb). run_inv Hcc.
  apply bind_ok_inv in Hb as (v6 & s2 & Hset & Hb). run_inv Hset. rewrite Ba in Hset.
  apply bind_ok_inv in Hb as ([fd p1] & s3 & Hd & Hb).
  apply distribute_fees_taken in Hd as [Hd Hs3]; [|done..].
  cbn [ledger set_ledger set_sets] in Hd. pose proof Hd as [Dp Dt Dtot Dsum Dnn Dpaid Doth Dtok].
  apply bind_ok_inv in Hb as (v7 & s0 & Hc7 & Hb). run_inv Hc7. guards.
  apply bind_ok_inv in Hb as (v8 & s4 & Ht2 & Hb). unfold transfer_asset in Ht2. run_inv Ht2.
  apply bind_ok_inv in Hb as (p2 & s0 & Hres & Hb). run_inv Hres.
  apply bind_ok_inv in Hb as (reserve' & s0 & Hr' & Hb). run_inv Hr'.
  apply bind_ok_inv in Hb as (v9 & s0 & Hc9 & Hb). run_inv Hc9. unfold deposit_event in Hb. run_inv Hb.
  assert (account_id p1 = pool_account_id id ∧ collateral p1 = collateral p ∧ assets p1 = assets p)
    as (Ea & Ec & Es) by (by rewrite Dp).
  rewrite Ea, Ec in *. unfold sets_view in Hset. cbn in Hset.
  assert (pool_of id m p) as Hpo by (by split).
  destruct (sell_moves id m p who inn x fd p1 amount_in _ _ _ (commons s) (complete_sets s) _ _ _ _ _
    Hpo Hwho Hin (proj1 Hx) Ham Ht1 Hm Hset Hd Ht2) as (Htok & Hcol & Hoth).
  destruct (seller_moves id m p who inn x fd p1 amount_in _ _ _ (commons s) (complete_sets s) _ _ _ _ _
    Hpo Hwho Hws Hin (proj1 Hx) Ham Ht1 Hset Hd Ht2) as [Hpay Hget].
  rewrite Es, Dp, set_manager_reserves in Hres.
  apply sell_reserves_spec in Hres as [-> Hnn]; [|done].
  exists p, (set_reserves (traded inn (- x) amount_in <$> reserves p)
               (set_manager (liquidity_shares_manager p1) p)), fd, x.
  split; [|split_and!; try done; lia].
  split; [exact Hp|by rewrite Hs3|by rewrite Hs3|reflexivity|exact Dt|exact Dtot|exact Hnn|
    exact Htok|exact Hcol|exact Hoth].
Qed.

(** *** Liquidity providers *)

Definition amount_of (rs : list (Asset * Balance)) (b : Asset) : Balance := default 0 (btree_get b rs).
(** [acc] got from [who] what the reserves gained. *)
Definition shifted (who acc : AccountId) (rs rs' : list (Asset * Balance)) l l' : Prop :=
  rs'.*1 = rs.*1 ∧ ∀ b z, free_balance b z l' = free_balance b z l
    + at_ acc z (amount_of rs' b - amount_of rs b) - at_ who z (amount_of rs' b - amount_of rs b).

Lemma amount_of_nodup rs a r : NoDup rs.*1 → (a, r) ∈ rs → amount_of rs a = r.
Proof. intros. unfold amount_of. by erewrite btree_get_nodup. Qed.
Lemma amount_of_stranger rs a : a ∉ rs.*1 → amount_of rs a = 0.
Proof.
  intros Ha. unfold amount_of. destruct (btree_get a rs) as [r|] eqn:Hr; [|done].
  destruct Ha. apply btree_get_key. by rewrite Hr.
Qed.
Lemma amount_of_cons rs a r b :
  a ∉ rs.*1 → amount_of ((a, r) :: rs) b = at_ a b r + amount_of rs b.
Proof.
  intros Ha. unfold amount_of at 1. cbn. unfold at_. destruct (decide (a = b)) as [->|]; cbn; [|done].
  rewrite amount_of_stranger by done. lia.
Qed.

Section Loop.
Context (who acc : AccountId) (f : Asset * Balance → Store St Balance) (g : Balance → Balance → Res Balance).
Context (sgn : Z) (P : Asset → Balance → Prop).
Context (f_step : ∀ w s x s', f w s = (Ok x, s') → (0 ≤ x ∧ P w.1 x) ∧ s' = set_ledger (ledger s') s ∧
  ∀ b z, free_balance b z (ledger s') = free_balance b z (ledger s)
    + at_ acc z (at_ w.1 b (sgn * x)) - at_ who z (at_ w.1 b (sgn * x))).
Context (g_step : ∀ r x r', 0 ≤ x → 0 ≤ r → g r x = Ok r' → 0 ≤ r' ∧ r' = r + sgn * x).

(** Runs the loop over the assets: every reserve moves by what is transferred. *)
Lemma provide_loop rs ms s xs s' rs' :
  NoDup rs.*1 → (∀ w, w ∈ rs → 0 ≤ w.2) →
  mapM f (zip rs.*1 ms) s = (Ok xs, s') → zip_reserves g rs xs = Ok rs' →
  s' = set_ledger (ledger s') s ∧ (∀ w, w ∈ rs' → 0 ≤ w.2) ∧ shifted who acc rs rs' (ledger s) (ledger s') ∧
  ((length rs ≤ length ms)%nat → ∀ a r, (a, r) ∈ rs → ∃ x, P a x ∧ (a, r + sgn * x) ∈ rs').
Proof.
  revert ms s xs rs'. induction rs as [|[a r] rs IH]; intros ms s xs rs' Hnd Hnn Hm Hz.
  { cbn in Hm. injection Hm as <- <-. cbn in Hz. injection Hz as <-.
    split; [by destruct s|]. split; [done|]. split; [|intros _ a r Hin; by apply elem_of_nil in Hin].
    split; [done|]. intros b z. unfold amount_of, at_. cbn. repeat destruct (decide _); lia. }
  apply NoDup_cons in Hnd as [Ha Hnd]. destruct ms as [|m ms].
  { cbn in Hm. injection Hm as <- <-. cbn in Hz. injection Hz as <-. split; [by destruct s|].
    split; [done|]. split.
    - split; [done|]. intros b z. rewrite Z.sub_diag. unfold at_. repeat destruct (decide _); lia.
    - cbn. lia. }
  cbn [zip zip_with fmap list_fmap fst mapM] in Hm.
  apply bind_ok_inv in Hm as (x & s1 & Hx & Hm). apply bind_ok_inv in Hm as (xs1 & s2 & Hxs & Hm).
  injection Hm as <- <-. cbn [zip_reserves] in Hz. apply bindR_ok_inv in Hz as (r' & Hr & Hz).
  apply bindR_ok_inv in Hz as (rs1 & Hrs & [= <-]). apply f_step in Hx as ([Hx HP] & Hs & Hmv).
  apply g_step in Hr as [Hr' ->]; [|done|exact (Hnn (a, r) ltac:(by left))].
  destruct (IH ms s1 xs1 rs1 Hnd ltac:(intros; apply Hnn; by right) Hxs Hrs) as (Hs2 & Hnn1 & [Hk Hf] & Hall).
  cbn [fst] in *. split; [by rewrite Hs2, Hs|]. split; [by intros w [->|]%elem_of_cons; auto|]. split.
  - split; [cbn; by rewrite Hk|]. intros b z. rewrite Hf, Hmv, !amount_of_cons by (by rewrite ?Hk).
    unfold at_. repeat destruct (decide _); lia.
  - intros Hlen b y [[= -> ->]|Hin]%elem_of_cons; [exists x; split; [done|by left]|].
    cbn in Hlen. destruct (Hall ltac:(lia) b y Hin) as (x' & ? & ?). exists x'. split; [done|by right].
Qed.
End Loop.

(** What joining ([delta > 0]) or leaving does to a pool and the ledger. *)
Record provider_step (id : MarketId) (who : AccountId) (delta : Z) p p' l l' : Prop := {
  pv_pool : p' = mk_Pool (account_id p) (reserves p') (collateral p) (liquidity_parameter p')
                   (liquidity_shares_manager p') (swap_fee p);
  pv_tree : restake_step d (liquidity_shares_manager p) (liquidity_shares_manager p') who delta;
  pv_nonneg w : w ∈ reserves p' → 0 ≤ w.2;
  pv_shifted : shifted who (account_id p) (reserves p) (reserves p') l l';
}.

Lemma shifted_kept id who rs rs' l l' :
  (∀ id', who ≠ pool_account_id id') → shifted who (pool_account_id id) rs rs' l l' →
  others_kept id l l'.
Proof.
  intros Hw [_ Hf] id' b Hne. rewrite Hf, !at_ne; [lia|apply Hw|].
  intros Heq. by apply Hne, pool_account_inj.
Qed.
Lemma provider_backed c l l' id who delta p p' :
  (∀ id', who ≠ pool_account_id id') → pool_backed c l id p →
  provider_step id who delta p p' l l' → pool_backed c l' id p'.
Proof.
  intros Hw [Ba Bt Bf Br Bn Bc Bs Bm] [Vp Vt Vn [Vk Vf]].
  assert (assets p' = assets p) as Es by apply Vk.
  assert (account_id p' = account_id p ∧ collateral p' = collateral p ∧ swap_fee p' = swap_fee p)
    as (Ea & Ec & Ef) by (rewrite Vp; done).
  assert (∀ b, free_balance b (account_id p) l' = free_balance b (account_id p) l
    + (amount_of (reserves p') b - amount_of (reserves p) b)) as Hpool.
  { intros b. rewrite Vf, at_eq, (at_ne who) by (rewrite Ba; apply Hw). lia. }
  split; rewrite ?Ea, ?Ec, ?Ef, ?Es; try done.
  - exact (rk_inv _ _ _ _ _ Vt).
  - pose proof (rk_fees _ _ _ _ _ Vt). rewrite Hpool.
    rewrite !amount_of_stranger by first [done|by rewrite Vk]. lia.
  - intros a r Hin. pose proof (Vn _ Hin) as Hr. cbn in Hr. split; [done|].
    rewrite Hpool, (amount_of_nodup (reserves p') a r) by first [by rewrite Vk|done].
    assert (a ∈ assets p) as Ha by (rewrite <- Es; apply list_elem_of_fmap; by exists (a, r)).
    apply list_elem_of_fmap in Ha as ([a' r0] & -> & Hin0). cbn.
    rewrite (amount_of_nodup (reserves p) a' r0) by done. specialize (Br a' r0 Hin0). cbn in *. lia.
Qed.

Definition reserve_is p (a : Asset) (r : Balance) : Prop := btree_get a (reserves p) = Some r.
Definition reserves_nonneg p : Prop := ∀ w, w ∈ reserves p → 0 ≤ w.2.

Lemma join_asset_step who p ratio w s x s' :
  0 ≤ ratio → reserves_nonneg p →
  join_asset who p ratio w s = (Ok x, s') →
  (0 ≤ x ∧ ∃ r, reserve_is p w.1 r ∧ x = (ratio * r + (BASE - 1)) / BASE) ∧
  s' = set_ledger (ledger s') s ∧
  ∀ b z, free_balance b z (ledger s') = free_balance b z (ledger s)
    + at_ (account_id p) z (at_ w.1 b (1 * x)) - at_ who z (at_ w.1 b (1 * x)).
Proof.
  intros Hratio Hnn Hj. unfold join_asset in Hj.
  apply bind_ok_inv in Hj as (r & s0 & Hr & Hj). run_inv Hr. apply ok_orR_ok_inv in Hr.
  pose proof (Hnn _ (btree_get_in _ _ _ Hr)) as Hr0. cbn in Hr0.
  apply bind_ok_inv in Hj as (y & s0 & Hy & Hj). run_inv Hy. apply bmul_ceil_ok in Hy as [_ Hy].
  assert (0 ≤ y ∧ y = (ratio * r + (BASE - 1)) / BASE) as [Hy0 Hval]
    by (split; [rewrite Hy; pose proof BASE_pos; apply Z.div_pos; nia|done]). clear Hy.
  apply bind_ok_inv in Hj as (v & s0 & Hc & Hj). run_inv Hc.
  apply bind_ok_inv in Hj as (v1 & s1 & Ht & Hj). unfold transfer_asset in Ht. run_inv Ht.
  injection Hj as <- <-.
  split; [split; [done|exists r; done]|]. split; [done|]. intros b z.
  cbn [ledger set_ledger]. rewrite (transfer_moves _ _ _ _ _ _ _ Hy0 Ht). rewrite Z.mul_1_l.
  unfold at_. repeat destruct (decide _); simplify_eq; lia.
Qed.
Lemma exit_asset_step who p ratio w s x s' :
  0 ≤ ratio → reserves_nonneg p →
  exit_asset who p ratio w s = (Ok x, s') →
  (0 ≤ x ∧ ∃ r, reserve_is p w.1 r ∧ x = ratio * r / BASE) ∧
  s' = set_ledger (ledger s') s ∧
  ∀ b z, free_balance b z (ledger s') = free_balance b z (ledger s)
    + at_ (account_id p) z (at_ w.1 b (-1 * x)) - at_ who z (at_ w.1 b (-1 * x)).
Proof.
  intros Hratio Hnn Hj. unfold exit_asset in Hj.
  apply bind_ok_inv in Hj as (r & s0 & Hr & Hj). run_inv Hr. apply ok_orR_ok_inv in Hr.
  pose proof (Hnn _ (btree_get_in _ _ _ Hr)) as Hr0. cbn in Hr0.
  apply bind_ok_inv in Hj as (y & s0 & Hy & Hj). run_inv Hy. apply bmul_floor_ok in Hy as [_ Hy]; [|done].
  assert (0 ≤ y ∧ y = ratio * r / BASE) as [Hy0 Hval]
    by (split; [rewrite Hy; pose proof BASE_pos; apply Z.div_pos; nia|done]). clear Hy.
  apply bind_ok_inv in Hj as (v & s0 & Hc & Hj). run_inv Hc.
  apply bind_ok_inv in Hj as (v1 & s1 & Ht & Hj). unfold transfer_asset in Ht. run_inv Ht.
  injection Hj as <- <-.
  split; [split; [done|exists r; done]|]. split; [done|]. intros b z.
  cbn [ledger set_ledger]. rewrite (transfer_moves _ _ _ _ _ _ _ Hy0 Ht).
  unfold at_. repeat destruct (decide _); simplify_eq; lia.
Qed.

Lemma with_manager_inv {A} (f : Tree A) p a p' :
  with_manager f p = Ok (a, p') →
  f (liquidity_shares_manager p) = (Ok a, liquidity_shares_manager p') ∧
  p' = set_manager (liquidity_shares_manager p') p.
Proof. unfold with_manager. destruct (f _) as [[x|] t]; [|done]. by intros [= -> <-]. Qed.

Lemma ask_total p total :
  TreeInv d (liquidity_shares_manager p) → ask_manager total_shares p = Ok total →
  total = stakes (liquidity_shares_manager p).
Proof.
  intros Ht Hask. unfold ask_manager in Hask. rewrite (total_shares_sum d) in Hask by done.
  cbn in Hask. apply checked_add_ok in Hask as [_ ->]. lia.
Qed.
Lemma stakes_nonneg t : TreeInv d t → 0 ≤ stakes t.
Proof.
  intros [Hnn _ _ _]. unfold stakes. apply zsum_nonneg. intros n Hn.
  rewrite Forall_forall in Hnn. apply Hnn in Hn. unfold nonneg_node in Hn. lia.
Qed.

Lemma do_join_inv who id x ms s s' u :
  pools_backed_inv s → (∀ id', who ≠ pool_account_id id') → 0 ≤ x →
  do_join d who id x ms s = (Ok u, s') →
  ∃ p p' ratio, Pools s !! id = Some p ∧ Pools s' = <[id := p']> (Pools s) ∧ commons s' = commons s ∧
    provider_step id who x p p' (ledger s) (ledger s') ∧
    stakes (liquidity_shares_manager p) ≠ 0 ∧
    ratio = (x * BASE + (stakes (liquidity_shares_manager p) - 1)) / stakes (liquidity_shares_manager p) ∧
    ((length (reserves p) ≤ length ms)%nat → ∀ a r, (a, r) ∈ reserves p →
      (a, r + (ratio * r + (BASE - 1)) / BASE) ∈ reserves p').
Proof.
  intros Hinv Hw Hx Hj. unfold do_join in Hj.
  apply bind_ok_inv in Hj as (v0 & s0 & He0 & Hj). run_inv He0.
  apply bind_ok_inv in Hj as (m & s0 & Hm & Hj). unfold market in Hm. run_inv Hm.
  apply bind_ok_inv in Hj as (v1 & s0 & He1 & Hj). run_inv He1.
  apply bind_ok_inv in Hj as (v2 & s0 & He2 & Hj). run_inv He2.
  apply bind_ok_inv in Hj as (info & s5 & Hj & Hfin). run_inv Hfin.
  unfold try_mutate_pool in Hj. rewrite gets_bind in Hj.
  apply bind_ok_inv in Hj as (p & s0 & Hp & Hj). run_inv Hp.
  apply bind_ok_inv in Hj as ([info' p'] & s6 & Hj & Hfin). run_inv Hfin.
  pose proof (Hinv id p Hp) as [Ba Bt Bf Br Bn Bc Bs Bm].
  assert (reserves_nonneg p) as Hnn by (intros [b r] Har; by apply (Br b r)).
  pose proof (stakes_nonneg _ Bt) as Hst.
  apply bind_ok_inv in Hj as (total & s0 & Htot & Hj). run_inv Htot. apply ask_total in Htot; [|done].
  apply bind_ok_inv in Hj as (ratio & s0 & Hr & Hj). run_inv Hr.
  apply bdiv_ceil_ok in Hr as (Hne & _ & Hr).
  assert (0 ≤ ratio) as Hratio by (rewrite Hr; pose proof BASE_pos; apply Z.div_pos; nia).
  apply bind_ok_inv in Hj as (v3 & s0 & He3 & Hj).
  assert (s0 = s) as -> by (destruct (is_ok _); run_inv He3; done).
  apply bind_ok_inv in Hj as (xs & s1 & Hxs & Hj).
  apply bind_ok_inv in Hj as (rs & s0 & Hrs & Hj). run_inv Hrs.
  apply bind_ok_inv in Hj as ([bi p2] & s0 & Hjoin & Hj). run_inv Hjoin.
  apply with_manager_inv in Hjoin as [Hjoin Hp2]. apply join_step in Hjoin; [|done..].
  apply bind_ok_inv in Hj as (inc & s0 & Hinc & Hj). run_inv Hinc.
  apply bind_ok_inv in Hj as (lp & s0 & Hlp & Hj). run_inv Hlp. unfold deposit_event in Hj. run_inv Hj.
  destruct (provide_loop who (account_id p) _ (checked_add_res u128_max) 1
    (λ a x, ∃ r, reserve_is p a r ∧ x = _) (λ w s x s', join_asset_step who p _ w s x s' Hratio Hnn)
    ltac:(intros ????? [_ ->]%checked_add_ok; lia) _ _ _ _ _ _ Bn Hnn Hxs Hrs) as (Hs1 & Hnn1 & Hsh & Hall).
  eexists p, (mk_Pool (account_id p) rs (collateral p) lp (liquidity_shares_manager p2) (swap_fee p)), _.
  split; [exact Hp|]. split; [by rewrite Hp2, Hs1|]. split; [by rewrite Hs1|].
  split; [|split; [done|split; [reflexivity|]]].
  - by split.
  - intros Hlen b r Hin. destruct (Hall Hlen b r Hin) as (y & (r' & Hr' & ->) & Hin').
    unfold reserve_is in Hr'. rewrite (btree_get_nodup b r) in Hr' by done. injection Hr' as <-.
    by rewrite Z.mul_1_l in Hin'.
Qed.

Definition elsewhere_same (acc : AccountId) s s' : Prop :=
  s' = set_ledger (ledger s') s ∧
  ∀ b z, z ≠ acc → free_balance b z (ledger s') = free_balance b z (ledger s).
#[local] Instance elsewhere_same_preorder acc : PreOrder (elsewhere_same acc).
Proof.
  split; [intros s; split; [by destruct s|done]|]. intros s1 s2 s3 [E12 H12] [E23 H23].
  split; [by rewrite E23, E12|]. intros b z Hz. by rewrite H23, H12.
Qed.
Lemma withdraw_remaining_step p a s s' u :
  withdraw_remaining p a s = (Ok u, s') → elsewhere_same (account_id p) s s'.
Proof.
  intros Hx. unfold withdraw_remaining in Hx. rewrite gets_bind in Hx. run_inv Hx. split; [done|].
  apply withdraw_ok in Hx as (_ & Hf & _); [|apply free_nonneg]. intros b z Hz. cbn [ledger set_ledger].
  rewrite Hf, at_ne by congruence. lia.
Qed.

Lemma exit_ratio_range m p x ratio :
  TreeInv d (liquidity_shares_manager p) → 0 ≤ x → exit_ratio m p x = Ok ratio →
  stakes (liquidity_shares_manager p) ≠ 0 ∧
  0 ≤ ratio ≤ x * BASE / stakes (liquidity_shares_manager p).
Proof.
  intros Ht Hx Hr. unfold exit_ratio in Hr. pose proof (stakes_nonneg _ Ht).
  apply bindR_ok_inv in Hr as (total & Htot & Hr). apply ask_total in Htot as ->; [|done].
  apply bindR_ok_inv in Hr as (r0 & Hr0 & Hr).
  pose proof (bdiv_floor_nonneg u128_max ltac:(done) _ _ _ Hx ltac:(done) Hr0) as Hpos.
  apply bdiv_floor_ok in Hr0 as (_ & Hne & Hr0); [|done]. split; [done|].
  destruct (bool_decide _); [|injection Hr as <-; by rewrite <- Hr0].
  apply bindR_ok_inv in Hr as (base & Hb & Hr). apply ZeitgeistBase_inv in Hb as ->.
  apply bindR_ok_inv in Hr as (mult & Hm & Hr). apply checked_sub_ok in Hm as [_ ->].
  apply bmul_floor_ok in Hr as [_ Hr]; [|done]. rewrite <- Hr0.
  change (BASE - EXIT_FEE) with 9990000000 in Hr. change BASE with 10000000000 in Hr.
  clear Hr0. subst ratio. split; [apply Z.div_pos; lia|]. apply Z.div_le_upper_bound; lia.
Qed.

Lemma do_exit_inv who id x ms s s' u :
  pools_backed_inv s → (∀ id', who ≠ pool_account_id id') → 0 ≤ x →
  do_exit d who id x ms s = (Ok u, s') →
  ∃ p p' ratio l1, Pools s !! id = Some p ∧ commons s' = commons s ∧
    provider_step id who (- x) p p' (ledger s) l1 ∧ x ≤ shares (liquidity_shares_manager p) who ∧
    stakes (liquidity_shares_manager p) ≠ 0 ∧
    0 ≤ ratio ≤ x * BASE / stakes (liquidity_shares_manager p) ∧
    ((length (reserves p) ≤ length ms)%nat → ∀ a r, (a, r) ∈ reserves p →
      (a, r - ratio * r / BASE) ∈ reserves p') ∧
    (∀ b z, z ≠ account_id p → free_balance b z (ledger s') = free_balance b z l1) ∧
    (Pools s' = <[id := p']> (Pools s) ∧ ledger s' = l1 ∨ Pools s' = delete id (Pools s)).
Proof.
  intros Hinv Hw Hx Hj. unfold do_exit in Hj.
  apply bind_ok_inv in Hj as (v0 & s0 & He0 & Hj). run_inv He0.
  apply bind_ok_inv in Hj as (m & s0 & Hm & Hj). unfold market in Hm. run_inv Hm.
  unfold try_mutate_pool_exists in Hj. rewrite gets_bind in Hj.
  apply bind_ok_inv in Hj as (p & s0 & Hp & Hj). run_inv Hp.
  apply bind_ok_inv in Hj as (res & s6 & Hj & Hfin). run_inv Hfin.
  pose proof (Hinv id p Hp) as [Ba Bt Bf Br Bn Bc Bs Bm].
  assert (reserves_nonneg p) as Hnn by (intros [b r] Har; by apply (Br b r)).
  apply bind_ok_inv in Hj as (ratio & s0 & Hr & Hj). run_inv Hr.
  apply exit_ratio_range in Hr as [Hne Hratio]; [|done..].
  apply bind_ok_inv in Hj as (xs & s1 & Hxs & Hj).
  apply bind_ok_inv in Hj as (rs & s0 & Hrs & Hj). run_inv Hrs.
  apply bind_ok_inv in Hj as ([bi p2] & s0 & Hexit & Hj). run_inv Hexit.
  apply with_manager_inv in Hexit as [Hexit Hp2]. apply exit_step in Hexit as [Hsh Hexit]; [|done..].
  apply bind_ok_inv in Hj as (total & s0 & Htot & Hj). run_inv Htot.
  destruct (provide_loop who (account_id p) _ checked_sub_res (-1)
    (λ a x, ∃ r, reserve_is p a r ∧ x = _)
    (λ w s x s', exit_asset_step who p _ w s x s' (proj1 Hratio) Hnn)
    ltac:(intros ????? [? ->]%checked_sub_ok; lia) _ _ _ _ _ _ Bn Hnn Hxs Hrs) as (Hs1 & Hnn1 & Hshift & Hall).
  pose (q lp := mk_Pool (account_id p) rs (collateral p) lp (liquidity_shares_manager p2) (swap_fee p)).
  assert (∀ lp, provider_step id who (- x) p (q lp) (ledger s) (ledger s1)) as Hstep by (intros lp; by split).
  assert ((length (reserves p) ≤ length ms)%nat → ∀ a r, (a, r) ∈ reserves p →
    (a, r - ratio * r / BASE) ∈ rs) as Hout.
  { intros Hlen a0 r Hin. destruct (Hall Hlen a0 r Hin) as (y & (r' & Hr' & ->) & Hin').
    unfold reserve_is in Hr'. rewrite (btree_get_nodup a0 r) in Hr' by done. injection Hr' as <-.
    by rewrite <- Z.add_opp_r, Z.opp_eq_mul_m1, Z.mul_comm. }
  assert (account_id p2 = account_id p) as Ea by (by rewrite Hp2).
  destruct (total =? 0).
  - apply bind_ok_inv in Hj as (w0 & s2 & Hw0 & Hj). apply withdraw_remaining_step in Hw0.
    apply bind_ok_inv in Hj as (w1 & s3 & Hw1 & Hj).
    apply (for_each_rel (elsewhere_same (account_id p2))) in Hw1;
      [|intros; by eapply withdraw_remaining_step].
    assert (elsewhere_same (account_id p) s1 s3) as [Hs3 Helse] by (rewrite <- Ea; by transitivity s2).
    unfold deposit_event in Hj. run_inv Hj.
    exists p, (q 0), ratio, (ledger s1). split; [done|]. split; [cbn; by rewrite Hs3, Hs1|].
    split; [apply (Hstep 0)|]. split_and!; try done; try lia. right. cbn. by rewrite Hs3, Hs1.
  - apply bind_ok_inv in Hj as (dec & s0 & Hdec & Hj). run_inv Hdec.
    apply bind_ok_inv in Hj as (lp & s0 & Hlp & Hj). run_inv Hlp.
    apply bind_ok_inv in Hj as (w0 & s2 & Hw0 & Hj).
    assert (s2 = s1) as -> by (destruct (ask_manager (shares_of who) p2); run_inv Hw0; done).
    unfold deposit_event in Hj. run_inv Hj.
    exists p, (q lp), ratio, (ledger s1). split; [done|]. split; [cbn; by rewrite Hs1|].
    split; [apply (Hstep lp)|]. split_and!; try done; try lia. left. cbn.
    split; [by rewrite Hp2, Hs1|done].
Qed.

(** *** Withdrawal of fees and new pools *)

Lemma do_withdraw_inv who id s s' u :
  pools_backed_inv s → (∀ id', who ≠ pool_account_id id') →
  do_withdraw_fees d who id s = (Ok u, s') → pools_backed_inv s' ∧ commons s' = commons s.
Proof.
  intros Hinv Hw Hx. unfold do_withdraw_fees, try_mutate_pool in Hx. rewrite gets_bind in Hx.
  apply bind_ok_inv in Hx as (p & s0 & Hp & Hx). run_inv Hp.
  apply bind_ok_inv in Hx as ([u' p'] & s1 & Hx & Hfin). run_inv Hfin.
  pose proof (Hinv id p Hp) as [Ba Bt Bf Br Bn Bc Bs Bm].
  apply bind_ok_inv in Hx as ([amount p1] & s0 & Hm & Hx). run_inv Hm. apply with_manager_inv in Hm as [Hm Hp1].
  apply withdraw_step in Hm as [Ham Hm]; [|done]. pose proof (fs_total _ _ _ Hm) as Htot.
  apply (fee_step_inv d) in Hm as [Ht _]; [|done].
  apply bind_ok_inv in Hx as (v & s2 & Ht1 & Hx). unfold transfer_asset in Ht1. run_inv Ht1.
  unfold deposit_event in Hx. run_inv Hx.
  assert (account_id p' = pool_account_id id ∧ collateral p' = collateral p) as [Ea Ec] by (by rewrite Hp1).
  rewrite Ea, Ec in Ht1. pose proof (to_trader_kept id _ who amount _ _ _ Ham Ht1) as Hkept.
  pose proof (to_trader_pool id _ who amount _ _ _ (collateral p) Ham (Hw id) Ht1) as Hcol. rewrite at_eq in Hcol.
  split; [|done]. apply (backed_insert s); [exact Hinv|exact Hkept|done|]. cbn [fst snd ledger commons]. rewrite Ba in *.
  rewrite Hp1. split; cbn; rewrite ?Ba; try done; [lia|].
  intros b r Hin. destruct (Br b r Hin) as [? Hr]. split; [done|].
  rewrite (to_trader_pool id _ who amount _ _ _ b Ham (Hw id) Ht1), at_ne; [lia|].
  intros Heq. apply Bc. rewrite Heq. apply list_elem_of_fmap. by exists (b, r).
Qed.

Lemma deploy_all who id ws s s' u :
  (∀ id', who ≠ pool_account_id id') → (∀ w, w ∈ ws → 0 ≤ w.1) →
  for_each (deploy_asset who (pool_account_id id)) ws s = (Ok u, s') →
  s' = set_ledger (ledger s') s ∧ others_kept id (ledger s) (ledger s') ∧
  (∀ b, free_balance b (pool_account_id id) (ledger s) ≤ free_balance b (pool_account_id id) (ledger s')) ∧
  ∀ x a, (x, a) ∈ ws → x ≤ free_balance a (pool_account_id id) (ledger s').
Proof.
  intros Hw. revert s. induction ws as [|[x a] ws IH]; intros s Hnn Hl; cbn [for_each] in Hl.
  { injection Hl as _ <-. split; [by destruct s|]. split; [done|]. split; [done|].
    intros x a Hin. by apply elem_of_nil in Hin. }
  apply bind_ok_inv in Hl as (v & s1 & Ht & Hl). unfold deploy_asset, transfer_asset in Ht. run_inv Ht.
  cbn [fst snd] in Ht. pose proof (Hnn (x, a) ltac:(by left)) as Hx. cbn in Hx.
  apply IH in Hl as (Hs & Hk & Hmono & Hin); [|intros; apply Hnn; by right].
  cbn [ledger set_ledger] in *. pose proof (from_trader_kept id a who x _ _ _ Hx Hw Ht) as Hk1.
  assert (∀ b, free_balance b (pool_account_id id) t =
    free_balance b (pool_account_id id) (ledger s) + at_ a b x) as Hpool
    by (intros b; by apply (from_trader_pool id a who x _ _ v b)).
  split; [by rewrite Hs|]. split; [by transitivity t|]. split.
  - intros b. specialize (Hmono b). rewrite Hpool in Hmono. pose proof (at_nonneg a b x Hx). lia.
  - intros y b [[= -> ->]|Hyb]%elem_of_cons; [|by apply Hin].
    specialize (Hmono a). rewrite Hpool, at_eq in Hmono.
    pose proof (free_nonneg a (pool_account_id id) (ledger s)). lia.
Qed.

Lemma outcomes_of_spec id m :
  NoDup (outcomes_of id m) ∧ (0 ≤ Types.outcomes m → Z.of_nat (length (outcomes_of id m)) = Types.outcomes m).
Proof.
  unfold outcomes_of, Types.outcomes. destruct (market_type m); [|split; [|done]].
  - split; [apply NoDup_fmap; [by intros ?? [=]|apply NoDup_seqZ]|].
    intros. rewrite length_fmap, length_seqZ. lia.
  - repeat constructor; set_solver.
Qed.

Lemma outcomes_inv id s os s' :
  outcomes id s = (Ok os, s') → s' = s ∧ ∃ m, api_market id (commons s) = Ok m ∧ os = outcomes_of id m.
Proof.
  intros Ho. unfold outcomes, market in Ho. apply bind_ok_inv in Ho as (m & s0 & Hm & Ho). run_inv Hm.
  run_inv Ho. split; [done|]. by exists m.
Qed.

Lemma new_pool_backed c l id m xs lp tree fee :
  let os := outcomes_of id m in
  api_market id c = Ok m → base_asset m ∉ os → Z.of_nat (length xs) = Types.outcomes m →
  (∀ x a, (x, a) ∈ zip xs os → 0 ≤ x ≤ free_balance a (pool_account_id id) l) →
  TreeInv d tree → total_fees tree = 0 → MIN_SWAP_FEE ≤ fee →
  pool_backed c l id (mk_Pool (pool_account_id id) (foldl (λ acc w, btree_insert w.2 w.1 acc) [] (zip xs os))
    (base_asset m) lp tree fee).
Proof.
  intros os Hm Hbase Hlen Hin Ht Hfees Hfee.
  destruct (outcomes_of_spec id m) as [Hnd Hlo].
  assert (length xs = length os) as Hll by (unfold os in *; lia).
  pose proof (deploy_reserves_perm (zip xs os) []) as Hperm. rewrite app_nil_r, snd_zip in Hperm by lia.
  rewrite app_nil_r in Hperm. specialize (Hperm Hnd).
  assert ((foldl (λ acc w, btree_insert w.2 w.1 acc) [] (zip xs os)).*1 ≡ₚ os) as Hkeys
    by (rewrite Hperm, swap_zip_fst by done; done).
  split; cbn [account_id collateral liquidity_shares_manager reserves swap_fee]; try done.
  - rewrite Hfees. apply free_nonneg.
  - intros a r Ha. rewrite Hperm in Ha. apply list_elem_of_fmap in Ha as ([x b] & [= -> ->] & Ha). by apply Hin.
  - unfold assets. cbn. by rewrite Hkeys.
  - unfold assets. cbn. by rewrite Hkeys.
  - intros m' Hm'. rewrite Hm in Hm'. injection Hm' as <-. split; [done|]. intros a. unfold assets. cbn.
    by rewrite Hkeys.
Qed.

Lemma do_deploy_inv who id amount ps fee s s' u :
  pools_backed_inv s → (∀ m, api_market id (commons s) = Ok m → base_asset m ∉ outcomes_of id m) →
  (∀ id', who ≠ pool_account_id id') → 0 ≤ amount →
  (∀ m, api_market id (commons s) = Ok m → Z.of_nat (length ps) = Types.outcomes m) →
  do_deploy_pool (F := F) d MaxSwapFee pool_account_id who id amount ps fee s = (Ok u, s') →
  pools_backed_inv s' ∧ commons s' = commons s.
Proof.
  intros Hinv Hbase Hw Ham Hlen Hx. unfold do_deploy_pool in Hx. rewrite gets_bind in Hx.
  apply bind_ok_inv in Hx as (v0 & s0 & He0 & Hx). run_inv He0.
  apply bind_ok_inv in Hx as (m & s0 & Hm & Hx). unfold market in Hm. run_inv Hm.
  specialize (Hbase m Hm). specialize (Hlen m Hm).
  do 7 (let v := fresh "v" in let h := fresh "Hg" in
    apply bind_ok_inv in Hx as (v & s0 & h & Hx); run_inv h).
  apply bind_ok_inv in Hx as (v8 & s0 & He8 & Hx).
  apply (for_each_rel eq) in He8 as <-; [|intros y t t' w _ Hy; by run_inv Hy].
  apply bind_ok_inv in Hx as ([lp xs] & s0 & Hres & Hx). run_inv Hres.
  apply reserves_from_prices_spec in Hres as [Hlx Hnn].
  apply bind_ok_inv in Hx as (v9 & s0 & He9 & Hx). run_inv He9.
  apply bind_ok_inv in Hx as (os & s0 & Hout & Hx).
  apply outcomes_inv in Hout as (-> & m' & Hm' & ->). rewrite Hm in Hm'. injection Hm' as <-.
  apply bind_ok_inv in Hx as (v10 & s1 & Hdep & Hx).
  apply deploy_all in Hdep as (Hs1 & Hk1 & _ & Hin);
    [|done|intros [y b] Hy%elem_of_zip_l; rewrite Forall_forall in Hnn; by apply Hnn].
  apply bind_ok_inv in Hx as (tree & s0 & Ht & Hx). run_inv Ht.
  apply new_inv in Ht as (Ht & Hfees & _); [|done].
  apply bind_ok_inv in Hx as (v11 & s2 & Hmin & Hx). unfold transfer_asset in Hmin. run_inv Hmin.
  cbn [collateral] in Hmin. unfold deposit_event in Hx. run_inv Hx.
  cbn [set_Pools set_ledger commons complete_sets ledger Pools]. rewrite Hs1. cbn [set_ledger commons complete_sets ledger Pools].
  pose proof (from_trader_kept id _ who _ _ _ _ (minimum_balance_nonneg _) Hw Hmin) as Hk2.
  split; [|done]. apply backed_insert; [done|by transitivity (ledger s1)|done|]. guards.
  apply new_pool_backed; try done; [lia|].
  intros x b Hxb. pose proof (Hin x b Hxb) as Hle.
  rewrite (from_trader_pool id _ who _ _ _ _ b (minimum_balance_nonneg _) (Hw id) Hmin).
  pose proof (at_nonneg (base_asset m) b _ (minimum_balance_nonneg (base_asset m))).
  apply elem_of_zip_l in Hxb. rewrite Forall_forall in Hnn. specialize (Hnn x Hxb). lia.
Qed.

Lemma do_join_backed who id x ms s s' u :
  pools_backed_inv s → (∀ id', who ≠ pool_account_id id') → 0 ≤ x →
  do_join d who id x ms s = (Ok u, s') → pools_backed_inv s'.
Proof.
  intros Hinv Hw Hx Hj. apply do_join_inv in Hj as (p & p' & ratio & Hp & HP & Hc & Hstep & _); [|done..].
  pose proof (Hinv id p Hp) as Hb. destruct s' as [c' e' l' ps' ev']. cbn in *. subst ps'.
  apply backed_insert; [done| |done|].
  - apply (shifted_kept id who (reserves p) (reserves p')); [done|].
    rewrite <- (pb_account _ _ _ _ Hb). apply Hstep.
  - rewrite Hc. by apply (provider_backed _ (ledger s) _ _ who x p).
Qed.

Lemma do_exit_backed who id x ms s s' u :
  pools_backed_inv s → (∀ id', who ≠ pool_account_id id') → 0 ≤ x →
  do_exit d who id x ms s = (Ok u, s') → pools_backed_inv s'.
Proof.
  intros Hinv Hw Hx Hj.
  apply do_exit_inv in Hj as (p & p' & ratio & l1 & Hp & Hc & Hstep & _ & _ & _ & _ & Helse & HP); [|done..].
  pose proof (Hinv id p Hp) as Hb. pose proof (pb_account _ _ _ _ Hb) as Ha.
  assert (others_kept id (ledger s) l1) as Hk.
  { apply (shifted_kept id who (reserves p) (reserves p')); [done|]. rewrite <- Ha. apply Hstep. }
  destruct s' as [c' e' l' ps' ev']. cbn in *. destruct HP as [[-> ->]| ->].
  - apply backed_insert; [done|done|done|]. rewrite Hc.
    by apply (provider_backed _ (ledger s) _ _ who (- x) p).
  - apply backed_delete; [done| |done]. intros id' b Hne. rewrite Helse; [by apply Hk|].
    rewrite Ha. intros Heq. by apply Hne, pool_account_inj.
Qed.

(** *** Everything that can happen *)

Inductive Call : Type :=
| CBuy (who : AccountId) (id : MarketId) (count : Z) (a : Asset) (amount min : Balance)
| CSell (who : AccountId) (id : MarketId) (count : Z) (a : Asset) (amount min : Balance)
| CJoin (who : AccountId) (id : MarketId) (shares : Balance) (max : list Balance)
| CExit (who : AccountId) (id : MarketId) (shares : Balance) (min : list Balance)
| CWithdraw (who : AccountId) (id : MarketId)
| CDeploy (who : AccountId) (id : MarketId) (amount : Balance) (prices : list Balance) (fee : Balance).

Definition dispatch (c : Call) : Store St unit :=
  match c with
  | CBuy who id n a x y => buy (F := F) who id n a x y
  | CSell who id n a x y => sell (F := F) who id n a x y
  | CJoin who id x ms => join d who id x ms
  | CExit who id x ms => exit d who id x ms
  | CWithdraw who id => withdraw_fees d who id
  | CDeploy who id x ps fee => deploy_pool (F := F) d MaxSwapFee pool_account_id who id x ps fee
  end.
Definition caller (c : Call) : AccountId :=
  match c with
  | CBuy who _ _ _ _ _ | CSell who _ _ _ _ _ | CJoin who _ _ _ | CExit who _ _ _
  | CWithdraw who _ | CDeploy who _ _ _ _ => who
  end.
Definition call_amount (c : Call) : Balance :=
  match c with
  | CBuy _ _ _ _ x _ | CSell _ _ _ _ x _ | CJoin _ _ x _ | CExit _ _ x _ | CDeploy _ _ x _ _ => x
  | CWithdraw _ _ => 0
  end.
(** Nobody holds the keys of the accounts of pools and markets. *)
Definition valid_call (c : Call) : Prop :=
  (∀ id, caller c ≠ pool_account_id id) ∧ (∀ id, caller c ≠ sets_account id) ∧ in_u128 (call_amount c).

(** The base asset of a market is not one of its outcomes. *)
Definition markets_proper s : Prop :=
  ∀ id m, api_market id (commons s) = Ok m → base_asset m ∉ outcomes_of id m.

(** What happens outside the pallet: no pool account is debited, and the base asset
    and the type of a market with a pool are not changed. *)
Record elsewhere s s' : Prop := {
  el_pools : Pools s' = Pools s;
  el_ledger id b : is_Some (Pools s !! id) →
    free_balance b (pool_account_id id) (ledger s) ≤ free_balance b (pool_account_id id) (ledger s');
  el_markets id m' : is_Some (Pools s !! id) → api_market id (commons s') = Ok m' →
    ∃ m, api_market id (commons s) = Ok m ∧ base_asset m' = base_asset m ∧ market_type m' = market_type m;
  el_proper : markets_proper s → markets_proper s';
}.

Inductive neo_step s : St → Prop :=
| step_call (k : Call) : valid_call k → neo_step s (dispatch k s).2
| step_elsewhere s' : elsewhere s s' → neo_step s s'.

Lemma dispatch_ok_backed (k : Call) s s' u :
  markets_proper s → pools_backed_inv s → valid_call k → dispatch k s = (Ok u, s') →
  pools_backed_inv s' ∧ commons s' = commons s.
Proof.
  intros Hm Hinv (Hw & Hws & Ham) Hd. destruct k; cbn in *; apply transactional_ok_inv in Hd.
  1-4,6: apply bind_ok_inv in Hd as (m & s0 & Hmk & Hd); unfold market in Hmk; run_inv Hmk;
    apply bind_ok_inv in Hd as (v & s0 & He & Hd); run_inv He.
  - apply pool_buy_inv in Hd as (p & p' & fd & y & Ht & _); [|done..].
    split; [by eapply trade_backed|apply Ht].
  - apply pool_sell_inv in Hd as (p & p' & fd & y & Ht & _); [|done..|apply Ham].
    split; [by eapply trade_backed|apply Ht].
  - split; [by eapply do_join_backed; [..|apply Ham|]|].
    by apply do_join_inv in Hd as (? & ? & ? & ? & ? & ? & _); [|done..|apply Ham].
  - split; [by eapply do_exit_backed; [..|apply Ham|]|].
    by apply do_exit_inv in Hd as (? & ? & ? & ? & ? & ? & _); [|done..|apply Ham].
  - guards. apply do_deploy_inv in Hd; [done|done|by apply Hm|done|apply Ham|].
    intros m' Hm'. by replace m' with m by congruence.
  - by apply do_withdraw_inv in Hd.
Qed.

Lemma dispatch_err (k : Call) s s' e : dispatch k s = (Err e, s') → s' = s.
Proof. destruct k; apply transactional_err. Qed.

Lemma neo_step_backed s s' :
  neo_step s s' → markets_proper s ∧ pools_backed_inv s → markets_proper s' ∧ pools_backed_inv s'.
Proof.
  intros Hs [Hm Hinv]. destruct Hs as [k Hk|s' [E1 E2 E3 E4]].
  - destruct (dispatch k s) as [[[]|e] s'] eqn:Hd; cbn [snd].
    + apply dispatch_ok_backed in Hd as [? Hc]; [|done..]. split; [|done].
      intros id m. rewrite Hc. apply Hm.
    + by apply dispatch_err in Hd as ->.
  - split; [by apply E4|]. intros id p Hp. rewrite E1 in Hp.
    apply (backed_mono _ (ledger s)); [intros b; by apply E2; exists p|].
    destruct (Hinv id p Hp) as [Ba Bt Bf Br Bn Bc Bs Bm]. split; try done.
    intros m' Hm'. apply E3 in Hm' as (m & Hm' & Eb & Et); [|by exists p].
    destruct (Bm m Hm') as [Hb Ha]. split; [congruence|]. intros a. rewrite Ha. unfold outcomes_of. by rewrite Et.
Qed.

(** (C3) Pools are solvent, whatever happens: after any sequence of calls to the pallet
    (trades, joins, exits, fee withdrawals, deployments; by anyone who is not one of
    the keyless accounts) interleaved with anything outside it that does not debit the
    pools, the account of every pool holds its reserve of every outcome token, and
    enough collateral for every fee owed to its liquidity providers; its reserves are
    exactly the outcomes of its market, and its liquidity tree is well formed. *)
Theorem pools_backed s0 s id p :
  Pools s0 = ∅ → markets_proper s0 → rtc neo_step s0 s → Pools s !! id = Some p →
  account_id p = pool_account_id id ∧ TreeInv d (liquidity_shares_manager p) ∧
  total_fees (liquidity_shares_manager p) ≤ free_balance (collateral p) (account_id p) (ledger s) ∧
  (∀ a r, (a, r) ∈ reserves p → 0 ≤ r ≤ free_balance a (account_id p) (ledger s)) ∧
  NoDup (assets p) ∧
  ∀ m, api_market id (commons s) = Ok m →
    collateral p = base_asset m ∧ ∀ a, a ∈ assets p ↔ a ∈ outcomes_of id m.
Proof.
  intros He Hm Hs Hp. assert (markets_proper s ∧ pools_backed_inv s) as [_ Hinv].
  { assert (markets_proper s0 ∧ pools_backed_inv s0) as Hi
      by (split; [done|intros id' p'; by rewrite He, lookup_empty]).
    clear He Hm Hp. induction Hs as [|s1 s2 s3 H12 _ IH]; [done|]. by apply IH, (neo_step_backed s1). }
  destruct (Hinv id p Hp) as [Ba Bt Bf Br Bn Bc Bs Bm]. split_and!; try done.
  intros m Hm'. by destruct (Bm m Hm').
Qed.

(** *** Joining and leaving *)

(** What enters rounds up, what leaves rounds down. *)
Lemma join_exit_rounding x T R ratio_in ratio_out amount_in :
  0 ≤ x → 0 < T → 0 ≤ R → ratio_in = (x * BASE + (T - 1)) / T →
  amount_in = (ratio_in * R + (BASE - 1)) / BASE → 0 ≤ ratio_out ≤ x * BASE / (T + x) →
  ratio_out * (R + amount_in) / BASE ≤ amount_in.
Proof.
  intros Hx HT HR Hri Hin [Hro0 Hro]. pose proof BASE_pos.
  assert (x * BASE ≤ ratio_in * T) as G1 by (rewrite Hri; pose proof (Z.mod_pos_bound (x * BASE + (T - 1)) T HT);
    pose proof (Z.div_mod (x * BASE + (T - 1)) T ltac:(lia)); lia).
  assert (ratio_in * R ≤ amount_in * BASE) as G2 by (rewrite Hin;
    pose proof (Z.mod_pos_bound (ratio_in * R + (BASE - 1)) BASE ltac:(lia));
    pose proof (Z.div_mod (ratio_in * R + (BASE - 1)) BASE ltac:(lia)); lia).
  assert (x * R ≤ amount_in * T) as G3.
  { apply (Z.mul_le_mono_pos_l _ _ BASE); [done|]. transitivity (ratio_in * T * R); nia. }
  assert (ratio_out * (T + x) ≤ x * BASE) as G4.
  { pose proof (Z.mul_div_le (x * BASE) (T + x) ltac:(lia)). nia. }
  assert (0 ≤ amount_in) by nia.
  apply Z.div_le_upper_bound; [done|]. apply (Z.mul_le_mono_pos_r _ _ (T + x)); [lia|].
  transitivity (x * BASE * (R + amount_in)); nia.
Qed.

Lemma backed_length c l id p m :
  pool_backed c l id p → api_market id c = Ok m → 0 ≤ Types.outcomes m →
  Z.of_nat (length (reserves p)) = Types.outcomes m.
Proof.
  intros Hb Hm Ho. destruct (outcomes_of_spec id m) as [Hnd Hlen]. rewrite <- Hlen by done. f_equal.
  destruct (pb_market _ _ _ _ Hb m Hm) as [_ Hiff].
  transitivity (length (assets p)); [unfold assets; by rewrite length_fmap|].
  apply Permutation_length, NoDup_Permutation; [exact (pb_nodup _ _ _ _ Hb)|done|done].
Qed.

Lemma shifted_provider who acc rs rs' l l' a :
  who ≠ acc → shifted who acc rs rs' l l' →
  free_balance a who l' = free_balance a who l - (amount_of rs' a - amount_of rs a).
Proof. intros Hne [_ Hf]. rewrite Hf, at_eq, at_ne by done. lia. Qed.

(** (C16) A provider cannot make money by joining a pool and leaving it: if [who] joins
    with some shares and then leaves with the same number of shares, it ends up with
    no more of any asset than it had, whatever the reserves, the rounding and the
    status of the market are. *)
Theorem join_exit_no_profit who id x max_in min_out s s1 s2 u1 u2 a :
  pools_backed_inv s → (∀ id', who ≠ pool_account_id id') → 0 ≤ x →
  join d who id x max_in s = (Ok u1, s1) → exit d who id x min_out s1 = (Ok u2, s2) →
  free_balance a who (ledger s2) ≤ free_balance a who (ledger s).
Proof.
  intros Hinv Hw Hx Hj He. apply transactional_ok_inv in Hj, He.
  apply bind_ok_inv in Hj as (m & s0 & Hm & Hj). unfold market in Hm. run_inv Hm.
  apply bind_ok_inv in Hj as (v0 & s0 & He0 & Hj). run_inv He0. guards.
  apply bind_ok_inv in He as (m1 & s0 & Hm1 & He). unfold market in Hm1. run_inv Hm1.
  apply bind_ok_inv in He as (v1 & s0 & He1 & He). run_inv He1. guards.
  pose proof (do_join_backed _ _ _ _ _ _ _ Hinv Hw Hx Hj) as Hinv1.
  apply do_join_inv in Hj as (p & p1 & r1 & Hp & HP & Hc & Hstep & Hne & Hr1 & Hin); [|done..].
  apply do_exit_inv in He as (q & p2 & r2 & l1 & Hq & _ & Hstep2 & _ & _ & Hr2 & Hout & Helse & _); [|done..].
  rewrite HP, lookup_insert_eq in Hq. injection Hq as <-. rewrite Hc, Hm in Hm1. injection Hm1 as <-.
  pose proof (Hinv id p Hp) as Hb. pose proof (pb_account _ _ _ _ Hb) as Ha.
  assert (account_id p1 = pool_account_id id) as Ha1 by (rewrite (pv_pool _ _ _ _ _ _ _ Hstep); done).
  assert (length (reserves p1) = length (reserves p)) as Hlen1.
  { destruct (pv_shifted _ _ _ _ _ _ _ Hstep) as [Hk _]. apply (f_equal length) in Hk.
    by rewrite !length_fmap in Hk. }
  pose proof (backed_length _ _ _ _ _ Hb Hm ltac:(lia)) as Hlen.
  assert (who ≠ account_id p ∧ who ≠ account_id p1) as [Hwp Hwp1] by (rewrite Ha, Ha1; split; apply Hw).
  rewrite Helse by done.
  rewrite (shifted_provider _ _ _ _ _ _ a Hwp1 (pv_shifted _ _ _ _ _ _ _ Hstep2)).
  rewrite (shifted_provider _ _ _ _ _ _ a Hwp (pv_shifted _ _ _ _ _ _ _ Hstep)).
  destruct (pv_shifted _ _ _ _ _ _ _ Hstep) as [Hk1 _]. destruct (pv_shifted _ _ _ _ _ _ _ Hstep2) as [Hk2 _].
  destruct (decide (a ∈ assets p)) as [Hin_a|Hnot].
  2:{ rewrite (amount_of_stranger (reserves p)) by done.
    rewrite (amount_of_stranger (reserves p1)) by (by rewrite Hk1).
    rewrite (amount_of_stranger (reserves p2)) by (by rewrite Hk2, Hk1). lia. }
  apply list_elem_of_fmap in Hin_a as ([b r] & -> & Hbr). cbn [fst].
  specialize (Hin ltac:(lia) b r Hbr). specialize (Hout ltac:(lia) b _ Hin).
  rewrite (amount_of_nodup (reserves p) b r), (amount_of_nodup (reserves p1) b _ ltac:(rewrite Hk1; apply Hb) Hin),
    (amount_of_nodup (reserves p2) b _ ltac:(rewrite Hk2, Hk1; apply Hb) Hout) by (done || apply Hb).
  rewrite (rk_stakes _ _ _ _ _ (pv_tree _ _ _ _ _ _ _ Hstep)) in Hr2.
  pose proof (stakes_nonneg _ (pb_tree _ _ _ _ Hb)). pose proof (proj1 (pb_reserves _ _ _ _ Hb b r Hbr)).
  pose proof (join_exit_rounding x (stakes (liquidity_shares_manager p)) r r1 r2 _ Hx ltac:(lia) ltac:(done)
    Hr1 eq_refl Hr2). lia.
Qed.

(** *** Trades *)

(** (C29) What a purchase does: the buyer pays at most the amount offered and gets
    exactly [y], not less than the limit it set nor than what is left of the amount
    after fees; the reserve of every outcome grows by the amount after fees, and that of
    the outcome bought shrinks by [y]; other pools and the markets are untouched. *)
Theorem pool_buy_effect who id count out amount_in min s s' u :
  pools_backed_inv s → (∀ id', who ≠ pool_account_id id') → (∀ id', who ≠ sets_account id') →
  in_u128 amount_in → buy (F := F) who id count out amount_in min s = (Ok u, s') →
  ∃ p p' net y, Pools s !! id = Some p ∧ Pools s' = <[id := p']> (Pools s) ∧ commons s' = commons s ∧
    out ∈ assets p ∧ 0 ≤ net ≤ amount_in ∧ min ≤ y ∧ net ≤ y ∧
    reserves p' = traded out net (- y) <$> reserves p ∧
    free_balance (collateral p) who (ledger s) - amount_in ≤ free_balance (collateral p) who (ledger s') ∧
    free_balance out who (ledger s') = free_balance out who (ledger s) + y.
Proof.
  intros Hinv Hw Hws Ham Hb. apply transactional_ok_inv in Hb.
  apply bind_ok_inv in Hb as (m & s0 & Hm & Hb). unfold market in Hm. run_inv Hm.
  apply bind_ok_inv in Hb as (v0 & s0 & He0 & Hb). run_inv He0.
  apply pool_buy_inv in Hb as (p & p' & fd & y & [R1 R2 R3 R4 _ _ _ _ _ _] & Hfd & ? & ? & ? & ? & ?); [|done..].
  exists p, p', (remaining fd), y. split_and!; try done; [lia..|]. by rewrite R4.
Qed.

(** What a sale does: the seller gives exactly the amount of the token and gets at
    least the limit it set, in collateral; the reserve of every outcome shrinks by the
    proceeds [x] before fees, that of the outcome sold grows by the amount. *)
Theorem pool_sell_effect who id count inn amount_in min s s' u :
  pools_backed_inv s → (∀ id', who ≠ pool_account_id id') → (∀ id', who ≠ sets_account id') →
  in_u128 amount_in → sell (F := F) who id count inn amount_in min s = (Ok u, s') →
  ∃ p p' net x, Pools s !! id = Some p ∧ Pools s' = <[id := p']> (Pools s) ∧ commons s' = commons s ∧
    inn ∈ assets p ∧ min ≤ net ≤ x ∧ 0 ≤ net ∧
    reserves p' = traded inn (- x) amount_in <$> reserves p ∧ (∀ w, w ∈ reserves p' → 0 ≤ w.2) ∧
    free_balance (collateral p) who (ledger s) + net ≤ free_balance (collateral p) who (ledger s') ∧
    free_balance inn who (ledger s') = free_balance inn who (ledger s) - amount_in.
Proof.
  intros Hinv Hw Hws Ham Hb. apply transactional_ok_inv in Hb.
  apply bind_ok_inv in Hb as (m & s0 & Hm & Hb). unfold market in Hm. run_inv Hm.
  apply bind_ok_inv in Hb as (v0 & s0 & He0 & Hb). run_inv He0.
  apply pool_sell_inv in Hb as (p & p' & fd & x & [R1 R2 R3 R4 _ _ R7 _ _ _] & ? & ? & ? & ? & ?); [|done..|apply Ham].
  exists p, p', (remaining fd), x. split_and!; try done; [lia..|]. by rewrite R4.
Qed.
End Solvency.
