(* ===== verification/Parimutuel.v ===== *)
(** * Parimutuel markets

    [zrml/parimutuel/src/lib.rs]: bets buy shares of an outcome one to one
    against the base asset, which is collected in the pot account of the market;
    after resolution the holders of the winning outcome split the pot, and if
    nobody bet on the winning outcome everybody gets the bet back. *)
From S2P Require Import Prelude Types Errors Fixed Currencies Ledgers MarketCommons Fees.

Inductive Event : Type :=
| OutcomeBought (market_id : MarketId) (buyer : AccountId) (asset : Asset)
    (amount_minus_fees fees : Balance)
| RewardsClaimed (market_id : MarketId) (asset : Asset)
    (withdrawn_asset_balance base_asset_payoff : Balance) (sender : AccountId)
| BalanceRefunded (market_id : MarketId) (asset : Asset) (refunded_balance : Balance)
    (sender : AccountId).

(** The part of the chain state the pallet touches; it has no storage itself. *)
Record State (C L : Type) : Type := mk_State {
  commons : C;
  assets : L;
  events : list Event;
}.
Arguments mk_State {C L} _ _ _.
Arguments commons {C L} _.
Arguments assets {C L} _.
Arguments events {C L} _.

Section Parimutuel.
Context {C L : Type} `{MarketCommonsPalletApi C, AssetManager L, DistributeFees C L}.
(** [MinBetSize] and [PalletId::into_sub_account_truncating]. *)
Context (MinBetSize : Balance) (pot_account : MarketId → AccountId).

Implicit Types s : State C L.

Definition set_assets (l : L) (s : State C L) : State C L :=
  mk_State (commons s) l (events s).
Definition deposit_event (e : Event) : Store (State C L) unit :=
  modify (λ s, mk_State (commons s) (assets s) (e :: events s)).
Definition on_assets {A} (m : Store L A) : Store (State C L) A := zoom assets set_assets m.
Definition market_of (id : MarketId) : Store (State C L) Market :=
  λ s, (api_market id (commons s), s).
Definition external_fees (id : MarketId) (a : Asset) (who : AccountId) (amount : Balance) :
    Store (State C L) Balance := λ s,
  let '(fee, l) := distribute id a who amount (commons s) (assets s) in
  (Ok fee, set_assets l s).

Definition check_values (winning_balance pot_total outcome_total payoff_ratio_mul_base payoff
    : Balance) : Res unit :=
  _ ← ensureR (winning_balance <=? pot_total)
        (PM_InconsistentState InsufficientFundsInPotAccount);
  _ ← ensureR (outcome_total <=? pot_total)
        (PM_InconsistentState OutcomeIssuanceGreaterCollateral);
  Ok tt.

(** The conditions of the three [debug_assert!]s of [check_values]; a release
    build only logs when they fail. *)
Definition check_values_asserts (winning_balance pot_total payoff_ratio_mul_base payoff
    : Balance) : bool :=
  negb (payoff_ratio_mul_base <? BASE) && negb (payoff <? winning_balance)
  && negb (pot_total <? payoff).

Definition market_assets_contains (m : Market) (asset : Asset) : Res unit :=
  match asset with
  | ParimutuelShare _ i =>
      match market_type m with
      | MT_Categorical categories => ensureR (i <? categories) PM_InvalidOutcomeAsset
      | MT_Scalar _ _ => Err PM_NotCategorical
      end
  | _ => Err PM_NotParimutuelOutcome
  end.

Definition share_market (asset : Asset) : option MarketId :=
  match asset with ParimutuelShare market_id _ => Some market_id | _ => None end.

Definition do_buy (who : AccountId) (asset : Asset) (amount : Balance) : Store (State C L) unit :=
  market_id ← ok_or (share_market asset) PM_NotParimutuelOutcome;
  m ← market_of market_id;
  let base_asset := base_asset m in
  can ← gets (λ s, is_ok (ensure_can_withdraw base_asset who amount (assets s)));
  _ ← ensure can PM_InsufficientBalance;
  _ ← ensure (bool_decide (status m = Active)) PM_MarketIsNotActive;
  _ ← ensure (bool_decide (scoring_rule m = Parimutuel)) PM_InvalidScoringRule;
  _ ← ensure (is_categorical (market_type m)) PM_NotCategorical;
  _ ← lift (market_assets_contains m asset);
  external_fees ← external_fees market_id base_asset who amount;
  amount_minus_fees ←
    ok_or (if external_fees <=? amount then Some (amount - external_fees) else None)
      PM_Unexpected;
  _ ← ensure (MinBetSize <=? amount_minus_fees) PM_AmountBelowMinimumBetSize;
  let pot := pot_account market_id in
  _ ← on_assets (transfer base_asset who pot amount_minus_fees);
  _ ← on_assets (deposit asset who amount_minus_fees);
  deposit_event (OutcomeBought market_id who asset amount_minus_fees external_fees).

Definition ensure_parimutuel_market_resolved (m : Market) : Res unit :=
  _ ← ensureR (bool_decide (status m = Resolved)) PM_MarketIsNotResolvedYet;
  _ ← ensureR (bool_decide (scoring_rule m = Parimutuel)) PM_InvalidScoringRule;
  ensureR (is_categorical (market_type m)) PM_NotCategorical.

Definition get_winning_asset (market_id : MarketId) (m : Market) : Res Asset :=
  winning_outcome ← ok_orR (resolved_outcome m) PM_NoResolvedOutcome;
  match winning_outcome return Res Asset with
  | Categorical category_index => Ok (ParimutuelShare market_id category_index)
  | Scalar _ => Err PM_NotCategorical
  end.

Definition do_claim_rewards (who : AccountId) (market_id : MarketId) : Store (State C L) unit :=
  m ← market_of market_id;
  _ ← lift (ensure_parimutuel_market_resolved m);
  winning_asset ← lift (get_winning_asset market_id m);
  outcome_total ← gets (λ s, total_issuance winning_asset (assets s));
  _ ← ensure (negb (outcome_total =? 0)) PM_NoRewardShareOutstanding;
  winning_balance ← gets (λ s, free_balance winning_asset who (assets s));
  _ ← ensure (negb (winning_balance =? 0)) PM_NoWinningShares;
  let pot := pot_account market_id in
  pot_total ← gets (λ s, free_balance (base_asset m) pot (assets s));
  payoff_ratio_mul_base ← lift (bdiv_floor u128_max pot_total outcome_total);
  payoff ← lift (bmul_floor u128_max payoff_ratio_mul_base winning_balance);
  _ ← lift (check_values winning_balance pot_total outcome_total payoff_ratio_mul_base payoff);
  _ ← on_assets (withdraw winning_asset who winning_balance);
  remaining_bal ← gets (λ s, free_balance (base_asset m) pot (assets s));
  let base_asset_payoff := Z.min payoff remaining_bal in
  _ ← on_assets (transfer (base_asset m) pot who base_asset_payoff);
  deposit_event (RewardsClaimed market_id winning_asset winning_balance base_asset_payoff who).

Definition do_claim_refunds (who : AccountId) (refund_asset : Asset) : Store (State C L) unit :=
  market_id ← ok_or (share_market refund_asset) PM_NotParimutuelOutcome;
  m ← market_of market_id;
  _ ← lift (ensure_parimutuel_market_resolved m);
  _ ← lift (market_assets_contains m refund_asset);
  winning_asset ← lift (get_winning_asset market_id m);
  outcome_total ← gets (λ s, total_issuance winning_asset (assets s));
  _ ← ensure (outcome_total =? 0) PM_RefundNotAllowed;
  refund_balance ← gets (λ s, free_balance refund_asset who (assets s));
  _ ← ensure (negb (refund_balance =? 0)) PM_RefundableBalanceIsZero;
  _ ← on_assets (withdraw refund_asset who refund_balance);
  let pot := pot_account market_id in
  pot_total ← gets (λ s, free_balance (base_asset m) pot (assets s));
  let refund_balance := Z.min refund_balance pot_total in
  _ ← on_assets (transfer (base_asset m) pot who refund_balance);
  deposit_event (BalanceRefunded market_id refund_asset refund_balance who).

(** The condition of the last [debug_assert!] of [do_claim_refunds]. *)
Definition refund_assert (refund_balance pot_total : Balance) : bool :=
  negb (pot_total <? refund_balance).

(** The extrinsics. *)
Definition buy (origin : option AccountId) (asset : Asset) (amount : Balance) :
    Store (State C L) unit :=
  transactional (who ← ok_or origin BadOrigin; do_buy who asset amount).
Definition claim_rewards (origin : option AccountId) (market_id : MarketId) :
    Store (State C L) unit :=
  transactional (who ← ok_or origin BadOrigin; do_claim_rewards who market_id).
Definition claim_refunds (origin : option AccountId) (refund_asset : Asset) :
    Store (State C L) unit :=
  transactional (who ← ok_or origin BadOrigin; do_claim_refunds who refund_asset).
End Parimutuel.

(** ** Decomposition of successful runs *)
Section Inversion.
Context {C L : Type} `{MarketCommonsPalletApi C, AssetManager L, DistributeFees C L}.
Context (MinBetSize : Balance) (pot_account : MarketId → AccountId).
Implicit Types s : State C L.

Lemma market_of_ok_inv id s s' m :
  market_of id s = (Ok m, s') → api_market id (commons s) = Ok m ∧ s' = s.
Proof. unfold market_of. naive_solver. Qed.

Lemma external_fees_ok_inv id a who amount s s' fee :
  external_fees id a who amount s = (Ok fee, s') →
  ∃ l, distribute id a who amount (commons s) (assets s) = (fee, l) ∧ s' = set_assets l s.
Proof.
  unfold external_fees. destruct (distribute _ _ _ _ _ _) as [f l] eqn:Hd. naive_solver.
Qed.

Lemma do_buy_inv who asset amount s s' :
  do_buy MinBetSize pot_account who asset amount s = (Ok tt, s') →
  ∃ id i m n fee l1 l2 l3,
    asset = ParimutuelShare id i ∧ api_market id (commons s) = Ok m ∧
    status m = Active ∧ scoring_rule m = Parimutuel ∧ market_type m = MT_Categorical n ∧ i < n ∧
    is_ok (ensure_can_withdraw (base_asset m) who amount (assets s)) = true ∧
    distribute id (base_asset m) who amount (commons s) (assets s) = (fee, l1) ∧
    fee ≤ amount ∧ MinBetSize ≤ amount - fee ∧
    transfer (base_asset m) who (pot_account id) (amount - fee) l1 = (Ok tt, l2) ∧
    deposit asset who (amount - fee) l2 = (Ok tt, l3) ∧
    s' = mk_State (commons s) l3
           (OutcomeBought id who asset (amount - fee) fee :: events s).
Proof.
  intros H2. unfold do_buy, on_assets, deposit_event in H2. run_inv H2. guards.
  repeat match goal with
  | Hx : market_of _ _ = _ |- _ => apply market_of_ok_inv in Hx as [? ->]
  | Hx : external_fees _ _ _ _ _ = _ |- _ => apply external_fees_ok_inv in Hx as (? & ? & ->)
  | Hx : (if ?x <=? ?y then _ else _) = Some _ |- _ => destruct (Z.leb_spec x y); simplify_eq
  | u : unit |- _ => destruct u
  end.
  destruct asset as [| | | | | |id i]; try done. cbn in *. simplify_eq.
  unfold market_assets_contains in *. destruct (market_type _) as [n|] eqn:Hmt; [|done].
  repeat match goal with Hx : Prelude.ensureR _ _ = Ok _ |- _ =>
    apply Prelude.ensureR_ok_inv in Hx end. guards.
  do 8 eexists. split_and!; try (reflexivity || eassumption).
Qed.

Lemma ensure_resolved_ok_inv m u :
  ensure_parimutuel_market_resolved m = Ok u →
  status m = Resolved ∧ scoring_rule m = Parimutuel ∧ is_categorical (market_type m) = true.
Proof. unfold ensure_parimutuel_market_resolved. intros H2. run_inv H2. by guards. Qed.

Lemma get_winning_asset_ok_inv id m a :
  get_winning_asset id m = Ok a →
  ∃ w, resolved_outcome m = Some (Categorical w) ∧ a = ParimutuelShare id w.
Proof.
  unfold get_winning_asset. intros H2. run_inv H2.
  match goal with o : OutcomeReport |- _ => destruct o end; naive_solver.
Qed.

Lemma check_values_ok_inv wb pt ot r p u :
  check_values wb pt ot r p = Ok u → wb ≤ pt ∧ ot ≤ pt.
Proof. unfold check_values. intros H2. run_inv H2. by guards. Qed.

Lemma do_claim_rewards_inv who id s s' :
  do_claim_rewards pot_account who id s = (Ok tt, s') →
  ∃ m w ratio payoff l1 l2,
    let b := base_asset m in
    let winning := ParimutuelShare id w in
    let bal := free_balance winning who (assets s) in
    let outcome_total := total_issuance winning (assets s) in
    let pot_total := free_balance b (pot_account id) (assets s) in
    api_market id (commons s) = Ok m ∧ status m = Resolved ∧ scoring_rule m = Parimutuel ∧
    resolved_outcome m = Some (Categorical w) ∧ outcome_total ≠ 0 ∧ bal ≠ 0 ∧
    bdiv_floor u128_max pot_total outcome_total = Ok ratio ∧
    bmul_floor u128_max ratio bal = Ok payoff ∧ bal ≤ pot_total ∧ outcome_total ≤ pot_total ∧
    withdraw winning who bal (assets s) = (Ok tt, l1) ∧
    let paid := Z.min payoff (free_balance b (pot_account id) l1) in
    transfer b (pot_account id) who paid l1 = (Ok tt, l2) ∧
    s' = mk_State (commons s) l2 (RewardsClaimed id winning bal paid who :: events s).
Proof.
  intros H2. unfold do_claim_rewards, on_assets, deposit_event in H2. run_inv H2. guards.
  repeat match goal with
  | Hx : market_of _ _ = _ |- _ => apply market_of_ok_inv in Hx as [? ->]
  | Hx : ensure_parimutuel_market_resolved _ = _ |- _ =>
      apply ensure_resolved_ok_inv in Hx as (? & ? & ?)
  | Hx : get_winning_asset _ _ = _ |- _ => apply get_winning_asset_ok_inv in Hx as (w & ? & ->)
  | Hx : check_values _ _ _ _ _ = _ |- _ => apply check_values_ok_inv in Hx as (? & ?)
  | u : unit |- _ => destruct u
  end.
  cbv zeta. do 6 eexists. split_and!; try (reflexivity || eassumption).
Qed.

Lemma do_claim_refunds_inv who asset s s' :
  do_claim_refunds pot_account who asset s = (Ok tt, s') →
  ∃ id i m w l1 l2,
    let b := base_asset m in
    let bal := free_balance asset who (assets s) in
    asset = ParimutuelShare id i ∧ api_market id (commons s) = Ok m ∧ status m = Resolved ∧
    scoring_rule m = Parimutuel ∧ resolved_outcome m = Some (Categorical w) ∧
    total_issuance (ParimutuelShare id w) (assets s) = 0 ∧ bal ≠ 0 ∧
    withdraw asset who bal (assets s) = (Ok tt, l1) ∧
    let paid := Z.min bal (free_balance b (pot_account id) l1) in
    transfer b (pot_account id) who paid l1 = (Ok tt, l2) ∧
    s' = mk_State (commons s) l2 (BalanceRefunded id asset paid who :: events s).
Proof.
  intros H2. unfold do_claim_refunds, on_assets, deposit_event in H2. run_inv H2. guards.
  repeat match goal with
  | Hx : market_of _ _ = _ |- _ => apply market_of_ok_inv in Hx as [? ->]
  | Hx : ensure_parimutuel_market_resolved _ = _ |- _ =>
      apply ensure_resolved_ok_inv in Hx as (? & ? & ?)
  | Hx : get_winning_asset _ _ = _ |- _ => apply get_winning_asset_ok_inv in Hx as (w & ? & ->)
  | u : unit |- _ => destruct u
  end.
  destruct asset as [| | | | | |id i]; try done. cbn in *. simplify_eq.
  cbv zeta. do 6 eexists. split_and!; try (reflexivity || eassumption).
Qed.
End Inversion.

(** ** Collateral *)
Section Properties.
Context {C L : Type} `{MarketCommonsPalletApi C, AssetManager L, DistributeFees C L}.
Context `{!AssetManagerLaws L, !DistributeFeesLaws C L}.
Context (MinBetSize : Balance) (pot_account : MarketId → AccountId).
Implicit Types s : State C L.

Definition is_share (a : Asset) : bool :=
  match a with ParimutuelShare _ _ => true | _ => false end.

(** The shares of all outcomes of a market with [n] categories. *)
Definition issued (id : MarketId) (n : Z) (l : L) : Z :=
  zsum (λ i, total_issuance (ParimutuelShare id i) l) (seqZ 0 n).

(** The pot holds at least one unit of the base asset per share. *)
Definition collateral (id : MarketId) (m : Market) (l : L) : Prop :=
  issued id (outcomes m) l ≤ free_balance (base_asset m) (pot_account id) l.

Lemma issued_deposit id n j i amt (l l' : L) :
  0 ≤ amt →
  (∀ b, total_issuance b l' = total_issuance b l + at_ (ParimutuelShare j i) b amt) →
  issued id n l' ≤ issued id n l + (if decide (id = j) then amt else 0).
Proof.
  intros Hamt Hiss. unfold issued. destruct (decide (id = j)) as [->|Hne].
  - destruct (decide (i ∈ seqZ 0 n)) as [Hin|Hnin].
    + rewrite (zsum_change (λ i, total_issuance (ParimutuelShare j i) l) _ (seqZ 0 n) i).
      * cbn. rewrite (Hiss (ParimutuelShare j i)), at_eq. lia.
      * apply NoDup_seqZ.
      * done.
      * intros k _ Hk. cbn. rewrite Hiss, at_ne by congruence. lia.
    + rewrite (zsum_ext _ (λ i, total_issuance (ParimutuelShare j i) l)); [lia|].
      intros k Hk. cbn. rewrite Hiss, at_ne by (intros [=]; subst; done). lia.
  - rewrite (zsum_ext _ (λ i, total_issuance (ParimutuelShare id i) l)); [lia|].
    intros k _. cbn. rewrite Hiss, at_ne by congruence. lia.
Qed.

(** A successful [buy] on an active categorical parimutuel market moves
    exactly the amount minus fees into the pot, mints exactly that many shares
    of the outcome to the buyer, and takes at most the amount from the buyer. *)
Theorem buy_effect who asset amount s s' :
  0 ≤ amount → 0 ≤ MinBetSize →
  do_buy MinBetSize pot_account who asset amount s = (Ok tt, s') →
  ∃ id i m fee,
    asset = ParimutuelShare id i ∧ api_market id (commons s) = Ok m ∧
    status m = Active ∧ scoring_rule m = Parimutuel ∧ 0 ≤ fee ∧ MinBetSize ≤ amount - fee ∧
    commons s' = commons s ∧
    events s' = OutcomeBought id who asset (amount - fee) fee :: events s ∧
    (is_share (base_asset m) = false → who ≠ pot_account id →
      total_issuance asset (assets s') = total_issuance asset (assets s) + (amount - fee) ∧
      free_balance asset who (assets s') = free_balance asset who (assets s) + (amount - fee) ∧
      free_balance (base_asset m) who (assets s) - amount
        ≤ free_balance (base_asset m) who (assets s') ∧
      free_balance (base_asset m) (pot_account id) (assets s) + (amount - fee)
        ≤ free_balance (base_asset m) (pot_account id) (assets s')).
Proof.
  intros Hamt Hmin Hb.
  apply do_buy_inv in Hb as (id & i & m & n & fee & l1 & l2 & l3 & -> & Hm & Hst & Hsr & _ & _ &
    _ & Hd & Hfee & Hbet & Ht & Hdep & ->).
  apply distribute_spec in Hd as (Hf & Hpay & Hoth & Hfb & Hfi & _); [|done].
  apply transfer_ok in Ht as (_ & Htf & Hti & _); [|lia].
  apply deposit_ok in Hdep as (Hdf & Hdi & _); [|lia].
  exists id, i, m, fee. split_and!; try done; try lia.
  intros Hbase Hwho. cbn.
  assert (base_asset m ≠ ParimutuelShare id i) by (intros Heq; by rewrite Heq in Hbase).
  specialize (Hoth (pot_account id) ltac:(done)).
  rewrite Hdi, Hti, Hfi, !Hdf, !Htf, Hfb by congruence. at_simpl. lia.
Qed.

(** No [buy], on whichever market, breaks the collateral of any market:
    the pot of every market stays at least as large as all its shares. *)
Theorem buy_collateral who asset amount s s' id m :
  0 ≤ amount → 0 ≤ MinBetSize →
  api_market id (commons s) = Ok m → is_share (base_asset m) = false →
  (∀ id', who ≠ pot_account id') →
  collateral id m (assets s) →
  do_buy MinBetSize pot_account who asset amount s = (Ok tt, s') →
  collateral id m (assets s').
Proof.
  intros Hamt Hmin Hm Hbase Hwho Hcol Hb.
  apply do_buy_inv in Hb as (id' & i & m' & n & fee & l1 & l2 & l3 & -> & Hm' & _ & _ & _ & _ &
    _ & Hd & Hfee & Hbet & Ht & Hdep & ->).
  apply distribute_spec in Hd as (Hf & Hpay & Hoth & Hfb & Hfi & _); [|done].
  apply transfer_ok in Ht as (_ & Htf & Hti & _); [|lia].
  apply deposit_ok in Hdep as (Hdf & Hdi & _); [|lia].
  unfold collateral in *. cbn [assets].
  pose proof (issued_deposit id (outcomes m) id' i (amount - fee) l2 l3 ltac:(lia) Hdi) as Hiss.
  assert (issued id (outcomes m) l2 = issued id (outcomes m) (assets s)) as Heq.
  { apply zsum_ext. intros. by rewrite Hti, Hfi. }
  assert (free_balance (base_asset m) (pot_account id) (assets s) ≤
    free_balance (base_asset m) (pot_account id) l1) as Hpot.
  { destruct (decide (base_asset m = base_asset m')) as [He|He].
    - rewrite He. apply Hoth. done.
    - rewrite Hfb; done. }
  assert (base_asset m ≠ ParimutuelShare id' i) by (intros He; by rewrite He in Hbase).
  rewrite Hdf, Htf, (at_ne (ParimutuelShare id' i, who)), (at_ne (base_asset m', who))
    by (intros [=]; congruence).
  destruct (decide (id = id')) as [->|Hne].
  - rewrite Hm in Hm'. simplify_eq. rewrite at_eq. lia.
  - pose proof (at_nonneg (base_asset m', pot_account id') (base_asset m, pot_account id)
      (amount - fee)). lia.
Qed.

(** The arithmetic of a claim. *)
Lemma payoff_bounds pot ot bal ratio payoff :
  0 < ot ≤ pot → 0 ≤ bal ≤ ot → ratio = pot * BASE / ot → payoff = ratio * bal / BASE →
  BASE ≤ ratio ∧ bal ≤ payoff ≤ pot ∧ payoff * ot ≤ pot * bal ∧
  pot * bal * BASE < (payoff + 1) * ot * BASE + ot * bal ∧ ot - bal ≤ pot - payoff ∧
  ratio * bal ≤ pot * BASE.
Proof.
  intros Hot Hbal Hr Hp. pose proof BASE_pos as HB.
  assert (ratio * ot ≤ pot * BASE < (ratio + 1) * ot) as [Hr1 Hr2].
  { pose proof (Z.mul_div_le (pot * BASE) ot ltac:(lia)).
    pose proof (Z.mul_succ_div_gt (pot * BASE) ot ltac:(lia)). lia. }
  assert (payoff * BASE ≤ ratio * bal < (payoff + 1) * BASE) as [Hp1 Hp2].
  { pose proof (Z.mul_div_le (ratio * bal) BASE HB).
    pose proof (Z.mul_succ_div_gt (ratio * bal) BASE HB). lia. }
  clear Hr Hp. generalize dependent BASE. intros B; intros.
  assert (B ≤ ratio) by nia.
  assert (payoff * ot * B ≤ pot * bal * B) as Hs.
  { transitivity (ratio * bal * ot); nia. }
  assert (payoff * ot ≤ pot * bal) by nia.
  split; [done|]. split; [split; nia|]. split; [done|]. split; [|split; nia]. nia.
Qed.

(** A successful claim on a market whose pot covers the winning shares
    burns all winning shares of the caller, pays the floor of the pro-rata part
    of the pot - at least one unit per share, never more than the exact part and
    less than it by at most the rounding - and leaves the pot large enough for
    the remaining winning shares; the code's [debug_assert]s hold on the way. *)
Theorem claim_rewards_effect who id m w s s' :
  let b := base_asset m in
  let winning := ParimutuelShare id w in
  let pot_total := free_balance b (pot_account id) (assets s) in
  let outcome_total := total_issuance winning (assets s) in
  let bal := free_balance winning who (assets s) in
  api_market id (commons s) = Ok m → resolved_outcome m = Some (Categorical w) →
  is_share b = false → who ≠ pot_account id → outcome_total ≤ pot_total →
  do_claim_rewards pot_account who id s = (Ok tt, s') →
  ∃ payoff, 0 < bal ≤ payoff ∧ payoff * outcome_total ≤ pot_total * bal ∧
    pot_total * bal * BASE < (payoff + 1) * outcome_total * BASE + outcome_total * bal ∧
    check_values_asserts bal pot_total (pot_total * BASE / outcome_total) payoff = true ∧
    free_balance b who (assets s') = free_balance b who (assets s) + payoff ∧
    free_balance b (pot_account id) (assets s') = pot_total - payoff ∧
    free_balance winning who (assets s') = 0 ∧
    total_issuance winning (assets s') = outcome_total - bal ∧
    total_issuance winning (assets s') ≤ free_balance b (pot_account id) (assets s').
Proof.
  intros b winning pot_total outcome_total bal Hm Hw Hb Hwho Hcol Hc.
  apply do_claim_rewards_inv in Hc as (m' & w' & ratio & payoff & l1 & l2 & Hm' & _ & _ & Hw' &
    Hot & Hbal & Hratio & Hpay & _ & _ & Hwd & Ht & ->).
  assert (m' = m) as -> by congruence. assert (w' = w) as -> by congruence.
  change (free_balance (ParimutuelShare id w) who (assets s)) with bal in *.
  assert (0 ≤ bal ≤ outcome_total) by (split; [apply free_nonneg|apply free_le_issuance]).
  apply bdiv_floor_ok in Hratio as (_ & _ & Hratio); [|done].
  apply bmul_floor_ok in Hpay as (_ & Hpay); [|done].
  destruct (payoff_bounds pot_total outcome_total bal ratio payoff) as
    (Hr & Hp & Hfair & Hround & Hrest & _); [lia|lia|done|done|].
  assert (base_asset m ≠ ParimutuelShare id w) by (intros Heq; unfold b in *; by rewrite Heq in Hb).
  apply withdraw_ok in Hwd as (_ & Hf1 & Hi1 & _); [|lia].
  assert (free_balance b (pot_account id) l1 = pot_total) as Hpot.
  { rewrite Hf1. unfold winning, b in *. at_simpl. fold pot_total. lia. }
  unfold b in Hpot. rewrite Hpot in Ht. rewrite Z.min_l in Ht by lia.
  apply transfer_ok in Ht as (_ & Hf2 & Hi2 & _); [|lia].
  assert (pot_total * BASE / outcome_total = ratio) as Hr0 by done.
  exists payoff. cbn [assets].
  rewrite !Hf2, !Hi2, !Hf1, !Hi1. unfold winning, b in *. at_simpl. fold bal outcome_total pot_total.
  split_and!; try lia.
  - unfold check_values_asserts. rewrite Hr0.
    rewrite !andb_true_iff, !negb_true_iff, !Z.ltb_ge. lia.
Qed.

(** (C21) With the pot covering the winning shares and within the range of
    [u128], a holder of winning shares of a resolved market can always claim: the
    only remaining way to fail is the currency refusing the burn or the payment. *)
Theorem claim_rewards_succeeds who id m w s l1 l2 :
  let b := base_asset m in
  let winning := ParimutuelShare id w in
  let pot_total := free_balance b (pot_account id) (assets s) in
  let outcome_total := total_issuance winning (assets s) in
  let bal := free_balance winning who (assets s) in
  let payoff := pot_total * BASE / outcome_total * bal / BASE in
  api_market id (commons s) = Ok m → status m = Resolved → scoring_rule m = Parimutuel →
  is_categorical (market_type m) = true → resolved_outcome m = Some (Categorical w) →
  is_share b = false → outcome_total ≤ pot_total → pot_total * BASE ≤ u128_max → bal ≠ 0 →
  withdraw winning who bal (assets s) = (Ok tt, l1) →
  transfer b (pot_account id) who payoff l1 = (Ok tt, l2) →
  do_claim_rewards pot_account who id s =
    (Ok tt, mk_State (commons s) l2 (RewardsClaimed id winning bal payoff who :: events s)).
Proof.
  intros b winning pot_total outcome_total bal payoff Hm Hst Hsr Hcat Hw Hb Hcol Hmax Hbal Hwd Ht.
  assert (0 ≤ bal ≤ outcome_total) by (split; [apply free_nonneg|apply free_le_issuance]).
  destruct (payoff_bounds pot_total outcome_total bal (pot_total * BASE / outcome_total) payoff)
    as (Hr & Hp & _ & _ & Hrest & Hmul); [lia|lia|done|done|].
  assert (base_asset m ≠ ParimutuelShare id w) by (intros Heq; unfold b in *; by rewrite Heq in Hb).
  assert (free_balance b (pot_account id) l1 = pot_total) as Hpot.
  { apply withdraw_ok in Hwd as (_ & Hf1 & _); [|lia]. rewrite Hf1.
    unfold winning, b in *. at_simpl. fold pot_total. lia. }
  unfold do_claim_rewards.
  erewrite bind_ok by (unfold market_of; by rewrite Hm).
  erewrite lift_ok_bind by
    (unfold ensure_parimutuel_market_resolved; by rewrite Hst, Hsr, Hcat, !bool_decide_true).
  erewrite lift_ok_bind by (unfold get_winning_asset; by rewrite Hw). fold winning b.
  rewrite gets_bind, ensure_true_bind by (apply negb_true_iff, Z.eqb_neq; fold outcome_total; lia).
  rewrite gets_bind, ensure_true_bind by (apply negb_true_iff, Z.eqb_neq; done).
  rewrite gets_bind. fold bal outcome_total pot_total.
  erewrite lift_ok_bind by (apply bdiv_floor_ok; [done|]; split_and!; [lia|lia|done]).
  erewrite lift_ok_bind by (apply bmul_floor_ok; [done|]; split; [lia|done]). fold payoff.
  erewrite lift_ok_bind by
    (unfold check_values; by rewrite !(proj2 (Z.leb_le _ _)) by lia).
  erewrite bind_ok by (unfold on_assets, zoom; by rewrite Hwd).
  rewrite gets_bind. cbn [assets set_assets]. rewrite Hpot, Z.min_l by lia.
  erewrite bind_ok by (unfold on_assets, zoom; cbn [assets set_assets]; by rewrite Ht).
  done.
Qed.

(** (C7) Winners are served in any order: after any sequence of successful
    claims of distinct accounts the pot still covers the winning shares that are
    left, and the pot paid at least one unit per share the claimers held. *)
Theorem claims_solvent whos id m w s s' :
  let winning := ParimutuelShare id w in
  api_market id (commons s) = Ok m → resolved_outcome m = Some (Categorical w) →
  is_share (base_asset m) = false → Forall (λ who, who ≠ pot_account id) whos → NoDup whos →
  total_issuance winning (assets s) ≤ free_balance (base_asset m) (pot_account id) (assets s) →
  for_each (λ who, do_claim_rewards pot_account who id) whos s = (Ok tt, s') →
  total_issuance winning (assets s') ≤ free_balance (base_asset m) (pot_account id) (assets s') ∧
  zsum (λ who, free_balance winning who (assets s)) whos
    ≤ free_balance (base_asset m) (pot_account id) (assets s)
      - free_balance (base_asset m) (pot_account id) (assets s').
Proof.
  intros winning Hm Hw Hb Hwho Hnd. revert s Hm.
  induction Hnd as [|who whos Hin Hnd IH]; intros s Hm Hcol Hrun.
  - injection Hrun as <-. split; [exact Hcol|cbn; lia].
  - cbn [for_each] in Hrun. apply bind_ok_inv in Hrun as ([] & s1 & H2 & Hrun).
    apply Forall_cons_1 in Hwho as [Hwho1 Hwho].
    pose proof (do_claim_rewards_inv _ _ _ _ _ H2) as (m' & w' & rt & po & l1 & l2 & Hi).
    cbv zeta in Hi.
    destruct Hi as (Hm' & _ & _ & Hw' & _ & _ & Hrt & Hpo & _ & _ & Hwd & Ht & Hs1).
    assert (m' = m) as -> by congruence. assert (w' = w) as -> by congruence.
    assert (api_market id (commons s1) = Ok m) as Hm1 by (by rewrite Hs1).
    destruct (claim_rewards_effect who id m w s _ Hm Hw Hb Hwho1 Hcol H2) as
      (payoff & Hp & _ & _ & _ & _ & Hpot & _ & _ & Hcol').
    destruct (IH Hwho _ Hm1 Hcol' Hrun) as [Hfin Hsum]. split; [done|].
    change (zsum ?f (who :: whos)) with (f who + zsum f whos).
    assert (zsum (λ who, free_balance winning who (assets s)) whos =
      zsum (λ who, free_balance winning who (assets s1)) whos) as ->.
    { apply bdiv_floor_nonneg in Hrt; [|done|apply free_nonneg|].
      2:{ transitivity (free_balance winning who (assets s));
            [apply free_nonneg|apply free_le_issuance]. }
      apply bmul_floor_nonneg in Hpo; [|done|done|apply free_nonneg].
      apply withdraw_ok in Hwd as (_ & Hf1 & _); [|apply free_nonneg].
      apply transfer_ok in Ht as (_ & Hf2 & _ & _).
      2:{ pose proof (free_nonneg (base_asset m) (pot_account id) l1). lia. }
      assert (base_asset m ≠ ParimutuelShare id w) by (intros Heq; by rewrite Heq in Hb).
      apply zsum_ext. intros x Hx. rewrite Hs1. cbn [assets]. rewrite Hf2, Hf1.
      assert (who ≠ x) by (intros <-; done). unfold winning. at_simpl. lia. }
    unfold winning in *. lia.
Qed.

Lemma issued_withdraw id n i amt (l l' : L) :
  i ∈ seqZ 0 n →
  (∀ b, total_issuance b l' = total_issuance b l - at_ (ParimutuelShare id i) b amt) →
  issued id n l' = issued id n l - amt.
Proof.
  intros Hin Hiss. unfold issued.
  rewrite (zsum_change (λ i, total_issuance (ParimutuelShare id i) l) _ (seqZ 0 n) i).
  - cbn. rewrite (Hiss (ParimutuelShare id i)), at_eq. lia.
  - apply NoDup_seqZ.
  - done.
  - intros k _ Hk. cbn. rewrite Hiss. at_simpl. lia.
Qed.

(** A refund is only given when no winning share exists; it burns all
    shares of the refunded outcome the caller holds and pays for them one to one
    as long as the pot is collateralised, in which case the pot stays
    collateralised (so all refunds can be served, in any order). *)
Theorem claim_refunds_effect who id i m s s' :
  let b := base_asset m in
  let asset := ParimutuelShare id i in
  let bal := free_balance asset who (assets s) in
  let pot_total := free_balance b (pot_account id) (assets s) in
  api_market id (commons s) = Ok m → is_share b = false → who ≠ pot_account id →
  do_claim_refunds pot_account who asset s = (Ok tt, s') →
  (∃ w, resolved_outcome m = Some (Categorical w) ∧
    total_issuance (ParimutuelShare id w) (assets s) = 0) ∧
  0 < bal ∧ free_balance asset who (assets s') = 0 ∧
  free_balance b who (assets s') = free_balance b who (assets s) + Z.min bal pot_total ∧
  free_balance b (pot_account id) (assets s') = pot_total - Z.min bal pot_total ∧
  (0 ≤ i < outcomes m → collateral id m (assets s) →
    refund_assert bal pot_total = true ∧ Z.min bal pot_total = bal ∧
    collateral id m (assets s')).
Proof.
  intros b asset bal pot_total Hm Hb Hwho Hr. subst b.
  apply do_claim_refunds_inv in Hr as
    (id' & i' & m' & w & l1 & l2 & Heq & Hm' & _ & _ & Hw & Hzero & Hbal & Hwd & Ht & ->).
  injection Heq as <- <-. assert (m' = m) as -> by congruence.
  assert (0 ≤ bal) by apply free_nonneg. fold asset in Hbal, Hwd, Ht.
  assert (base_asset m ≠ asset) by (intros Heq; by rewrite Heq in Hb).
  apply withdraw_ok in Hwd as (_ & Hf1 & Hi1 & _); [|lia].
  assert (free_balance (base_asset m) (pot_account id) l1 = pot_total) as Hpot.
  { rewrite Hf1. at_simpl. fold pot_total. lia. }
  fold bal in Ht. rewrite Hpot in Ht.
  assert (0 ≤ pot_total) by apply free_nonneg.
  apply transfer_ok in Ht as (_ & Hf2 & Hi2 & _); [|lia]. cbn [assets].
  split; [by exists w|]. rewrite !Hf2, !Hf1. at_simpl.
  fold bal pot_total. split_and!; try lia.
  intros Hi Hcol. unfold collateral in Hcol. fold pot_total in Hcol.
  assert (bal ≤ pot_total).
  { transitivity (total_issuance asset (assets s)); [apply free_le_issuance|].
    transitivity (issued id (outcomes m) (assets s)); [|done].
    apply (zsum_elem_le (λ i, total_issuance (ParimutuelShare id i) (assets s))).
    - intros x _. transitivity (free_balance (ParimutuelShare id x) who (assets s));
        [apply free_nonneg|apply free_le_issuance].
    - apply elem_of_seqZ. lia. }
  split; [unfold refund_assert; apply negb_true_iff, Z.ltb_ge; lia|]. split; [lia|].
  unfold collateral. cbn [assets]. rewrite Hf2, Hf1. at_simpl. fold pot_total.
  rewrite (issued_withdraw id (outcomes m) i bal (assets s) l2); [lia|apply elem_of_seqZ; lia|].
  intros b'. rewrite Hi2. apply Hi1.
Qed.
End Properties.

(** ** Examples *)
Module Example.
Definition chain : Type := State MarketCommons.State Ledger.
Definition alice : AccountId := 1.
Definition bob : AccountId := 2.
Definition creator : AccountId := 9.
Definition pot (id : MarketId) : AccountId := 4 * id + 3.
Definition min_bet : Balance := 10.

Definition market_with (st : MarketStatus) (out : option OutcomeReport) : Market :=
  mk_Market Ztg creator Permissionless 10000000 creator [] (MT_Categorical 3)
    (Block (mk_Range 0 100)) (mk_Deadlines 1 1 1) Parimutuel st None out
    (Some MDM_Authorized) MarketBonds_default None.

#[export] Instance fees : DistributeFees MarketCommons.State Ledger :=
  MarketCreatorFee example_mul_floor.
#[export] Instance fees_laws : DistributeFeesLaws MarketCommons.State Ledger.
Proof.
  split. apply (market_creator_distribute_spec example_mul_floor example_mul_floor_le).
Qed.

Definition funds : Ledger :=
  mk_Ledger {[ (Ztg, alice) := 10000%N; (Ztg, bob) := 10000%N ]} ∅.
Definition start : chain :=
  mk_State (MarketCommons.mk_State {[ 7 := market_with Active None ]} (Some 8) ∅) funds [].

(** The market is resolved by another pallet. *)
Definition resolve (w : Z) (s : chain) : chain :=
  mk_State (MarketCommons.mk_State
    {[ 7 := market_with Resolved (Some (Categorical w)) ]} (Some 8) ∅) (assets s) (events s).

Definition bets : Store chain unit :=
  _ ← buy min_bet pot (Some alice) (ParimutuelShare 7 0) 1000;
  buy min_bet pot (Some bob) (ParimutuelShare 7 1) 2000.
Definition after_bets : chain := snd (bets start).
Definition resolved : chain := resolve 0 after_bets.
Definition claimed : chain := snd (claim_rewards pot (Some alice) 7 resolved).

Definition after_bob_refund : Res unit * chain :=
  claim_refunds pot (Some bob) (ParimutuelShare 7 1) claimed.

Definition run {A} (m : Store chain A) (s : chain) : chain := snd (m s).

Lemma buy_effect_witness :
  let s' := run (do_buy min_bet pot alice (ParimutuelShare 7 0) 1000) start in
  ∃ id i m fee, ParimutuelShare 7 0 = ParimutuelShare id i ∧
    api_market id (commons start) = Ok m ∧ 0 ≤ fee ∧
    events s' = [OutcomeBought id alice (ParimutuelShare 7 0) (1000 - fee) fee].
Proof.
  destruct (buy_effect min_bet pot alice (ParimutuelShare 7 0) 1000 start
    (run (do_buy min_bet pot alice (ParimutuelShare 7 0) 1000) start)) as (id & i & m & fee & H1 & H2 & _ & _ & H3 & _ & _ & H4 & _);
    [done|done|vm_compute; reflexivity|].
  exists id, i, m, fee. split_and!; [exact H1|exact H2|exact H3|exact H4].
Defined.

Lemma buy_collateral_witness :
  collateral pot 7 (market_with Active None)
    (assets (run (do_buy min_bet pot alice (ParimutuelShare 7 0) 1000) start)).
Proof.
  apply (buy_collateral min_bet pot alice (ParimutuelShare 7 0) 1000 start _ 7
    (market_with Active None)).
  - done.
  - done.
  - vm_compute; reflexivity.
  - done.
  - intros id'. unfold alice, pot. lia.
  - by vm_compute.
  - vm_compute; reflexivity.
Defined.

Lemma claim_rewards_effect_witness :
  ∃ payoff, free_balance Ztg alice (assets claimed)
    = free_balance Ztg alice (assets resolved) + payoff.
Proof.
  destruct (claim_rewards_effect pot alice 7 (market_with Resolved (Some (Categorical 0))) 0
    resolved claimed) as (payoff & _ & _ & _ & _ & H1 & _);
    [vm_compute; reflexivity|reflexivity|reflexivity|done|by vm_compute|vm_compute; reflexivity|].
  exists payoff. exact H1.
Defined.

Lemma claim_rewards_succeeds_witness :
  fst (do_claim_rewards pot alice 7 resolved) = Ok tt.
Proof.
  rewrite (claim_rewards_succeeds pot alice 7 (market_with Resolved (Some (Categorical 0))) 0
    resolved (snd (withdraw (ParimutuelShare 7 0) alice 990 (assets resolved)))
    (assets claimed));
    [reflexivity|vm_compute; reflexivity|reflexivity|reflexivity|reflexivity|reflexivity|reflexivity|by vm_compute|by vm_compute|by vm_compute|vm_compute; reflexivity|vm_compute; reflexivity].
Defined.

Lemma claims_solvent_witness :
  total_issuance (ParimutuelShare 7 0) (assets claimed) ≤ free_balance Ztg (pot 7) (assets claimed).
Proof.
  destruct (claims_solvent pot [alice] 7 (market_with Resolved (Some (Categorical 0))) 0
    resolved claimed) as [H1 _];
    [vm_compute; reflexivity|reflexivity|reflexivity|constructor; [done|constructor]|apply NoDup_singleton|by vm_compute|vm_compute; reflexivity|].
  exact H1.
Defined.

(** The market resolves to an outcome nobody bought. *)
Lemma claim_refunds_effect_witness :
  let s' := run (do_claim_refunds pot bob (ParimutuelShare 7 1)) (resolve 2 after_bets) in
  free_balance (ParimutuelShare 7 1) bob (assets s') = 0.
Proof.
  destruct (claim_refunds_effect pot bob 7 1 (market_with Resolved (Some (Categorical 2)))
    (resolve 2 after_bets)
    (run (do_claim_refunds pot bob (ParimutuelShare 7 1)) (resolve 2 after_bets))) as (_ & _ & H1 & _);
    [vm_compute; reflexivity|reflexivity|done|vm_compute; reflexivity|].
  exact H1.
Defined.

(** Once the winners have claimed, the losers' refund is open: the code
    accepts the call, burns the losing shares and pays whatever is left in the
    pot (here nothing for 1980 shares), although a [debug_assert] says that a pot
    below the refund "should never happen". *)
Theorem refund_after_claims :
  fst (claim_rewards pot (Some alice) 7 resolved) = Ok tt ∧
  fst after_bob_refund = Ok tt ∧
  free_balance (ParimutuelShare 7 1) bob (assets claimed) = 1980 ∧
  free_balance (ParimutuelShare 7 1) bob (assets (snd after_bob_refund)) = 0 ∧
  free_balance Ztg bob (assets (snd after_bob_refund)) = free_balance Ztg bob (assets claimed) ∧
  refund_assert (free_balance (ParimutuelShare 7 1) bob (assets claimed))
    (free_balance Ztg (pot 7) (assets claimed)) = false.
Proof. by vm_compute. Qed.
End Example.
