(* ===== verification/Orderbook.v ===== *)
(** * Order book

    [zrml/orderbook/src/{lib,types}.rs]: limit orders between the base asset and
    an outcome asset of a market. The maker's amount is held in a named reserve;
    a fill repatriates from that reserve and transfers the taker's side. *)
From S2P Require Import Prelude Types Errors Fixed Currencies Ledgers MarketCommons Fees.

(** ** Data *)

Abbreviation OrderId := Z.

Record Order : Type := mk_Order {
  market_id : MarketId;
  maker : AccountId;
  maker_asset : Asset;
  maker_amount : Balance;
  taker_asset : Asset;
  taker_amount : Balance;
}.

Inductive Event : Type :=
| OrderFilled (order_id : OrderId) (maker taker : AccountId)
    (filled_maker_amount filled_taker_amount unfilled_maker_amount unfilled_taker_amount : Balance)
| OrderPlaced (order_id : OrderId) (order : Order)
| OrderRemoved (order_id : OrderId) (maker : AccountId).

Record State (C L : Type) : Type := mk_State {
  commons : C;
  assets : L;
  NextOrderId : OrderId;
  Orders : gmap OrderId Order;
  events : list Event;
}.
Arguments mk_State {C L} _ _ _ _ _.
Arguments commons {C L} _.
Arguments assets {C L} _.
Arguments NextOrderId {C L} _.
Arguments Orders {C L} _.
Arguments events {C L} _.

Definition set_assets {C L} (l : L) (s : State C L) : State C L :=
  mk_State (commons s) l (NextOrderId s) (Orders s) (events s).
Definition set_Orders {C L} (f : gmap OrderId Order → gmap OrderId Order) (s : State C L)
    : State C L :=
  mk_State (commons s) (assets s) (NextOrderId s) (f (Orders s)) (events s).
Definition set_NextOrderId {C L} (id : OrderId) (s : State C L) : State C L :=
  mk_State (commons s) (assets s) id (Orders s) (events s).
Definition deposit_event {C L} (e : Event) : Store (State C L) unit :=
  modify (λ s, mk_State (commons s) (assets s) (NextOrderId s) (Orders s) (e :: events s)).

(** [outcome_assets] of a market, in the order of [derive(Ord)]. *)
Definition outcome_assets (market_id : MarketId) (m : Market) : list Asset :=
  match market_type m with
  | MT_Categorical categories => (λ i, CategoricalOutcome market_id i) <$> seqZ 0 categories
  | MT_Scalar _ _ => [ScalarOutcome market_id Long; ScalarOutcome market_id Short]
  end.

(** [slice::binary_search] *)
Definition binary_search (l : list Asset) (a : Asset) : result nat nat :=
  binary_search_by (λ x, Asset_compare x a) l.

(** ** Arithmetic of a fill *)

Definition decrease_order_amounts (order_data : Order) (maker_fill taker_fill : Balance)
    : Res Order :=
  maker_amount' ← checked_sub_res (maker_amount order_data) taker_fill;
  taker_amount' ← checked_sub_res (taker_amount order_data) maker_fill;
  Ok (mk_Order (market_id order_data) (maker order_data) (maker_asset order_data) maker_amount'
        (taker_asset order_data) taker_amount').

Definition get_taker_fill (order_data : Order) (maker_fill : Balance) : Res Balance :=
  let maker_full_fill := taker_amount order_data in
  let taker_full_fill := maker_amount order_data in
  ratio ← bdiv_floor u128_max maker_fill maker_full_fill;
  bmul_floor u128_max ratio taker_full_fill.

Section Orderbook.
Context {C L : Type} `{MarketCommonsPalletApi C, AssetManager L, DistributeFees C L}.
(** [PalletId::get().0] *)
Context (reserve_id : ReserveIdentifier).

Definition ensure_ratio_quotient_valid (order_data : Order) : Res unit :=
  let maker_full_fill := taker_amount order_data in
  let is_ratio_quotient_valid :=
    (maker_full_fill =? 0) || (minimum_balance (taker_asset order_data) <=? maker_full_fill) in
  ensureR is_ratio_quotient_valid OB_PartialFillNearFullFillNotAllowed.

Definition do_remove_order (order_id : OrderId) (who : AccountId) : Store (State C L) unit :=
  o ← gets (λ s, Orders s !! order_id);
  order_data ← ok_or o OB_OrderDoesNotExist;
  _ ← ensure (bool_decide (who = maker order_data)) OB_NotOrderCreator;
  _ ← zoom assets set_assets (infallible
        (unreserve_named reserve_id (maker_asset order_data) (maker order_data)
          (maker_amount order_data)));
  _ ← modify (set_Orders (delete order_id));
  deposit_event (OrderRemoved order_id (maker order_data)).

(** The amount the maker receives after the fee. *)
Definition charge_external_fees (order_data : Order) (base_asset : Asset) (maker_fill : Balance)
    (taker : AccountId) (taker_fill : Balance) : Store (State C L) Balance :=
  let maker_asset_is_base := bool_decide (maker_asset order_data = base_asset) in
  let base_asset_fill := if maker_asset_is_base then taker_fill else maker_fill in
  c ← gets commons;
  fee_amount ← zoom assets set_assets (infallible
    (distribute (market_id order_data) base_asset taker base_asset_fill c));
  if maker_asset_is_base then mret maker_fill
  else lift (checked_sub_res maker_fill fee_amount).

Definition do_fill_order (order_id : OrderId) (taker : AccountId)
    (maker_partial_fill : option Balance) : Store (State C L) unit :=
  o ← gets (λ s, Orders s !! order_id);
  order_data ← ok_or o OB_OrderDoesNotExist;
  rm ← gets (λ s, api_market (market_id order_data) (commons s));
  m ← lift rm;
  _ ← ensure (bool_decide (status m = Active)) OB_MarketIsNotActive;
  let base_asset := base_asset m in
  let maker_fill := default (taker_amount order_data) maker_partial_fill in
  _ ← ensure (minimum_balance (taker_asset order_data) <=? maker_fill) OB_BelowMinimumBalance;
  _ ← ensure (maker_fill <=? taker_amount order_data) OB_AmountTooHighForOrder;
  taker_fill ← lift (get_taker_fill order_data maker_fill);
  _ ← zoom assets set_assets (repatriate_reserved_named reserve_id (maker_asset order_data)
        (maker order_data) taker taker_fill);
  maybe_adjusted_maker_fill ←
    charge_external_fees order_data base_asset maker_fill taker taker_fill;
  _ ← zoom assets set_assets (transfer (taker_asset order_data) taker (maker order_data)
        maybe_adjusted_maker_fill);
  order_data' ← lift (decrease_order_amounts order_data maker_fill taker_fill);
  _ ← lift (ensure_ratio_quotient_valid order_data');
  _ ← modify (set_Orders
        (if maker_amount order_data' =? 0 then delete order_id else insert order_id order_data'));
  deposit_event (OrderFilled order_id (maker order_data) taker taker_fill maker_fill
    (maker_amount order_data') (taker_amount order_data')).

Definition do_place_order (who : AccountId) (market_id : MarketId) (maker_asset : Asset)
    (maker_amount : Balance) (taker_asset : Asset) (taker_amount : Balance)
    : Store (State C L) unit :=
  rm ← gets (λ s, api_market market_id (commons s));
  m ← lift rm;
  _ ← ensure (bool_decide (status m = Active)) OB_MarketIsNotActive;
  _ ← ensure (bool_decide (scoring_rule m = Types.Orderbook)) OB_InvalidScoringRule;
  let market_assets := outcome_assets market_id m in
  let base_asset := base_asset m in
  outcome_asset ←
    (if bool_decide (maker_asset = base_asset) then mret taker_asset
     else _ ← ensure (bool_decide (taker_asset = base_asset)) OB_MarketBaseAssetNotPresent;
          mret maker_asset);
  _ ← ensure (is_ok (binary_search market_assets outcome_asset)) OB_InvalidOutcomeAsset;
  _ ← ensure (minimum_balance maker_asset <=? maker_amount) OB_BelowMinimumBalance;
  _ ← ensure (minimum_balance taker_asset <=? taker_amount) OB_BelowMinimumBalance;
  order_id ← gets NextOrderId;
  next_order_id ← lift (checked_add_res u128_max order_id 1);
  _ ← zoom assets set_assets (reserve_named reserve_id maker_asset who maker_amount);
  let order := mk_Order market_id who maker_asset maker_amount taker_asset taker_amount in
  _ ← modify (set_Orders (insert order_id order));
  _ ← modify (set_NextOrderId next_order_id);
  deposit_event (OrderPlaced order_id order).

(** The extrinsics. *)
Definition remove_order (origin : option AccountId) (order_id : OrderId)
    : Store (State C L) unit :=
  transactional (who ← ok_or origin BadOrigin; do_remove_order order_id who).
Definition fill_order (origin : option AccountId) (order_id : OrderId)
    (maker_partial_fill : option Balance) : Store (State C L) unit :=
  transactional (taker ← ok_or origin BadOrigin; do_fill_order order_id taker maker_partial_fill).
Definition place_order (origin : option AccountId) (market_id : MarketId) (maker_asset : Asset)
    (maker_amount : Balance) (taker_asset : Asset) (taker_amount : Balance)
    : Store (State C L) unit :=
  transactional (who ← ok_or origin BadOrigin;
    do_place_order who market_id maker_asset maker_amount taker_asset taker_amount).
End Orderbook.

(** ** The assets of a market *)
Section OutcomeAssets.

Definition is_outcome_of (id : MarketId) (m : Market) (a : Asset) : Prop :=
  match market_type m, a with
  | MT_Categorical n, CategoricalOutcome id' i => id' = id ∧ 0 ≤ i < n
  | MT_Scalar _ _, ScalarOutcome id' _ => id' = id
  | _, _ => False
  end.

Lemma elem_of_outcome_assets id m a : a ∈ outcome_assets id m ↔ is_outcome_of id m a.
Proof.
  unfold outcome_assets, is_outcome_of. destruct (market_type m) as [n|lo hi].
  - rewrite list_elem_of_fmap. setoid_rewrite elem_of_seqZ. split.
    + intros (i & -> & ?). lia.
    + destruct a; naive_solver lia.
  - rewrite !elem_of_cons, elem_of_nil. destruct a as [|? []| | | | |]; naive_solver.
Qed.

Lemma outcome_assets_sorted id m a : cmp_sorted (λ x, Asset_compare x a) (outcome_assets id m).
Proof.
  intros i j x y Hij Hx Hy. unfold outcome_assets in *.
  destruct (market_type m) as [n|lo hi].
  - apply list_lookup_fmap_Some in Hx as (p & -> & Hp), Hy as (q & -> & Hq).
    apply lookup_seqZ in Hp as [-> _], Hq as [-> _].
    destruct a as [m' k| | | | | |]; cbn; try done.
    destruct (Z.compare_spec id m'); cbn; [|done..].
    rewrite Z.compare_nlt_iff, Z.compare_gt_iff. lia.
  - destruct i as [|[|i]]; [|by destruct j as [|[|j]]; cbn in *; [lia..|]|done].
    destruct j as [|[|j]]; [lia| |done]. cbn in *. simplify_eq.
    destruct a as [|m' []| | | | |]; cbn; try done; destruct (Z.compare_spec id m'); done.
Qed.

Lemma binary_search_outcome_assets id m a :
  is_ok (binary_search (outcome_assets id m) a) = true ↔ is_outcome_of id m a.
Proof.
  unfold binary_search. rewrite binary_search_is_ok by apply outcome_assets_sorted.
  setoid_rewrite Asset_compare_eq. rewrite <- elem_of_outcome_assets. naive_solver.
Qed.
End OutcomeAssets.

(** ** The arithmetic of a fill *)
Section Fill.
Implicit Types o : Order.

(** The taker gets at most the pro-rata part of the maker's amount (the maker's
    limit price holds), loses less than the two roundings, and empties the order
    exactly when it pays for all of it. *)
Lemma get_taker_fill_bounds o maker_fill taker_fill :
  0 < taker_amount o → 0 ≤ maker_amount o → 0 ≤ maker_fill ≤ taker_amount o →
  get_taker_fill o maker_fill = Ok taker_fill →
  0 ≤ taker_fill ≤ maker_amount o ∧
  taker_fill * taker_amount o ≤ maker_fill * maker_amount o ∧
  maker_fill * maker_amount o * BASE <
    (taker_fill + 1) * taker_amount o * BASE + taker_amount o * maker_amount o ∧
  (maker_fill = taker_amount o → taker_fill = maker_amount o) ∧
  (0 < maker_amount o → taker_fill = maker_amount o → maker_fill = taker_amount o).
Proof.
  destruct o as [id x ma M ta T]. cbn. intros HT HM Hm Hf. unfold get_taker_fill in Hf. cbn in Hf.
  run_inv Hf. apply bdiv_floor_ok in Hm0 as (_ & _ & ->); [|done].
  apply bmul_floor_ok in Hf as (_ & ->); [|done].
  pose proof BASE_pos as HB. set (r := maker_fill * BASE / T).
  assert (r * T ≤ maker_fill * BASE < (r + 1) * T) as [Hr1 Hr2].
  { pose proof (Z.mul_div_le (maker_fill * BASE) T HT).
    pose proof (Z.mul_succ_div_gt (maker_fill * BASE) T HT). subst r. lia. }
  set (t := r * M / BASE). assert (t * BASE ≤ r * M < (t + 1) * BASE) as [Ht1 Ht2].
  { pose proof (Z.mul_div_le (r * M) BASE HB).
    pose proof (Z.mul_succ_div_gt (r * M) BASE HB). subst t. lia. }
  clearbody r t. generalize dependent BASE. intros B; intros.
  assert (0 ≤ r ≤ B) by nia. assert (0 ≤ t ≤ M) by nia.
  assert (t * T * B ≤ maker_fill * M * B) by (transitivity (r * M * T); nia).
  split; [done|]. split; [nia|]. split; [nia|]. split.
  - intros ->. assert (r = B) as -> by nia. nia.
  - intros HM0 ->. assert (r = B) as -> by nia. nia.
Qed.

Lemma decrease_ok_inv o mf tf o' :
  decrease_order_amounts o mf tf = Ok o' →
  tf ≤ maker_amount o ∧ mf ≤ taker_amount o ∧
  o' = mk_Order (market_id o) (maker o) (maker_asset o) (maker_amount o - tf) (taker_asset o)
         (taker_amount o - mf).
Proof. unfold decrease_order_amounts. intros Hd. run_inv Hd. checked. done. Qed.
End Fill.

(** ** Decomposition of successful runs *)
Section Inversion.
Context {C L : Type} `{MarketCommonsPalletApi C, AssetManager L, DistributeFees C L}.
Context (reserve_id : ReserveIdentifier).
Implicit Types s : State C L.

Lemma do_place_order_inv who id ma mamt ta tamt s s' u :
  do_place_order reserve_id who id ma mamt ta tamt s = (Ok u, s') →
  ∃ m l, api_market id (commons s) = Ok m ∧ status m = Active ∧
    scoring_rule m = Types.Orderbook ∧
    (ma = base_asset m ∧ is_outcome_of id m ta ∨
     ma ≠ base_asset m ∧ ta = base_asset m ∧ is_outcome_of id m ma) ∧
    minimum_balance ma ≤ mamt ∧ minimum_balance ta ≤ tamt ∧ NextOrderId s + 1 ≤ u128_max ∧
    reserve_named reserve_id ma who mamt (assets s) = (Ok tt, l) ∧
    let o := mk_Order id who ma mamt ta tamt in
    s' = mk_State (commons s) l (NextOrderId s + 1) (<[NextOrderId s := o]> (Orders s))
           (OrderPlaced (NextOrderId s) o :: events s).
Proof.
  intros Hp. unfold do_place_order, deposit_event in Hp. run_inv Hp. guards. checked.
  repeat match goal with u : unit |- _ => destruct u end.
  match goal with
  | Hs : is_ok (binary_search (outcome_assets _ ?m) _) = true, Hi : (if _ then _ else _) _ = _ |- _ =>
      rename Hs into Hsearch; rename Hi into Hout; rename m into mk
  end.
  apply binary_search_outcome_assets in Hsearch.
  destruct (bool_decide_reflect (ma = base_asset mk)) as [->|Hne]; run_inv Hout; guards; cbv zeta;
    do 2 eexists; split_and!; try (reflexivity || eassumption).
  - by left.
  - by right.
Qed.

Lemma do_remove_order_inv id who s s' u :
  do_remove_order reserve_id id who s = (Ok u, s') →
  ∃ o missing l, Orders s !! id = Some o ∧ who = maker o ∧
    unreserve_named reserve_id (maker_asset o) (maker o) (maker_amount o) (assets s)
      = (missing, l) ∧
    s' = mk_State (commons s) l (NextOrderId s) (delete id (Orders s))
           (OrderRemoved id (maker o) :: events s).
Proof.
  intros Hp. unfold do_remove_order, deposit_event in Hp. run_inv Hp. guards.
  do 3 eexists. split_and!; try (reflexivity || eassumption).
Qed.

Lemma charge_external_fees_inv o b mf taker tf s s' adj :
  charge_external_fees o b mf taker tf s = (Ok adj, s') →
  ∃ fee l, s' = set_assets l s ∧
    (maker_asset o = b ∧ adj = mf ∧
       distribute (market_id o) b taker tf (commons s) (assets s) = (fee, l) ∨
     maker_asset o ≠ b ∧ adj = mf - fee ∧ fee ≤ mf ∧
       distribute (market_id o) b taker mf (commons s) (assets s) = (fee, l)).
Proof.
  intros Hc. unfold charge_external_fees in Hc. run_inv Hc.
  destruct (bool_decide_reflect (maker_asset o = b)) as [Heq|Hne]; run_inv Hc; checked; eauto 10.
Qed.

Lemma do_fill_order_inv id taker partial s s' u :
  do_fill_order reserve_id id taker partial s = (Ok u, s') →
  ∃ o m tf missing l1 fee adj l2 l3,
    let mf := default (taker_amount o) partial in
    let o' := mk_Order (market_id o) (maker o) (maker_asset o) (maker_amount o - tf)
                (taker_asset o) (taker_amount o - mf) in
    Orders s !! id = Some o ∧ api_market (market_id o) (commons s) = Ok m ∧ status m = Active ∧
    minimum_balance (taker_asset o) ≤ mf ≤ taker_amount o ∧
    get_taker_fill o mf = Ok tf ∧ tf ≤ maker_amount o ∧
    (taker_amount o' = 0 ∨ minimum_balance (taker_asset o) ≤ taker_amount o') ∧
    repatriate_reserved_named reserve_id (maker_asset o) (maker o) taker tf (assets s)
      = (Ok missing, l1) ∧
    (maker_asset o = base_asset m ∧ adj = mf ∧
       distribute (market_id o) (base_asset m) taker tf (commons s) l1 = (fee, l2) ∨
     maker_asset o ≠ base_asset m ∧ adj = mf - fee ∧ fee ≤ mf ∧
       distribute (market_id o) (base_asset m) taker mf (commons s) l1 = (fee, l2)) ∧
    transfer (taker_asset o) taker (maker o) adj l2 = (Ok tt, l3) ∧
    s' = mk_State (commons s) l3 (NextOrderId s)
           (if maker_amount o' =? 0 then delete id (Orders s) else <[id := o']> (Orders s))
           (OrderFilled id (maker o) taker tf mf (maker_amount o') (taker_amount o') :: events s).
Proof.
  intros Hp. unfold do_fill_order, deposit_event in Hp. run_inv Hp. guards.
  repeat match goal with
  | u : unit |- _ => destruct u
  | Hx : charge_external_fees _ _ _ _ _ _ = _ |- _ =>
      apply charge_external_fees_inv in Hx as (fee & l2 & -> & Hfee)
  | Hx : decrease_order_amounts _ _ _ = _ |- _ => apply decrease_ok_inv in Hx as (? & ? & ->)
  | Hx : ensure_ratio_quotient_valid _ = _ |- _ =>
      unfold ensure_ratio_quotient_valid in Hx; run_inv Hx; rename Hx into Hratio
  end.
  cbn [maker_asset maker_amount taker_asset taker_amount market_id maker] in *.
  do 9 eexists. cbv zeta. split_and!; try (reflexivity || eassumption).
  - apply orb_true_iff in Hratio as [?|?]; guards; auto.
  - cbn. by destruct (maker_amount _ - _ =? 0).
Qed.
End Inversion.

(** ** Every open order is funded *)
Section Properties.
Context {C L : Type} `{MarketCommonsPalletApi C, AssetManager L, DistributeFees C L}.
Context `{!AssetManagerLaws L, !DistributeFeesLaws C L}.
Context (reserve_id : ReserveIdentifier).
(** Existential deposits are positive. *)
Context (Hmin : ∀ a, 0 < minimum_balance a).
Implicit Types s : State C L.

(** What an order holds of the asset [a] of account [x]. *)
Definition held (a : Asset) (x : AccountId) (o : Order) : Balance :=
  at_ (maker_asset o, maker o) (a, x) (maker_amount o).
Definition held_by_orders (a : Asset) (x : AccountId) (m : gmap OrderId Order) : Balance :=
  map_sum (λ _, held a x) m.

Record Inv s : Prop := {
  (** the reserve is exactly what the open orders still offer *)
  inv_funded a x :
    reserved_balance_named reserve_id a x (assets s) = held_by_orders a x (Orders s);
  (** an open order offers something and asks for something that can be paid *)
  inv_open id o : Orders s !! id = Some o →
    0 < maker_amount o ∧ minimum_balance (taker_asset o) ≤ taker_amount o;
  inv_ids id : is_Some (Orders s !! id) → 0 ≤ id < NextOrderId s;
  inv_next : 0 ≤ NextOrderId s ≤ u128_max;
}.

Lemma at_pair_swap (i : ReserveIdentifier) (a b : Asset) (x z : AccountId) amt :
  at_ (i, a, x) (i, b, z) amt = at_ (a, x) (b, z) amt.
Proof. unfold at_. repeat destruct (decide _); congruence. Qed.

Lemma held_insert_fresh a x m id o :
  m !! id = None → held_by_orders a x (<[id := o]> m) = held_by_orders a x m + held a x o.
Proof. intros. unfold held_by_orders. rewrite map_sum_insert by done. lia. Qed.

Lemma held_delete a x m id o :
  m !! id = Some o → held_by_orders a x (delete id m) = held_by_orders a x m - held a x o.
Proof. intros Hid. unfold held_by_orders. rewrite (map_sum_delete _ m id o Hid). lia. Qed.

Lemma held_update a x m id o o' :
  m !! id = Some o →
  held_by_orders a x (<[id := o']> m) = held_by_orders a x m - held a x o + held a x o'.
Proof. intros Hid. unfold held_by_orders. rewrite map_sum_update. unfold entry. by rewrite Hid. Qed.

Lemma order_le_reserve s id o :
  Inv s → Orders s !! id = Some o →
  maker_amount o ≤ reserved_balance_named reserve_id (maker_asset o) (maker o) (assets s).
Proof.
  intros Hinv Ho. rewrite (inv_funded s Hinv).
  pose proof (entry_le_map_sum (λ _, held (maker_asset o) (maker o)) (Orders s) id) as Hle.
  unfold entry in Hle. rewrite Ho in Hle.
  assert (held (maker_asset o) (maker o) o = maker_amount o) as He by apply at_eq. rewrite He in Hle.
  apply Hle. intros id' o' Ho'. apply at_nonneg.
  destruct (inv_open s Hinv id' o' Ho'). lia.
Qed.

Lemma place_Inv who id ma mamt ta tamt s s' u :
  Inv s → do_place_order reserve_id who id ma mamt ta tamt s = (Ok u, s') → Inv s'.
Proof.
  intros Hinv Hp. apply do_place_order_inv in Hp
    as (m & l & _ & _ & _ & _ & Hma & Hta & Hnext & Hres & ->).
  pose proof (Hmin ma). pose proof (inv_next s Hinv).
  assert (Orders s !! NextOrderId s = None) as Hfresh.
  { apply eq_None_not_Some. intros Hs. pose proof (inv_ids s Hinv _ Hs). lia. }
  apply reserve_named_ok in Hres as (_ & _ & _ & Hres); [|lia]. split; cbn.
  - intros a x. rewrite Hres, (inv_funded s Hinv), held_insert_fresh, at_pair_swap by done. done.
  - intros id' o [[<- <-]|[_ Ho]]%lookup_insert_Some; [cbn; lia|by apply (inv_open s Hinv id')].
  - intros id' [o [[<- _]|[_ Ho]]%lookup_insert_Some]; [lia|].
    pose proof (inv_ids s Hinv id' ltac:(eauto)). lia.
  - lia.
Qed.

Lemma remove_Inv id who s s' u :
  Inv s → do_remove_order reserve_id id who s = (Ok u, s') → Inv s'.
Proof.
  intros Hinv Hp. apply do_remove_order_inv in Hp as (o & missing & l & Ho & -> & Hun & ->).
  pose proof (order_le_reserve s id o Hinv Ho). destruct (inv_open s Hinv id o Ho).
  apply unreserve_named_spec in Hun as (_ & _ & _ & Hres); [|lia].
  rewrite Z.min_l in Hres by lia. split; cbn; [|..|apply (inv_next s Hinv)].
  - intros a x. rewrite Hres, (inv_funded s Hinv), (held_delete _ _ _ id o), at_pair_swap by done.
    done.
  - intros id' o' [_ Ho']%lookup_delete_Some. by apply (inv_open s Hinv id').
  - intros id' [o' [_ Ho']%lookup_delete_Some]. apply (inv_ids s Hinv). eauto.
Qed.

Lemma held_at a x o amt :
  held a x o - at_ (maker_asset o, maker o) (a, x) amt =
  at_ (maker_asset o, maker o) (a, x) (maker_amount o - amt).
Proof. unfold held, at_. destruct (decide _); lia. Qed.

Lemma fill_Inv id taker partial s s' u :
  Inv s → do_fill_order reserve_id id taker partial s = (Ok u, s') → Inv s'.
Proof.
  intros Hinv Hp. apply do_fill_order_inv in Hp as
    (o & m & tf & missing & l1 & fee & adj & l2 & l3 & Ho & Hm & _ & Hmf & Htf & Htfle & Hrest &
     Hrep & Hfee & Ht & ->).
  set (mf := default _ partial) in *. destruct (inv_open s Hinv id o Ho) as [HM HT].
  pose proof (Hmin (taker_asset o)). cbn [taker_amount maker_amount] in *.
  apply get_taker_fill_bounds in Htf as (Htf0 & _ & _ & Hfull & _); [|lia..].
  pose proof (order_le_reserve s id o Hinv Ho) as Hle.
  apply repatriate_reserved_named_ok in Hrep as (_ & _ & _ & Hr1); [|lia].
  rewrite Z.min_l in Hr1 by lia.
  assert (∀ i a x, reserved_balance_named i a x l2 = reserved_balance_named i a x l1) as Hr2.
  { destruct Hfee as [(_ & _ & Hd)|(_ & _ & _ & Hd)]; apply distribute_spec in Hd; naive_solver lia. }
  assert (0 ≤ adj) as Hadj by (destruct Hfee as [(_ & -> & _)|(_ & -> & ? & _)]; lia).
  apply transfer_ok in Ht as (_ & _ & _ & Hr3); [|done].
  split; cbn [assets Orders NextOrderId]; [| | |apply (inv_next s Hinv)].
  - intros a x. rewrite Hr3, Hr2, Hr1, (inv_funded s Hinv), at_pair_swap.
    destruct (Z.eqb_spec (maker_amount o - tf) 0) as [Hz|Hz].
    + rewrite (held_delete _ _ _ id o) by done. unfold held. by replace tf with (maker_amount o) by lia.
    + rewrite (held_update _ _ _ id o) by done.
      pose proof (held_at a x o tf). unfold held in *. cbn. lia.
  - intros id' o'. destruct (Z.eqb_spec (maker_amount o - tf) 0) as [Hz|Hz].
    + intros [_ Ho']%lookup_delete_Some. by apply (inv_open s Hinv id').
    + intros [[<- <-]|[_ Ho']]%lookup_insert_Some; [cbn|by apply (inv_open s Hinv id')].
      split; [lia|]. destruct Hrest as [Hzero|?]; [|done].
      destruct Hz. rewrite Hfull; lia.
  - intros id'. destruct (_ =? _).
    + intros [o' [_ Ho']%lookup_delete_Some]. apply (inv_ids s Hinv). eauto.
    + intros [o' [[<- _]|[_ Ho']]%lookup_insert_Some]; apply (inv_ids s Hinv); eauto.
Qed.

(** Calls of the extrinsics, successful or not, and changes of the rest of the
    chain, which leave this pallet's named reserves alone. *)
Inductive step s : State C L → Prop :=
| step_place origin id ma mamt ta tamt :
    step s (snd (place_order reserve_id origin id ma mamt ta tamt s))
| step_fill origin id partial : step s (snd (fill_order reserve_id origin id partial s))
| step_remove origin id : step s (snd (remove_order reserve_id origin id s))
| step_environment c l :
    (∀ a x, reserved_balance_named reserve_id a x l =
      reserved_balance_named reserve_id a x (assets s)) →
    step s (mk_State c l (NextOrderId s) (Orders s) (events s)).

Definition genesis s : Prop :=
  NextOrderId s = 0 ∧ Orders s = ∅ ∧ ∀ a x, reserved_balance_named reserve_id a x (assets s) = 0.
Definition reachable s : Prop := ∃ s0, genesis s0 ∧ rtc step s0 s.

Lemma extrinsic_Inv (origin : option AccountId) (f : AccountId → Store (State C L) unit) s :
  (∀ who s' u, f who s = (Ok u, s') → Inv s') → Inv s →
  Inv (snd (transactional (who ← ok_or origin BadOrigin; f who) s)).
Proof.
  intros Hf Hinv. destruct (transactional _ s) as [[u|e] s'] eqn:Ht; cbn.
  - run_inv Ht. by eapply Hf.
  - by apply transactional_err in Ht as ->.
Qed.

Lemma orders_step_Inv s s' : step s s' → Inv s → Inv s'.
Proof.
  intros Hs Hinv. destruct Hs as [origin id ma mamt ta tamt|origin id partial|origin id|c l Hl].
  - apply extrinsic_Inv; [|done]. intros who s' u. by apply place_Inv.
  - apply extrinsic_Inv; [|done]. intros who s' u. by apply fill_Inv.
  - apply extrinsic_Inv; [|done]. intros who s' u. by apply remove_Inv.
  - destruct Hinv. split; cbn; [intros a x; by rewrite Hl|done..].
Qed.

Lemma orders_reachable_Inv s : reachable s → Inv s.
Proof.
  intros (s0 & (Hn & Ho & Hr) & Hrtc).
  assert (Inv s0) as Hinv.
  { split; rewrite ?Hn, ?Ho.
    - intros a x. by rewrite Hr.
    - intros id o. by rewrite lookup_empty.
    - intros id. rewrite lookup_empty. by intros [? ?].
    - done. }
  clear Hn Ho Hr. induction Hrtc as [|x y z Hxy _ IH]; [done|]. by apply IH, (orders_step_Inv x).
Qed.

(** (C6) In every reachable state the pallet's reserve of every asset of every
    account is exactly the sum of what the account's open orders still offer, and
    every open order offers a positive amount for at least the existential
    deposit of the asset it asks for, under an identifier already handed out. *)
Theorem orders_funded s :
  reachable s →
  (∀ a x, reserved_balance_named reserve_id a x (assets s) = held_by_orders a x (Orders s)) ∧
  (∀ id o, Orders s !! id = Some o →
    0 < maker_amount o ∧ minimum_balance (taker_asset o) ≤ taker_amount o ∧
    0 ≤ id < NextOrderId s).
Proof.
  intros Hr%orders_reachable_Inv. split; [apply (inv_funded s Hr)|]. intros id o Ho.
  destruct (inv_open s Hr id o Ho). pose proof (inv_ids s Hr id ltac:(eauto)). lia.
Qed.

(** In every reachable state the maker of an open order, and nobody else,
    can remove it, and gets back exactly what the order still offered (the code's
    [debug_assert] that nothing is missing holds). *)
Theorem remove_order_returns s id o who :
  reachable s → Orders s !! id = Some o →
  let missing := fst (unreserve_named reserve_id (maker_asset o) (maker o) (maker_amount o)
    (assets s)) in
  let r := remove_order reserve_id (Some who) id s in
  if decide (who = maker o) then
    fst r = Ok tt ∧ missing = 0 ∧ Orders (snd r) = delete id (Orders s) ∧
    (∀ a x, free_balance a x (assets (snd r)) = free_balance a x (assets s) + held a x o) ∧
    (∀ a x, reserved_balance_named reserve_id a x (assets (snd r)) =
      reserved_balance_named reserve_id a x (assets s) - held a x o)
  else r = (Err (Orderbook_Error OB_NotOrderCreator), s).
Proof.
  intros Hr Ho missing r. pose proof (orders_reachable_Inv s Hr) as Hinv.
  pose proof (order_le_reserve s id o Hinv Ho). destruct (inv_open s Hinv id o Ho).
  destruct (decide (who = maker o)) as [->|Hne].
  - subst r. unfold remove_order, transactional, do_remove_order. cbn [Prelude.ok_or].
    rewrite (ok_or_some_bind (Some (maker o)) (maker o)), gets_bind by done.
    rewrite (ok_or_some_bind _ o) by done.
    rewrite ensure_true_bind by (by rewrite bool_decide_true).
    subst missing. destruct (unreserve_named _ _ _ _ _) as [missing l] eqn:Hun.
    erewrite bind_ok by (unfold zoom, infallible; by rewrite Hun). cbn.
    apply unreserve_named_spec in Hun as (-> & Hf & _ & Hres); [|lia].
    rewrite Z.min_l in * by lia. split_and!; [done|lia|done|done|].
    intros a x. rewrite Hres, at_pair_swap. done.
  - subst r. unfold remove_order, transactional, do_remove_order.
    rewrite (ok_or_some_bind (Some who) who), gets_bind by done.
    rewrite (ok_or_some_bind _ o) by done.
    by rewrite ensure_false_bind by (by rewrite bool_decide_false).
Qed.

(** (C22) A successful fill of [maker_fill] of an order of two different assets
    gives the taker [taker_fill] at a price never worse for the maker than the
    limit price and exact up to rounding; the maker receives all of [maker_fill],
    less the fee when the taker pays in the base asset; the taker pays at most
    [maker_fill] and, when it receives the base asset, the fee out of it. The
    order disappears exactly when [maker_fill] is all the maker asked for, and
    otherwise the rest is offered at no less than the original price. *)
Theorem fill_effect s s' id taker partial o m :
  reachable s → Orders s !! id = Some o → api_market (market_id o) (commons s) = Ok m →
  taker ≠ maker o → maker_asset o ≠ taker_asset o →
  do_fill_order reserve_id id taker partial s = (Ok tt, s') →
  let maker_fill := default (taker_amount o) partial in
  ∃ taker_fill fee,
    let maker_is_base := bool_decide (maker_asset o = base_asset m) in
    status m = Active ∧ minimum_balance (taker_asset o) ≤ maker_fill ≤ taker_amount o ∧
    taker_fill * taker_amount o ≤ maker_fill * maker_amount o ∧
    maker_fill * maker_amount o * BASE <
      (taker_fill + 1) * taker_amount o * BASE + taker_amount o * maker_amount o ∧
    0 ≤ fee ≤ (if maker_is_base then taker_fill else maker_fill) ∧
    free_balance (taker_asset o) (maker o) (assets s) + maker_fill - (if maker_is_base then 0 else fee)
      ≤ free_balance (taker_asset o) (maker o) (assets s') ∧
    free_balance (taker_asset o) taker (assets s) - maker_fill
      ≤ free_balance (taker_asset o) taker (assets s') ∧
    free_balance (maker_asset o) taker (assets s) + taker_fill - (if maker_is_base then fee else 0)
      ≤ free_balance (maker_asset o) taker (assets s') ∧
    (Orders s' !! id = None ∧ maker_fill = taker_amount o ∧ taker_fill = maker_amount o ∨
     ∃ o', Orders s' !! id = Some o' ∧ maker_fill < taker_amount o ∧
       maker_amount o' = maker_amount o - taker_fill ∧
       taker_amount o' = taker_amount o - maker_fill ∧
       maker_amount o * taker_amount o' ≤ maker_amount o' * taker_amount o).
Proof.
  intros Hr%orders_reachable_Inv Ho Hm Htaker Hassets Hf. cbv zeta.
  pose proof (order_le_reserve s id o Hr Ho) as Hle. destruct (inv_open s Hr id o Ho) as [HM HT].
  apply do_fill_order_inv in Hf as
    (o1 & m1 & tf & missing & l1 & fee & adj & l2 & l3 & Ho1 & Hm1 & Hst & Hmf & Htf & Htfle & Hrest
     & Hrep & Hfee & Ht & ->).
  assert (o1 = o) as -> by congruence. assert (m1 = m) as -> by congruence.
  set (mf := default _ partial) in *.
  pose proof (Hmin (taker_asset o)).
  apply get_taker_fill_bounds in Htf as (Htf0 & Hprice & Hround & Hfull & Hfull'); [|lia..].
  apply repatriate_reserved_named_ok in Hrep as (_ & Hf1 & _); [|lia]. rewrite Z.min_l in Hf1 by lia.
  assert (0 ≤ adj) as Hadj by (destruct Hfee as [(_ & -> & _)|(_ & -> & ? & _)]; lia).
  apply transfer_ok in Ht as (_ & Hf3 & _); [|done].
  exists tf, fee. cbn [assets Orders maker_amount taker_amount] in *.
  split; [done|]. split; [done|]. split; [done|]. split; [done|].
  rewrite !Hf3. at_simpl.
  split; [|split; [|split; [|split]]].
  - destruct Hfee as [(Hb & _ & Hd)|(Hb & _ & _ & Hd)]; apply distribute_spec in Hd as (? & _);
      [|lia| |lia]; [rewrite bool_decide_true by done|rewrite bool_decide_false by done]; lia.
  - destruct Hfee as [(Hb & -> & Hd)|(Hb & -> & _ & Hd)];
      apply distribute_spec in Hd as (_ & _ & Hoth & Hrst & _); try lia;
      [rewrite bool_decide_true by done|rewrite bool_decide_false by done].
    + rewrite Hrst, Hf1 by congruence. at_simpl. lia.
    + destruct (decide (taker_asset o = base_asset m)) as [He|He].
      * specialize (Hoth (maker o) ltac:(done)). rewrite <- He, Hf1 in Hoth.
        rewrite at_ne in Hoth by congruence. lia.
      * rewrite Hrst, Hf1 by done. at_simpl. lia.
  - destruct Hfee as [(Hb & -> & Hd)|(Hb & -> & _ & Hd)];
      apply distribute_spec in Hd as (_ & Hpay & _ & Hrst & _); try lia.
    + rewrite Hrst, Hf1 by congruence. at_simpl. lia.
    + destruct (decide (taker_asset o = base_asset m)) as [He|He].
      * rewrite <- He, Hf1 in Hpay. rewrite at_ne in Hpay by congruence. lia.
      * rewrite Hrst, Hf1 by done. at_simpl. lia.
  - destruct Hfee as [(Hb & -> & Hd)|(Hb & -> & _ & Hd)];
      apply distribute_spec in Hd as (_ & Hpay & _ & Hrst & _); try lia;
      [rewrite bool_decide_true by done|rewrite bool_decide_false by done].
    + rewrite <- Hb, Hf1 in Hpay. rewrite at_eq in Hpay. lia.
    + rewrite Hrst, Hf1 by done. at_simpl. lia.
  - destruct (Z.eqb_spec (maker_amount o - tf) 0) as [Hz|Hz].
    + left. rewrite lookup_delete_eq. split_and!; [done|apply Hfull'; lia|lia].
    + right. eexists. rewrite lookup_insert_eq. split; [done|]. cbn. split_and!; [|done|done|nia].
      destruct (decide (mf = taker_amount o)); [|lia]. rewrite Hfull in Hz by done. lia.
Qed.

(** An order is accepted exactly when the market exists, is active and uses
    the order book, one side is its base asset and the other one of its outcome
    assets, both amounts reach the existential deposits, an identifier is left
    and the maker's amount can be reserved; it is then stored as given. *)
Theorem place_order_iff who id ma mamt ta tamt s s' :
  place_order reserve_id (Some who) id ma mamt ta tamt s = (Ok tt, s') ↔
  ∃ m l, api_market id (commons s) = Ok m ∧ status m = Active ∧
    scoring_rule m = Types.Orderbook ∧
    (ma = base_asset m ∧ is_outcome_of id m ta ∨
     ma ≠ base_asset m ∧ ta = base_asset m ∧ is_outcome_of id m ma) ∧
    minimum_balance ma ≤ mamt ∧ minimum_balance ta ≤ tamt ∧ NextOrderId s + 1 ≤ u128_max ∧
    reserve_named reserve_id ma who mamt (assets s) = (Ok tt, l) ∧
    let o := mk_Order id who ma mamt ta tamt in
    s' = mk_State (commons s) l (NextOrderId s + 1) (<[NextOrderId s := o]> (Orders s))
           (OrderPlaced (NextOrderId s) o :: events s).
Proof.
  unfold place_order. split.
  - intros Hp. run_inv Hp. simplify_eq. eapply do_place_order_inv; eassumption.
  - intros (m & l & Hm & Hst & Hsr & Hassets & Hma & Hta & Hnext & Hres & ->).
    apply Z.leb_le in Hma, Hta. unfold transactional, do_place_order.
    rewrite (ok_or_some_bind (Some who) who), gets_bind by done.
    rewrite (lift_ok_bind _ m) by done.
    rewrite !ensure_true_bind by (by rewrite bool_decide_true).
    assert (((if bool_decide (ma = base_asset m) then mret ta
       else _ ← ensure (bool_decide (ta = base_asset m)) OB_MarketBaseAssetNotPresent;
            mret ma) : Store (State C L) Asset) s =
       (Ok (if bool_decide (ma = base_asset m) then ta else ma), s)) as Hout.
    { destruct (bool_decide_reflect (ma = base_asset m)) as [_|Hne]; [done|].
      rewrite ensure_true_bind; [done|]. apply bool_decide_true. naive_solver. }
    rewrite (bind_ok _ _ _ _ _ Hout), ensure_true_bind.
    2:{ apply binary_search_outcome_assets.
        destruct (bool_decide_reflect (ma = base_asset m)); naive_solver. }
    rewrite !ensure_true_bind, gets_bind by done.
    erewrite lift_ok_bind by (apply checked_add_ok; done).
    erewrite bind_ok by (unfold zoom; by rewrite Hres). done.
Qed.
End Properties.

(** ** Examples *)
Module Example.
Definition chain : Type := State MarketCommons.State Ledger.
Definition alice : AccountId := 1.
Definition bob : AccountId := 2.
Definition creator : AccountId := 9.
Definition rid : ReserveIdentifier := "zge/ordb".

Definition the_market : Market :=
  mk_Market Ztg creator Permissionless 10000000 creator [] (MT_Categorical 3)
    (Block (mk_Range 0 100)) (mk_Deadlines 1 1 1) Types.Orderbook Active None None
    (Some MDM_Authorized) MarketBonds_default None.

#[export] Instance fees : DistributeFees MarketCommons.State Ledger :=
  MarketCreatorFee example_mul_floor.
#[export] Instance fees_laws : DistributeFeesLaws MarketCommons.State Ledger.
Proof.
  split. apply (market_creator_distribute_spec example_mul_floor example_mul_floor_le).
Qed.

Definition start : chain :=
  mk_State (MarketCommons.mk_State {[ 7 := the_market ]} (Some 8) ∅)
    (mk_Ledger {[ (CategoricalOutcome 7 0, alice) := 1000%N; (Ztg, bob) := 10000%N ]} ∅) 0 ∅ [].

(** Alice sells 900 shares for 700 units, Bob fills 400. *)
Definition placed : chain :=
  snd (place_order rid (Some alice) 7 (CategoricalOutcome 7 0) 900 Ztg 700 start).
Definition filled : chain := snd (fill_order rid (Some bob) 0 (Some 400) placed).
Definition the_order : Order := mk_Order 7 alice (CategoricalOutcome 7 0) 900 Ztg 700.
Definition the_rest : Order := mk_Order 7 alice (CategoricalOutcome 7 0) 386 Ztg 300.

Lemma minimum_positive a : 0 < minimum_balance (L := Ledger) a.
Proof. done. Qed.

Lemma start_genesis : genesis rid start.
Proof. by split. Qed.
Lemma placed_reachable : reachable rid placed.
Proof.
  exists start. split; [apply start_genesis|]. eapply rtc_l; [|apply rtc_refl].
  apply (step_place rid start (Some alice)).
Qed.
Lemma filled_reachable : reachable rid filled.
Proof.
  exists start. split; [apply start_genesis|]. eapply rtc_l; [|eapply rtc_l; [|apply rtc_refl]].
  - apply (step_place rid start (Some alice)).
  - apply (step_fill rid placed (Some bob) 0 (Some 400)).
Qed.

Lemma orders_funded_witness :
  Orders filled !! 0 = Some the_rest ∧
  reserved_balance_named rid (CategoricalOutcome 7 0) alice (assets filled)
    = held_by_orders (CategoricalOutcome 7 0) alice (Orders filled).
Proof.
  split; [vm_compute; reflexivity|].
  destruct (orders_funded rid minimum_positive filled filled_reachable) as [Hf _]. apply Hf.
Defined.

Lemma remove_order_returns_witness :
  fst (remove_order rid (Some alice) 0 filled) = Ok tt ∧
  remove_order rid (Some bob) 0 filled = (Err (Orderbook_Error OB_NotOrderCreator), filled).
Proof.
  split.
  - assert (Orders filled !! 0 = Some the_rest) as Ho by (vm_compute; reflexivity).
    destruct (remove_order_returns rid minimum_positive filled 0 the_rest alice filled_reachable Ho)
      as [Hr _]. exact Hr.
  - assert (Orders filled !! 0 = Some the_rest) as Ho by (vm_compute; reflexivity).
    exact (remove_order_returns rid minimum_positive filled 0 the_rest bob filled_reachable Ho).
Defined.

Lemma fill_effect_witness :
  let s' := snd (do_fill_order rid 0 bob (Some 400) placed) in
  ∃ taker_fill, taker_fill * 700 ≤ 400 * 900 ∧
    free_balance (CategoricalOutcome 7 0) bob (assets placed) + taker_fill
      ≤ free_balance (CategoricalOutcome 7 0) bob (assets s').
Proof.
  destruct (fill_effect rid minimum_positive placed (snd (do_fill_order rid 0 bob (Some 400) placed))
    0 bob (Some 400) the_order the_market placed_reachable)
    as (tf & fee & _ & _ & Hprice & _ & _ & _ & _ & Hgets & _);
    [vm_compute; reflexivity|reflexivity|done|done|vm_compute; reflexivity|].
  exists tf. split; [exact Hprice|].
  rewrite bool_decide_false, Z.sub_0_r in Hgets by done. exact Hgets.
Defined.
End Example.
