(* ===== verification/Migrations.v ===== *)
(** * Storage migrations

    The five migrations that the runtime executes on an upgrade
    ([runtime/common/src/lib.rs]): [MigratePools] ([zrml/swaps/src/migrations.rs]),
    [DrainDeprecatedStorage] ([zrml/prediction-markets/src/migrations.rs]),
    [MigrateScoringRuleAndMarketStatus] ([zrml/market-commons/src/migrations.rs]),
    [TranslateOrderStructure] ([zrml/orderbook/src/migrations.rs]) and
    [MigrateToLiquidityTree] ([zrml/neo-swaps/src/migration.rs]). Each checks the storage
    version of its pallet, translates every value of a map and sets the next version.
    Values are decoded storage: what does not decode in the old layout is not there. The
    weights the migrations return are not modelled. *)
From S2P Require Import Prelude Types Errors Fixed Currencies Ledgers MarketCommons Fees.
From S2P Require Import LiquidityTree LiquidityShares LiquidityAccrual FixedDecimal NeoMath Orderbook Swaps SwapsExample NeoSwaps NeoPools.

(** ** Versioned storage *)

(** The storage of a pallet is in its old layout or in its new one. *)
Record Versioned (Old New : Type) : Type := mk_Versioned { version : Z; stored : Old + New }.
Arguments mk_Versioned {Old New} _ _.
Arguments version {Old New} _.
Arguments stored {Old New} _.

(** The migration that starts at version [required]: the old layout belongs to it. *)
Definition proper {Old New} (required : Z) (v : Versioned Old New) : Prop :=
  version v = required ↔ ∃ o, stored v = inl o.

(** [on_runtime_upgrade]: the check of the version, the translation, the next version.
    Storage in the new layout under the required version is not proper. *)
Definition migrate {Old New} (required next : Z) (translate : Old → New) (v : Versioned Old New)
    : Versioned Old New :=
  if version v =? required then
    mk_Versioned next (match stored v with inl o => inr (translate o) | inr n => inr n end)
  else v.

(** [StorageMap::translate]: a value is replaced, or removed if the function says so. *)
Definition translate_map {K A B} `{Countable K} (f : A → option B) (m : gmap K A) : gmap K B := omap f m.

(** ** [MigrateScoringRuleAndMarketStatus] *)

Inductive OldScoringRule : Type := Old_CPMM | Old_RikiddoSigmoidFeeMarketEma | Old_Lmsr | Old_Orderbook | Old_Parimutuel.
#[export] Instance OldScoringRule_eq_dec : EqDecision OldScoringRule.
Proof. solve_decision. Defined.

Inductive OldMarketStatus : Type :=
| Old_Proposed | Old_Active | Old_Suspended | Old_Closed | Old_CollectingSubsidy
| Old_InsufficientSubsidy | Old_Reported | Old_Disputed | Old_Resolved.

Record OldMarket : Type := mk_OldMarket {
  old_base_asset : Asset;
  old_creator : AccountId;
  old_creation : MarketCreation;
  old_creator_fee : Perbill;
  old_oracle : AccountId;
  old_metadata : list Z;
  old_market_type : MarketType;
  old_period : MarketPeriod;
  old_deadlines : Deadlines;
  old_scoring_rule : OldScoringRule;
  old_status : OldMarketStatus;
  old_report : option Report;
  old_resolved_outcome : option OutcomeReport;
  old_dispute_mechanism : option MarketDisputeMechanism;
  old_bonds : MarketBonds;
  old_early_close : option EarlyClose;
}.

Definition MARKET_COMMONS_REQUIRED_STORAGE_VERSION : Z := 9.
Definition MARKET_COMMONS_NEXT_STORAGE_VERSION : Z := 10.

Definition translate_scoring_rule (r : OldScoringRule) : option ScoringRule :=
  match r with
  | Old_RikiddoSigmoidFeeMarketEma => None
  | Old_CPMM | Old_Lmsr => Some Lmsr
  | Old_Orderbook => Some Types.Orderbook
  | Old_Parimutuel => Some Types.Parimutuel
  end.
Definition translate_status (st : OldMarketStatus) : option MarketStatus :=
  match st with
  | Old_Proposed => Some Proposed
  | Old_Active => Some Active
  | Old_Suspended => None
  | Old_Closed => Some Types.Closed
  | Old_CollectingSubsidy => None
  | Old_InsufficientSubsidy => None
  | Old_Reported => Some Reported
  | Old_Disputed => Some Disputed
  | Old_Resolved => Some Resolved
  end.
Definition translate_market (o : OldMarket) : option Market :=
  rule ← translate_scoring_rule (old_scoring_rule o);
  st ← translate_status (old_status o);
  Some {|
    base_asset := old_base_asset o; creator := old_creator o; creation := old_creation o;
    creator_fee := old_creator_fee o; oracle := old_oracle o; metadata := old_metadata o;
    market_type := old_market_type o; period := old_period o; deadlines := old_deadlines o;
    scoring_rule := rule; Types.status := st; report := old_report o;
    resolved_outcome := old_resolved_outcome o; dispute_mechanism := old_dispute_mechanism o;
    bonds := old_bonds o; early_close := old_early_close o |}.

Definition MarketStorage : Type := Versioned (gmap MarketId OldMarket) (gmap MarketId Market).
Definition migrate_markets : MarketStorage → MarketStorage :=
  migrate MARKET_COMMONS_REQUIRED_STORAGE_VERSION MARKET_COMMONS_NEXT_STORAGE_VERSION
    (translate_map translate_market).

(** The check after the upgrade: the number of markets. *)
Definition post_upgrade_markets (before : gmap MarketId OldMarket) (after : gmap MarketId Market) : bool :=
  (size before =? size after)%nat.

(** ** [TranslateOrderStructure] *)

Inductive OldOrderSide : Type := Bid | Ask.
Record OldOrder : Type := mk_OldOrder {
  oo_market_id : MarketId;
  oo_side : OldOrderSide;
  oo_maker : AccountId;
  oo_outcome_asset : Asset;
  oo_base_asset : Asset;
  oo_outcome_asset_amount : Balance;
  oo_base_asset_amount : Balance;
}.

Definition ORDER_BOOK_REQUIRED_STORAGE_VERSION : Z := 0.
Definition ORDER_BOOK_NEXT_STORAGE_VERSION : Z := 1.

Definition translate_order (o : OldOrder) : option Order :=
  let '(maker_asset, maker_amount, taker_asset, taker_amount) :=
    match oo_side o with
    | Bid => (oo_base_asset o, oo_base_asset_amount o, oo_outcome_asset o, oo_outcome_asset_amount o)
    | Ask => (oo_outcome_asset o, oo_outcome_asset_amount o, oo_base_asset o, oo_base_asset_amount o)
    end in
  Some (mk_Order (oo_market_id o) (oo_maker o) maker_asset maker_amount taker_asset taker_amount).

Definition OrderStorage : Type := Versioned (gmap OrderId OldOrder) (gmap OrderId Order).
Definition migrate_orders : OrderStorage → OrderStorage :=
  migrate ORDER_BOOK_REQUIRED_STORAGE_VERSION ORDER_BOOK_NEXT_STORAGE_VERSION (translate_map translate_order).

(** ** [MigrateToLiquidityTree] *)

Record OldNeoPool : Type := mk_OldNeoPool {
  on_account_id : AccountId;
  on_reserves : list (Asset * Balance);
  on_collateral : Asset;
  on_liquidity_parameter : Balance;
  on_solo : SoloLp;
  on_swap_fee : Balance;
}.

Definition NEO_SWAPS_REQUIRED_STORAGE_VERSION : Z := 0.
Definition NEO_SWAPS_NEXT_STORAGE_VERSION : Z := 1.

Section NeoSwapsMigration.
Context (max_depth : Z).

Definition translate_solo (solo : SoloLp) : option LiquidityTree :=
  match new max_depth (owner solo) (solo_total_shares solo) with
  | Err _ => None
  | Ok tree =>
      root ← nodes tree !! 0%nat;
      Some (set_nodes (<[0%nat := set_fees (solo_fees solo) root]> (nodes tree)) tree)
  end.
Definition translate_neo_pool (o : OldNeoPool) : option NeoSwaps.Pool :=
  liquidity_tree ← translate_solo (on_solo o);
  Some (NeoSwaps.mk_Pool (on_account_id o) (on_reserves o) (on_collateral o) (on_liquidity_parameter o)
          liquidity_tree (on_swap_fee o)).

Definition NeoStorage : Type := Versioned (gmap MarketId OldNeoPool) (gmap MarketId NeoSwaps.Pool).
Definition migrate_neo_pools : NeoStorage → NeoStorage :=
  migrate NEO_SWAPS_REQUIRED_STORAGE_VERSION NEO_SWAPS_NEXT_STORAGE_VERSION (translate_map translate_neo_pool).
End NeoSwapsMigration.

(** ** [MigratePools] *)

Inductive OldPoolStatus : Type := OP_Active | OP_CollectingSubsidy | OP_Closed | OP_Clean | OP_Initialized.

Record OldPool : Type := mk_OldPool {
  op_assets : list Asset;
  op_base_asset : Asset;
  op_market_id : MarketId;
  op_pool_status : OldPoolStatus;
  op_scoring_rule : OldScoringRule;
  op_swap_fee : option Balance;
  op_total_subsidy : option Balance;
  op_total_weight : option Z;
  op_weights : option (gmap Asset Z);
}.

Definition SWAPS_REQUIRED_STORAGE_VERSION : Z := 3.
Definition SWAPS_NEXT_STORAGE_VERSION : Z := 4.

(** The pools, and the storages that the migration empties. *)
Record SwapsStorage (P : Type) : Type := mk_SwapsStorage {
  swaps_pools : gmap PoolId P;
  SubsidyProviders : gmap (PoolId * AccountId) Balance;
  PoolsCachedForArbitrage : gset PoolId;
}.
Arguments mk_SwapsStorage {P} _ _ _.
Arguments swaps_pools {P} _.
Arguments SubsidyProviders {P} _.
Arguments PoolsCachedForArbitrage {P} _.

Section SwapsMigration.
Context `{SwapsConfig}.

Definition translate_pool_status (st : OldPoolStatus) : option PoolStatus :=
  match st with
  | OP_Active => Some Swaps.Closed
  | OP_CollectingSubsidy => None
  | OP_Closed => Some Swaps.Closed
  | OP_Clean => Some Swaps.Closed
  | OP_Initialized => Some Swaps.Closed
  end.

(** The bounds of [try_into] on vectors and maps. *)
Definition bounded {A} (size : nat) (x : A) : option A :=
  if Z.of_nat size <=? MaxAssets then Some x else None.

Definition translate_pool (opt_old_pool : option OldPool) : option Swaps.Pool :=
  old_pool ← opt_old_pool;
  if decide (op_scoring_rule old_pool ≠ Old_CPMM) then None
  else
    assets ← bounded (length (op_assets old_pool)) (op_assets old_pool);
    status ← translate_pool_status (op_pool_status old_pool);
    swap_fee ← op_swap_fee old_pool;
    weights_unbounded ← op_weights old_pool;
    weights ← bounded (size weights_unbounded) weights_unbounded;
    total_weight ← op_total_weight old_pool;
    Some (Swaps.mk_Pool assets status swap_fee total_weight weights).

Definition PoolStorage : Type := Versioned (SwapsStorage (option OldPool)) (SwapsStorage Swaps.Pool).
Definition migrate_pools : PoolStorage → PoolStorage :=
  migrate SWAPS_REQUIRED_STORAGE_VERSION SWAPS_NEXT_STORAGE_VERSION
    (λ s, mk_SwapsStorage (translate_map translate_pool (swaps_pools s)) ∅ ∅).

(** The checks after the upgrade: the number of pools, the emptied storages. *)
Definition post_upgrade_pools (before : SwapsStorage (option OldPool)) (after : SwapsStorage Swaps.Pool) : bool :=
  (size (swaps_pools before) =? size (swaps_pools after))%nat &&
  bool_decide (PoolsCachedForArbitrage after = ∅) && bool_decide (SubsidyProviders after = ∅).
End SwapsMigration.

(** ** [DrainDeprecatedStorage] *)

(** [SubsidyUntil] *)
Record SubsidyUntil : Type := mk_SubsidyUntil { su_market_id : MarketId; su_period : MarketPeriod }.

(** Storages of the prediction markets pallet that nothing uses any more. *)
Record DeprecatedStorage : Type := mk_DeprecatedStorage {
  MarketIdsPerOpenBlock : gmap BlockNumber (list MarketId);
  MarketIdsPerOpenTimeFrame : gmap Z (list MarketId);
  MarketsCollectingSubsidy : list SubsidyUntil;
}.

Definition PREDICTION_MARKETS_REQUIRED_STORAGE_VERSION : Z := 7.
Definition PREDICTION_MARKETS_NEXT_STORAGE_VERSION : Z := 8.

(** The layout stays; [inr] is the storage after the drain. *)
Definition DeprecatedMarketStorage : Type := Versioned DeprecatedStorage DeprecatedStorage.
Definition drain_deprecated_storage : DeprecatedMarketStorage → DeprecatedMarketStorage :=
  migrate PREDICTION_MARKETS_REQUIRED_STORAGE_VERSION PREDICTION_MARKETS_NEXT_STORAGE_VERSION
    (λ _, mk_DeprecatedStorage ∅ ∅ []).

(** ** The upgrade *)

Record ChainStorage : Type := mk_ChainStorage {
  cs_swaps : PoolStorage;
  cs_prediction_markets : DeprecatedMarketStorage;
  cs_market_commons : MarketStorage;
  cs_orderbook : OrderStorage;
  cs_neo_swaps : NeoStorage;
}.

Section Upgrade.
Context `{SwapsConfig} (max_depth : Z).

(** [Migrations], in the order of the tuple. *)
Definition run_migrations (s : ChainStorage) : ChainStorage :=
  let s := mk_ChainStorage (migrate_pools (cs_swaps s)) (cs_prediction_markets s)
             (cs_market_commons s) (cs_orderbook s) (cs_neo_swaps s) in
  let s := mk_ChainStorage (cs_swaps s) (drain_deprecated_storage (cs_prediction_markets s))
             (cs_market_commons s) (cs_orderbook s) (cs_neo_swaps s) in
  let s := mk_ChainStorage (cs_swaps s) (cs_prediction_markets s)
             (migrate_markets (cs_market_commons s)) (cs_orderbook s) (cs_neo_swaps s) in
  let s := mk_ChainStorage (cs_swaps s) (cs_prediction_markets s)
             (cs_market_commons s) (migrate_orders (cs_orderbook s)) (cs_neo_swaps s) in
  mk_ChainStorage (cs_swaps s) (cs_prediction_markets s)
    (cs_market_commons s) (cs_orderbook s) (migrate_neo_pools max_depth (cs_neo_swaps s)).

Definition proper_chain (s : ChainStorage) : Prop :=
  proper SWAPS_REQUIRED_STORAGE_VERSION (cs_swaps s) ∧
  proper PREDICTION_MARKETS_REQUIRED_STORAGE_VERSION (cs_prediction_markets s) ∧
  proper MARKET_COMMONS_REQUIRED_STORAGE_VERSION (cs_market_commons s) ∧
  proper ORDER_BOOK_REQUIRED_STORAGE_VERSION (cs_orderbook s) ∧
  proper NEO_SWAPS_REQUIRED_STORAGE_VERSION (cs_neo_swaps s).

(** Everything is in the new layout. *)
Definition upgraded (s : ChainStorage) : Prop :=
  (∃ x, stored (cs_swaps s) = inr x) ∧ (∃ x, stored (cs_prediction_markets s) = inr x) ∧
  (∃ x, stored (cs_market_commons s) = inr x) ∧ (∃ x, stored (cs_orderbook s) = inr x) ∧
  (∃ x, stored (cs_neo_swaps s) = inr x).
End Upgrade.

(** ** Theorems: one migration *)

Section Migrate.
Context {Old New : Type} (required next : Z) (f : Old → New).
Context (Hnext : next ≠ required).
Implicit Types v : Versioned Old New.

Lemma migrate_idempotent v : migrate required next f (migrate required next f v) = migrate required next f v.
Proof.
  unfold migrate at 2 3. destruct (Z.eqb_spec (version v) required) as [E|E]; unfold migrate; cbn [version].
  - by destruct (Z.eqb_spec next required).
  - by destruct (Z.eqb_spec (version v) required).
Qed.

Lemma migrate_old v o :
  proper required v → stored v = inl o → migrate required next f v = mk_Versioned next (inr (f o)).
Proof.
  intros [_ Hp] Ho. unfold migrate. rewrite Ho. rewrite (proj2 (Z.eqb_eq _ _)) by eauto. done.
Qed.

Lemma migrate_new v n : proper required v → stored v = inr n → migrate required next f v = v.
Proof.
  intros [Hp _] Hn. unfold migrate. destruct (Z.eqb_spec (version v) required) as [E|]; [|done].
  apply Hp in E as [o Ho]. congruence.
Qed.

Lemma migrate_proper v : proper required v →
  proper required (migrate required next f v) ∧ ∃ n, stored (migrate required next f v) = inr n.
Proof.
  intros Hp. destruct (stored v) as [o|n] eqn:Hs.
  - rewrite (migrate_old v o) by done. cbn. split; [|by eexists]. split; [done|by intros [? ?]].
  - rewrite (migrate_new v n) by done. split; [done|by exists n].
Qed.
End Migrate.

Lemma size_omap {K A B} `{Countable K} (f : A → option B) (m : gmap K A) :
  (size (translate_map f m) ≤ size m)%nat ∧
  (size (translate_map f m) = size m ↔ ∀ k x, m !! k = Some x → is_Some (f x)).
Proof.
  unfold translate_map. induction m as [|k x m Hk IH] using map_ind.
  - rewrite omap_empty, map_size_empty. split; [done|]. split; [|done]. intros _ k x. by rewrite lookup_empty.
  - assert (Hk' : omap f m !! k = None) by by rewrite lookup_omap, Hk.
    destruct IH as [IH1 IH2]. rewrite map_size_insert_None by done. destruct (f x) as [y|] eqn:Hf.
    + rewrite (omap_insert_Some f m k x y Hf), map_size_insert_None by done. split; [lia|]. split.
      * intros Hs. assert (∀ k x, m !! k = Some x → is_Some (f x)) as Hall by (apply IH2; lia).
        intros k' x' [[<- <-]|[_ Hx]]%lookup_insert_Some; [by eexists|by eapply Hall].
      * intros Hall. f_equal. apply IH2. intros k' x' Hx. apply (Hall k'). rewrite lookup_insert_ne; [done|]. congruence.
    + rewrite (omap_insert_None f m k x Hf), delete_id by done. split; [lia|]. split; [lia|].
      intros Hall. specialize (Hall k x (lookup_insert_eq _ _ _)). rewrite Hf in Hall. by destruct Hall.
Qed.

Lemma chain_storage_eq s t :
  cs_swaps s = cs_swaps t → cs_prediction_markets s = cs_prediction_markets t →
  cs_market_commons s = cs_market_commons t → cs_orderbook s = cs_orderbook t →
  cs_neo_swaps s = cs_neo_swaps t → s = t.
Proof. destruct s, t. cbn [cs_swaps cs_prediction_markets cs_market_commons cs_orderbook cs_neo_swaps]. congruence. Qed.

(** ** Theorems: markets and pools of the swaps pallet *)

(** What [translate_market] removes. *)
Definition market_dropped (o : OldMarket) : Prop :=
  old_scoring_rule o = Old_RikiddoSigmoidFeeMarketEma ∨
  old_status o = Old_Suspended ∨ old_status o = Old_CollectingSubsidy ∨ old_status o = Old_InsufficientSubsidy.

Lemma translate_market_None o : translate_market o = None ↔ market_dropped o.
Proof.
  unfold translate_market, market_dropped.
  destruct (old_scoring_rule o); cbn; try naive_solver; destruct (old_status o); cbn; naive_solver.
Qed.

(** The check after the upgrade compares the numbers of markets before and after: it
    fails exactly when the migration has removed a market, as it is meant to. *)
Theorem post_upgrade_markets_spec before :
  post_upgrade_markets before (translate_map translate_market before) = true ↔
  ∀ id o, before !! id = Some o → ¬ market_dropped o.
Proof.
  unfold post_upgrade_markets. rewrite Nat.eqb_eq.
  pose proof (size_omap translate_market before) as [_ Hs]. split.
  - intros He id o Ho Hd%translate_market_None. pose proof (proj1 Hs (eq_sym He) id o Ho) as Hi.
    rewrite Hd in Hi. by destruct Hi.
  - intros Hno. symmetry. apply Hs. intros id o Ho.
    destruct (translate_market o) as [m|] eqn:Hm; [by eexists|]. by apply translate_market_None, (Hno id) in Hm.
Qed.

(** Every pool that is left of the swaps pallet is closed. *)
Lemma translate_pool_closed `{SwapsConfig} o p : translate_pool o = Some p → status p = Swaps.Closed.
Proof.
  unfold translate_pool. intros (old & _ & Hp)%bind_Some. destruct (decide _); [done|].
  apply bind_Some in Hp as (? & _ & Hp). apply bind_Some in Hp as (st & Hst & Hp).
  apply bind_Some in Hp as (? & _ & Hp). apply bind_Some in Hp as (? & _ & Hp).
  apply bind_Some in Hp as (? & _ & Hp). apply bind_Some in Hp as (? & _ & [= <-]).
  cbn. destruct (op_pool_status old); by inversion Hst.
Qed.

(** ** Theorems: orders *)
Section OrderFunds.

(** What an old order holds of the asset [a] of account [x]: bids hold base asset, asks
    hold outcome tokens. *)
Definition old_held (a : Asset) (x : AccountId) (o : OldOrder) : Balance :=
  match oo_side o with
  | Bid => at_ (oo_base_asset o, oo_maker o) (a, x) (oo_base_asset_amount o)
  | Ask => at_ (oo_outcome_asset o, oo_maker o) (a, x) (oo_outcome_asset_amount o)
  end.
Definition old_held_by_orders (a : Asset) (x : AccountId) (m : gmap OrderId OldOrder) : Balance :=
  map_sum (λ _, old_held a x) m.
Definition old_asked (o : OldOrder) : Asset * Balance :=
  match oo_side o with
  | Bid => (oo_outcome_asset o, oo_outcome_asset_amount o)
  | Ask => (oo_base_asset o, oo_base_asset_amount o)
  end.
Definition old_offered (o : OldOrder) : Balance :=
  match oo_side o with Bid => oo_base_asset_amount o | Ask => oo_outcome_asset_amount o end.

Lemma translate_order_spec a x o : ∃ o', translate_order o = Some o' ∧
  held a x o' = old_held a x o ∧ maker_amount o' = old_offered o ∧
  (taker_asset o', taker_amount o') = old_asked o.
Proof. unfold translate_order, held, old_held, old_offered, old_asked. destruct (oo_side o); by eexists. Qed.

Lemma held_translated a x m :
  held_by_orders a x (translate_map translate_order m) = old_held_by_orders a x m.
Proof.
  unfold translate_map, held_by_orders, old_held_by_orders.
  induction m as [|id o m Hid IH] using map_ind; [done|].
  destruct (translate_order_spec a x o) as (o' & Ho & Hh & _).
  assert (omap translate_order m !! id = None) by by rewrite lookup_omap, Hid.
  by rewrite (omap_insert_Some _ _ _ _ _ Ho), !map_sum_insert, Hh, IH.
Qed.
End OrderFunds.

(** ** Theorems: liquidity *)
Section LiquidityMigration.
Context (d : Z) (Hd : 0 ≤ d).

Lemma max_node_count_pos : 1 ≤ max_node_count d.
Proof.
  unfold max_node_count, saturating_sub. assert (2 ^ 1 ≤ 2 ^ (d + 1)) by (apply Z.pow_le_mono_r; lia).
  assert (2 ≤ u32_max) by done. lia.
Qed.

(** The tree is one node, which holds everything; the migration never deletes a pool. *)
Lemma translate_solo_tree m :
  translate_solo d m =
  Some (mk_LiquidityTree [set_fees (solo_fees m) (Node_new (owner m) (solo_total_shares m))] {[owner m := 0]} []).
Proof.
  unfold translate_solo, new. pose proof max_node_count_pos.
  destruct (Z.leb_spec 1 (max_node_count d)); [|lia]. by destruct (Z.ltb_spec 0 (max_node_count d)); [|lia].
Qed.

Lemma new_tree m :
  new d (owner m) (solo_total_shares m) =
  Ok (mk_LiquidityTree [Node_new (owner m) (solo_total_shares m)] {[owner m := 0]} []).
Proof.
  unfold new. pose proof max_node_count_pos.
  destruct (Z.leb_spec 1 (max_node_count d)); [|lia]. by destruct (Z.ltb_spec 0 (max_node_count d)); [|lia].
Qed.

(** Whatever the single provider stood for, the tree that replaces it stands for. *)
Lemma translate_solo_stands m c t :
  solo_stands_for m c → translate_solo d m = Some t → tree_stands_for d t c ∧ total_fees t = solo_fees m.
Proof.
  intros ([Hu _] & Hf & Hi & Hh) Ht. rewrite translate_solo_tree in Ht. injection Ht as <-.
  destruct (new_inv d (owner m) (solo_total_shares m) _ Hu (new_tree m)) as (Hinv & H0 & Hs & Hsh).
  set (t0 := mk_LiquidityTree [Node_new _ _] _ _) in *.
  set (t := mk_LiquidityTree [set_fees _ _] _ _) in *.
  assert (total_fees t = solo_fees m) as Htot by (unfold total_fees, owed; cbn; lia).
  assert (fee_step t0 t (solo_fees m)) as Hstep.
  { split; [done| |rewrite Htot, H0; lia]. constructor; [|constructor]. unfold nonneg_node. cbn. lia. }
  destruct (fee_step_inv d t0 t _ Hstep Hinv) as (Hinv' & Hs' & Hsh'). split; [|done].
  split; [done|]. split; [|split].
  - intros w. by rewrite Hsh', Hsh, Hh.
  - by rewrite Hs', Hs.
  - rewrite Htot. apply Hf.
Qed.
(** The fees of the provider are in its node, and can be withdrawn at once. *)
Lemma translate_solo_accrued m t : translate_solo d m = Some t → accrued t (owner m) (solo_fees m).
Proof.
  rewrite translate_solo_tree. intros [= <-]. eexists 0, _. cbn. rewrite lookup_singleton_eq. by split.
Qed.
End LiquidityMigration.

Section NeoPoolMigration.
Context {C L : Type} `{MarketCommonsPalletApi C, AssetManager L}.
Context (d : Z) (pool_account_id : MarketId → AccountId).

(** [pool_backed] for a pool of a single provider. *)
Record old_pool_backed (c : C) (l : L) (id : MarketId) (o : OldNeoPool) : Prop := {
  ob_account : on_account_id o = pool_account_id id;
  ob_solo : in_u128 (solo_total_shares (on_solo o)) ∧ in_u128 (solo_fees (on_solo o));
  ob_fees : solo_fees (on_solo o) ≤ free_balance (on_collateral o) (on_account_id o) l;
  ob_reserves a r : (a, r) ∈ on_reserves o → 0 ≤ r ≤ free_balance a (on_account_id o) l;
  ob_nodup : NoDup (on_reserves o).*1;
  ob_collateral : on_collateral o ∉ (on_reserves o).*1;
  ob_fee : MIN_SWAP_FEE ≤ on_swap_fee o;
  ob_market m : api_market id c = Ok m →
    base_asset m = on_collateral o ∧ ∀ a, a ∈ (on_reserves o).*1 ↔ a ∈ outcomes_of id m;
}.

(** The contract a pool of a single provider stands for. *)
Definition solo_contract (m : SoloLp) : Contract := mk_Contract {[owner m := solo_total_shares m]} (solo_fees m).

Lemma solo_contract_stands m :
  in_u128 (solo_total_shares m) → 0 ≤ solo_fees m → solo_stands_for m (solo_contract m).
Proof.
  intros Hu Hf. split; [done|]. split; [cbn; lia|]. split.
  - unfold issuance. cbn. rewrite <- insert_empty, map_sum_insert, map_sum_empty by done. lia.
  - intros w. unfold holding. cbn. destruct (decide (w = owner m)) as [->|].
    + by rewrite lookup_singleton_eq.
    + by rewrite lookup_singleton_ne.
Qed.

Lemma translated_pool_backed c l id o p :
  0 ≤ d → old_pool_backed c l id o → translate_neo_pool d o = Some p → pool_backed d pool_account_id c l id p.
Proof.
  intros Hd [? [Hu Hf] Hfree ? ? ? ? ?] Hp. unfold translate_neo_pool in Hp.
  apply bind_Some in Hp as (t & Ht & [= <-]).
  destruct (translate_solo_stands d Hd (on_solo o) _ t (solo_contract_stands _ Hu (proj1 Hf)) Ht) as [Hst Htot].
  split; try done; cbn; [apply Hst|by rewrite Htot].
Qed.
End NeoPoolMigration.

(** ** Properties *)

(** The upgrade runs once: it brings every pallet from its old layout to the new one
    and to the next version, leaves alone what is at another version, and running the
    migrations again - as every block of the new runtime version would, were they not
    guarded - changes nothing. *)
Theorem migrations_run_once `{SwapsConfig} d s :
  proper_chain s →
  let s' := run_migrations d s in
  proper_chain s' ∧ upgraded s' ∧ run_migrations d s' = s' ∧
  (upgraded s → s' = s).
Proof.
  intros (H1 & H2 & H3 & H4 & H5) s'. subst s'.
  split; [|split; [|split]].
  - repeat split; by apply migrate_proper.
  - repeat split; by apply migrate_proper.
  - apply chain_storage_eq; by apply migrate_idempotent.
  - intros ([? ?] & [? ?] & [? ?] & [? ?] & [? ?]).
    apply chain_storage_eq; by eapply migrate_new.
Qed.

(** (C18) The order book stays funded across the upgrade: if the reserves held exactly what the
    bids and asks of the old layout offered, then after the translation and any calls
    made since, they hold exactly what the open orders offer. *)
Theorem migrated_orders_funded {C L : Type} `{MarketCommonsPalletApi C, AssetManager L, DistributeFees C L}
    `{!AssetManagerLaws L, !DistributeFeesLaws C L} (reserve_id : ReserveIdentifier)
    (v : OrderStorage) (old : gmap OrderId OldOrder) (s0 s : Orderbook.State C L) :
  (∀ a, 0 < minimum_balance a) →
  version v = ORDER_BOOK_REQUIRED_STORAGE_VERSION → stored v = inl old →
  (∀ a x, reserved_balance_named reserve_id a x (Orderbook.assets s0) = old_held_by_orders a x old) →
  (∀ id o, old !! id = Some o → 0 < old_offered o ∧
    minimum_balance (old_asked o).1 ≤ (old_asked o).2 ∧ 0 ≤ id < NextOrderId s0) →
  0 ≤ NextOrderId s0 ≤ u128_max →
  stored (migrate_orders v) = inr (Orders s0) →
  rtc (Orderbook.step reserve_id) s0 s →
  ∀ a x, reserved_balance_named reserve_id a x (Orderbook.assets s) = held_by_orders a x (Orders s).
Proof.
  intros Hmin Hv Hold Hres Hopen Hnext Hnew Hrun.
  assert (Orders s0 = translate_map translate_order old) as Ho.
  { unfold migrate_orders, migrate in Hnew. rewrite Hv, Hold in Hnew. cbn in Hnew. congruence. }
  assert (Orderbook.Inv reserve_id s0) as Hinv.
  { split; rewrite ?Ho.
    - intros a x. by rewrite held_translated.
    - intros id o' Hid. unfold translate_map in Hid. apply lookup_omap_Some in Hid as (o & Ht & Hid).
      destruct (translate_order_spec (taker_asset o') 0 o) as (o'' & Ht' & _ & Hoff & Hask).
      assert (o'' = o') as -> by congruence. destruct (Hopen id o Hid) as (? & Hm & _).
      rewrite <- Hask in Hm. cbn in Hm. lia.
    - intros id [o' Hid]. unfold translate_map in Hid. apply lookup_omap_Some in Hid as (o & _ & Hid).
      by apply (Hopen id o).
    - done. }
  clear - Hmin Hinv Hrun AssetManagerLaws0 DistributeFeesLaws0. intros a x. apply inv_funded.
  induction Hrun as [|s1 s2 s3 Hstep _ IH]; [done|]. apply IH. by eapply orders_step_Inv.
Qed.

(** (C17) The single provider of a pool loses nothing. The tree that replaces it gives, to any
    requests in any order, answers that the contract of liquidity managers allows from
    the shares and fees the provider had. Asked at once, it pays the provider exactly
    the fees that had accrued, as the old manager would; and whatever else is requested
    before, a withdrawal of the provider that succeeds still pays them all. The pool
    keeps its account, reserves, collateral, liquidity and fee, and stays backed. *)
Theorem migrated_pool_refines {C L : Type} `{MarketCommonsPalletApi C, AssetManager L} d pool_account_id
    (c : C) (l : L) id (o : OldNeoPool) rs :
  0 ≤ d < u32_max → old_pool_backed pool_account_id c l id o → Forall valid_request rs →
  let solo := on_solo o in
  let withdrawal := WithdrawFees (owner solo) in
  ∃ p con, translate_neo_pool d o = Some p ∧ pool_backed d pool_account_id c l id p ∧
    let tree := liquidity_shares_manager p in
    let after := @converse _ (LiquidityTree_manager d) rs tree in
    conversation rs after.1 (solo_contract solo) con ∧
    (@respond _ (LiquidityTree_manager d) withdrawal tree).1 = (respond withdrawal solo).1 ∧
    (respond withdrawal solo).1 = Amount (solo_fees solo) ∧
    (withdrawal ∉ rs → ∀ x,
       (@respond _ (LiquidityTree_manager d) withdrawal after.2).1 = Amount x → solo_fees solo ≤ x) ∧
    account_id p = on_account_id o ∧ reserves p = on_reserves o ∧ collateral p = on_collateral o ∧
    liquidity_parameter p = on_liquidity_parameter o ∧ NeoSwaps.swap_fee p = on_swap_fee o.
Proof.
  intros Hd Hb Hrs solo withdrawal. pose proof (ob_solo _ _ _ _ _ Hb) as [Hu Hf]. fold solo in Hu, Hf.
  pose proof (solo_contract_stands _ Hu (proj1 Hf)) as Hsolo.
  assert (∃ p, translate_neo_pool d o = Some p ∧ translate_solo d solo = Some (liquidity_shares_manager p) ∧
    liquidity_shares_manager p =
      mk_LiquidityTree [set_fees (solo_fees solo) (Node_new (owner solo) (solo_total_shares solo))] {[owner solo := 0]} [] ∧
    account_id p = on_account_id o ∧ reserves p = on_reserves o ∧ collateral p = on_collateral o ∧
    liquidity_parameter p = on_liquidity_parameter o ∧ NeoSwaps.swap_fee p = on_swap_fee o)
    as (p & Hp & Ht & Htree & Hfields).
  { unfold translate_neo_pool. fold solo. rewrite translate_solo_tree by lia. by eexists. }
  destruct (translate_solo_stands d (proj1 Hd) _ _ _ Hsolo Ht) as [Hst _].
  destruct (@converse_promises _ (LiquidityTree_manager d) (tree_stands_for d) _ rs _ _ Hrs Hst) as (con & Hc & Hst').
  assert ((respond withdrawal solo).1 = Amount (solo_fees solo)) as Hsolo_pays.
  { cbn [respond withdrawal lsm_withdraw_fees SoloLp_manager]. unfold solo_withdraw_fees.
    by rewrite gets_bind, Z.eqb_refl. }
  exists p, con. split; [done|]. split; [eapply translated_pool_backed; [apply Hd|done..]|]. cbv zeta. split; [done|].
  rewrite Hsolo_pays. split; [|split; [done|split; [|done]]].
  - destruct (single_withdraw d (owner solo) (solo_total_shares solo) (solo_fees solo) Hd Hu Hf) as (t' & Hw).
    cbn [LiquidityShares.respond withdrawal lsm_withdraw_fees LiquidityTree_manager]. by rewrite Htree, Hw.
  - intros Hnot x Hx. destruct (Z.eq_dec (solo_fees solo) 0) as [->|Hne].
    + destruct (@respond_promises _ (LiquidityTree_manager d) (tree_stands_for d) _ withdrawal _ _ I Hst')
        as (con' & Hpr & _). rewrite Hx in Hpr. inversion Hpr; lia.
    + apply (converse_withdraw d rs (liquidity_shares_manager p) (solo_contract solo) (owner solo) (solo_fees solo) x);
        [done..|unfold in_u128 in Hf; lia|apply (translate_solo_accrued d); [lia|done]|done].
Qed.

(** ** An upgrade *)
Module MigrationExample.
#[local] Existing Instances SwapsExample.config Orderbook.Example.fees Orderbook.Example.fees_laws.
Abbreviation alice := Orderbook.Example.alice.

Definition old_market (rule : OldScoringRule) (st : OldMarketStatus) : OldMarket :=
  mk_OldMarket Ztg 9 Permissionless 10000000 9 [] (MT_Categorical 3) (Block (mk_Range 0 100))
    (mk_Deadlines 1 1 1) rule st None None (Some MDM_Authorized) MarketBonds_default None.
Definition old_order : OldOrder := mk_OldOrder 7 Ask alice (CategoricalOutcome 7 0) Ztg 900 700.
Definition old_pool (rule : OldScoringRule) (st : OldPoolStatus) : OldPool :=
  mk_OldPool [CategoricalOutcome 7 0; Ztg] Ztg 7 st rule (Some 5) None (Some (2 * BASE))
    (Some {[ CategoricalOutcome 7 0 := BASE; Ztg := BASE ]}).
Definition old_neo_pool : OldNeoPool :=
  mk_OldNeoPool 77 [(CategoricalOutcome 8 0, 40); (CategoricalOutcome 8 1, 60)] Ztg 5
    (mk_SoloLp alice (60 * BASE) 8) (BASE / 100).

Definition before : ChainStorage := {|
  cs_swaps := mk_Versioned 3 (inl (mk_SwapsStorage
    {[ 0 := Some (old_pool Old_CPMM OP_Active);
       1 := Some (old_pool Old_RikiddoSigmoidFeeMarketEma OP_CollectingSubsidy) ]}
    {[ (1, alice) := 100 ]} {[ 0 ]}));
  cs_prediction_markets := mk_Versioned 7 (inl (mk_DeprecatedStorage {[ 1 := [1; 2; 3] ]} {[ 2 := [4; 5; 6] ]}
    [mk_SubsidyUntil 7 (Block (mk_Range 8 9))]));
  cs_market_commons := mk_Versioned 9 (inl
    {[ 7 := old_market Old_CPMM Old_Active; 8 := old_market Old_RikiddoSigmoidFeeMarketEma Old_CollectingSubsidy ]});
  cs_orderbook := mk_Versioned 0 (inl {[ 0 := old_order ]});
  cs_neo_swaps := mk_Versioned 0 (inl {[ 8 := old_neo_pool ]}) |}.
Definition after : ChainStorage := run_migrations 4 before.

Lemma before_proper : proper_chain before.
Proof. repeat split; cbn; eauto. Defined.

Lemma migrations_run_once_witness :
  proper_chain after ∧ upgraded after ∧ run_migrations 4 after = after ∧ (upgraded before → after = before).
Proof. apply (migrations_run_once 4 before before_proper). Defined.

(** The active pool is closed, the other one removed; one market is left. *)
Example pools_after : stored (cs_swaps after) =
  inr (mk_SwapsStorage {[ 0 := Swaps.mk_Pool [CategoricalOutcome 7 0; Ztg] Swaps.Closed 5 (2 * BASE)
                                 {[ CategoricalOutcome 7 0 := BASE; Ztg := BASE ]} ]} ∅ ∅).
Proof. vm_compute. reflexivity. Qed.

(** The check after the upgrade fails when the migration does what it is for. *)
Example post_upgrade_fails :
  let old := {[ 7 := old_market Old_CPMM Old_Active;
                8 := old_market Old_RikiddoSigmoidFeeMarketEma Old_CollectingSubsidy ]} in
  post_upgrade_markets old (translate_map translate_market old) = false.
Proof. vm_compute. reflexivity. Qed.

(** The orders of Alice after the upgrade, over a ledger that holds her reserve. *)
Definition reserve : Ledger :=
  mk_Ledger {[ (Ztg, 2) := 10000%N ]} {[ (Orderbook.Example.rid, CategoricalOutcome 7 0, alice) := 900%N ]}.
Definition orders : Orderbook.Example.chain :=
  Orderbook.mk_State (MarketCommons.mk_State {[ 7 := Orderbook.Example.the_market ]} (Some 8) ∅)
    reserve 1 {[ 0 := Orderbook.Example.the_order ]} [].
Definition filled : Orderbook.Example.chain :=
  (Orderbook.fill_order Orderbook.Example.rid (Some Orderbook.Example.bob) 0 (Some 400) orders).2.

Lemma reserve_held a x : reserved_balance_named Orderbook.Example.rid a x reserve =
  old_held_by_orders a x {[ 0 := old_order ]}.
Proof.
  unfold old_held_by_orders. rewrite <- insert_empty, map_sum_insert, map_sum_empty by done.
  cbn. unfold old_held, at_, led_reserved, reserve. cbn.
  unfold get_amount. destruct (decide _) as [[= <- <-]|Hne]; [by rewrite lookup_singleton_eq|].
  rewrite lookup_singleton_ne; [done|congruence].
Defined.

Lemma migrated_orders_funded_witness :
  reserved_balance_named Orderbook.Example.rid (CategoricalOutcome 7 0) alice (Orderbook.assets filled) =
  held_by_orders (CategoricalOutcome 7 0) alice (Orders filled) ∧
  Orders filled !! 0 = Some Orderbook.Example.the_rest.
Proof.
  split; [|vm_compute; reflexivity].
  apply (migrated_orders_funded Orderbook.Example.rid (cs_orderbook before) {[ 0 := old_order ]} orders filled).
  - apply Orderbook.Example.minimum_positive.
  - reflexivity.
  - reflexivity.
  - apply reserve_held.
  - intros id o [<- <-]%lookup_singleton_Some. by vm_compute.
  - by vm_compute.
  - vm_compute. reflexivity.
  - eapply rtc_l; [|apply rtc_refl].
    apply (Orderbook.step_fill Orderbook.Example.rid orders (Some Orderbook.Example.bob) 0 (Some 400)).
Defined.

(** Alice's pool of 60 shares with fees of 8. *)
Definition neo_ledger : Ledger :=
  mk_Ledger {[ (Ztg, 77) := 10%N; (CategoricalOutcome 8 0, 77) := 40%N; (CategoricalOutcome 8 1, 77) := 60%N ]} ∅.
Definition no_markets : MarketCommons.State := MarketCommons.mk_State ∅ None ∅.
Definition requests : list Request := [WithdrawFees alice; Exit alice BASE; TotalShares].
(** Others join, trade and leave before Alice asks for her fees. *)
Definition late_requests : list Request :=
  [Join 2 (30 * BASE); DepositFees (9 * BASE); Exit alice BASE; WithdrawFees 2; Exit 2 (30 * BASE)].

Lemma old_neo_pool_backed : old_pool_backed (λ _, 77) no_markets neo_ledger 8 old_neo_pool.
Proof.
  split; try (by vm_compute).
  - intros a r [[= -> ->]|[[= -> ->]|[]%elem_of_nil]%elem_of_cons]%elem_of_cons; by vm_compute.
  - apply (bool_decide_unpack _). by vm_compute.
  - apply (bool_decide_unpack _). by vm_compute.
Defined.

Lemma migrated_pool_refines_witness :
  let withdrawal := WithdrawFees alice in
  ∃ p con, translate_neo_pool 4 old_neo_pool = Some p ∧ pool_backed 4 (λ _, 77) no_markets neo_ledger 8 p ∧
    let tree := liquidity_shares_manager p in
    let after := @converse _ (LiquidityTree_manager 4) late_requests tree in
    conversation late_requests after.1 (solo_contract (on_solo old_neo_pool)) con ∧
    (@respond _ (LiquidityTree_manager 4) withdrawal tree).1 = (respond withdrawal (on_solo old_neo_pool)).1 ∧
    (respond withdrawal (on_solo old_neo_pool)).1 = Amount 8 ∧
    (withdrawal ∉ late_requests → ∀ x,
       (@respond _ (LiquidityTree_manager 4) withdrawal after.2).1 = Amount x → 8 ≤ x) ∧
    account_id p = 77 ∧ reserves p = on_reserves old_neo_pool ∧ collateral p = Ztg ∧
    liquidity_parameter p = 5 ∧ NeoSwaps.swap_fee p = BASE / 100.
Proof.
  apply (migrated_pool_refines 4 (λ _, 77) no_markets neo_ledger 8 old_neo_pool late_requests).
  - by vm_compute.
  - apply old_neo_pool_backed.
  - repeat constructor; by vm_compute.
Defined.

(** The answers are those the single provider gave, too. *)
Example migrated_answers :
  (λ t, (@converse _ (LiquidityTree_manager 4) requests t).1) <$> translate_solo 4 (on_solo old_neo_pool) =
    Some [Amount 8; Done; Amount (59 * BASE)] ∧
  (converse requests (on_solo old_neo_pool)).1 = [Amount 8; Done; Amount (59 * BASE)].
Proof. split; vm_compute; reflexivity. Qed.
End MigrationExample.
