(* ===== verification/PredictionMarkets.v ===== *)
(** * Prediction markets

    [zrml/prediction-markets/src/lib.rs]: the life of a market from its creation
    over trading in complete sets, closing, reporting and disputes to its
    resolution. This file holds the storage, the configuration and every
    extrinsic and hook; [CompleteSets] and [MarketLife] hold the theorems. Dispute weights are not modelled, so a [ResultWithWeightInfo] is
    its result. *)
From S2P Require Import Prelude GlobalDisputes Disputes MarketCommons Currencies Errors Types.

(** ** Updates of market fields *)
Section MarketFields.
Implicit Types m : Market.
Definition with_status (x : MarketStatus) m : Market :=
  mk_Market (base_asset m) (creator m) (creation m) (creator_fee m) (oracle m) (metadata m)
    (market_type m) (period m) (deadlines m) (scoring_rule m) x (report m)
    (resolved_outcome m) (dispute_mechanism m) (bonds m) (early_close m).
Definition with_period (x : MarketPeriod) m : Market :=
  mk_Market (base_asset m) (creator m) (creation m) (creator_fee m) (oracle m) (metadata m)
    (market_type m) x (deadlines m) (scoring_rule m) (status m) (report m)
    (resolved_outcome m) (dispute_mechanism m) (bonds m) (early_close m).
Definition with_report (x : option Report) m : Market :=
  mk_Market (base_asset m) (creator m) (creation m) (creator_fee m) (oracle m) (metadata m)
    (market_type m) (period m) (deadlines m) (scoring_rule m) (status m) x
    (resolved_outcome m) (dispute_mechanism m) (bonds m) (early_close m).
Definition with_resolved_outcome (x : option OutcomeReport) m : Market :=
  mk_Market (base_asset m) (creator m) (creation m) (creator_fee m) (oracle m) (metadata m)
    (market_type m) (period m) (deadlines m) (scoring_rule m) (status m) (report m)
    x (dispute_mechanism m) (bonds m) (early_close m).
Definition with_bonds (x : MarketBonds) m : Market :=
  mk_Market (base_asset m) (creator m) (creation m) (creator_fee m) (oracle m) (metadata m)
    (market_type m) (period m) (deadlines m) (scoring_rule m) (status m) (report m)
    (resolved_outcome m) (dispute_mechanism m) x (early_close m).
Definition with_early_close (x : option EarlyClose) m : Market :=
  mk_Market (base_asset m) (creator m) (creation m) (creator_fee m) (oracle m) (metadata m)
    (market_type m) (period m) (deadlines m) (scoring_rule m) (status m) (report m)
    (resolved_outcome m) (dispute_mechanism m) (bonds m) x.
End MarketFields.

(** The field that the bond macros are instantiated with. *)
Inductive BondType : Type :=
| creation_bond | oracle_bond | outsider_bond | dispute_bond | close_request_bond
| close_dispute_bond.
#[export] Instance BondType_eq_dec : EqDecision BondType.
Proof. solve_decision. Defined.

Definition get_bond (k : BondType) (b : MarketBonds) : option Bond :=
  match k with
  | creation_bond => bonds_creation b
  | oracle_bond => bonds_oracle b
  | outsider_bond => bonds_outsider b
  | dispute_bond => bonds_dispute b
  | close_request_bond => bonds_close_request b
  | close_dispute_bond => bonds_close_dispute b
  end.
Definition set_bond (k : BondType) (x : option Bond) (b : MarketBonds) : MarketBonds :=
  match k with
  | creation_bond => mk_MarketBonds x (bonds_oracle b) (bonds_outsider b) (bonds_dispute b)
      (bonds_close_request b) (bonds_close_dispute b)
  | oracle_bond => mk_MarketBonds (bonds_creation b) x (bonds_outsider b) (bonds_dispute b)
      (bonds_close_request b) (bonds_close_dispute b)
  | outsider_bond => mk_MarketBonds (bonds_creation b) (bonds_oracle b) x (bonds_dispute b)
      (bonds_close_request b) (bonds_close_dispute b)
  | dispute_bond => mk_MarketBonds (bonds_creation b) (bonds_oracle b) (bonds_outsider b) x
      (bonds_close_request b) (bonds_close_dispute b)
  | close_request_bond => mk_MarketBonds (bonds_creation b) (bonds_oracle b) (bonds_outsider b)
      (bonds_dispute b) x (bonds_close_dispute b)
  | close_dispute_bond => mk_MarketBonds (bonds_creation b) (bonds_oracle b) (bonds_outsider b)
      (bonds_dispute b) (bonds_close_request b) x
  end.
Definition with_bond (k : BondType) (x : option Bond) (m : Market) : Market :=
  with_bonds (set_bond k x (bonds m)) m.
(** [Bond { is_settled: true, ..bond.clone() }] *)
Definition settled (b : Bond) : Bond := mk_Bond (bond_who b) (bond_value b) true.

(** ** Events *)
Abbreviation MultiHash := (list Z).
Inductive Event : Type :=
| BadOnInitialize
| BoughtCompleteSet (id : MarketId) (amount : Balance) (who : AccountId)
| MarketApproved (id : MarketId) (st : MarketStatus)
| MarketCreated (id : MarketId) (account : AccountId) (m : Market)
| MarketDestroyed (id : MarketId)
| MarketClosed (id : MarketId)
| MarketEarlyCloseScheduled (id : MarketId) (new_period : MarketPeriod) (st : EarlyCloseState)
| MarketEarlyCloseDisputed (id : MarketId)
| MarketEarlyCloseRejected (id : MarketId)
| MarketDisputed (id : MarketId) (st : MarketStatus) (who : AccountId)
| MarketExpired (id : MarketId)
| MarketRejected (id : MarketId) (reason : list Z)
| MarketReported (id : MarketId) (st : MarketStatus) (r : Report)
| MarketResolved (id : MarketId) (st : MarketStatus) (o : OutcomeReport)
| MarketRequestedEdit (id : MarketId) (reason : list Z)
| MarketEdited (id : MarketId) (m : Market)
| SoldCompleteSet (id : MarketId) (amount : Balance) (who : AccountId)
| TokensRedeemed (id : MarketId) (currency : Asset) (amount payout : Balance) (who : AccountId)
| GlobalDisputeStarted (id : MarketId).

(** ** Configuration *)

(** [frame_system::RawOrigin] and the collectives of the runtime. *)
Inductive RuntimeOrigin : Type :=
| Root
| Signed (who : AccountId)
| Collective (n : Z).
Definition ensure_signed (o : RuntimeOrigin) : Res AccountId :=
  match o with Signed who => Ok who | _ => Err BadOrigin end.

(** [Config]: constants and origins of the runtime; percentages, the identifier
    hash of market accounts, the registry of foreign assets and the treasury
    ([Slash]) are Substrate's and the runtime's. [Perbill] and [Percent] values
    are their parts. *)
Class Config (L : Type) := {
  AdvisoryBond : Balance;
  AdvisoryBondSlashPercentage : Z;
  OracleBond : Balance;
  OutsiderBond : Balance;
  ValidityBond : Balance;
  DisputeBond : Balance;
  CloseEarlyDisputeBond : Balance;
  CloseEarlyRequestBond : Balance;
  CloseEarlyProtectionBlockPeriod : BlockNumber;
  CloseEarlyProtectionTimeFramePeriod : Moment;
  CloseEarlyBlockPeriod : BlockNumber;
  CloseEarlyTimeFramePeriod : Moment;
  MaxMarketLifetime : BlockNumber;
  MinOracleDuration : BlockNumber;
  MaxOracleDuration : BlockNumber;
  MinDisputeDuration : BlockNumber;
  MaxDisputeDuration : BlockNumber;
  MaxGracePeriod : BlockNumber;
  MinCategories : Z;
  MaxCategories : Z;
  MaxCreatorFee : Perbill;
  MaxEditReasonLen : Z;
  MaxRejectReasonLen : Z;
  reserve_id : ReserveIdentifier;
  market_account : MarketId → AccountId;
  ApproveOrigin : RuntimeOrigin → bool;
  RejectOrigin : RuntimeOrigin → bool;
  RequestEditOrigin : RuntimeOrigin → bool;
  CloseOrigin : RuntimeOrigin → bool;
  ResolveOrigin : RuntimeOrigin → bool;
  CloseMarketEarlyOrigin : RuntimeOrigin → bool;
  (** [AssetRegistry::metadata]: whether the asset may be a base asset. *)
  registry_metadata : Z → option bool;
  (** [Percent::mul_floor], [Perbill::mul_floor], [Perbill::from_rational] *)
  percent_mul_floor : Z → Balance → Balance;
  perbill_mul_floor : Perbill → Balance → Balance;
  perbill_from_rational : Z → Z → Perbill;
  (** [Slash::on_unbalanced] *)
  on_unbalanced : Balance → L → L;
}.

(** Documented behaviour of [Perbill] and [Percent] (parts of [10 ^ 9] and of
    [100], multiplication rounds down), and distinct accounts of markets. *)
Class ConfigLaws (L : Type) `{Config L} := {
  from_rational_parts a b : 0 ≤ perbill_from_rational a b ≤ 10 ^ 9;
  perbill_floor p x : 0 ≤ p ≤ 10 ^ 9 → 0 ≤ x →
    0 ≤ perbill_mul_floor p x ∧ 10 ^ 9 * perbill_mul_floor p x ≤ p * x;
  percent_floor p x : 0 ≤ x → 0 ≤ percent_mul_floor p x ≤ x;
  market_account_inj id id' : market_account id = market_account id' → id = id';
}.

(** The interfaces of the pallets that reward liquidity and deploy pools; [X] is
    their storage. *)
Class LiquidityMiningPalletApi (C X L : Type) := {
  distribute_market_incentives : C → MarketId → Store (X * L) unit;
}.
Class DeployPoolApi (C X L : Type) := {
  deploy_pool : C → AccountId → MarketId → Balance → list Balance → Balance → Store (X * L) unit;
}.

(** ** Storage *)

(** Markets per close block or close time frame. *)
Abbreviation IdsPer := (gmap Z (list MarketId)).

(** [D] is the storage of the dispute mechanisms, [G] that of global disputes, [X]
    that of liquidity mining and the pools. The deprecated [MarketIdsPerOpenBlock],
    [MarketIdsPerOpenTimeFrame] and [MarketsCollectingSubsidy] are never written. *)
Record State (C L D G X : Type) : Type := mk_State {
  commons : C;
  ledger : L;
  dispute_storage : D;
  global_disputes : G;
  externals : X;
  MarketIdsPerCloseBlock : IdsPer;
  MarketIdsPerCloseTimeFrame : IdsPer;
  LastTimeFrame : option Z;
  dispute_blocks : IdsPer;
  MarketIdsPerReportBlock : IdsPer;
  MarketIdsForEdit : gmap MarketId (list Z);
  events : list Event;
}.
Arguments mk_State {C L D G X} _ _ _ _ _ _ _ _ _ _ _ _.
Arguments commons {C L D G X} _.
Arguments ledger {C L D G X} _.
Arguments dispute_storage {C L D G X} _.
Arguments global_disputes {C L D G X} _.
Arguments externals {C L D G X} _.
Arguments MarketIdsPerCloseBlock {C L D G X} _.
Arguments MarketIdsPerCloseTimeFrame {C L D G X} _.
Arguments LastTimeFrame {C L D G X} _.
Arguments dispute_blocks {C L D G X} _.
Arguments MarketIdsPerReportBlock {C L D G X} _.
Arguments MarketIdsForEdit {C L D G X} _.
Arguments events {C L D G X} _.

Section Setters.
Context {C L D G X : Type}.
Abbreviation S := (State C L D G X).
Definition set_commons (x : C) (s : S) : S :=
  mk_State x (ledger s) (dispute_storage s) (global_disputes s) (externals s)
    (MarketIdsPerCloseBlock s) (MarketIdsPerCloseTimeFrame s) (LastTimeFrame s)
    (dispute_blocks s) (MarketIdsPerReportBlock s) (MarketIdsForEdit s) (events s).
Definition set_ledger (x : L) (s : S) : S :=
  mk_State (commons s) x (dispute_storage s) (global_disputes s) (externals s)
    (MarketIdsPerCloseBlock s) (MarketIdsPerCloseTimeFrame s) (LastTimeFrame s)
    (dispute_blocks s) (MarketIdsPerReportBlock s) (MarketIdsForEdit s) (events s).
Definition set_disputes (x : D * IdsPer * L) (s : S) : S :=
  mk_State (commons s) x.2 x.1.1 (global_disputes s) (externals s)
    (MarketIdsPerCloseBlock s) (MarketIdsPerCloseTimeFrame s) (LastTimeFrame s)
    x.1.2 (MarketIdsPerReportBlock s) (MarketIdsForEdit s) (events s).
Definition set_global_disputes (x : G * IdsPer) (s : S) : S :=
  mk_State (commons s) (ledger s) (dispute_storage s) x.1 (externals s)
    (MarketIdsPerCloseBlock s) (MarketIdsPerCloseTimeFrame s) (LastTimeFrame s)
    x.2 (MarketIdsPerReportBlock s) (MarketIdsForEdit s) (events s).
Definition set_externals (x : X * L) (s : S) : S :=
  mk_State (commons s) x.2 (dispute_storage s) (global_disputes s) x.1
    (MarketIdsPerCloseBlock s) (MarketIdsPerCloseTimeFrame s) (LastTimeFrame s)
    (dispute_blocks s) (MarketIdsPerReportBlock s) (MarketIdsForEdit s) (events s).
Definition set_close_block (x : IdsPer) (s : S) : S :=
  mk_State (commons s) (ledger s) (dispute_storage s) (global_disputes s) (externals s)
    x (MarketIdsPerCloseTimeFrame s) (LastTimeFrame s)
    (dispute_blocks s) (MarketIdsPerReportBlock s) (MarketIdsForEdit s) (events s).
Definition set_close_time_frame (x : IdsPer) (s : S) : S :=
  mk_State (commons s) (ledger s) (dispute_storage s) (global_disputes s) (externals s)
    (MarketIdsPerCloseBlock s) x (LastTimeFrame s)
    (dispute_blocks s) (MarketIdsPerReportBlock s) (MarketIdsForEdit s) (events s).
Definition set_LastTimeFrame (x : option Z) (s : S) : S :=
  mk_State (commons s) (ledger s) (dispute_storage s) (global_disputes s) (externals s)
    (MarketIdsPerCloseBlock s) (MarketIdsPerCloseTimeFrame s) x
    (dispute_blocks s) (MarketIdsPerReportBlock s) (MarketIdsForEdit s) (events s).
Definition set_dispute_blocks (x : IdsPer) (s : S) : S :=
  mk_State (commons s) (ledger s) (dispute_storage s) (global_disputes s) (externals s)
    (MarketIdsPerCloseBlock s) (MarketIdsPerCloseTimeFrame s) (LastTimeFrame s)
    x (MarketIdsPerReportBlock s) (MarketIdsForEdit s) (events s).
Definition set_report_blocks (x : IdsPer) (s : S) : S :=
  mk_State (commons s) (ledger s) (dispute_storage s) (global_disputes s) (externals s)
    (MarketIdsPerCloseBlock s) (MarketIdsPerCloseTimeFrame s) (LastTimeFrame s)
    (dispute_blocks s) x (MarketIdsForEdit s) (events s).
Definition set_edits (x : gmap MarketId (list Z)) (s : S) : S :=
  mk_State (commons s) (ledger s) (dispute_storage s) (global_disputes s) (externals s)
    (MarketIdsPerCloseBlock s) (MarketIdsPerCloseTimeFrame s) (LastTimeFrame s)
    (dispute_blocks s) (MarketIdsPerReportBlock s) x (events s).
Definition deposit_event (e : Event) : Store S unit :=
  modify (λ s, mk_State (commons s) (ledger s) (dispute_storage s) (global_disputes s)
    (externals s) (MarketIdsPerCloseBlock s) (MarketIdsPerCloseTimeFrame s) (LastTimeFrame s)
    (dispute_blocks s) (MarketIdsPerReportBlock s) (MarketIdsForEdit s) (e :: events s)).
Definition dispute_view (s : S) : D * IdsPer * L := (dispute_storage s, dispute_blocks s, ledger s).
Definition global_view (s : S) : G * IdsPer := (global_disputes s, dispute_blocks s).
Definition external_view (s : S) : X * L := (externals s, ledger s).
End Setters.

(** ** Operations *)
Section PredictionMarkets.
Context {C L D G X : Type}.
Context `{MarketCommonsPalletApi C, AssetManager L, Currency L, Config L}.
(** The dispute mechanisms the code matches on: [T::Authorized], [T::Court] and
    [T::SimpleDisputes]. *)
Context (mechanism : MarketDisputeMechanism → DisputeApi D IdsPer L).
Context `{GlobalDisputesPalletApi C G IdsPer}.
Context `{LiquidityMiningPalletApi C X L, DeployPoolApi C X L}.
(** The block and the time stamp a call is executed at. *)
Context (now : BlockNumber) (now_time : Moment).
Abbreviation St := (State C L D G X).
Abbreviation ST := (Store St).

(** *** Storage access *)

Definition market (id : MarketId) : ST Market :=
  r ← gets (λ s, api_market id (commons s)); lift r.
Definition mutate_market (id : MarketId) (f : Market → Res Market) : ST unit :=
  zoom commons set_commons (api_mutate_market id f).
(** [mutate_market] with a callback that has effects of its own: the market is
    read before and written after them. *)
Definition mutate_market_with (id : MarketId) (cb : Market → ST Market) : ST unit :=
  m ← market id;
  m' ← cb m;
  mutate_market id (λ _, Ok m').
Definition ensure_origin (b : bool) : ST unit := ensure b BadOrigin.

(** *** Bonds *)

Definition settle_bond (k : BondType) (id : MarketId) (bond : Bond) : ST unit :=
  mutate_market id (λ m, Ok (with_bond k (Some (settled bond)) m)).

(** [impl_unreserve_bond] *)
Definition unreserve_bond (k : BondType) (id : MarketId) : ST unit :=
  m ← market id;
  bond ← ok_or (get_bond k (bonds m)) PMK_MissingBond;
  if bond_is_settled bond then mret tt
  else
    _ ← zoom ledger set_ledger
          (infallible (cur_unreserve_named reserve_id (bond_who bond) (bond_value bond)));
    settle_bond k id bond.

(** [impl_slash_bond]: returns the imbalance. *)
Definition slash_bond (k : BondType) (id : MarketId) (slash_percentage : option Z) : ST Balance :=
  m ← market id;
  bond ← ok_or (get_bond k (bonds m)) PMK_MissingBond;
  if bond_is_settled bond then mret 0
  else
    let value := bond_value bond in
    let '(slash_amount, unreserve_amount) :=
      match slash_percentage with
      | Some percentage =>
          let slash_amount := percent_mul_floor percentage value in
          (slash_amount, saturating_sub value slash_amount)
      | None => (value, 0)
      end in
    r ← zoom ledger set_ledger
          (infallible (cur_slash_reserved_named reserve_id (bond_who bond) slash_amount));
    _ ← (if unreserve_amount =? 0 then mret 0
         else zoom ledger set_ledger
                (infallible (cur_unreserve_named reserve_id (bond_who bond) unreserve_amount)));
    _ ← settle_bond k id bond;
    mret r.1.

(** [impl_repatriate_bond]: a failed transfer is only logged. *)
Definition repatriate_bond (k : BondType) (id : MarketId) (beneficiary : AccountId) : ST unit :=
  m ← market id;
  bond ← ok_or (get_bond k (bonds m)) PMK_MissingBond;
  if bond_is_settled bond then mret tt
  else
    _ ← attempt (zoom ledger set_ledger
          (cur_repatriate_reserved_named reserve_id (bond_who bond) beneficiary (bond_value bond)));
    settle_bond k id bond.

(** [impl_is_bond_pending] *)
Definition is_bond_pending (k : BondType) (m : Market) : bool :=
  match get_bond k (bonds m) with
  | Some bond => negb (bond_is_settled bond)
  | None => false
  end.

(** *** Helpers *)

Definition outcome_assets (id : MarketId) (m : Market) : list Asset :=
  match market_type m with
  | MT_Categorical categories => CategoricalOutcome id <$> seqZ 0 categories
  | MT_Scalar _ _ => [ScalarOutcome id Long; ScalarOutcome id Short]
  end.

Definition calculate_time_frame_of_moment (time : Moment) : Z := time / MILLISECS_PER_BLOCK.

Definition ensure_market_is_active (m : Market) : Res unit :=
  ensureR (bool_decide (status m = Active)) PMK_MarketIsNotActive.
Definition ensure_market_is_closed (m : Market) : Res unit :=
  ensureR (bool_decide (status m = Closed)) PMK_MarketIsNotClosed.

Definition ensure_market_period_is_valid (p : MarketPeriod) : Res unit :=
  match p with
  | Block range =>
      _ ← ensureR (now <? range_end range) PMK_InvalidMarketPeriod;
      _ ← ensureR (range_start range <? range_end range) PMK_InvalidMarketPeriod;
      let lifetime := saturating_sub (range_end range) now in
      ensureR (lifetime <=? MaxMarketLifetime) PMK_MarketDurationTooLong
  | Timestamp range =>
      let now_frame := calculate_time_frame_of_moment now_time in
      let end_frame := calculate_time_frame_of_moment (range_end range) in
      _ ← ensureR (now_frame <? end_frame) PMK_InvalidMarketPeriod;
      _ ← ensureR (range_start range <? range_end range) PMK_InvalidMarketPeriod;
      let lifetime := saturating_sub end_frame now_frame in
      let lifetime_max := Z.min u64_max MaxMarketLifetime in
      ensureR (lifetime <=? lifetime_max) PMK_MarketDurationTooLong
  end.

Definition ensure_market_deadlines_are_valid (d : Deadlines) (trusted : bool) : Res unit :=
  _ ← ensureR (MinOracleDuration <=? oracle_duration d)
        PMK_OracleDurationSmallerThanMinOracleDuration;
  _ ← (if trusted then
         ensureR (dispute_duration d =? 0) PMK_NonZeroDisputePeriodOnTrustedMarket
       else
         _ ← ensureR (MinDisputeDuration <=? dispute_duration d)
               PMK_DisputeDurationSmallerThanMinDisputeDuration;
         ensureR (dispute_duration d <=? MaxDisputeDuration)
           PMK_DisputeDurationGreaterThanMaxDisputeDuration);
  _ ← ensureR (grace_period d <=? MaxGracePeriod) PMK_GracePeriodGreaterThanMaxGracePeriod;
  ensureR (oracle_duration d <=? MaxOracleDuration) PMK_OracleDurationGreaterThanMaxOracleDuration.

Definition ensure_market_type_is_valid (t : MarketType) : Res unit :=
  match t with
  | MT_Categorical categories =>
      _ ← ensureR (MinCategories <=? categories) PMK_NotEnoughCategories;
      ensureR (categories <=? MaxCategories) PMK_TooManyCategories
  | MT_Scalar low high => ensureR (low <? high) PMK_InvalidOutcomeRange
  end.

(** The [parachain] build: registered foreign assets may be base assets. *)
Definition valid_base_asset (a : Asset) : Res bool :=
  match a with
  | Ztg => Ok true
  | ForeignAsset fa => ok_orR (registry_metadata fa) PMK_UnregisteredForeignAsset
  | _ => Ok false
  end.

(** [MultiHash::Sha3_384] holds fifty bytes. *)
Definition construct_market (base : Asset) (creator : AccountId) (fee : Perbill)
    (oracle : AccountId) (period : MarketPeriod) (deadlines : Deadlines) (metadata : MultiHash)
    (creation : MarketCreation) (t : MarketType) (mdm : option MarketDisputeMechanism)
    (rule : ScoringRule) (report : option Report) (resolved : option OutcomeReport)
    (bonds : MarketBonds) : Res Market :=
  valid ← valid_base_asset base;
  _ ← ensureR (fee <=? MaxCreatorFee) PMK_FeeTooHigh;
  _ ← ensureR valid PMK_InvalidBaseAsset;
  _ ← ensureR ((nth 0 metadata 0 =? 0x15) && (nth 1 metadata 0 =? 0x30)) PMK_InvalidMultihash;
  _ ← ensure_market_period_is_valid period;
  _ ← ensure_market_deadlines_are_valid deadlines (bool_decide (mdm = None));
  _ ← ensure_market_type_is_valid t;
  let st := match creation with Permissionless => Active | Advised => Proposed end in
  Ok (mk_Market base creator creation fee oracle metadata t period deadlines rule st report
        resolved mdm bonds None).

(** *** The close and resolution caches *)

Definition push_id (get : St → IdsPer) (put : IdsPer → St → St) (b : Z) (id : MarketId) : ST unit :=
  ids ← gets (λ s, ids_at b (get s));
  ids' ← lift (try_push_id id ids);
  modify (λ s, put (<[b := ids']> (get s)) s).
Definition drop_id (get : St → IdsPer) (put : IdsPer → St → St) (b : Z) (id : MarketId) : ST unit :=
  modify (λ s, put (<[b := remove_item (ids_at b (get s)) id]> (get s)) s).

Definition insert_auto_close (id : MarketId) : ST unit :=
  m ← market id;
  match period m with
  | Block range => push_id MarketIdsPerCloseBlock set_close_block (range_end range) id
  | Timestamp range =>
      push_id MarketIdsPerCloseTimeFrame set_close_time_frame
        (calculate_time_frame_of_moment (range_end range)) id
  end.

Definition clear_auto_close (id : MarketId) : ST unit :=
  m ← market id;
  match status m with
  | Active | Proposed =>
      match period m with
      | Block range => drop_id MarketIdsPerCloseBlock set_close_block (range_end range) id
      | Timestamp range =>
          drop_id MarketIdsPerCloseTimeFrame set_close_time_frame
            (calculate_time_frame_of_moment (range_end range)) id
      end
  | _ => mret tt
  end.

Definition clear_auto_resolve (id : MarketId) : ST unit :=
  m ← market id;
  match dispute_mechanism m with
  | None => mret tt
  | Some mdm =>
      match status m with
      | Reported =>
          r ← ok_or (report m) PMK_MarketIsNotReported;
          let dispute_duration_ends_at_block :=
            saturating_add u64_max (report_at r) (dispute_duration (deadlines m)) in
          drop_id MarketIdsPerReportBlock set_report_blocks dispute_duration_ends_at_block id
      | Disputed =>
          block ← gets (λ s, api_get_auto_resolve (DisputeApi := mechanism mdm) id m
                               (dispute_storage s));
          match block with
          | Some auto_resolve_block => drop_id dispute_blocks set_dispute_blocks auto_resolve_block id
          | None => mret tt
          end
      | _ => mret tt
      end
  end.

(** *** Complete sets *)

Definition do_buy_complete_set (who : AccountId) (id : MarketId) (amount : Balance) : ST unit :=
  _ ← ensure (negb (amount =? 0)) PMK_ZeroAmount;
  m ← market id;
  free ← gets (λ s, free_balance (base_asset m) who (ledger s));
  _ ← ensure (amount <=? free) PMK_NotEnoughBalance;
  _ ← ensure (is_redeemable m) PMK_InvalidScoringRule;
  _ ← lift (ensure_market_is_active m);
  _ ← zoom ledger set_ledger (transfer (base_asset m) who (market_account id) amount);
  _ ← for_each (λ asset, zoom ledger set_ledger (deposit asset who amount)) (outcome_assets id m);
  deposit_event (BoughtCompleteSet id amount who).

Definition do_sell_complete_set (who : AccountId) (id : MarketId) (amount : Balance) : ST unit :=
  _ ← ensure (negb (amount =? 0)) PMK_ZeroAmount;
  m ← market id;
  _ ← ensure (is_redeemable m) PMK_InvalidScoringRule;
  pot ← gets (λ s, free_balance (base_asset m) (market_account id) (ledger s));
  _ ← ensure (amount <=? pot) (OtherError "Market account does not have sufficient reserves.");
  _ ← for_each (λ asset,
        free ← gets (λ s, free_balance asset who (ledger s));
        ensure (amount <=? free) PMK_InsufficientShareBalance) (outcome_assets id m);
  _ ← for_each (λ asset,
        _ ← zoom ledger set_ledger (infallible (slash asset who amount)); mret tt)
        (outcome_assets id m);
  _ ← zoom ledger set_ledger (transfer (base_asset m) (market_account id) who amount);
  deposit_event (SoldCompleteSet id amount who).

Definition buy_complete_set (origin : RuntimeOrigin) (id : MarketId) (amount : Balance) : ST unit :=
  transactional (
    sender ← lift (ensure_signed origin);
    _ ← do_buy_complete_set sender id amount;
    _ ← market id; mret tt).
Definition sell_complete_set (origin : RuntimeOrigin) (id : MarketId) (amount : Balance) : ST unit :=
  transactional (
    sender ← lift (ensure_signed origin);
    _ ← do_sell_complete_set sender id amount;
    _ ← market id; mret tt).

(** The closure [calc_payouts] of [redeem_shares]; [Perbill::one] has [10 ^ 9] parts. *)
Definition perbill_one : Perbill := 10 ^ 9.
Definition calc_payouts (final_value low high : Z) : Perbill * Perbill :=
  if final_value <=? low then (0, perbill_one)
  else if high <=? final_value then (perbill_one, 0)
  else
    let payout_long :=
      perbill_from_rational (saturating_sub final_value low) (saturating_sub high low) in
    (payout_long, saturating_sub perbill_one payout_long).

(** One round of the pay-out loop of [redeem_shares]. *)
Definition redeem_asset (id : MarketId) (m : Market) (sender : AccountId)
    (w : Asset * Balance * Balance) : ST unit :=
  let '(currency_id, payout, balance) := w in
  _ ← zoom ledger set_ledger (infallible (slash currency_id sender balance));
  remaining ← gets (λ s, free_balance (base_asset m) (market_account id) (ledger s));
  let actual_payout := Z.min payout remaining in
  _ ← zoom ledger set_ledger (transfer (base_asset m) (market_account id) sender actual_payout);
  if balance =? 0 then mret tt
  else deposit_event (TokensRedeemed id currency_id balance actual_payout sender).

Definition redeem_shares (origin : RuntimeOrigin) (id : MarketId) : ST unit :=
  transactional (
    sender ← lift (ensure_signed origin);
    m ← market id;
    _ ← ensure (bool_decide (status m = Resolved)) PMK_MarketIsNotResolved;
    _ ← ensure (is_redeemable m) PMK_InvalidResolutionMechanism;
    outcome ← ok_or (resolved_outcome m) PMK_MarketIsNotResolved;
    l ← gets ledger;
    let pot := free_balance (base_asset m) (market_account id) l in
    winning_assets ←
      match outcome with
      | Categorical category_index =>
          let winning_currency_id := CategoricalOutcome id category_index in
          let winning_balance := free_balance winning_currency_id sender l in
          _ ← ensure (0 <? winning_balance) PMK_NoWinningBalance;
          _ ← ensure (winning_balance <=? pot) PMK_InsufficientFundsInMarketAccount;
          mret [(winning_currency_id, winning_balance, winning_balance)]
      | Scalar value =>
          let long_currency_id := ScalarOutcome id Long in
          let short_currency_id := ScalarOutcome id Short in
          let long_balance := free_balance long_currency_id sender l in
          let short_balance := free_balance short_currency_id sender l in
          _ ← ensure ((0 <? long_balance) || (0 <? short_balance)) PMK_NoWinningBalance;
          bound ← match market_type m with
                  | MT_Scalar low high => mret (low, high)
                  | _ => fail PMK_InvalidMarketType
                  end;
          let '(long_percent, short_percent) := calc_payouts value bound.1 bound.2 in
          let long_payout := perbill_mul_floor long_percent long_balance in
          let short_payout := perbill_mul_floor short_percent short_balance in
          _ ← ensure (saturating_add u128_max long_payout short_payout <=? pot)
                PMK_InsufficientFundsInMarketAccount;
          mret [(long_currency_id, long_payout, long_balance);
                (short_currency_id, short_payout, short_balance)]
      end;
    for_each (redeem_asset id m sender) winning_assets).

(** *** Creation, approval, edits *)

Definition do_create_market (who : AccountId) (base : Asset) (fee : Perbill) (oracle : AccountId)
    (period : MarketPeriod) (deadlines : Deadlines) (metadata : MultiHash)
    (creation : MarketCreation) (t : MarketType) (mdm : option MarketDisputeMechanism)
    (rule : ScoringRule) : ST MarketId :=
  let creation_value := match creation with
                        | Advised => AdvisoryBond
                        | Permissionless => ValidityBond
                        end in
  let bonds := set_bond creation_bond (Some (Bond_new who creation_value))
                 (set_bond oracle_bond (Some (Bond_new who OracleBond)) MarketBonds_default) in
  m ← lift (construct_market base who fee oracle period deadlines metadata creation t mdm rule
              None None bonds);
  _ ← zoom ledger set_ledger (reserve_named reserve_id Ztg who (total_amount_bonded bonds who));
  id ← zoom commons set_commons (api_push_market m);
  _ ← insert_auto_close id;
  _ ← deposit_event (MarketCreated id (market_account id) m);
  mret id.

Definition create_market (origin : RuntimeOrigin) (base : Asset) (fee : Perbill)
    (oracle : AccountId) (period : MarketPeriod) (deadlines : Deadlines) (metadata : MultiHash)
    (creation : MarketCreation) (t : MarketType) (mdm : option MarketDisputeMechanism)
    (rule : ScoringRule) : ST MarketId :=
  transactional (
    sender ← lift (ensure_signed origin);
    do_create_market sender base fee oracle period deadlines metadata creation t mdm rule).

Definition create_market_and_deploy_pool (origin : RuntimeOrigin) (base : Asset) (fee : Perbill)
    (oracle : AccountId) (period : MarketPeriod) (deadlines : Deadlines) (metadata : MultiHash)
    (t : MarketType) (mdm : option MarketDisputeMechanism) (amount : Balance)
    (spot_prices : list Balance) (swap_fee : Balance) : ST MarketId :=
  transactional (
    who ← lift (ensure_signed origin);
    id ← do_create_market who base fee oracle period deadlines metadata Permissionless t mdm Lmsr;
    _ ← do_buy_complete_set who id amount;
    c ← gets commons;
    _ ← zoom external_view set_externals (deploy_pool c who id amount spot_prices swap_fee);
    mret id).

Definition approve_market (origin : RuntimeOrigin) (id : MarketId) : ST unit :=
  transactional (
    _ ← ensure_origin (ApproveOrigin origin);
    edits ← gets MarketIdsForEdit;
    _ ← mutate_market id (λ m,
          _ ← ensureR (bool_decide (status m = Proposed)) PMK_MarketIsNotProposed;
          _ ← ensureR (negb (bool_decide (is_Some (edits !! id))))
                PMK_MarketEditRequestAlreadyInProgress;
          Ok (with_status Active m));
    _ ← unreserve_bond creation_bond id;
    deposit_event (MarketApproved id Active)).

Definition request_edit (origin : RuntimeOrigin) (id : MarketId) (edit_reason : list Z) : ST unit :=
  transactional (
    _ ← ensure_origin (RequestEditOrigin origin);
    _ ← ensure (Z.of_nat (length edit_reason) <=? MaxEditReasonLen)
          PMK_EditReasonLengthExceedsMaxEditReasonLen;
    m ← market id;
    _ ← ensure (bool_decide (status m = Proposed)) PMK_MarketIsNotProposed;
    edits ← gets MarketIdsForEdit;
    _ ← ensure (negb (bool_decide (is_Some (edits !! id)))) PMK_MarketEditRequestAlreadyInProgress;
    _ ← modify (set_edits (<[id := edit_reason]> edits));
    deposit_event (MarketRequestedEdit id edit_reason)).

Definition edit_market (origin : RuntimeOrigin) (base : Asset) (id : MarketId)
    (oracle : AccountId) (period : MarketPeriod) (deadlines : Deadlines) (metadata : MultiHash)
    (t : MarketType) (mdm : option MarketDisputeMechanism) (rule : ScoringRule) : ST unit :=
  transactional (
    sender ← lift (ensure_signed origin);
    edits ← gets MarketIdsForEdit;
    _ ← ensure (bool_decide (is_Some (edits !! id))) PMK_MarketEditNotRequested;
    old ← market id;
    _ ← ensure (creator old =? sender) PMK_EditorNotCreator;
    _ ← ensure (bool_decide (status old = Proposed)) PMK_InvalidMarketStatus;
    _ ← clear_auto_close id;
    edited ← lift (construct_market base (creator old) (creator_fee old) oracle period deadlines
                     metadata (creation old) t mdm rule (report old) (resolved_outcome old)
                     (bonds old));
    _ ← mutate_market id (λ _, Ok edited);
    _ ← insert_auto_close id;
    _ ← modify (λ s, set_edits (delete id (MarketIdsForEdit s)) s);
    deposit_event (MarketEdited id edited)).

Definition do_reject_market (id : MarketId) (m : Market) (reject_reason : list Z) : ST unit :=
  _ ← ensure (bool_decide (status m = Proposed)) PMK_InvalidMarketStatus;
  _ ← unreserve_bond oracle_bond id;
  imbalance ← slash_bond creation_bond id (Some AdvisoryBondSlashPercentage);
  _ ← modify (λ s, set_ledger (on_unbalanced imbalance (ledger s)) s);
  _ ← zoom commons set_commons (api_remove_market id);
  _ ← modify (λ s, set_edits (delete id (MarketIdsForEdit s)) s);
  _ ← deposit_event (MarketRejected id reject_reason);
  deposit_event (MarketDestroyed id).

Definition reject_market (origin : RuntimeOrigin) (id : MarketId) (reject_reason : list Z) : ST unit :=
  transactional (
    _ ← ensure_origin (RejectOrigin origin);
    m ← market id;
    _ ← clear_auto_close id;
    _ ← ensure (Z.of_nat (length reject_reason) <=? MaxRejectReasonLen)
          PMK_RejectReasonLengthExceedsMaxRejectReasonLen;
    do_reject_market id m reject_reason).

Definition handle_expired_advised_market (id : MarketId) (m : Market) : ST unit :=
  _ ← ensure (bool_decide (status m = Proposed)) PMK_InvalidMarketStatus;
  _ ← unreserve_bond creation_bond id;
  _ ← unreserve_bond oracle_bond id;
  _ ← zoom commons set_commons (api_remove_market id);
  _ ← modify (λ s, set_edits (delete id (MarketIdsForEdit s)) s);
  deposit_event (MarketExpired id).

(** *** Closing *)

(** The bonds are settled inside the callback of [mutate_market]. *)
Definition close_market (id : MarketId) : ST unit :=
  _ ← mutate_market_with id (λ m,
        _ ← ensure (bool_decide (status m = Active)) PMK_InvalidMarketStatus;
        _ ← match early_close m with
            | Some p =>
                match early_state p with
                | ScheduledAsMarketCreator =>
                    if is_bond_pending close_request_bond m
                    then unreserve_bond close_request_bond id else mret tt
                | EarlyClose_Disputed =>
                    _ ← (if is_bond_pending close_dispute_bond m
                         then unreserve_bond close_dispute_bond id else mret tt);
                    if is_bond_pending close_request_bond m
                    then unreserve_bond close_request_bond id else mret tt
                | ScheduledAsOther | EarlyClose_Rejected => mret tt
                end
            | None => mret tt
            end;
        mret (with_status Closed m));
  deposit_event (MarketClosed id).

Definition set_market_end (id : MarketId) : ST unit :=
  mutate_market id (λ m,
    Ok (with_period (match period m with
                     | Block range => Block (mk_Range (range_start range) now)
                     | Timestamp range => Timestamp (mk_Range (range_start range) now_time)
                     end) m)).

Definition on_market_close (id : MarketId) (m : Market) : ST unit :=
  match status m with
  | Active => close_market id
  | Proposed => handle_expired_advised_market id m
  | _ => fail PMK_InvalidMarketStatus
  end.

Definition admin_move_market_to_closed (origin : RuntimeOrigin) (id : MarketId) : ST unit :=
  transactional (
    _ ← ensure_origin (CloseOrigin origin);
    m ← market id;
    _ ← lift (ensure_market_is_active m);
    _ ← clear_auto_close id;
    _ ← close_market id;
    set_market_end id).

Definition close_trusted_market (origin : RuntimeOrigin) (id : MarketId) : ST unit :=
  transactional (
    who ← lift (ensure_signed origin);
    m ← market id;
    _ ← ensure (creator m =? who) PMK_CallerNotMarketCreator;
    _ ← ensure (bool_decide (dispute_mechanism m = None)) PMK_MarketIsNotTrusted;
    _ ← lift (ensure_market_is_active m);
    _ ← clear_auto_close id;
    _ ← close_market id;
    set_market_end id).

(** *** Early close *)

(** The closure [get_new_period] of [schedule_early_close]. *)
Definition get_new_period (m : Market) (block_period : BlockNumber) (time_frame_period : Moment)
    : Res MarketPeriod :=
  match period m with
  | Block range =>
      let close_time := saturating_add u64_max now block_period in
      _ ← ensureR (close_time <? range_end range) PMK_EarlyCloseRequestTooLate;
      Ok (Block (mk_Range (range_start range) close_time))
  | Timestamp range =>
      let close_time := saturating_add u64_max now_time time_frame_period in
      _ ← ensureR (close_time <? range_end range) PMK_EarlyCloseRequestTooLate;
      Ok (Timestamp (mk_Range (range_start range) close_time))
  end.

Definition schedule_early_close (origin : RuntimeOrigin) (id : MarketId) : ST unit :=
  transactional (
    let is_authorized := CloseMarketEarlyOrigin origin in
    r ← (if is_authorized then m ← market id; mret (m, None)
         else
           who ← lift (ensure_signed origin);
           m ← market id;
           _ ← ensure (creator m =? who) PMK_RequesterNotCreator;
           mret (m, Some who));
    let '(m, market_creator) := r in
    _ ← lift (ensure_market_is_active m);
    new_period ←
      match early_close m with
      | Some p =>
          _ ← ensure is_authorized PMK_OnlyAuthorizedCanScheduleEarlyClose;
          _ ← match early_state p with
              | EarlyClose_Disputed =>
                  _ ← (if is_bond_pending close_dispute_bond m
                       then repatriate_bond close_dispute_bond id (creator m) else mret tt);
                  if is_bond_pending close_request_bond m
                  then unreserve_bond close_request_bond id else mret tt
              | EarlyClose_Rejected => mret tt
              | ScheduledAsMarketCreator | ScheduledAsOther => fail PMK_InvalidEarlyCloseState
              end;
          lift (get_new_period m CloseEarlyProtectionBlockPeriod
                  CloseEarlyProtectionTimeFramePeriod)
      | None =>
          periods ←
            (if is_authorized
             then mret (CloseEarlyProtectionBlockPeriod, CloseEarlyProtectionTimeFramePeriod)
             else
               market_creator ← ok_or market_creator PMK_RequesterNotCreator;
               _ ← zoom ledger set_ledger
                     (reserve_named reserve_id Ztg market_creator CloseEarlyRequestBond);
               _ ← mutate_market id (λ m, Ok (with_bond close_request_bond
                     (Some (Bond_new market_creator CloseEarlyRequestBond)) m));
               mret (CloseEarlyBlockPeriod, CloseEarlyTimeFramePeriod));
          lift (get_new_period m periods.1 periods.2)
      end;
    _ ← clear_auto_close id;
    let st := if is_authorized then ScheduledAsOther else ScheduledAsMarketCreator in
    _ ← mutate_market id (λ m,
          Ok (with_early_close (Some (mk_EarlyClose (period m) new_period st))
                (with_period new_period m)));
    _ ← insert_auto_close id;
    deposit_event (MarketEarlyCloseScheduled id new_period st)).

(** The expiry test only logs. *)
Definition dispute_early_close (origin : RuntimeOrigin) (id : MarketId) : ST unit :=
  transactional (
    who ← lift (ensure_signed origin);
    m ← market id;
    _ ← lift (ensure_market_is_active m);
    e ← ok_or (early_close m) PMK_NoEarlyCloseScheduled;
    _ ← match early_state e with
        | ScheduledAsMarketCreator => mret tt
        | ScheduledAsOther | EarlyClose_Disputed | EarlyClose_Rejected =>
            fail PMK_InvalidEarlyCloseState
        end;
    _ ← zoom ledger set_ledger (reserve_named reserve_id Ztg who CloseEarlyDisputeBond);
    _ ← clear_auto_close id;
    _ ← mutate_market id (λ m,
          Ok (with_early_close (Some (mk_EarlyClose (early_old e) (early_new e) EarlyClose_Disputed))
                (with_bond close_dispute_bond (Some (Bond_new who CloseEarlyDisputeBond))
                   (with_period (early_old e) m))));
    _ ← insert_auto_close id;
    deposit_event (MarketEarlyCloseDisputed id)).

Definition reject_early_close (origin : RuntimeOrigin) (id : MarketId) : ST unit :=
  transactional (
    _ ← ensure_origin (CloseMarketEarlyOrigin origin);
    m ← market id;
    _ ← lift (ensure_market_is_active m);
    e ← ok_or (early_close m) PMK_NoEarlyCloseScheduled;
    _ ← match early_state e with
        | EarlyClose_Disputed => mret tt
        | ScheduledAsOther =>
            _ ← clear_auto_close id;
            _ ← mutate_market id (λ m, Ok (with_period (early_old e) m));
            insert_auto_close id
        | ScheduledAsMarketCreator | EarlyClose_Rejected => fail PMK_InvalidEarlyCloseState
        end;
    _ ← match get_bond close_dispute_bond (bonds m) with
        | Some disputor_bond =>
            _ ← repatriate_bond close_request_bond id (bond_who disputor_bond);
            unreserve_bond close_dispute_bond id
        | None => mret tt
        end;
    _ ← mutate_market id (λ m,
          Ok (with_early_close (Some (mk_EarlyClose (early_old e) (early_new e) EarlyClose_Rejected))
                m));
    deposit_event (MarketEarlyCloseRejected id)).

(** *** Resolution *)

Definition resolve_reported_market (id : MarketId) (m : Market) : ST OutcomeReport :=
  r ← ok_or (report m) PMK_MarketIsNotReported;
  _ ← (if report_by r =? oracle m then unreserve_bond oracle_bond id
       else
         _ ← repatriate_bond oracle_bond id (report_by r);
         if is_bond_pending outsider_bond m then unreserve_bond outsider_bond id else mret tt);
  mret (report_outcome r).

Definition get_resolved_outcome (id : MarketId) (m : Market) (reported_outcome : OutcomeReport)
    : ST OutcomeReport :=
  winner ← zoom global_view set_global_disputes (gd_determine_voting_winner id);
  resolved_outcome_option ←
    match winner with
    | Some o => mret (Some o)
    | None =>
        mdm ← ok_or (dispute_mechanism m) PMK_NoDisputeMechanism;
        c ← gets commons;
        zoom dispute_view set_disputes
          (api_on_resolution (DisputeApi := mechanism mdm) (λ i, api_market i c) id m)
    end;
  mret (default reported_outcome resolved_outcome_option).

(** [subsume] adds imbalances. *)
Definition settle_bonds (id : MarketId) (m : Market) (resolved_outcome : OutcomeReport)
    (r : Report) : ST Balance :=
  let report_by_oracle := report_by r =? oracle m in
  let is_correct := bool_decide (report_outcome r = resolved_outcome) in
  overall_imbalance ←
    (if report_by_oracle then
       if is_correct then _ ← unreserve_bond oracle_bond id; mret 0
       else slash_bond oracle_bond id None
     else if is_correct then
       _ ← repatriate_bond oracle_bond id (report_by r);
       _ ← (if is_bond_pending outsider_bond m then unreserve_bond outsider_bond id else mret tt);
       mret 0
     else
       oracle_imbalance ← slash_bond oracle_bond id None;
       outsider_imbalance ← (if is_bond_pending outsider_bond m
                             then slash_bond outsider_bond id None else mret 0);
       mret (oracle_imbalance + outsider_imbalance));
  match get_bond dispute_bond (bonds m) with
  | Some bond =>
      if bond_is_settled bond then mret overall_imbalance
      else if is_correct then
        imb ← slash_bond dispute_bond id None;
        mret (overall_imbalance + imb)
      else
        _ ← unreserve_bond dispute_bond id;
        _ ← modify (λ s, set_ledger
              (cur_resolve_creating (bond_who bond) overall_imbalance (ledger s)) s);
        mret 0
  | None => mret overall_imbalance
  end.

Definition resolve_disputed_market (id : MarketId) (m : Market) : ST OutcomeReport :=
  mdm ← ok_or (dispute_mechanism m) PMK_NoDisputeMechanism;
  r ← ok_or (report m) PMK_MarketIsNotReported;
  resolved_outcome ← get_resolved_outcome id m (report_outcome r);
  imbalance_left ← settle_bonds id m resolved_outcome r;
  remainder ← zoom dispute_view set_disputes
                (api_exchange (DisputeApi := mechanism mdm) id m resolved_outcome imbalance_left);
  _ ← modify (λ s, set_ledger (on_unbalanced remainder (ledger s)) s);
  mret resolved_outcome.

Definition on_resolution (id : MarketId) (m : Market) : ST unit :=
  _ ← (if bool_decide (creation m = Permissionless) then unreserve_bond creation_bond id
       else mret tt);
  resolved ← match status m with
             | Reported => resolve_reported_market id m
             | Disputed => resolve_disputed_market id m
             | _ => fail PMK_InvalidMarketStatus
             end;
  c ← gets commons;
  _ ← zoom external_view set_externals (distribute_market_incentives c id);
  _ ← mutate_market id (λ m,
        Ok (with_resolved_outcome (Some resolved) (with_status Resolved m)));
  deposit_event (MarketResolved id Resolved resolved).

Definition admin_move_market_to_resolved (origin : RuntimeOrigin) (id : MarketId) : ST unit :=
  transactional (
    _ ← ensure_origin (ResolveOrigin origin);
    m ← market id;
    _ ← ensure (bool_decide (status m = Reported) || bool_decide (status m = Disputed))
          PMK_InvalidMarketStatus;
    _ ← clear_auto_resolve id;
    m ← market id;
    on_resolution id m).

(** *** Reports *)

(** When the report may be made and whether only the oracle may make it. *)
Definition should_check_origin (m : Market) (r : Report) : Res bool :=
  match period m with
  | Block range =>
      let grace_period_end :=
        saturating_add u64_max (range_end range) (grace_period (deadlines m)) in
      _ ← ensureR (grace_period_end <=? report_at r) PMK_NotAllowedToReportYet;
      let oracle_duration_end :=
        saturating_add u64_max grace_period_end (oracle_duration (deadlines m)) in
      Ok (report_at r <=? oracle_duration_end)
  | Timestamp range =>
      let grace_period_in_ms :=
        saturating_mul u64_max (Z.min u32_max (grace_period (deadlines m))) MILLISECS_PER_BLOCK in
      let grace_period_end := saturating_add u64_max (range_end range) grace_period_in_ms in
      _ ← ensureR (grace_period_end <=? now_time) PMK_NotAllowedToReportYet;
      let oracle_duration_in_ms :=
        saturating_mul u64_max (Z.min u32_max (oracle_duration (deadlines m)))
          MILLISECS_PER_BLOCK in
      let oracle_duration_end := saturating_add u64_max grace_period_end oracle_duration_in_ms in
      Ok (now_time <=? oracle_duration_end)
  end.

Definition report_market_with_dispute_mechanism (origin : RuntimeOrigin) (id : MarketId)
    (r : Report) : ST unit :=
  sender ← lift (ensure_signed origin);
  _ ← mutate_market_with id (λ m,
        check ← lift (should_check_origin m r);
        let sender_is_oracle := sender =? oracle m in
        let origin_has_permission := ResolveOrigin origin in
        let sender_is_outsider := negb sender_is_oracle && negb origin_has_permission in
        m ← (if (check : bool) then
               _ ← ensure (sender_is_oracle || origin_has_permission) PMK_ReporterNotOracle;
               mret m
             else if sender_is_outsider then
               _ ← zoom ledger set_ledger (reserve_named reserve_id Ztg sender OutsiderBond);
               mret (with_bond outsider_bond (Some (Bond_new sender OutsiderBond)) m)
             else mret m);
        mret (with_status Reported (with_report (Some r) m)));
  m ← market id;
  let block_after_dispute_duration :=
    saturating_add u64_max (report_at r) (dispute_duration (deadlines m)) in
  push_id MarketIdsPerReportBlock set_report_blocks block_after_dispute_duration id.

Definition report_and_resolve_market (origin : RuntimeOrigin) (id : MarketId) (r : Report)
    : ST unit :=
  _ ← mutate_market id (λ m,
        sender ← ensure_signed origin;
        _ ← ensureR ((sender =? oracle m) || ResolveOrigin origin) PMK_ReporterNotOracle;
        Ok (with_status Reported (with_report (Some r) m)));
  m ← market id;
  on_resolution id m.

(** The extrinsic [report]. *)
Definition report_market (origin : RuntimeOrigin) (id : MarketId) (outcome : OutcomeReport)
    : ST unit :=
  transactional (
    sender ← lift (ensure_signed origin);
    let market_report := mk_Report now sender outcome in
    m ← market id;
    _ ← ensure (bool_decide (report m = None)) PMK_MarketAlreadyReported;
    _ ← lift (ensure_market_is_closed m);
    _ ← ensure (matches_outcome_report m outcome) PMK_OutcomeMismatch;
    _ ← match dispute_mechanism m with
        | Some _ => report_market_with_dispute_mechanism origin id market_report
        | None => report_and_resolve_market origin id market_report
        end;
    deposit_event (MarketReported id Reported market_report)).

(** *** Disputes *)

Definition dispute (origin : RuntimeOrigin) (id : MarketId) : ST unit :=
  transactional (
    who ← lift (ensure_signed origin);
    m ← market id;
    _ ← ensure (bool_decide (status m = Reported)) PMK_InvalidMarketStatus;
    mdm ← ok_or (dispute_mechanism m) PMK_NoDisputeMechanism;
    _ ← zoom dispute_view set_disputes (api_on_dispute (DisputeApi := mechanism mdm) id m);
    _ ← zoom ledger set_ledger (reserve_named reserve_id Ztg who DisputeBond);
    _ ← mutate_market id (λ m,
          Ok (with_bond dispute_bond (Some (Bond_new who DisputeBond)) (with_status Disputed m)));
    deposit_event (MarketDisputed id Disputed who)).

Definition start_global_dispute (origin : RuntimeOrigin) (id : MarketId) : ST unit :=
  transactional (
    _ ← lift (ensure_signed origin);
    m ← market id;
    mdm ← ok_or (dispute_mechanism m) PMK_NoDisputeMechanism;
    _ ← ensure (bool_decide (status m = Disputed) || bool_decide (status m = Reported))
          PMK_InvalidMarketStatus;
    _ ← ensure (bool_decide (mdm = MDM_Court)) PMK_InvalidDisputeMechanism;
    g ← gets global_disputes;
    _ ← ensure (negb (gd_does_exist id g)) PMK_GlobalDisputeExistsAlready;
    r ← ok_or (report m) PMK_MarketIsNotReported;
    c ← gets commons;
    has_failed ← zoom dispute_view set_disputes
                   (api_has_failed (DisputeApi := mechanism mdm) (λ i, api_market i c) id m);
    _ ← ensure has_failed PMK_MarketDisputeMechanismNotFailed;
    gd_items ← zoom dispute_view set_disputes
                 (api_on_global_dispute (DisputeApi := mechanism mdm) id m);
    let initial_items :=
      mk_InitialItem (report_outcome r) (report_by r) 0 ::
      ((λ i, mk_InitialItem (gdi_outcome i) (gdi_owner i) (gdi_initial_vote_amount i))
         <$> gd_items) in
    _ ← clear_auto_resolve id;
    _ ← (if bool_decide (status m = Reported)
         then mutate_market id (λ m, Ok (with_status Disputed m)) else mret tt);
    c ← gets commons;
    _ ← zoom global_view set_global_disputes (gd_start_global_dispute now c id initial_items);
    deposit_event (GlobalDisputeStarted id)).

(** *** The block hook *)

Definition for_market (f : MarketId → Market → ST unit) (id : MarketId) : ST unit :=
  m ← market id; f id m.

Definition market_status_manager (block_number : BlockNumber)
    (last_time_frame current_time_frame : Z) (mutation : MarketId → Market → ST unit) : ST unit :=
  market_ids_per_block ← gets (λ s, ids_at block_number (MarketIdsPerCloseBlock s));
  _ ← for_each (for_market mutation) market_ids_per_block;
  _ ← modify (λ s, set_close_block (delete block_number (MarketIdsPerCloseBlock s)) s);
  let first := saturating_add u64_max last_time_frame 1 in
  for_each (λ time_frame,
    market_ids ← gets (λ s, ids_at time_frame (MarketIdsPerCloseTimeFrame s));
    _ ← for_each (for_market mutation) market_ids;
    modify (λ s, set_close_time_frame (delete time_frame (MarketIdsPerCloseTimeFrame s)) s))
    (seqZ first (current_time_frame - first + 1)).

Definition resolution_manager (block_number : BlockNumber) (cb : MarketId → Market → ST unit)
    : ST unit :=
  reported ← gets (λ s, ids_at block_number (MarketIdsPerReportBlock s));
  _ ← for_each (for_market (λ id m,
        if bool_decide (status m = Reported) then cb id m else mret tt)) reported;
  _ ← modify (λ s, set_report_blocks (delete block_number (MarketIdsPerReportBlock s)) s);
  disputed ← gets (λ s, ids_at block_number (dispute_blocks s));
  _ ← for_each (for_market cb) disputed;
  modify (λ s, set_dispute_blocks (delete block_number (dispute_blocks s)) s).

(** The transaction of [on_initialize]: both managers run, whatever the first one
    returns; an error of either rolls everything back. *)
Definition initialize_block : ST unit :=
  let current_time_frame :=
    saturating_add u64_max (calculate_time_frame_of_moment now_time) 1 in
  last ← gets LastTimeFrame;
  let last_time_frame := default (saturating_sub current_time_frame 1) last in
  transactional (
    close ← attempt (market_status_manager now last_time_frame current_time_frame on_market_close);
    resolve ← attempt (resolution_manager now on_resolution);
    _ ← modify (set_LastTimeFrame (Some current_time_frame));
    match close, resolve with
    | Ok _, Ok _ => mret tt
    | Err e, _ | _, Err e => _ ← deposit_event BadOnInitialize; fail e
    end).
Definition on_initialize (s : St) : St := (initialize_block s).2.

(** *** Dispatch *)

(** The calls of the pallet that the runtime dispatches. *)
Inductive Call : Type :=
| Call_buy_complete_set (id : MarketId) (amount : Balance)
| Call_sell_complete_set (id : MarketId) (amount : Balance)
| Call_redeem_shares (id : MarketId)
| Call_create_market (base : Asset) (fee : Perbill) (oracle : AccountId) (period : MarketPeriod)
    (deadlines : Deadlines) (metadata : MultiHash) (creation : MarketCreation) (t : MarketType)
    (mdm : option MarketDisputeMechanism) (rule : ScoringRule)
| Call_create_market_and_deploy_pool (base : Asset) (fee : Perbill) (oracle : AccountId)
    (period : MarketPeriod) (deadlines : Deadlines) (metadata : MultiHash) (t : MarketType)
    (mdm : option MarketDisputeMechanism) (amount : Balance) (spot_prices : list Balance)
    (swap_fee : Balance)
| Call_approve_market (id : MarketId)
| Call_request_edit (id : MarketId) (edit_reason : list Z)
| Call_edit_market (base : Asset) (id : MarketId) (oracle : AccountId) (period : MarketPeriod)
    (deadlines : Deadlines) (metadata : MultiHash) (t : MarketType)
    (mdm : option MarketDisputeMechanism) (rule : ScoringRule)
| Call_reject_market (id : MarketId) (reject_reason : list Z)
| Call_admin_move_market_to_closed (id : MarketId)
| Call_close_trusted_market (id : MarketId)
| Call_schedule_early_close (id : MarketId)
| Call_dispute_early_close (id : MarketId)
| Call_reject_early_close (id : MarketId)
| Call_admin_move_market_to_resolved (id : MarketId)
| Call_report (id : MarketId) (outcome : OutcomeReport)
| Call_dispute (id : MarketId)
| Call_start_global_dispute (id : MarketId).

Definition dispatch (origin : RuntimeOrigin) (c : Call) (s : St) : Res unit * St :=
  match c with
  | Call_buy_complete_set id amount => buy_complete_set origin id amount s
  | Call_sell_complete_set id amount => sell_complete_set origin id amount s
  | Call_redeem_shares id => redeem_shares origin id s
  | Call_create_market base fee oracle period deadlines metadata creation t mdm rule =>
      (_ ← create_market origin base fee oracle period deadlines metadata creation t mdm rule;
       mret tt) s
  | Call_create_market_and_deploy_pool base fee oracle period deadlines metadata t mdm amount
      spot_prices swap_fee =>
      (_ ← create_market_and_deploy_pool origin base fee oracle period deadlines metadata t mdm
             amount spot_prices swap_fee;
       mret tt) s
  | Call_approve_market id => approve_market origin id s
  | Call_request_edit id edit_reason => request_edit origin id edit_reason s
  | Call_edit_market base id oracle period deadlines metadata t mdm rule =>
      edit_market origin base id oracle period deadlines metadata t mdm rule s
  | Call_reject_market id reject_reason => reject_market origin id reject_reason s
  | Call_admin_move_market_to_closed id => admin_move_market_to_closed origin id s
  | Call_close_trusted_market id => close_trusted_market origin id s
  | Call_schedule_early_close id => schedule_early_close origin id s
  | Call_dispute_early_close id => dispute_early_close origin id s
  | Call_reject_early_close id => reject_early_close origin id s
  | Call_admin_move_market_to_resolved id => admin_move_market_to_resolved origin id s
  | Call_report id outcome => report_market origin id outcome s
  | Call_dispute id => dispute origin id s
  | Call_start_global_dispute id => start_global_dispute origin id s
  end.
End PredictionMarkets.

(** A step of the chain as this pallet sees it: a dispatched call, the block hook,
    or a step of another pallet, which does not write the storage of the markets. *)
Section Steps.
Context {C L D G X : Type}.
Context `{MarketCommonsPalletApi C, AssetManager L, Currency L, Config L}.
Context (mechanism : MarketDisputeMechanism → DisputeApi D IdsPer L).
Context `{GlobalDisputesPalletApi C G IdsPer}.
Context `{LiquidityMiningPalletApi C X L, DeployPoolApi C X L}.
Inductive pallet_step : State C L D G X → State C L D G X → Prop :=
| step_call now now_time origin c s :
    pallet_step s (dispatch mechanism now now_time origin c s).2
| step_block now now_time s : pallet_step s (on_initialize mechanism now now_time s)
| step_other s s' : commons s' = commons s → pallet_step s s'.
End Steps.
