(* ===== verification/Runtime.v ===== *)
(** * A runtime for the examples

    A concrete configuration of the prediction markets pallet with the constants of
    [primitives/src/constants.rs], the modelled dispute pallets and a concrete
    ledger. It shows that the hypotheses of the theorems can be met and lets the
    examples evaluate; liquidity mining, pool deployment and, here, the court are
    stand-ins that refuse or do nothing; [CourtMarkets] puts the court in its place. *)
From S2P Require Import Prelude GlobalDisputes SimpleDisputes Authorized Disputes MarketCommons.
From S2P Require Import Currencies Ledgers Errors Types PredictionMarkets.

Definition MAX_MARKET_LIFETIME : BlockNumber := 4 * BLOCKS_PER_YEAR.
Definition MIN_DISPUTE_DURATION : BlockNumber := 12 * BLOCKS_PER_HOUR.
Definition MIN_ORACLE_DURATION : BlockNumber := BLOCKS_PER_HOUR.
Definition MAX_DISPUTE_DURATION : BlockNumber := 30 * BLOCKS_PER_DAY.
Definition MAX_GRACE_PERIOD : BlockNumber := BLOCKS_PER_YEAR.
Definition MAX_ORACLE_DURATION : BlockNumber := 14 * BLOCKS_PER_DAY.

(** Parts of [10 ^ 9] and of [100], rounded down. *)
Definition example_from_rational (a b : Z) : Perbill :=
  if b =? 0 then 10 ^ 9 else Z.max 0 (Z.min (10 ^ 9) (a * 10 ^ 9 / b)).
Definition example_perbill_mul (p : Perbill) (x : Balance) : Balance := p * x / 10 ^ 9.
Definition example_percent_mul (p : Z) (x : Balance) : Balance := Z.max 0 (Z.min x (p * x / 100)).

(** Market accounts are negative, user accounts of the examples positive. *)
Definition sub_account (id : MarketId) : AccountId := if 0 <=? id then - 1 - 2 * id else 2 * id.

#[export] Instance example_config : Config RuntimeLedger := {
  AdvisoryBond := 200 * BASE;
  AdvisoryBondSlashPercentage := 30;
  OracleBond := 200 * BASE;
  OutsiderBond := 400 * BASE;
  ValidityBond := 50 * BASE;
  DisputeBond := 25 * BASE;
  CloseEarlyDisputeBond := 10 * BASE;
  CloseEarlyRequestBond := 5 * BASE;
  CloseEarlyProtectionBlockPeriod := 12 * BLOCKS_PER_HOUR;
  CloseEarlyProtectionTimeFramePeriod := 12 * BLOCKS_PER_HOUR * MILLISECS_PER_BLOCK;
  CloseEarlyBlockPeriod := 5 * BLOCKS_PER_DAY;
  CloseEarlyTimeFramePeriod := 5 * BLOCKS_PER_DAY * MILLISECS_PER_BLOCK;
  MaxMarketLifetime := MAX_MARKET_LIFETIME;
  MinOracleDuration := MIN_ORACLE_DURATION;
  MaxOracleDuration := MAX_ORACLE_DURATION;
  MinDisputeDuration := MIN_DISPUTE_DURATION;
  MaxDisputeDuration := MAX_DISPUTE_DURATION;
  MaxGracePeriod := MAX_GRACE_PERIOD;
  MinCategories := 2;
  MaxCategories := MAX_CATEGORIES;
  MaxCreatorFee := 10 ^ 7;
  MaxEditReasonLen := 1024;
  MaxRejectReasonLen := 1024;
  reserve_id := "zge/pred";
  market_account := sub_account;
  ApproveOrigin o := match o with Root => true | _ => false end;
  RejectOrigin o := match o with Root => true | _ => false end;
  RequestEditOrigin o := match o with Root => true | _ => false end;
  CloseOrigin o := match o with Root => true | _ => false end;
  ResolveOrigin o := match o with Root => true | _ => false end;
  CloseMarketEarlyOrigin o := match o with Root => true | _ => false end;
  registry_metadata _ := None;
  percent_mul_floor := example_percent_mul;
  perbill_mul_floor := example_perbill_mul;
  perbill_from_rational := example_from_rational;
  on_unbalanced _ l := l;
}.

#[export] Instance example_config_laws : ConfigLaws RuntimeLedger.
Proof.
  split; cbn [perbill_from_rational perbill_mul_floor percent_mul_floor market_account
    example_config].
  - intros a b. unfold example_from_rational. destruct (b =? 0); lia.
  - intros p x Hp Hx. unfold example_perbill_mul. split; [apply Z.div_pos; lia|].
    apply Z.mul_div_le. lia.
  - intros p x Hx. unfold example_percent_mul. lia.
  - intros id id'. unfold sub_account. destruct (Z.leb_spec 0 id), (Z.leb_spec 0 id'); lia.
Qed.

(** ** Dispute mechanisms *)

(** The storage of the authorized and the simple disputes pallets. *)
Abbreviation MechanismStorage := (AuthorizedOutcomeReports * DisputesMap)%type.
Section Lift.
Context {D1 D2 R L : Type}.
Definition on_first {A} (f : Store (D1 * R * L) A) : Store (D1 * D2 * R * L) A :=
  zoom (λ s, (s.1.1.1, s.1.2, s.2)) (λ t s, ((t.1.1, s.1.1.2), t.1.2, t.2)) f.
Definition on_second {A} (f : Store (D2 * R * L) A) : Store (D1 * D2 * R * L) A :=
  zoom (λ s, (s.1.1.2, s.1.2, s.2)) (λ t s, ((s.1.1.1, t.1.1), t.1.2, t.2)) f.
Definition lift_first (d : DisputeApi D1 R L) : DisputeApi (D1 * D2) R L := {|
  api_on_dispute id m := on_first (api_on_dispute id m);
  api_on_resolution markets id m := on_first (api_on_resolution markets id m);
  api_exchange id m o b := on_first (api_exchange id m o b);
  api_get_auto_resolve id m s := Disputes.api_get_auto_resolve id m s.1;
  api_has_failed markets id m := on_first (api_has_failed markets id m);
  api_on_global_dispute id m := on_first (api_on_global_dispute id m);
  api_clear id m := on_first (api_clear id m);
|}.
Definition lift_second (d : DisputeApi D2 R L) : DisputeApi (D1 * D2) R L := {|
  api_on_dispute id m := on_second (api_on_dispute id m);
  api_on_resolution markets id m := on_second (api_on_resolution markets id m);
  api_exchange id m o b := on_second (api_exchange id m o b);
  api_get_auto_resolve id m s := Disputes.api_get_auto_resolve id m s.2;
  api_has_failed markets id m := on_second (api_has_failed markets id m);
  api_on_global_dispute id m := on_second (api_on_global_dispute id m);
  api_clear id m := on_second (api_clear id m);
|}.
(** No jurors: every dispute fails. *)
Definition empty_court : DisputeApi (D1 * D2) R L := {|
  api_on_dispute id m := fail (External 2);
  api_on_resolution _ id m := mret None;
  api_exchange id m o b := mret b;
  api_get_auto_resolve id m s := None;
  api_has_failed _ id m := mret true;
  api_on_global_dispute id m := mret [];
  api_clear id m := mret tt;
|}.
End Lift.

Definition example_mechanism (k : MarketDisputeMechanism)
    : DisputeApi MechanismStorage IdsPer RuntimeLedger :=
  match k with
  | MDM_Authorized => lift_first Authorized_dispute_api
  | MDM_Court => empty_court
  | MDM_SimpleDisputes => lift_second (SimpleDisputes_dispute_api "zge/sedp" 6)
  end.

#[export] Instance example_liquidity_mining :
  LiquidityMiningPalletApi MarketCommons.State unit RuntimeLedger :=
  {| distribute_market_incentives c id := mret tt |}.
#[export] Instance example_deploy_pool : DeployPoolApi MarketCommons.State unit RuntimeLedger :=
  {| deploy_pool c who id amount prices fee := mret tt |}.
#[export] Instance example_global_disputes :
  GlobalDisputesPalletApi MarketCommons.State GlobalDisputes.Storage IdsPer :=
  GlobalDisputes_api 20 140 10.

Abbreviation Chain :=
  (PredictionMarkets.State MarketCommons.State RuntimeLedger MechanismStorage
     GlobalDisputes.Storage unit).
