(* ===== verification/CompleteSets.v ===== *)
(** * Complete sets and redemption

    Theorems about [buy_complete_set], [sell_complete_set] and [redeem_shares]
    of [PredictionMarkets]: outcome tokens exist only against the base asset that
    the account of the market holds, and redemption never runs out of it. *)
From S2P Require Import Prelude GlobalDisputes SimpleDisputes Authorized Disputes MarketCommons Currencies.
From S2P Require Import Ledgers Errors Types PredictionMarkets Runtime.

(** ** Outcome assets *)

Lemma outcome_assets_nodup id m : NoDup (outcome_assets id m).
Proof.
  unfold outcome_assets. destruct (market_type m).
  - apply NoDup_fmap; [intros ?? [=]; done|]. apply NoDup_seqZ.
  - repeat constructor; set_solver.
Qed.

(** Base assets that [construct_market] accepts. *)
Definition proper_base (a : Asset) : Prop :=
  match a with Ztg | ForeignAsset _ => True | _ => False end.

Lemma proper_base_outcome a id m : proper_base a → a ∉ outcome_assets id m.
Proof.
  intros Ha Hin. unfold outcome_assets in Hin. destruct (market_type m).
  - apply list_elem_of_fmap in Hin as (i & -> & _). done.
  - set_unfold in Hin. by destruct Hin as [->|[->|[]]].
Qed.

Lemma construct_market_base now now_time {L} `{Config L} b c f o p d md cr t mdm ru r res bo m :
  construct_market (L := L) now now_time b c f o p d md cr t mdm ru r res bo = Ok m →
  base_asset m = b ∧ proper_base b.
Proof.
  unfold construct_market. intros Hc. run_inv Hc. intros <-. split; [done|].
  destruct b; try done; cbn in *; simplify_eq.
Qed.

Section Sets.
Context {C L D G X : Type}.
Context `{MarketCommonsPalletApi C, !AssetManager L, !Currency L, !Config L}.
Context `{!AssetManagerLaws L}.
Abbreviation St := (State C L D G X).
Implicit Types (s : St) (l : L) (m : Market).

(** ** Loops over the outcome assets *)

Definition held (who : AccountId) (assets : list Asset) (amount : Balance) (b : Asset)
    (z : AccountId) : Balance := if decide (b ∈ assets ∧ z = who) then amount else 0.
Definition issued (assets : list Asset) (amount : Balance) (b : Asset) : Balance :=
  if decide (b ∈ assets) then amount else 0.

Lemma held_cons who a assets amount b z :
  a ∉ assets → held who (a :: assets) amount b z = at_ (a, who) (b, z) amount + held who assets amount b z.
Proof.
  intros Ha. unfold held, at_. destruct (decide ((a, who) = (b, z))); simplify_eq.
  - rewrite decide_True, decide_False by set_solver. lia.
  - assert (b ∈ a :: assets ∧ z = who ↔ b ∈ assets ∧ z = who) as Hiff.
    { rewrite elem_of_cons. split; [|by intros [? ->]; auto]. intros [[->|?] ->]; [congruence|done]. }
    rewrite (decide_ext _ _ _ _ Hiff). done.
Qed.

Lemma issued_cons a assets amount b :
  a ∉ assets → issued (a :: assets) amount b = at_ a b amount + issued assets amount b.
Proof.
  intros Ha. unfold issued, at_. destruct (decide (a = b)) as [->|].
  - rewrite decide_True, decide_False by set_solver. lia.
  - assert (b ∈ a :: assets ↔ b ∈ assets) as Hiff by (rewrite elem_of_cons; naive_solver).
    rewrite (decide_ext _ _ _ _ Hiff). done.
Qed.

(** Only the ledger changes. *)
Definition only_ledger s s' : Prop := s' = set_ledger (ledger s') s.
#[export] Instance only_ledger_preorder : PreOrder only_ledger.
Proof.
  split; [by intros []|]. intros s1 s2 s3 H1 H2. unfold only_ledger in *. by rewrite H2, H1.
Qed.
Lemma only_ledger_set s l : only_ledger s (set_ledger l s).
Proof. done. Qed.

Lemma deposit_all who amount assets s s' u :
  NoDup assets → 0 ≤ amount →
  for_each (E := DispatchError) (λ a, zoom ledger set_ledger (deposit a who amount)) assets s = (Ok u, s') →
  only_ledger s s' ∧
  (∀ b z, free_balance b z (ledger s') =
    free_balance b z (ledger s) + held who assets amount b z) ∧
  (∀ b, total_issuance b (ledger s') = total_issuance b (ledger s) + issued assets amount b).
Proof.
  intros Hnd Ham. revert s. induction Hnd as [|a assets Ha _ IH]; intros s Hl; cbn in Hl.
  - injection Hl as _ <-. split; [done|]. unfold held, issued.
    split; intros; rewrite decide_False by set_solver; lia.
  - apply bind_ok_inv in Hl as (v & s1 & Hd & Hl). run_inv Hd.
    apply deposit_ok in Hd as (Hf & Hi & _); [|done].
    destruct (IH _ Hl) as (Ho & Hf' & Hi'). cbn [ledger set_ledger] in Hf', Hi'. split; [|split].
    + etransitivity; [apply only_ledger_set|exact Ho].
    + intros b z. rewrite Hf', Hf, held_cons by done. lia.
    + intros b. rewrite Hi', Hi, issued_cons by done. lia.
Qed.

Lemma slash_all who amount assets s s' u :
  NoDup assets → 0 ≤ amount → (∀ a, a ∈ assets → amount ≤ free_balance a who (ledger s)) →
  for_each (E := DispatchError) (λ a, _ ← zoom ledger set_ledger (infallible (slash a who amount)); mret tt) assets s
    = (Ok u, s') →
  only_ledger s s' ∧
  (∀ b z, free_balance b z (ledger s') =
    free_balance b z (ledger s) - held who assets amount b z) ∧
  (∀ b, total_issuance b (ledger s') = total_issuance b (ledger s) - issued assets amount b).
Proof.
  intros Hnd Ham. revert s. induction Hnd as [|a assets Ha _ IH]; intros s Hfree Hl; cbn in Hl.
  - injection Hl as _ <-. split; [done|]. unfold held, issued.
    split; intros; rewrite decide_False by set_solver; lia.
  - apply bind_ok_inv in Hl as (v & s1 & Hd & Hl). run_inv Hd.
    apply slash_spec in Hm as (_ & Hf & Hi & _); [|split; [done|apply Hfree; by left]].
    destruct (IH (set_ledger t s)) as (Ho & Hf' & Hi'); [|exact Hl|].
    { intros b Hb. cbn. rewrite Hf, at_ne by congruence. rewrite Z.sub_0_r. apply Hfree. by right. }
    cbn [ledger set_ledger] in Hf', Hi'. split; [|split].
    + etransitivity; [apply only_ledger_set|exact Ho].
    + intros b z. rewrite Hf', Hf, held_cons by done. lia.
    + intros b. rewrite Hi', Hi, issued_cons by done. lia.
Qed.

Lemma check_all who amount assets s s' u :
  for_each (E := DispatchError) (λ a, free ← gets (λ s, free_balance a who (ledger s));
    ensure (amount <=? free) PMK_InsufficientShareBalance) assets s = (Ok u, s') →
  s' = s ∧ ∀ a, a ∈ assets → amount ≤ free_balance a who (ledger s).
Proof.
  revert s. induction assets as [|a assets IH]; intros s Hl; cbn in Hl.
  - injection Hl as _ <-. split; [done|]. set_solver.
  - apply bind_ok_inv in Hl as (v & s1 & Hd & Hl). run_inv Hd. guards.
    destruct (IH s Hl) as [-> Hall]. split; [done|]. intros b [->|Hb]%elem_of_cons; auto.
Qed.

Lemma market_inv id s s' m :
  market id s = (Ok m, s') → api_market id (commons s) = Ok m ∧ s' = s.
Proof. unfold market. intros Hm. by run_inv Hm. Qed.

(** ** Buying and selling *)

(** What [do_buy_complete_set] ([sign = 1]) and [do_sell_complete_set]
    ([sign = -1]) move. *)
Definition set_traded (id : MarketId) m (who : AccountId) (amount : Balance) (l l' : L) : Prop :=
  (∀ b z, free_balance b z l' = free_balance b z l
    - at_ (base_asset m, who) (b, z) amount + at_ (base_asset m, market_account id) (b, z) amount
    + held who (outcome_assets id m) amount b z) ∧
  (∀ b, total_issuance b l' = total_issuance b l + issued (outcome_assets id m) amount b).

Lemma at_pair {K K'} `{EqDecision K, EqDecision K'} (a b : K) (x : K') amt :
  at_ (a, x) (b, x) amt = at_ a b amt.
Proof. unfold at_. by repeat destruct (decide _); simplify_eq. Qed.
Lemma at_neg {K} `{EqDecision K} (k k' : K) amt : at_ k k' (- amt) = - at_ k k' amt.
Proof. unfold at_. by destruct (decide _). Qed.
Lemma held_neg who assets amount b z : held who assets (- amount) b z = - held who assets amount b z.
Proof. unfold held. by destruct (decide _). Qed.
Lemma issued_neg assets amount b : issued assets (- amount) b = - issued assets amount b.
Proof. unfold issued. by destruct (decide _). Qed.

Lemma buy_set_inv who id amount s s' u :
  0 ≤ amount → do_buy_complete_set who id amount s = (Ok u, s') →
  ∃ m, api_market id (commons s) = Ok m ∧ status m = Active ∧ is_redeemable m = true ∧
    0 < amount ≤ free_balance (base_asset m) who (ledger s) ∧
    set_traded id m who amount (ledger s) (ledger s') ∧
    commons s' = commons s ∧ events s' = BoughtCompleteSet id amount who :: events s.
Proof.
  intros Ham Hb. unfold do_buy_complete_set in Hb.
  apply bind_ok_inv in Hb as (v & s0 & H0 & Hb). run_inv H0.
  apply bind_ok_inv in Hb as (m & s0 & Hm & Hb). apply market_inv in Hm as [Hm ->].
  unfold deposit_event in Hb. run_inv Hb. guards. unfold ensure_market_is_active in *.
  match goal with Ha : ensureR _ _ = Ok _ |- _ => apply ensureR_ok_inv in Ha end. guards.
  match goal with Ht : transfer _ _ _ _ _ = _ |- _ =>
    apply transfer_ok in Ht as (_ & Hf & Hi & _); [|done] end.
  match goal with Hd : for_each _ _ _ = _ |- _ =>
    apply deposit_all in Hd as (Ho & Hf' & Hi'); [|apply outcome_assets_nodup|done] end.
  cbn [ledger set_ledger] in Hf', Hi'. exists m. do 3 (split; [done|]). split; [lia|].
  split; [|rewrite Ho; done]. split; intros; cbn.
  - by rewrite Hf', Hf.
  - by rewrite Hi', Hi.
Qed.

Lemma do_sell_inv who id amount s s' u :
  0 ≤ amount → do_sell_complete_set who id amount s = (Ok u, s') →
  ∃ m, api_market id (commons s) = Ok m ∧ is_redeemable m = true ∧
    0 < amount ≤ free_balance (base_asset m) (market_account id) (ledger s) ∧
    (∀ a, a ∈ outcome_assets id m → amount ≤ free_balance a who (ledger s)) ∧
    set_traded id m who (- amount) (ledger s) (ledger s') ∧
    commons s' = commons s ∧ events s' = SoldCompleteSet id amount who :: events s.
Proof.
  intros Ham Hb. unfold do_sell_complete_set in Hb.
  apply bind_ok_inv in Hb as (v & s0 & H0 & Hb). run_inv H0.
  apply bind_ok_inv in Hb as (m & s0 & Hm & Hb). apply market_inv in Hm as [Hm ->].
  apply bind_ok_inv in Hb as (v1 & s0 & H1' & Hb). run_inv H1'.
  apply bind_ok_inv in Hb as (pot & s0 & H2' & Hb). run_inv H2'.
  apply bind_ok_inv in Hb as (v2 & s0 & H3' & Hb). run_inv H3'.
  apply bind_ok_inv in Hb as (v3 & s0 & Hc & Hb). apply check_all in Hc as [-> Hall].
  apply bind_ok_inv in Hb as (v4 & s2 & Hs & Hb).
  apply slash_all in Hs as (Ho & Hf & Hi); [|apply outcome_assets_nodup|done|done].
  unfold deposit_event in Hb. run_inv Hb. guards.
  match goal with Ht : transfer _ _ _ _ _ = _ |- _ =>
    apply transfer_ok in Ht as (_ & Hf' & Hi' & _); [|done] end.
  exists m. do 2 (split; [done|]). split; [lia|]. split; [done|]. split; [|rewrite Ho; done].
  split; intros; cbn.
  - rewrite Hf', Hf, !at_neg, held_neg. lia.
  - rewrite Hi', Hi, issued_neg. lia.
Qed.

(** ** Collateral *)
Context `{!ConfigLaws L}.

(** The account of the market holds a unit of the base asset for every unit of
    each outcome token. *)
Definition collateralised (id : MarketId) m l : Prop :=
  ∀ a, a ∈ outcome_assets id m → total_issuance a l ≤ free_balance (base_asset m) (market_account id) l.

Lemma outcome_assets_market a id m id' m' :
  a ∈ outcome_assets id m → a ∈ outcome_assets id' m' → id = id'.
Proof.
  assert (∀ i n, a ∈ outcome_assets i n →
    match a with CategoricalOutcome j _ | ScalarOutcome j _ => j = i | _ => False end) as Ha.
  { intros i n Hin. unfold outcome_assets in Hin. destruct (market_type n).
    - by apply list_elem_of_fmap in Hin as (k & -> & _).
    - set_unfold in Hin. by destruct Hin as [->|[->|[]]]. }
  intros H1%Ha H2%Ha. destruct a; first [done|congruence].
Qed.

Lemma held_notin who assets amount b z : b ∉ assets → held who assets amount b z = 0.
Proof. intros. unfold held. rewrite decide_False; naive_solver. Qed.
Lemma issued_in assets amount b : b ∈ assets → issued assets amount b = amount.
Proof. intros. unfold issued. by rewrite decide_True. Qed.
Lemma issued_notin assets amount b : b ∉ assets → issued assets amount b = 0.
Proof. intros. unfold issued. by rewrite decide_False. Qed.

Lemma traded_collateral id m id2 m2 who amount l l' :
  set_traded id m who amount l l' → who ≠ market_account id2 →
  proper_base (base_asset m2) → (id2 = id → m2 = m) →
  collateralised id2 m2 l → collateralised id2 m2 l'.
Proof.
  intros [Hf Hi] Hwho Hp2 Hid Hc a Ha. specialize (Hc a Ha).
  rewrite Hf, Hi, held_notin by (by apply proper_base_outcome).
  rewrite (at_ne (base_asset m, who)) by (intros [= _ ?]; by apply Hwho).
  destruct (decide (id2 = id)) as [->|Hne].
  - rewrite (Hid eq_refl) in *. rewrite at_eq, issued_in by done. lia.
  - rewrite at_ne, issued_notin; [lia| |].
    + intros Hin. destruct Hne. by apply (outcome_assets_market a id2 m2 id m).
    + intros [= _ Heq]. apply Hne. symmetry. by apply market_account_inj.
Qed.

(** A trade in complete sets: the account, the market, the amount, and whether it
    buys. *)
Definition SetCall : Type := AccountId * MarketId * Balance * bool.
Definition run_set_call (c : SetCall) (s : St) : St :=
  let '(who, id, amount, buys) := c in
  if (buys : bool) then (buy_complete_set (Signed who) id amount s).2
  else (sell_complete_set (Signed who) id amount s).2.
(** Nobody has the key of a market's account. *)
Definition valid_set_call (c : SetCall) : Prop :=
  let '(who, id, amount, buys) := c in in_u128 amount ∧ ∀ id', who ≠ market_account id'.

Definition all_collateralised s : Prop :=
  ∀ id m, api_market id (commons s) = Ok m → collateralised id m (ledger s).

Lemma run_set_call_traded c s :
  valid_set_call c →
  let '(who, id, amount, buys) := c in
  run_set_call c s = s ∨
  commons (run_set_call c s) = commons s ∧ ∃ m x, api_market id (commons s) = Ok m ∧
    set_traded id m who x (ledger s) (ledger (run_set_call c s)).
Proof.
  destruct c as [[[who id] amount] buys]. intros [[Ham _] _]. destruct buys; cbn.
  - destruct (buy_complete_set (Signed who) id amount s) as [[u|e] s'] eqn:Hb; cbn.
    + right. unfold buy_complete_set in Hb. apply transactional_ok_inv in Hb. run_inv Hb.
      match goal with Hr : market _ _ = _ |- _ => apply market_inv in Hr as [_ ->] end.
      match goal with Hr : ensure_signed _ = _ |- _ => injection Hr as <- end.
      match goal with Hr : do_buy_complete_set _ _ _ _ = _ |- _ => rename Hr into Hd end.
      apply buy_set_inv in Hd as (m & Hmk & _ & _ & _ & Ht & Hc & _); [|done].
      split; [done|]. by exists m, amount.
    + left. by apply transactional_err in Hb.
  - destruct (sell_complete_set (Signed who) id amount s) as [[u|e] s'] eqn:Hb; cbn.
    + right. unfold sell_complete_set in Hb. apply transactional_ok_inv in Hb. run_inv Hb.
      match goal with Hr : market _ _ = _ |- _ => apply market_inv in Hr as [_ ->] end.
      match goal with Hr : ensure_signed _ = _ |- _ => injection Hr as <- end.
      match goal with Hr : do_sell_complete_set _ _ _ _ = _ |- _ => rename Hr into Hd end.
      apply do_sell_inv in Hd as (m & Hmk & _ & _ & _ & Ht & Hc & _); [|done].
      split; [done|]. by exists m, (- amount).
    + left. by apply transactional_err in Hb.
Qed.

(** (C2) Outcome tokens are always backed: after any sequence of trades in complete
    sets, by anyone on any markets, the account of every market still holds one unit
    of the base asset per unit of each of its outcome tokens, and no market changed. *)
Theorem sets_collateralised calls s :
  Forall valid_set_call calls →
  (∀ id m, api_market id (commons s) = Ok m → proper_base (base_asset m)) →
  all_collateralised s →
  all_collateralised (foldl (flip run_set_call) s calls) ∧
  commons (foldl (flip run_set_call) s calls) = commons s.
Proof.
  intros Hcs. revert s. induction Hcs as [|c calls Hc _ IH]; intros s Hp Hs; [done|].
  cbn [foldl]. pose proof (run_set_call_traded c s Hc) as Ht.
  destruct c as [[[who id] amount] buys]. destruct Hc as [_ Hwho]. cbn [flip].
  destruct Ht as [->|(Hcom & m & x & Hm & Ht)]; [auto|].
  rewrite <- Hcom. apply IH; [by rewrite Hcom|].
  intros id2 m2 Hm2. rewrite Hcom in Hm2.
  apply (traded_collateral id m id2 m2 who x (ledger s)); eauto. intros ->. congruence.
Qed.

(** (C26) Buying and then selling the same number of complete sets restores every
    balance and every issuance. *)
Theorem buy_sell_roundtrip who id amount s s1 s2 u1 u2 :
  in_u128 amount →
  buy_complete_set (Signed who) id amount s = (Ok u1, s1) →
  sell_complete_set (Signed who) id amount s1 = (Ok u2, s2) →
  (∀ b z, free_balance b z (ledger s2) = free_balance b z (ledger s)) ∧
  (∀ b, total_issuance b (ledger s2) = total_issuance b (ledger s)) ∧
  events s2 = SoldCompleteSet id amount who :: BoughtCompleteSet id amount who :: events s.
Proof.
  intros [Ham _] Hb Hs. apply transactional_ok_inv in Hb, Hs. run_inv Hb. run_inv Hs.
  repeat match goal with Hm : market _ _ = _ |- _ => apply market_inv in Hm as [_ ->] end.
  repeat match goal with Hr : ensure_signed _ = _ |- _ => injection Hr as <- end.
  match goal with Hr : do_buy_complete_set _ _ _ _ = _ |- _ => rename Hr into Hd1 end.
  match goal with Hr : do_sell_complete_set _ _ _ _ = _ |- _ => rename Hr into Hd2 end.
  apply buy_set_inv in Hd1 as (m & Hmk & _ & _ & _ & [Hf Hi] & Hc & He); [|done].
  apply do_sell_inv in Hd2 as (m' & Hmk' & _ & _ & _ & [Hf' Hi'] & _ & He'); [|done].
  rewrite Hc, Hmk in Hmk'. injection Hmk' as <-. split; [|split].
  - intros b z. rewrite Hf', Hf, !at_neg, held_neg. lia.
  - intros b. rewrite Hi', Hi, issued_neg. lia.
  - by rewrite He', He.
Qed.

(** ** Redemption *)

(** The rates, in parts, at which the tokens of a resolved market redeem. *)
Definition rate (id : MarketId) m (o : OutcomeReport) (a : Asset) : Perbill :=
  match o, market_type m with
  | Categorical i, _ => if decide (a = CategoricalOutcome id i) then perbill_one else 0
  | Scalar v, MT_Scalar low high =>
      if decide (a = ScalarOutcome id Long) then (calc_payouts (L := L) v low high).1
      else if decide (a = ScalarOutcome id Short) then (calc_payouts (L := L) v low high).2
      else 0
  | Scalar _, _ => 0
  end.
(** The tokens that redeem at a positive rate. *)
Definition redeemable_assets (id : MarketId) (o : OutcomeReport) : list Asset :=
  match o with
  | Categorical i => [CategoricalOutcome id i]
  | Scalar _ => [ScalarOutcome id Long; ScalarOutcome id Short]
  end.
(** What the market owes, in parts of the base asset's unit, and whether its account
    can pay it. *)
Definition liability id m o l : Z :=
  zsum (λ a, rate id m o a * total_issuance a l) (redeemable_assets id o).
Definition solvent id m o l : Prop :=
  liability id m o l ≤ perbill_one * free_balance (base_asset m) (market_account id) l.

Lemma calc_payouts_parts v low high :
  let '(long, short) := calc_payouts (L := L) v low high in
  0 ≤ long ∧ 0 ≤ short ∧ long + short = perbill_one.
Proof.
  unfold calc_payouts. destruct (v <=? low); [done|]. destruct (high <=? v); [done|].
  pose proof (from_rational_parts (saturating_sub v low) (saturating_sub high low)).
  set (p := perbill_from_rational _ _) in *. unfold saturating_sub.
  change perbill_one with (10 ^ 9). lia.
Qed.

Lemma rate_parts id m o a : 0 ≤ rate id m o a ≤ perbill_one.
Proof.
  unfold rate. destruct o as [i|v].
  - destruct (decide _); done.
  - destruct (market_type m) as [|low high]; [done|]. pose proof (calc_payouts_parts v low high) as Hc.
    destruct (calc_payouts v low high). cbn. repeat destruct (decide _); lia.
Qed.

Lemma redeemable_in id m o a :
  matches_outcome_report m o = true → (∀ i, o = Categorical i → 0 ≤ i) →
  a ∈ redeemable_assets id o → a ∈ outcome_assets id m.
Proof.
  unfold matches_outcome_report, redeemable_assets, outcome_assets. intros Hm Hi Ha.
  destruct o as [i|v], (market_type m); try done.
  apply list_elem_of_singleton in Ha as ->. apply list_elem_of_fmap. exists i. split; [done|].
  apply elem_of_seqZ. apply Z.ltb_lt in Hm. specialize (Hi i eq_refl). lia.
Qed.

(** Backed tokens can be paid out. *)
Lemma collateral_solvent id m o l :
  matches_outcome_report m o = true → (∀ i, o = Categorical i → 0 ≤ i) →
  collateralised id m l → solvent id m o l.
Proof.
  intros Hm Hi Hc. unfold solvent, liability.
  assert (∀ a, a ∈ redeemable_assets id o →
    total_issuance a l ≤ free_balance (base_asset m) (market_account id) l) as Hle
    by (intros a Ha; by apply Hc, (redeemable_in id m o)).
  destruct o as [i|v]; cbn [redeemable_assets] in *; rewrite !zsum_cons; change (zsum ?f []) with 0;
    unfold rate.
  - specialize (Hle (CategoricalOutcome id i) ltac:(set_solver)). rewrite decide_True by done.
    change perbill_one with (10 ^ 9). lia.
  - pose proof (Hle (ScalarOutcome id Long) ltac:(set_solver)) as H1.
    pose proof (Hle (ScalarOutcome id Short) ltac:(set_solver)) as H2.
    destruct (market_type m) as [|low high] eqn:Ht; [by unfold matches_outcome_report in Hm; rewrite Ht in Hm|].
    pose proof (calc_payouts_parts v low high) as Hp. destruct (calc_payouts v low high) as [p q].
    rewrite decide_True, decide_False, decide_True by done. cbn [fst snd]. nia.
Qed.

(** What [who] redeems: the tokens, the pay-out and the balance burnt. *)
Definition winnings id m o (who : AccountId) l : list (Asset * Balance * Balance) :=
  (λ a, (a, match o with
            | Categorical _ => free_balance a who l
            | Scalar _ => perbill_mul_floor (rate id m o a) (free_balance a who l)
            end, free_balance a who l)) <$> redeemable_assets id o.
Definition payout (w : list (Asset * Balance * Balance)) : Balance := zsum (λ x, x.1.2) w.

Lemma redeem_inv who id s s' u :
  redeem_shares (Signed who) id s = (Ok u, s') →
  ∃ m o, api_market id (commons s) = Ok m ∧ status m = Resolved ∧ is_redeemable m = true ∧
    resolved_outcome m = Some o ∧
    (∃ a, a ∈ redeemable_assets id o ∧ 0 < free_balance a who (ledger s)) ∧
    for_each (redeem_asset id m who) (winnings id m o who (ledger s)) s = (Ok u, s').
Proof.
  intros Hr. apply transactional_ok_inv in Hr.
  apply bind_ok_inv in Hr as (who' & s0 & H0 & Hr). run_inv H0. injection H0 as <-.
  apply bind_ok_inv in Hr as (m & s0 & Hm & Hr). apply market_inv in Hm as [Hm ->].
  apply bind_ok_inv in Hr as (v & s0 & H1' & Hr). run_inv H1'.
  apply bind_ok_inv in Hr as (v1 & s0 & H2' & Hr). run_inv H2'.
  apply bind_ok_inv in Hr as (o & s0 & H3' & Hr). run_inv H3'.
  apply bind_ok_inv in Hr as (l & s0 & H4' & Hr). run_inv H4'. cbv zeta in Hr.
  apply bind_ok_inv in Hr as (ws & s0 & Hws & Hr). guards. exists m, o. do 4 (split; [done|]).
  destruct o as [i|v'].
  - run_inv Hws. guards. split; [|done]. exists (CategoricalOutcome id i). split; [set_solver|done].
  - apply bind_ok_inv in Hws as (v2 & s1 & H5' & Hws). run_inv H5'.
    apply bind_ok_inv in Hws as (bd & s1 & Hbd & Hws).
    destruct (market_type m) as [|low high] eqn:Ht; run_inv Hbd. cbn [fst snd] in Hws.
    destruct (calc_payouts v' low high) as [p q] eqn:Hpq. run_inv Hws. split.
    + apply orb_true_iff in H5' as [Hl|Hl]; apply Z.ltb_lt in Hl;
        [exists (ScalarOutcome id Long)|exists (ScalarOutcome id Short)]; (split; [set_solver|done]).
    + unfold winnings. cbn [redeemable_assets fmap list_fmap map]. unfold rate. rewrite Ht, Hpq.
      rewrite decide_True, decide_False, decide_True by done. done.
Qed.

(** One round burns the whole balance and pays in full while the account can. *)
Lemma redeem_asset_inv id m who a pay bal s s' u :
  who ≠ market_account id → a ≠ base_asset m →
  bal = free_balance a who (ledger s) →
  0 ≤ pay ≤ free_balance (base_asset m) (market_account id) (ledger s) →
  redeem_asset id m who (a, pay, bal) s = (Ok u, s') →
  commons s' = commons s ∧
  (∀ b z, free_balance b z (ledger s') = free_balance b z (ledger s) - at_ (a, who) (b, z) bal
    - at_ (base_asset m, market_account id) (b, z) pay + at_ (base_asset m, who) (b, z) pay) ∧
  (∀ b, total_issuance b (ledger s') = total_issuance b (ledger s) - at_ a b bal).
Proof.
  intros Hwho Ha -> Hpay Hr. unfold redeem_asset in Hr. pose proof (free_nonneg a who (ledger s)).
  apply bind_ok_inv in Hr as (v & s1 & Hs & Hr). run_inv Hs.
  apply slash_spec in Hs as (_ & Hf & Hi & _); [|lia].
  apply bind_ok_inv in Hr as (rem & s2 & Hg & Hr). run_inv Hg. cbn [ledger set_ledger] in Hr.
  rewrite Hf, at_ne, Z.sub_0_r, Z.min_l in Hr by (congruence || lia).
  apply bind_ok_inv in Hr as (v' & s2 & Ht & Hr). run_inv Ht. cbn [ledger set_ledger] in Ht.
  apply transfer_ok in Ht as (_ & Hf' & Hi' & _); [|lia].
  assert (commons s' = commons s ∧ ledger s' = t0) as [-> ->].
  { destruct (_ =? 0); [run_inv Hr; done|]. unfold deposit_event in Hr. by run_inv Hr. }
  split; [done|]. split; intros; [rewrite Hf', Hf; lia|by rewrite Hi', Hi].
Qed.

Lemma redeem_all id m who (ws : list (Asset * Balance * Balance)) s s' u :
  who ≠ market_account id → NoDup ((λ w, w.1.1) <$> ws) →
  (∀ w, w ∈ ws → w.1.1 ≠ base_asset m ∧ 0 ≤ w.1.2 ∧ w.2 = free_balance w.1.1 who (ledger s)) →
  payout ws ≤ free_balance (base_asset m) (market_account id) (ledger s) →
  for_each (redeem_asset id m who) ws s = (Ok u, s') →
  commons s' = commons s ∧
  free_balance (base_asset m) (market_account id) (ledger s') =
    free_balance (base_asset m) (market_account id) (ledger s) - payout ws ∧
  free_balance (base_asset m) who (ledger s') =
    free_balance (base_asset m) who (ledger s) + payout ws ∧
  (∀ b, b ≠ base_asset m → free_balance b who (ledger s') =
    free_balance b who (ledger s) - zsum (λ w, at_ w.1.1 b w.2) ws) ∧
  (∀ b, total_issuance b (ledger s') =
    total_issuance b (ledger s) - zsum (λ w, at_ w.1.1 b w.2) ws).
Proof.
  intros Hwho. revert s. induction ws as [|[[a pay] bal] ws IH]; intros s Hnd Hws Hpot Hl; cbn in Hl.
  - injection Hl as _ <-. unfold payout. change (zsum ?f []) with 0. by repeat split; intros; lia.
  - apply bind_ok_inv in Hl as (v & s1 & Hr & Hl). unfold payout in Hpot |- *.
    rewrite zsum_cons in Hpot |- *. cbn [fst snd] in Hpot |- *. fold (payout ws) in *.
    assert (0 ≤ payout ws) as Hnn.
    { apply zsum_nonneg. intros w Hw. by apply Hws; right. }
    destruct (Hws (a, pay, bal)) as (Ha & Hpay & Hbal); [by left|]. cbn in Ha, Hpay, Hbal.
    apply redeem_asset_inv in Hr as (Hc & Hf & Hi); [|done..|lia].
    rewrite fmap_cons in Hnd. apply NoDup_cons in Hnd as [Hnin Hnd]. cbn in Hnin.
    destruct (IH s1 Hnd) as (Hc' & Hpot' & Hwho' & Hfr & His); [| |exact Hl|].
    { intros w Hw. destruct (Hws w) as (Hwa & Hwp & Hwb); [by right|].
      split; [done|]. split; [done|]. rewrite Hf, !at_ne, Hwb; [lia|congruence..|].
      intros [= Heq]. apply Hnin. rewrite Heq. apply list_elem_of_fmap. eauto. }
    { rewrite Hf, at_eq, !at_ne by congruence. lia. }
    split; [congruence|]. split; [|split; [|split]].
    + rewrite Hpot', Hf, at_eq, !at_ne by congruence. lia.
    + rewrite Hwho', Hf, at_eq, !at_ne by congruence. lia.
    + intros b Hb. rewrite Hfr, Hf, zsum_cons by done. cbn [fst snd].
      rewrite (at_ne (base_asset m, _)), (at_ne (base_asset m, _)) by congruence.
      assert (at_ (a, who) (b, who) bal = at_ a b bal) as -> by apply at_pair. lia.
    + intros b. rewrite His, Hi, zsum_cons. cbn [fst snd]. lia.
Qed.

(** Rounding is in favour of the market. *)
Lemma payout_bound id m o who l :
  (∀ w, w ∈ winnings id m o who l → 0 ≤ w.1.2) ∧
  perbill_one * payout (winnings id m o who l) ≤
    zsum (λ a, rate id m o a * free_balance a who l) (redeemable_assets id o).
Proof.
  assert (∀ a, a ∈ redeemable_assets id o → 
    let pay := match o with
               | Categorical _ => free_balance a who l
               | Scalar _ => perbill_mul_floor (rate id m o a) (free_balance a who l)
               end in
    0 ≤ pay ∧ perbill_one * pay ≤ rate id m o a * free_balance a who l) as Hpay.
  { intros a Ha. pose proof (free_nonneg a who l). pose proof (rate_parts id m o a).
    destruct o as [i|v]; [|by apply perbill_floor].
    apply list_elem_of_singleton in Ha as ->. unfold rate. rewrite decide_True by done. lia. }
  split.
  - intros w (a & -> & Ha)%list_elem_of_fmap. by apply Hpay.
  - unfold winnings, payout. induction (redeemable_assets id o) as [|a as_ IH]; [done|].
    rewrite fmap_cons, !zsum_cons. cbn [fst snd].
    destruct (Hpay a) as [_ Ha]; [by left|]. specialize (IH ltac:(intros b Hb; apply Hpay; by right)).
    cbv zeta in *. lia.
Qed.

Lemma owed_to_holder id m o who l :
  zsum (λ a, rate id m o a * free_balance a who l) (redeemable_assets id o) ≤ liability id m o l.
Proof.
  apply zsum_le. intros a _. pose proof (rate_parts id m o a). pose proof (free_le_issuance a who l).
  apply Z.mul_le_mono_nonneg_l; [lia|done].
Qed.

Lemma winnings_keys id m o who l : (λ w, w.1.1) <$> winnings id m o who l = redeemable_assets id o.
Proof. unfold winnings. rewrite <- list_fmap_compose. exact (list_fmap_id _). Qed.

Lemma redeemable_nodup id o : NoDup (redeemable_assets id o).
Proof. destruct o; repeat constructor; set_solver. Qed.

Lemma redeemable_not_base id m o a :
  proper_base (base_asset m) → a ∈ redeemable_assets id o → a ≠ base_asset m.
Proof.
  intros Hp Ha ->. destruct o; cbn in Ha; set_unfold in Ha; destruct (base_asset m); naive_solver.
Qed.

(** Each redeemable token is burnt once, in full. *)
Lemma winnings_burn id m o who l a :
  a ∈ redeemable_assets id o →
  zsum (λ w, at_ w.1.1 a w.2) (winnings id m o who l) = free_balance a who l.
Proof.
  intros Ha. unfold winnings.
  pose proof (redeemable_nodup id o) as Hnd. induction Hnd as [|b as_ Hb _ IH]; [by apply elem_of_nil in Ha|].
  rewrite fmap_cons, zsum_cons. cbn [fst snd].
  assert (∀ bs, a ∉ bs → zsum (λ w : Asset * Balance * Balance, at_ w.1.1 a w.2)
    ((λ a, (a, match o with
               | Categorical _ => free_balance a who l
               | Scalar _ => perbill_mul_floor (rate id m o a) (free_balance a who l)
               end, free_balance a who l)) <$> bs) = 0) as Hz.
  { intros bs Hbs. induction bs as [|c bs IHb]; [done|]. rewrite fmap_cons, zsum_cons. cbn [fst snd].
    apply not_elem_of_cons in Hbs as [? ?]. rewrite at_ne, IHb by done. done. }
  apply elem_of_cons in Ha as [->|Ha].
  - rewrite at_eq, Hz by done. lia.
  - rewrite at_ne, IH by (done || by intros ->). lia.
Qed.

(** (C15) Redemption on a solvent market pays the holder the full value of the winning
    tokens in a categorical market, and the floored shares of the long and the short
    tokens in a scalar one; it takes exactly that from the account of the market,
    burns all redeemable tokens of the holder, and leaves the market solvent for the
    others. *)
Theorem redeem_effect who id m o s s' u :
  who ≠ market_account id → proper_base (base_asset m) →
  api_market id (commons s) = Ok m → resolved_outcome m = Some o →
  solvent id m o (ledger s) →
  redeem_shares (Signed who) id s = (Ok u, s') →
  let paid := payout (winnings id m o who (ledger s)) in
  free_balance (base_asset m) (market_account id) (ledger s') =
    free_balance (base_asset m) (market_account id) (ledger s) - paid ∧
  free_balance (base_asset m) who (ledger s') =
    free_balance (base_asset m) who (ledger s) + paid ∧
  (∀ a, a ∈ redeemable_assets id o → free_balance a who (ledger s') = 0 ∧
    total_issuance a (ledger s') = total_issuance a (ledger s) - free_balance a who (ledger s)) ∧
  solvent id m o (ledger s').
Proof.
  intros Hwho Hp Hm Ho Hsol Hr paid.
  apply redeem_inv in Hr as (m' & o' & Hm' & _ & _ & Ho' & _ & Hl).
  rewrite Hm in Hm'. injection Hm' as <-. rewrite Ho in Ho'. injection Ho' as <-.
  destruct (payout_bound id m o who (ledger s)) as [Hnn Hpay].
  pose proof (owed_to_holder id m o who (ledger s)) as Howed. fold paid in Hpay.
  assert (paid ≤ free_balance (base_asset m) (market_account id) (ledger s)) as Hpot.
  { unfold solvent in Hsol. change perbill_one with (10 ^ 9) in *. lia. }
  apply redeem_all in Hl as (_ & Hpot' & Hwho' & Hf & Hi); [|done| | |exact Hpot].
  2:{ rewrite winnings_keys. apply redeemable_nodup. }
  2:{ intros w Hw. split; [|split; [by apply Hnn|]].
      - apply redeemable_not_base with id o; [done|]. rewrite <- (winnings_keys id m o who (ledger s)).
        apply list_elem_of_fmap. eauto.
      - by apply list_elem_of_fmap in Hw as (a & -> & _). }
  split; [done|]. split; [done|].
  assert (∀ a, a ∈ redeemable_assets id o → free_balance a who (ledger s') = 0 ∧
    total_issuance a (ledger s') = total_issuance a (ledger s) - free_balance a who (ledger s)) as Hburn.
  { intros a Ha. rewrite Hf, Hi, winnings_burn by (done || by apply (redeemable_not_base id m o)). lia. }
  split; [done|]. unfold solvent. rewrite Hpot'. fold paid.
  assert (liability id m o (ledger s') = liability id m o (ledger s) -
    zsum (λ a, rate id m o a * free_balance a who (ledger s)) (redeemable_assets id o)) as ->.
  { unfold liability. clear -Hburn. induction (redeemable_assets id o) as [|a as_ IH]; [done|].
    rewrite !zsum_cons, IH by (intros b Hb; apply Hburn; by right).
    destruct (Hburn a) as [_ ->]; [by left|]. lia. }
  unfold solvent in Hsol. lia.
Qed.

Lemma redeem_loop_error id m who ws s s' e :
  for_each (redeem_asset id m who) ws s = (Err e, s') →
  ∃ pay l l', transfer (base_asset m) (market_account id) who pay l = (Err e, l').
Proof.
  revert s. induction ws as [|[[a pay] bal] ws IH]; intros s Hl; [done|]. cbn [for_each] in Hl.
  destruct (redeem_asset id m who (a, pay, bal) s) as [[v|e'] s1] eqn:Hr.
  - rewrite (bind_ok _ _ _ _ _ Hr) in Hl. by apply IH in Hl.
  - rewrite (bind_err _ _ _ _ _ Hr) in Hl. injection Hl as -> ->. unfold redeem_asset in Hr.
    unfold mbind, M_bind, zoom, infallible, gets, deposit_event, modify in Hr.
    destruct (slash a who bal (ledger s)) as [x l1]. cbn in Hr.
    destruct (transfer _ _ _ _ l1) as [[v|e''] l2] eqn:Ht.
    + destruct (bal =? 0); discriminate.
    + injection Hr as -> _. eauto.
Qed.

(** (C27) On a solvent resolved market a holder of a redeemable token is never turned
    away: if redemption fails at all, the error is one of the currency pallet's
    transfer of the pay-out. *)
Theorem redeem_succeeds who id m o s a :
  api_market id (commons s) = Ok m → status m = Resolved → is_redeemable m = true →
  resolved_outcome m = Some o → matches_outcome_report m o = true →
  solvent id m o (ledger s) →
  a ∈ redeemable_assets id o → 0 < free_balance a who (ledger s) →
  match (redeem_shares (Signed who) id s).1 with
  | Ok _ => True
  | Err e => ∃ pay l l', transfer (base_asset m) (market_account id) who pay l = (Err e, l')
  end.
Proof.
  intros Hm Hst Hred Ho Hmatch Hsol Ha Hfree.
  destruct (payout_bound id m o who (ledger s)) as [Hnn Hpay].
  pose proof (owed_to_holder id m o who (ledger s)) as Howed. unfold solvent in Hsol.
  assert (payout (winnings id m o who (ledger s)) ≤
    free_balance (base_asset m) (market_account id) (ledger s)) as Hpot
    by (change perbill_one with (10 ^ 9) in *; lia).
  assert (redeem_shares (Signed who) id s =
    transactional (for_each (redeem_asset id m who) (winnings id m o who (ledger s))) s) as ->.
  { unfold redeem_shares, transactional. f_equal. unfold market.
    rewrite (lift_ok_bind _ who) by done. unfold mbind at 1, M_bind at 1.
    rewrite gets_bind, Hm. unfold lift at 1.
    rewrite ensure_true_bind by (by apply bool_decide_eq_true).
    rewrite ensure_true_bind by done. rewrite (ok_or_some_bind _ o) by done.
    rewrite gets_bind. cbv zeta. destruct o as [i|v].
    - apply list_elem_of_singleton in Ha as ->. unfold payout, winnings in Hpot. cbn in Hpot.
      unfold mbind at 1, M_bind at 1.
      rewrite ensure_true_bind by (by apply Z.ltb_lt). rewrite ensure_true_bind by (apply Z.leb_le; lia).
      done.
    - unfold matches_outcome_report in Hmatch. unfold payout, winnings, rate in *.
      destruct (market_type m) as [|low high]; [done|]. cbn [redeemable_assets fmap list_fmap map] in *.
      rewrite decide_True, decide_False, decide_True in * by done.
      rewrite !zsum_cons in Hpot. change (zsum ?f []) with 0 in Hpot. cbn [fst snd] in Hpot.
      destruct (calc_payouts v low high) as [p q] eqn:Hpq. cbn [fst snd] in *.
      unfold mbind at 1, M_bind at 1. rewrite ensure_true_bind.
      2:{ apply orb_true_iff. apply elem_of_cons in Ha as [->|Ha]; [left|right].
          - by apply Z.ltb_lt.
          - apply list_elem_of_singleton in Ha as ->. by apply Z.ltb_lt. }
      rewrite ret_bind. cbn [fst snd]. rewrite Hpq.
      rewrite ensure_true_bind by (apply Z.leb_le; unfold saturating_add; lia). done. }
  unfold transactional.
  destruct (for_each _ _ s) as [[v|e] s'] eqn:Hl; [done|]. by apply redeem_loop_error in Hl.
Qed.
End Sets.

(** ** Examples *)
Module SetsExample.
Definition alice : AccountId := 1.
Definition bob : AccountId := 2.
Definition base_market (t : MarketType) (st : MarketStatus) (o : option OutcomeReport) : Market :=
  mk_Market Ztg alice Permissionless 0 alice [] t (Types.Block (mk_Range 0 1000)) (mk_Deadlines 0 0 0)
    Lmsr st None o None MarketBonds_default None.
Definition three : Market := base_market (MT_Categorical 3) Active None.
Definition height : Market := base_market (MT_Scalar 100 200) Active None.

Definition chain (ms : gmap MarketId Market) (l : Ledger) : Chain :=
  PredictionMarkets.mk_State (MarketCommons.mk_State ms (Some 2) ∅) (mk_RuntimeLedger l ∅) (∅, ∅)
    (GlobalDisputes.mk_Storage ∅ ∅ ∅ []) tt ∅ ∅ None ∅ ∅ ∅ [].
Definition start : Chain :=
  chain {[0 := three; 1 := height]}
    (mk_Ledger {[(Ztg, alice) := 1000%N; (Ztg, bob) := 1000%N]} ∅).
Definition calls : list SetCall :=
  [(alice, 0, 300, true); (bob, 1, 200, true); (alice, 0, 100, false); (bob, 0, 5, false)].

Lemma start_markets id m :
  api_market id (commons start) = Ok m → (id = 0 ∧ m = three) ∨ (id = 1 ∧ m = height).
Proof.
  intros Hm. apply market_ok in Hm. cbn in Hm.
  apply lookup_insert_Some in Hm as [[<- <-]|[_ Hm]]; [by left|].
  apply lookup_singleton_Some in Hm as [<- <-]. by right.
Defined.

Lemma sets_collateralised_witness :
  all_collateralised (foldl (flip run_set_call) start calls) ∧
  commons (foldl (flip run_set_call) start calls) = commons start.
Proof.
  apply (sets_collateralised calls start).
  - repeat constructor; try (by vm_compute); intros id; unfold market_account; cbn;
      unfold sub_account; destruct (Z.leb_spec 0 id); unfold alice, bob; lia.
  - intros id m [[_ ->]|[_ ->]]%start_markets; done.
  - intros id m [[-> ->]|[-> ->]]%start_markets a Ha.
    + change (a ∈ [CategoricalOutcome 0 0; CategoricalOutcome 0 1; CategoricalOutcome 0 2]) in Ha.
      rewrite !elem_of_cons in Ha. destruct Ha as [->|[->|[->|Ha]]]; [by vm_compute..|].
      exfalso. exact (not_elem_of_nil a Ha).
    + change (a ∈ [ScalarOutcome 1 Long; ScalarOutcome 1 Short]) in Ha.
      rewrite !elem_of_cons in Ha. destruct Ha as [->|[->|Ha]]; [by vm_compute..|].
      exfalso. exact (not_elem_of_nil a Ha).
Defined.

Definition bought : Chain := (buy_complete_set (Signed alice) 0 300 start).2.
Definition sold : Chain := (sell_complete_set (Signed alice) 0 300 bought).2.
Lemma buy_sell_roundtrip_witness :
  (∀ b z, free_balance b z (ledger sold) = free_balance b z (ledger start)) ∧
  (∀ b, total_issuance b (ledger sold) = total_issuance b (ledger start)) ∧
  events sold = [SoldCompleteSet 0 300 alice; BoughtCompleteSet 0 300 alice].
Proof. apply (buy_sell_roundtrip alice 0 300 start bought sold tt tt); by vm_compute. Defined.

(** The scalar market resolves to a quarter of its range. *)
Definition height_resolved : Market :=
  base_market (MT_Scalar 100 200) Resolved (Some (Scalar 125)).
Definition resolved : Chain :=
  chain {[1 := height_resolved]}
    (mk_Ledger {[(Ztg, sub_account 1) := 200%N; (ScalarOutcome 1 Long, bob) := 150%N;
                 (ScalarOutcome 1 Short, bob) := 10%N; (ScalarOutcome 1 Short, alice) := 190%N;
                 (ScalarOutcome 1 Long, alice) := 50%N]} ∅).
Definition redeemed : Chain := (redeem_shares (Signed bob) 1 resolved).2.

Lemma redeem_effect_witness :
  let paid := payout (winnings 1 height_resolved (Scalar 125) bob (ledger resolved)) in
  paid = 37 + 7 ∧
  free_balance (base_asset height_resolved) (market_account 1) (ledger redeemed) =
    free_balance (base_asset height_resolved) (market_account 1) (ledger resolved) - paid ∧
  free_balance (base_asset height_resolved) bob (ledger redeemed) = free_balance (base_asset height_resolved) bob (ledger resolved) + paid ∧
  (∀ a, a ∈ redeemable_assets 1 (Scalar 125) → free_balance a bob (ledger redeemed) = 0 ∧
    total_issuance a (ledger redeemed) =
      total_issuance a (ledger resolved) - free_balance a bob (ledger resolved)) ∧
  solvent 1 height_resolved (Scalar 125) (ledger redeemed).
Proof.
  split; [by vm_compute|].
  apply (redeem_effect bob 1 height_resolved (Scalar 125) resolved redeemed tt).
  - vm_compute. discriminate.
  - exact I.
  - vm_compute. reflexivity.
  - reflexivity.
  - vm_compute. discriminate.
  - vm_compute. reflexivity.
Defined.

Lemma redeem_succeeds_witness :
  match (redeem_shares (Signed bob) 1 resolved).1 with
  | Ok _ => True
  | Err e => ∃ pay (l l' : RuntimeLedger), transfer (base_asset height_resolved) (market_account 1) bob pay l = (Err e, l')
  end.
Proof.
  apply (redeem_succeeds bob 1 height_resolved (Scalar 125) resolved (ScalarOutcome 1 Long)).
  - vm_compute. reflexivity.
  - reflexivity.
  - reflexivity.
  - reflexivity.
  - reflexivity.
  - vm_compute. discriminate.
  - by left.
  - vm_compute. reflexivity.
Defined.
End SetsExample.
