(* ===== verification/NeoMarkets.v ===== *)
(** * The automated market maker on the prediction markets pallet

    Composition of [NeoSwaps] with [PredictionMarkets]: buying and selling complete
    sets of the latter implements the interface that the pools use, so that the
    theorems of [NeoPools] hold for the two together. *)
From S2P Require Import Prelude GlobalDisputes SimpleDisputes Authorized Disputes MarketCommons Currencies Fees.
From S2P Require Import Ledgers Errors Types PredictionMarkets Runtime CompleteSets.
From S2P Require Import Fixed FixedDecimal NeoMath LiquidityTree NeoSwaps NeoPools.

Section Composition.
Context {C L D G X : Type}.
Context `{MarketCommonsPalletApi C, !AssetManager L, !Currency L, !Config L, !AssetManagerLaws L}.
Abbreviation Rest := (PredictionMarkets.State C L D G X).

(** The storage of the pallet with the given markets and ledger. *)
Definition sets_chain (c : C) (x : Rest * L) : Rest :=
  PredictionMarkets.set_commons c (PredictionMarkets.set_ledger x.2 x.1).
Definition sets_result (s : Rest) (x : Rest * L) : Rest * L := (s, PredictionMarkets.ledger s).

#[export] Instance prediction_markets_sets : CompleteSetOperationsApi C Rest L := {
  cso_buy_complete_set who id amount c :=
    zoom (sets_chain c) sets_result (do_buy_complete_set who id amount);
  cso_sell_complete_set who id amount c :=
    zoom (sets_chain c) sets_result (do_sell_complete_set who id amount);
}.

Lemma outcomes_of_assets id m : outcomes_of id m = outcome_assets id m.
Proof. done. Qed.

#[export] Instance prediction_markets_sets_laws : CompleteSetLaws C Rest L.
Proof.
  refine {| sets_account := market_account |}.
  - intros who id amount c [e l] x' u Ham Hb. cbn [cso_buy_complete_set prediction_markets_sets] in Hb.
    unfold zoom in Hb. destruct (do_buy_complete_set who id amount (sets_chain c (e, l))) as [r s'] eqn:Hd.
    injection Hb as -> <-. apply buy_set_inv in Hd as (m & Hm & _ & _ & _ & [Hf _] & _); [|done].
    exists m. split; [exact Hm|]. intros b z. exact (Hf b z).
  - intros who id amount c [e l] x' u Ham Hb. cbn [cso_sell_complete_set prediction_markets_sets] in Hb.
    unfold zoom in Hb. destruct (do_sell_complete_set who id amount (sets_chain c (e, l))) as [r s'] eqn:Hd.
    injection Hb as -> <-. apply CompleteSets.do_sell_inv in Hd as (m & Hm & _ & _ & _ & [Hf _] & _); [|done].
    exists m. split; [exact Hm|]. intros b z. cbn [snd sets_result].
    rewrite Hf, !at_neg, held_neg. unfold held. cbn [PredictionMarkets.ledger sets_chain snd].
    change (outcomes_of id m) with (outcome_assets id m). destruct (decide _); cbn; lia.
Defined.
End Composition.

(** ** Examples *)
Module PoolExample.
Import FixedExample SetsExample.

(** Accounts of pools are above those of users. *)
Definition pool_account (id : MarketId) : AccountId :=
  if 0 <=? id then 10 ^ 6 + 2 * id else 10 ^ 6 - 1 - 2 * id.
Lemma pool_account_inj id id' : pool_account id = pool_account id' → id = id'.
Proof. unfold pool_account. destruct (Z.leb_spec 0 id), (Z.leb_spec 0 id'); lia. Qed.
Lemma pool_account_big id : 1000 < pool_account id.
Proof. unfold pool_account. destruct (Z.leb_spec 0 id); lia. Qed.
Lemma pool_not_sets id id' :
  pool_account id ≠ sets_account (C := MarketCommons.State) (E := Chain) (L := RuntimeLedger) id'.
Proof.
  pose proof (pool_account_big id). cbn. unfold sub_account. destruct (Z.leb_spec 0 id'); lia.
Qed.

#[export] Instance pool_fees : DistributeFees MarketCommons.State RuntimeLedger := MarketCreatorFee example_mul_floor.
#[export] Instance pool_fees_laws : DistributeFeesLaws MarketCommons.State RuntimeLedger.
Proof. split. apply (market_creator_distribute_spec example_mul_floor example_mul_floor_le). Qed.

Abbreviation PoolChain := (NeoSwaps.State MarketCommons.State Chain RuntimeLedger).

Definition long : Asset := ScalarOutcome 1 Long.
Definition short : Asset := ScalarOutcome 1 Short.
Definition wealth : Ledger :=
  mk_Ledger {[ (Ztg, alice) := Z.to_N (100 * BASE); (Ztg, bob) := Z.to_N (100 * BASE);
    (long, alice) := Z.to_N (100 * BASE); (short, alice) := Z.to_N (100 * BASE);
    (long, bob) := Z.to_N (30 * BASE); (short, bob) := Z.to_N (30 * BASE) ]} ∅.
Definition genesis : PoolChain :=
  let s := chain {[1 := height]} wealth in
  NeoSwaps.mk_State (PredictionMarkets.commons s) s (PredictionMarkets.ledger s) ∅ [].

Definition run_pool_call (k : Call) (s : PoolChain) : PoolChain :=
  (dispatch (F := N) 4 (10 ^ 9) pool_account k s).2.
Definition deploy_call : Call := CDeploy alice 1 (50 * BASE) [BASE / 2; BASE / 2] (BASE / 100).
Definition buy_call : Call := CBuy bob 1 2 long (10 * BASE) 0.
Definition join_call : Call := CJoin bob 1 (10 * BASE) [30 * BASE; 30 * BASE].
Definition exit_call : Call := CExit bob 1 (10 * BASE) [0; 0].
Definition pool_calls : list Call := [deploy_call; buy_call; join_call; CWithdraw alice 1].
(** The pool is made, then Bob buys, then Bob joins, then Alice takes her fees. *)
Definition deployed : PoolChain := Eval vm_compute in run_pool_call deploy_call genesis.
Definition bought_long : PoolChain := Eval vm_compute in run_pool_call buy_call deployed.
Definition joined : PoolChain := run_pool_call join_call bought_long.
Definition withdrawn : PoolChain := run_pool_call (CWithdraw alice 1) joined.
Abbreviation pool_dispatch := (dispatch (F := N) 4 (10 ^ 9) pool_account).
Lemma deployed_eq : pool_dispatch deploy_call genesis = (Ok tt, deployed).
Proof. vm_compute. reflexivity. Qed.
Lemma bought_long_eq : buy (F := N) bob 1 2 long (10 * BASE) 0 deployed = (Ok tt, bought_long).
Proof. vm_compute. reflexivity. Qed.
Lemma dispatch_buy who id n a x y (s : PoolChain) :
  pool_dispatch (CBuy who id n a x y) s = buy (F := N) who id n a x y s.
Proof. reflexivity. Qed.

Lemma users_apart who :
  who = alice ∨ who = bob →
  (∀ id, who ≠ pool_account id) ∧ ∀ id, who ≠ market_account (L := RuntimeLedger) id.
Proof.
  unfold alice, bob. intros Hwho. split; intros id.
  - pose proof (pool_account_big id). lia.
  - cbn. unfold sub_account. destruct (Z.leb_spec 0 id); lia.
Qed.
Lemma user_call_valid k :
  caller k = alice ∨ caller k = bob → 0 ≤ call_amount k ≤ 50 * BASE →
  valid_call (C := MarketCommons.State) (E := Chain) (L := RuntimeLedger) pool_account k.
Proof.
  intros Hw Ha. destruct (users_apart _ Hw). split; [done|]. split; [done|].
  assert (50 * BASE ≤ u128_max) by (vm_compute; discriminate). unfold in_u128. lia.
Qed.
Abbreviation step := (neo_step (F := N) 4 (10 ^ 9) pool_account).
Lemma user_step k (s : PoolChain) r s' :
  caller k = alice ∨ caller k = bob → 0 ≤ call_amount k ≤ 50 * BASE → pool_dispatch k s = (r, s') → step s s'.
Proof.
  intros Hw Ha Hd. apply (f_equal snd) in Hd. cbn [snd] in Hd. rewrite <- Hd.
  apply step_call. by apply user_call_valid.
Qed.
Ltac user_call e := eapply (user_step e); [cbn; auto|split; vm_compute; discriminate|].

Lemma genesis_proper : markets_proper genesis.
Proof.
  intros id m Hm. apply market_ok in Hm. cbn in Hm. apply lookup_singleton_Some in Hm as [<- <-].
  by apply proper_base_outcome.
Qed.

Lemma deployed_step : step genesis deployed.
Proof. user_call deploy_call. exact deployed_eq. Qed.
Lemma bought_step : step deployed bought_long.
Proof. user_call buy_call. unfold buy_call. rewrite dispatch_buy. exact bought_long_eq. Qed.
Lemma withdrawn_reachable : rtc step genesis withdrawn.
Proof.
  apply (rtc_l _ _ deployed); [apply deployed_step|]. apply (rtc_l _ _ bought_long); [apply bought_step|].
  apply (rtc_l _ _ joined); [user_call join_call|apply rtc_once; user_call (CWithdraw alice 1)];
    apply surjective_pairing.
Qed.
Lemma bought_backed : pools_backed_inv 4 pool_account bought_long.
Proof.
  assert (markets_proper genesis ∧ pools_backed_inv 4 pool_account genesis) as Hg
    by (split; [apply genesis_proper|by intros id p Hp]).
  pose proof (neo_step_backed 4 (10 ^ 9) pool_account pool_account_inj pool_not_sets _ _ deployed_step Hg) as Hd.
  exact (proj2 (neo_step_backed 4 (10 ^ 9) pool_account pool_account_inj pool_not_sets _ _ bought_step Hd)).
Qed.

Definition no_pool : Pool := mk_Pool 0 [] Ztg 0 (mk_LiquidityTree [] ∅ []) 0.
Definition final_pool : Pool := default no_pool (Pools withdrawn !! 1).

Lemma pools_backed_witness :
  final_pool ≠ no_pool ∧
  total_fees (liquidity_shares_manager final_pool) ≤ free_balance Ztg (account_id final_pool) (ledger withdrawn) ∧
  ∀ a r, (a, r) ∈ reserves final_pool → 0 ≤ r ≤ free_balance a (account_id final_pool) (ledger withdrawn).
Proof.
  split; [vm_compute; discriminate|].
  assert (Pools withdrawn !! 1 = Some final_pool) as Hp by (vm_compute; reflexivity).
  destruct (pools_backed (F := N) 4 (10 ^ 9) pool_account pool_account_inj pool_not_sets genesis withdrawn 1
    final_pool eq_refl genesis_proper withdrawn_reachable Hp) as (_ & _ & Hf & Hr & _).
  split; [exact Hf|exact Hr].
Defined.

Definition left_again : PoolChain := (exit 4 bob 1 (10 * BASE) [0; 0] joined).2.
Lemma join_exit_no_profit_witness :
  free_balance long bob (ledger left_again) ≤ free_balance long bob (ledger bought_long).
Proof.
  apply (join_exit_no_profit 4 pool_account pool_account_inj pool_not_sets bob 1 (10 * BASE) [30 * BASE; 30 * BASE]
    [0; 0] bought_long joined left_again tt tt long).
  - exact bought_backed.
  - apply (users_apart bob). auto.
  - vm_compute. discriminate.
  - vm_compute. reflexivity.
  - vm_compute. reflexivity.
Defined.

Lemma deployed_backed : pools_backed_inv 4 pool_account deployed.
Proof.
  assert (markets_proper genesis ∧ pools_backed_inv 4 pool_account genesis) as Hg
    by (split; [apply genesis_proper|by intros id p Hp]).
  exact (proj2 (neo_step_backed 4 (10 ^ 9) pool_account pool_account_inj pool_not_sets _ _ deployed_step Hg)).
Qed.
Lemma pool_buy_effect_witness :
  ∃ y, 9 * BASE ≤ y ∧
    free_balance long bob (ledger bought_long) = free_balance long bob (ledger deployed) + y.
Proof.
  destruct (pool_buy_effect (F := N) 4 pool_account pool_account_inj pool_not_sets bob 1 2 long (10 * BASE) 0
    deployed bought_long tt) as (p & p' & net & y & _ & _ & _ & _ & _ & _ & _ & _ & _ & Hy).
  - exact deployed_backed.
  - apply (users_apart bob). auto.
  - apply (users_apart bob). auto.
  - split; vm_compute; discriminate.
  - exact bought_long_eq.
  - exists y. split; [|exact Hy].
    assert (9 * BASE ≤ free_balance long bob (ledger bought_long) - free_balance long bob (ledger deployed))
      as Hgain by (vm_compute; discriminate).
    rewrite Hy, Z.add_simpl_l in Hgain. exact Hgain.
Defined.
End PoolExample.
