(* ===== verification/MarketLife.v ===== *)
(** * The life of a market

    Theorems about every operation of [PredictionMarkets] that changes a market:
    the status moves only forward, reports and resolutions are final, the terms of
    a market are fixed once it is approved, and identifiers are not reused. The
    market storage is the one of [MarketCommons]. *)
From S2P Require Import Prelude GlobalDisputes SimpleDisputes Authorized Disputes MarketCommons Currencies.
From S2P Require Import Ledgers Errors Types PredictionMarkets Runtime.

(** ** How a market evolves *)

Definition rank (st : MarketStatus) : Z :=
  match st with
  | Proposed => 0 | Active => 1 | Closed => 2 | Reported => 3 | Disputed => 4 | Resolved => 5
  end.

(** What a market is about, fixed from its approval on. *)
Definition terms (m : Market) :=
  (base_asset m, oracle m, metadata m, market_type m, deadlines m, scoring_rule m,
   dispute_mechanism m).

Record evolves (m m' : Market) : Prop := {
  ev_creator : creator m' = creator m ∧ creation m' = creation m ∧ creator_fee m' = creator_fee m;
  ev_status : rank (status m) ≤ rank (status m');
  ev_terms : status m ≠ Proposed → terms m' = terms m;
  ev_report : ∀ r, report m = Some r → report m' = Some r;
  ev_final : status m = Resolved → m' = m;
}.

(** Reports exist from the reported state on, outcomes only when resolved; only
    advised markets are proposed. *)
Record wf (m : Market) : Prop := {
  wf_report : is_Some (report m) ↔ 3 ≤ rank (status m);
  wf_outcome : is_Some (resolved_outcome m) ↔ status m = Resolved;
  wf_advised : status m = Proposed → creation m = Advised;
}.

#[export] Instance evolves_preorder : PreOrder evolves.
Proof.
  split; [by split|]. intros m1 m2 m3 [C1 S1 T1 R1 F1] [C2 S2 T2 R2 F2]. split.
  - destruct C1 as (? & ? & ?), C2 as (? & ? & ?). split_and!; congruence.
  - lia.
  - intros Hne. rewrite T2, T1; [done..|]. intros Heq. rewrite Heq in S1. cbn in S1.
    destruct (status m1); cbn in S1; done || lia.
  - auto.
  - intros Heq. rewrite F2, F1; [done..|]. by rewrite F1.
Qed.

(** ** How the storage of markets evolves *)

(** Known identifiers keep their markets, except that proposed ones may be removed
    for good. *)
Definition kept (id : MarketId) (c c' : MarketCommons.State) : Prop :=
  match Markets c !! id with
  | Some m => (∃ m', Markets c' !! id = Some m' ∧ evolves m m')
              ∨ (Markets c' !! id = None ∧ status m = Proposed)
  | None => Markets c' !! id = None
  end.
Definition all_wf (c : MarketCommons.State) : Prop := ∀ id m, Markets c !! id = Some m → wf m.
Definition markets_inv (c : MarketCommons.State) : Prop := counter_inv c ∧ all_wf c.

(** [life c c'] is what every operation guarantees. *)
Definition life (c c' : MarketCommons.State) : Prop :=
  markets_inv c → markets_inv c' ∧ counter c ≤ counter c' ∧ ∀ id, id < counter c → kept id c c'.

Lemma kept_trans id c1 c2 c3 : kept id c1 c2 → kept id c2 c3 → kept id c1 c3.
Proof.
  unfold kept. destruct (Markets c1 !! id) as [m1|].
  - intros [(m2 & -> & E12)|[-> Hp]] H23; [|by right].
    destruct H23 as [(m3 & -> & E23)|[-> Hp]].
    + left. exists m3. split; [done|]. by transitivity m2.
    + right. split; [done|]. pose proof (ev_status _ _ E12) as Hr. rewrite Hp in Hr.
      destruct (status m1); cbn in Hr; done || lia.
  - by intros ->.
Qed.

#[export] Instance life_preorder : PreOrder life.
Proof.
  split.
  - intros c Hc. split; [done|]. split; [done|]. intros id _. unfold kept.
    destruct (Markets c !! id) as [m|]; [|done]. left. exists m. by split.
  - intros c1 c2 c3 H12 H23 H1. destruct (H12 H1) as (H2 & L12 & K12).
    destruct (H23 H2) as (H3 & L23 & K23). split; [done|]. split; [lia|].
    intros id Hid. apply (kept_trans id c1 c2 c3); [by apply K12|]. apply K23. lia.
Qed.

(** Writing one market. *)
Definition put_market (id : MarketId) (m : Market) (c : MarketCommons.State) : MarketCommons.State :=
  MarketCommons.set_Markets <[id := m]> c.

Lemma put_put id m m' c : put_market id m' (put_market id m c) = put_market id m' c.
Proof. unfold put_market, set_Markets. cbn. by rewrite insert_insert_eq. Qed.
Lemma put_id id m c : Markets c !! id = Some m → put_market id m c = c.
Proof. intros Hm. unfold put_market, set_Markets. rewrite insert_id by done. by destruct c. Qed.
Lemma put_lookup id m c : Markets (put_market id m c) !! id = Some m.
Proof. apply lookup_insert_eq. Qed.

Lemma put_counter_inv id m m' c :
  Markets c !! id = Some m → counter_inv c → counter_inv (put_market id m' c).
Proof.
  intros Hm [H1 H2 H3 H4]. split; cbn; [|done..].
  intros id' [m'' [[<- _]|[_ Hm'']]%lookup_insert_Some]; apply H1; eauto.
Qed.

Lemma put_life id m m' c :
  Markets c !! id = Some m → (wf m → evolves m m' ∧ wf m') → life c (put_market id m' c).
Proof.
  intros Hm Hev [Hci Hwf]. destruct (Hev (Hwf id m Hm)) as [He Hw].
  split; [split|split; [done|]].
  - by apply (put_counter_inv id m).
  - intros id' m2 Hm2. cbn in Hm2.
    apply lookup_insert_Some in Hm2 as [[<- <-]|[_ Hm2]]; [done|by apply (Hwf id')].
  - intros id' _. unfold kept. cbn. rewrite lookup_insert. destruct (decide (id = id')) as [<-|].
    + rewrite Hm. left. by exists m'.
    + destruct (Markets c !! id') as [m2|]; [|done]. left. by exists m2.
Qed.

Lemma push_life m s s' id : wf m → push_market m s = (Ok id, s') → life s s'.
Proof.
  intros Hm Hp [Hci Hwf]. pose proof (step_push _ _ _ _ Hp) as Hstep.
  destruct (step_counter_inv _ _ Hstep Hci) as [Hci' Hle].
  apply push_market_inv in Hp as (-> & _ & ->). split; [split|split; [done|]]; [done| |].
  - intros id' m2 Hm2. cbn in Hm2.
    apply lookup_insert_Some in Hm2 as [[<- <-]|[_ Hm2]]; [done|by apply (Hwf id')].
  - intros id' Hid'. unfold kept. cbn. rewrite lookup_insert_ne by lia.
    destruct (Markets s !! id') as [m2|]; [|done]. left. by exists m2.
Qed.

Lemma remove_life id m s s' u :
  Markets s !! id = Some m → status m = Proposed → remove_market id s = (Ok u, s') → life s s'.
Proof.
  intros Hm Hst Hr [Hci Hwf]. destruct u. pose proof (step_remove _ _ _ Hr) as Hstep.
  destruct (step_counter_inv _ _ Hstep Hci) as [Hci' Hle].
  unfold remove_market in Hr. run_inv Hr. split; [split|split; [done|]]; [done| |].
  - intros id' m2 Hm2. cbn in Hm2. apply lookup_delete_Some in Hm2 as [_ Hm2]. by apply (Hwf id').
  - intros id' _. unfold kept. cbn. rewrite lookup_delete. destruct (decide (id = id')) as [<-|].
    + rewrite Hm. right. done.
    + destruct (Markets s !! id') as [m2|]; [|done]. left. by exists m2.
Qed.

(** ** Operations and the market storage *)
Section Operations.
Context {L D G X : Type}.
Abbreviation C := MarketCommons.State.
Context `{!AssetManager L, !Currency L, !Config L}.
Context (mechanism : MarketDisputeMechanism → DisputeApi D IdsPer L).
Context `{!GlobalDisputesPalletApi C G IdsPer}.
Context `{!LiquidityMiningPalletApi C X L, !DeployPoolApi C X L}.
Context (now : BlockNumber) (now_time : Moment).
Abbreviation St := (PredictionMarkets.State C L D G X).
Abbreviation ST := (Store St).
Implicit Types (s : St) (m : Market) (c : C).

(** [f] keeps a property [Q] of the market storage, whether it fails or not. *)
Definition keeps {A} (Q : C → Prop) (f : ST A) : Prop := ∀ s, Q (commons s) → Q (commons (f s).2).

Section Keeps.
Context (Q : C → Prop).
Lemma keeps_ret {A} (a : A) : keeps Q (mret a).
Proof. by intros s. Qed.
Lemma keeps_bind {A B} (f : ST A) (g : A → ST B) :
  keeps Q f → (∀ a, keeps Q (g a)) → keeps Q (f ≫= g).
Proof.
  intros Hf Hg s Hs. specialize (Hf s Hs). unfold mbind, M_bind.
  destruct (f s) as [[a|e] s1]; [by apply Hg|done].
Qed.
Lemma keeps_ensure b e : keeps Q (ensure b e).
Proof. intros s. unfold Prelude.ensure. by destruct b. Qed.
Lemma keeps_lift {A} (r : Res A) : keeps Q (lift r).
Proof. by intros s. Qed.
Lemma keeps_fail {A} e : keeps Q (Prelude.fail (A := A) e).
Proof. by intros s. Qed.
Lemma keeps_gets {A} (f : St → A) : keeps Q (Prelude.gets f).
Proof. by intros s. Qed.
Lemma keeps_ok_or {A} (o : option A) e : keeps Q (Prelude.ok_or o e).
Proof. intros s. unfold Prelude.ok_or. by destruct o. Qed.
Lemma keeps_modify (f : St → St) : (∀ s, commons (f s) = commons s) → keeps Q (modify f).
Proof. intros Hf s Hs. cbn. by rewrite Hf. Qed.
Lemma keeps_zoom {T A} get put (f : Store T A) :
  (∀ t s, commons (put t s) = commons s) → keeps Q (zoom get put f).
Proof.
  intros Hf s Hs. unfold zoom. destruct (f (get s)) as [r t]. cbn. by rewrite Hf.
Qed.
Lemma keeps_attempt {A} (f : ST A) : keeps Q f → keeps Q (attempt f).
Proof. intros Hf s Hs. specialize (Hf s Hs). unfold attempt. by destruct (f s). Qed.
Lemma keeps_for_each {A} (f : A → ST unit) l : (∀ x, keeps Q (f x)) → keeps Q (for_each f l).
Proof.
  intros Hf. induction l as [|x l IH]; [apply keeps_ret|]. cbn. by apply keeps_bind.
Qed.
Lemma keeps_market id : keeps Q (market id).
Proof. apply keeps_bind; [apply keeps_gets|intros; apply keeps_lift]. Qed.
Lemma keeps_event e : keeps Q (deposit_event e).
Proof. by apply keeps_modify. Qed.
Lemma keeps_push_id get put b id : (∀ t s, commons (put t s) = commons s) → keeps Q (push_id get put b id).
Proof.
  intros Hp. apply keeps_bind; [apply keeps_gets|intros ids]. apply keeps_bind; [apply keeps_lift|].
  intros ids'. by apply keeps_modify.
Qed.
Lemma keeps_drop_id get put b id : (∀ t s, commons (put t s) = commons s) → keeps Q (drop_id get put b id).
Proof. intros Hp. by apply keeps_modify. Qed.
End Keeps.

(** Walks through an operation; what is left are the writes to the markets. *)
Ltac keep_step :=
  first
  [ match goal with Hk : _ |- keeps _ _ => solve [apply Hk] end
  | apply keeps_bind; [|intros ?]
  | apply keeps_ret | apply keeps_ensure | apply keeps_lift | apply keeps_fail | apply keeps_gets
  | apply keeps_ok_or | apply keeps_market | apply keeps_event
  | apply keeps_push_id; done | apply keeps_drop_id; done
  | apply keeps_zoom; done | apply keeps_modify; done | apply keeps_attempt | apply keeps_for_each; intros ?
  | match goal with |- keeps _ (match ?x with _ => _ end) => destruct x end ].
Ltac keep := repeat keep_step.

Lemma keeps_ok {A} Q (f : ST A) s s' r : keeps Q f → f s = (r, s') → Q (commons s) → Q (commons s').
Proof. intros Hk Hf Hs. specialize (Hk s Hs). by rewrite Hf in Hk. Qed.

Lemma market_at id s s' m :
  PredictionMarkets.market id s = (Ok m, s') → Markets (commons s) !! id = Some m ∧ s' = s.
Proof.
  unfold PredictionMarkets.market. intros Hm. run_inv Hm. split; [|done]. by apply market_ok.
Qed.

Lemma mutate_at id f s s' u :
  PredictionMarkets.mutate_market id f s = (Ok u, s') →
  ∃ m m', Markets (commons s) !! id = Some m ∧ f m = Ok m' ∧
    s' = set_commons (put_market id m' (commons s)) s.
Proof.
  unfold PredictionMarkets.mutate_market. intros Hm. run_inv Hm. cbn in Hm.
  unfold MarketCommons.mutate_market in Hm. run_inv Hm.
  destruct (Markets (commons s) !! id) as [m|] eqn:Hid; run_inv Hm. eauto.
Qed.

(** Changes of bonds, period and early close are minor. *)
Definition minor m m' : Prop :=
  ∃ b p e, m' = with_early_close e (with_period p (with_bonds b m)).
Definition minor_moved (id : MarketId) m c c' : Prop :=
  ∃ m', minor m m' ∧ c' = put_market id m' c.

#[export] Instance minor_preorder : PreOrder minor.
Proof.
  split.
  - intros m. exists (bonds m), (period m), (early_close m). by destruct m.
  - intros m1 m2 m3 (b & p & e & ->) (b' & p' & e' & ->). by exists b', p', e'.
Qed.
Lemma minor_bonds b m : minor m (with_bonds b m).
Proof. exists b, (period m), (early_close m). by destruct m. Qed.
Lemma minor_period p m : minor m (with_period p m).
Proof. exists (bonds m), p, (early_close m). by destruct m. Qed.
Lemma minor_early_close e m : minor m (with_early_close e m).
Proof. exists (bonds m), (period m), e. by destruct m. Qed.

Lemma minor_moved_refl id m c : Markets c !! id = Some m → minor_moved id m c c.
Proof. intros Hm. exists m. split; [done|]. by rewrite put_id. Qed.

Lemma minor_fields m m' :
  minor m m' → creator m' = creator m ∧ creation m' = creation m ∧ creator_fee m' = creator_fee m ∧
    status m' = status m ∧ terms m' = terms m ∧ report m' = report m ∧
    resolved_outcome m' = resolved_outcome m.
Proof. by intros (b & p & e & ->). Qed.

Lemma minor_evolves m m' : minor m m' → status m ≠ Resolved → wf m → evolves m m' ∧ wf m'.
Proof.
  intros (C1 & C2 & C3 & S & T & R & O)%minor_fields Hne [W1 W2 W3].
  split; split.
  - done.
  - rewrite S. lia.
  - done.
  - intros r. by rewrite R.
  - done.
  - by rewrite R, S.
  - by rewrite O, S.
  - by rewrite S, C2.
Qed.

(** A change is judged up to minor changes. *)
Lemma minor_wf m m1 m2 :
  minor m1 m2 → evolves m m1 ∧ wf m1 → status m ≠ Resolved → evolves m m2 ∧ wf m2.
Proof.
  intros (C1 & C2 & C3 & S & T & R & O)%minor_fields [[(D1 & D2 & D3) S' T' R' F'] [W1 W2 W3]] Hne.
  split; split.
  - split_and!; congruence.
  - by rewrite S.
  - intros Hp. rewrite T. auto.
  - intros r Hr. rewrite R. auto.
  - done.
  - by rewrite R, S.
  - by rewrite O, S.
  - by rewrite S, C2.
Qed.

Lemma evolves_step m m' :
  creator m' = creator m ∧ creation m' = creation m ∧ creator_fee m' = creator_fee m →
  status m ≠ Resolved → rank (status m) ≤ rank (status m') → terms m' = terms m →
  (report m' = report m ∨ report m = None) → evolves m m'.
Proof. intros Hc Hne Hr Ht [Hrep|Hrep]; split; try done; congruence. Qed.

Lemma minor_moved_life id m c c' :
  Markets c !! id = Some m → status m ≠ Resolved → minor_moved id m c c' → life c c'.
Proof.
  intros Hm Hne (m' & Hmin & ->). apply (put_life id m); [done|]. by apply minor_evolves.
Qed.

Lemma keeps_mutate id f m c :
  (∀ m0 m1, f m0 = Ok m1 → minor m0 m1) →
  keeps (minor_moved id m c) (PredictionMarkets.mutate_market id f).
Proof.
  intros Hf s (m' & Hmin & Hb). unfold PredictionMarkets.mutate_market, zoom. cbn.
  unfold MarketCommons.mutate_market. rewrite gets_bind, Hb, put_lookup.
  destruct (f m') as [m2|e] eqn:Hf2.
  - rewrite (lift_ok_bind _ m2) by done. exists m2. split; [|exact (put_put id _ _ c)].
    transitivity m'; auto.
  - exists m'. done.
Qed.

Lemma keeps_settle k id bond m c : keeps (minor_moved id m c) (settle_bond k id bond).
Proof. apply keeps_mutate. intros m0 m1 [= <-]. apply minor_bonds. Qed.
Lemma keeps_unreserve k id m c : keeps (minor_moved id m c) (unreserve_bond k id).
Proof. pose proof keeps_settle. unfold unreserve_bond. keep. Qed.
Lemma keeps_slash k id p m c : keeps (minor_moved id m c) (slash_bond k id p).
Proof. pose proof keeps_settle. unfold slash_bond. keep. Qed.
Lemma keeps_repatriate k id who m c : keeps (minor_moved id m c) (repatriate_bond k id who).
Proof. pose proof keeps_settle. unfold repatriate_bond. keep. Qed.

(** Operations that do not write the markets at all. *)
Definition quiet {A} (f : ST A) : Prop := ∀ Q, keeps Q f.
Lemma quiet_ok {A} (f : ST A) s s' r : quiet f → f s = (r, s') → commons s' = commons s.
Proof. intros Hq Hf. by apply (keeps_ok (λ c, c = commons s) f s s' r). Qed.

Lemma quiet_insert_auto_close id : quiet (insert_auto_close id).
Proof. intros Q. unfold insert_auto_close. keep. Qed.
Lemma quiet_clear_auto_close id : quiet (clear_auto_close id).
Proof. intros Q. unfold clear_auto_close. keep. Qed.
Lemma quiet_clear_auto_resolve id : quiet (clear_auto_resolve mechanism id).
Proof. intros Q. unfold clear_auto_resolve. keep. Qed.
Lemma quiet_buy who id amount : quiet (do_buy_complete_set who id amount).
Proof. intros Q. unfold do_buy_complete_set. keep. Qed.
Lemma quiet_sell who id amount : quiet (do_sell_complete_set who id amount).
Proof. intros Q. unfold do_sell_complete_set. keep. Qed.
Lemma quiet_redeem id m who w : quiet (redeem_asset id m who w).
Proof. intros Q. unfold redeem_asset. keep. Qed.
Lemma quiet_resolved_outcome id m o : quiet (get_resolved_outcome mechanism id m o).
Proof. intros Q. unfold get_resolved_outcome. keep. Qed.

(** Settling the bonds of a market is minor. *)
Lemma keeps_resolve_reported id m0 m c : keeps (minor_moved id m c) (resolve_reported_market id m0).
Proof.
  pose proof keeps_unreserve. pose proof keeps_repatriate. unfold resolve_reported_market. keep.
Qed.
Lemma keeps_settle_bonds id m0 o r m c : keeps (minor_moved id m c) (settle_bonds id m0 o r).
Proof.
  pose proof keeps_unreserve. pose proof keeps_slash. pose proof keeps_repatriate.
  unfold settle_bonds. keep.
Qed.
Lemma keeps_resolve_disputed id m0 m c :
  keeps (minor_moved id m c) (resolve_disputed_market mechanism id m0).
Proof.
  pose proof keeps_settle_bonds. unfold resolve_disputed_market.
  pose proof quiet_resolved_outcome. keep.
Qed.

(** ** Every operation keeps markets alive *)

Definition lives s s' : Prop := life (commons s) (commons s').
#[export] Instance lives_preorder : PreOrder lives.
Proof. split; [intros s; unfold lives; reflexivity|]. intros s1 s2 s3. unfold lives. by transitivity (commons s2). Qed.

Lemma transactional_lives {A} (f : ST A) s :
  (∀ a s', f s = (Ok a, s') → lives s s') → lives s (transactional f s).2.
Proof.
  intros Hf. unfold transactional. destruct (f s) as [[a|e] s'] eqn:Hr; cbn; [by apply (Hf a)|reflexivity].
Qed.

Lemma quiet_lives {A} (f : ST A) s s' r : quiet f → f s = (r, s') → lives s s'.
Proof. intros Hq Hf. unfold lives. rewrite (quiet_ok f s s' r Hq Hf). reflexivity. Qed.

Lemma construct_wf b cr f o p d md cre t mdm ru bo m :
  construct_market now now_time (L := L) b cr f o p d md cre t mdm ru None None bo = Ok m →
  wf m ∧ creator m = cr ∧ creation m = cre ∧ creator_fee m = f ∧ report m = None ∧
  status m = match cre with Permissionless => Active | Advised => Proposed end.
Proof.
  unfold construct_market. intros Hc. run_inv Hc. intros <-. split; [|done].
  split; cbn.
  - split; [by intros []|destruct cre; cbn; lia].
  - split; [by intros []|by destruct cre].
  - by destruct cre.
Qed.

Lemma do_create_lives who b f o p d md cre t mdm ru s s' id :
  do_create_market now now_time who b f o p d md cre t mdm ru s = (Ok id, s') → lives s s'.
Proof.
  unfold do_create_market. intros Hc. cbv zeta in Hc.
  apply bind_ok_inv in Hc as (m & s1 & Hm & Hc). run_inv Hm.
  apply construct_wf in Hm as [Hwf _].
  apply bind_ok_inv in Hc as (v & s1 & Hr & Hc). run_inv Hr.
  apply bind_ok_inv in Hc as (id' & s1 & Hp & Hc). run_inv Hp. cbn in Hp.
  apply bind_ok_inv in Hc as (v' & s1 & Hi & Hc).
  apply quiet_ok in Hi; [|apply quiet_insert_auto_close]. unfold deposit_event in Hc. run_inv Hc.
  unfold lives. cbn. rewrite Hi. cbn. by apply (push_life m _ _ id).
Qed.

Lemma create_lives o b f or p d md cre t mdm ru s :
  lives s (create_market now now_time o b f or p d md cre t mdm ru s).2.
Proof.
  apply transactional_lives. intros id s' Hc. run_inv Hc. by apply do_create_lives in Hc.
Qed.

Lemma create_and_deploy_lives o b f or p d md t mdm amount prices fee s :
  lives s (create_market_and_deploy_pool now now_time o b f or p d md t mdm amount prices fee s).2.
Proof.
  apply transactional_lives. intros id s' Hc.
  apply bind_ok_inv in Hc as (who & s1 & Hw & Hc). run_inv Hw.
  apply bind_ok_inv in Hc as (id' & s1 & Hcr & Hc). apply do_create_lives in Hcr.
  apply bind_ok_inv in Hc as (v & s2 & Hb & Hc). apply quiet_lives in Hb; [|apply quiet_buy].
  run_inv Hc. by transitivity s1.
Qed.

Lemma approve_lives o id s : lives s (approve_market o id s).2.
Proof.
  apply transactional_lives. intros u s' Ha. unfold ensure_origin in Ha.
  apply bind_ok_inv in Ha as (v & s1 & H1 & Ha). run_inv H1.
  apply bind_ok_inv in Ha as (edits & s1 & H1' & Ha). run_inv H1'.
  apply bind_ok_inv in Ha as (v' & s1 & Hm & Ha).
  apply mutate_at in Hm as (m & m' & Hm & Hf & ->). run_inv Hf. guards. intros <-.
  apply bind_ok_inv in Ha as (v'' & s2 & Hu & Ha). unfold deposit_event in Ha. run_inv Ha.
  apply (keeps_ok (minor_moved id (with_status Active m) (commons s))) in Hu
    as (m' & Hmin & Hc); [|apply keeps_unreserve|by exists (with_status Active m)].
  unfold lives. cbn. rewrite Hc.
  apply (put_life id m); [done|]. intros [W1 W2 W3].
  match goal with Hs : status m = Proposed |- _ => rename Hs into Hst end. rewrite Hst in W1, W2.
  apply (minor_wf m _ _ Hmin); [|congruence]. split.
  2:{ split; cbn; [rewrite W1; cbn; lia|by rewrite W2|done]. }
  apply evolves_step; cbn; rewrite ?Hst; cbn; try done. by left.
Qed.

Lemma request_edit_lives o id reason s : lives s (request_edit o id reason s).2.
Proof.
  apply transactional_lives. intros u s' Hr. eapply quiet_lives; [|exact Hr].
  intros Q. unfold ensure_origin. keep.
Qed.

Lemma edit_lives o b id or p d md t mdm ru s :
  lives s (edit_market now now_time o b id or p d md t mdm ru s).2.
Proof.
  apply transactional_lives. intros u s' He.
  apply bind_ok_inv in He as (who & s1 & H1 & He). run_inv H1.
  apply bind_ok_inv in He as (edits & s1 & H1' & He). run_inv H1'.
  apply bind_ok_inv in He as (v & s1 & H1' & He). run_inv H1'.
  apply bind_ok_inv in He as (m & s1 & Hm & He). apply market_at in Hm as [Hm ->].
  apply bind_ok_inv in He as (v1 & s1 & H1'' & He). run_inv H1''.
  apply bind_ok_inv in He as (v2 & s1 & H2 & He). run_inv H2. guards.
  apply bind_ok_inv in He as (v3 & s1 & Hc & He). apply quiet_ok in Hc; [|apply quiet_clear_auto_close].
  apply bind_ok_inv in He as (m' & s2 & H3 & He). run_inv H3.
  apply bind_ok_inv in He as (v4 & s2 & Hmut & He).
  apply mutate_at in Hmut as (m0 & m1 & Hm0 & [= <-] & ->). rewrite Hc in Hm0. rewrite Hm in Hm0.
  injection Hm0 as <-.
  apply bind_ok_inv in He as (v5 & s2 & Hi & He). apply quiet_ok in Hi; [|apply quiet_insert_auto_close].
  unfold deposit_event in He. run_inv He. unfold lives. cbn. rewrite Hi. cbn. rewrite Hc.
  apply (put_life id m); [done|]. intros [W1 W2 W3].
  assert (report m = None ∧ resolved_outcome m = None) as [Hrep Hres].
  { rewrite H2 in W1, W2. cbn in W1.
    destruct (report m) as [r|]; [exfalso; destruct W1 as [W1 _]; specialize (W1 ltac:(done)); lia|].
    destruct (resolved_outcome m); [exfalso; by destruct W2 as [W2 _]; specialize (W2 ltac:(done))|done]. }
  rewrite Hrep, Hres in H3. apply construct_wf in H3 as (Hwf & Hcr & Hcn & Hfee & Hr' & Hst).
  split; [|done]. split; [done| |congruence|intros r; congruence|congruence].
  rewrite H2. destruct (status m'); cbn; lia.
Qed.

(** A proposed market is removed after its bonds were settled. *)
Lemma removed_lives id m s s1 s2 u :
  Markets (commons s) !! id = Some m → status m = Proposed →
  minor_moved id m (commons s) (commons s1) →
  zoom commons set_commons (api_remove_market id) s1 = (Ok u, s2) → lives s s2.
Proof.
  intros Hm Hst (m' & Hmin & Hc) Hr. run_inv Hr. cbn in Hr. unfold lives. cbn.
  transitivity (commons s1).
  - apply (minor_moved_life id m); [done|congruence|by exists m'].
  - apply (remove_life id m' (commons s1) t u); [by rewrite Hc, put_lookup| |done].
    apply minor_fields in Hmin as (_ & _ & _ & -> & _). done.
Qed.

Lemma reject_lives o id reason s : lives s (reject_market o id reason s).2.
Proof.
  apply transactional_lives. intros u s' Hr. unfold ensure_origin in Hr.
  apply bind_ok_inv in Hr as (v & s1 & H1 & Hr). run_inv H1.
  apply bind_ok_inv in Hr as (m & s1 & Hm & Hr). apply market_at in Hm as [Hm ->].
  apply bind_ok_inv in Hr as (v1 & s1 & Hc & Hr). apply quiet_ok in Hc; [|apply quiet_clear_auto_close].
  apply bind_ok_inv in Hr as (v2 & s2 & H2 & Hr). run_inv H2. unfold do_reject_market in Hr.
  apply bind_ok_inv in Hr as (v3 & s2 & H3 & Hr). run_inv H3. guards.
  apply bind_ok_inv in Hr as (v4 & s2 & Hu & Hr).
  apply bind_ok_inv in Hr as (imb & s3 & Hs & Hr).
  apply bind_ok_inv in Hr as (v5 & s4 & H4 & Hr). run_inv H4.
  apply bind_ok_inv in Hr as (v6 & s4 & Hrem & Hr). unfold deposit_event in Hr. run_inv Hr.
  unfold lives. cbn. apply (removed_lives id m s _ s4 v6 Hm) in Hrem; [done|done|]. cbn.
  eapply (keeps_ok (minor_moved id m (commons s))); [apply keeps_slash|exact Hs|].
  eapply (keeps_ok (minor_moved id m (commons s))); [apply keeps_unreserve|exact Hu|].
  rewrite Hc. by apply minor_moved_refl.
Qed.

Lemma expired_lives id m s s' u :
  Markets (commons s) !! id = Some m → handle_expired_advised_market id m s = (Ok u, s') → lives s s'.
Proof.
  intros Hm Hr. unfold handle_expired_advised_market in Hr.
  apply bind_ok_inv in Hr as (v3 & s2 & H3 & Hr). run_inv H3. guards.
  apply bind_ok_inv in Hr as (v4 & s2 & Hu & Hr).
  apply bind_ok_inv in Hr as (v5 & s3 & Hs & Hr).
  apply bind_ok_inv in Hr as (v6 & s4 & Hrem & Hr). unfold deposit_event in Hr. run_inv Hr.
  unfold lives. cbn. apply (removed_lives id m s _ s4 v6 Hm) in Hrem; [done|done|].
  eapply (keeps_ok (minor_moved id m (commons s))); [apply keeps_unreserve|exact Hs|].
  eapply (keeps_ok (minor_moved id m (commons s))); [apply keeps_unreserve|exact Hu|].
  by apply minor_moved_refl.
Qed.

(** ** Closing *)

(** The callback's own writes are overwritten: of the market only the status changes. *)
Lemma close_market_commons id s s' u :
  close_market id s = (Ok u, s') →
  ∃ m, Markets (commons s) !! id = Some m ∧ status m = Active ∧
    commons s' = put_market id (with_status Closed m) (commons s).
Proof.
  intros Hc. unfold close_market in Hc. apply bind_ok_inv in Hc as (v & s1 & Hm & Hc).
  unfold mutate_market_with in Hm.
  apply bind_ok_inv in Hm as (m & s0 & Hm & Hcb). apply market_at in Hm as [Hm ->].
  apply bind_ok_inv in Hcb as (m' & s2 & Hcb & Hw).
  apply bind_ok_inv in Hcb as (v1 & s0 & H1 & Hcb). run_inv H1. guards.
  apply bind_ok_inv in Hcb as (v2 & s3 & Hb & Hcb). run_inv Hcb.
  unfold deposit_event in Hc. run_inv Hc. cbn.
  apply mutate_at in Hw as (m0 & m1 & _ & [= <-] & ->). cbn.
  exists m. split; [done|]. split; [done|].
  apply (keeps_ok (minor_moved id m (commons s))) in Hb as (m2 & _ & ->).
  - apply put_put.
  - pose proof keeps_unreserve. keep.
  - by apply minor_moved_refl.
Qed.

Lemma closed_evolves m m' :
  status m = Active → minor (with_status Closed m) m' → wf m → evolves m m' ∧ wf m'.
Proof.
  intros Hst Hmin [W1 W2 W3]. rewrite Hst in *. apply (minor_wf m _ _ Hmin); [|congruence]. split.
  - apply evolves_step; cbn; rewrite ?Hst; cbn; try done. by left.
  - split; cbn; [rewrite W1; cbn; lia|by rewrite W2|done].
Qed.

Lemma close_lives id s s' u : close_market id s = (Ok u, s') → lives s s'.
Proof.
  intros (m & Hm & Hst & Hc)%close_market_commons. unfold lives. rewrite Hc.
  apply (put_life id m); [done|]. by apply closed_evolves.
Qed.

(** Closing and setting the end of the market. *)
Lemma close_and_end_lives id s s' u :
  (_ ← close_market id; set_market_end now now_time id) s = (Ok u, s') → lives s s'.
Proof.
  intros Hc. apply bind_ok_inv in Hc as (v & s1 & (m & Hm & Hst & Hc)%close_market_commons & He).
  unfold set_market_end in He. apply mutate_at in He as (m1 & m2 & Hm1 & [= <-] & ->).
  unfold lives. cbn. rewrite Hc in Hm1 |- *. rewrite put_lookup in Hm1. injection Hm1 as <-.
  rewrite put_put. apply (put_life id m); [done|]. apply closed_evolves; [done|]. apply minor_period.
Qed.

Lemma admin_close_lives o id s : lives s (admin_move_market_to_closed now now_time o id s).2.
Proof.
  apply transactional_lives. intros u s' Hc. unfold ensure_origin in Hc.
  apply bind_ok_inv in Hc as (v & s1 & H1 & Hc). run_inv H1.
  apply bind_ok_inv in Hc as (m & s1 & Hm & Hc). apply market_at in Hm as [Hm ->].
  apply bind_ok_inv in Hc as (v1 & s1 & H1' & Hc). run_inv H1'.
  apply bind_ok_inv in Hc as (v2 & s1 & Hcl & Hc). apply quiet_lives in Hcl; [|apply quiet_clear_auto_close].
  transitivity s1; [done|]. by eapply close_and_end_lives.
Qed.

Lemma close_trusted_lives o id s : lives s (close_trusted_market now now_time o id s).2.
Proof.
  apply transactional_lives. intros u s' Hc.
  apply bind_ok_inv in Hc as (who & s1 & H1 & Hc). run_inv H1.
  apply bind_ok_inv in Hc as (m & s1 & Hm & Hc). apply market_at in Hm as [Hm ->].
  apply bind_ok_inv in Hc as (v & s1 & H1' & Hc). run_inv H1'.
  apply bind_ok_inv in Hc as (v' & s1 & H2' & Hc). run_inv H2'.
  apply bind_ok_inv in Hc as (v1 & s1 & H3' & Hc). run_inv H3'.
  apply bind_ok_inv in Hc as (v2 & s1 & Hcl & Hc). apply quiet_lives in Hcl; [|apply quiet_clear_auto_close].
  transitivity s1; [done|]. by eapply close_and_end_lives.
Qed.

(** ** Early close *)

Ltac minor_tac :=
  intros ? ? [= <-]; unfold minor; do 3 eexists;
  unfold with_bond, with_early_close, with_period, with_bonds; cbn; reflexivity.
Ltac keep_minor :=
  pose proof keeps_unreserve; pose proof keeps_repatriate; pose proof quiet_insert_auto_close;
  pose proof quiet_clear_auto_close;
  repeat first [keep_step | apply keeps_mutate; minor_tac].

(** Minor changes of an active market. *)
Lemma active_lives {A} id m (f : ST A) s s' r :
  Markets (commons s) !! id = Some m → ensure_market_is_active m = Ok tt →
  keeps (minor_moved id m (commons s)) f → f s = (r, s') → lives s s'.
Proof.
  intros Hm Ha Hk Hf. apply ensureR_ok_inv in Ha. guards. unfold lives.
  apply (minor_moved_life id m); [done|congruence|].
  apply (keeps_ok _ f s s' r Hk Hf). by apply minor_moved_refl.
Qed.

Lemma schedule_early_close_lives o id s :
  lives s (schedule_early_close now now_time o id s).2.
Proof.
  apply transactional_lives. intros u s' Hc. cbv zeta in Hc.
  apply bind_ok_inv in Hc as ([m mc] & s1 & Hr & Hc).
  assert (Markets (commons s) !! id = Some m ∧ s1 = s) as [Hm ->].
  { destruct (CloseMarketEarlyOrigin o).
    - apply bind_ok_inv in Hr as (m1 & s2 & Hm & Hr). run_inv Hr. by apply market_at in Hm.
    - apply bind_ok_inv in Hr as (who & s2 & H1 & Hr). run_inv H1.
      apply bind_ok_inv in Hr as (m1 & s2 & Hm & Hr). run_inv Hr. by apply market_at in Hm. }
  apply bind_ok_inv in Hc as ([] & s1 & H1 & Hc). run_inv H1.
  refine (active_lives id m _ s s' (Ok u) Hm H1 _ Hc). keep_minor.
Qed.

Lemma dispute_early_close_lives o id s : lives s (dispute_early_close o id s).2.
Proof.
  apply transactional_lives. intros u s' Hc.
  apply bind_ok_inv in Hc as (who & s1 & H1 & Hc). run_inv H1.
  apply bind_ok_inv in Hc as (m & s1 & Hm & Hc). apply market_at in Hm as [Hm ->].
  apply bind_ok_inv in Hc as ([] & s1 & H1' & Hc). run_inv H1'.
  refine (active_lives id m _ s s' (Ok u) Hm H1' _ Hc). keep_minor.
Qed.

Lemma reject_early_close_lives o id s : lives s (reject_early_close o id s).2.
Proof.
  apply transactional_lives. intros u s' Hc. unfold ensure_origin in Hc.
  apply bind_ok_inv in Hc as (who & s1 & H1 & Hc). run_inv H1.
  apply bind_ok_inv in Hc as (m & s1 & Hm & Hc). apply market_at in Hm as [Hm ->].
  apply bind_ok_inv in Hc as ([] & s1 & H1' & Hc). run_inv H1'.
  refine (active_lives id m _ s s' (Ok u) Hm H1' _ Hc). keep_minor.
Qed.

(** ** Resolution *)

Lemma on_resolution_commons id m s s' u :
  Markets (commons s) !! id = Some m → on_resolution mechanism id m s = (Ok u, s') →
  (status m = Reported ∨ status m = Disputed) ∧
  ∃ m1 o, minor m m1 ∧
    commons s' = put_market id (with_resolved_outcome (Some o) (with_status Resolved m1)) (commons s).
Proof.
  intros Hm Hr. unfold on_resolution in Hr.
  apply bind_ok_inv in Hr as (v & s1 & Hu & Hr).
  assert (minor_moved id m (commons s) (commons s1)) as Hm1.
  { eapply (keeps_ok (minor_moved id m (commons s))); [|exact Hu|by apply minor_moved_refl].
    pose proof keeps_unreserve. keep. }
  apply bind_ok_inv in Hr as (o & s2 & Ho & Hr).
  assert (minor_moved id m (commons s) (commons s2) ∧ (status m = Reported ∨ status m = Disputed))
    as [(m2 & Hmin & Hc) Hst].
  { destruct (status m); try by run_inv Ho.
    - split; [|by left]. by apply (keeps_ok (minor_moved id m (commons s))) in Ho;
        [|apply keeps_resolve_reported|].
    - split; [|by right]. by apply (keeps_ok (minor_moved id m (commons s))) in Ho;
        [|apply keeps_resolve_disputed|]. }
  split; [done|].
  apply bind_ok_inv in Hr as (c & s3 & H1 & Hr). run_inv H1.
  apply bind_ok_inv in Hr as (v' & s3 & H1 & Hr). run_inv H1.
  apply bind_ok_inv in Hr as (v'' & s3 & Hmut & Hr). unfold deposit_event in Hr. run_inv Hr.
  apply mutate_at in Hmut as (m3 & m4 & Hm3 & [= <-] & ->). cbn in Hm3 |- *.
  rewrite Hc, put_lookup in Hm3. injection Hm3 as <-. rewrite Hc, put_put. eauto.
Qed.

Lemma resolved_evolves m m1 o :
  status m = Reported ∨ status m = Disputed → minor m m1 → wf m →
  let m' := with_resolved_outcome (Some o) (with_status Resolved m1) in evolves m m' ∧ wf m'.
Proof.
  intros Hst Hmin [W1 W2 W3] m'.
  apply minor_fields in Hmin as (C1 & C2 & C3 & S & T & R & O).
  assert (status m ≠ Resolved ∧ 3 ≤ rank (status m) ≤ 5) as [Hne Hrank]
    by (destruct Hst as [Hs|Hs]; rewrite Hs; by cbn).
  split; [apply evolves_step; cbn; try done; [lia|by left]|].
  split; cbn; [|done|done]. rewrite R, W1. lia.
Qed.

Lemma on_resolution_lives id m s s' u :
  Markets (commons s) !! id = Some m → on_resolution mechanism id m s = (Ok u, s') → lives s s'.
Proof.
  intros Hm Hr. apply (on_resolution_commons id m) in Hr as (Hst & m1 & o & Hmin & Hc); [|done].
  unfold lives. rewrite Hc. apply (put_life id m); [done|]. by apply resolved_evolves.
Qed.

Lemma admin_resolve_lives o id s : lives s (admin_move_market_to_resolved mechanism o id s).2.
Proof.
  apply transactional_lives. intros u s' Hc. unfold ensure_origin in Hc.
  apply bind_ok_inv in Hc as (v & s1 & H1 & Hc). run_inv H1.
  apply bind_ok_inv in Hc as (m & s1 & Hm & Hc). apply market_at in Hm as [Hm ->].
  apply bind_ok_inv in Hc as (v1 & s1 & H1' & Hc). run_inv H1'.
  apply bind_ok_inv in Hc as (v2 & s1 & Hcl & Hc). apply quiet_lives in Hcl; [|apply quiet_clear_auto_resolve].
  apply bind_ok_inv in Hc as (m' & s2 & Hm' & Hc). apply market_at in Hm' as [Hm' ->].
  transitivity s1; [done|]. by eapply on_resolution_lives.
Qed.

(** ** Reports and disputes *)

Lemma reported_evolves m m1 r :
  status m = Closed → report m = None → minor m m1 → wf m →
  let m' := with_status Reported (with_report (Some r) m1) in evolves m m' ∧ wf m'.
Proof.
  intros Hst Hrep Hmin [W1 W2 W3] m'.
  apply minor_fields in Hmin as (C1 & C2 & C3 & S & T & R & O).
  rewrite Hst in *. split; [apply evolves_step; cbn; rewrite ?Hst; cbn; try done; by right|].
  split; cbn; [|rewrite O, W2; done|done]. split; [lia|done].
Qed.

Lemma report_lives o id outcome s :
  lives s (report_market mechanism now now_time o id outcome s).2.
Proof.
  apply transactional_lives. intros u s' Hr. cbv zeta in Hr.
  apply bind_ok_inv in Hr as (who & s1 & H1 & Hr). run_inv H1.
  apply bind_ok_inv in Hr as (m & s1 & Hm & Hr). apply market_at in Hm as [Hm ->].
  apply bind_ok_inv in Hr as (v & s1 & H2 & Hr). run_inv H2.
  apply bind_ok_inv in Hr as (v1 & s1 & H3 & Hr). run_inv H3. apply ensureR_ok_inv in H3.
  apply bind_ok_inv in Hr as (v2 & s1 & H4 & Hr). run_inv H4. guards.
  apply bind_ok_inv in Hr as (v3 & s1 & Hrep & Hr). unfold deposit_event in Hr. run_inv Hr.
  change (lives s s1). destruct (dispute_mechanism m).
  - unfold report_market_with_dispute_mechanism in Hrep.
    apply bind_ok_inv in Hrep as (who' & s2 & H5 & Hrep). run_inv H5.
    apply bind_ok_inv in Hrep as (v4 & s2 & Hmut & Hrep). unfold mutate_market_with in Hmut.
    apply bind_ok_inv in Hmut as (mc & s3 & Hmc & Hmut). apply market_at in Hmc as [Hmc ->].
    rewrite Hm in Hmc. injection Hmc as <-.
    apply bind_ok_inv in Hmut as (m' & s3 & Hcb & Hmut).
    apply bind_ok_inv in Hcb as (chk & s4 & H6 & Hcb). run_inv H6.
    apply bind_ok_inv in Hcb as (m1 & s4 & Hm1 & Hcb). run_inv Hcb.
    assert (minor m m1 ∧ commons s3 = commons s) as [Hmin Hc].
    { destruct chk; [by run_inv Hm1|]. destruct (_ && _); [|by run_inv Hm1].
      run_inv Hm1. split; [apply minor_bonds|done]. }
    apply mutate_at in Hmut as (m2 & m3 & Hm2 & [= <-] & ->). rewrite Hc in Hm2.
    apply bind_ok_inv in Hrep as (m4 & s4 & Hm4 & Hrep). apply market_at in Hm4 as [_ ->].
    apply quiet_ok in Hrep; [|intros Q; keep]. unfold lives. rewrite Hrep. cbn. rewrite Hc.
    apply (put_life id m); [done|]. by apply reported_evolves.
  - unfold report_and_resolve_market in Hrep.
    apply bind_ok_inv in Hrep as (v4 & s2 & Hmut & Hrep).
    apply mutate_at in Hmut as (m2 & m3 & Hm2 & Hf & ->). run_inv Hf. intros <-.
    rewrite Hm in Hm2. injection Hm2 as <-.
    apply bind_ok_inv in Hrep as (m4 & s4 & Hm4 & Hrep). apply market_at in Hm4 as [Hm4 ->].
    apply on_resolution_lives in Hrep; [|done]. etransitivity; [|exact Hrep].
    apply (put_life id m); [done|]. by apply reported_evolves.
Qed.

Lemma disputed_evolves m m1 :
  status m = Reported → minor (with_status Disputed m) m1 → wf m → evolves m m1 ∧ wf m1.
Proof.
  intros Hst Hmin [W1 W2 W3]. rewrite Hst in *. apply (minor_wf m _ _ Hmin); [|congruence]. split.
  - apply evolves_step; cbn; rewrite ?Hst; cbn; try done. by left.
  - split; cbn; [rewrite W1; cbn; lia|by rewrite W2|done].
Qed.

Lemma dispute_lives o id s : lives s (dispute mechanism o id s).2.
Proof.
  apply transactional_lives. intros u s' Hr.
  apply bind_ok_inv in Hr as (who & s1 & H1 & Hr). run_inv H1.
  apply bind_ok_inv in Hr as (m & s1 & Hm & Hr). apply market_at in Hm as [Hm ->].
  apply bind_ok_inv in Hr as (v & s1 & H2 & Hr). run_inv H2. guards.
  apply bind_ok_inv in Hr as (k & s1 & H3 & Hr). run_inv H3.
  apply bind_ok_inv in Hr as (v1 & s1 & H4 & Hr). run_inv H4.
  apply bind_ok_inv in Hr as (v2 & s1 & H5 & Hr). run_inv H5.
  apply bind_ok_inv in Hr as (v3 & s1 & Hmut & Hr). unfold deposit_event in Hr. run_inv Hr.
  apply mutate_at in Hmut as (m2 & m3 & Hm2 & [= <-] & ->). cbn in Hm2. rewrite Hm in Hm2.
  injection Hm2 as <-. unfold lives. cbn.
  apply (put_life id m); [done|]. apply disputed_evolves; [done|]. apply minor_bonds.
Qed.

Lemma start_global_dispute_lives o id s :
  lives s (PredictionMarkets.start_global_dispute mechanism now o id s).2.
Proof.
  apply transactional_lives. intros u s' Hr. cbv zeta in Hr.
  apply bind_ok_inv in Hr as (who & s1 & H1 & Hr). run_inv H1.
  apply bind_ok_inv in Hr as (m & s1 & Hm & Hr). apply market_at in Hm as [Hm ->].
  do 9 (let v := fresh "v" in let s1 := fresh "t" in let H1 := fresh "E" in
    apply bind_ok_inv in Hr as (v & s1 & H1 & Hr); run_inv H1).
  apply bind_ok_inv in Hr as (v9 & s0 & Hgd & Hr). apply quiet_ok in Hgd; [|intros Q; keep].
  apply bind_ok_inv in Hr as (v8 & s1 & Hcl & Hr). apply quiet_ok in Hcl; [|apply quiet_clear_auto_resolve].
  apply bind_ok_inv in Hr as (v10 & s2 & Hmut & Hr). rewrite Hgd in Hcl. cbn in Hcl.
  apply bind_ok_inv in Hr as (c & s3 & H2 & Hr). run_inv H2.
  apply bind_ok_inv in Hr as (v11 & s3 & H2 & Hr). run_inv H2. unfold deposit_event in Hr. run_inv Hr.
  change (lives s s2). destruct (bool_decide (status m = Reported)) eqn:Hst.
  - guards. apply mutate_at in Hmut as (m2 & m3 & Hm2 & [= <-] & ->). unfold lives. cbn.
    rewrite Hcl in Hm2 |- *. rewrite Hm in Hm2. injection Hm2 as <-.
    apply (put_life id m); [done|]. by apply disputed_evolves.
  - run_inv Hmut. unfold lives. rewrite Hcl. reflexivity.
Qed.

(** ** The block hook and dispatch *)

Lemma for_market_lives f id s s' u :
  (∀ m t t' v, Markets (commons t) !! id = Some m → f id m t = (Ok v, t') → lives t t') →
  for_market f id s = (Ok u, s') → lives s s'.
Proof.
  intros Hf Hr. apply bind_ok_inv in Hr as (m & s1 & Hm & Hr).
  apply market_at in Hm as [Hm ->]. by apply (Hf m _ _ u).
Qed.

Lemma on_market_close_lives id m s s' u :
  Markets (commons s) !! id = Some m → on_market_close id m s = (Ok u, s') → lives s s'.
Proof.
  intros Hm Hr. unfold on_market_close in Hr.
  destruct (status m); [by apply expired_lives in Hr|by apply close_lives in Hr|by run_inv Hr..].
Qed.

Lemma status_manager_lives b t0 t1 s s' u :
  market_status_manager b t0 t1 on_market_close s = (Ok u, s') → lives s s'.
Proof.
  intros Hr. unfold market_status_manager in Hr. cbv zeta in Hr.
  apply bind_ok_inv in Hr as (ids & s1 & H1 & Hr). run_inv H1.
  apply bind_ok_inv in Hr as (v & s1 & H1 & Hr).
  apply (for_each_rel lives) in H1;
    [|intros id t t' w _; apply for_market_lives; intros m t2 t3 w2; apply on_market_close_lives].
  transitivity s1; [done|].
  apply bind_ok_inv in Hr as (v' & s2 & H2 & Hr). run_inv H2.
  apply (for_each_rel lives) in Hr; [done|]. intros tf t t' w _ Hf.
  apply bind_ok_inv in Hf as (ids' & t2 & H2 & Hf). run_inv H2.
  apply bind_ok_inv in Hf as (v2 & t2 & H2 & Hf). run_inv Hf.
  apply (for_each_rel lives) in H2; [done|].
  intros id ta tb wa _. apply for_market_lives. intros m tc td wb. apply on_market_close_lives.
Qed.

Lemma resolution_manager_lives b s s' u :
  resolution_manager b (on_resolution mechanism) s = (Ok u, s') → lives s s'.
Proof.
  intros Hr. unfold resolution_manager in Hr.
  apply bind_ok_inv in Hr as (ids & s1 & H1 & Hr). run_inv H1.
  apply bind_ok_inv in Hr as (v & s1 & H1 & Hr). apply (for_each_rel lives) in H1.
  2:{ intros id t t' w _. apply for_market_lives. intros m t2 t3 w2 Hm Hf.
      destruct (bool_decide _); [by apply on_resolution_lives in Hf|]. run_inv Hf. reflexivity. }
  transitivity s1; [done|].
  apply bind_ok_inv in Hr as (v' & s2 & H2 & Hr). run_inv H2.
  apply bind_ok_inv in Hr as (ids' & s2 & H2 & Hr). run_inv H2.
  apply bind_ok_inv in Hr as (v2 & s2 & H2 & Hr). run_inv Hr.
  apply (for_each_rel lives) in H2; [done|].
  intros id t t' w _. apply for_market_lives. intros m t2 t3 w2. by apply on_resolution_lives.
Qed.

Lemma on_initialize_lives s : lives s (on_initialize mechanism now now_time s).
Proof.
  unfold on_initialize, initialize_block. cbv zeta. rewrite gets_bind.
  apply transactional_lives. intros u s' Hr.
  apply bind_ok_inv in Hr as (rc & s1 & Hc & Hr). apply attempt_ok_inv in Hc.
  apply bind_ok_inv in Hr as (rr & s2 & Hres & Hr). apply attempt_ok_inv in Hres.
  apply bind_ok_inv in Hr as (v & s3 & Hm & Hr). run_inv Hm.
  destruct rc as [v1|e]; [|by run_inv Hr]. destruct rr as [v2|e]; [|by run_inv Hr]. run_inv Hr.
  transitivity s1; [by apply status_manager_lives in Hc|].
  by apply resolution_manager_lives in Hres.
Qed.

Lemma quiet_transactional_lives {A} (f : ST A) s : quiet f → lives s (transactional f s).2.
Proof. intros Hq. apply transactional_lives. intros a s' Hf. by apply quiet_lives in Hf. Qed.

Lemma forget_result {A} (f : ST A) s : ((_ ← f; mret tt) s).2 = (f s).2.
Proof. unfold mbind, M_bind. by destruct (f s) as [[a|e] s']. Qed.

Lemma dispatch_lives o call s : lives s (dispatch mechanism now now_time o call s).2.
Proof.
  pose proof quiet_buy. pose proof quiet_sell. pose proof quiet_redeem.
  destruct call; unfold dispatch; rewrite ?forget_result.
  1-3: apply quiet_transactional_lives; intros Q; keep.
  - apply create_lives.
  - apply create_and_deploy_lives.
  - apply approve_lives.
  - apply request_edit_lives.
  - apply edit_lives.
  - apply reject_lives.
  - apply admin_close_lives.
  - apply close_trusted_lives.
  - apply schedule_early_close_lives.
  - apply dispute_early_close_lives.
  - apply reject_early_close_lives.
  - apply admin_resolve_lives.
  - apply report_lives.
  - apply dispute_lives.
  - apply start_global_dispute_lives.
Qed.
End Operations.

(** ** The life cycle *)
Section LifeCycle.
Context {L D G X : Type}.
Context `{!AssetManager L, !Currency L, !Config L}.
Context (mechanism : MarketDisputeMechanism → DisputeApi D IdsPer L).
Context `{!GlobalDisputesPalletApi MarketCommons.State G IdsPer}.
Context `{!LiquidityMiningPalletApi MarketCommons.State X L, !DeployPoolApi MarketCommons.State X L}.
Abbreviation St := (PredictionMarkets.State MarketCommons.State L D G X).
Implicit Types (s : St) (m : Market).

(** (C1) Along every run of calls, block hooks and steps of other pallets, whatever
    their arguments, origins, blocks and outcomes: well-formed markets stay
    well-formed (a report exists exactly from the reported state on, an outcome
    exactly in the resolved state, only advised markets are proposed); the identifier
    counter never decreases; and a known market keeps its creator and fee, moves only
    forward through the states, keeps its terms once it is approved and its report
    once it is made, and is frozen when resolved. Only a proposed market can
    disappear, and its identifier is never used again. *)
Theorem market_life_cycle s s' :
  rtc (pallet_step mechanism) s s' → markets_inv (commons s) →
  markets_inv (commons s') ∧ counter (commons s) ≤ counter (commons s') ∧
  ∀ id, id < counter (commons s) → kept id (commons s) (commons s').
Proof.
  intros Hr. change (lives s s'). induction Hr as [s|s1 s2 s3 Hs _ IH]; [reflexivity|].
  transitivity s2; [|done]. destruct Hs as [now t o c s|now t s|s s2 Hc].
  - apply dispatch_lives.
  - apply on_initialize_lives.
  - unfold lives. rewrite Hc. reflexivity.
Qed.
End LifeCycle.

(** ** Examples *)
Module LifeExample.
Definition creator_id : AccountId := 1.
Definition oracle_id : AccountId := 2.
Definition disputor_id : AccountId := 3.
Definition rich : N := Z.to_N (10000 * BASE).
Definition start : Chain :=
  PredictionMarkets.mk_State (MarketCommons.mk_State ∅ None ∅)
    (mk_RuntimeLedger
       (mk_Ledger {[(Ztg, creator_id) := rich; (Ztg, oracle_id) := rich; (Ztg, disputor_id) := rich]} ∅) ∅)
    (∅, ∅) (GlobalDisputes.mk_Storage ∅ ∅ ∅ []) tt ∅ ∅ None ∅ ∅ ∅ [].
Definition call (now : BlockNumber) (o : RuntimeOrigin) (c : Call) (s : Chain) : Chain :=
  (dispatch example_mechanism now (now * MILLISECS_PER_BLOCK) o c s).2.
Definition block (now : BlockNumber) (s : Chain) : Chain :=
  on_initialize example_mechanism now (now * MILLISECS_PER_BLOCK) s.
(** The outcome an authority submits to the authorized pallet. *)
Definition authority (resolve_at : BlockNumber) (id : MarketId) (o : OutcomeReport) (s : Chain) : Chain :=
  set_dispute_blocks (<[resolve_at := [id]]> (dispute_blocks s))
    (set_disputes (<[id := mk_AuthorityReport resolve_at o]> (dispute_storage s).1,
                   (dispute_storage s).2, dispute_blocks s, ledger s) s).
Definition create (mdm : option MarketDisputeMechanism) : Call :=
  Call_create_market Ztg 0 oracle_id (Block (mk_Range 0 100000)) 
    (mk_Deadlines 0 BLOCKS_PER_HOUR (match mdm with Some _ => MIN_DISPUTE_DURATION | None => 0 end))
    [0x15; 0x30] Permissionless (MT_Categorical 3) mdm Lmsr.

Definition s1 : Chain := call 10 (Signed creator_id) (create (Some MDM_Authorized)) start.
Definition s2 : Chain := block 100000 s1.
Definition s3 : Chain := call 100001 (Signed oracle_id) (Call_report 0 (Categorical 1)) s2.
Definition s4 : Chain := call 100002 (Signed disputor_id) (Call_dispute 0) s3.
Definition s5 : Chain := authority 100100 0 (Categorical 2) s4.
Definition s6 : Chain := block 100100 s5.
Definition status_of (s : Chain) : option MarketStatus := status <$> Markets (commons s) !! 0.
Definition outcome_of (s : Chain) : option OutcomeReport := Markets (commons s) !! 0 ≫= resolved_outcome.

(** From genesis, and from the creation of the market on. *)
Lemma market_life_cycle_witness :
  (status_of <$> [start; s1; s2; s3; s4; s5; s6]) =
    [None; Some Active; Some Closed; Some Reported; Some Disputed; Some Disputed; Some Resolved] ∧
  outcome_of s6 = Some (Categorical 2) ∧ markets_inv (commons s6) ∧
  counter (commons s1) = 1 ∧ kept 0 (commons s1) (commons s6).
Proof.
  split; [by vm_compute|]. split; [by vm_compute|].
  destruct (market_life_cycle example_mechanism start s1) as (Hinv & _ & _).
  - eapply rtc_l; [apply (step_call _ 10 (10 * MILLISECS_PER_BLOCK) (Signed creator_id))|].
    apply rtc_refl.
  - split; [apply genesis_counter_inv|]. intros id m Hm. cbn in Hm. by rewrite lookup_empty in Hm.
  - destruct (market_life_cycle example_mechanism s1 s6) as (Hinv' & _ & Hkept); [|done|].
    + eapply rtc_l; [apply (step_block _ 100000 (100000 * MILLISECS_PER_BLOCK))|].
      eapply rtc_l; [apply (step_call _ 100001 (100001 * MILLISECS_PER_BLOCK) (Signed oracle_id))|].
      eapply rtc_l; [apply (step_call _ 100002 (100002 * MILLISECS_PER_BLOCK) (Signed disputor_id))|].
      eapply rtc_l; [apply (step_other _ s4 s5); done|].
      eapply rtc_l; [apply (step_block _ 100100 (100100 * MILLISECS_PER_BLOCK))|]. apply rtc_refl.
    + split; [done|]. split; [by vm_compute|]. apply Hkept. by vm_compute.
Defined.
End LifeExample.

(** ** Observations

    Three behaviours of the code that its comments and events do not announce. *)
Module Observations.
Import LifeExample.

(** [close_market] settles the bonds of an early close in the callback of
    [mutate_market], whose final write restores the bonds it had read: the bond is
    paid back and still counts as unsettled. *)
Definition scheduled : Chain := call 20 (Signed creator_id) (Call_schedule_early_close 0) s1.
Definition closed_early : Chain := block (20 + CloseEarlyBlockPeriod) scheduled.
Definition request_bond (s : Chain) : option Bond :=
  Markets (commons s) !! 0 ≫= λ m, get_bond close_request_bond (bonds m).
Definition reserved (s : Chain) : Balance :=
  reserved_balance_named reserve_id Ztg creator_id (ledger s).

Example close_forgets_settlement :
  status_of closed_early = Some Closed ∧
  reserved closed_early = reserved scheduled - CloseEarlyRequestBond ∧
  request_bond closed_early = Some (mk_Bond creator_id CloseEarlyRequestBond false).
Proof. by vm_compute. Qed.

(** A failing market keeps the other markets of the block from being closed, then
    and later; the event that should report it is rolled back as well. *)
Definition blocked : Chain := set_close_block {[100000 := [0; 7]]} s1.
Example bad_block_is_silent :
  (initialize_block example_mechanism 100000 0 blocked).1 =
    Err MarketDoesNotExist ∧
  block 100000 blocked = blocked ∧
  status_of (block 100001 (block 100000 blocked)) = Some Active.
Proof. by vm_compute. Qed.

(** After a dispute the authority schedules the early close, which settles both
    bonds, and then rejects it: [reject_early_close] settles them again, which the
    bond macros guard against with a [debug_assert]. *)
Definition challenged : Chain := call 30 (Signed disputor_id) (Call_dispute_early_close 0) scheduled.
Definition overruled : Chain := call 40 Root (Call_schedule_early_close 0) challenged.
Definition dispute_bond_of (s : Chain) : option Bond :=
  Markets (commons s) !! 0 ≫= λ m, get_bond close_dispute_bond (bonds m).
Example reject_settles_twice :
  request_bond overruled = Some (mk_Bond creator_id CloseEarlyRequestBond true) ∧
  dispute_bond_of overruled = Some (mk_Bond disputor_id CloseEarlyDisputeBond true) ∧
  let rejected := dispatch example_mechanism 50 (50 * MILLISECS_PER_BLOCK) Root
                    (Call_reject_early_close 0) overruled in
  rejected.1 = Ok tt ∧ ledger rejected.2 = ledger overruled.
Proof. by vm_compute. Qed.
End Observations.
