(* ===== verification/MarketFrames.v ===== *)
(** * What the operations of the prediction markets pallet leave alone

    A relation between states that does not see changes of the ledger, the caches and the
    bonds is kept by most operations of [PredictionMarkets]; a relation that is such a frame
    gets the walk through them from here. *)
From S2P Require Import Prelude GlobalDisputes Disputes MarketCommons.
From S2P Require Import Currencies Ledgers Errors Types PredictionMarkets Runtime MarketLife.

(** The dispute mechanism a call sets. *)
Definition mechanism_of (c : Call) : option MarketDisputeMechanism :=
  match c with
  | Call_create_market _ _ _ _ _ _ _ _ mdm _ => mdm
  | Call_create_market_and_deploy_pool _ _ _ _ _ _ _ mdm _ _ _ => mdm
  | Call_edit_market _ _ _ _ _ _ _ mdm _ => mdm
  | _ => None
  end.

(** Calls that reach the dispute mechanisms, or may do so. *)
Definition reaches_disputes (c : Call) : bool :=
  match c with
  | Call_admin_move_market_to_resolved _ | Call_report _ _ | Call_dispute _ | Call_start_global_dispute _ => true
  | _ => false
  end.

Section Frames.
Context {L D G X : Type}.
Context `{!AssetManager L, !Currency L, !Config L}.
Context (mechanism : MarketDisputeMechanism → DisputeApi D IdsPer L).
Context `{!GlobalDisputesPalletApi MarketCommons.State G IdsPer}.
Context `{!LiquidityMiningPalletApi MarketCommons.State X L, !DeployPoolApi MarketCommons.State X L}.
Abbreviation St := (PredictionMarkets.State MarketCommons.State L D G X).
Abbreviation ST := (Store St).

(** A change of a market that neither starts a dispute nor changes the mechanism. *)
Definition undisputing (m m' : Market) : Prop :=
  dispute_mechanism m' = dispute_mechanism m ∧ (status m' = Disputed → status m = Disputed).

(** Markets, disputes and their schedule. *)
Definition same_disputes (s s' : St) : Prop :=
  dispute_storage s' = dispute_storage s ∧ dispute_blocks s' = dispute_blocks s ∧
  global_disputes s' = global_disputes s.

(** [admits] says which mechanisms new markets may have. *)
Class MarketFramed (admits : option MarketDisputeMechanism → Prop) (Rel : St → St → Prop) : Prop := {
  mf_preorder :: PreOrder Rel;
  mf_frame s s' : commons s' = commons s → same_disputes s s' → Rel s s';
  (** A market is replaced. *)
  mf_market s id m m' :
    Markets (commons s) !! id = Some m → undisputing m m' →
    Rel s (set_commons (put_market id m' (commons s)) s);
  (** A market is replaced after a callback. *)
  mf_overwrite s s2 id m m' :
    Rel s s2 → Markets (commons s) !! id = Some m → dispute_mechanism m' = dispute_mechanism m →
    status m' ≠ Disputed → Rel s (set_commons (put_market id m' (commons s2)) s2);
  mf_remove s id : Rel s (set_commons (MarketCommons.set_Markets (delete id) (commons s)) s);
  (** A new market, or a new version of a proposed one. *)
  mf_put s c id m :
    Markets c = Markets (commons s) → admits (dispute_mechanism m) → status m ≠ Disputed →
    Rel s (set_commons (put_market id m c) s);
}.

Context (admits : option MarketDisputeMechanism → Prop) (Rel : St → St → Prop) `{!MarketFramed admits Rel}.

(** ** Primitive steps *)

Lemma fr_same (f : St → St) :
  (∀ s, commons (f s) = commons s) → (∀ s, same_disputes s (f s)) → respects Rel (modify f : ST unit).
Proof. intros Hc Hd s. apply mf_frame; [apply Hc|apply Hd]. Qed.
Lemma fr_zoom {T A} get put (f : Store T A) :
  (∀ t s, commons (put t s) = commons s) → (∀ t s, same_disputes s (put t s)) →
  respects Rel (zoom get put f : ST A).
Proof. intros Hc Hd. apply respects_zoom. intros s. apply mf_frame; [apply Hc|apply Hd]. Qed.
Lemma fr_market id : respects Rel (market id : ST Market).
Proof. unfold market. respects. Qed.
Lemma fr_event e : respects Rel (deposit_event e : ST unit).
Proof. by apply fr_same. Qed.

Lemma fr_mutate id (f : Market → Res Market) :
  (∀ m m', f m = Ok m' → undisputing m m') → respects Rel (mutate_market id f : ST unit).
Proof.
  intros Hf s. destruct (mutate_market id f s) as [[u|e] s'] eqn:Hm; cbn.
  - apply mutate_at in Hm as (m & m' & Hid & Hf' & ->). eapply mf_market; [done|by apply Hf].
  - unfold mutate_market, zoom in Hm. cbn in Hm. unfold MarketCommons.mutate_market in Hm.
    rewrite gets_bind in Hm. apply mf_frame.
    + destruct (Markets (commons s) !! id) as [m|]; [destruct (f m) as [m'|]|]; cbn in Hm; by simplify_eq/=.
    + destruct (Markets (commons s) !! id) as [m|]; [destruct (f m) as [m'|]|]; cbn in Hm; by simplify_eq/=.
Qed.

(** A callback with effects of its own, which keeps the mechanism of the market it is given. *)
Lemma fr_mutate_with id (f : Market → ST Market) :
  (∀ m, respects Rel (f m)) →
  (∀ m s m' s', f m s = (Ok m', s') → dispute_mechanism m' = dispute_mechanism m ∧ status m' ≠ Disputed) →
  respects Rel (mutate_market_with id f : ST unit).
Proof.
  intros Hr Hf s. unfold mutate_market_with.
  destruct (market id s) as [[m|e] s1] eqn:Hm; [|rewrite (bind_err _ _ _ _ _ Hm)].
  2:{ pose proof (fr_market id s) as Ho. by rewrite Hm in Ho. }
  rewrite (bind_ok _ _ _ _ _ Hm). apply market_at in Hm as [Hid ->].
  pose proof (Hr m s) as Hs2. destruct (f m s) as [[m'|e] s2] eqn:Hfm; [|by rewrite (bind_err _ _ _ _ _ Hfm)].
  rewrite (bind_ok _ _ _ _ _ Hfm). apply Hf in Hfm as [Hmech Hst].
  unfold mutate_market, zoom. cbn. unfold MarketCommons.mutate_market. rewrite gets_bind.
  destruct (Markets (commons s2) !! id) as [m0|] eqn:Hm0; cbn; [by eapply mf_overwrite|].
  etransitivity; [exact Hs2|by apply mf_frame].
Qed.

(** Walks through an operation; what is left are the writes to the markets. *)
Ltac walk := repeat first
  [ respects_step
  | match goal with Hk : _ |- _ => solve [apply Hk] end
  | apply fr_market | apply fr_event | apply fr_zoom; done | apply fr_same; done
  | apply respects_attempt | apply respects_for_each; [typeclasses eauto|]; intros ? _ ].
Ltac rewrites :=
  apply fr_mutate; let m := fresh "m" in let Hf := fresh "Hf" in
  intros m ? Hf; run_inv Hf; guards; try intros <-; split; [done|try done].

(** ** Bonds and caches *)

Lemma fr_settle k id b : respects Rel (settle_bond k id b : ST unit).
Proof. apply fr_mutate. intros m m' [= <-]. by split. Qed.
Lemma fr_unreserve k id : respects Rel (unreserve_bond k id : ST unit).
Proof. pose proof fr_settle. unfold unreserve_bond. walk. Qed.
Lemma fr_slash k id p : respects Rel (slash_bond k id p : ST Balance).
Proof. pose proof fr_settle. unfold slash_bond. walk. Qed.
Lemma fr_repatriate k id who : respects Rel (repatriate_bond k id who : ST unit).
Proof. pose proof fr_settle. unfold repatriate_bond. walk. Qed.
Lemma fr_insert_auto_close id : respects Rel (insert_auto_close id : ST unit).
Proof. unfold insert_auto_close, push_id. walk. Qed.
Lemma fr_clear_auto_close id : respects Rel (clear_auto_close id : ST unit).
Proof. unfold clear_auto_close, drop_id. walk. Qed.
Lemma fr_buy who id amount : respects Rel (do_buy_complete_set who id amount : ST unit).
Proof. unfold do_buy_complete_set. walk. Qed.
Lemma fr_remove id : respects Rel (zoom commons set_commons (api_remove_market id) : ST unit).
Proof.
  apply respects_zoom. intros s. cbn. unfold MarketCommons.remove_market. rewrite gets_bind.
  destruct (bool_decide (is_Some (Markets (commons s) !! id))).
  - rewrite ensure_true_bind by done. apply mf_remove.
  - rewrite ensure_false_bind by done. by apply mf_frame.
Qed.

(** ** Closing *)

Lemma fr_close_market id : respects Rel (close_market id : ST unit).
Proof.
  pose proof fr_unreserve. unfold close_market. apply respects_bind; [typeclasses eauto| |intros _; apply fr_event].
  apply fr_mutate_with; [intros m; walk|].
  intros m s m' s' Hf. apply bind_ok_inv in Hf as (? & ? & _ & Hf).
  apply bind_ok_inv in Hf as (? & ? & _ & Hf). by run_inv Hf.
Qed.
Lemma fr_market_close id m : respects Rel (on_market_close id m : ST unit).
Proof.
  pose proof fr_unreserve. pose proof fr_remove. pose proof fr_close_market.
  unfold on_market_close, handle_expired_advised_market. walk.
Qed.
Lemma fr_status_manager b t0 t1 : respects Rel (market_status_manager b t0 t1 on_market_close : ST unit).
Proof. pose proof fr_market_close. unfold market_status_manager, for_market. walk. Qed.
Lemma fr_settle_bonds id m o r : respects Rel (settle_bonds id m o r : ST Balance).
Proof.
  pose proof fr_unreserve. pose proof fr_slash. pose proof fr_repatriate. unfold settle_bonds. walk.
Qed.
Lemma fr_resolve_reported id m : respects Rel (resolve_reported_market id m : ST OutcomeReport).
Proof. pose proof fr_unreserve. pose proof fr_repatriate. unfold resolve_reported_market. walk. Qed.

(** ** The calls *)

Lemma fr_create now now_time who b f o p d md cre t mdm ru :
  admits mdm → respects_ok Rel (do_create_market now now_time who b f o p d md cre t mdm ru : ST MarketId).
Proof.
  intros Hadm s id s' Hc. unfold do_create_market in Hc. cbv zeta in Hc.
  apply bind_ok_inv in Hc as (m & s1 & Hm & Hc). run_inv Hm.
  assert (dispute_mechanism m = mdm ∧ status m ≠ Disputed) as [Hmech Hst].
  { unfold construct_market in Hm. run_inv Hm. intros <-. by destruct cre. }
  apply bind_ok_inv in Hc as (v & s1 & Hr & Hc). run_inv Hr.
  apply bind_ok_inv in Hc as (id' & s1 & Hp & Hc). run_inv Hp. apply push_market_inv in Hp as (_ & _ & ->).
  apply bind_ok_inv in Hc as (v' & s1 & Hi & Hc).
  apply (respects_run _ _ _ _ _ (fr_insert_auto_close _)) in Hi. unfold deposit_event in Hc. run_inv Hc.
  transitivity s1; [|by apply mf_frame].
  match type of Hi with context [set_ledger ?l s] => transitivity (set_ledger l s); [by apply mf_frame|] end.
  etransitivity; [|exact Hi]. by apply mf_put.
Qed.

Lemma fr_edit now now_time o b id or p d md t mdm ru :
  admits mdm → respects Rel (edit_market now now_time o b id or p d md t mdm ru : ST unit).
Proof.
  intros Hadm. unfold edit_market. apply respects_transactional_ok; [typeclasses eauto|].
  do 6 (apply respects_ok_bind; [typeclasses eauto|apply respects_ok_intro; walk|intros ?]).
  apply respects_ok_bind; [typeclasses eauto|apply respects_ok_intro, fr_clear_auto_close|intros _].
  apply respects_ok_bind_run; [typeclasses eauto|]. intros s m s1 Hm. run_inv Hm.
  assert (dispute_mechanism m = mdm ∧ status m ≠ Disputed) as [Hmech Hst].
  { unfold construct_market in Hm. run_inv Hm. intros <-. cbn. by destruct (creation _). }
  split; [reflexivity|]. apply respects_ok_bind; [typeclasses eauto| |intros _].
  - intros t1 u t2 Hmut. apply mutate_at in Hmut as (m0 & m1 & _ & [= <-] & ->).
    apply mf_put; [done| |done]. by rewrite Hmech.
  - apply respects_ok_intro. pose proof fr_insert_auto_close. walk.
Qed.

Lemma fr_report_with now_time o id r :
  respects Rel (report_market_with_dispute_mechanism now_time o id r : ST unit).
Proof.
  unfold report_market_with_dispute_mechanism, push_id.
  apply respects_bind; [typeclasses eauto|walk|intros sender].
  apply respects_bind; [typeclasses eauto| |intros _; walk].
  apply fr_mutate_with; [intros m; walk|]. intros m s m' s' Hf.
  apply bind_ok_inv in Hf as (check & s1 & Hc & Hf). run_inv Hc.
  apply bind_ok_inv in Hf as (m2 & s2 & Hm2 & Hf). run_inv Hf. split; [|done]. cbn.
  destruct check; [|destruct (negb _ && negb _)]; by run_inv Hm2.
Qed.

(** Every call but those that reach the dispute mechanisms. *)
Lemma fr_dispatch now now_time origin c :
  admits (mechanism_of c) → reaches_disputes c = false →
  respects Rel (dispatch mechanism now now_time origin c : ST unit).
Proof.
  intros Hadm Hc. pose proof fr_unreserve. pose proof fr_slash. pose proof fr_repatriate.
  pose proof fr_insert_auto_close. pose proof fr_clear_auto_close. pose proof fr_close_market.
  pose proof fr_remove. pose proof fr_buy.
  intros s. destruct c; cbn [dispatch mechanism_of reaches_disputes] in *; try done; rewrite ?forget_result; revert s;
    match goal with |- ∀ s, Rel s (?f s).2 => change (respects Rel f) end.
  - unfold buy_complete_set. walk.
  - unfold sell_complete_set, do_sell_complete_set. walk.
  - unfold redeem_shares, redeem_asset. walk.
  - unfold create_market. apply respects_transactional_ok; [typeclasses eauto|].
    apply respects_ok_bind; [typeclasses eauto|apply respects_ok_intro; walk|intros who]. by apply fr_create.
  - unfold create_market_and_deploy_pool. apply respects_transactional_ok; [typeclasses eauto|].
    apply respects_ok_bind; [typeclasses eauto|apply respects_ok_intro; walk|intros who].
    apply respects_ok_bind; [typeclasses eauto|by apply fr_create|intros id].
    apply respects_ok_intro. walk.
  - unfold approve_market, ensure_origin. walk. rewrites.
  - unfold request_edit, ensure_origin. walk.
  - by apply fr_edit.
  - unfold reject_market, do_reject_market, ensure_origin. walk.
  - unfold admin_move_market_to_closed, set_market_end, ensure_origin. walk. rewrites.
  - unfold close_trusted_market, set_market_end. walk. rewrites.
  - unfold schedule_early_close. walk; rewrites.
  - unfold dispute_early_close. walk; rewrites.
  - unfold reject_early_close, ensure_origin. walk; rewrites.
Qed.
End Frames.
