(* ===== verification/CallFilters.v ===== *)
(** * Call filters of the runtimes

    [runtime/zeitgeist/src/lib.rs], [runtime/battery-station/src/lib.rs] and
    [runtime/common/src/lib.rs]: which calls the chains accept ([IsCallable]), which ones
    a contract may make ([ContractsCallfilter]) and which ones a proxy may make for its
    owner ([ProxyType]). A call is one of the prediction markets pallet, or it is known
    by its pallet and its name: the filters look at nothing else. *)
From S2P Require Import Prelude GlobalDisputes SimpleDisputes Authorized Disputes MarketCommons.
From S2P Require Import Currencies Ledgers Errors Types PredictionMarkets Runtime MarketLife MarketFrames.

(** ** Calls *)

(** The pallets of [construct_runtime] that have calls or are named by a filter; [Sudo] is part of
    Battery Station only. *)
Inductive Pallet : Type :=
| System | Timestamp_ | Scheduler | Preimage | Balances | Treasury | Vesting | Multisig | Bounties
| Democracy | AdvisoryCommittee | AdvisoryCommitteeMembership | Council | CouncilMembership
| TechnicalCommittee | TechnicalCommitteeMembership | Identity | Utility | Proxy | Contracts
| AssetManager_ | Authorized_ | Court_ | LiquidityMining_ | SimpleDisputes_ | Swaps_ | PredictionMarkets_
| Styx_ | GlobalDisputes_ | NeoSwaps_ | Orderbook_ | Parimutuel_ | ParachainSystem | ParachainStaking
| AuthorInherent | AuthorFilter | AuthorMapping | DmpQueue | PolkadotXcm | XcmpQueue | AssetRegistry
| XTokens | Grandpa | Sudo.
#[export] Instance Pallet_eq_dec : EqDecision Pallet.
Proof. solve_decision. Defined.

Inductive RuntimeCall : Type :=
| Pm (c : Call)
| Other (pallet : Pallet) (function : string).

Definition pallet_of (c : RuntimeCall) : Pallet :=
  match c with Pm _ => PredictionMarkets_ | Other p _ => p end.

(** [matches!(c, Pallet(f1 { .. } | f2 { .. }))] *)
Definition is_call (p : Pallet) (functions : list string) (c : RuntimeCall) : bool :=
  match c with
  | Pm _ => false
  | Other p' f => bool_decide (p' = p) && bool_decide (f ∈ functions)
  end.
Definition in_pallet (p : Pallet) (c : RuntimeCall) : bool := bool_decide (pallet_of c = p).

(** ** The Zeitgeist chain *)

(** [parachain] is the feature of that name. *)
Definition zeitgeist_IsCallable (parachain : bool) (runtime_call : RuntimeCall) : bool :=
  match runtime_call with
  | Other AdvisoryCommittee f => negb (bool_decide (f = "set_members"%string))
  | Other AssetManager_ f => negb (bool_decide (f = "update_balance"%string))
  | Other Balances f => negb (bool_decide (f ∈ ["set_balance"; "force_transfer"]%string))
  | Other Contracts f =>
      bool_decide (f ∈ ["call"; "call_old_weight"; "instantiate"; "instantiate_old_weight";
                        "remove_code"; "set_code"]%string)
  | Other Council f => negb (bool_decide (f = "set_members"%string))
  | Other DmpQueue f => negb (parachain && bool_decide (f = "service_overweight"%string))
  | Other LiquidityMining_ _ => false
  | Pm (Call_create_market _ _ _ _ _ _ _ _ (Some MDM_SimpleDisputes) _) => false
  | Pm (Call_edit_market _ _ _ _ _ _ _ (Some MDM_SimpleDisputes) _) => false
  | Pm (Call_admin_move_market_to_closed _) => false
  | Pm (Call_admin_move_market_to_resolved _) => false
  | Pm _ => true
  | Other SimpleDisputes_ _ => false
  | Other System f =>
      negb (bool_decide (f ∈ ["kill_prefix"; "kill_storage"; "set_code"; "set_code_without_checks";
                              "set_storage"]%string))
  | Other TechnicalCommittee f => negb (bool_decide (f = "set_members"%string))
  | Other Vesting f => negb (bool_decide (f = "force_vested_transfer"%string))
  | _ => true
  end.

(** [ContractsCallfilter] is [Nothing]. *)
Definition zeitgeist_ContractsCallfilter (runtime_call : RuntimeCall) : bool := false.

(** ** The Battery Station chain *)

Definition battery_station_IsCallable (call : RuntimeCall) : bool :=
  match call with
  | Other SimpleDisputes_ _ => false
  | Other LiquidityMining_ _ => false
  | Pm (Call_create_market _ _ _ _ _ _ _ _ (Some MDM_SimpleDisputes) _) => false
  | Pm (Call_edit_market _ _ _ _ _ _ _ (Some MDM_SimpleDisputes) _) => false
  | _ => true
  end.

Definition battery_station_ContractsCallfilter (runtime_call : RuntimeCall) : bool :=
  match runtime_call with
  | Other System f => bool_decide (f ∈ ["remark"; "remark_with_event"]%string)
  | Other AssetManager_ f => bool_decide (f = "transfer"%string)
  | Pm (Call_buy_complete_set _ _) => true
  | Pm (Call_dispute _) => true
  | Pm (Call_create_market _ _ _ _ _ _ _ _ (Some (MDM_Authorized | MDM_Court)) _) => true
  | Pm (Call_edit_market _ _ _ _ _ _ _ (Some (MDM_Authorized | MDM_Court)) _) => true
  | Pm (Call_redeem_shares _) => true
  | Pm (Call_report _ _) => true
  | Pm (Call_sell_complete_set _ _) => true
  | Other Swaps_ f =>
      bool_decide (f ∈ ["pool_exit"; "pool_exit_with_exact_asset_amount"; "pool_exit_with_exact_pool_amount";
                        "pool_join"; "pool_join_with_exact_asset_amount"; "pool_join_with_exact_pool_amount";
                        "swap_exact_amount_in"; "swap_exact_amount_out"]%string)
  | Other Orderbook_ _ => true
  | Other Parimutuel_ _ => true
  | _ => false
  end.

(** ** Proxies *)

Inductive ProxyType : Type :=
| Any | CancelProxy | Governance | Staking | CreateEditMarket | ReportOutcome | Dispute
| ProvideLiquidity | BuySellCompleteSets | Trading | HandleAssets.
#[export] Instance ProxyType_eq_dec : EqDecision ProxyType.
Proof. solve_decision. Defined.

Definition proxy_filter (parachain : bool) (self : ProxyType) (c : RuntimeCall) : bool :=
  match self with
  | Any => true
  | CancelProxy => is_call Proxy ["reject_announcement"%string] c
  | Governance =>
      in_pallet Democracy c || in_pallet Council c || in_pallet TechnicalCommittee c ||
      in_pallet AdvisoryCommittee c || in_pallet Treasury c
  | Staking => if parachain then in_pallet ParachainStaking c else false
  | CreateEditMarket =>
      match c with Pm (Call_create_market _ _ _ _ _ _ _ _ _ _ | Call_edit_market _ _ _ _ _ _ _ _ _) => true | _ => false end
  | ReportOutcome => match c with Pm (Call_report _ _) => true | _ => false end
  | Dispute => match c with Pm (Call_dispute _) => true | _ => false end
  | ProvideLiquidity => is_call Swaps_ ["pool_join"; "pool_exit"]%string c
  | BuySellCompleteSets =>
      match c with Pm (Call_buy_complete_set _ _ | Call_sell_complete_set _ _) => true | _ => false end
  | Trading =>
      is_call Swaps_ ["swap_exact_amount_in"; "swap_exact_amount_out"]%string c ||
      is_call Orderbook_ ["place_order"; "fill_order"; "remove_order"]%string c
  | HandleAssets =>
      is_call Swaps_ ["pool_join"; "pool_exit"; "swap_exact_amount_in"; "swap_exact_amount_out"]%string c ||
      match c with Pm (Call_buy_complete_set _ _ | Call_sell_complete_set _ _) => true | _ => false end ||
      is_call Orderbook_ ["place_order"; "fill_order"; "remove_order"]%string c
  end.

Definition is_superset (self o : ProxyType) : bool :=
  match self, o with
  | x, y => if decide (x = y) then true else
      match x, y with
      | Any, _ => true
      | _, Any => false
      | _, _ => false
      end
  end.

(** ** Accounts protected from dust removal *)
Section Dust.
(** [PalletId] and its [AccountIdConversion]. *)
Context {PalletId : Type} `{EqDecision PalletId}.
Context (into_account_truncating : PalletId → AccountId).
Context (try_from_sub_account : AccountId → option PalletId).
Context (whitelist : list PalletId).

(** [DustRemovalWhitelist::contains]; [whitelist] is its vector of pallets. *)
Definition DustRemovalWhitelist_contains (ai : AccountId) : bool :=
  match try_from_sub_account ai with
  | Some pallet_id => bool_decide (pallet_id ∈ whitelist)
  | None => existsb (λ pallet_id, into_account_truncating pallet_id =? ai) whitelist
  end.
End Dust.

(** ** Simple disputes are kept out, but for one call *)

(** The calls with simple disputes that the filters forget. *)
Definition slips_through (c : Call) : bool :=
  match c with
  | Call_create_market_and_deploy_pool _ _ _ _ _ _ _ (Some MDM_SimpleDisputes) _ _ _ => true
  | _ => false
  end.

(** What the two filters have in common. *)
Definition filters_simple_disputes (callable : RuntimeCall → bool) : Prop :=
  ∀ c, callable (Pm c) = true → mechanism_of c = Some MDM_SimpleDisputes → slips_through c = true.

Lemma zeitgeist_filters p : filters_simple_disputes (zeitgeist_IsCallable p).
Proof. intros c. by destruct c as [ | | |? ? ? ? ? ? ? ? [[]|]|? ? ? ? ? ? ? [[]|]| | |? ? ? ? ? ? ? [[]|]| | | | | | | | | | ]. Qed.
Lemma battery_station_filters : filters_simple_disputes battery_station_IsCallable.
Proof. intros c. by destruct c as [ | | |? ? ? ? ? ? ? ? [[]|]|? ? ? ? ? ? ? [[]|]| | |? ? ? ? ? ? ? [[]|]| | | | | | | | | | ]. Qed.

Definition allowed (m : Market) : Prop := dispute_mechanism m ≠ Some MDM_SimpleDisputes.
Definition no_simple (c : MarketCommons.State) : Prop := ∀ id m, Markets c !! id = Some m → allowed m.

Section KeptOut.
Context {L D G X : Type}.
Context `{!AssetManager L, !Currency L, !Config L}.
Context (mechanism : MarketDisputeMechanism → DisputeApi D IdsPer L).
Context `{!GlobalDisputesPalletApi MarketCommons.State G IdsPer}.
Context `{!LiquidityMiningPalletApi MarketCommons.State X L, !DeployPoolApi MarketCommons.State X L}.
Abbreviation St := (PredictionMarkets.State MarketCommons.State L D G X).
Abbreviation ST := (Store St).

(** Calls that pass the filter, but for those that slip through; block hooks; other pallets. The
    calls of the root origin are not filtered by Substrate and are not among them. *)
Inductive filtered_step (callable : RuntimeCall → bool) : St → St → Prop :=
| fs_call now now_time origin c s :
    callable (Pm c) = true → slips_through c = false →
    filtered_step callable s (dispatch mechanism now now_time origin c s).2
| fs_block now now_time s : filtered_step callable s (on_initialize mechanism now now_time s)
| fs_other s s' : commons s' = commons s → filtered_step callable s s'.

(** The relation that every operation respects. *)
Definition stays_out (s s' : St) : Prop := no_simple (commons s) → no_simple (commons s').
#[local] Instance stays_out_preorder : PreOrder stays_out.
Proof. split; [intros s Hs; exact Hs|]. intros s1 s2 s3 H12 H23 Hs. by apply H23, H12. Qed.

#[local] Instance stays_out_framed : MarketFramed (λ o, o ≠ Some MDM_SimpleDisputes) stays_out.
Proof.
  split; [typeclasses eauto|..].
  - intros s s' Hc _ Hs. by rewrite Hc.
  - intros s id m m' Hm [Hmech _] Hs id' m2. cbn. intros [[<- <-]|[_ Hm2]]%lookup_insert_Some; [|by eapply Hs].
    unfold allowed. rewrite Hmech. by apply (Hs id).
  - intros s s2 id m m' Hs2 Hm Hmech _ Hs id' m2. cbn.
    intros [[<- <-]|[_ Hm2]]%lookup_insert_Some; [|by eapply (Hs2 Hs)].
    unfold allowed. rewrite Hmech. by apply (Hs id).
  - intros s id Hs id' m. cbn. intros [_ Hm]%lookup_delete_Some. by eapply Hs.
  - intros s c id m Hc Hadm _ Hs id' m2. cbn. intros [[<- <-]|[_ Hm2]]%lookup_insert_Some; [done|].
    rewrite Hc in Hm2. by eapply Hs.
Qed.

(** What touches neither the markets nor their mechanisms. *)
Lemma out_zoom {T A} get put (f : Store T A) :
  (∀ t s, commons (put t s) = commons s) → respects stays_out (zoom get put f : ST A).
Proof. intros Hf. apply respects_zoom. intros s Hs. by rewrite Hf. Qed.
Lemma out_same (f : St → St) : (∀ s, commons (f s) = commons s) → respects stays_out (modify f : ST unit).
Proof. intros Hf s Hs. cbn. by rewrite Hf. Qed.
Lemma out_mutate id (f : Market → Res Market) :
  (∀ m m', f m = Ok m' → dispute_mechanism m' = dispute_mechanism m) →
  respects stays_out (mutate_market id f : ST unit).
Proof.
  intros Hf s Hs. destruct (mutate_market id f s) as [[u|e] s'] eqn:Hm; cbn.
  - apply mutate_at in Hm as (m & m' & Hid & Hf' & ->). intros id' m2. cbn.
    intros [[<- <-]|[_ Hm2]]%lookup_insert_Some; [|by eapply Hs].
    unfold allowed. rewrite (Hf m) by done. by apply (Hs id).
  - unfold mutate_market, zoom in Hm. cbn in Hm. unfold MarketCommons.mutate_market in Hm.
    rewrite gets_bind in Hm. destruct (Markets (commons s) !! id) as [m|]; [destruct (f m) as [m'|]|];
      cbn in Hm; by simplify_eq/=.
Qed.

(** Walks through an operation; what is left are the writes to the markets. *)
Ltac stay_out := repeat first
  [ respects_step
  | match goal with Hk : context [respects stays_out] |- _ => solve [apply Hk] end
  | apply (fr_market _ stays_out) | apply (fr_event _ stays_out) | apply out_zoom; done | apply out_same; done
  | apply respects_attempt | apply respects_for_each; [typeclasses eauto|]; intros ? _ ].
Ltac mutates :=
  apply out_mutate; let m := fresh "m" in let Hf := fresh "Hf" in
  intros m ? Hf; run_inv Hf; guards; by try intros <-.

Lemma out_clear_auto_resolve id : respects stays_out (clear_auto_resolve mechanism id : ST unit).
Proof. unfold clear_auto_resolve, drop_id. stay_out. Qed.
Lemma out_resolution id m : respects stays_out (on_resolution mechanism id m : ST unit).
Proof.
  pose proof (fr_unreserve _ stays_out). pose proof (fr_resolve_reported _ stays_out).
  pose proof (fr_settle_bonds _ stays_out).
  unfold on_resolution, resolve_disputed_market, get_resolved_outcome. stay_out. mutates.
Qed.
Lemma out_initialize now now_time : respects stays_out (initialize_block mechanism now now_time : ST unit).
Proof.
  pose proof (fr_status_manager _ stays_out). pose proof out_resolution.
  unfold initialize_block, resolution_manager, for_market. stay_out. destruct x0, x1; stay_out.
Qed.

Lemma dispatch_stays_out now now_time origin c :
  mechanism_of c ≠ Some MDM_SimpleDisputes →
  respects stays_out (dispatch mechanism now now_time origin c : ST unit).
Proof.
  intros Hc. destruct (reaches_disputes c) eqn:Hr; [|by apply (fr_dispatch mechanism _ stays_out)].
  pose proof out_clear_auto_resolve. pose proof out_resolution. pose proof (fr_report_with _ stays_out).
  intros s. destruct c; try discriminate Hr; cbn [dispatch]; revert s;
    match goal with |- ∀ s, stays_out s (?f s).2 => change (respects stays_out f) end.
  - unfold admin_move_market_to_resolved, ensure_origin. stay_out.
  - unfold report_market, report_and_resolve_market. stay_out. mutates.
  - unfold dispute. stay_out. mutates.
  - unfold start_global_dispute. stay_out. mutates.
Qed.

(** (C19) Markets that use simple disputes are kept out of both chains: whatever filtered calls
    are made, by whomever, and whatever blocks and other pallets do in between, if there
    was no such market at first, there is none later - provided nobody calls
    [create_market_and_deploy_pool] with simple disputes, which the filters forget. *)
Theorem simple_disputes_kept_out callable p s s' :
  callable = zeitgeist_IsCallable p ∨ callable = battery_station_IsCallable →
  rtc (filtered_step callable) s s' → no_simple (commons s) → no_simple (commons s').
Proof.
  intros Hcall Hrun. assert (filters_simple_disputes callable) as Hfilter.
  { destruct Hcall as [-> | ->]; [apply zeitgeist_filters|apply battery_station_filters]. }
  change (stays_out s s'). induction Hrun as [s|s1 s2 s3 Hstep _ IH]; [reflexivity|].
  transitivity s2; [|done]. destruct Hstep as [now t o c s Hc Hno|now t s|s s2 Hc].
  - apply dispatch_stays_out. intros Hm. specialize (Hfilter c Hc Hm). congruence.
  - apply out_initialize.
  - intros Hs. by rewrite Hc.
Qed.
End KeptOut.

(** ** Proxies and contracts *)

(** Pallets whose calls dispatch other calls, move funds between accounts or send them away. *)
Definition powerful : list Pallet :=
  [Utility; Multisig; Scheduler; Sudo; Contracts; Balances; AssetManager_; XTokens; PolkadotXcm; Vesting].

Lemma is_call_pallet p fs c : is_call p fs c = true → pallet_of c = p.
Proof. destruct c as [c|p' f]; [done|]. cbn. by intros [->%bool_decide_eq_true _]%andb_true_iff. Qed.
Lemma in_pallet_spec p c : in_pallet p c = true → pallet_of c = p.
Proof. apply bool_decide_eq_true. Qed.

(** The pallets that a restricted proxy reaches. *)
Definition reaches (t : ProxyType) : list Pallet :=
  match t with
  | Any => []
  | CancelProxy => [Proxy]
  | Governance => [Democracy; Council; TechnicalCommittee; AdvisoryCommittee; Treasury]
  | Staking => [ParachainStaking]
  | CreateEditMarket | ReportOutcome | Dispute | BuySellCompleteSets => [PredictionMarkets_]
  | ProvideLiquidity => [Swaps_]
  | Trading => [Swaps_; Orderbook_]
  | HandleAssets => [Swaps_; PredictionMarkets_; Orderbook_]
  end.

Lemma filter_reaches p t c : t ≠ Any → proxy_filter p t c = true → pallet_of c ∈ reaches t.
Proof.
  intros Ht. destruct t, p; cbn [proxy_filter reaches]; rewrite ?orb_true_iff; try done;
    repeat match goal with
    | |- _ ∨ _ → _ => intros [|]
    | |- is_call _ _ _ = true → _ => intros ->%is_call_pallet; set_solver
    | |- in_pallet _ _ = true → _ => intros ->%in_pallet_spec; set_solver
    | H : _ ∨ _ |- _ => destruct H
    | H : is_call _ _ _ = true |- _ => apply is_call_pallet in H as ->; set_solver
    | H : in_pallet _ _ = true |- _ => apply in_pallet_spec in H as ->; set_solver
    | H : context [match c with _ => _ end] |- _ => destruct c as [[]|]; try done; set_solver
    | |- context [match c with _ => _ end] => destruct c as [[]|]; try done; set_solver
    end.
Qed.

(** Restricted proxies stay restricted: a proxy of any type but [Any] makes no call that
    dispatches other calls, moves funds between accounts or sends them away, and of the
    proxy pallet only the rejection of announcements; what a type is said to contain it
    does; and handling assets is exactly providing liquidity, trading, and buying and
    selling complete sets. *)
Theorem proxies_restricted p t c :
  (t ≠ Any → proxy_filter p t c = true →
     (pallet_of c ∉ powerful) ∧ (pallet_of c = Proxy → c = Other Proxy "reject_announcement")) ∧
  (∀ o, is_superset t o = true → proxy_filter p o c = true → proxy_filter p t c = true) ∧
  proxy_filter p HandleAssets c =
    (proxy_filter p ProvideLiquidity c || proxy_filter p Trading c || proxy_filter p BuySellCompleteSets c).
Proof.
  split; [|split].
  - intros Ht Hf. pose proof (filter_reaches p t c Ht Hf) as Hr. split.
    + assert (Forall (λ q, q ∉ powerful) (reaches t)) as Hw
        by (destruct t; apply (bool_decide_unpack _); by vm_compute).
      by apply (proj1 (Forall_forall _ _) Hw).
    + intros Hp. rewrite Hp in Hr. assert (t = CancelProxy) as ->.
      { destruct t; try done; exfalso; revert Hr; apply (bool_decide_unpack _); by vm_compute. }
      destruct c as [|p' f]; [done|]. cbn in Hf, Hp. subst p'.
      apply andb_true_iff in Hf as [_ Hf%bool_decide_eq_true]. f_equal. set_solver.
  - intros o. unfold is_superset. destruct (decide (t = o)) as [->|]; [done|]. by destruct t, o.
  - destruct c as [[]|p' f]; try done. cbn. rewrite !orb_false_r.
    repeat match goal with |- context [bool_decide (?a = ?b)] => destruct (bool_decide (a = b)) end;
      cbn; rewrite ?orb_false_r; repeat (case_bool_decide; try done); set_solver.
Qed.

(** What a contract may call on Battery Station, the chain accepts, and a contract can
    only make markets that are settled by the authority or by the court. *)
Theorem contracts_within_chain c :
  battery_station_ContractsCallfilter c = true →
  battery_station_IsCallable c = true ∧ pallet_of c ≠ Contracts ∧ pallet_of c ≠ Utility ∧
  ∀ k, c = Pm k → ∀ mdm, mechanism_of k = Some mdm → mdm = MDM_Authorized ∨ mdm = MDM_Court.
Proof.
  destruct c as [k|p f].
  - destruct k as [ | | |? ? ? ? ? ? ? ? [[]|]| | | |? ? ? ? ? ? ? [[]|]| | | | | | | | | | ]; cbn; try done;
      intros _; (do 3 (split; [done|])); intros k [= <-] mdm; cbn; naive_solver.
  - intros Hc. destruct p; cbn in Hc; try done.
Qed.

(** ** Runs *)
Module FilterExample.
Import LifeExample.

Abbreviation chain_step := (filtered_step (L := RuntimeLedger) (D := MechanismStorage)
  (G := GlobalDisputes.Storage) (X := unit) example_mechanism).

(** An authorized market is created, closed and reported. *)
Lemma simple_disputes_kept_out_witness :
  zeitgeist_IsCallable true (Pm (create (Some MDM_SimpleDisputes))) = false ∧ no_simple (commons s3).
Proof.
  split; [by vm_compute|].
  apply (simple_disputes_kept_out example_mechanism (zeitgeist_IsCallable true) true start s3); [by left| |].
  - eapply rtc_l; [apply (fs_call example_mechanism _ 10 (10 * MILLISECS_PER_BLOCK) (Signed creator_id)
      (create (Some MDM_Authorized)) start eq_refl eq_refl)|].
    eapply rtc_l; [apply (fs_block example_mechanism _ 100000 (100000 * MILLISECS_PER_BLOCK))|].
    eapply rtc_l; [|apply rtc_refl].
    apply (fs_call example_mechanism _ 100001 (100001 * MILLISECS_PER_BLOCK) (Signed oracle_id)
      (Call_report 0 (Categorical 1)) s2 eq_refl eq_refl).
  - intros id m Hm. discriminate Hm.
Defined.

(** The call the filters forget: a market with simple disputes, on either chain. *)
Definition sneak : Call :=
  Call_create_market_and_deploy_pool Ztg 0 oracle_id (Block (mk_Range 0 100000))
    (mk_Deadlines 0 BLOCKS_PER_HOUR MIN_DISPUTE_DURATION) [0x15; 0x30] (MT_Categorical 2)
    (Some MDM_SimpleDisputes) BASE [BASE / 2; BASE / 2] (BASE / 100).
Example sneaks_in :
  zeitgeist_IsCallable true (Pm sneak) = true ∧ battery_station_IsCallable (Pm sneak) = true ∧
  (dispatch example_mechanism 10 0 (Signed creator_id) sneak start).1 = Ok tt ∧
  dispute_mechanism <$> Markets (commons (call 10 (Signed creator_id) sneak start)) !! 0 =
    Some (Some MDM_SimpleDisputes).
Proof. by vm_compute. Qed.

Lemma contracts_within_chain_witness :
  battery_station_IsCallable (Pm (create (Some MDM_Court))) = true ∧
  pallet_of (Pm (create (Some MDM_Court))) ≠ Contracts ∧ pallet_of (Pm (create (Some MDM_Court))) ≠ Utility ∧
  ∀ k, Pm (create (Some MDM_Court)) = Pm k → ∀ mdm, mechanism_of k = Some mdm → mdm = MDM_Authorized ∨ mdm = MDM_Court.
Proof. by apply (contracts_within_chain (Pm (create (Some MDM_Court)))). Defined.

(** A trading proxy trades; it does not hand out funds. *)
Lemma proxies_restricted_witness :
  proxy_filter true Trading (Other Orderbook_ "fill_order") = true ∧ Orderbook_ ∉ powerful.
Proof.
  split; [by vm_compute|].
  destruct (proxies_restricted true Trading (Other Orderbook_ "fill_order")) as [Hr _].
  apply Hr; [done|by vm_compute].
Defined.
End FilterExample.
