(* ===== verification/CourtMarkets.v ===== *)
(** * The court and the markets

    The court of [Court] as a dispute mechanism of [PredictionMarkets]
    ([impl DisputeApi for Pallet] in [zrml/court/src/lib.rs]), and the chain in which both
    pallets run: calls of either one, their block hooks and other pallets in any order.
    A disputed market is never forgotten: its court is on the schedule of resolutions,
    or the last appeal was made, or a global dispute has taken over. *)
From S2P Require Import Prelude GlobalDisputes SimpleDisputes Authorized Disputes MarketCommons.
From S2P Require Import CourtTypes Court CourtSteps CourtRounds.
From S2P Require Import Currencies Ledgers Errors Types PredictionMarkets Runtime MarketLife MarketFrames.

(** ** The court as a dispute mechanism *)

(** The court only reads markets. *)
Abbreviation MarketView := (MarketId → Res Market).
#[export] Instance View_api : MarketCommonsPalletApi MarketView := {
  api_market id v := v id;
  api_mutate_market id f := fail MarketDoesNotExist;
  api_push_market m := fail MarketDoesNotExist;
  api_remove_market id := fail MarketDoesNotExist;
}.
Abbreviation CourtStorage := (CourtTypes.Storage * list CourtTypes.Event)%type.

Section Api.
Context {R L Rng : Type} `{DisputeResolutionApi R, Currency L, !ImbalanceCurrency L, !CourtConfig L Rng}.

(** Runs the court on its storage, with a view of the markets. *)
Definition court_state (markets : MarketView) (t : CourtStorage * R * L) : CourtTypes.State MarketView R L :=
  CourtTypes.mk_State markets t.1.2 t.2 t.1.1.1 t.1.1.2.
Definition court_parts (s : CourtTypes.State MarketView R L) : CourtStorage * R * L :=
  ((CourtTypes.storage s, CourtTypes.events s), CourtTypes.resolution s, CourtTypes.currency s).
Definition on_court {A} (markets : MarketView) (f : Store (CourtTypes.State MarketView R L) A)
    : Store (CourtStorage * R * L) A :=
  zoom (court_state markets) (λ s _, court_parts s) f.

(** For the operations that look at no market but the one they are given. *)
Definition no_markets : MarketView := λ _, Err MarketDoesNotExist.

Definition Court_dispute_api (now : BlockNumber) : DisputeApi CourtStorage R L := {|
  api_on_dispute id m := on_court no_markets (Court.on_dispute now id m);
  api_on_resolution markets id m := on_court markets (Court.on_resolution id m);
  api_exchange id m o b := on_court no_markets (Court.exchange id m o b);
  Disputes.api_get_auto_resolve id m d := Court.get_auto_resolve id m d.1;
  api_has_failed markets id m := on_court markets (Court.has_failed now id m);
  api_on_global_dispute id m := on_court no_markets (Court.on_global_dispute id m);
  api_clear id m := on_court no_markets (Court.clear id m);
|}.
End Api.

(** ** What the other pallets promise *)

(** A dispute mechanism changes only the entries of the market it is called for. *)
Definition elsewhere {D L} (id : MarketId) (s s' : D * IdsPer * L) : Prop :=
  ∀ id' b, id' ≠ id → count_id id' (ids_at b s'.1.2) = count_id id' (ids_at b s.1.2).
Class OwnSchedule {D L : Type} (d : DisputeApi D IdsPer L) : Prop := {
  own_on_dispute id m : respects (elsewhere id) (api_on_dispute id m);
  own_on_resolution markets id m : respects (elsewhere id) (api_on_resolution markets id m);
  own_exchange id m o b : respects (elsewhere id) (api_exchange id m o b);
}.
#[export] Instance elsewhere_preorder {D L} id : PreOrder (elsewhere (D := D) (L := L) id).
Proof. split; [by intros s|]. intros s1 s2 s3 H12 H23 id' b Hne. by rewrite H23, H12. Qed.

Lemma elsewhere_same {D L} id (s s' : D * IdsPer * L) : s'.1.2 = s.1.2 → elsewhere id s s'.
Proof. intros He id' b _. by rewrite He. Qed.

#[export] Instance Authorized_own {L} : OwnSchedule (Authorized_dispute_api (R := IdsPer) (L := L)).
Proof.
  split; cbn; intros; unfold Authorized.on_dispute, Authorized.on_resolution, Authorized.exchange; respects.
  all: apply respects_modify; intros s; by apply elsewhere_same.
Qed.
#[export] Instance SimpleDisputes_own {L} `{Currency L} r n : OwnSchedule (SimpleDisputes_dispute_api (R := IdsPer) (L := L) r n).
Proof.
  split; cbn; intros; unfold SimpleDisputes.on_dispute, SimpleDisputes.on_resolution, SimpleDisputes.exchange; respects.
  all: first [apply respects_modify|apply respects_zoom]; intros s; by apply elsewhere_same.
Qed.

Lemma own_first {D1 D2 L A} id (f : Store (D1 * IdsPer * L) A) :
  respects (elsewhere id) f → respects (elsewhere id) (on_first (D2 := D2) f).
Proof. intros Hf. apply respects_zoom. intros s id' b Hne. cbn. by rewrite Hf. Qed.
Lemma own_second {D1 D2 L A} id (f : Store (D2 * IdsPer * L) A) :
  respects (elsewhere id) f → respects (elsewhere id) (on_second (D1 := D1) f).
Proof. intros Hf. apply respects_zoom. intros s id' b Hne. cbn. by rewrite Hf. Qed.
#[export] Instance first_own {D1 D2 L} (d : DisputeApi D1 IdsPer L) :
  OwnSchedule d → OwnSchedule (lift_first (D2 := D2) d).
Proof. intros Hd. split; intros; apply own_first; apply Hd. Qed.
#[export] Instance second_own {D1 D2 L} (d : DisputeApi D2 IdsPer L) :
  OwnSchedule d → OwnSchedule (lift_second (D1 := D1) d).
Proof. intros Hd. split; intros; apply own_second; apply Hd. Qed.

(** Global disputes stay, and schedule their market once more. *)
Class GlobalDisputesLaws (C G : Type) `{GlobalDisputesPalletApi C G IdsPer} : Prop := {
  gd_started now c id items g r n g' r' :
    gd_start_global_dispute now c id items (g, r) = (Ok n, (g', r')) →
    gd_does_exist id g' = true ∧ (∀ id', gd_does_exist id' g = true → gd_does_exist id' g' = true) ∧
    ∀ id' b, id' ≠ id → count_id id' (ids_at b r') = count_id id' (ids_at b r);
  gd_determined id g r o g' r' :
    gd_determine_voting_winner id (g, r) = (o, (g', r')) →
    r' = r ∧ ∀ id', gd_does_exist id' g' = gd_does_exist id' g;
}.

(** The schedule is left alone and no global dispute disappears. *)
Definition still_disputed (t t' : GlobalDisputes.Storage * IdsPer) : Prop :=
  t'.2 = t.2 ∧ ∀ id, does_exist id t.1 = true → does_exist id t'.1 = true.
#[export] Instance still_disputed_preorder : PreOrder still_disputed.
Proof. split; [by intros t1|]. intros t1 t2 t3 [E12 M12] [E23 M23]. split; [congruence|auto]. Qed.

Lemma initial_item_kept n m id item t u t' :
  add_initial_item n m id item t = (Ok u, t') → still_disputed t t'.
Proof.
  intros Hrun. unfold add_initial_item in Hrun.
  assert (∀ o i id', does_exist id' t.1 = true → does_exist id' (put_outcome id o i t.1) = true) as Hput.
  { intros o i id'. unfold does_exist. rewrite !bool_decide_eq_true, put_outcome_info.
    intros [x Hx]. destruct (decide (id = id')) as [->|]; [by eexists|by exists x]. }
  run_inv Hrun. destruct (outcomes_of id t.1 !! item_outcome item) as [info|].
  - run_inv Hrun. split; [done|apply Hput].
  - destruct (1 <=? n); run_inv Hrun; (split; [done|]); [apply Hput|done].
Qed.

#[export] Instance GlobalDisputes_laws {C} `{MarketCommonsPalletApi C} a v n :
  GlobalDisputesLaws C GlobalDisputes.Storage (H := GlobalDisputes_api (C := C) (R := IdsPer) a v n).
Proof.
  split.
  - intros now c id items g r k g' r' Hrun. cbn in Hrun. unfold GlobalDisputes.start_global_dispute in Hrun.
    run_inv Hrun. injection H1 as <- <-. cbn in Hm2, Hm3 |- *.
    apply (for_each_rel still_disputed) in Hm1 as [Hr Hmono];
      [|intros item t1 t2 w _; apply initial_item_kept].
    cbn in Hr, Hmono. split; [|split].
    + unfold does_exist. cbn. by rewrite lookup_insert_eq.
    + intros id' Hid. apply Hmono in Hid. revert Hid. unfold does_exist. cbn.
      rewrite !bool_decide_eq_true, lookup_insert. by destruct (decide (id = id')).
    + intros id' b Hne. apply schedule_add_inv in Hm2 as [_ ->]. rewrite ids_at_insert, Hr.
      destruct (decide _) as [<-|]; [|done]. rewrite count_id_app, count_id_cons. cbn.
      destruct (Z.eqb_spec id id'); [congruence|lia].
  - intros id g r o g' r' Hrun. cbn in Hrun. unfold determine_voting_winner in Hrun. rewrite gets_bind in Hrun.
    cbn in Hrun. destruct (GlobalDisputesInfo g !! id) as [i|] eqn:Hi; injection Hrun as _ <- <-; (split; [done|]); [|done].
    intros id'. cbn. unfold does_exist. cbn. apply bool_decide_ext. rewrite lookup_insert.
    destruct (decide (id = id')) as [<-|]; [|done]. rewrite Hi. by split.
Qed.

(** ** Both pallets on one chain *)
Section Joint.
Context {L D1 G X Rng : Type}.
Context `{!AssetManager L, !Currency L, !ImbalanceCurrency L, !Config L, !CourtConfig L Rng}.
(** The mechanisms but for the court. *)
Context (others : MarketDisputeMechanism → DisputeApi D1 IdsPer L) `{!∀ k, OwnSchedule (others k)}.
Context `{!GlobalDisputesPalletApi MarketCommons.State G IdsPer, !GlobalDisputesLaws MarketCommons.State G}.
Context `{!LiquidityMiningPalletApi MarketCommons.State X L, !DeployPoolApi MarketCommons.State X L}.
Abbreviation St := (PredictionMarkets.State MarketCommons.State L (D1 * CourtStorage) G X).
Abbreviation ST := (Store St).

Definition court_mechanism (now : BlockNumber) (k : MarketDisputeMechanism)
    : DisputeApi (D1 * CourtStorage) IdsPer L :=
  match k with
  | MDM_Court => lift_second (Court_dispute_api now)
  | _ => lift_first (others k)
  end.

(** A call of the court on the storage of the chain. *)
Definition court_call (now : BlockNumber) (c : CourtSteps.Call) : ST unit :=
  commons ← gets commons;
  zoom dispute_view set_disputes
    (on_second (on_court (λ i, api_market i commons) (CourtSteps.dispatch now c))).

(** The calls and the hook of the court; its dispute interface is called by the markets. *)
Definition is_interface (c : CourtSteps.Call) : bool :=
  match c with
  | Api_on_dispute _ _ | Api_on_resolution _ _ | Api_exchange _ _ _ _ | Api_has_failed _ _
  | Api_on_global_dispute _ _ | Api_clear _ _ => true
  | _ => false
  end.

(** The market is disputed in court. *)
Definition in_court (m : Market) : Prop := status m = Disputed ∧ dispute_mechanism m = Some MDM_Court.

Definition court_of (s : St) : CourtTypes.Storage := (dispute_storage s).2.1.
(** How often a market is scheduled for a block. *)
Definition scheduled (id : MarketId) (b : BlockNumber) (s : St) : Z := count_id id (ids_at b (dispute_blocks s)).

(** Calls of either pallet, their hooks, and other pallets: these leave the markets, the
    court and the schedule of markets in court alone. *)
Inductive chain_step : St → St → Prop :=
| chain_market now now_time origin c s :
    chain_step s (PredictionMarkets.dispatch (court_mechanism now) now now_time origin c s).2
| chain_block now now_time s :
    chain_step s (PredictionMarkets.on_initialize (court_mechanism now) now now_time s)
| chain_court now c s : is_interface c = false → chain_step s (court_call now c s).2
| chain_other s s' :
    commons s' = commons s → court_of s' = court_of s →
    (∀ id, gd_does_exist id (global_disputes s) = true → gd_does_exist id (global_disputes s') = true) →
    (∀ id m b, Markets (commons s) !! id = Some m → in_court m → scheduled id b s' = scheduled id b s) →
    chain_step s s'.

(** *** The invariant *)

(** The market is dealt with: there is a global dispute, or a court that has heard the
    last appeal or whose end is on the schedule. *)
Definition dealt_with (id : MarketId) (s : St) : Prop :=
  gd_does_exist id (global_disputes s) = true ∨
  ∃ k rd, MarketIdToCourtId (court_of s) !! id = Some k ∧ rounds (court_of s) k = Some rd ∧
    (MaxAppeals ≤ Z.of_nat (length rd.1) ∨ 0 < scheduled id (rt_appeal rd.2) s).

Record court_inv (s : St) : Prop := {
  ci_markets : markets_inv (commons s);
  ci_market_of id k : MarketIdToCourtId (court_of s) !! id = Some k → CourtIdToMarketId (court_of s) !! k = Some id;
  ci_court_of k id : CourtIdToMarketId (court_of s) !! k = Some id →
    k < NextCourtId (court_of s) ∧ MarketIdToCourtId (court_of s) !! id = Some k;
  (** Courts are opened for markets that are disputed then, and stay. *)
  ci_past id k : MarketIdToCourtId (court_of s) !! id = Some k →
    id < counter (commons s) ∧ ∃ m, Markets (commons s) !! id = Some m ∧ rank Disputed ≤ rank (status m);
  ci_dealt id m : Markets (commons s) !! id = Some m → in_court m → dealt_with id s;
}.

Definition same_courts (s s' : St) : Prop :=
  (∀ k, rounds (court_of s') k = rounds (court_of s) k) ∧
  MarketIdToCourtId (court_of s') = MarketIdToCourtId (court_of s) ∧
  CourtIdToMarketId (court_of s') = CourtIdToMarketId (court_of s) ∧
  NextCourtId (court_of s') = NextCourtId (court_of s).
#[local] Instance same_courts_preorder : PreOrder same_courts.
Proof.
  split; [by repeat split|]. intros s1 s2 s3 (R1 & M1 & C1 & N1) (R2 & M2 & C2 & N2).
  split; [intros k; by rewrite R2|split; [congruence|split; congruence]].
Qed.

(** No dispute begins, and what is in court stays scheduled, but for [P]. *)
Record fading (P : MarketId → Prop) (s s' : St) : Prop := {
  fd_courts : same_courts s s';
  fd_global id : gd_does_exist id (global_disputes s) = true → gd_does_exist id (global_disputes s') = true;
  fd_markets id m' : Markets (commons s') !! id = Some m' → in_court m' →
    (∃ m, Markets (commons s) !! id = Some m ∧ in_court m) ∧
    (¬ P id → ∀ b, scheduled id b s' = scheduled id b s);
}.
#[local] Instance fading_preorder P : PreOrder (fading P).
Proof.
  split.
  - intros s. split; [done|done|]. intros id m Hm Hc. split; [by exists m|done].
  - intros s1 s2 s3 [C12 G12 M12] [C23 G23 M23]. split; [by transitivity s2|auto|].
    intros id m3 Hm3 Hc3. destruct (M23 id m3 Hm3 Hc3) as [(m2 & Hm2 & Hc2) S23].
    destruct (M12 id m2 Hm2 Hc2) as [Hex S12]. split; [done|]. intros Hid b. by rewrite S23, S12.
Qed.

Lemma past_kept (s s' : St) id :
  markets_inv (commons s) → lives s s' →
  id < counter (commons s) ∧ (∃ m, Markets (commons s) !! id = Some m ∧ rank Disputed ≤ rank (status m)) →
  id < counter (commons s') ∧ ∃ m, Markets (commons s') !! id = Some m ∧ rank Disputed ≤ rank (status m).
Proof.
  intros Hinv Hl (Hid & m & Hm & Hr). destruct (Hl Hinv) as (_ & Hc & Hk). split; [lia|].
  specialize (Hk id Hid). unfold kept in Hk. rewrite Hm in Hk.
  destruct Hk as [(m' & Hm' & He)|[_ Hst]]; [|rewrite Hst in Hr; by cbn in Hr].
  exists m'. split; [done|]. pose proof (ev_status _ _ He). lia.
Qed.

Lemma fading_inv (s s' : St) : fading (λ _, False) s s' → lives s s' → court_inv s → court_inv s'.
Proof.
  intros [(Hr & Hm & Hc & Hn) Hg Hf] Hl [I1 I2 I3 I4 I5]. split.
  - by apply Hl.
  - intros id k. rewrite Hm, Hc. apply I2.
  - intros k id. rewrite Hm, Hc, Hn. apply I3.
  - intros id k. rewrite Hm. intros Hk. apply (past_kept s s' id I1 Hl). by apply (I4 id k).
  - intros id m' Hm' Hc'. destruct (Hf id m' Hm' Hc') as [(m & Hm0 & Hc0) Hs].
    destruct (I5 id m Hm0 Hc0) as [Hgd|(k & rd & Hk & Hrd & Hend)]; [left; auto|right].
    exists k, rd. rewrite Hm, Hr. split; [done|]. split; [done|].
    destruct Hend as [Hmax|Hend]; [by left|right]. rewrite Hs; [done|]. by intros [].
Qed.
(** *** Operations that fade *)

#[local] Instance fading_framed P : MarketFramed (λ _, True) (fading P).
Proof.
  split; [typeclasses eauto|..].
  - intros s s' Hc (Hd & Hb & Hg). split; [unfold same_courts, court_of; by rewrite Hd|by rewrite Hg|].
    intros id m. rewrite Hc. intros Hm Hin. split; [by exists m|]. intros _ b. unfold scheduled. by rewrite Hb.
  - intros s id m m' Hm [Hmech Hst]. split; [done|done|]. intros id' m2. cbn.
    intros [[<- <-]|[_ Hm2]]%lookup_insert_Some [Hs2 Hmech2]; (split; [|done]); [|by exists m2].
    exists m. split; [done|]. split; [by apply Hst|congruence].
  - intros s s2 id m m' [C G0 M] _ _ Hst. split; [done|done|]. intros id' m2. cbn.
    intros [[<- <-]|[_ Hm2]]%lookup_insert_Some Hin; [by destruct Hin|by apply (M id' m2)].
  - intros s id. split; [done|done|]. intros id' m. cbn. intros [_ Hm]%lookup_delete_Some Hin. split; [by exists m|done].
  - intros s c id m Hc _ Hst. split; [done|done|]. intros id' m2. cbn.
    intros [[<- <-]|[_ Hm2]]%lookup_insert_Some Hin; [by destruct Hin|].
    rewrite Hc in Hm2. split; [by exists m2|done].
Qed.

(** A run of the dispute mechanisms that keeps the rounds of the courts. *)
Definition keeps_courts (t t' : D1 * CourtStorage * IdsPer * L) : Prop :=
  (∀ k, rounds t'.1.1.2.1 k = rounds t.1.1.2.1 k) ∧
  MarketIdToCourtId t'.1.1.2.1 = MarketIdToCourtId t.1.1.2.1 ∧
  CourtIdToMarketId t'.1.1.2.1 = CourtIdToMarketId t.1.1.2.1 ∧
  NextCourtId t'.1.1.2.1 = NextCourtId t.1.1.2.1.

Lemma fd_disputes {A} id (f : Store (D1 * CourtStorage * IdsPer * L) A) :
  respects keeps_courts f → respects (elsewhere id) f →
  respects (fading (λ x, x = id)) (zoom dispute_view set_disputes f : ST A).
Proof.
  intros Hc Hs. apply respects_zoom. intros s. specialize (Hc (dispute_view s)). specialize (Hs (dispute_view s)).
  split; [exact Hc|done|]. intros id' m Hm Hin. split; [by exists m|]. intros Hne b. by apply Hs.
Qed.
Lemma keeps_first {A} (f : Store (D1 * IdsPer * L) A) : respects keeps_courts (on_first f).
Proof. apply respects_zoom. by intros s. Qed.
Lemma run_on_court {A} markets (f : Store (CourtTypes.State MarketView IdsPer L) A) (t : CourtStorage * IdsPer * L) r t' :
  on_court markets f t = (r, t') → ∃ s', f (court_state markets t) = (r, s') ∧ t' = court_parts s'.
Proof. unfold on_court, zoom. destruct (f _) as [r0 s0]. intros [= <- <-]. by exists s0. Qed.
Lemma keeps_court {A} markets (f : Store (CourtTypes.State MarketView IdsPer L) A) :
  (∀ s0, respects (frozen s0) f) → respects keeps_courts (on_second (on_court markets f)).
Proof.
  intros Hf. apply respects_zoom. intros t. destruct (on_court _ _ _) as [r t'] eqn:Hr. cbn.
  apply run_on_court in Hr as (s' & Hr & ->). apply (frozen_run f) in Hr; [|done]. by destruct Hr.
Qed.
Lemma own_court {A} id markets (f : Store (CourtTypes.State MarketView IdsPer L) A) :
  (∀ s0, respects (frozen s0) f) → respects (elsewhere id) (on_second (D1 := D1) (on_court markets f)).
Proof.
  intros Hf. apply respects_zoom. intros t. destruct (on_court _ _ _) as [r t'] eqn:Hr.
  apply run_on_court in Hr as (s' & Hr & ->). apply (frozen_run f) in Hr; [|done].
  apply elsewhere_same. cbn. apply (sr_resolution _ _ Hr).
Qed.

(** The court in the storage of the chain. *)
Definition court_view (markets : MarketView) (s : St) : CourtTypes.State MarketView IdsPer L :=
  court_state markets ((dispute_storage s).2, dispute_blocks s, ledger s).
Lemma run_court {A} markets (f : Store (CourtTypes.State MarketView IdsPer L) A) (s : St) r t :
  on_second (on_court markets f) (dispute_view s) = (r, t) →
  ∃ v, f (court_view markets s) = (r, v) ∧
    t = (((dispute_storage s).1, (CourtTypes.storage v, CourtTypes.events v)), CourtTypes.resolution v, CourtTypes.currency v).
Proof.
  unfold on_second, zoom, dispute_view, court_view. cbn. destruct (on_court _ _ _) as [r' t'] eqn:Hr.
  apply run_on_court in Hr as (v & Hv & ->). intros [= <- <-]. by exists v.
Qed.

Lemma fd_api_resolution now mdm markets id m :
  respects (fading (λ x, x = id)) (zoom dispute_view set_disputes
    (api_on_resolution (DisputeApi := court_mechanism now mdm) markets id m) : ST (option OutcomeReport)).
Proof.
  assert (∀ k, mdm = k → OwnSchedule (others k)) as Hown by auto.
  destruct mdm; cbn [court_mechanism lift_first lift_second api_on_resolution Court_dispute_api].
  1,3: apply fd_disputes; [apply keeps_first|apply own_first, Hown; reflexivity].
  apply fd_disputes; [apply keeps_court|apply own_court]; intros; apply fz_on_resolution.
Qed.
Lemma fd_api_exchange now mdm id m o amt :
  respects (fading (λ x, x = id)) (zoom dispute_view set_disputes
    (api_exchange (DisputeApi := court_mechanism now mdm) id m o amt) : ST Balance).
Proof.
  assert (∀ k, mdm = k → OwnSchedule (others k)) as Hown by auto.
  destruct mdm; cbn [court_mechanism lift_first lift_second api_exchange Court_dispute_api].
  1,3: apply fd_disputes; [apply keeps_first|apply own_first, Hown; reflexivity].
  apply fd_disputes; [apply keeps_court|apply own_court]; intros; apply fz_exchange.
Qed.
Lemma fd_winner P id : respects (fading P) (zoom global_view set_global_disputes (gd_determine_voting_winner id) : ST (option OutcomeReport)).
Proof.
  apply respects_zoom. intros s. unfold global_view.
  destruct (gd_determine_voting_winner id _) as [o [g r]] eqn:Hw. apply gd_determined in Hw as [-> Hg].
  split; [done|intros id'; by rewrite Hg|]. intros id' m Hm Hin. split; [by exists m|done].
Qed.

(** Walks through an operation of the markets. *)
Ltac fade := repeat first
  [ respects_step
  | match goal with Hk : context [respects _ _] |- _ => solve [apply Hk] end
  | apply (fr_market _ _) | apply (fr_event _ _) | apply (fr_zoom _ _); done | apply (fr_same _ _); done
  | apply fd_winner | apply respects_attempt | apply respects_for_each; [typeclasses eauto|]; intros ? _ ].

Lemma fd_resolution now id m : respects (fading (λ x, x = id)) (on_resolution (court_mechanism now) id m : ST unit).
Proof.
  pose proof (fr_unreserve _ (fading (λ x, x = id))). pose proof (fr_resolve_reported _ (fading (λ x, x = id))).
  pose proof (fr_settle_bonds _ (fading (λ x, x = id))).
  pose proof fd_api_resolution. pose proof fd_api_exchange.
  unfold on_resolution, resolve_disputed_market, get_resolved_outcome. fade.
  apply (fr_mutate _ _). intros m0 m1 [= <-]. by split.
Qed.
Lemma resolution_fades now id m (s s' : St) u :
  Markets (commons s) !! id = Some m → on_resolution (court_mechanism now) id m s = (Ok u, s') →
  fading (λ _, False) s s' ∧ ∀ m', Markets (commons s') !! id = Some m' → ¬ in_court m'.
Proof.
  intros Hm Hr. pose proof (respects_run _ _ _ _ _ (fd_resolution now id m) Hr) as [C G0 M].
  apply (on_resolution_commons _ id m) in Hr as (_ & m1 & o & _ & Hc); [|done].
  assert (∀ m', Markets (commons s') !! id = Some m' → ¬ in_court m') as Hres.
  { intros m'. rewrite Hc, put_lookup. intros [= <-] [Hst _]. discriminate Hst. }
  split; [|exact Hres]. split; [done..|]. intros id' m' Hm' Hin. destruct (M id' m' Hm' Hin) as [Hex Hs].
  split; [done|]. intros _. apply Hs. intros ->. by apply (Hres m').
Qed.
(** *** The block hook *)

Abbreviation nowhere := (λ _ : MarketId, False).

Lemma resolving_loop now l (s s' : St) u :
  for_each (for_market (on_resolution (court_mechanism now))) l s = (Ok u, s') →
  fading nowhere s s' ∧ ∀ id m', id ∈ l → Markets (commons s') !! id = Some m' → ¬ in_court m'.
Proof.
  revert s. induction l as [|x l IH]; intros s Hr; cbn [for_each] in Hr.
  - apply ret_ok_inv in Hr as [_ <-]. split; [reflexivity|]. by intros id m' ?%elem_of_nil.
  - apply bind_ok_inv in Hr as (v & s1 & Hx & Hr). apply IH in Hr as [Hf Hl].
    apply bind_ok_inv in Hx as (m & s2 & Hm & Hx). apply market_at in Hm as [Hm ->].
    apply (resolution_fades now x m) in Hx as [Hfx Hx]; [|done]. split; [by transitivity s1|].
    intros id m' [->|Hid]%elem_of_cons Hm'; [|by apply (Hl id)]. intros Hin.
    destruct (fd_markets _ _ _ Hf _ _ Hm' Hin) as [(m1 & Hm1 & Hin1) _]. by apply (Hx m1).
Qed.

(** The resolution of a block, up to the last step, in which the block leaves the
    schedule: what is still in court was not scheduled for the block. *)
Lemma resolution_manager_runs now (s s' : St) u :
  resolution_manager now (on_resolution (court_mechanism now)) s = (Ok u, s') →
  ∃ s2, fading nowhere s s2 ∧ s' = set_dispute_blocks (delete now (dispute_blocks s2)) s2 ∧
    ∀ id m, Markets (commons s2) !! id = Some m → in_court m → scheduled id now s2 = 0.
Proof.
  intros Hr. unfold resolution_manager in Hr.
  apply bind_ok_inv in Hr as (ids & s1 & Hids & Hr). run_inv Hids.
  apply bind_ok_inv in Hr as (v & s1 & Hrep & Hr).
  apply (for_each_rel (fading nowhere)) in Hrep.
  2:{ intros id t t' w _ Hf. apply bind_ok_inv in Hf as (m & t1 & Hm & Hf). apply market_at in Hm as [Hm ->].
      destruct (bool_decide _); [by apply (resolution_fades now id m) in Hf as [Hf _]|].
      by apply ret_ok_inv in Hf as [_ <-]. }
  apply bind_ok_inv in Hr as (v1 & s2 & Hmod & Hr). run_inv Hmod.
  apply bind_ok_inv in Hr as (ids & s2 & Hids & Hr). run_inv Hids.
  apply bind_ok_inv in Hr as (v2 & s2 & Hloop & Hr). run_inv Hr.
  apply resolving_loop in Hloop as [Hf Hdone]. exists s2. split; [|split; [done|]].
  - transitivity s1; [done|]. etransitivity; [|exact Hf]. by apply mf_frame.
  - intros id m Hm Hin. destruct (fd_markets _ _ _ Hf _ _ Hm Hin) as [_ Hs]. rewrite (Hs (λ f, f) now).
    pose proof (count_id_nonneg id (ids_at now (dispute_blocks s1))) as Hn.
    destruct (decide (0 < count_id id (ids_at now (dispute_blocks s1)))) as [Hpos|]; [|unfold scheduled; cbn; lia].
    apply count_id_pos in Hpos. exfalso. by apply (Hdone id m).
Qed.

(** The resolution takes its markets off the schedule, and they are resolved. *)
Lemma resolution_manager_inv now (s s' : St) u :
  resolution_manager now (on_resolution (court_mechanism now)) s = (Ok u, s') → court_inv s → court_inv s'.
Proof.
  intros Hr Hinv. pose proof Hr as Hl. apply resolution_manager_lives in Hl.
  apply resolution_manager_runs in Hr as (s2 & Hf & -> & Hnone).
  assert (court_inv s2) as [I1 I2 I3 I4 I5] by (by apply (fading_inv s)). split; [done..|].
  intros id m Hm Hin. cbn in Hm. destruct (I5 id m Hm Hin) as [Hg|(k & rd & Hk & Hrd & Hend)]; [by left|].
  right. exists k, rd. split; [done|]. split; [done|]. destruct Hend as [Hmax|Hend]; [by left|right].
  specialize (Hnone id m Hm Hin). unfold scheduled, ids_at in *. cbn.
  rewrite lookup_delete_ne; [done|]. intros Heq. rewrite <- Heq, Hnone in Hend. lia.
Qed.

(** A transaction keeps the invariant when it does so in success; that markets evolve is known. *)
Lemma transactional_inv {A} (f : ST A) (s : St) :
  (∀ a s', f s = (Ok a, s') → lives s s' → court_inv s') →
  lives s (transactional f s).2 → court_inv s → court_inv (transactional f s).2.
Proof.
  intros Hf. unfold transactional. destruct (f s) as [[a|e] s']; cbn; [|done]. intros Hl _. by apply (Hf a).
Qed.

Lemma initialize_inv now now_time (s : St) : court_inv s → court_inv (on_initialize (court_mechanism now) now now_time s).
Proof.
  intros Hinv. pose proof (on_initialize_lives (court_mechanism now) now now_time s) as Hl. revert Hl.
  unfold on_initialize, initialize_block. cbv zeta. rewrite gets_bind. intros Hl.
  apply transactional_inv; [|done..]. intros u s' Hr _.
  apply bind_ok_inv in Hr as (close & s1 & Hclose & Hr). apply attempt_ok_inv in Hclose.
  apply bind_ok_inv in Hr as (resolve & s2 & Hres & Hr). apply attempt_ok_inv in Hres.
  apply bind_ok_inv in Hr as (v & s3 & Hmod & Hr). run_inv Hmod.
  destruct close as [v1|e]; [|by run_inv Hr]. destruct resolve as [v2|e]; [|by run_inv Hr]. run_inv Hr.
  assert (court_inv s2) as Hs2.
  { apply resolution_manager_inv in Hres; [done|]. apply (fading_inv s); [| |done].
    - by apply (respects_run _ _ _ _ _ (fr_status_manager _ (fading nowhere) _ _ _)) in Hclose.
    - by apply status_manager_lives in Hclose. }
  apply (fading_inv s2); [by apply mf_frame|unfold lives; reflexivity|done].
Qed.
(** A block hook that succeeds. *)
Lemma initialize_runs now now_time (s s' : St) u :
  initialize_block (court_mechanism now) now now_time s = (Ok u, s') →
  ∃ s2, fading nowhere s s2 ∧ commons s' = commons s2 ∧
    ∀ id m, Markets (commons s2) !! id = Some m → in_court m → scheduled id now s2 = 0.
Proof.
  intros Hr. unfold initialize_block in Hr. cbv zeta in Hr. rewrite gets_bind in Hr.
  apply transactional_ok_inv in Hr.
  apply bind_ok_inv in Hr as (close & s1 & Hclose & Hr). apply attempt_ok_inv in Hclose.
  apply bind_ok_inv in Hr as (resolve & s2 & Hres & Hr). apply attempt_ok_inv in Hres.
  apply bind_ok_inv in Hr as (v & s3 & Hmod & Hr). run_inv Hmod.
  destruct close as [v1|e]; [|by run_inv Hr]. destruct resolve as [v2|e]; [|by run_inv Hr]. run_inv Hr.
  apply (respects_run _ _ _ _ _ (fr_status_manager _ (fading nowhere) _ _ _)) in Hclose.
  apply resolution_manager_runs in Hres as (s3 & Hf & -> & Hnone). exists s3. split; [by transitivity s1|done].
Qed.

(** *** The calls of the markets *)

Lemma resolve_inv now id m (s s1 s2 : St) u :
  fading (λ x, x = id) s s1 → lives s s2 → court_inv s →
  Markets (commons s1) !! id = Some m → on_resolution (court_mechanism now) id m s1 = (Ok u, s2) → court_inv s2.
Proof.
  intros Hf Hl Hinv Hm Hr. pose proof Hr as [Hfr Hres]%resolution_fades; [|done].
  apply (fading_inv s); [|done..].
  destruct Hf as [C1 G1 M1], Hfr as [C2 G2 M2]. split; [by transitivity s1|auto|].
  intros id' m' Hm' Hin. destruct (M2 id' m' Hm' Hin) as [(m2 & Hm2 & Hin2) Hs2].
  destruct (M1 id' m2 Hm2 Hin2) as [Hex Hs1]. split; [done|]. intros _ b. rewrite Hs2 by (by intros []).
  apply Hs1. intros ->. by apply (Hres m').
Qed.

Lemma fd_clear_auto_resolve now id : respects (fading (λ x, x = id)) (clear_auto_resolve (court_mechanism now) id : ST unit).
Proof.
  unfold clear_auto_resolve, drop_id. fade.
  apply respects_modify. intros s. split; [done|done|]. intros id' m' Hm Hin. split; [by exists m'|].
  intros Hne b. unfold scheduled. cbn. rewrite ids_at_insert. case_decide as Hb; [|done].
  rewrite count_remove_item, decide_False by congruence. by subst.
Qed.

Lemma admin_resolve_inv now origin id (s : St) :
  court_inv s → court_inv (admin_move_market_to_resolved (court_mechanism now) origin id s).2.
Proof.
  intros Hinv. apply transactional_inv; [|apply admin_resolve_lives|done]. intros u s' Hr Hl.
  unfold ensure_origin in Hr.
  apply bind_ok_inv in Hr as (v1 & s1 & Ho & Hr). run_inv Ho.
  apply bind_ok_inv in Hr as (m & s1 & Hm & Hr). apply market_at in Hm as [_ ->].
  apply bind_ok_inv in Hr as (v2 & s1 & Hst & Hr). run_inv Hst.
  apply bind_ok_inv in Hr as (v3 & s1 & Hcl & Hr).
  apply bind_ok_inv in Hr as (m1 & s2 & Hm1 & Hr). apply market_at in Hm1 as [Hm1 ->].
  apply (resolve_inv now id m1 s s1 s' u); [|done..].
  by apply (respects_run _ _ _ _ _ (fd_clear_auto_resolve now id)) in Hcl.
Qed.
Lemma event_run e (s t s' : St) u :
  deposit_event e t = (Ok u, s') → lives s s' → (lives s t → court_inv t) → court_inv s'.
Proof.
  unfold deposit_event. intros Hr Hl Ht. run_inv Hr.
  apply (fading_inv t); [by apply mf_frame|unfold lives; reflexivity|by apply Ht].
Qed.

Lemma report_inv now now_time origin id o (s : St) :
  court_inv s → court_inv (report_market (court_mechanism now) now now_time origin id o s).2.
Proof.
  intros Hinv. apply transactional_inv; [|apply report_lives|done]. intros u s' Hr Hl.
  apply bind_ok_inv in Hr as (who & s1 & Ho & Hr). run_inv Ho. cbv zeta in Hr.
  apply bind_ok_inv in Hr as (m & s1 & Hm & Hr). apply market_at in Hm as [_ ->].
  apply bind_ok_inv in Hr as (v1 & s1 & Hg1 & Hr). run_inv Hg1.
  apply bind_ok_inv in Hr as (v2 & s1 & Hg2 & Hr). run_inv Hg2.
  apply bind_ok_inv in Hr as (v3 & s1 & Hg3 & Hr). run_inv Hg3.
  apply bind_ok_inv in Hr as (v4 & s1 & Hrep & Hr).
  apply (event_run _ _ _ _ _ Hr Hl). intros Hl1. destruct (dispute_mechanism m) as [mdm|].
  - apply (fading_inv s); [|done..].
    by apply (respects_run _ _ _ _ _ (fr_report_with _ (fading nowhere) _ _ _ _)) in Hrep.
  - unfold report_and_resolve_market in Hrep.
    apply bind_ok_inv in Hrep as (v5 & s2 & Hmut & Hrep).
    apply bind_ok_inv in Hrep as (m1 & s3 & Hm1 & Hrep). apply market_at in Hm1 as [Hm1 ->].
    apply (resolve_inv now id m1 s s2 s1 v4); [|done..].
    apply mutate_at in Hmut as (m0 & m2 & Hm0 & Hm2 & ->). apply (mf_market s id m0); [done|].
    run_inv Hm2. intros <-. by split.
Qed.
(** A new court for a market that had none. *)
Lemma opened_inv id m m' (s s' : St) court n :
  court_inv s → lives s s' → Markets (commons s) !! id = Some m → status m = Reported →
  commons s' = put_market id m' (commons s) → status m' = Disputed → global_disputes s' = global_disputes s →
  let c := NextCourtId (court_of s) in
  schedule_add id (rt_appeal (round_ends court)) (dispute_blocks s) = (Ok n, dispute_blocks s') →
  (∀ k, rounds (court_of s') k = if decide (c = k) then Some (round court) else rounds (court_of s) k) →
  MarketIdToCourtId (court_of s') = <[id := c]> (MarketIdToCourtId (court_of s)) →
  CourtIdToMarketId (court_of s') = <[c := id]> (CourtIdToMarketId (court_of s)) →
  NextCourtId (court_of s') = c + 1 → court_inv s'.
Proof.
  intros [I1 I2 I3 I4 I5] Hl Hm Hst Hcom Hst' Hgd c Hadd Hrd Hmap Hmap' Hnext.
  assert (MarketIdToCourtId (court_of s) !! id = None) as Hnone.
  { apply eq_None_not_Some. intros [k Hk]. destruct (I4 id k Hk) as (_ & m2 & Hm2 & Hrank).
    rewrite Hm in Hm2. injection Hm2 as <-. by rewrite Hst in Hrank. }
  assert (∀ id' k, MarketIdToCourtId (court_of s) !! id' = Some k → k ≠ c ∧ id' ≠ id) as Hold.
  { intros id' k Hk. split; [|by intros ->; congruence]. apply I2, I3 in Hk as [Hk _]. unfold c. lia. }
  split.
  - by apply Hl.
  - intros id' k. rewrite Hmap, Hmap', !lookup_insert_Some. intros [[<- <-]|[Hne Hk]]; [by left|right].
    split; [intros <-; by apply Hold in Hk as [Hk _]|by apply I2].
  - intros k id'. rewrite Hmap, Hmap', Hnext, !lookup_insert_Some. intros [[<- <-]|[Hne Hk]]; [split; [lia|by left]|].
    apply I3 in Hk as [Hlt Hk]. split; [unfold c; lia|right]. split; [|done]. intros <-. congruence.
  - intros id' k. rewrite Hmap, lookup_insert_Some. intros [[<- _]|[_ Hk]].
    + split; [|exists m'; by rewrite Hcom, put_lookup, Hst'].
      destruct (Hl I1) as (_ & Hc & _). destruct I1 as [Hci _]. apply Z.lt_le_trans with (counter (commons s)); [|done].
      by apply (inv_ids _ Hci id).
    + apply (past_kept s s' id' I1 Hl). by apply (I4 id' k).
  - intros id' m2 Hm2 Hin. unfold dealt_with. rewrite Hgd, Hmap.
    apply schedule_add_inv in Hadd as [_ Hadd]. unfold scheduled. rewrite Hadd.
    destruct (decide (id = id')) as [<-|Hne].
    + right. exists c, (round court). rewrite lookup_insert_eq, Hrd, decide_True by done.
      split; [done|]. split; [done|]. right. rewrite ids_at_insert, decide_True, count_id_app, count_id_cons by done.
      pose proof (count_id_nonneg id (ids_at (rt_appeal (round_ends court)) (dispute_blocks s))). cbn.
      rewrite Z.eqb_refl. lia.
    + rewrite Hcom in Hm2. cbn in Hm2. rewrite lookup_insert_ne in Hm2 by done.
      destruct (I5 id' m2 Hm2 Hin) as [Hg|(k & rd & Hk & Hkr & Hend)]; [by left|right].
      exists k, rd. rewrite lookup_insert_ne, Hrd by done.
      rewrite decide_False by (intros <-; by apply Hold in Hk as [Hk _]). split; [done|]. split; [done|].
      destruct Hend as [Hmax|Hend]; [by left|right]. rewrite ids_at_insert. case_decide as Hb; [|done].
      rewrite count_id_app. unfold scheduled in Hend. rewrite Hb.
      pose proof (count_id_nonneg id' [id]). lia.
Qed.
(** A dispute in front of another mechanism. *)
Lemma elsewhere_inv id m' (s s' : St) :
  court_inv s → lives s s' → commons s' = put_market id m' (commons s) → ¬ in_court m' →
  global_disputes s' = global_disputes s → keeps_courts (dispute_view s) (dispute_view s') →
  elsewhere id (dispute_view s) (dispute_view s') → court_inv s'.
Proof.
  intros Hinv Hl Hcom Hin Hgd Hk He. apply (fading_inv s); [|done..]. split; [exact Hk|by rewrite Hgd|].
  intros id' m2. rewrite Hcom. cbn. intros [[<- <-]|[Hne Hm2]]%lookup_insert_Some Hin2; [done|].
  split; [by exists m2|]. intros _ b. by apply He.
Qed.

Lemma dispute_inv now origin id (s : St) :
  court_inv s → court_inv (dispute (court_mechanism now) origin id s).2.
Proof.
  intros Hinv. apply transactional_inv; [|apply dispute_lives|done]. intros u s' Hr Hl.
  apply bind_ok_inv in Hr as (who & s1 & Hg0 & Hr). run_inv Hg0.
  apply bind_ok_inv in Hr as (m & s1 & Hm & Hr). apply market_at in Hm as [Hm ->].
  apply bind_ok_inv in Hr as (v1 & s1 & Hg1 & Hr). run_inv Hg1. guards.
  apply bind_ok_inv in Hr as (mdm & s1 & Hmdm & Hr). run_inv Hmdm.
  apply bind_ok_inv in Hr as (v2 & s1 & Hd & Hr). run_inv Hd.
  apply bind_ok_inv in Hr as (v3 & s2 & Hres & Hr). run_inv Hres.
  apply bind_ok_inv in Hr as (v4 & s3 & Hmut & Hr).
  apply mutate_at in Hmut as (m0 & m1 & Hm0 & [= <-] & ->). apply (event_run _ _ _ _ _ Hr Hl). clear Hr Hl. intros Hl.
  cbn in Hm0. assert (m0 = m) as -> by congruence.
  assert (∀ k (f : Store (D1 * IdsPer * L) unit), dispute_mechanism m = Some k → k ≠ MDM_Court →
    respects (elsewhere id) f → on_first f (dispute_view s) = (Ok v2, t) →
    court_inv (set_commons (put_market id (with_bond dispute_bond (Some (Bond_new who DisputeBond))
      (with_status Disputed m)) (commons s)) (set_ledger t0 (set_disputes t s)))) as Hother.
  { intros k f Hk Hne Hf Hrun. apply (elsewhere_inv id (with_bond dispute_bond (Some (Bond_new who DisputeBond))
      (with_status Disputed m)) s); [done|exact Hl|done|by intros [_ Hc]; cbn in Hc; congruence|done|..].
    - by apply (respects_run _ _ _ _ _ (keeps_first f)) in Hrun.
    - by apply (respects_run _ _ _ _ _ (own_first id f Hf)) in Hrun. }
  destruct mdm; cbn [court_mechanism] in Hd.
  - apply (Hother _ _ Hmdm ltac:(done) (own_on_dispute id m) Hd).
  - apply run_court in Hd as (v & Hd & ->).
    apply on_dispute_rounds in Hd as (court & n & Hadd & Hrd & Hco & Hmo & Hn).
    by apply (opened_inv id m (with_bond dispute_bond (Some (Bond_new who DisputeBond)) (with_status Disputed m))
      s _ court n).
  - apply (Hother _ _ Hmdm ltac:(done) (own_on_dispute id m) Hd).
Qed.
(** Like [fading], but the market [id] may lose its court and be disputed. *)
Record losing (id : MarketId) (s s' : St) : Prop := {
  lo_court_of : MarketIdToCourtId (court_of s') = MarketIdToCourtId (court_of s);
  lo_market_of : CourtIdToMarketId (court_of s') = CourtIdToMarketId (court_of s);
  lo_next : NextCourtId (court_of s') = NextCourtId (court_of s);
  lo_rounds k : MarketIdToCourtId (court_of s) !! id ≠ Some k → rounds (court_of s') k = rounds (court_of s) k;
  lo_global id' : gd_does_exist id' (global_disputes s) = true → gd_does_exist id' (global_disputes s') = true;
  lo_markets id' m' : id' ≠ id → Markets (commons s') !! id' = Some m' → in_court m' →
    (∃ m, Markets (commons s) !! id' = Some m ∧ in_court m) ∧ ∀ b, scheduled id' b s' = scheduled id' b s;
}.
#[local] Instance losing_preorder id : PreOrder (losing id).
Proof.
  split.
  - intros s. split; try done. intros id' m _ Hm Hin. split; [by exists m|done].
  - intros s1 s2 s3 [M1 C1 N1 R1 G1 S1] [M2 C2 N2 R2 G2 S2]. split; [congruence..| |auto|].
    + intros k Hk. rewrite R2, R1; [done..|congruence].
    + intros id' m' Hne Hm' Hin. destruct (S2 id' m' Hne Hm' Hin) as [(m2 & Hm2 & Hin2) B2].
      destruct (S1 id' m2 Hne Hm2 Hin2) as [Hex B1]. split; [done|]. intros b. by rewrite B2, B1.
Qed.
Lemma fading_losing id (s s' : St) : fading (λ x, x = id) s s' → losing id s s'.
Proof.
  intros [(R & M & C & N) G0 F]. split; [done..|by intros k _|done|].
  intros id' m' Hne Hm' Hin. destruct (F id' m' Hm' Hin) as [Hex Hs]. auto.
Qed.

Lemma losing_global_dispute id m (s : St) items t :
  on_second (on_court no_markets (Court.on_global_dispute id m)) (dispute_view s) = (Ok items, t) →
  losing id s (set_disputes t s).
Proof.
  intros Hd. apply run_court in Hd as (v & Hd & ->).
  apply on_global_dispute_rounds in Hd as (Hr & Hm & Hc & Hn & Hrd). split; [done..| |done|].
  - intros k Hk. unfold court_of. cbn. rewrite Hrd. by rewrite decide_False.
  - intros id' m' _ Hm' Hin. split; [by exists m'|]. intros b. unfold scheduled. cbn. by rewrite Hr.
Qed.
Lemma losing_mutate id f (s s' : St) u : mutate_market id f s = (Ok u, s') → losing id s s'.
Proof.
  intros Hmut. apply mutate_at in Hmut as (m & m' & _ & _ & ->). split; try done.
  intros id' m2 Hne. cbn. rewrite lookup_insert_ne by done. intros Hm2 Hin. split; [by exists m2|done].
Qed.
Lemma losing_started id now c items n t (s : St) :
  gd_start_global_dispute now c id items (global_view s) = (Ok n, t) →
  losing id s (set_global_disputes t s) ∧ gd_does_exist id t.1 = true.
Proof.
  destruct t as [g r]. intros Hg. apply gd_started in Hg as (Hex & Hmono & Hs). split; [|done]. split; try done.
  intros id' m' Hne Hm' Hin. split; [by exists m'|]. intros b. by apply Hs.
Qed.

(** A global dispute takes the market over from the court. *)
Lemma takeover_inv id (s s' : St) :
  court_inv s → lives s s' → losing id s s' → gd_does_exist id (global_disputes s') = true → court_inv s'.
Proof.
  intros [I1 I2 I3 I4 I5] Hl [Hm Hc Hn Hrd Hmono Hs] Hg. split.
  - by apply Hl.
  - intros id' k. rewrite Hm, Hc. apply I2.
  - intros k id'. rewrite Hm, Hc, Hn. apply I3.
  - intros id' k. rewrite Hm. intros Hk. apply (past_kept s s' id' I1 Hl). by apply (I4 id' k).
  - intros id' m Hm' Hin. destruct (decide (id' = id)) as [->|Hne]; [by left|].
    destruct (Hs id' m Hne Hm' Hin) as [(m0 & Hm0 & Hin0) Hsch].
    destruct (I5 id' m0 Hm0 Hin0) as [Hgd|(k & rd & Hk & Hkr & Hend)]; [left; auto|right].
    exists k, rd. rewrite Hm, Hrd, Hsch; [done|]. intros Hk'. apply Hne. apply I2 in Hk, Hk'. congruence.
Qed.

Lemma start_global_dispute_inv now origin id (s : St) :
  court_inv s → court_inv (start_global_dispute (court_mechanism now) now origin id s).2.
Proof.
  intros Hinv. apply transactional_inv; [|apply start_global_dispute_lives|done]. intros u s' Hr Hl.
  apply bind_ok_inv in Hr as (who & s1 & Hg0 & Hr). run_inv Hg0.
  apply bind_ok_inv in Hr as (m & s1 & Hm & Hr). apply market_at in Hm as [Hm ->].
  apply bind_ok_inv in Hr as (mdm & s1 & Hmdm & Hr). run_inv Hmdm.
  apply bind_ok_inv in Hr as (v1 & s1 & Hg1 & Hr). run_inv Hg1.
  apply bind_ok_inv in Hr as (v2 & s1 & Hg2 & Hr). run_inv Hg2.
  rewrite gets_bind in Hr. apply bind_ok_inv in Hr as (v3 & s1 & Hg3 & Hr). run_inv Hg3.
  apply bind_ok_inv in Hr as (r & s1 & Hg4 & Hr). run_inv Hg4. rewrite gets_bind in Hr.
  guards. subst mdm. cbn [court_mechanism] in Hr.
  apply bind_ok_inv in Hr as (failed & s1 & Hf & Hr).
  apply respects_run with (Rel := fading (λ x, x = id)) in Hf as Hs1.
  2:{ apply fd_disputes; [apply keeps_court|apply own_court]; intros; apply fz_has_failed. }
  apply bind_ok_inv in Hr as (v4 & s1' & Hg5 & Hr). run_inv Hg5.
  apply bind_ok_inv in Hr as (items & s2 & Hgd & Hr). run_inv Hgd. apply losing_global_dispute in Hgd as Hs2.
  apply bind_ok_inv in Hr as (v5 & s3 & Hcl & Hr).
  apply (respects_run _ _ _ _ _ (fd_clear_auto_resolve now id)) in Hcl as Hs3.
  apply bind_ok_inv in Hr as (v6 & s4 & Hmut & Hr).
  assert (losing id s3 s4) as Hs4.
  { destruct (bool_decide (status m = Reported)); [by apply losing_mutate in Hmut|]. by apply ret_ok_inv in Hmut as [_ <-]. }
  rewrite gets_bind in Hr. apply bind_ok_inv in Hr as (n & s5 & Hst & Hr). run_inv Hst.
  apply losing_started in Hst as [Hs5 Hex].
  apply (event_run _ _ _ _ _ Hr Hl). intros Hl5. apply (takeover_inv id s); [done..| |done].
  transitivity s1; [by apply fading_losing|]. etransitivity; [exact Hs2|].
  transitivity s3; [by apply fading_losing|]. by transitivity s4.
Qed.
(** *** The calls of the court *)

(** Entries of the schedule when a market moves from block [b] to block [a]. *)
Lemma removed_counts id id' b b' (r : IdsPer) :
  count_id id' (ids_at b' (schedule_remove id b r).2) =
  if decide ((id, b) = (id', b')) then Z.max 0 (count_id id' (ids_at b' r) - 1) else count_id id' (ids_at b' r).
Proof. exact (remove_auto_resolve_spec id b r _ _ (surjective_pairing _) id' b'). Qed.
Lemma removed_elsewhere id id' b b' (r : IdsPer) :
  id ≠ id' → count_id id' (ids_at b' (schedule_remove id b r).2) = count_id id' (ids_at b' r).
Proof. intros Hne. rewrite removed_counts. by rewrite decide_False by congruence. Qed.
Lemma moved_counts id a b (r r1 : IdsPer) n :
  schedule_add id a r = (Ok n, r1) →
  count_id id (ids_at a (schedule_remove id b r1).2) =
  count_id id (ids_at a r) + (if decide (b = a) then 0 else 1).
Proof.
  intros Hadd. rewrite removed_counts. pose proof (add_auto_resolve_ok id a r r1 n Hadd id a) as Ha.
  rewrite decide_True in Ha by done. cbn in Ha. pose proof (count_id_nonneg id (ids_at a r)).
  repeat case_decide; simplify_eq; lia.
Qed.
Lemma moved_elsewhere id id' a b b' (r r1 : IdsPer) n :
  schedule_add id a r = (Ok n, r1) → id ≠ id' →
  count_id id' (ids_at b' (schedule_remove id b r1).2) = count_id id' (ids_at b' r).
Proof.
  intros Hadd Hne. rewrite removed_elsewhere by done. pose proof (add_auto_resolve_ok id a r r1 n Hadd id' b') as Ha.
  rewrite decide_False in Ha by congruence. cbn in Ha. lia.
Qed.

(** A court moves on to its next round, or has heard its last appeal. *)
Lemma appealed_inv c (s s' : St) court court' :
  court_inv s → commons s' = commons s → global_disputes s' = global_disputes s →
  rounds (court_of s) c = Some (round court) → Z.of_nat (length (appeals court)) < MaxAppeals →
  (∀ k, rounds (court_of s') k = if decide (c = k) then Some (round court') else rounds (court_of s) k) →
  MarketIdToCourtId (court_of s') = MarketIdToCourtId (court_of s) →
  CourtIdToMarketId (court_of s') = CourtIdToMarketId (court_of s) →
  NextCourtId (court_of s') = NextCourtId (court_of s) →
  match CourtIdToMarketId (court_of s) !! c with
  | Some id =>
      (∃ r n, schedule_add id (rt_appeal (round_ends court')) (dispute_blocks s) = (Ok n, r) ∧
         dispute_blocks s' = (schedule_remove id (rt_appeal (round_ends court)) r).2) ∨
      (MaxAppeals ≤ Z.of_nat (length (appeals court')) ∧
         dispute_blocks s' = (schedule_remove id (rt_appeal (round_ends court)) (dispute_blocks s)).2)
  | None => dispute_blocks s' = dispute_blocks s
  end → court_inv s'.
Proof.
  intros [I1 I2 I3 I4 I5] Hcom Hgd Hc Hlen Hrd Hm Hmo Hn Hsch. split.
  - by rewrite Hcom.
  - intros id k. rewrite Hm, Hmo. apply I2.
  - intros k id. rewrite Hm, Hmo, Hn. apply I3.
  - intros id k. rewrite Hm, Hcom. apply I4.
  - intros id m. rewrite Hcom. intros Hid Hin. unfold dealt_with. rewrite Hgd, Hm.
    destruct (I5 id m Hid Hin) as [Hg|(k & rd & Hk & Hkr & Hend)]; [by left|right]. unfold scheduled in *.
    exists k. rewrite Hrd. destruct (decide (c = k)) as [<-|Hne].
    + exists (round court'). split; [done|]. split; [done|]. rewrite (I2 id c Hk) in Hsch.
      rewrite Hc in Hkr. injection Hkr as <-. destruct Hend as [Hmax|Hend]; [cbn in Hmax; lia|].
      destruct Hsch as [(r & n & Hadd & ->)|[Hmax _]]; [right|by left].
      rewrite (moved_counts id _ _ _ _ _ Hadd). cbn in Hend |- *.
      pose proof (count_id_nonneg id (ids_at (rt_appeal (round_ends court')) (dispute_blocks s))).
      case_decide as He; [rewrite <- He|]; lia.
    + exists rd. split; [done|]. split; [done|]. destruct Hend as [Hmax|Hend]; [by left|right].
      destruct (CourtIdToMarketId (court_of s) !! c) as [id2|] eqn:Hc2; [|by rewrite Hsch].
      assert (id2 ≠ id) as Hne2 by (intros ->; apply I3 in Hc2 as [_ Hc2]; congruence).
      destruct Hsch as [(r & n & Hadd & ->)|[_ ->]].
      * by rewrite (moved_elsewhere id2 id _ _ _ _ _ _ Hadd).
      * by rewrite removed_elsewhere.
Qed.
Lemma court_call_inv now c (s : St) : is_interface c = false → court_inv s → court_inv (court_call now c s).2.
Proof.
  intros Hc Hinv. unfold court_call. rewrite gets_bind. unfold zoom.
  destruct (on_second _ (dispute_view s)) as [r t] eqn:Hr. apply run_court in Hr as (v & Hr & ->). cbn [snd].
  set (s' := set_disputes _ s). assert (lives s s') as Hl by (unfold lives; reflexivity).
  destruct (changes_rounds c) eqn:Hch.
  - destruct c; try discriminate. cbn [CourtSteps.dispatch] in Hr. destruct r as [u|e].
    + apply appeal_rounds in Hr as (court & court' & Hrd & Hlen & Hrd' & Hm & Hmo & Hn & Hsch).
      by apply (appealed_inv court_id s s' court court').
    + apply transactional_err in Hr as ->. apply (fading_inv s); [|done..]. split; [done|done|].
      intros id m Hm Hin. split; [by exists m|done].
  - apply dispatch_same_rounds in Hr as [Hr Hrd Hm Hmo Hn]; [|done].
    apply (fading_inv s); [|done..]. split; [done|done|]. intros id m Hid Hin. split; [by exists m|].
    intros _ b. unfold scheduled. cbn. by rewrite Hr.
Qed.

Lemma market_call_inv now now_time origin c (s : St) :
  court_inv s → court_inv (PredictionMarkets.dispatch (court_mechanism now) now now_time origin c s).2.
Proof.
  intros Hinv. pose proof (dispatch_lives (court_mechanism now) now now_time origin c s) as Hl.
  destruct (reaches_disputes c) eqn:Hc.
  - destruct c; try discriminate Hc; cbn [PredictionMarkets.dispatch].
    + by apply admin_resolve_inv.
    + by apply report_inv.
    + by apply dispute_inv.
    + by apply start_global_dispute_inv.
  - apply (fading_inv s); [|done..]. by apply (fr_dispatch (court_mechanism now) _ (fading nowhere)).
Qed.

Lemma chain_step_inv (s s' : St) : chain_step s s' → court_inv s → court_inv s'.
Proof.
  intros Hstep Hinv. destruct Hstep as [now t origin c s|now t s|now c s Hc|s s2 Hcom Hco Hg Hs].
  - by apply market_call_inv.
  - by apply initialize_inv.
  - by apply court_call_inv.
  - apply (fading_inv s); [|unfold lives; by rewrite Hcom|done]. split; [unfold same_courts; by rewrite Hco|done|].
    intros id m. rewrite Hcom. intros Hm Hin. split; [by exists m|]. intros _ b. by apply (Hs id m).
Qed.
Lemma chain_inv (s s' : St) : rtc chain_step s s' → court_inv s → court_inv s'.
Proof. induction 1 as [s|s1 s2 s3 Hstep _ IH]; [done|]. intros Hinv. by eapply IH, chain_step_inv. Qed.

(** (C10) No market in court is forgotten. Whatever calls of the two pallets are made, by
    whomever and with whatever outcome, and whatever blocks and other pallets do in
    between: each disputed market that uses the court is scheduled for the block in which
    the appeal phase of its court ends, or its court has heard the last appeal, or there
    is a global dispute; a market has at most one court and a court at most one market;
    courts are opened only for markets that are disputed or, later, resolved. *)
Theorem court_disputes_scheduled (s s' : St) :
  rtc chain_step s s' → court_inv s →
  court_inv s' ∧
  (∀ id m, Markets (commons s') !! id = Some m → in_court m → dealt_with id s') ∧
  (∀ id k, MarketIdToCourtId (court_of s') !! id = Some k ↔ CourtIdToMarketId (court_of s') !! k = Some id) ∧
  ∀ id k, MarketIdToCourtId (court_of s') !! id = Some k →
    ∃ m, Markets (commons s') !! id = Some m ∧ (status m = Disputed ∨ status m = Resolved).
Proof.
  intros Hrun Hinv. pose proof (chain_inv s s' Hrun Hinv) as Hinv'. split; [done|].
  destruct Hinv' as [I1 I2 I3 I4 I5]. split; [exact I5|]. split.
  - intros id k. split; [apply I2|apply I3].
  - intros id k Hk. destruct (I4 id k Hk) as (_ & m & Hm & Hr). exists m. split; [done|].
    destruct (status m); cbn in Hr; try lia; auto.
Qed.

(** (C12) When the appeal phase of a court ends, its market is resolved: if the market is in
    court, without a global dispute, with appeals left, and the hook of the block in which
    the last round ends succeeds, the market has an outcome afterwards. *)
Theorem court_end_resolves now now_time id m k rd (s s' : St) :
  court_inv s → Markets (commons s) !! id = Some m → in_court m →
  gd_does_exist id (global_disputes s) = false →
  MarketIdToCourtId (court_of s) !! id = Some k → rounds (court_of s) k = Some rd →
  Z.of_nat (length rd.1) < MaxAppeals → rt_appeal rd.2 = now →
  initialize_block (court_mechanism now) now now_time s = (Ok tt, s') →
  ∃ m', Markets (commons s') !! id = Some m' ∧ status m' = Resolved ∧ is_Some (resolved_outcome m').
Proof.
  intros Hinv Hm Hin Hg Hk Hrd Hlen Hend Hr. pose proof Hinv as [I1 I2 I3 I4 I5].
  assert (0 < scheduled id now s) as Hs.
  { destruct (I5 id m Hm Hin) as [Hg'|(k' & rd' & Hk' & Hrd' & Hd)]; [congruence|].
    rewrite Hk in Hk'. injection Hk' as <-. rewrite Hrd in Hrd'. injection Hrd' as <-. rewrite <- Hend. destruct Hd; [lia|done]. }
  pose proof (on_initialize_lives (court_mechanism now) now now_time s I1) as (Hinv' & _ & Hkept).
  unfold on_initialize in *. rewrite Hr in *. cbn [snd] in *.
  destruct (I4 id k Hk) as [Hid _]. specialize (Hkept id Hid). unfold kept in Hkept. rewrite Hm in Hkept.
  destruct Hkept as [(m' & Hm' & [_ Hrank Hterms _ _])|[_ Hst]]; [|destruct Hin; congruence].
  destruct Hin as [Hst Hmech]. assert (terms m' = terms m) as Hterm by (apply Hterms; congruence).
  assert (dispute_mechanism m' = Some MDM_Court) as Hmech' by (injection Hterm; congruence).
  exists m'. split; [done|].
  assert (status m' = Resolved) as Hres.
  { destruct (decide (status m' = Disputed)) as [Hd|Hd].
    - exfalso. apply initialize_runs in Hr as (s2 & Hf & Hc & Hnone). rewrite Hc in Hm'.
      pose proof (Hnone id m' Hm' (conj Hd Hmech')) as Hz.
      destruct (fd_markets _ _ _ Hf id m' Hm' (conj Hd Hmech')) as [_ Hsame]. rewrite (Hsame (λ f, f)) in Hz. lia.
    - rewrite Hst in Hrank. by destruct (status m'); cbn in Hrank; try lia. }
  split; [done|]. by apply (wf_outcome m' (proj2 Hinv' id m' Hm')).
Qed.
End Joint.

(** ** Runs *)
Module CourtMarketsExample.
Import LifeExample.

(** Slashes, locks and reserves of the native token in the ledger of the examples. *)
#[export] Instance ledger_imbalances : ImbalanceCurrency RuntimeLedger := {
  cur_can_reserve x amt l := amt <=? free_balance Ztg x l;
  cur_slash x amt l :=
    let moved := Z.min amt (free_balance Ztg x l) in
    (moved, amt - moved, set_rl_assets (led_move_free Ztg x (- moved) (rl_assets l)) l);
  cur_issue amt l := (amt, l);
  cur_burn amt l := l;
  cur_drop_negative amt l := l;
  cur_drop_positive amt l := l;
  cur_resolve_into_existing x amt l :=
    if native_minimum <=? free_balance Ztg x l
    then (true, set_rl_assets (led_move_free Ztg x amt (rl_assets l)) l) else (false, l);
}.

(** Short phases, two appeals, and a generator that counts. *)
#[export] Instance court_config : CourtConfig RuntimeLedger Z := {
  AppealBond := 5 * BASE; BlocksPerYear := BLOCKS_PER_YEAR; VotePeriod := 10; AggregationPeriod := 10;
  AppealPeriod := 10; LockId := "ctlock"; court_reserve_id := "court"; reward_pot c := - 1001 - 2 * c;
  treasury_account_id := 800; InflationPeriod := 30; MaxAppeals := 2; MaxSelectedDraws := 126;
  MaxDelegations := 5; MaxCourtParticipants := 4; MaxYearlyInflation := 100; MinJurorStake := 10 * BASE;
  RequestInterval := 15;
  slash_unbalanced amt l := l;
  hash_of juror item salt := 1000 * juror + salt;
  rng_of now nonce := now + nonce;
  gen_range lo hi g := (lo, g + 1);
  choose_index n g := 0%nat;
  perbill_mul_floor p x := p * x / 10 ^ 9;
  perquintill_from_rational x y := x * 10 ^ 18 / Z.max 1 y;
  perquintill_mul_floor p x := p * x / 10 ^ 18;
  perquintill_mul p x := p * x / 10 ^ 18;
}.
#[export] Instance example_own k : OwnSchedule (example_mechanism k).
Proof.
  destruct k; cbn [example_mechanism]; try apply _.
  split; cbn; intros; respects.
Qed.

Abbreviation CourtChain := (PredictionMarkets.State MarketCommons.State RuntimeLedger
  (MechanismStorage * CourtStorage) GlobalDisputes.Storage unit).
Definition mechanism_at : BlockNumber → MarketDisputeMechanism → DisputeApi (MechanismStorage * CourtStorage) IdsPer RuntimeLedger :=
  court_mechanism example_mechanism.

Definition juror1 : AccountId := 4.
Definition juror2 : AccountId := 5.
Definition founding : CourtChain :=
  PredictionMarkets.mk_State (MarketCommons.mk_State ∅ None ∅)
    (mk_RuntimeLedger
       (mk_Ledger {[(Ztg, creator_id) := rich; (Ztg, oracle_id) := rich; (Ztg, disputor_id) := rich;
          (Ztg, juror1) := rich; (Ztg, juror2) := rich]} ∅) ∅)
    (∅, ∅, (CourtTypes.mk_Storage [] ∅ 0 ∅ ∅ 0 ∅ ∅ 0 0, [])) (GlobalDisputes.mk_Storage ∅ ∅ ∅ []) tt ∅ ∅ None ∅ ∅ ∅ [].
Definition pm_call (now : BlockNumber) (o : RuntimeOrigin) (c : Call) (s : CourtChain) : CourtChain :=
  (PredictionMarkets.dispatch (mechanism_at now) now (now * MILLISECS_PER_BLOCK) o c s).2.
Definition pm_block (now : BlockNumber) (s : CourtChain) : CourtChain :=
  PredictionMarkets.on_initialize (mechanism_at now) now (now * MILLISECS_PER_BLOCK) s.
Definition ct_call (now : BlockNumber) (c : CourtSteps.Call) (s : CourtChain) : CourtChain := (court_call now c s).2.

(** A market in court: two jurors join, the market closes, is reported and disputed. *)
Definition c1 : CourtChain := pm_call 10 (Signed creator_id) (create (Some MDM_Court)) founding.
Definition c2 : CourtChain := ct_call 20 (Call_join_court (Some juror1) (200 * BASE)) c1.
Definition c3 : CourtChain := ct_call 20 (Call_join_court (Some juror2) (200 * BASE)) c2.
Definition c4 : CourtChain := ct_call 100000 Hook_on_initialize c3.
Definition c5 : CourtChain := pm_block 100000 c4.
Definition c6 : CourtChain := pm_call 100001 (Signed oracle_id) (Call_report 0 (Categorical 1)) c5.
Definition c7 : CourtChain := pm_call 100002 (Signed disputor_id) (Call_dispute 0) c6.
Definition c8 : CourtChain := pm_block 100045 c7.
Definition st_of (id : MarketId) (s : CourtChain) : option MarketStatus := status <$> Markets (commons s) !! id.

Example court_run : (st_of 0 <$> [c1; c5; c6; c7; c8]) =
  [Some Active; Some Closed; Some Reported; Some Disputed; Some Resolved].
Proof. by vm_compute. Qed.

Lemma founding_inv : court_inv founding.
Proof.
  split; try done. split; [apply genesis_counter_inv|]. intros id m Hm. cbn in Hm. by rewrite lookup_empty in Hm.
Qed.
Abbreviation court_chain_step := (chain_step example_mechanism).
Definition step1 : court_chain_step founding c1 := chain_market example_mechanism 10 (10 * MILLISECS_PER_BLOCK)
  (Signed creator_id) (create (Some MDM_Court)) founding.
Definition step2 : court_chain_step c1 c2 :=
  chain_court example_mechanism 20 (Call_join_court (Some juror1) (200 * BASE)) c1 eq_refl.
Definition step3 : court_chain_step c2 c3 :=
  chain_court example_mechanism 20 (Call_join_court (Some juror2) (200 * BASE)) c2 eq_refl.
Definition step4 : court_chain_step c3 c4 := chain_court example_mechanism 100000 Hook_on_initialize c3 eq_refl.
Definition step5 : court_chain_step c4 c5 := chain_block example_mechanism 100000 (100000 * MILLISECS_PER_BLOCK) c4.
Definition step6 : court_chain_step c5 c6 := chain_market example_mechanism 100001 (100001 * MILLISECS_PER_BLOCK)
  (Signed oracle_id) (Call_report 0 (Categorical 1)) c5.
Definition step7 : court_chain_step c6 c7 := chain_market example_mechanism 100002 (100002 * MILLISECS_PER_BLOCK)
  (Signed disputor_id) (Call_dispute 0) c6.
Definition c7_reached : rtc court_chain_step founding c7 :=
  rtc_l _ _ _ _ step1 (rtc_l _ _ _ _ step2 (rtc_l _ _ _ _ step3 (rtc_l _ _ _ _ step4 (rtc_l _ _ _ _ step5
    (rtc_l _ _ _ _ step6 (rtc_once _ _ step7)))))).

(** The disputed market is dealt with: it is scheduled for the end of its court. *)
Lemma court_disputes_scheduled_witness :
  court_inv c7 ∧ st_of 0 c7 = Some Disputed ∧ scheduled 0 100045 c7 = 1.
Proof.
  split; [|split; [by vm_compute|by vm_compute]].
  apply (court_disputes_scheduled example_mechanism founding c7 c7_reached founding_inv).
Defined.

(** Its market, court and outcome in the block of the end. *)
Lemma court_end_resolves_witness :
  ∃ m', Markets (commons c8) !! 0 = Some m' ∧ status m' = Resolved ∧ is_Some (resolved_outcome m').
Proof.
  assert (court_inv c7) as Hinv
    by (apply (chain_inv example_mechanism founding c7 c7_reached founding_inv)).
  destruct (Markets (commons c7) !! 0) as [m|] eqn:Hm; [|by vm_compute in Hm].
  destruct (rounds (court_of c7) 0) as [rd|] eqn:Hrd; [|by vm_compute in Hrd].
  apply (court_end_resolves example_mechanism 100045 (100045 * MILLISECS_PER_BLOCK) 0 m 0 rd c7 c8 Hinv Hm).
  - split; vm_compute in Hm; by injection Hm as <-.
  - by vm_compute.
  - by vm_compute.
  - done.
  - vm_compute in Hrd. by injection Hrd as <-.
  - vm_compute in Hrd. by injection Hrd as <-.
  - by vm_compute.
Defined.
(** *** A global dispute that does not take over the schedule

    [start_global_dispute] means to take the market off the schedule of its court. But
    [on_global_dispute] removes the court first, so that [clear_auto_resolve] finds no block.
    When the appeal phase would have ended, and again at the end of the vote, the
    resolution of the market fails, since [exchange] finds no court, and with it the
    whole hook of the block: another market that should close then is never closed, and
    the disputed one is never resolved. *)
Definition second_market : Call :=
  Call_create_market Ztg 0 oracle_id (Block (mk_Range 0 100045)) (mk_Deadlines 0 BLOCKS_PER_HOUR MIN_DISPUTE_DURATION)
    [0x15; 0x30] Permissionless (MT_Categorical 3) (Some MDM_Authorized) Lmsr.
Definition to_court (s : CourtChain) : CourtChain :=
  pm_call 100002 (Signed disputor_id) (Call_dispute 0)
    (pm_call 100001 (Signed oracle_id) (Call_report 0 (Categorical 1))
      (pm_block 100000 (ct_call 100000 Hook_on_initialize
        (ct_call 20 (Call_join_court (Some juror2) (200 * BASE))
          (ct_call 20 (Call_join_court (Some juror1) (200 * BASE)) s))))).
Definition both : CourtChain := to_court (pm_call 11 (Signed creator_id) second_market c1).
Definition taken_over : CourtChain := pm_call 100040 (Signed creator_id) (Call_start_global_dispute 0) both.
Definition gd_of (s : CourtChain) : option GdStatus := gd_status <$> GlobalDisputesInfo (global_disputes s) !! 0.
Definition hook_at (now : BlockNumber) (s : CourtChain) : Res unit :=
  (initialize_block (mechanism_at now) now (now * MILLISECS_PER_BLOCK) s).1.

Example global_dispute_stays_scheduled :
  (* The dispute starts; its market is on the schedule twice. *)
  gd_of taken_over = Some (GdActive 100060 100200) ∧
  scheduled 0 100045 taken_over = 1 ∧ scheduled 0 100200 taken_over = 1 ∧
  (* Either block fails. *)
  hook_at 100045 taken_over = Err CT_CourtNotFound ∧ hook_at 100200 taken_over = Err CT_CourtNotFound ∧
  (* The other market is not closed, then or later. *)
  st_of 1 (pm_block 100045 taken_over) = Some Active ∧
  st_of 1 (pm_block 100046 (pm_block 100045 taken_over)) = Some Active ∧
  (* Without the global dispute it is closed, and the first one is resolved. *)
  (λ id, st_of id (pm_block 100045 both)) <$> [0; 1] = [Some Resolved; Some Closed].
Proof. by vm_compute. Qed.
End CourtMarketsExample.
