(* ===== verification/Styx.v ===== *)
(** * Styx

    [zrml/styx/src/lib.rs]: an account crosses once, burning an amount that a governing
    body sets. Debug assertions are not compiled in a release build, so that [cross]
    records the crossing whatever [slash] could take. *)
From S2P Require Import Prelude Types Errors Currencies Ledgers PredictionMarkets.

Inductive Event : Type :=
| AccountCrossed (who : AccountId) (amount : Balance)
| CrossingFeeChanged (amount : Balance).

(** The part of the native currency that only this pallet uses. *)
Class SlashableCurrency (L : Type) := {
  cur_can_slash : AccountId → Balance → L → bool;
}.
(** Documented behaviour of [can_slash] and [slash] of an account without reserves: what
    can be slashed is slashed, from the free balance. *)
Class SlashableLaws (L : Type) `{Currency L, ImbalanceCurrency L, SlashableCurrency L} := {
  cur_can_slash_spec x amt (l : L) :
    0 ≤ amt → cur_can_slash x amt l = true → amt ≤ cur_free_balance x l;
  cur_slash_free x amt (l l' : L) imbalance missing :
    0 ≤ amt ≤ cur_free_balance x l → cur_slash x amt l = (imbalance, missing, l') →
    missing = 0 ∧ ∀ z, cur_free_balance z l' = cur_free_balance z l - at_ x z amt;
}.

Definition DefaultBurnAmount : Balance := BASE * 200.

Record State (L : Type) : Type := mk_State {
  currency : L;
  Crossings : gmap AccountId unit;
  (** A value query with the default [DefaultBurnAmount]. *)
  BurnAmount : option Balance;
  events : list Event;
}.
Arguments mk_State {L} _ _ _ _.
Arguments currency {L} _.
Arguments Crossings {L} _.
Arguments BurnAmount {L} _.
Arguments events {L} _.

Definition burn_amount {L} (s : State L) : Balance := default DefaultBurnAmount (BurnAmount s).
Definition set_currency {L} (l : L) (s : State L) : State L :=
  mk_State l (Crossings s) (BurnAmount s) (events s).
Definition set_Crossings {L} (f : gmap AccountId unit → gmap AccountId unit) (s : State L) : State L :=
  mk_State (currency s) (f (Crossings s)) (BurnAmount s) (events s).
Definition set_BurnAmount {L} (b : Balance) (s : State L) : State L :=
  mk_State (currency s) (Crossings s) (Some b) (events s).
Definition deposit_event {L} (e : Event) : Store (State L) unit :=
  modify (λ s, mk_State (currency s) (Crossings s) (BurnAmount s) (e :: events s)).

Section Styx.
Context {L : Type} `{Currency L, !ImbalanceCurrency L, !SlashableCurrency L}.
(** [SetBurnAmountOrigin] of the runtime. *)
Context (SetBurnAmountOrigin : RuntimeOrigin → bool).
Abbreviation St := (State L).

Definition cross (origin : RuntimeOrigin) : Store St unit :=
  who ← lift (ensure_signed origin);
  crossed ← gets (λ s, bool_decide (is_Some (Crossings s !! who)));
  _ ← ensure (negb crossed) ST_HasAlreadyCrossed;
  amount ← gets burn_amount;
  can_slash ← gets (λ s, cur_can_slash who amount (currency s));
  _ ← ensure can_slash ST_FundDoesNotHaveEnoughFreeBalance;
  _ ← zoom currency set_currency (infallible (cur_slash who amount));
  _ ← modify (set_Crossings <[who := ()]>);
  deposit_event (AccountCrossed who amount).

Definition set_burn_amount (origin : RuntimeOrigin) (amount : Balance) : Store St unit :=
  _ ← ensure (SetBurnAmountOrigin origin) BadOrigin;
  _ ← modify (set_BurnAmount amount);
  deposit_event (CrossingFeeChanged amount).

(** ** Theorems *)
Lemma cross_twice who (s : St) :
  Crossings s !! who = Some () → cross (Signed who) s = (Err (Styx_Error ST_HasAlreadyCrossed), s).
Proof.
  intros Hin. unfold cross. rewrite lift_ok_bind with (a := who) by done. rewrite gets_bind.
  by rewrite ensure_false_bind by (by rewrite Hin).
Qed.

Context `{!SlashableLaws L}.

(** A crossing is granted exactly to an account that has not crossed and can be slashed;
    it burns the amount in force, takes it from nobody else, and is final. *)
Theorem cross_effect who (s : St) :
  0 ≤ burn_amount s →
  match cross (Signed who) s with
  | (Ok _, s') =>
      Crossings s !! who = None ∧ burn_amount s ≤ cur_free_balance who (currency s) ∧
      (∀ z, cur_free_balance z (currency s') =
        cur_free_balance z (currency s) - at_ who z (burn_amount s)) ∧
      Crossings s' = <[who := ()]> (Crossings s) ∧ BurnAmount s' = BurnAmount s ∧
      ∀ s'', Crossings s'' !! who = Some () →
        cross (Signed who) s'' = (Err (Styx_Error ST_HasAlreadyCrossed), s'')
  | (Err e, s') => s' = s ∧
      (e = ST_HasAlreadyCrossed ∧ is_Some (Crossings s !! who) ∨
       e = ST_FundDoesNotHaveEnoughFreeBalance ∧ cur_can_slash who (burn_amount s) (currency s) = false)
  end.
Proof.
  intros Hb. unfold cross at 1. rewrite lift_ok_bind with (a := who) by done. rewrite gets_bind.
  destruct (bool_decide_reflect (is_Some (Crossings s !! who))) as [Hc|Hc].
  { rewrite ensure_false_bind by done. split; [done|]. by left. }
  rewrite ensure_true_bind by done. rewrite !gets_bind.
  destruct (cur_can_slash who (burn_amount s) (currency s)) eqn:Hs.
  2:{ rewrite ensure_false_bind by done. split; [done|]. by right. }
  rewrite ensure_true_bind by done. unfold zoom, infallible, mbind, M_bind.
  destruct (cur_slash who (burn_amount s) (currency s)) as [[imbalance missing] l'] eqn:Hl. cbn.
  pose proof (cur_can_slash_spec who _ _ Hb Hs).
  destruct (cur_slash_free who _ _ _ _ _ (conj Hb ltac:(done)) Hl) as [_ Hf].
  split; [by apply eq_None_not_Some|split; [done|split; [done|split; [done|split; [done|]]]]].
  apply cross_twice.
Qed.
End Styx.

(** ** Example *)
Module StyxExample.

#[local] Instance native_slashable : SlashableCurrency NativeLedger := {
  cur_can_slash x amt l := amt <=? cur_free_balance x l;
}.
#[local] Instance native_slashable_laws : SlashableLaws NativeLedger.
Proof.
  split.
  - intros x amt l _ Hs. by apply Z.leb_le.
  - intros x amt l l' imbalance missing [Hamt Hle] Hs. injection Hs as _ <- <-.
    cbn [cur_free_balance NativeLedger_currency] in *. rewrite Z.min_l by done. split; [lia|].
    intros z. rewrite nat_free_move, at_opp by lia. lia.
Qed.

Definition traveller : AccountId := 5.
Definition shore : State NativeLedger :=
  mk_State (nat_move_free traveller (300 * BASE) empty_native_ledger) ∅ None [].

Lemma cross_effect_witness :
  is_ok (cross (Signed traveller) shore).1 = true ∧
  cur_free_balance traveller (currency (cross (Signed traveller) shore).2) = 100 * BASE.
Proof.
  pose proof (cross_effect traveller shore ltac:(done)) as He.
  destruct (cross (Signed traveller) shore) as [[u|e] s'] eqn:Hr; [|discriminate Hr].
  destruct He as (_ & _ & Hf & _). split; [done|]. cbn [snd]. rewrite Hf. by vm_compute.
Defined.
End StyxExample.
