(* ===== verification/LiquidityMining.v ===== *)
(** * Liquidity mining

    [zrml/liquidity-mining/src]: every block grants an amount to the accounts that
    bought shares in it. [add_shares] and [remove_shares] note the shares bought and
    sold in the block under construction; [on_finalize] divides the grant of the block
    among the markets traded in ([markets_incentives]) and the grant of a market among
    its buyers, and takes incentives back from sellers; [distribute_market_incentives]
    pays what the accounts of a market are owed when the market resolves. The steps of
    the pallet and the theorems on them are in [LiquidityMiningSteps]. *)
From S2P Require Import Prelude Types Errors Currencies MarketCommons PredictionMarkets.

(** ** [utils.rs]: parts per thousand, at the width [m] of the type of the values *)

Definition calculate_perthousand (m value total_value : Z) : option Z :=
  if total_value =? 0 then None
  else Some (Z.min u16_max (saturating_mul m value 1000 / total_value)).

Definition calculate_perthousand_value (m perthousand total_value : Z) : Z :=
  saturating_mul m total_value perthousand / 1000.

Definition calculate_average_blocks_of_a_time_period (r : Range) : BlockNumber :=
  Z.min u32_max (saturating_sub (range_end r) (range_start r) / MILLISECS_PER_BLOCK).

(** ** Storage *)

Record OwnedValuesParams : Type := mk_OwnedValuesParams {
  participated_blocks : BlockNumber;
  perpetual_incentives : Balance;
  total_incentives : Balance;
  total_shares : Balance;
}.
(** The value of an absent entry. *)
Definition default_values : OwnedValuesParams := mk_OwnedValuesParams 0 0 0 0.

Inductive Event : Type :=
| AddedIncentives (markets : Z)
| DistributedIncentives (amount : Balance) (accounts : Z)
| SubtractedIncentives (markets : Z).

(** The keys of the storage double maps. *)
Abbreviation Key := (MarketId * AccountId)%type.

Record Storage : Type := mk_Storage {
  BlockBoughtShares : gmap Key Balance;
  BlockSoldShares : gmap Key Balance;
  OwnedValues : gmap Key OwnedValuesParams;
  PerBlockIncentive : Balance;
  events : list Event;
}.
Definition empty_storage : Storage := mk_Storage ∅ ∅ ∅ 0 [].

Definition set_BlockBoughtShares (b : gmap Key Balance) (s : Storage) : Storage :=
  mk_Storage b (BlockSoldShares s) (OwnedValues s) (PerBlockIncentive s) (events s).
Definition set_BlockSoldShares (b : gmap Key Balance) (s : Storage) : Storage :=
  mk_Storage (BlockBoughtShares s) b (OwnedValues s) (PerBlockIncentive s) (events s).
Definition set_OwnedValues (o : gmap Key OwnedValuesParams) (s : Storage) : Storage :=
  mk_Storage (BlockBoughtShares s) (BlockSoldShares s) o (PerBlockIncentive s) (events s).
Definition set_PerBlockIncentive (p : Balance) (s : Storage) : Storage :=
  mk_Storage (BlockBoughtShares s) (BlockSoldShares s) (OwnedValues s) p (events s).
Definition add_event (e : Event) (s : Storage) : Storage :=
  mk_Storage (BlockBoughtShares s) (BlockSoldShares s) (OwnedValues s) (PerBlockIncentive s)
    (e :: events s).
(** An event about a count, when it is not zero. *)
Definition event_if_some (e : Z → Event) (n : nat) (s : Storage) : Storage :=
  if (0 <? n)%nat then add_event (e (Z.of_nat n)) s else s.

(** The part of the native currency that only this pallet uses. *)
Class MiningCurrency (L : Type) := {
  (** The account, the amount and the balance that would be left. *)
  cur_ensure_can_withdraw : AccountId → Balance → Balance → L → Res unit;
  cur_deposit_creating : AccountId → Balance → L → L;
}.

(** ** [owned_values_params.rs], [track_incentives_based_on_*.rs] *)

Definition PERPETUAL_PTD : Z := 1.

Definition bought_share_value (incentive total_bought_shares : Balance) : option Balance :=
  if total_bought_shares =? 0 then None else Some (incentive / total_bought_shares).

(** The weight of a market in the grant of a block. *)
Definition normalize_market (curr_block : BlockNumber) (now : Moment) (p : MarketPeriod) : Balance :=
  default 0
    match p with
    | Block r =>
        let total_value := saturating_sub (range_end r) (range_start r) in
        calculate_perthousand u64_max (saturating_sub (range_end r) curr_block) total_value
    | Timestamp r =>
        let total_value := saturating_sub (range_end r) (range_start r) in
        let value := saturating_sub now (range_start r) in
        calculate_perthousand u64_max value total_value
    end.

(** What a purchase of [bought_shares] adds to an entry. *)
Definition credit (share_value bought_shares : Balance) (v : OwnedValuesParams) : OwnedValuesParams :=
  let raw_incentives := saturating_mul u128_max share_value bought_shares in
  let perpetual := calculate_perthousand_value u128_max PERPETUAL_PTD raw_incentives in
  let incentives := saturating_sub raw_incentives perpetual in
  mk_OwnedValuesParams
    (saturating_add u64_max (participated_blocks v) 1)
    (saturating_add u128_max (perpetual_incentives v) perpetual)
    (saturating_add u128_max (total_incentives v) incentives)
    (saturating_add u128_max (total_shares v) bought_shares).

(** What a sale of [sold_shares] takes from an entry. *)
Definition debit (ptd sold_shares : Balance) (v : OwnedValuesParams) : OwnedValuesParams :=
  let balance_to_subtract := calculate_perthousand_value u128_max ptd (total_incentives v) in
  mk_OwnedValuesParams (participated_blocks v) (perpetual_incentives v)
    (saturating_sub (total_incentives v) balance_to_subtract)
    (saturating_sub (total_shares v) sold_shares).

(** [mutate] of a value query. *)
Definition mutate_values (k : Key) (f : OwnedValuesParams → OwnedValuesParams)
    (o : gmap Key OwnedValuesParams) : gmap Key OwnedValuesParams :=
  <[k := f (default default_values (o !! k))]> o.

Section LiquidityMining.
Context {C L : Type} `{MarketCommonsPalletApi C, Currency L, !MiningCurrency L}.
(** The order in which the entries of a double map are visited (by hashed keys). *)
Context (iteration_order : ∀ V, gmap Key V → list (Key * V)).
Context (pallet_account_id : AccountId).
Arguments iteration_order {V} _.

Definition iter_prefix {V} (id : MarketId) (m : gmap Key V) : list (AccountId * V) :=
  (λ p, (p.1.2, p.2)) <$> filter (λ p, p.1.1 = id) (iteration_order m).

(** [collect] into a [BTreeSet]. *)
Definition markets_periods (m : gmap Key Balance) : list MarketId :=
  merge_sort Z.le (elements (list_to_set ((λ p, p.1.1) <$> iteration_order m) : gset MarketId)).

Definition normalized_values (c : C) (curr_block : BlockNumber) (now : Moment) (ids : list MarketId)
    : list (MarketId * Balance) :=
  omap (λ id, match api_market id c with
              | Ok m => Some (id, normalize_market curr_block now (period m))
              | Err _ => None
              end) ids.
Definition saturated_total (l : list Balance) : Balance := foldl (saturating_add u128_max) 0 l.

Definition markets_incentives (c : C) (now : Moment) (per_block_incentives : Balance)
    (curr_block : BlockNumber) (s : Storage) : option (list (MarketId * Balance)) :=
  let values := normalized_values c curr_block now (markets_periods (BlockBoughtShares s)) in
  let normalized_total := saturated_total values.*2 in
  mapM (λ p, ptd ← calculate_perthousand u128_max p.2 normalized_total;
             mret (p.1, calculate_perthousand_value u128_max ptd per_block_incentives)) values.

(** The body of the loop over the markets. *)
Definition credit_market (p : MarketId * Balance) (s : Storage) : Storage :=
  let bought := iter_prefix p.1 (BlockBoughtShares s) in
  match bought_share_value p.2 (saturated_total bought.*2) with
  | None => s
  | Some share_value =>
      set_OwnedValues
        (foldl (λ o e, mutate_values (p.1, e.1) (credit share_value e.2) o) (OwnedValues s) bought) s
  end.

(** [TrackIncentivesBasedOnBoughtShares::exec] *)
Definition exec_bought (c : C) (now : Moment) (curr_block : BlockNumber) (s : Storage)
    : option (nat * Storage) :=
  market_incentives ← markets_incentives c now (PerBlockIncentive s) curr_block s;
  let s1 := foldl (λ s p, credit_market p s) s market_incentives in
  mret (length market_incentives, set_BlockBoughtShares ∅ s1).

(** The body of the loop over the sales; [None] is [continue]. *)
Definition debit_entry (e : Key * Balance) (o : gmap Key OwnedValuesParams)
    : option (gmap Key OwnedValuesParams) :=
  v ← o !! e.1;
  ptd ← calculate_perthousand u128_max e.2 (total_shares v);
  mret (mutate_values e.1 (debit ptd e.2) o).

(** [TrackIncentivesBasedOnSoldShares::exec] *)
Definition exec_sold (s : Storage) : nat * Storage :=
  let '(counter, o) :=
    foldl (λ acc e, match debit_entry e acc.2 with
                    | Some o => (S acc.1, o)
                    | None => acc
                    end) (0%nat, OwnedValues s) (iteration_order (BlockSoldShares s)) in
  (counter, set_BlockSoldShares ∅ (set_OwnedValues o s)).

(** [None] of the first part rolls back everything. *)
Definition on_finalize (c : C) (now : Moment) (block : BlockNumber) (s : Storage) : Storage :=
  match exec_bought c now block s with
  | None => s
  | Some (added_len, s1) =>
      let s2 := event_if_some AddedIncentives added_len s1 in
      let '(subtracted_len, s3) := exec_sold s2 in
      event_if_some SubtractedIncentives subtracted_len s3
  end.

(** ** Calls and interface *)

Definition set_per_block_distribution (origin : RuntimeOrigin) (per_block_distribution : Balance)
    : Store Storage unit :=
  _ ← ensure (match origin with Root => true | _ => false end) BadOrigin;
  modify (set_PerBlockIncentive per_block_distribution).

Definition genesis_build (initial_balance per_block_distribution : Balance) (s : Storage * L)
    : Storage * L :=
  (set_PerBlockIncentive per_block_distribution s.1,
   cur_deposit_creating pallet_account_id initial_balance s.2).

(** [mutate] of a value query of balances. *)
Definition add_to (k : Key) (shares : Balance) (m : gmap Key Balance) : gmap Key Balance :=
  <[k := saturating_add u128_max (default 0 (m !! k)) shares]> m.

Definition add_shares (account_id : AccountId) (market_id : MarketId) (shares : Balance) (s : Storage)
    : Storage :=
  set_BlockBoughtShares (add_to (market_id, account_id) shares (BlockBoughtShares s)) s.

Definition remove_shares (account_id : AccountId) (market_id : MarketId) (shares : Balance)
    (s : Storage) : Storage :=
  set_BlockSoldShares (add_to (market_id, account_id) shares (BlockSoldShares s)) s.

(** What is paid for an entry; nothing when the market is gone or has no length. *)
Definition final_incentives (c : C) (id : MarketId) (v : OwnedValuesParams) : option Balance :=
  match api_market id c with
  | Err _ => None
  | Ok m =>
      ptd ← match period m with
            | Block r =>
                calculate_perthousand u64_max (participated_blocks v)
                  (saturating_sub (range_end r) (range_start r))
            | Timestamp r =>
                calculate_perthousand u64_max (participated_blocks v)
                  (calculate_average_blocks_of_a_time_period r)
            end;
      mret (saturating_add u128_max
              (calculate_perthousand_value u128_max ptd (perpetual_incentives v))
              (total_incentives v))
  end.

(** The amounts to pay, and [drain_prefix]. *)
Definition payments (c : C) (id : MarketId) (s : Storage) : list (AccountId * Balance) :=
  omap (λ p, (λ b, (p.1, b)) <$> final_incentives c id p.2) (iter_prefix id (OwnedValues s)).
Definition drain_prefix (id : MarketId) (o : gmap Key OwnedValuesParams) : gmap Key OwnedValuesParams :=
  filter (λ p, p.1.1 ≠ id) o.

(** [map_err(|_err| e)] *)
Definition map_err {S A} (e : DispatchError) (m : Store S A) : Store S A := λ s,
  match m s with (Err _, s') => (Err e, s') | r => r end.

Definition distribute_market_incentives (c : C) (market_id : MarketId) : Store (Storage * L) unit :=
  values ← gets (λ s, payments c market_id s.1);
  _ ← modify (λ s, (set_OwnedValues (drain_prefix market_id (OwnedValues s.1)) s.1, s.2));
  let final_total_incentives := saturated_total values.*2 in
  can_withdraw ← gets (λ s, cur_ensure_can_withdraw pallet_account_id final_total_incentives
    (saturating_sub (cur_free_balance pallet_account_id s.2) final_total_incentives) s.2);
  _ ← map_err LM_FundDoesNotHaveEnoughBalance (lift can_withdraw);
  _ ← for_each (λ p, map_err LM_FundDoesNotHaveEnoughBalance
        (zoom snd (λ l s, (s.1, l)) (cur_transfer pallet_account_id p.1 p.2 AllowDeath))) values;
  modify (λ s, (add_event (DistributedIncentives final_total_incentives (Z.of_nat (length values))) s.1,
                s.2)).

(** What the prediction markets use when a market resolves. *)
#[export] Instance LiquidityMining_api : LiquidityMiningPalletApi C Storage L := {
  PredictionMarkets.distribute_market_incentives := distribute_market_incentives;
}.
End LiquidityMining.
