(* ===== verification/LiquidityMiningSteps.v ===== *)
(** * Liquidity mining: the budget

    The steps of [LiquidityMining] and what they do to the incentives the pallet owes:
    no block adds more than its grant, whatever saturates; what a distribution pays, and
    how far the payments of all runs can exceed the grants. *)
From S2P Require Import Prelude Types Errors Currencies Ledgers MarketCommons PredictionMarkets LiquidityMining.

(** ** Parts per thousand *)

Lemma perthousand_bounds m x t p :
  0 ≤ m → 0 ≤ x → 0 ≤ t → calculate_perthousand m x t = Some p →
  0 < t ∧ 0 ≤ p ≤ u16_max ∧ t * p ≤ 1000 * x.
Proof.
  intros Hm Hx Ht. unfold calculate_perthousand. destruct (Z.eqb_spec t 0) as [|Hne]; [done|].
  intros [= <-]. split; [lia|]. unfold saturating_mul.
  set (y := Z.min m (x * 1000)). assert (0 ≤ y) by lia.
  pose proof (Z.div_pos y t ltac:(done) ltac:(lia)). pose proof (Z.mul_div_le y t ltac:(lia)).
  split; [unfold u16_max in *; lia|]. nia.
Qed.

Lemma perthousand_value_bounds p x :
  0 ≤ p → 0 ≤ x →
  0 ≤ calculate_perthousand_value u128_max p x < u128_max ∧
  1000 * calculate_perthousand_value u128_max p x ≤ x * p.
Proof.
  intros Hp Hx. unfold calculate_perthousand_value, saturating_mul.
  set (y := Z.min u128_max (x * p)). assert (0 ≤ y ≤ u128_max) by (unfold u128_max in *; nia).
  pose proof (Z.mul_div_le y 1000 ltac:(lia)). pose proof (Z.div_pos y 1000 ltac:(lia) ltac:(lia)).
  split; [|lia]. split; [done|]. apply Z.div_lt_upper_bound; [lia|]. unfold u128_max in *. lia.
Qed.

(** A part of at most the whole. *)
Lemma perthousand_value_le p x :
  0 ≤ p ≤ 1000 → 0 ≤ x → calculate_perthousand_value u128_max p x ≤ x.
Proof. intros Hp Hx. destruct (perthousand_value_bounds p x); nia. Qed.

Lemma saturated_total_eq l : Forall (Z.le 0) l → saturated_total l = Z.min u128_max (zsum id l).
Proof.
  unfold saturated_total. intros Hl.
  assert (∀ acc, 0 ≤ acc ≤ u128_max →
    foldl (saturating_add u128_max) acc l = Z.min u128_max (acc + zsum id l)) as Hgen.
  { induction Hl as [|x l Hx Hl IH]; intros acc Hacc; cbn [foldl]; [cbn; lia|].
    rewrite zsum_cons. unfold id at 1. rewrite IH by (unfold saturating_add; lia).
    assert (0 ≤ zsum id l) by (apply zsum_nonneg; rewrite Forall_forall in Hl; exact Hl).
    unfold saturating_add. lia. }
  rewrite Hgen by done. f_equal.
Qed.

(** ** Well-formed entries and what they owe *)

Definition values_ok (v : OwnedValuesParams) : Prop :=
  0 ≤ participated_blocks v ∧ 0 ≤ perpetual_incentives v ∧ 0 ≤ total_incentives v ∧ 0 ≤ total_shares v.
Definition owed_entry (v : OwnedValuesParams) : Z := perpetual_incentives v + total_incentives v.
Definition owed_of (o : gmap Key OwnedValuesParams) : Z := map_sum (λ _ v, owed_entry v) o.
Abbreviation owed s := (owed_of (OwnedValues s)).

(** What an entry can cost, in thousandths, when the perpetual incentives are paid at
    most [cap] thousandths of their worth. *)
Definition cost_entry (cap : Z) (v : OwnedValuesParams) : Z :=
  1000 * total_incentives v + cap * perpetual_incentives v.
Definition cost_of (cap : Z) (o : gmap Key OwnedValuesParams) : Z := map_sum (λ _ v, cost_entry cap v) o.

Definition values_wf (o : gmap Key OwnedValuesParams) : Prop := ∀ k v, o !! k = Some v → values_ok v.
Definition amounts_wf (m : gmap Key Balance) : Prop := ∀ k n, m !! k = Some n → 0 ≤ n.
(** Every stored number is unsigned. *)
Definition storage_wf (s : Storage) : Prop :=
  amounts_wf (BlockBoughtShares s) ∧ amounts_wf (BlockSoldShares s) ∧ values_wf (OwnedValues s) ∧
  0 ≤ PerBlockIncentive s.

Lemma default_values_ok : values_ok default_values.
Proof. by repeat split. Qed.
Lemma lookup_values_ok o k : values_wf o → values_ok (default default_values (o !! k)).
Proof. intros Ho. destruct (o !! k) eqn:Hk; [by eapply Ho|apply default_values_ok]. Qed.

Lemma mutate_values_wf k f o :
  values_wf o → (∀ v, values_ok v → values_ok (f v)) → values_wf (mutate_values k f o).
Proof.
  intros Ho Hf k' v. unfold mutate_values. rewrite lookup_insert_Some.
  intros [[<- <-]|[_ Hk]]; [|by eapply Ho]. apply Hf. by apply lookup_values_ok.
Qed.
Lemma mutate_values_cost cap k f o :
  cost_of cap (mutate_values k f o) =
  cost_of cap o - cost_entry cap (default default_values (o !! k))
  + cost_entry cap (f (default default_values (o !! k))).
Proof.
  unfold cost_of, mutate_values. rewrite map_sum_update. f_equal. f_equal.
  unfold entry. destruct (o !! k); [done|]. cbn. unfold cost_entry. cbn. lia.
Qed.
Lemma owed_of_cost cap o : 1000 ≤ cap → values_wf o → 1000 * owed_of o ≤ cost_of cap o.
Proof.
  intros Hcap. unfold owed_of, cost_of. induction o as [|k v o Hk IH] using map_ind; intros Ho.
  - by rewrite !map_sum_empty.
  - rewrite !map_sum_insert by done. destruct (Ho k v) as (_ & ? & ? & _); [by rewrite lookup_insert_eq|].
    assert (values_wf o) as Ho'.
    { intros k' w Hk'. apply (Ho k'). rewrite lookup_insert_ne by (intros ->; congruence). done. }
    specialize (IH Ho'). unfold owed_entry at 1, cost_entry at 1. nia.
Qed.
Lemma mutate_values_lookup k f o k' :
  default default_values (mutate_values k f o !! k') =
  (if decide (k = k') then f else id) (default default_values (o !! k')).
Proof. unfold mutate_values. rewrite lookup_insert. destruct (decide (k = k')) as [->|]; done. Qed.

Lemma credit_ok sv n v : 0 ≤ sv → 0 ≤ n → values_ok v → values_ok (credit sv n v).
Proof.
  intros Hsv Hn (? & ? & ? & ?). unfold credit, values_ok. cbn. set (raw := saturating_mul _ _ _).
  assert (0 ≤ raw) by (unfold raw, saturating_mul, u128_max; nia).
  pose proof (perthousand_value_bounds PERPETUAL_PTD raw ltac:(done) ltac:(done)).
  unfold saturating_add, saturating_sub, u64_max, u128_max in *. lia.
Qed.
(** What a credit adds to the cost, in millionths: a thousandth of it is perpetual. *)
Definition rate (cap : Z) : Z := 999000 + cap.
Lemma credit_cost cap sv n v :
  1000 ≤ cap → 0 ≤ sv → 0 ≤ n → values_ok v →
  1000 * cost_entry cap (credit sv n v) ≤ 1000 * cost_entry cap v + rate cap * (sv * n).
Proof.
  intros Hcap Hsv Hn (? & ? & ? & ?). unfold cost_entry, credit, rate. cbn -[Z.mul]. set (raw := saturating_mul _ _ _).
  assert (0 ≤ raw ≤ sv * n) by (unfold raw, saturating_mul, u128_max; nia).
  destruct (perthousand_value_bounds PERPETUAL_PTD raw ltac:(done) ltac:(lia)) as [[Hp0 _] Hp1].
  unfold PERPETUAL_PTD in *. set (q := calculate_perthousand_value u128_max 1 raw) in *. clearbody q raw.
  unfold saturating_add, saturating_sub. rewrite Z.mul_1_r in Hp1.
  assert (Z.min u128_max (total_incentives v + Z.max 0 (raw - q)) ≤ total_incentives v + (raw - q)) as Ht by lia.
  assert (Z.min u128_max (perpetual_incentives v + q) ≤ perpetual_incentives v + q) as Hp by lia.
  transitivity (1000 * (1000 * (total_incentives v + (raw - q)) + cap * (perpetual_incentives v + q))); [nia|].
  assert ((cap - 1000) * (1000 * q) ≤ (cap - 1000) * raw) by nia.
  assert ((999000 + cap) * raw ≤ (999000 + cap) * (sv * n)) by nia. nia.
Qed.
Lemma debit_ok p n v : 0 ≤ p → values_ok v → values_ok (debit p n v).
Proof.
  intros Hp (? & ? & ? & ?). unfold debit, values_ok, saturating_sub. cbn. repeat split; lia.
Qed.
Lemma debit_cost cap p n v : 0 ≤ p → values_ok v → cost_entry cap (debit p n v) ≤ cost_entry cap v.
Proof.
  intros Hp (? & ? & Ht & ?). unfold cost_entry, debit, saturating_sub. cbn -[Z.mul].
  pose proof (perthousand_value_bounds p (total_incentives v) Hp Ht). lia.
Qed.

(** ** The credits of a block *)

(** A credit: the key, the value of a share and the shares bought. *)
Abbreviation Credit := (Key * (Balance * Balance))%type.
Definition apply_credits (l : list Credit) (o : gmap Key OwnedValuesParams) : gmap Key OwnedValuesParams :=
  foldl (λ o e, mutate_values e.1 (credit e.2.1 e.2.2) o) o l.
Definition credit_worth (e : Credit) : Z := e.2.1 * e.2.2.
Definition credit_wf (e : Credit) : Prop := 0 ≤ e.2.1 ∧ 0 ≤ e.2.2.

Lemma apply_credits_cost cap l o :
  1000 ≤ cap → Forall credit_wf l → values_wf o →
  values_wf (apply_credits l o) ∧
  1000 * cost_of cap (apply_credits l o) ≤ 1000 * cost_of cap o + rate cap * zsum credit_worth l.
Proof.
  intros Hcap Hl. revert o. induction Hl as [|e l [Hsv Hn] Hl IH]; intros o Ho; cbn [apply_credits foldl].
  - split; [done|]. cbn. lia.
  - destruct (IH (mutate_values e.1 (credit e.2.1 e.2.2) o)) as [Hw Hle].
    { apply mutate_values_wf; [done|]. intros v. by apply credit_ok. }
    split; [exact Hw|]. rewrite mutate_values_cost in Hle. rewrite zsum_cons. unfold credit_worth at 1.
    pose proof (credit_cost cap e.2.1 e.2.2 _ Hcap Hsv Hn (lookup_values_ok o e.1 Ho)).
    unfold apply_credits in Hle. lia.
Qed.

(** Every key credited at most once takes part in at most one block. *)
Lemma apply_credits_participated l o k :
  NoDup l.*1 →
  participated_blocks (default default_values (apply_credits l o !! k)) ≤
  participated_blocks (default default_values (o !! k)) + (if decide (k ∈ l.*1) then 1 else 0).
Proof.
  revert o. induction l as [|e l IH]; intros o Hnd; cbn [apply_credits foldl].
  - destruct (decide _); lia.
  - rewrite fmap_cons in Hnd |- *. apply NoDup_cons in Hnd as [Hne Hnd].
    specialize (IH (mutate_values e.1 (credit e.2.1 e.2.2) o) Hnd). unfold apply_credits in IH.
    rewrite mutate_values_lookup in IH. destruct (decide (e.1 = k)) as [<-|Hk].
    + rewrite (decide_False (P := e.1 ∈ l.*1)) in IH by done. cbn in IH.
      rewrite decide_True by (by left). unfold saturating_add in IH. lia.
    + destruct (decide (k ∈ l.*1)); [rewrite decide_True by (by right)|rewrite decide_False by set_solver];
        cbn [id] in IH; lia.
Qed.
Lemma apply_credits_keys l o k :
  is_Some (apply_credits l o !! k) → is_Some (o !! k) ∨ k ∈ l.*1.
Proof.
  revert o. induction l as [|e l IH]; intros o Hk; [by left|].
  destruct (IH _ Hk) as [Hs|Hin]; [|right; by right].
  unfold mutate_values in Hs. apply lookup_insert_is_Some in Hs as [<-|[_ Hs]]; [right; by left|by left].
Qed.

(** ** One block *)
Section Block.
Context {C L : Type} `{MarketCommonsPalletApi C}.
Context (iteration_order : ∀ V, gmap Key V → list (Key * V)).
(** Every entry is visited once. *)
Context (Horder : ∀ V (m : gmap Key V), iteration_order V m ≡ₚ map_to_list m).
Arguments iteration_order {V} _.
Implicit Types s : Storage.

Abbreviation iter_prefix := (iter_prefix (@iteration_order)).

Lemma elem_of_iter_prefix {V} (id : MarketId) (m : gmap Key V) (x : AccountId) (n : V) :
  (x, n) ∈ iter_prefix id m ↔ m !! (id, x) = Some n.
Proof.
  unfold LiquidityMining.iter_prefix. rewrite list_elem_of_fmap. split.
  - intros ([[id' x'] n'] & [= -> ->] & Hin). apply list_elem_of_filter in Hin as [Hid Hin].
    cbn in Hid. subst id'. rewrite Horder in Hin. by apply elem_of_map_to_list in Hin.
  - intros Hk. exists ((id, x), n). split; [done|]. apply list_elem_of_filter. split; [done|].
    rewrite Horder. by apply elem_of_map_to_list.
Qed.
Lemma iter_prefix_nodup {V} (id : MarketId) (m : gmap Key V) : NoDup (iter_prefix id m).*1.
Proof.
  unfold LiquidityMining.iter_prefix. rewrite <- list_fmap_compose.
  assert (NoDup (filter (λ p : Key * V, p.1.1 = id) (iteration_order m)).*1) as Hnd.
  { assert (NoDup (iteration_order m).*1) as Ho.
    { rewrite Horder. apply NoDup_fst_map_to_list. }
    revert Ho. generalize (iteration_order m). intros l. induction l as [|p l IH]; [done|].
    rewrite fmap_cons. intros [Hne Hnd]%NoDup_cons. rewrite filter_cons.
    destruct (decide _); [|by apply IH]. cbn. apply NoDup_cons. split; [|by apply IH].
    intros (q & Hq & Hin)%list_elem_of_fmap. apply list_elem_of_filter in Hin as [_ Hin].
    apply Hne. apply list_elem_of_fmap. eauto. }
  assert (∀ p, p ∈ filter (λ p : Key * V, p.1.1 = id) (iteration_order m) → p.1.1 = id) as Hid.
  { intros p Hp. by apply list_elem_of_filter in Hp as [? _]. }
  revert Hnd Hid. generalize (filter (λ p : Key * V, p.1.1 = id) (iteration_order m)). intros l.
  induction l as [|p l IH]; [constructor|]. rewrite fmap_cons. intros [Hne Hnd]%NoDup_cons Hid.
  apply NoDup_cons. split; [|apply IH; [done|set_solver]].
  intros (q & Hq & Hin)%list_elem_of_fmap. cbn in Hq. apply Hne. apply list_elem_of_fmap.
  exists q. split; [|done]. pose proof (Hid p ltac:(by left)). pose proof (Hid q ltac:(by right)).
  destruct p as [[] ?], q as [[] ?]. cbn in *. congruence.
Qed.

(** The credits of one market. *)
Definition market_credits (bought : gmap Key Balance) (p : MarketId * Balance) : list Credit :=
  match bought_share_value p.2 (saturated_total (iter_prefix p.1 bought).*2) with
  | None => []
  | Some sv => (λ e, ((p.1, e.1), (sv, e.2))) <$> iter_prefix p.1 bought
  end.

Lemma credit_market_credits p s :
  credit_market (@iteration_order) p s =
  set_OwnedValues (apply_credits (market_credits (BlockBoughtShares s) p) (OwnedValues s)) s.
Proof.
  unfold credit_market, market_credits. destruct (bought_share_value _ _) as [sv|].
  - f_equal. unfold apply_credits. generalize (OwnedValues s), (iter_prefix p.1 (BlockBoughtShares s)).
    intros o l. revert o. induction l as [|e l IH]; intros o; [done|]. rewrite fmap_cons. cbn [foldl]. apply IH.
  - by destruct s.
Qed.
Lemma credit_markets_credits mi s :
  foldl (λ s p, credit_market (@iteration_order) p s) s mi =
  set_OwnedValues (apply_credits (mi ≫= market_credits (BlockBoughtShares s)) (OwnedValues s)) s.
Proof.
  revert s. induction mi as [|p mi IH]; intros s; [by destruct s|].
  cbn [foldl]. rewrite IH, credit_market_credits, bind_cons. unfold apply_credits.
  rewrite foldl_app. by destruct s.
Qed.

Lemma market_credits_keys bought p k :
  k ∈ (market_credits bought p).*1 → k.1 = p.1 ∧ is_Some (bought !! k).
Proof.
  unfold market_credits. destruct (bought_share_value _ _) as [sv|]; [|by intros ?%elem_of_nil].
  rewrite <- list_fmap_compose. intros ([x n] & -> & Hin%elem_of_iter_prefix)%list_elem_of_fmap.
  cbn. eauto.
Qed.
Lemma credits_nodup bought mi :
  NoDup mi.*1 → NoDup (mi ≫= market_credits bought).*1.
Proof.
  induction mi as [|p mi IH]; [constructor|]. rewrite fmap_cons, bind_cons.
  intros [Hne Hnd]%NoDup_cons. rewrite fmap_app. apply NoDup_app. split; [|split; [|by apply IH]].
  - unfold market_credits. destruct (bought_share_value _ _) as [sv|]; [|constructor].
    pose proof (iter_prefix_nodup p.1 bought) as Hl. revert Hl. generalize (iter_prefix p.1 bought).
    intros l. induction l as [|e l IHl]; [constructor|]. rewrite !fmap_cons.
    intros [He Hl]%NoDup_cons. apply NoDup_cons. split; [|by apply IHl].
    rewrite <- list_fmap_compose. intros (q & Hq & Hin)%list_elem_of_fmap. cbn in Hq.
    apply He, list_elem_of_fmap. exists q. split; [congruence|done].
  - intros k [Hk _]%market_credits_keys Hin. apply list_elem_of_fmap in Hin as (e & -> & Hin).
    apply list_elem_of_bind in Hin as (q & Hin & Hq).
    assert (e.1 ∈ (market_credits bought q).*1) as He by (apply list_elem_of_fmap; eauto).
    apply market_credits_keys in He as [He _]. apply Hne, list_elem_of_fmap. exists q. split; congruence.
Qed.

(** A market never hands out more than its part of the grant. *)
Lemma market_credits_worth bought p :
  amounts_wf bought → 0 ≤ p.2 < u128_max →
  Forall credit_wf (market_credits bought p) ∧ zsum credit_worth (market_credits bought p) ≤ p.2.
Proof.
  intros Hb Hp. unfold market_credits, bought_share_value.
  assert (Forall (Z.le 0) (iter_prefix p.1 bought).*2) as Hl.
  { apply Forall_fmap, Forall_forall. intros [x n] Hin%elem_of_iter_prefix. by apply Hb in Hin. }
  rewrite saturated_total_eq by done. set (l := iter_prefix p.1 bought) in *.
  set (t := zsum id l.*2). assert (0 ≤ t).
  { apply zsum_nonneg. intros x Hx. rewrite Forall_forall in Hl. by apply Hl. }
  destruct (Z.eqb_spec (Z.min u128_max t) 0) as [Heq|Hne]; [split; [constructor|cbn; lia]|].
  cbv beta iota. set (sv := p.2 / Z.min u128_max t). assert (0 < Z.min u128_max t) by (unfold u128_max in *; lia).
  assert (0 ≤ sv) by (apply Z.div_pos; lia).
  assert (sv * t ≤ p.2) as Hsv.
  { destruct (Z.le_gt_cases t u128_max).
    - subst sv. rewrite (Z.min_r u128_max t) by done. pose proof (Z.mul_div_le p.2 t ltac:(lia)). lia.
    - assert (sv = 0) as ->; [|lia]. subst sv. rewrite Z.min_l by lia. apply Z.div_small. lia. }
  assert (zsum credit_worth ((λ e : AccountId * Balance, (p.1, e.1, (sv, e.2))) <$> l) = sv * t) as ->.
  { subst t. clearbody sv. clear -l. induction l as [|e l IH]; [cbn; lia|]. rewrite !fmap_cons.
    rewrite !zsum_cons, IH. unfold credit_worth, id. cbn in *. lia. }
  split; [|done]. apply Forall_forall. intros e (q & -> & Hq)%list_elem_of_fmap. split; [done|]. cbn.
  destruct q as [x n]. apply elem_of_iter_prefix in Hq. by apply Hb in Hq.
Qed.

(** ** The grant of a block *)

Lemma normalize_market_bounds b now p : 0 ≤ normalize_market b now p ≤ u16_max.
Proof.
  unfold normalize_market, saturating_sub. destruct p as [r|r].
  all: match goal with |- context [calculate_perthousand ?m ?x ?t] =>
    destruct (calculate_perthousand m x t) as [q|] eqn:Hq; cbn; [|unfold u16_max; lia];
    apply perthousand_bounds in Hq; unfold u64_max; lia end.
Qed.

Lemma normalized_values_keys (c : C) b now ids : ∀ p, p ∈ normalized_values c b now ids → p.1 ∈ ids.
Proof.
  intros p (i & Hi & Hp)%list_elem_of_omap. destruct (api_market i c); [|done]. by injection Hp as <-.
Qed.
Lemma normalized_values_nodup (c : C) b now ids : NoDup ids → NoDup (normalized_values c b now ids).*1.
Proof.
  unfold normalized_values. induction 1 as [|i ids Hi Hnd IH]; [constructor|]. cbn [omap list_omap].
  destruct (api_market i c) as [m|e] eqn:Hm; [|done]. rewrite fmap_cons. cbn [fst].
  apply NoDup_cons. split; [|done]. intros (p & -> & Hp)%list_elem_of_fmap.
  by apply (normalized_values_keys c b now) in Hp.
Qed.
Lemma markets_periods_nodup m : NoDup (markets_periods (@iteration_order) m).
Proof. unfold markets_periods. rewrite merge_sort_Permutation. apply NoDup_elements. Qed.

(** The parts that [markets_incentives] gives to the markets. *)
Lemma incentive_parts N grant (values incentives : list (MarketId * Balance)) :
  0 ≤ grant → N = Z.min u128_max (zsum snd values) → Forall (λ p, 0 ≤ p.2 ≤ u16_max) values →
  mapM (λ p, ptd ← calculate_perthousand u128_max p.2 N;
             mret (p.1, calculate_perthousand_value u128_max ptd grant)) values = Some incentives →
  incentives.*1 = values.*1 ∧ Forall (λ p, 0 ≤ p.2 < u128_max) incentives ∧ zsum snd incentives ≤ grant.
Proof.
  intros Hg HN Hv Hm.
  assert (0 ≤ zsum snd values) as Hsum.
  { apply zsum_nonneg. intros p Hp. rewrite Forall_forall in Hv. by apply Hv. }
  assert (0 ≤ N) by (unfold u128_max in *; lia).
  assert (incentives.*1 = values.*1 ∧ Forall (λ p, 0 ≤ p.2 < u128_max) incentives ∧
    ((incentives = [] ∧ values = []) ∨ 0 < N) ∧ N * zsum snd incentives ≤ grant * zsum snd values ∧
    (u128_max ≤ N → zsum snd incentives ≤ 0)) as (Hk & Hf & HN0 & Hle & Hmax).
  2:{ split; [done|split; [done|]]. destruct HN0 as [[-> ->]|HN0]; [cbn; lia|].
      destruct (Z.le_gt_cases u128_max (zsum snd values)); [rewrite Hmax; lia|].
      rewrite Z.min_r in HN by lia. subst N. nia. }
  clear HN Hsum. apply mapM_Some_1 in Hm. revert Hv. induction Hm as [|p q values incentives Hq Hm IH]; intros Hv.
  { split; [done|split; [constructor|split; [by left|cbn; lia]]]. }
  apply Forall_cons in Hv as [Hp Hv]. destruct (IH Hv) as (Hk & Hf & _ & Hle & Hmax).
  destruct (calculate_perthousand u128_max p.2 N) as [ptd|] eqn:Hptd; [|done].
  injection Hq as <-. pose proof Hptd as Hptd'. apply perthousand_bounds in Hptd as (HN0 & Hptd & Hpn); [|unfold u128_max; lia..].
  destruct (perthousand_value_bounds ptd grant) as [Hvb Hvle]; [lia|done|].
  split; [rewrite !fmap_cons; cbn; congruence|]. split; [constructor; [exact Hvb|done]|].
  split; [by right|]. rewrite !zsum_cons. cbn [snd]. split; [nia|].
  intros HNmax. specialize (Hmax HNmax). assert (ptd = 0) as ->.
  { unfold u128_max, u16_max in *. nia. }
  assert (calculate_perthousand_value u128_max 0 grant = 0) as ->; [|lia].
  unfold calculate_perthousand_value, saturating_mul. by rewrite Z.mul_0_r.
Qed.

(** What the purchases of a block do. *)
Lemma exec_bought_inv (c : C) now b s n s1 :
  exec_bought (@iteration_order) c now b s = Some (n, s1) →
  ∃ cr, s1 = set_BlockBoughtShares ∅ (set_OwnedValues (apply_credits cr (OwnedValues s)) s) ∧
    NoDup cr.*1 ∧ (∀ k, k ∈ cr.*1 → is_Some (BlockBoughtShares s !! k)) ∧
    (storage_wf s → Forall credit_wf cr ∧ zsum credit_worth cr ≤ PerBlockIncentive s).
Proof.
  unfold exec_bought. intros Hx. apply bind_Some in Hx as (mi & Hmi & Hx). injection Hx as _ <-.
  exists (mi ≫= market_credits (BlockBoughtShares s)). rewrite credit_markets_credits.
  unfold markets_incentives in Hmi. set (values := normalized_values _ _ _ _) in Hmi.
  assert (Forall (λ p, 0 ≤ p.2 ≤ u16_max) values) as Hv.
  { apply Forall_forall. intros p (i & _ & Hp)%list_elem_of_omap. destruct (api_market i c); [|done].
    injection Hp as <-. apply normalize_market_bounds. }
  assert (saturated_total values.*2 = Z.min u128_max (zsum snd values)) as HN.
  { rewrite saturated_total_eq.
    - f_equal. clear. induction values as [|p l IH]; [done|]. rewrite fmap_cons, !zsum_cons. by rewrite IH.
    - apply Forall_fmap. eapply Forall_impl; [exact Hv|]. intros p Hp. cbn in *. lia. }
  assert (mi.*1 = values.*1 ∧ (0 ≤ PerBlockIncentive s →
    Forall (λ p, 0 ≤ p.2 < u128_max) mi ∧ zsum snd mi ≤ PerBlockIncentive s)) as [Hk Hgrant].
  { split.
    - apply mapM_Some_1 in Hmi. clear -Hmi. induction Hmi as [|p q l k Hq Hm IH]; [done|].
      rewrite !fmap_cons, IH. f_equal. destruct (calculate_perthousand _ _ _); [|done]. by injection Hq as <-.
    - intros Hg. by destruct (incentive_parts _ _ values mi Hg HN Hv Hmi) as (_ & ? & ?). }
  split; [done|split; [|split]].
  - apply credits_nodup. rewrite Hk. apply normalized_values_nodup, markets_periods_nodup.
  - intros k Hin. apply list_elem_of_fmap in Hin as (e & -> & Hin).
    apply list_elem_of_bind in Hin as (q & Hin & _).
    apply (market_credits_keys _ q). apply list_elem_of_fmap. eauto.
  - intros (Hb & _ & _ & Hg). destruct (Hgrant Hg) as [Hf Hle]. clear Hk Hmi Hgrant.
    assert (Forall credit_wf (mi ≫= market_credits (BlockBoughtShares s)) ∧
      zsum credit_worth (mi ≫= market_credits (BlockBoughtShares s)) ≤ zsum snd mi) as [? ?]; [|split; [done|lia]].
    clear Hle. induction Hf as [|p mi Hp Hf [IH1 IH2]]; [by split; [constructor|cbn]|].
    destruct (market_credits_worth (BlockBoughtShares s) p Hb Hp). rewrite bind_cons, zsum_app, zsum_cons.
    split; [by apply Forall_app|lia].
Qed.

(** Two maps of entries with the same keys and the same participation. *)
Definition same_participation (o o' : gmap Key OwnedValuesParams) : Prop :=
  ∀ k, (is_Some (o' !! k) ↔ is_Some (o !! k)) ∧
    participated_blocks (default default_values (o' !! k)) =
    participated_blocks (default default_values (o !! k)).
#[local] Instance same_participation_preorder : PreOrder same_participation.
Proof.
  split; [done|]. intros o1 o2 o3 H12 H23 k. destruct (H12 k) as [? E1], (H23 k) as [? E2]. rewrite E2, E1. tauto.
Qed.

Lemma debit_entry_effect e o o' :
  0 ≤ e.2 → values_wf o → debit_entry e o = Some o' →
  values_wf o' ∧ (∀ cap, cost_of cap o' ≤ cost_of cap o) ∧ same_participation o o'.
Proof.
  intros He Ho Hd. unfold debit_entry in Hd. apply bind_Some in Hd as (v & Hv & Hd).
  apply bind_Some in Hd as (p & Hp & Hd). injection Hd as <-. pose proof (Ho _ _ Hv) as (_ & _ & _ & Hs).
  apply perthousand_bounds in Hp as (_ & Hp & _); [|unfold u128_max; lia..].
  split; [|split].
  - apply mutate_values_wf; [done|]. intros w. apply debit_ok. lia.
  - intros cap. rewrite mutate_values_cost, Hv. cbn [default].
    pose proof (debit_cost cap p e.2 v ltac:(lia) (Ho _ _ Hv)). cbn in *. lia.
  - intros k. rewrite mutate_values_lookup. destruct (decide (e.1 = k)) as [<-|Hne].
    + unfold mutate_values. rewrite lookup_insert_eq, Hv. split; [split; by eexists|done].
    + unfold mutate_values. by rewrite lookup_insert_ne.
Qed.

(** What the sales of a block do. *)
Lemma exec_sold_inv s n s' :
  storage_wf s → exec_sold (@iteration_order) s = (n, s') →
  ∃ o, s' = set_BlockSoldShares ∅ (set_OwnedValues o s) ∧
    values_wf o ∧ (∀ cap, cost_of cap o ≤ cost_of cap (OwnedValues s)) ∧ same_participation (OwnedValues s) o.
Proof.
  intros (_ & Hsold & Ho & _) Hx. unfold exec_sold in Hx.
  assert (Forall (λ e, 0 ≤ e.2) (iteration_order (BlockSoldShares s))) as Hl.
  { apply Forall_forall. intros [k m]. rewrite Horder, elem_of_map_to_list. apply Hsold. }
  revert Hx. generalize 0%nat. revert Hl Ho. generalize (iteration_order (BlockSoldShares s)) as l.
  generalize (OwnedValues s) as o. intros o l Hl. revert o.
  induction Hl as [|e l He Hl IH]; intros o Ho j Hx.
  - injection Hx as _ <-. exists o. split; [done|]. split; [done|]. split; [done|reflexivity].
  - cbn [foldl fst snd] in Hx. destruct (debit_entry e o) as [o1|] eqn:Hd; [|by apply (IH o Ho j)].
    destruct (debit_entry_effect e o o1 He Ho Hd) as (Ho1 & Hle & Hp).
    destruct (IH o1 Ho1 (S j) Hx) as (o2 & -> & Ho2 & Hle2 & Hp2). exists o2.
    split; [done|]. split; [done|]. split; [|by transitivity o1]. intros cap. etransitivity; [apply Hle2|apply Hle].
Qed.

(** A block either leaves the storage alone or hands out at most its grant. *)
Lemma on_finalize_inv (c : C) now b s :
  storage_wf s →
  let s' := on_finalize (@iteration_order) c now b s in
  s' = s ∨
  (BlockBoughtShares s' = ∅ ∧ BlockSoldShares s' = ∅ ∧ PerBlockIncentive s' = PerBlockIncentive s ∧
   values_wf (OwnedValues s') ∧
   (∀ cap, 1000 ≤ cap →
      1000 * cost_of cap (OwnedValues s') ≤ 1000 * cost_of cap (OwnedValues s) + rate cap * PerBlockIncentive s) ∧
   ∀ k, (is_Some (OwnedValues s' !! k) → is_Some (OwnedValues s !! k) ∨ is_Some (BlockBoughtShares s !! k)) ∧
     participated_blocks (default default_values (OwnedValues s' !! k)) ≤
     participated_blocks (default default_values (OwnedValues s !! k)) +
     (if decide (is_Some (BlockBoughtShares s !! k)) then 1 else 0)).
Proof.
  intros Hwf. pose proof Hwf as (Hb & Hsold & Ho & Hg). unfold on_finalize.
  destruct (exec_bought _ c now b s) as [[n s1]|] eqn:Hx; [|by left]. right.
  apply exec_bought_inv in Hx as (cr & -> & Hnd & Hin & Hcr). destruct (Hcr Hwf) as [Hcw Hle].
  assert (values_wf (apply_credits cr (OwnedValues s))) as Ho1 by (by apply (apply_credits_cost 1000)).
  set (s2 := event_if_some _ _ _).
  assert (BlockBoughtShares s2 = ∅ ∧ BlockSoldShares s2 = BlockSoldShares s ∧
    PerBlockIncentive s2 = PerBlockIncentive s ∧ OwnedValues s2 = apply_credits cr (OwnedValues s))
    as (E1 & E2 & E3 & E4).
  { subst s2. unfold event_if_some. by destruct (_ <? _)%nat. }
  destruct (exec_sold (@iteration_order) s2) as [m s3] eqn:Hs3.
  apply exec_sold_inv in Hs3 as (o & -> & Ho3 & Hle3 & Hp).
  2:{ unfold storage_wf. rewrite E1, E2, E3, E4. split; [intros k x; by rewrite lookup_empty|split; [done|split; done]]. }
  set (s4 := event_if_some _ _ _).
  assert (BlockBoughtShares s4 = ∅ ∧ BlockSoldShares s4 = ∅ ∧
    PerBlockIncentive s4 = PerBlockIncentive s ∧ OwnedValues s4 = o) as (-> & -> & -> & ->).
  { subst s4. unfold event_if_some. by destruct (_ <? _)%nat. }
  split; [done|split; [done|split; [done|split; [done|split]]]].
  { intros cap Hcap. rewrite E4 in Hle3. specialize (Hle3 cap).
    destruct (apply_credits_cost cap cr (OwnedValues s) Hcap Hcw Ho) as [_ Hle1].
    assert (rate cap * zsum credit_worth cr ≤ rate cap * PerBlockIncentive s) by (unfold rate; nia). lia. }
  intros k. destruct (Hp k) as [Hd Hq]. rewrite E4 in Hd, Hq. split.
  - intros [Hk|Hk]%Hd%apply_credits_keys; [by left|right; by apply Hin].
  - rewrite Hq. pose proof (apply_credits_participated cr (OwnedValues s) k Hnd) as Hpk.
    destruct (decide (k ∈ cr.*1)) as [Hk|]; [|destruct (decide _); lia].
    by rewrite decide_True by (by apply Hin).
Qed.
End Block.

(** ** Payments *)
Section Payments.
Context {C L : Type} `{MarketCommonsPalletApi C, Currency L, !CurrencyLaws L, !MiningCurrency L}.
Context (iteration_order : ∀ V, gmap Key V → list (Key * V)).
Context (Horder : ∀ V (m : gmap Key V), iteration_order V m ≡ₚ map_to_list m).
Context (pallet_account_id : AccountId).
Arguments iteration_order {V} _.
Abbreviation payments := (payments (@iteration_order)).
Abbreviation distribute := (distribute_market_incentives (@iteration_order) pallet_account_id).

Lemma zsum_permutation {A} (f : A → Z) l l' : l ≡ₚ l' → zsum f l = zsum f l'.
Proof. unfold zsum. induction 1; cbn in *; lia. Qed.
Lemma map_sum_zsum {V} (f : Key → V → Z) (m : gmap Key V) :
  map_sum f m = zsum (λ p, f p.1 p.2) (map_to_list m).
Proof.
  unfold map_sum. rewrite map_fold_foldr. unfold zsum. induction (map_to_list m) as [|[] l IH]; [done|].
  cbn. by rewrite IH.
Qed.

(** Draining a market takes out what its accounts are owed. *)
Lemma drain_prefix_cost cap (id : MarketId) o :
  cost_of cap o =
  zsum (λ p, cost_entry cap p.2) (iter_prefix (@iteration_order) id o) + cost_of cap (drain_prefix id o).
Proof.
  unfold cost_of, drain_prefix, iter_prefix. rewrite !map_sum_zsum, map_filter_alt.
  rewrite (zsum_permutation _ (map_to_list (list_to_map _)) (filter (λ p, p.1.1 ≠ id) (map_to_list o))).
  2:{ apply map_to_list_to_map. pose proof (NoDup_fst_map_to_list o) as Hnd. revert Hnd.
      generalize (map_to_list o). intros l. induction l as [|p l IH]; [done|]. rewrite fmap_cons, filter_cons.
      intros [Hne Hnd]%NoDup_cons. destruct (decide _); [|by apply IH]. rewrite fmap_cons. apply NoDup_cons.
      split; [|by apply IH]. intros (q & Hq & Hin)%list_elem_of_fmap.
      apply list_elem_of_filter in Hin as [_ Hin]. apply Hne, list_elem_of_fmap. eauto. }
  assert (∀ l : list (Key * OwnedValuesParams), zsum (λ p, cost_entry cap p.2) l =
    zsum (λ p, cost_entry cap p.2)
      ((λ p : Key * OwnedValuesParams, (p.1.2, p.2)) <$> filter (λ p, p.1.1 = id) l) +
    zsum (λ p, cost_entry cap p.2) (filter (λ p, p.1.1 ≠ id) l)) as Hsplit.
  { intros l. induction l as [|p l IH]; [done|]. rewrite !filter_cons, zsum_cons, IH.
    destruct (decide (p.1.1 = id)) as [Heq|Hne].
    - rewrite (decide_False (P := p.1.1 ≠ id)) by tauto. rewrite fmap_cons, zsum_cons. cbn. lia.
    - rewrite decide_True by done. rewrite zsum_cons. lia. }
  rewrite Hsplit. f_equal. apply zsum_permutation. by rewrite (Horder _ o).
Qed.

(** The blocks of a period, as [distribute_market_incentives] counts them. *)
Definition period_blocks (p : MarketPeriod) : Z :=
  match p with
  | Block r => saturating_sub (range_end r) (range_start r)
  | Timestamp r => calculate_average_blocks_of_a_time_period r
  end.
(** The perpetual incentives of the entry are paid at most [cap] thousandths. *)
Definition capped (cap : Z) (c : C) (id : MarketId) (v : OwnedValuesParams) : Prop :=
  ∀ m ptd, api_market id c = Ok m →
    calculate_perthousand u64_max (participated_blocks v) (period_blocks (period m)) = Some ptd → ptd ≤ cap.

Lemma period_blocks_nonneg p : 0 ≤ period_blocks p.
Proof.
  destruct p as [r|r]; unfold period_blocks, calculate_average_blocks_of_a_time_period, saturating_sub; [lia|].
  pose proof (Z.div_pos (Z.max 0 (range_end r - range_start r)) MILLISECS_PER_BLOCK ltac:(lia) ltac:(done)).
  unfold u32_max. lia.
Qed.
Lemma final_incentives_period c id v :
  final_incentives c id v =
  match api_market id c with
  | Err _ => None
  | Ok m =>
      ptd ← calculate_perthousand u64_max (participated_blocks v) (period_blocks (period m));
      mret (saturating_add u128_max (calculate_perthousand_value u128_max ptd (perpetual_incentives v))
              (total_incentives v))
  end.
Proof. unfold final_incentives. destruct (api_market id c) as [m|]; [|done]. by destruct (period m). Qed.

Lemma final_incentives_bounds c id v b :
  values_ok v → final_incentives c id v = Some b →
  0 ≤ b ∧ ∀ cap, capped cap c id v → 1000 * b ≤ cost_entry cap v.
Proof.
  intros (Hp & Hpi & Ht & _) Hb. rewrite final_incentives_period in Hb. unfold capped.
  destruct (api_market id c) as [m|]; [|done]. apply bind_Some in Hb as (ptd & Hptd & [= <-]).
  pose proof (period_blocks_nonneg (period m)). pose proof Hptd as Hptd'.
  apply perthousand_bounds in Hptd as (_ & Hptd & _); [|unfold u64_max; lia..].
  destruct (perthousand_value_bounds ptd (perpetual_incentives v)) as [Hv Hle]; [lia|done|].
  pose proof u128_max_pos. unfold saturating_add. split; [lia|].
  intros cap Hcap. specialize (Hcap m ptd eq_refl Hptd'). unfold cost_entry.
  assert (perpetual_incentives v * ptd ≤ cap * perpetual_incentives v) by nia. lia.
Qed.
(** A part per thousand is a number of sixteen bits. *)
Lemma always_capped c id v : values_ok v → capped u16_max c id v.
Proof.
  intros (Hp & _) m ptd _ Hptd. pose proof (period_blocks_nonneg (period m)).
  apply perthousand_bounds in Hptd as (_ & ? & _); [lia|unfold u64_max; lia..].
Qed.

(** Every account is paid once. *)
Lemma elem_of_payments c (id : MarketId) s x b :
  (x, b) ∈ payments c id s ↔ ∃ v, OwnedValues s !! (id, x) = Some v ∧ final_incentives c id v = Some b.
Proof.
  unfold LiquidityMining.payments. rewrite list_elem_of_omap. split.
  - intros ([y v] & Hin & Hb). apply (elem_of_iter_prefix _ Horder) in Hin. cbn in Hb.
    destruct (final_incentives c id v) as [b'|] eqn:Hf; [|done]. injection Hb as <- <-. eauto.
  - intros (v & Hv & Hf). exists (x, v). rewrite (elem_of_iter_prefix _ Horder). cbn. by rewrite Hf.
Qed.
Lemma payments_nodup c (id : MarketId) s : NoDup (payments c id s).*1.
Proof.
  unfold LiquidityMining.payments. pose proof (iter_prefix_nodup _ Horder id (OwnedValues s)) as Hnd.
  revert Hnd. generalize (iter_prefix (@iteration_order) id (OwnedValues s)). intros l.
  induction l as [|p l IH]; [constructor|]. rewrite fmap_cons. intros [Hne Hnd]%NoDup_cons. cbn [omap list_omap].
  destruct (final_incentives c id p.2) as [b|]; cbn; [|by apply IH]. apply NoDup_cons. split; [|by apply IH].
  intros (q & Hq & Hin)%list_elem_of_fmap. apply list_elem_of_omap in Hin as (w & Hw & Hq').
  destruct (final_incentives c id w.2); [|done]. injection Hq' as <-. cbn in Hq. apply Hne.
  apply list_elem_of_fmap. eauto.
Qed.
Lemma payments_cost cap c (id : MarketId) s :
  0 ≤ cap → values_wf (OwnedValues s) → (∀ x v, OwnedValues s !! (id, x) = Some v → capped cap c id v) →
  1000 * zsum snd (payments c id s) ≤ cost_of cap (OwnedValues s) - cost_of cap (drain_prefix id (OwnedValues s)).
Proof.
  intros Hcap0 Hwf Hin. rewrite (drain_prefix_cost cap id (OwnedValues s)).
  assert (1000 * zsum snd (payments c id s) ≤
    zsum (λ p, cost_entry cap p.2) (iter_prefix (@iteration_order) id (OwnedValues s))); [|lia].
  assert (∀ p, p ∈ iter_prefix (@iteration_order) id (OwnedValues s) →
    values_ok p.2 ∧ capped cap c id p.2) as Hl.
  { intros [x v] Hp%(elem_of_iter_prefix _ Horder). split; [by eapply Hwf|by eapply Hin]. }
  revert Hl. unfold LiquidityMining.payments. generalize (iter_prefix (@iteration_order) id (OwnedValues s)).
  intros l. induction l as [|p l IH]; intros Hl; [done|]. cbn [omap list_omap].
  destruct (Hl p ltac:(by left)) as [Hok Hw]. specialize (IH ltac:(intros; apply Hl; by right)).
  rewrite (zsum_cons _ p). destruct (final_incentives c id p.2) as [b|] eqn:Hb; cbn [fmap option_fmap option_map].
  - rewrite zsum_cons. cbn [snd]. destruct (final_incentives_bounds c id p.2 b Hok Hb) as [_ Hle].
    specialize (Hle cap Hw). lia.
  - destruct Hok as (_ & ? & ? & _). unfold cost_entry at 1. nia.
Qed.

Lemma map_err_ok {S A} e (m : Store S A) s x s' : map_err e m s = (Ok x, s') → m s = (Ok x, s').
Proof. unfold map_err. destruct (m s) as [[]]; naive_solver. Qed.

(** The transfers of a distribution. *)
Lemma pay_all values (st st' : Storage * L) u :
  Forall (λ p, 0 ≤ p.2) values →
  for_each (λ p, map_err LM_FundDoesNotHaveEnoughBalance
    (zoom snd (λ l s, (s.1, l)) (cur_transfer pallet_account_id p.1 p.2 AllowDeath))) values st = (Ok u, st') →
  st'.1 = st.1 ∧
  ∀ z, cur_free_balance z st'.2 = cur_free_balance z st.2 + zsum (λ p, at_ p.1 z p.2) values
         - at_ pallet_account_id z (zsum snd values).
Proof.
  intros Hv. revert st. induction Hv as [|p values Hp Hv IH]; intros st Hr; cbn [for_each] in Hr.
  - injection Hr as _ <-. split; [done|]. intros z. cbn. unfold at_. destruct (decide _); lia.
  - apply bind_ok_inv in Hr as (w & s1 & Hp1 & Hr). apply map_err_ok in Hp1. run_inv Hp1.
    apply cur_transfer_ok in Hp1 as (_ & Hf & _); [|done]. destruct (IH _ Hr) as [E Hz].
    split; [done|]. intros z. rewrite Hz, !zsum_cons. cbn [snd]. rewrite Hf.
    unfold at_. repeat destruct (decide _); lia.
Qed.

Lemma distribute_inv c id s l s' l' u :
  values_wf (OwnedValues s) → distribute c id (s, l) = (Ok u, (s', l')) →
  let values := payments c id s in
  s' = add_event (DistributedIncentives (saturated_total values.*2) (Z.of_nat (length values)))
         (set_OwnedValues (drain_prefix id (OwnedValues s)) s) ∧
  ∀ z, cur_free_balance z l' = cur_free_balance z l + zsum (λ p, at_ p.1 z p.2) values
         - at_ pallet_account_id z (zsum snd values).
Proof.
  intros Hwf Hr values. unfold distribute_market_incentives in Hr.
  assert (Forall (λ p, 0 ≤ p.2) values) as Hv.
  { apply Forall_forall. intros [x b] (v & Hk & Hb)%elem_of_payments.
    by eapply (final_incentives_bounds c id v b); [eapply Hwf|]. }
  rewrite gets_bind, modify_bind, gets_bind in Hr. cbn [fst snd] in Hr.
  apply bind_ok_inv in Hr as (w1 & s1 & Hc & Hr). apply map_err_ok in Hc. run_inv Hc.
  apply bind_ok_inv in Hr as (w2 & [s2 l2] & Hp & Hr). run_inv Hr.
  destruct (pay_all _ _ _ _ Hv Hp) as [E Hz]. cbn in E, Hz. subst s2. apply (f_equal fst) in Hr as E1. apply (f_equal snd) in Hr as E2. cbn in E1, E2. subst s' l'. by split.
Qed.
End Payments.

(** ** Runs *)
Section Runs.
Context {C L : Type} `{MarketCommonsPalletApi C, Currency L, !CurrencyLaws L, !MiningCurrency L}.
Context (iteration_order : ∀ V, gmap Key V → list (Key * V)).
Context (Horder : ∀ V (m : gmap Key V), iteration_order V m ≡ₚ map_to_list m).
Context (pallet_account_id : AccountId).
(** The markets, whose periods are fixed, and the clock. *)
Context (c : C) (clock : BlockNumber → Moment).

(** The block under construction, the storage and the currency, with the sum of the
    grants of the past blocks, the sum of what the pot has paid out, and the markets and
    blocks in which shares were bought. *)
Record World : Type := mk_World {
  block : BlockNumber;
  mining : Storage;
  funds : L;
  granted : Z;
  paid : Z;
  purchases : list (MarketId * BlockNumber);
}.

(** Shares are bought in any market, whether it exists and is open or not. *)
Inductive step : World → World → Prop :=
| step_add x id n w : 0 ≤ n →
    step w (mk_World (block w) (add_shares x id n (mining w)) (funds w) (granted w) (paid w)
              ((id, block w) :: purchases w))
| step_remove x id n w : 0 ≤ n →
    step w (mk_World (block w) (remove_shares x id n (mining w)) (funds w) (granted w) (paid w) (purchases w))
| step_grant o n w : 0 ≤ n →
    step w (mk_World (block w) (set_per_block_distribution o n (mining w)).2 (funds w) (granted w) (paid w)
              (purchases w))
| step_finalize w :
    step w (mk_World (block w + 1)
      (on_finalize iteration_order c (clock (block w)) (block w) (mining w)) (funds w)
      (granted w + PerBlockIncentive (mining w)) (paid w) (purchases w))
| step_distribute id w r s l :
    transactional (distribute_market_incentives iteration_order pallet_account_id c id) (mining w, funds w) =
      (r, (s, l)) →
    step w (mk_World (block w) s l (granted w)
      (paid w + (cur_free_balance pallet_account_id (funds w) - cur_free_balance pallet_account_id l))
      (purchases w))
| step_other w l : step w (mk_World (block w) (mining w) l (granted w) (paid w) (purchases w)).

Definition started (b : BlockNumber) (l : L) (grant : Balance) : World :=
  mk_World b (set_PerBlockIncentive grant empty_storage) l 0 0 [].

(** *** Purchases in open markets *)

(** [MinimumPeriod] of the timestamps: consecutive blocks are at least half a block apart. *)
Definition MinimumPeriodValue : Z := MILLISECS_PER_BLOCK / 2.
Definition paced : Prop := ∀ b, clock b + MinimumPeriodValue ≤ clock (b + 1).

(** Where a block is on the scale of a period, and how far the next one is from it. *)
Definition position (p : MarketPeriod) (b : BlockNumber) : Z :=
  match p with Block _ => b | Timestamp _ => clock b end.
Definition spacing (p : MarketPeriod) : Z :=
  match p with Block _ => 1 | Timestamp _ => MinimumPeriodValue end.
Definition period_range (p : MarketPeriod) : Range := match p with Block r | Timestamp r => r end.
Definition open_at (p : MarketPeriod) (b : BlockNumber) : Prop :=
  range_start (period_range p) ≤ position p b < range_end (period_range p).
(** The number of blocks of a period of time is a number of 32 bits. *)
Definition period_fits (p : MarketPeriod) : Prop :=
  match p with
  | Block _ => True
  | Timestamp r => (range_end r - range_start r) / MILLISECS_PER_BLOCK ≤ u32_max
  end.

(** The purchase was made while its market was open; the markets that are open for a
    number of blocks; those that are open for some time. *)
Definition in_open_market (p : MarketId * BlockNumber) : Prop :=
  ∃ m, api_market p.1 c = Ok m ∧ open_at (period m) p.2 ∧ period_fits (period m).
Definition in_block_market (p : MarketId * BlockNumber) : Prop :=
  ∃ m r, api_market p.1 c = Ok m ∧ period m = Block r ∧ range_start r ≤ p.2 < range_end r.

(** A purchase that is taken into account in blocks spaced as [spacing] says. *)
Definition spaced (p : MarketPeriod) : Prop := ∀ b, position p b + spacing p ≤ position p (b + 1).
Lemma spaced_later p b b' : spaced p → b < b' → position p b + spacing p ≤ position p b'.
Proof.
  intros Hs Hb. assert (0 ≤ spacing p) as Hp by (by destruct p).
  replace b' with (b + 1 + Z.of_nat (Z.to_nat (b' - b - 1))) by lia.
  induction (Z.to_nat (b' - b - 1)) as [|n IH]; [rewrite Z.add_0_r; apply Hs|].
  replace (b + 1 + Z.of_nat (S n)) with (b + 1 + Z.of_nat n + 1) by lia. pose proof (Hs (b + 1 + Z.of_nat n)). lia.
Qed.

(** What the perpetual incentives of a period are paid at most, in thousandths: the
    number of blocks of a period of time is rounded down, and the blocks are as dense
    as [MinimumPeriod] allows. *)
Definition cap_of (p : MarketPeriod) : Z := match p with Block _ => 1000 | Timestamp _ => 4000 end.
Definition counted (cap : Z) (p : MarketId * BlockNumber) : Prop :=
  ∃ m, api_market p.1 c = Ok m ∧ open_at (period m) p.2 ∧ period_fits (period m) ∧ spaced (period m) ∧
    cap_of (period m) ≤ cap.

Lemma participation_capped p n ptd cap :
  0 ≤ n → period_fits p → cap_of p ≤ cap →
  n ≤ 0 ∨ range_start (period_range p) + (n - 1) * spacing p < range_end (period_range p) →
  calculate_perthousand u64_max n (period_blocks p) = Some ptd → ptd ≤ cap.
Proof.
  intros Hn Hfit Hcap Hpart Hptd. pose proof (period_blocks_nonneg p).
  apply perthousand_bounds in Hptd as (Hpos & Hptd & Hle); [|unfold u64_max; lia..].
  assert (n ≤ (cap_of p / 1000) * period_blocks p) as Hcount.
  { assert (0 ≤ cap_of p / 1000) by (by destruct p). destruct Hpart as [?|Hpart]; [nia|].
    destruct p as [r|r]; cbn [period_range spacing period_blocks cap_of] in *; unfold saturating_sub in *;
      [change (1000 / 1000) with 1; lia|].
    unfold calculate_average_blocks_of_a_time_period, saturating_sub, MinimumPeriodValue, MILLISECS_PER_BLOCK in *.
    cbn [period_fits] in Hfit. set (len := range_end r - range_start r) in *.
    unfold MILLISECS_PER_BLOCK in Hfit. change (12000 / 2) with 6000 in Hpart. change (4000 / 1000) with 4.
    destruct (Z.le_gt_cases 0 len) as [Hlen|Hlen].
    - rewrite (Z.max_r 0 len) in * by done. rewrite Z.min_r in * by done.
      pose proof (Z.mul_succ_div_gt len 12000 ltac:(done)). lia.
    - rewrite (Z.max_l 0 len) in Hpos by lia. done. }
  destruct p; cbn [cap_of] in *; [change (1000 / 1000) with 1 in Hcount|change (4000 / 1000) with 4 in Hcount]; nia.
Qed.

(** An account took part in no more blocks than fit between the start of the market and
    the last block in which it took part, or will when its purchase is credited. *)
Definition participation_ok (cap : Z) (w : World) : Prop :=
  ∀ k, is_Some (OwnedValues (mining w) !! k) ∨ is_Some (BlockBoughtShares (mining w) !! k) →
  ∃ m, api_market k.1 c = Ok m ∧ period_fits (period m) ∧ spaced (period m) ∧ cap_of (period m) ≤ cap ∧
    let pending := if decide (is_Some (BlockBoughtShares (mining w) !! k)) then 1 else 0 in
    let n := participated_blocks (default default_values (OwnedValues (mining w) !! k)) + pending in
    n ≤ 0 ∨ ∃ b, b < block w + pending ∧
      range_start (period_range (period m)) + (n - 1) * spacing (period m) ≤ position (period m) b
        < range_end (period_range (period m)).

Definition mining_inv (cap : Z) (w : World) : Prop :=
  storage_wf (mining w) ∧ (cap = u16_max ∨ participation_ok cap w) ∧
  1000 * cost_of cap (OwnedValues (mining w)) + 1000000 * paid w ≤ rate cap * granted w.

Lemma add_to_wf k n m : 0 ≤ n → amounts_wf m → amounts_wf (add_to k n m).
Proof.
  intros Hn Hm k' x. unfold add_to. rewrite lookup_insert_Some. intros [[_ <-]|[_ Hk]]; [|by eapply Hm].
  assert (0 ≤ default 0 (m !! k)) by (destruct (m !! k) eqn:Hk; [by eapply Hm|done]).
  pose proof u128_max_pos. unfold saturating_add. lia.
Qed.

Lemma step_add_inv cap x (id : MarketId) n w :
  0 ≤ n → cap = u16_max ∨ counted cap (id, block w) → mining_inv cap w →
  mining_inv cap (mk_World (block w) (add_shares x id n (mining w)) (funds w) (granted w) (paid w)
    ((id, block w) :: purchases w)).
Proof.
  intros Hn Hor (Hwf & Hp & Ho). split; [|split; [|done]].
  { destruct Hwf as (H1 & H2). split; [|exact H2]. by apply add_to_wf. }
  destruct Hor as [?|(m & Hm & Hopen & Hfit & Hsp & Hcap)]; [by left|]. destruct Hp as [?|Hp]; [by left|]. right.
  intros k. cbn -[Z.mul]. unfold add_to. destruct (decide (k = (id, x))) as [->|Hne].
  - intros _. rewrite lookup_insert_eq. exists m. do 4 (split; [done|]). rewrite decide_True by by eexists.
    destruct (decide (is_Some (BlockBoughtShares (mining w) !! (id, x)))) as [Hb|Hb].
    + destruct (Hp (id, x) (or_intror Hb)) as (m' & Hm' & _ & _ & _ & Hk). cbn [fst] in Hm', Hm.
      assert (m' = m) as -> by congruence. cbv zeta in Hk. rewrite decide_True in Hk by done. exact Hk.
    + right. exists (block w). split; [lia|]. split; [|apply Hopen].
      destruct (OwnedValues (mining w) !! (id, x)) as [v|] eqn:Hv.
      * destruct (Hp (id, x)) as (m' & Hm' & _ & _ & _ & Hk); [left; by eexists|]. cbn [fst] in Hm', Hm.
        assert (m' = m) as -> by congruence. cbv zeta in Hk. rewrite decide_False, Hv in Hk by done.
        cbn [default] in *. destruct Hopen as [Hopen _]. cbn [snd] in Hopen.
        assert (0 ≤ spacing (period m)) by (by destruct (period m)). destruct Hk as [Hk|(b & Hb' & Hk & _)]; [nia|].
        pose proof (spaced_later (period m) b (block w) Hsp ltac:(lia)). lia.
      * cbn. destruct Hopen as [Hopen _]. cbn [snd] in Hopen. lia.
  - rewrite lookup_insert_ne by done. apply Hp.
Qed.

Lemma step_finalize_inv cap w :
  1000 ≤ cap → mining_inv cap w →
  mining_inv cap (mk_World (block w + 1)
    (on_finalize iteration_order c (clock (block w)) (block w) (mining w)) (funds w)
    (granted w + PerBlockIncentive (mining w)) (paid w) (purchases w)).
Proof.
  intros Hcap (Hwf & Hp & Ho). pose proof Hwf as (_ & _ & _ & Hg).
  destruct (on_finalize_inv iteration_order Horder c (clock (block w)) (block w) (mining w) Hwf)
    as [->|(E1 & E2 & E3 & Hvw & Hle & Hk)].
  - split; [done|split; [|cbn -[Z.mul]; unfold rate in *; nia]]. destruct Hp as [?|Hp]; [by left|right].
    intros k Hin. destruct (Hp k Hin) as (m & ? & ? & ? & ? & Hn). exists m. do 4 (split; [done|]).
    cbv zeta in Hn |- *. cbn [block mining] in *. destruct Hn as [?|(b & ? & ?)]; [by left|right].
    exists b. split; [lia|done].
  - split; [|split; [|cbn -[Z.mul]; specialize (Hle cap Hcap); lia]].
    + cbn. unfold storage_wf. rewrite E1, E2, E3.
      split; [|split; [|done]]; intros k x; by rewrite lookup_empty.
    + destruct Hp as [?|Hp]; [by left|right]. intros k. cbn [mining block]. rewrite E1, lookup_empty.
      intros [Hin|[? [=]]]. destruct (Hk k) as [Hdom Hpk]. destruct (Hp k (Hdom Hin)) as (m & ? & ? & ? & ? & Hn).
      exists m. do 4 (split; [done|]). rewrite decide_False by (by intros [? [=]]). cbv zeta in Hn |- *.
      assert (0 ≤ spacing (period m)) by (by destruct (period m)). rewrite Z.add_0_r.
      destruct (decide (is_Some (BlockBoughtShares (mining w) !! k))); (destruct Hn as [?|(b & ? & ? & ?)];
        [left; lia|right; exists b; split; [lia|]; split; [nia|done]]).
Qed.

Lemma step_distribute_inv cap (id : MarketId) w r s l :
  1000 ≤ cap →
  transactional (distribute_market_incentives iteration_order pallet_account_id c id) (mining w, funds w) =
    (r, (s, l)) →
  mining_inv cap w →
  mining_inv cap (mk_World (block w) s l (granted w)
    (paid w + (cur_free_balance pallet_account_id (funds w) - cur_free_balance pallet_account_id l))
    (purchases w)).
Proof.
  intros Hcap Hr (Hwf & Hp & Ho). destruct r as [u|e].
  2:{ apply transactional_err in Hr. injection Hr as -> ->. split; [done|split; [done|cbn -[Z.mul]; lia]]. }
  apply transactional_ok_inv in Hr. pose proof Hwf as (Hb & Hs & Hv & Hg).
  apply (distribute_inv _ Horder) in Hr as [-> Hz]; [|done].
  assert (∀ k v, drain_prefix id (OwnedValues (mining w)) !! k = Some v → OwnedValues (mining w) !! k = Some v) as Hsub.
  { intros k v Hk. unfold drain_prefix in Hk. by apply map_lookup_filter_Some in Hk as [? _]. }
  split; [|split].
  - split; [done|split; [done|split; [|done]]]. intros k v Hk. by eapply Hv, Hsub.
  - destruct Hp as [?|Hp]; [by left|right]. intros k. cbn [mining block add_event set_OwnedValues OwnedValues BlockBoughtShares].
    intros Hin. destruct (Hp k) as (m & Hm & Hfit & Hsp & Hcm & Hn).
    { destruct Hin as [[v Hk]|]; [left; exists v; by apply Hsub|by right]. }
    exists m. do 4 (split; [done|]). cbv zeta in Hn |- *.
    destruct (drain_prefix id (OwnedValues (mining w)) !! k) as [v|] eqn:Hk.
    + by rewrite (Hsub k v Hk) in Hn.
    + assert (0 ≤ participated_blocks (default default_values (OwnedValues (mining w) !! k)))
        by (apply lookup_values_ok; done). cbn [default participated_blocks default_values].
      assert (0 ≤ spacing (period m)) by (by destruct (period m)).
      destruct Hn as [?|(b & ? & ? & ?)]; [left; lia|right]. exists b. split; [done|]. split; [nia|done].
  - cbn -[Z.mul]. assert (1000 * zsum snd (payments iteration_order c id (mining w)) ≤
      cost_of cap (OwnedValues (mining w)) - cost_of cap (drain_prefix id (OwnedValues (mining w)))) as Hle.
    { apply payments_cost; [done|lia|done|]. intros x v Hk. destruct Hp as [->|Hp]; [by apply always_capped, (Hv _ _ Hk)|].
      destruct (Hp (id, x)) as (m & Hm & Hfit & Hsp & Hcm & Hn); [left; by eexists|].
      intros m' ptd Hm' Hptd. cbn [fst] in Hm. assert (m' = m) as -> by congruence.
      pose proof (Hv _ _ Hk) as (Hv0 & _). cbv zeta in Hn. rewrite Hk in Hn.
      change (default default_values (Some v)) with v in Hn.
      apply (participation_capped _ _ ptd cap Hv0 Hfit Hcm); [|done].
      assert (0 ≤ spacing (period m)) by (by destruct (period m)).
      revert Hn. destruct (decide _); (intros [?|(b & ? & ? & ?)]; [left; lia|right; nia]). }
    rewrite Hz, at_eq. assert (0 ≤ zsum (λ p, at_ p.1 pallet_account_id p.2)
      (payments iteration_order c id (mining w))); [|lia].
    apply zsum_nonneg. intros [x b] (v & Hk & Hf)%(elem_of_payments _ Horder). apply at_nonneg.
    by eapply (final_incentives_bounds c id v b); [eapply Hv|].
Qed.

Lemma step_inv cap w w' :
  1000 ≤ cap → step w w' → cap = u16_max ∨ Forall (counted cap) (purchases w') → mining_inv cap w → mining_inv cap w'.
Proof.
  intros Hcap [x id n w1 Hn|x id n w1 Hn|o n w1 Hn|w1|id w1 r s l Hr|w1 l] Hall Hw.
  - apply step_add_inv; [done| |done]. destruct Hall as [?|Hall]; [by left|right]. by apply Forall_cons in Hall as [? _].
  - destruct Hw as ((H1 & H2 & H3) & Hp & Ho). split; [|by split].
    split; [done|split; [|done]]. by apply add_to_wf.
  - destruct Hw as ((H1 & H2 & H3 & H4) & Hp & Ho). destruct o; by repeat (split; [done|]).
  - by apply step_finalize_inv.
  - by eapply step_distribute_inv.
  - done.
Qed.

Lemma started_inv cap b l grant : 0 ≤ grant → mining_inv cap (started b l grant).
Proof.
  intros Hg. split; [|split; [|cbn -[Z.mul]; unfold cost_of; rewrite map_sum_empty; lia]].
  - split; [|split; [|split; [|done]]]; intros k v Hk; discriminate Hk.
  - right. intros k [[v Hk]|[v Hk]]; discriminate Hk.
Qed.

Lemma step_purchases w w' : step w w' → ∃ l, purchases w' = l ++ purchases w.
Proof. intros [x id n w1| | | | |]; [by exists [(id, block w1)]|by exists []..]. Qed.

Lemma run_inv cap b l grant w :
  1000 ≤ cap → 0 ≤ grant → rtc step (started b l grant) w →
  cap = u16_max ∨ Forall (counted cap) (purchases w) →
  1000000 * (owed (mining w) + paid w) ≤ rate cap * granted w.
Proof.
  intros Hcap Hg Hr Hall. assert (mining_inv cap w) as ((_ & _ & Hv & _) & _ & Hle).
  { revert w Hr Hall. refine (rtc_ind_r _ _ _ _); [intros _; by apply started_inv|].
    intros w1 w2 _ Hs IH Hall. apply (step_inv cap w1); [done..|]. apply IH.
    destruct Hall as [?|Hall]; [by left|right].
    destruct (step_purchases _ _ Hs) as [k Hk]. rewrite Hk in Hall. by apply Forall_app in Hall as [_ ?]. }
  pose proof (owed_of_cost cap _ Hcap Hv). lia.
Qed.

End Runs.

(** ** Example *)
Module LiquidityMiningExample.

#[local] Instance native_mining : MiningCurrency NativeLedger := {
  cur_ensure_can_withdraw x amt left_over l := Ok tt;
  cur_deposit_creating := nat_move_free;
}.
Definition visit V (m : gmap Key V) : list (Key * V) := map_to_list m.
Lemma visit_order V (m : gmap Key V) : visit V m ≡ₚ map_to_list m.
Proof. done. Qed.

Definition pot : AccountId := 77.
(** Market 0 lasts from block 0 to block 10, market 1 from 6000 to 29999 milliseconds. *)
Definition markets : MarketCommons.State :=
  let timed := mk_Market Ztg 9 Permissionless 0 9 [] (MT_Categorical 2) (Timestamp (mk_Range 6000 29999))
    (mk_Deadlines 1 1 1) Lmsr Active None None None MarketBonds_default None in
  snd (push_market timed (snd (push_market example_market genesis))).
Definition rich : NativeLedger := nat_move_free pot 100000 empty_native_ledger.
Definition clock (b : BlockNumber) : Moment := b * MILLISECS_PER_BLOCK.

Abbreviation finalize := (on_finalize visit markets).
Abbreviation settle id := (transactional (distribute_market_incentives visit pot markets id)).

(** Two accounts buy one and three shares of market 0 in block 1, the second sells one
    in block 2, and the market is settled. *)
Definition start : World := started 1 rich 4000.
Definition bought : Storage := add_shares 21 0 3 (add_shares 20 0 1 (mining start)).
Definition after_block_1 : Storage := finalize (clock 1) 1 bought.
Definition after_block_2 : Storage := finalize (clock 2) 2 (remove_shares 21 0 1 after_block_1).
Definition settled : result DispatchError unit * (Storage * NativeLedger) := settle 0 (after_block_2, rich).
Definition finish : World :=
  mk_World 3 settled.2.1 settled.2.2 8000
    (0 + (cur_free_balance pot rich - cur_free_balance pot settled.2.2)) [(0, 1); (0, 1)].

(** In market 1 one account buys a share in each of the blocks 1 and 2. The pallet takes
    the period for one block. *)
Definition timed_1 : Storage := finalize (clock 1) 1 (add_shares 20 1 1 (mining start)).
Definition timed_2 : Storage := finalize (clock 2) 2 (add_shares 20 1 1 timed_1).
Definition timed_settled : result DispatchError unit * (Storage * NativeLedger) := settle 1 (timed_2, rich).
Definition timed_finish : World :=
  mk_World 3 timed_settled.2.1 timed_settled.2.2 8000
    (0 + (cur_free_balance pot rich - cur_free_balance pot timed_settled.2.2)) [(1, 2); (1, 1)].

(** Perpetual incentives of 8 were paid twice. *)
Example timed_market_overpays :
  owed timed_2 = 8000 ∧ owed (mining timed_finish) = 0 ∧ paid timed_finish = 8008 ∧ granted timed_finish = 8000.
Proof. by vm_compute. Qed.


(** A market with a period of time counts the more the longer it has been open, not the
    more time remains as for one with a period of blocks. *)
Lemma timed_market_counts_elapsed :
  normalize_market 0 0 (Block (mk_Range 0 10)) = 1000 ∧ normalize_market 9 0 (Block (mk_Range 0 10)) = 100 ∧
  normalize_market 0 0 (Timestamp (mk_Range 0 12000)) = 0 ∧
  normalize_market 0 10800 (Timestamp (mk_Range 0 12000)) = 900.
Proof. by vm_compute. Qed.
End LiquidityMiningExample.
