(* ===== verification/LiquidityMiningBlock.v ===== *)
(** * Liquidity mining: the end of a block

    When the end of a block takes effect, and what it then does to every entry. The
    hook of [LiquidityMining] runs over storage in the order of hashed keys, market by
    market, crediting as it goes; the theorem says that all this amounts to a function
    of each entry alone, which does not depend on that order. *)
From S2P Require Import Prelude Types Errors Currencies Ledgers MarketCommons PredictionMarkets LiquidityMining.
From S2P Require Import LiquidityMiningSteps.

(** ** When a block is rolled back *)
Section Rollback.
Context {C : Type} `{MarketCommonsPalletApi C}.
Context (iteration_order : ∀ V, gmap Key V → list (Key * V)).
Context (Horder : ∀ V (m : gmap Key V), iteration_order V m ≡ₚ map_to_list m).

Lemma elem_of_markets_periods m (id : MarketId) :
  id ∈ markets_periods iteration_order m ↔ ∃ x n, m !! (id, x) = Some n.
Proof.
  unfold markets_periods. rewrite merge_sort_Permutation, elem_of_elements, elem_of_list_to_set, list_elem_of_fmap.
  split.
  - intros ([[i x] n] & -> & Hin). rewrite Horder in Hin. apply elem_of_map_to_list in Hin. eauto.
  - intros (x & n & Hn). exists ((id, x), n). split; [done|]. rewrite Horder. by apply elem_of_map_to_list.
Qed.

(** Some traded market exists, and none that exists has a part in the grant. *)
Definition no_market_counts (c : C) (now : Moment) (b : BlockNumber) (s : Storage) : Prop :=
  (∃ k n m, BlockBoughtShares s !! k = Some n ∧ api_market k.1 c = Ok m) ∧
  (∀ k n m, BlockBoughtShares s !! k = Some n → api_market k.1 c = Ok m →
    normalize_market b now (period m) = 0).

Lemma elem_of_normalized_values (c : C) now b s p :
  p ∈ normalized_values c b now (markets_periods iteration_order (BlockBoughtShares s)) ↔
  ∃ x n m, BlockBoughtShares s !! (p.1, x) = Some n ∧ api_market p.1 c = Ok m ∧
    p.2 = normalize_market b now (period m).
Proof.
  unfold normalized_values. rewrite list_elem_of_omap. split.
  - intros (i & (x & n & Hn)%elem_of_markets_periods & Hp). destruct (api_market i c) as [m|] eqn:Hm; [|done].
    injection Hp as <-. eauto 10.
  - intros (x & n & m & Hn & Hm & Hp). exists p.1. rewrite elem_of_markets_periods, Hm, <- Hp.
    split; [eauto|]. by destruct p.
Qed.

Lemma markets_incentives_none (c : C) now b s :
  markets_incentives iteration_order c now (PerBlockIncentive s) b s = None ↔ no_market_counts c now b s.
Proof.
  unfold markets_incentives. set (values := normalized_values _ _ _ _).
  assert (∀ p, p ∈ values → 0 ≤ p.2 ≤ u16_max) as Hv.
  { intros p (x & n & m & _ & _ & ->)%elem_of_normalized_values. apply normalize_market_bounds. }
  assert (saturated_total values.*2 = Z.min u128_max (zsum snd values)) as HN.
  { rewrite saturated_total_eq.
    - f_equal. clear. induction values as [|p l IH]; [done|]. rewrite fmap_cons, !zsum_cons. by rewrite IH.
    - apply Forall_fmap, Forall_forall. intros p Hp. by apply Hv. }
  rewrite mapM_None, Exists_exists. unfold calculate_perthousand. rewrite HN. pose proof u128_max_pos. split.
  - intros (p & Hp & Hnone). destruct (Z.eqb_spec (Z.min u128_max (zsum snd values)) 0) as [Hz|]; [|done].
    split.
    + apply elem_of_normalized_values in Hp as (x & n & m & Hn & Hm & _). eauto.
    + intros [i x] n m Hn Hm. cbn in Hm.
      assert ((i, normalize_market b now (period m)) ∈ values) as Hin
        by (apply elem_of_normalized_values; eauto 10).
      pose proof (zsum_elem_le snd values _ ltac:(intros q Hq; by apply Hv) Hin). cbn in *.
      pose proof (normalize_market_bounds b now (period m)). lia.
  - intros [([i x] & n & m & Hn & Hm) Hall]. exists (i, normalize_market b now (period m)).
    split; [apply elem_of_normalized_values; eauto 10|].
    assert (zsum snd values ≤ 0) as Hz.
    { transitivity (zsum (λ _, 0) values).
      - apply zsum_le. intros p Hp. destruct p as [j y]. apply elem_of_normalized_values in Hp as (x' & n' & m' & Hn' & Hm' & ->).
        rewrite (Hall _ _ _ Hn' Hm'). done.
      - clear. induction values; [done|]. rewrite zsum_cons. lia. }
    assert (0 ≤ zsum snd values) by (apply zsum_nonneg; intros p Hp; by apply Hv).
    rewrite (proj2 (Z.eqb_eq _ 0)) by lia. done.
Qed.

(** The end of a block is rolled back exactly when shares were bought, but only in
    markets that count for nothing, as in the last thousandth of their periods: the
    purchases and sales of the block then stay for the next one. Otherwise both are
    erased. *)
Lemma finalize_rolls_back (c : C) now b s :
  let s' := on_finalize iteration_order c now b s in
  (no_market_counts c now b s → s' = s) ∧
  (¬ no_market_counts c now b s → BlockBoughtShares s' = ∅ ∧ BlockSoldShares s' = ∅).
Proof.
  pose proof (markets_incentives_none c now b s) as Hiff. unfold on_finalize, exec_bought.
  destruct (markets_incentives _ c now _ b s) as [mi|]; [|by split; [|intros []; apply Hiff]].
  split; [intros Hn; by apply Hiff in Hn|]. intros _. cbn [mbind option_bind mret option_ret].
  set (s2 := event_if_some _ _ _). assert (BlockBoughtShares s2 = ∅) as E1.
  { subst s2. unfold event_if_some. by destruct (_ <? _)%nat. }
  clearbody s2. unfold exec_sold. destruct (foldl _ _ _) as [counter o].
  unfold event_if_some. by destruct (_ <? _)%nat.
Qed.
End Rollback.


(** ** The reference: one entry *)
Section Reference.
Context {C : Type} `{MarketCommonsPalletApi C}.
Context (c : C) (now : Moment) (b : BlockNumber) (s : Storage).

(** The markets in which shares were bought, and the weight of each. *)
Definition traded : gset MarketId := set_map fst (dom (BlockBoughtShares s)).
Definition weight (id : MarketId) : Z :=
  match api_market id c with Ok m => normalize_market b now (period m) | Err _ => 0 end.
Definition total_weight : Z := Z.min u128_max (zsum weight (elements traded)).
(** The part of the grant that a market gets, and the shares bought in it. *)
Definition incentive (id : MarketId) : Balance :=
  calculate_perthousand_value u128_max
    (default 0 (calculate_perthousand u128_max (weight id) total_weight)) (PerBlockIncentive s).
Definition shares_bought (id : MarketId) : Balance :=
  Z.min u128_max (map_sum (λ k n, if decide (k.1 = id) then n else 0) (BlockBoughtShares s)).

(** A buyer is credited the value of the shares, if the market still exists. *)
Definition credited (k : Key) (v : option OwnedValuesParams) : option OwnedValuesParams :=
  match api_market k.1 c, BlockBoughtShares s !! k with
  | Ok _, Some n =>
      match bought_share_value (incentive k.1) (shares_bought k.1) with
      | Some share_value => Some (credit share_value n (default default_values v))
      | None => v
      end
  | _, _ => v
  end.
(** A seller who has an entry is charged. *)
Definition charged (k : Key) (v : option OwnedValuesParams) : option OwnedValuesParams :=
  match v, BlockSoldShares s !! k with
  | Some e, Some n =>
      match calculate_perthousand u128_max n (total_shares e) with
      | Some ptd => Some (debit ptd n e)
      | None => v
      end
  | _, _ => v
  end.
Definition settled_entry (k : Key) : option OwnedValuesParams := charged k (credited k (OwnedValues s !! k)).
End Reference.

(** ** The hook computes the reference *)
Section Equivalence.
Context {C : Type} `{MarketCommonsPalletApi C}.
Context (iteration_order : ∀ V, gmap Key V → list (Key * V)).
Context (Horder : ∀ V (m : gmap Key V), iteration_order V m ≡ₚ map_to_list m).
Implicit Types s : Storage.

(** Credits and charges of different keys do not interfere. *)
Lemma apply_credits_lookup l o k :
  NoDup l.*1 →
  (k ∉ l.*1 → apply_credits l o !! k = o !! k) ∧
  (∀ sv n, (k, (sv, n)) ∈ l → apply_credits l o !! k = Some (credit sv n (default default_values (o !! k)))).
Proof.
  revert o. induction l as [|e l IH]; intros o Hnd; cbn [apply_credits foldl].
  { split; [done|]. by intros sv n ?%elem_of_nil. }
  rewrite fmap_cons in Hnd |- *. apply NoDup_cons in Hnd as [Hne Hnd].
  destruct (IH (mutate_values e.1 (credit e.2.1 e.2.2) o) Hnd) as [Hout Hin]. unfold apply_credits in *. split.
  - intros [Hk Hl]%not_elem_of_cons. rewrite Hout by done. unfold mutate_values. by rewrite lookup_insert_ne.
  - intros sv n [<-|Hl]%elem_of_cons.
    + cbn [fst snd] in *. rewrite Hout by done. unfold mutate_values. by rewrite lookup_insert_eq.
    + rewrite (Hin sv n Hl). unfold mutate_values. rewrite lookup_insert_ne; [done|]. intros <-. apply Hne.
      apply list_elem_of_fmap. by exists (e.1, (sv, n)).
Qed.

Definition charge (n : Balance) (v : option OwnedValuesParams) : option OwnedValuesParams :=
  e ← v;
  match calculate_perthousand u128_max n (total_shares e) with
  | Some ptd => Some (debit ptd n e)
  | None => Some e
  end.
Lemma debit_entry_lookup (e : Key * Balance) o k :
  default o (debit_entry e o) !! k = if decide (e.1 = k) then charge e.2 (o !! k) else o !! k.
Proof.
  unfold debit_entry, charge. destruct (o !! e.1) as [v|] eqn:Hv; cbn.
  - destruct (calculate_perthousand _ _ _) as [ptd|] eqn:Hptd; cbn.
    + unfold mutate_values. rewrite lookup_insert, Hv. destruct (decide (e.1 = k)) as [<-|]; [|done].
      rewrite Hv. cbn. by rewrite Hptd.
    + destruct (decide (e.1 = k)) as [<-|]; [|done]. rewrite Hv. cbn. by rewrite Hptd.
  - destruct (decide (e.1 = k)) as [<-|]; [|done]. by rewrite Hv.
Qed.
Lemma charges_lookup (l : list (Key * Balance)) (j : nat) o k :
  NoDup l.*1 →
  let o' := (foldl (λ acc e, match debit_entry e acc.2 with
                            | Some o => (S acc.1, o)
                            | None => acc
                            end) (j, o) l).2 in
  (k ∉ l.*1 → o' !! k = o !! k) ∧ (∀ n, (k, n) ∈ l → o' !! k = charge n (o !! k)).
Proof.
  revert j o. induction l as [|e l IH]; intros j o Hnd; cbn [foldl].
  { split; [done|]. by intros n ?%elem_of_nil. }
  rewrite fmap_cons in Hnd |- *. apply NoDup_cons in Hnd as [Hne Hnd].
  set (acc := match debit_entry e (j, o).2 with Some o => _ | None => _ end).
  assert (acc = (acc.1, default o (debit_entry e o))) as Hacc.
  { subst acc. cbn. by destruct (debit_entry e o). }
  destruct (IH acc.1 (default o (debit_entry e o)) Hnd) as [Hout Hin]. rewrite <- Hacc in *.
  cbv zeta in *. split.
  - intros [Hk Hl]%not_elem_of_cons. rewrite Hout by done. rewrite debit_entry_lookup, decide_False by done. done.
  - intros n [<-|Hl]%elem_of_cons.
    + cbn [fst snd] in *. rewrite Hout by done. rewrite debit_entry_lookup. by rewrite decide_True.
    + rewrite (Hin n Hl), debit_entry_lookup, decide_False; [done|]. intros <-. apply Hne.
      apply list_elem_of_fmap. by exists (e.1, n).
Qed.

Lemma order_keys {V} (m : gmap Key V) : NoDup (iteration_order V m).*1.
Proof. rewrite Horder. apply NoDup_fst_map_to_list. Qed.
Lemma elem_of_order {V} (m : gmap Key V) k v : (k, v) ∈ iteration_order V m ↔ m !! k = Some v.
Proof. rewrite Horder. by rewrite elem_of_map_to_list. Qed.

Lemma markets_periods_traded s : markets_periods iteration_order (BlockBoughtShares s) ≡ₚ elements (traded s).
Proof.
  unfold markets_periods. rewrite merge_sort_Permutation. apply NoDup_Permutation; [apply NoDup_elements..|].
  intros id. rewrite !elem_of_elements, elem_of_list_to_set, list_elem_of_fmap. unfold traded. rewrite elem_of_map. split.
  - intros ([k n] & -> & Hk%elem_of_order). exists k. split; [done|]. by apply elem_of_dom_2 in Hk.
  - intros (k & -> & [n Hn]%elem_of_dom). exists (k, n). split; [done|]. by apply elem_of_order.
Qed.

Lemma normalized_values_weight (c : C) now b ids p :
  p ∈ normalized_values c b now ids ↔
  p.1 ∈ ids ∧ (∃ m, api_market p.1 c = Ok m) ∧ p.2 = weight c now b p.1.
Proof.
  unfold normalized_values, weight. rewrite list_elem_of_omap. split.
  - intros (i & Hi & Hp). destruct (api_market i c) as [m|] eqn:Hm; [|done]. injection Hp as <-. cbn.
    rewrite Hm. eauto.
  - intros (Hi & [m Hm] & Hp). exists p.1. split; [done|]. rewrite Hm in Hp |- *. rewrite <- Hp. by destruct p.
Qed.
Lemma normalized_values_total (c : C) now b ids :
  zsum snd (normalized_values c b now ids) = zsum (weight c now b) ids.
Proof.
  unfold normalized_values. induction ids as [|i ids IH]; [done|]. cbn [omap list_omap].
  rewrite (zsum_cons _ i). unfold weight at 1. destruct (api_market i c); [|by rewrite IH].
  rewrite zsum_cons. cbn [snd]. by rewrite IH.
Qed.
Lemma normalized_total (c : C) now b s :
  saturated_total (normalized_values c b now (markets_periods iteration_order (BlockBoughtShares s))).*2
  = total_weight c now b s.
Proof.
  rewrite saturated_total_eq.
  - unfold total_weight. f_equal.
    assert (∀ l : list (MarketId * Balance), zsum id l.*2 = zsum snd l) as ->.
    { intros l. induction l as [|p l IH]; [done|]. rewrite fmap_cons, !zsum_cons. by rewrite IH. }
    rewrite normalized_values_total. apply zsum_permutation, markets_periods_traded.
  - apply Forall_fmap, Forall_forall. intros p (_ & _ & Hp)%normalized_values_weight. cbn. rewrite Hp.
    unfold weight. destruct (api_market p.1 c); [apply normalize_market_bounds|done].
Qed.

(** The incentives that the hook computes. *)
Lemma elem_of_markets_incentives (c : C) now b s mi :
  markets_incentives iteration_order c now (PerBlockIncentive s) b s = Some mi →
  NoDup mi.*1 ∧
  ∀ p, p ∈ mi ↔ p.1 ∈ traded s ∧ (∃ m, api_market p.1 c = Ok m) ∧ p.2 = incentive c now b s p.1.
Proof.
  unfold markets_incentives. rewrite normalized_total. set (values := normalized_values _ _ _ _). intros Hmi.
  assert (∀ p, p ∈ values ↔ p.1 ∈ traded s ∧ (∃ m, api_market p.1 c = Ok m) ∧ p.2 = weight c now b p.1) as Hval.
  { intros p. unfold values. rewrite normalized_values_weight, markets_periods_traded. by rewrite elem_of_elements. }
  assert (NoDup values.*1) as Hnd by (apply normalized_values_nodup, markets_periods_nodup).
  clearbody values. apply mapM_Some_1 in Hmi.
  assert (Forall2 (λ p q, q.1 = p.1 ∧ (p.2 = weight c now b p.1 → q.2 = incentive c now b s p.1)) values mi) as Hrel.
  { eapply Forall2_impl; [exact Hmi|]. intros p q Hq. apply bind_Some in Hq as (ptd & Hptd & [= <-]).
    split; [done|]. intros Hp. unfold incentive. by rewrite <- Hp, Hptd. }
  clear Hmi. assert (mi.*1 = values.*1) as Hkeys.
  { clear -Hrel. induction Hrel as [|p q l k [Hp _] _ IH]; [done|]. by rewrite !fmap_cons, IH, Hp. }
  rewrite Hkeys. split; [done|]. intros q. split.
  - intros Hq. apply list_elem_of_lookup in Hq as [i Hi].
    destruct (Forall2_lookup_r _ _ _ _ _ Hrel Hi) as (p & Hp & Hk & Hx). apply list_elem_of_lookup_2 in Hp.
    apply Hval in Hp as (? & ? & Hw). rewrite Hk. auto.
  - intros (Ht & Hm & Hx). assert ((q.1, weight c now b q.1) ∈ values) as Hp by (by apply Hval).
    apply list_elem_of_lookup in Hp as [i Hi].
    destruct (Forall2_lookup_l _ _ _ _ _ Hrel Hi) as (r & Hr & Hk & Hrx). cbn [fst snd] in Hk, Hrx.
    apply list_elem_of_lookup_2 in Hr. destruct q as [j x], r as [j' x']. cbn in *. subst j'.
    by rewrite Hx, <- (Hrx eq_refl).
Qed.

Lemma total_bought s (id : MarketId) :
  amounts_wf (BlockBoughtShares s) →
  saturated_total (iter_prefix iteration_order id (BlockBoughtShares s)).*2 = shares_bought s id.
Proof.
  intros Hwf. rewrite saturated_total_eq.
  - unfold shares_bought. f_equal. rewrite map_sum_zsum, <- (zsum_permutation _ _ _ (Horder _ (BlockBoughtShares s))).
    unfold iter_prefix. generalize (iteration_order Balance (BlockBoughtShares s)). intros l.
    induction l as [|[[j x] n] l IH]; [done|]. rewrite filter_cons, zsum_cons. cbn [fst snd].
    destruct (decide (j = id)); [rewrite !fmap_cons, zsum_cons|]; rewrite IH; unfold Datatypes.id; cbn; lia.
  - apply Forall_fmap, Forall_forall. intros [x n] Hin%(elem_of_iter_prefix _ Horder). by apply Hwf in Hin.
Qed.

(** What the purchases leave of an entry. *)
Lemma credits_settle (c : C) now b s mi k o :
  amounts_wf (BlockBoughtShares s) →
  markets_incentives iteration_order c now (PerBlockIncentive s) b s = Some mi →
  apply_credits (mi ≫= market_credits iteration_order (BlockBoughtShares s)) o !! k =
  credited c now b s k (o !! k).
Proof.
  intros Hwf Hmi. apply elem_of_markets_incentives in Hmi as [Hnd Hin].
  pose proof (credits_nodup iteration_order Horder (BlockBoughtShares s) mi Hnd) as Hcnd.
  destruct (apply_credits_lookup _ o k Hcnd) as [Hout Hhit].
  assert (∀ e, (k, e) ∈ mi ≫= market_credits iteration_order (BlockBoughtShares s) ↔
    k.1 ∈ traded s ∧ (∃ m, api_market k.1 c = Ok m) ∧ BlockBoughtShares s !! k = Some e.2 ∧
    bought_share_value (incentive c now b s k.1) (shares_bought s k.1) = Some e.1) as Hcr.
  { intros [sv n]. rewrite list_elem_of_bind. cbn [fst snd]. destruct k as [j x]. cbn [fst]. unfold market_credits. split.
    - intros ([i inc] & He & Hp). rewrite total_bought in He by done. cbn [fst snd] in He.
      destruct (bought_share_value inc (shares_bought s i)) as [sv'|] eqn:Hsv; [|by apply elem_of_nil in He].
      apply list_elem_of_fmap in He as ([y n'] & [= -> -> -> ->] & Hn). apply (elem_of_iter_prefix _ Horder) in Hn.
      apply Hin in Hp as (? & ? & Hinc). cbn [fst snd] in *. subst inc. done.
    - intros (Ht & Hm & Hn & Hsv). exists (j, incentive c now b s j). rewrite Hin, total_bought by done. cbn [fst snd].
      rewrite Hsv. split; [|done]. apply list_elem_of_fmap. exists (x, n). split; [done|].
      by apply (elem_of_iter_prefix _ Horder). }
  unfold credited. destruct (decide (k ∈ (mi ≫= market_credits iteration_order (BlockBoughtShares s)).*1)) as [Hk|Hk].
  - apply list_elem_of_fmap in Hk as ([k' [sv n]] & -> & Hk). cbn [fst] in *. rewrite (Hhit sv n Hk).
    apply Hcr in Hk as (_ & [m Hm] & Hn & Hsv). cbn [fst snd] in *. by rewrite Hm, Hn, Hsv.
  - rewrite Hout by done. destruct (api_market k.1 c) as [m|] eqn:Hm; [|done].
    destruct (BlockBoughtShares s !! k) as [n|] eqn:Hn; [|done].
    destruct (bought_share_value _ _) as [sv|] eqn:Hsv; [|done]. destruct Hk. apply list_elem_of_fmap.
    exists (k, (sv, n)). split; [done|]. apply Hcr. split; [|by eauto].
    unfold traded. apply elem_of_map. exists k. split; [done|]. by eapply elem_of_dom_2.
Qed.

(** What the sales leave of an entry. *)
Lemma exec_sold_settle s n s' k :
  exec_sold iteration_order s = (n, s') →
  BlockSoldShares s' = ∅ ∧ BlockBoughtShares s' = BlockBoughtShares s ∧
  PerBlockIncentive s' = PerBlockIncentive s ∧ OwnedValues s' !! k = charged s k (OwnedValues s !! k).
Proof.
  unfold exec_sold. pose proof (charges_lookup (iteration_order _ (BlockSoldShares s)) 0 (OwnedValues s) k
    (order_keys _)) as [Hout Hin]. destruct (foldl _ _ _) as [counter o] eqn:Hf. intros [= <- <-]. cbn [snd] in *.
  do 3 (split; [done|]). cbn [OwnedValues set_BlockSoldShares set_OwnedValues]. unfold charged.
  destruct (BlockSoldShares s !! k) as [m|] eqn:Hs.
  - rewrite (Hin m) by by apply elem_of_order. unfold charge. by destruct (OwnedValues s !! k).
  - rewrite Hout; [by destruct (OwnedValues s !! k)|]. intros ([k' m] & -> & Hm%elem_of_order)%list_elem_of_fmap.
    cbn in *. congruence.
Qed.

(** (C37) When the end of a block takes effect - unless shares were bought, but only in markets
    that weigh nothing - the shares of the block are erased, the grant stays, and every
    entry is settled by itself: a buyer is credited with the value of the shares bought,
    out of the market's part of the grant, and a seller is then charged the sold part of
    what is owed. No entry depends on the order in which the storage is visited, and the
    entries of those who did not trade stay. *)
Theorem finalize_settles (c : C) now b s :
  storage_wf s → ¬ no_market_counts c now b s →
  let s' := on_finalize iteration_order c now b s in
  BlockBoughtShares s' = ∅ ∧ BlockSoldShares s' = ∅ ∧ PerBlockIncentive s' = PerBlockIncentive s ∧
  ∀ k, OwnedValues s' !! k = settled_entry c now b s k.
Proof.
  intros (Hwf & _) Hcounts. pose proof (markets_incentives_none iteration_order Horder c now b s) as Hiff.
  unfold on_finalize, exec_bought.
  destruct (markets_incentives _ c now _ b s) as [mi|] eqn:Hmi; [|by destruct Hcounts; apply Hiff].
  cbn [mbind option_bind mret option_ret]. rewrite credit_markets_credits.
  set (s2 := event_if_some _ _ _).
  assert (BlockBoughtShares s2 = ∅ ∧ BlockSoldShares s2 = BlockSoldShares s ∧ PerBlockIncentive s2 = PerBlockIncentive s ∧
    OwnedValues s2 = apply_credits (mi ≫= market_credits iteration_order (BlockBoughtShares s)) (OwnedValues s))
    as (E1 & E2 & E3 & E4) by (subst s2; unfold event_if_some; by destruct (_ <? _)%nat).
  clearbody s2. destruct (exec_sold iteration_order s2) as [n s3] eqn:Hs3.
  assert (∀ k, BlockSoldShares s3 = ∅ ∧ BlockBoughtShares s3 = ∅ ∧ PerBlockIncentive s3 = PerBlockIncentive s ∧
    OwnedValues s3 !! k = settled_entry c now b s k) as Hall.
  { intros k. destruct (exec_sold_settle s2 n s3 k Hs3) as (-> & -> & -> & ->).
    rewrite E1, E3, E4, (credits_settle c now b s mi k) by done. unfold settled_entry, charged. by rewrite E2. }
  destruct (Hall (0, 0)) as (? & ? & ? & _). unfold event_if_some. destruct (_ <? _)%nat; cbn; do 3 (split; [done|]);
    intros k; apply Hall.
Qed.
End Equivalence.

(** ** Example *)
Module BlockExample.
Export LiquidityMiningExample.

(** Block 1 credits one share and three; in block 2 one of the three is sold. *)
Lemma finalize_settles_witness :
  (BlockBoughtShares after_block_1 = ∅ ∧ BlockSoldShares after_block_1 = ∅ ∧
   PerBlockIncentive after_block_1 = 4000 ∧
   ∀ k, OwnedValues after_block_1 !! k = settled_entry markets (clock 1) 1 bought k) ∧
  settled_entry markets (clock 1) 1 bought (0, 20) = Some (mk_OwnedValuesParams 1 1 999 1) ∧
  settled_entry markets (clock 1) 1 bought (0, 21) = Some (mk_OwnedValuesParams 1 3 2997 3).
Proof.
  split; [|by vm_compute].
  apply (finalize_settles visit visit_order markets (clock 1) 1 bought).
  - split; [|split; [|split; [|done]]]; intros k n Hk; [|discriminate Hk..].
    change (BlockBoughtShares bought) with (<[(0, 21) := 3]> (<[(0, 20) := 1]> (∅ : gmap Key Balance))) in Hk.
    apply lookup_insert_Some in Hk as [[_ <-]|[_ [[_ <-]|[_ []%lookup_empty_Some]]%lookup_insert_Some]]; done.
  - intros [_ Hall]. specialize (Hall (0, 20) 1 example_market eq_refl eq_refl). done.
Defined.

(** In the last block of a market its buyers alone do not count: nothing is erased. *)
Example last_block_rolls_back :
  finalize (clock 10) 10 bought = bought.
Proof.
  destruct (finalize_rolls_back visit visit_order markets (clock 10) 10 bought) as [Hback _].
  apply Hback. split; [by exists (0, 20), 1, example_market|]. intros k n m Hk Hm. assert (k.1 = 0) as E.
  { change (BlockBoughtShares bought) with (<[(0, 21) := 3]> (<[(0, 20) := 1]> (∅ : gmap Key Balance))) in Hk.
    apply lookup_insert_Some in Hk as [[<- _]|[_ [[<- _]|[_ []%lookup_empty_Some]]%lookup_insert_Some]]; done. }
  rewrite E in Hm. by injection Hm as <-.
Qed.
End BlockExample.
