(* ===== verification/Rikiddo.v ===== *)
(** * Rikiddo

    [zrml/rikiddo/src]: a market maker whose liquidity follows the traded volume. An
    exponential moving average ([ema_market_volume.rs]) over a short and a long period
    gives a ratio, a sigmoid of the ratio the fee ([sigmoid_fee.rs]), and the fee the
    liquidity parameter of a logarithmic scoring rule ([rikiddo_sigmoid_mv.rs]). The
    pallet ([lib.rs]) keeps one instance per pool. The numbers of the [substrate_fixed]
    crate are classes; errors are messages, and a method that changes its object is a
    computation on it. *)
From Stdlib Require Import Ascii.
From S2P Require Import Prelude Types Errors FixedDecimal.

Abbreviation Str := (result string).
Definition msg {A} (o : option A) (e : string) : Str A := Prelude.ok_orR o e.

(** ** Fixed point numbers *)

(** The operations of a number type that the code calls; a plain sum may overflow. *)
Class Fixed (F : Type) := {
  #[global] fixed_eq_dec :: EqDecision F;
  #[global] fixed_countable :: Countable F;
  checked_add : F → F → option F;
  checked_sub : F → F → option F;
  checked_mul : F → F → option F;
  checked_div : F → F → option F;
  saturating_add : F → F → F;
  saturating_div : F → F → F;
  saturating_ceil : F → F;
  plus : F → F → F;
  leb : F → F → bool;
  (** [From<u8>] or [From<i8>] *)
  from_small : Z → F;
  checked_from_num : Z → option F;
  (** [num.int().checked_to_num()], [max_value().int().checked_to_num()] to [u128]. *)
  int_u128 : F → option Z;
  max_int_u128 : option Z;
}.
Definition gtb {F} `{Fixed F} (x y : F) : bool := negb (leb x y).

(** The fractional part of a number in another type, cut to its precision. *)
Class FracInto (FROM TO : Type) := {
  frac_into : FROM → option TO;
}.

(** [substrate_fixed::transcendental] *)
Class Transcendental (F : Type) := {
  exp : F → Str F;
  ln : F → Str F;
  sqrt : F → Str F;
}.

(** *** [utils.rs] *)

Definition fixed_zero {F} `{Fixed F} : Str F :=
  msg (checked_from_num 0) "Unexpectedly failed to convert zero to fixed point type".

Definition max_value_u128 (F : Type) `{Fixed F} : Str Z :=
  msg (max_int_u128 (F := F)) "Unexpectedly failed to convert max_value of fixed point type to u128".

Section Conversions.
Context {FROM TO : Type} `{Fixed FROM, Fixed TO, !FracInto FROM TO}.

Definition convert_common (num : FROM) : Str TO :=
  zero ← fixed_zero;
  _ ← Prelude.ensureR (leb zero num) "Cannot convert negative signed number into unsigned number"%string;
  num_u128 ← msg (int_u128 num) "Conversion from FROM to u128 failed";
  max ← max_value_u128 TO;
  _ ← Prelude.ensureR (num_u128 <=? max) "Fixed point conversion failed: FROM type does not fit in TO type"%string;
  msg (checked_from_num num_u128) "Integer part of fixed point number does not fit into u128".

(** [convert_to_signed] and [convert_to_unsigned], which differ in their messages. *)
Definition convert_to (frac_error conversion_error : string) (num : FROM) : Str TO :=
  integer_part ← convert_common num;
  fractional_part ← msg (frac_into num) frac_error;
  msg (checked_add integer_part fractional_part) conversion_error.
End Conversions.

Definition convert_to_signed {FROM TO} `{Fixed FROM, Fixed TO, !FracInto FROM TO} : FROM → Str TO :=
  convert_to "Fraction of fixed point number unexpectedly does not fit into FixedI128<U127>"
    "Something went wrong during FixedUnsigned to FixedSigned type conversion".
Definition convert_to_unsigned {FROM TO} `{Fixed FROM, Fixed TO, !FracInto FROM TO} : FROM → Str TO :=
  convert_to "Fraction of fixed point number unexpectedly does not fit into FixedU128<U128>"
    "Something went wrong during FixedSigned to FixedUnsigned type conversion".

(** ** [types.rs] *)

Abbreviation UnixTimestamp := Z.

Inductive Timespan : Type := Seconds (d : Z) | Minutes (d : Z) | Hours (d : Z) | Days (d : Z) | Weeks (d : Z).

Definition to_seconds (t : Timespan) : Z :=
  let mul := saturating_mul u32_max in
  match t with
  | Seconds d => d
  | Minutes d => mul d 60
  | Hours d => mul (mul d 60) 60
  | Days d => mul (mul (mul d 60) 60) 24
  | Weeks d => mul (mul (mul (mul d 60) 60) 24) 7
  end.

(** The derived order: by the unit first. *)
Definition timespan_rank (t : Timespan) : Z * Z :=
  match t with
  | Seconds d => (0, d) | Minutes d => (1, d) | Hours d => (2, d) | Days d => (3, d) | Weeks d => (4, d)
  end.
Definition timespan_leb (s t : Timespan) : bool :=
  let '(i, x) := timespan_rank s in let '(j, y) := timespan_rank t in
  (i <? j) || ((i =? j) && (x <=? y)).

Record TimestampedVolume (F : Type) : Type := mk_TimestampedVolume {
  timestamp : UnixTimestamp;
  volume : F;
}.
Arguments mk_TimestampedVolume {F} _ _.
Arguments timestamp {F} _.
Arguments volume {F} _.

(** ** [traits.rs]: market averages and fees *)

Class MarketAverage (FU MA : Type) := {
  ma_get : MA → option FU;
  ma_clear : MA → MA;
  ma_update_volume : TimestampedVolume FU → M string MA (option FU);
}.
Class Fee (FS FE : Type) := {
  calculate_fee : FE → FS → Str FS;
  minimum_fee : FE → FS;
}.

(** ** [ema_market_volume.rs] *)

Record EmaConfig (F : Type) : Type := mk_EmaConfig {
  ema_period : Timespan;
  ema_period_estimate_after : option Timespan;
  smoothing : F;
}.
Arguments mk_EmaConfig {F} _ _ _.
Arguments ema_period {F} _.
Arguments ema_period_estimate_after {F} _.
Arguments smoothing {F} _.

(** [EmaConfig::new] *)
Definition ema_config {F} (period : Timespan) (estimate_after : option Timespan) (s : F) : EmaConfig F :=
  mk_EmaConfig period
    (res ← estimate_after; if timespan_leb period res then None else Some res) s.

Inductive MarketVolumeState : Type := Uninitialized | DataCollectionStarted | DataCollected.
#[export] Instance MarketVolumeState_eq_dec : EqDecision MarketVolumeState.
Proof. solve_decision. Defined.

Record EmaMarketVolume (F : Type) : Type := mk_EmaMarketVolume {
  ema_conf : EmaConfig F;
  ema : F;
  multiplier : F;
  last_time : UnixTimestamp;
  state : MarketVolumeState;
  start_time : UnixTimestamp;
  volumes_per_period : F;
}.
Arguments mk_EmaMarketVolume {F} _ _ _ _ _ _ _.
Arguments ema_conf {F} _.
Arguments ema {F} _.
Arguments multiplier {F} _.
Arguments last_time {F} _.
Arguments state {F} _.
Arguments start_time {F} _.
Arguments volumes_per_period {F} _.

Section EmaMarketVolume.
Context {FU : Type} `{Fixed FU}.
(** The quotient of two numbers of seconds as a number with 64 fractional bits, in FU. *)
Context (estimate_ratio : Z → Z → option FU).
Abbreviation Ema := (EmaMarketVolume FU).
Abbreviation EmaM := (M string Ema).

Definition set_ema (x : FU) (e : Ema) : Ema :=
  mk_EmaMarketVolume (ema_conf e) x (multiplier e) (last_time e) (state e) (start_time e) (volumes_per_period e).
Definition set_multiplier (x : FU) (e : Ema) : Ema :=
  mk_EmaMarketVolume (ema_conf e) (ema e) x (last_time e) (state e) (start_time e) (volumes_per_period e).
Definition set_last_time (t : UnixTimestamp) (e : Ema) : Ema :=
  mk_EmaMarketVolume (ema_conf e) (ema e) (multiplier e) t (state e) (start_time e) (volumes_per_period e).
Definition set_state (x : MarketVolumeState) (e : Ema) : Ema :=
  mk_EmaMarketVolume (ema_conf e) (ema e) (multiplier e) (last_time e) x (start_time e) (volumes_per_period e).
Definition set_volumes_per_period (x : FU) (e : Ema) : Ema :=
  mk_EmaMarketVolume (ema_conf e) (ema e) (multiplier e) (last_time e) (state e) (start_time e) x.

(** [EmaMarketVolume::new] *)
Definition ema_new (c : EmaConfig FU) : Ema :=
  mk_EmaMarketVolume c (from_small 0) (from_small 0) 0 Uninitialized 0 (from_small 0).

Definition get (e : Ema) : option FU :=
  match state e with DataCollected => Some (ema e) | _ => None end.

Definition clear_ema (e : Ema) : Ema := ema_new (ema_conf e).

Definition calculate_ema (v : TimestampedVolume FU) : EmaM (option FU) := λ e,
  (volume_times_multiplier ← Prelude.lift (msg (checked_mul (volume v) (multiplier e))
     "[EmaMarketVolume] Overflow during calculation: volume * multiplier");
   one_minus_multiplier ← Prelude.lift (msg (checked_sub (from_small 1) (multiplier e))
     "[EmaMarketVolume] Overflow during calculation: 1 - multiplier");
   ema_times_one_minus_multiplier ← Prelude.lift (msg (checked_mul (ema e) one_minus_multiplier)
     "[EmaMarketVolume] Overflow during calculation: ema * (1 - multiplier)");
   res ← Prelude.lift (msg (checked_add volume_times_multiplier ema_times_one_minus_multiplier)
     "[EmaMarketVolume] Overflow during calculation: ema = smoothed_new + smoothed_previous");
   _ ← Prelude.modify (set_ema res);
   mret (Some res)) e.

Definition calculate_sma (v : TimestampedVolume FU) : EmaM (option FU) := λ e,
  (sma_times_vpp ← Prelude.lift (msg (checked_mul (ema e) (volumes_per_period e))
     "[EmaMarketVolume] Overflow during calculation: sma * volumes_per_period");
   sma_times_vpp_plus_volume ← Prelude.lift (msg (checked_add sma_times_vpp (volume v))
     "[EmaMarketVolume] Overflow during calculation: sma * volumes_per_period + volume");
   res ← Prelude.lift (msg
     (checked_div sma_times_vpp_plus_volume (saturating_add (volumes_per_period e) (from_small 1)))
     "[EmaMarketVolume] Overflow during calculation: sma = numerator / denominator");
   _ ← Prelude.modify (set_ema res);
   mret (Some res)) e.

(** The seconds after which the data suffices. *)
Definition comparison_value (e : Ema) : Z :=
  match ema_period_estimate_after (ema_conf e) with
  | Some res => to_seconds res
  | None => to_seconds (ema_period (ema_conf e))
  end.

(** The extrapolation of the number of volumes per period. *)
Definition extrapolate : EmaM unit := λ e,
  match ema_period_estimate_after (ema_conf e) with
  | None => (Ok tt, e)
  | Some _ =>
      let premature := if comparison_value e =? 0 then 1 else comparison_value e in
      (ratio ← Prelude.lift (msg (estimate_ratio (to_seconds (ema_period (ema_conf e))) premature)
         "[EmaMarketVolume] Estimate ratio does not fit in FU");
       res ← Prelude.lift (msg (checked_mul (volumes_per_period e) ratio)
         "[EmaMarketVolume] Overflow during estimation of transactions per period");
       Prelude.modify (set_volumes_per_period (saturating_ceil res))) e
  end.

(** [multiplier = smoothing / (1 + volumes_per_period)] *)
Definition derive_multiplier : EmaM unit := λ e,
  (res ← Prelude.lift (msg
     (checked_div (smoothing (ema_conf e)) (saturating_add (volumes_per_period e) (from_small 1)))
     "[EmaMarketVolume] Overflow during calculation: multiplier = smoothing / (1 + volumes_per_period)");
   Prelude.modify (set_multiplier res)) e.

(** The rest of the match on the state. *)
Definition evaluate (v : TimestampedVolume FU) : EmaM (option FU) := λ e,
  match state e with
  | Uninitialized =>
      (Ok None, mk_EmaMarketVolume (ema_conf e) (volume v) (multiplier e) (timestamp v)
                  DataCollectionStarted (timestamp v) (from_small 1))
  | DataCollectionStarted =>
      if (comparison_value e <? saturating_sub (timestamp v) (start_time e))
         && leb (smoothing (ema_conf e)) (plus (volumes_per_period e) (from_small 1))
      then (_ ← extrapolate;
            _ ← derive_multiplier;
            _ ← Prelude.modify (set_state DataCollected);
            calculate_ema v) e
      else (_ ← calculate_sma v;
            _ ← Prelude.modify (λ e,
                  set_volumes_per_period (saturating_add (volumes_per_period e) (from_small 1)) e);
            mret None) e
  | DataCollected => calculate_ema v e
  end.

Definition update_ema (v : TimestampedVolume FU) : EmaM (option FU) := λ e,
  (_ ← Prelude.ensure (last_time e <=? timestamp v)
     "[EmaMarketVolume] Incoming volume timestamp is older than previous timestamp"%string;
   res ← evaluate v;
   _ ← Prelude.modify (set_last_time (timestamp v));
   mret res) e.

#[export] Instance Ema_average : MarketAverage FU Ema := {
  ma_get := get;
  ma_clear := clear_ema;
  ma_update_volume := update_ema;
}.
End EmaMarketVolume.

(** ** [sigmoid_fee.rs] *)

Record FeeSigmoidConfig (F : Type) : Type := mk_FeeSigmoidConfig {
  fs_m : F;
  fs_p : F;
  fs_n : F;
  fs_initial_fee : F;
  min_revenue : F;
}.
Arguments mk_FeeSigmoidConfig {F} _ _ _ _ _.
Arguments fs_m {F} _.
Arguments fs_p {F} _.
Arguments fs_n {F} _.
Arguments fs_initial_fee {F} _.
Arguments min_revenue {F} _.

Section FeeSigmoid.
Context {FS : Type} `{Fixed FS, !Transcendental FS}.

Definition sigmoid_fee (c : FeeSigmoidConfig FS) (r : FS) : Str FS :=
  r_minus_n ← msg (checked_sub r (fs_n c)) "[FeeSigmoid] Overflow during calculation: r - n";
  numerator ← msg (checked_mul r_minus_n (fs_m c)) "[FeeSigmoid] Overflow during calculation: m * (r-n)";
  r_minus_n_squared ← msg (checked_mul r_minus_n r_minus_n) "[FeeSigmoid] Overflow during calculation: (r-n)^2";
  p_plus ← msg (checked_add (fs_p c) r_minus_n_squared) "[FeeSigmoid] Overflow during calculation: p + (r-n)^2";
  denominator ← sqrt p_plus;
  sigmoid_result ← msg (checked_div numerator denominator)
    "[FeeSigmoid] Overflow during calculation: numerator / denominator";
  result ← msg (checked_add sigmoid_result (fs_initial_fee c)) "[FeeSigmoid] initial_fee + sigmoid_result";
  if leb result (min_revenue c) then Ok (min_revenue c) else Ok result.

#[export] Instance FeeSigmoid_fee : Fee FS (FeeSigmoidConfig FS) := {
  calculate_fee := sigmoid_fee;
  minimum_fee := min_revenue;
}.
End FeeSigmoid.

(** ** [rikiddo_sigmoid_mv.rs] *)

Record RikiddoConfig (F : Type) : Type := mk_RikiddoConfig {
  initial_fee : F;
  log2_e : F;
}.
Arguments mk_RikiddoConfig {F} _ _.
Arguments initial_fee {F} _.
Arguments log2_e {F} _.

Record RikiddoFormulaComponents (F : Type) `{Countable F} : Type := mk_RikiddoFormulaComponents {
  one : F;
  fee_ : F;
  sum_balances : F;
  sum_times_fee : F;
  emax : F;
  sum_exp : F;
  exponents : gmap F F;
  reduced_exponential_results : gmap F F;
}.
Arguments mk_RikiddoFormulaComponents {F _ _} _ _ _ _ _ _ _ _.
Arguments one {F _ _} _.
Arguments fee_ {F _ _} _.
Arguments sum_balances {F _ _} _.
Arguments sum_times_fee {F _ _} _.
Arguments emax {F _ _} _.
Arguments sum_exp {F _ _} _.
Arguments exponents {F _ _} _.
Arguments reduced_exponential_results {F _ _} _.

Record RikiddoSigmoidMV (FS FE MA : Type) : Type := mk_RikiddoSigmoidMV {
  config : RikiddoConfig FS;
  fees : FE;
  ma_short : MA;
  ma_long : MA;
}.
Arguments mk_RikiddoSigmoidMV {FS FE MA} _ _ _ _.
Arguments config {FS FE MA} _.
Arguments fees {FS FE MA} _.
Arguments ma_short {FS FE MA} _.
Arguments ma_long {FS FE MA} _.

Section RikiddoSigmoidMV.
Context {FU FS FE MA : Type} `{Fixed FU, Fixed FS, !FracInto FU FS, !FracInto FS FU, !Transcendental FS}.
Context `{!Fee FS FE, !MarketAverage FU MA}.
Abbreviation Rikiddo := (RikiddoSigmoidMV FS FE MA).
Abbreviation Components := (RikiddoFormulaComponents FS).
Abbreviation CompM := (M string Components).
Implicit Types (self : Rikiddo) (fc : Components).

(** [Default] *)
Definition default_components : Components :=
  mk_RikiddoFormulaComponents (from_small 1) (from_small 0) (from_small 0) (from_small 0) (from_small 0)
    (from_small 0) ∅ ∅.
Definition set_fee x fc : Components :=
  mk_RikiddoFormulaComponents (one fc) x (sum_balances fc) (sum_times_fee fc) (emax fc) (sum_exp fc)
    (exponents fc) (reduced_exponential_results fc).
Definition set_sum_balances x fc : Components :=
  mk_RikiddoFormulaComponents (one fc) (fee_ fc) x (sum_times_fee fc) (emax fc) (sum_exp fc)
    (exponents fc) (reduced_exponential_results fc).
Definition set_sum_times_fee x fc : Components :=
  mk_RikiddoFormulaComponents (one fc) (fee_ fc) (sum_balances fc) x (emax fc) (sum_exp fc)
    (exponents fc) (reduced_exponential_results fc).
Definition set_emax x fc : Components :=
  mk_RikiddoFormulaComponents (one fc) (fee_ fc) (sum_balances fc) (sum_times_fee fc) x (sum_exp fc)
    (exponents fc) (reduced_exponential_results fc).
Definition set_sum_exp x fc : Components :=
  mk_RikiddoFormulaComponents (one fc) (fee_ fc) (sum_balances fc) (sum_times_fee fc) (emax fc) x
    (exponents fc) (reduced_exponential_results fc).
Definition set_exponents f fc : Components :=
  mk_RikiddoFormulaComponents (one fc) (fee_ fc) (sum_balances fc) (sum_times_fee fc) (emax fc) (sum_exp fc)
    (f (exponents fc)) (reduced_exponential_results fc).
Definition set_reduced f fc : Components :=
  mk_RikiddoFormulaComponents (one fc) (fee_ fc) (sum_balances fc) (sum_times_fee fc) (emax fc) (sum_exp fc)
    (exponents fc) (f (reduced_exponential_results fc)).

(** The current fee. *)
Definition fee self : Str FU :=
  match ma_get (ma_short self) with
  | None => convert_to_unsigned (initial_fee (config self))
  | Some mas =>
      match ma_get (ma_long self) with
      | None => convert_to_unsigned (initial_fee (config self))
      | Some mal =>
          zero ← fixed_zero;
          _ ← Prelude.ensureR (negb (bool_decide (mal = zero)))
            "[RikiddoSigmoidMV] Zero division error during calculation: ma_short / ma_long"%string;
          ratio ← msg (checked_div mas mal) "[RikiddoSigmoidMV] Overflow during calculation: ma_short / ma_long";
          ratio_signed ← convert_to_signed ratio;
          f ← calculate_fee (fees self) ratio_signed;
          convert_to_unsigned f
      end
  end.

Fixpoint sum_all (error : string) (acc : FU) (l : list FU) : Str FU :=
  match l with
  | [] => Ok acc
  | x :: l => acc ← msg (checked_add acc x) error; sum_all error acc l
  end.

(** The exponents and the biggest of them. *)
Fixpoint collect_exponents (denominator : FU) (add_exponents : bool) (biggest_exponent : FS) (l : list FU)
    : CompM (list FS * FS) :=
  match l with
  | [] => mret ([], biggest_exponent)
  | elem :: l =>
      res ← Prelude.lift (msg (checked_div elem denominator)
        "[RikiddoSigmoidMV] Overflow during calculation: expontent_i = asset_balance_i / denominator");
      exponent ← Prelude.lift (convert_to_signed res);
      let biggest_exponent := if gtb exponent biggest_exponent then exponent else biggest_exponent in
      _ ← (if (add_exponents : bool) then
             elem_fs ← Prelude.lift (convert_to_signed elem);
             Prelude.modify (set_exponents <[elem_fs := exponent]>)
           else mret tt);
      rest ← collect_exponents denominator add_exponents biggest_exponent l;
      mret (exponent :: rest.1, rest.2)
  end.

(** The sum of [e^(i - biggest_exponent)]; an exponential that fails is ignored. *)
Fixpoint sum_exponentials (biggest_exponent : FS) (add_results biggest_exponent_used : bool)
    (exp_sum : FS) (l : list FS) : CompM FS :=
  match l with
  | [] => mret exp_sum
  | elem :: l =>
      if negb biggest_exponent_used && bool_decide (elem = biggest_exponent) then
        sum_exponentials biggest_exponent add_results true exp_sum l
      else
        exponent ← Prelude.lift (msg (checked_sub elem biggest_exponent)
          "[RikiddoSigmoidFee] Overflow during calculation: current_exponent - biggest_exponent");
        match exp exponent with
        | Err _ => sum_exponentials biggest_exponent add_results biggest_exponent_used exp_sum l
        | Ok e_power_exponent =>
            _ ← (if (add_results : bool) then Prelude.modify (set_reduced <[elem := e_power_exponent]>)
                 else mret tt);
            exp_sum ← Prelude.lift (msg (checked_add exp_sum e_power_exponent)
              "[RikiddoSigmoidFee] Overflow during calculation: sum_i(e^(i - biggest_exponent))");
            sum_exponentials biggest_exponent add_results biggest_exponent_used exp_sum l
        end
  end.

Definition optimized_cost_strategy (exps : list FS) (biggest_exponent : FS)
    (add_reduced_exponential_results : bool) : CompM FS :=
  max ← Prelude.lift (max_value_u128 FS);
  _ ← Prelude.ensure (1 <=? max) "[RikiddoSigmoidMV] Error, cannot initialize FS with one"%string;
  start ← Prelude.gets one;
  exp_sum ← sum_exponentials biggest_exponent add_reduced_exponential_results false start exps;
  _ ← Prelude.modify (set_sum_exp exp_sum);
  ln_exp_sum ← Prelude.lift (match ln exp_sum with
    | Ok res => Ok res
    | Err _ => Err "[RikiddoSigmoidMV] ln(exp_sum) (optimized), exp_sum <= 0"%string end);
  Prelude.lift (msg (checked_add biggest_exponent ln_exp_sum)
    "[RikiddoSigmoidMV] Overflow during calculation: biggest_exponent + ln(exp_sum) (optimized)").

Definition cost_with_forumla self (asset_balances : list FU) (for_price add_exponents : bool) : CompM FS :=
  _ ← Prelude.ensure (negb (bool_decide (asset_balances = [])))
    "[RikiddoSigmoidMV] No asset balances provided"%string;
  f ← Prelude.lift (fee self);
  f_signed ← Prelude.lift (convert_to_signed f);
  _ ← Prelude.modify (set_fee f_signed);
  zero ← Prelude.lift fixed_zero;
  total_balance ← Prelude.lift
    (sum_all "[RikiddoSigmoidMV] Overflow during summation of asset balances" zero asset_balances);
  total_signed ← Prelude.lift (convert_to_signed total_balance);
  _ ← Prelude.modify (set_sum_balances total_signed);
  denominator ← Prelude.lift (msg (checked_mul f total_balance)
    "[RikiddoSigmoidMV] Overflow during calculation: fee * total_asset_balance");
  denominator_signed ← Prelude.lift (convert_to_signed denominator);
  _ ← Prelude.modify (set_sum_times_fee denominator_signed);
  zero_signed ← Prelude.lift fixed_zero;
  exps ← collect_exponents denominator add_exponents zero_signed asset_balances;
  _ ← Prelude.modify (set_emax exps.2);
  max ← Prelude.lift (max_value_u128 FS);
  _ ← Prelude.ensure (Z.of_nat (length asset_balances) <=? max)
    "[RikidoSigmoidMV] Number of assets does not fit in FS"%string;
  ln_sum_e ← optimized_cost_strategy exps.1 exps.2 add_exponents;
  if (for_price : bool) then
    x ← Prelude.gets fee_;
    Prelude.lift (msg (checked_mul x ln_sum_e)
      "[RikiddoSigmoidMV] Overflow during calculation: fee * ln(sum_i(e^i))")
  else
    x ← Prelude.gets sum_times_fee;
    Prelude.lift (msg (checked_mul x ln_sum_e)
      "[RikiddoSigmoidMV] Overflow during calculation: fee * total_asset_balance * ln(sum_i(e^i))").

Definition cost self (asset_balances : list FU) : Str FU :=
  c ← (cost_with_forumla self asset_balances false false default_components).1;
  convert_to_unsigned c.

(** The exponentials of the first quotient; [None] is an early zero. *)
Fixpoint sum_relative (fc : Components) (asset_in_question_balance exponent_in_question : FS)
    (skipped : bool) (sum : FS) (l : list FS) : Str (option FS) :=
  match l with
  | [] => Ok (Some sum)
  | elem :: l =>
      if bool_decide (elem = asset_in_question_balance) && negb skipped then
        sum_relative fc asset_in_question_balance exponent_in_question true sum l
      else
        elem_div_sum_fee ← msg (exponents fc !! elem)
          "[RikiddoSigmoidMV] Cannot find exponent of asset balance in question RikiddoFormulaComponents HashMap";
        exponent ← msg (checked_sub elem_div_sum_fee exponent_in_question)
          "[RikiddoSigmoidMV] Overflow during calculation: exponent - exponent_balance_in_question";
        exponential_result ← (match exp exponent with Ok res => Ok res | Err _ => fixed_zero end);
        match checked_add sum exponential_result with
        | Some sum => sum_relative fc asset_in_question_balance exponent_in_question skipped sum l
        | None => Ok None
        end
  end.

Definition price_helper_first_quotient (asset_balances : list FS) (asset_in_question_balance : FS) fc
    : Str FS :=
  exponent_in_question ← msg (exponents fc !! asset_in_question_balance)
    "[RikiddoSigmoidMV] Cannot find exponent of asset balance in question in RikiddoFormulaComponents HashMap";
  zero ← fixed_zero;
  sum ← sum_relative fc asset_in_question_balance exponent_in_question false zero asset_balances;
  match s ← sum; s ← checked_add s (one fc); checked_div (one fc) s with
  | Some res => Ok res
  | None => fixed_zero
  end.

(** The sum of the balances weighted by the reduced exponentials. *)
Fixpoint sum_weighted (fc : Components) (skipped : bool) (numerator : FS) (l : list FS) : Str FS :=
  match l with
  | [] => Ok numerator
  | elem :: l =>
      exponent_in_question ← msg (exponents fc !! elem)
        "[RikiddoSigmoidMV] Cannot find exponent of asset balance in question in RikiddoFormulaComponents HashMap";
      let is_emax := bool_decide (exponent_in_question = emax fc) && negb skipped in
      weighted ←
        (if is_emax then Ok elem
         else exponential_result ← msg (reduced_exponential_results fc !! exponent_in_question)
                "[RikiddoSigmoidMV] Cannot find reduced exponential result of current element";
              msg (checked_mul elem exponential_result)
                "[RikiddoSigmoidMV] Overflow during calculation: element * reduced_exponential_result");
      numerator ← msg (checked_add numerator weighted)
        "[RikiddoSigmoidMV] Overflow during calculation: sum_j += elem_times_reduced_exponential_result";
      sum_weighted fc (skipped || is_emax) numerator l
  end.

Definition price_helper_second_quotient (asset_balances : list FS) fc : Str FS :=
  zero ← fixed_zero;
  numerator ← sum_weighted fc false zero asset_balances;
  denominator ← msg (checked_mul (sum_balances fc) (sum_exp fc))
    "[RikiddoSigmoidMV] Overflow during calculation: sum_balances * sum_exp";
  msg (checked_div numerator denominator)
    "[RikiddoSigmoidMV] Overflow during calculation (price helper 2): numerator / denominator".

Definition price_helper_combine_all_parts (cost_part first_quotient second_quotient : FS) : Str FU :=
  quotient_sub ← msg (checked_sub first_quotient second_quotient)
    "[RikiddoSigmoidMV] Overflow during calculation of price: first_quotient - second_quotient";
  res ← msg (checked_add cost_part quotient_sub)
    "[RikiddoSigmoidMV] Overflow during calculation of price: cost_part + quotient_sub";
  convert_to_unsigned res.

(** The quotients and their combination for one asset. *)
Definition price_of (cost_part : FS) (asset_balances_signed : list FS) fc (asset_balance : FS) : Str FU :=
  first_quotient ← price_helper_first_quotient asset_balances_signed asset_balance fc;
  second_quotient ← price_helper_second_quotient asset_balances_signed fc;
  price_helper_combine_all_parts cost_part first_quotient second_quotient.

Definition all_prices self (asset_balances : list FU) : Str (list FU) :=
  asset_balances_signed ← mapM convert_to_signed asset_balances;
  let '(r, fc) := cost_with_forumla self asset_balances true true default_components in
  cost_part ← r;
  mapM (price_of cost_part asset_balances_signed fc) asset_balances_signed.

(** The signed balances and that of the asset in question, the last one found. *)
Fixpoint sign_balances (asset_in_question_balance : FU) (found : option FS) (l : list FU)
    : Str (list FS * option FS) :=
  match l with
  | [] => Ok ([], found)
  | asset_balance :: l =>
      signed_balance ← convert_to_signed asset_balance;
      let found := if bool_decide (asset_balance = asset_in_question_balance) then Some signed_balance
                   else found in
      rest ← sign_balances asset_in_question_balance found l;
      mret (signed_balance :: rest.1, rest.2)
  end.

Definition price self (asset_balances : list FU) (asset_in_question_balance : FU) : Str FU :=
  _ ← (fixed_zero (F := FS));
  signed ← sign_balances asset_in_question_balance None asset_balances;
  asset_in_question_balance_signed ← msg signed.2
    "[RikiddoSigmoidMV] asset_in_question_balance not found in asset_balances";
  let '(r, fc) := cost_with_forumla self asset_balances true true default_components in
  cost_part ← r;
  price_of cost_part signed.1 fc asset_in_question_balance_signed.

Definition initial_outstanding_assets self (num_assets : Z) (subsidy : FU) : Str FU :=
  let conversion_error := "[RikidoSigmoidMV] Number of assets does not fit in FU"%string in
  let denom_error :=
    "[RikidoSigmoidMV] Overflow during calculation: fee * num_assets * ln(num_assets) + 1"%string in
  num_assets_fs ← msg (checked_from_num num_assets) conversion_error;
  fee_times_num_assets ← msg (checked_mul (minimum_fee (fees self)) num_assets_fs)
    "[RikidoSigmoidMV] Overflow during calculation: fee * num_assets";
  ln_num_assets ← (match ln num_assets_fs with
    | Ok res => Ok res | Err _ => Err "[RikiddoSigmoidMV] ln(num_assets) failed"%string end);
  product ← msg (checked_mul fee_times_num_assets ln_num_assets) denom_error;
  one_fs ← msg (checked_from_num 1) conversion_error;
  denominator ← msg (checked_add product one_fs) denom_error;
  subsidy_signed ← convert_to_signed subsidy;
  res ← msg (checked_div subsidy_signed denominator)
    "[RikidoSigmoidMV] Overflow during calculation: numerator / denominator";
  convert_to_unsigned res.

Definition clear_rikiddo self : Rikiddo :=
  mk_RikiddoSigmoidMV (config self) (fees self) (ma_clear (ma_short self)) (ma_clear (ma_long self)).

Definition set_ma_short (m : MA) self : Rikiddo :=
  mk_RikiddoSigmoidMV (config self) (fees self) m (ma_long self).
Definition set_ma_long (m : MA) self : Rikiddo :=
  mk_RikiddoSigmoidMV (config self) (fees self) (ma_short self) m.

Definition update_rikiddo (v : TimestampedVolume FU) : M string Rikiddo (option FU) :=
  mas ← Prelude.zoom ma_short set_ma_short (ma_update_volume v);
  mal ← Prelude.zoom ma_long set_ma_long (ma_update_volume v);
  match mas, mal with
  | Some mas, Some mal =>
      zero ← Prelude.lift fixed_zero;
      if bool_decide (mal = zero) then mret None else mret (Some (saturating_div mas mal))
  | _, _ => mret None
  end.
End RikiddoSigmoidMV.

(** ** Conversion of balances ([utils.rs])

    Making a number goes through the same string as in [FixedDecimal]; reading one is
    the code's own. *)

Class FixedStrings (F : Type) `{Fixed F} := {
  number_from_str : str → option F;
  number_to_string : F → str;
  frac : F → F;
  int : F → F;
  has_frac_bits : bool;
  num_u128 : F → option Z;
}.

Section Decimals.
Context {F : Type} `{FixedStrings F}.

Definition number_from_decimal (decimal : Z) (places : nat) : option F :=
  number_from_str (fixed_decimal_string decimal places).

Definition retain_digits (s : str) : str := filter (λ c, c ≠ dot) s.

(** A number without decimal places. *)
Definition rounded_integer (fixed : F) : Str Z :=
  result ← msg (num_u128 fixed) "The fixed point number does not fit into a u128";
  if has_frac_bits then
    two ← msg (checked_from_num 2) "Unexpectedly failed to convert 2 to fixed point number";
    one ← msg (checked_from_num 1) "Unexpectedly failed to convert 1 to fixed point number";
    half ← msg (checked_div one two) "Unexpected overflow when dividing one by two";
    mret (if leb half (frac fixed) then Prelude.saturating_add u128_max result 1 else result)
  else mret result.

(** The digits of the result. *)
Definition decimal_string (fixed : F) (places : nat) : Str str :=
  let fixed_str := number_to_string fixed in
  if bool_decide (checked_from_num 0 = Some (frac fixed)) then
    Ok (fixed_str ++ replicate places "0"%char)
  else
    let frac_str := drop 2 (number_to_string (frac fixed)) in
    match (length frac_str ?= places)%nat with
    | Lt => Ok (retain_digits fixed_str ++ replicate (places - length frac_str) "0"%char)
    | Gt =>
        match parse_u128 (take (S places) frac_str) with
        | Some res =>
            let last_digit := res mod 10 in
            let res := res / 10 in
            let res := if 5 <=? last_digit then Prelude.saturating_add u128_max res 1 else res in
            Ok (number_to_string (int fixed) ++ u128_to_string res)
        | None => Err "Error parsing the string representation of the fixed point number"%string
        end
    | Eq => Ok (retain_digits fixed_str)
    end.

Definition number_to_decimal (fixed : F) (places : nat) : Str Z :=
  match places with
  | O => rounded_integer fixed
  | _ =>
      fixed_str ← decimal_string fixed places;
      msg (parse_u128 fixed_str) "Error parsing the string representation of the fixed point number"
  end.
End Decimals.

(** ** The pallet ([lib.rs]) *)

Section Pallet.
Context {FU FS FE MA : Type} `{Fixed FU, Fixed FS, !FracInto FU FS, !FracInto FS FU, !Transcendental FS}.
Context `{!Fee FS FE, !MarketAverage FU MA, !FixedStrings FU}.
(** [BalanceFractionalDecimals] *)
Context (places : nat).
Abbreviation Rikiddo := (RikiddoSigmoidMV FS FE MA).
(** [RikiddoPerPool] *)
Abbreviation Pools := (gmap PoolId Rikiddo).

Definition get_rikiddo (poolid : PoolId) (s : Pools) : Res Rikiddo :=
  ok_orR (s !! poolid) RK_RikiddoNotFoundForPool.

Definition convert_balance_to_fixed (balance : Balance) : Res FU :=
  ok_orR (number_from_decimal balance places) RK_FixedConversionImpossible.
Definition convert_fixed_to_balance (fixed : FU) : Res Balance :=
  match number_to_decimal fixed places with
  | Ok res => Ok res
  | Err _ => Err RK_FixedConversionImpossible
  end.
Definition convert_balance_to_fixed_vector (balance : list Balance) : Res (list FU) :=
  mapM convert_balance_to_fixed balance.
Definition convert_fixed_to_balance_vector (fixed : list FU) : Res (list Balance) :=
  mapM convert_fixed_to_balance fixed.

(** A message as an error of the runtime. *)
Definition of_msg {A} (r : Str A) : Res A :=
  match r with Ok x => Ok x | Err e => Err (OtherError e) end.

Definition pallet_all_prices (poolid : PoolId) (asset_balances : list Balance) (s : Pools)
    : Res (list Balance) :=
  rikiddo ← get_rikiddo poolid s;
  balances_fixed ← convert_balance_to_fixed_vector asset_balances;
  prices ← of_msg (all_prices rikiddo balances_fixed);
  convert_fixed_to_balance_vector prices.

(** The instance is read and cleared, but not written back. *)
Definition pallet_clear (poolid : PoolId) : Store Pools unit :=
  r ← gets (get_rikiddo poolid);
  rikiddo ← lift r;
  let _ := clear_rikiddo rikiddo in
  mret tt.

Definition pallet_cost (poolid : PoolId) (asset_balances : list Balance) (s : Pools) : Res Balance :=
  rikiddo ← get_rikiddo poolid s;
  balances_fixed ← convert_balance_to_fixed_vector asset_balances;
  c ← of_msg (cost rikiddo balances_fixed);
  convert_fixed_to_balance c.

Definition pallet_create (poolid : PoolId) (rikiddo : Rikiddo) : Store Pools unit :=
  r ← gets (get_rikiddo poolid);
  _ ← ensure (negb (is_ok r)) RK_RikiddoAlreadyExistsForPool;
  modify <[poolid := rikiddo]>.

Definition pallet_destroy (poolid : PoolId) : Store Pools unit :=
  r ← gets (get_rikiddo poolid);
  _ ← lift r;
  modify (delete poolid).

Definition pallet_fee (poolid : PoolId) (s : Pools) : Res Balance :=
  rikiddo ← get_rikiddo poolid s;
  f ← of_msg (fee rikiddo);
  convert_fixed_to_balance f.

Definition pallet_initial_outstanding_assets (poolid : PoolId) (num_assets : Z) (subsidy : Balance)
    (s : Pools) : Res Balance :=
  rikiddo ← get_rikiddo poolid s;
  subsidy_fixed ← convert_balance_to_fixed subsidy;
  quantity ← of_msg (initial_outstanding_assets rikiddo num_assets subsidy_fixed);
  convert_fixed_to_balance quantity.

Definition pallet_price (poolid : PoolId) (asset_in_question : Balance) (asset_balances : list Balance)
    (s : Pools) : Res Balance :=
  rikiddo ← get_rikiddo poolid s;
  balances_fixed ← convert_balance_to_fixed_vector asset_balances;
  balance_in_question ← convert_balance_to_fixed asset_in_question;
  p ← of_msg (price rikiddo balances_fixed balance_in_question);
  convert_fixed_to_balance p.

(** [now] is the moment of the clock, of which nothing makes seconds. *)
Definition pallet_update_volume (now : UnixTimestamp) (poolid : PoolId) (v : Balance)
    : Store Pools (option Balance) :=
  volume_fixed ← lift (convert_balance_to_fixed v);
  let timestamped_volume := mk_TimestampedVolume now volume_fixed in
  r ← gets (get_rikiddo poolid);
  rikiddo ← lift r;
  let '(res, rikiddo) := update_rikiddo timestamped_volume rikiddo in
  balance_fixed ← lift (of_msg res);
  match balance_fixed with
  | None => _ ← modify <[poolid := rikiddo]>; mret None
  | Some inner =>
      result ← lift (convert_fixed_to_balance inner);
      _ ← modify <[poolid := rikiddo]>;
      mret (Some result)
  end.
End Pallet.
