(* ===== verification/RikiddoTheorems.v ===== *)
(** * Rikiddo: theorems

    The moving average stays, up to rounding, within the volumes it has seen and never overflows, the
    fee is at least the minimal revenue, and pricing all assets at once agrees with
    pricing each; what the pallet does to its storage, and where it departs from its
    documentation. *)
From Stdlib Require Import Ascii.
From S2P Require Import Prelude Types Errors FixedDecimal Rikiddo.

(** Documented arithmetic of an unsigned type: the numbers are the multiples of
    [1 / unit] up to [maximum / unit]; products and quotients round down; a checked
    operation fails exactly when the result does not fit. *)
Class FixedLaws (F : Type) `{Fixed F} := {
  unit_ : Z;
  maximum : Z;
  bits : F → Z;
  unit_pos : 0 < unit_;
  bits_nonneg x : 0 ≤ bits x;
  checked_add_some x y z : checked_add x y = Some z → bits z = bits x + bits y;
  checked_add_fits x y : bits x + bits y ≤ maximum → is_Some (checked_add x y);
  checked_sub_some x y z : checked_sub x y = Some z → bits z = bits x - bits y;
  checked_sub_fits x y : bits y ≤ bits x → is_Some (checked_sub x y);
  checked_mul_some x y z : checked_mul x y = Some z → bits z = bits x * bits y / unit_;
  checked_mul_fits x y : bits x * bits y / unit_ ≤ maximum → is_Some (checked_mul x y);
  checked_div_some x y z : checked_div x y = Some z → 0 < bits y ∧ bits z = bits x * unit_ / bits y;
  checked_div_fits x y : 0 < bits y → bits x * unit_ / bits y ≤ maximum → is_Some (checked_div x y);
  saturating_add_bits x y : bits (saturating_add x y) = Z.min maximum (bits x + bits y);
  plus_bits x y : bits x + bits y ≤ maximum → bits (plus x y) = bits x + bits y;
  leb_bits x y : leb x y = (bits x <=? bits y);
  from_small_bits n : 0 ≤ n ≤ 1 → n * unit_ ≤ maximum → bits (from_small n) = n * unit_;
}.

(** ** The moving average *)
Section Average.
Context {F : Type} `{FixedLaws F}.
Context (estimate_ratio : Z → Z → option F).
Abbreviation update := (update_ema estimate_ratio).
Implicit Types e : EmaMarketVolume F.

(** After [n] volumes between [A] and [B]. The simple mean stays in that range; every
    step of the exponential one rounds two products down and so loses less than two
    bits, that is at most one. *)
Definition ema_ok (A B : Z) (n : nat) e : Prop :=
  match state e with
  | Uninitialized => n = 0%nat
  | DataCollectionStarted =>
      A ≤ bits (ema e) ≤ B ∧ bits (volumes_per_period e) = Z.of_nat n * unit_ ∧ n ≠ 0%nat
  | DataCollected =>
      A - (Z.of_nat n - 1) ≤ bits (ema e) ≤ B ∧ bits (multiplier e) ≤ unit_ ∧ n ≠ 0%nat
  end.

(** A weighted mean is at most the larger value, and at least the smaller one less the
    rounding. *)
Lemma weighted_ge v x m A k :
  0 ≤ m ≤ unit_ → 0 ≤ k → A ≤ v → A - k ≤ x →
  A - k - 1 ≤ v * m / unit_ + x * (unit_ - m) / unit_.
Proof.
  intros Hm Hk Hv Hx. pose proof unit_pos as Hu.
  pose proof (Z.mul_succ_div_gt (v * m) unit_ Hu). pose proof (Z.mul_succ_div_gt (x * (unit_ - m)) unit_ Hu).
  assert ((A - k) * m ≤ v * m) by nia. assert ((A - k) * (unit_ - m) ≤ x * (unit_ - m)) by nia. nia.
Qed.
Lemma weighted_le v x m B :
  0 ≤ v ≤ B → 0 ≤ x ≤ B → 0 ≤ m ≤ unit_ →
  v * m / unit_ + x * (unit_ - m) / unit_ ≤ B.
Proof.
  intros Hv Hx Hm. pose proof unit_pos as Hu.
  pose proof (Z.mul_div_le (v * m) unit_ Hu). pose proof (Z.mul_div_le (x * (unit_ - m)) unit_ Hu).
  assert (v * m ≤ B * m) by nia. assert (x * (unit_ - m) ≤ B * (unit_ - m)) by nia. nia.
Qed.

Lemma calculate_ema_inv v e r e' :
  unit_ ≤ maximum → calculate_ema v e = (Ok r, e') →
  bits (multiplier e) ≤ unit_ ∧ r = Some (ema e') ∧ e' = set_ema (ema e') e ∧
  bits (ema e') = bits (volume v) * bits (multiplier e) / unit_
                  + bits (ema e) * (unit_ - bits (multiplier e)) / unit_.
Proof.
  intros Hu Hr. unfold calculate_ema, msg in Hr. run_inv Hr.
  repeat match goal with Hc : Prelude.ok_orR _ _ = Ok _ |- _ => apply ok_orR_ok_inv in Hc end.
  repeat match goal with
  | Hc : checked_mul _ _ = Some _ |- _ => apply checked_mul_some in Hc
  | Hc : checked_add _ _ = Some _ |- _ => apply checked_add_some in Hc
  | Hc : checked_sub _ _ = Some _ |- _ => apply checked_sub_some in Hc
  end.
  rewrite from_small_bits, Z.mul_1_l in * by lia.
  pose proof unit_pos. 
  repeat match goal with Hc : bits ?x = _ |- _ =>
    lazymatch goal with Hb : 0 ≤ bits x |- _ => fail | _ => pose proof (bits_nonneg x) end end.
  split; [lia|split; [done|split; [done|]]]. cbn. congruence.
Qed.

(** The inversions of the checked operations in the context. *)
Ltac checked :=
  unfold msg in *;
  repeat match goal with Hc : Prelude.ok_orR _ _ = Ok _ |- _ => apply ok_orR_ok_inv in Hc end;
  repeat match goal with
  | Hc : checked_mul _ _ = Some _ |- _ => apply checked_mul_some in Hc
  | Hc : checked_add _ _ = Some _ |- _ => apply checked_add_some in Hc
  | Hc : checked_sub _ _ = Some _ |- _ => apply checked_sub_some in Hc
  | Hc : checked_div _ _ = Some _ |- _ => apply checked_div_some in Hc as [? Hc]
  end.

Lemma calculate_sma_inv v e r e' :
  calculate_sma v e = (Ok r, e') →
  e' = set_ema (ema e') e ∧
  bits (ema e') = (bits (ema e) * bits (volumes_per_period e) / unit_ + bits (volume v)) * unit_
                  / bits (saturating_add (volumes_per_period e) (from_small 1)).
Proof.
  intros Hr. unfold calculate_sma in Hr. run_inv Hr. checked. split; [done|]. cbn. congruence.
Qed.

(** The mean of [n] volumes and one more. *)
Lemma mean_between x v (n : nat) A B :
  A ≤ x ≤ B → A ≤ v ≤ B →
  A ≤ (x * (Z.of_nat n * unit_) / unit_ + v) * unit_ / (Z.of_nat (S n) * unit_) ≤ B.
Proof.
  intros Hx Hv. pose proof unit_pos. rewrite Z.mul_assoc, Z.div_mul by lia.
  rewrite Z.div_mul_cancel_r by lia.
  split; [apply Z.div_le_lower_bound; [lia|]|apply Z.div_le_upper_bound; [lia|]]; nia.
Qed.

Lemma extrapolate_inv e u e' :
  extrapolate estimate_ratio e = (Ok u, e') → ∃ x, e' = set_volumes_per_period x e.
Proof.
  intros Hx. unfold extrapolate in Hx. destruct (ema_period_estimate_after (ema_conf e)) as [t|].
  - run_inv Hx. by eexists.
  - injection Hx as _ <-. exists (volumes_per_period e). by destruct e.
Qed.

Lemma update_ema_inv v e r e' :
  update v e = (Ok r, e') →
  last_time e ≤ timestamp v ∧
  ∃ e1, evaluate estimate_ratio v e = (Ok r, e1) ∧ e' = set_last_time (timestamp v) e1.
Proof.
  intros Hr. unfold update_ema in Hr. run_inv Hr. guards.
  split; [done|]. eexists. split; [|reflexivity]. done.
Qed.

(** One volume more. *)
Lemma evaluate_ok A B n v e r e' :
  Z.of_nat (S n) * unit_ ≤ maximum → A ≤ bits (volume v) ≤ B →
  ema_ok A B n e → evaluate estimate_ratio v e = (Ok r, e') →
  ema_ok A B (S n) e' ∧ r = get e' ∧ ema_conf e' = ema_conf e.
Proof.
  intros Hn Hv He Hr. pose proof unit_pos as Hu. pose proof (bits_nonneg (volume v)).
  unfold evaluate in Hr. unfold ema_ok in He. destruct (state e) eqn:Hst.
  - injection Hr as <- <-. subst n. split; [|done]. cbn -[Z.mul]. rewrite from_small_bits by lia. lia.
  - destruct He as (He & Hvpp & Hn0). pose proof (bits_nonneg (ema e)). destruct (_ && _).
    + run_inv Hr. apply extrapolate_inv in Hm as [x ->]. unfold derive_multiplier in Hm0. run_inv Hm0.
      apply calculate_ema_inv in Hr as (Hmul & -> & E & Hema); [|lia].
      cbn [multiplier ema set_state set_multiplier set_volumes_per_period] in Hmul, Hema.
      rewrite E. split; [|done]. split; [|by split]. cbn [ema set_ema]. rewrite Hema.
      match goal with |- context [unit_ - bits ?y] => pose proof (bits_nonneg y) end. split; [|apply weighted_le; lia].
      etransitivity; [|apply (weighted_ge _ _ _ A 0); lia]. lia.
    + run_inv Hr. apply calculate_sma_inv in Hm as [E Hs]. rewrite E.
      cbn [volumes_per_period set_ema set_volumes_per_period].
      rewrite saturating_add_bits, Hvpp, from_small_bits, Z.min_r in Hs by lia.
      split; [|split; [|done]].
      * unfold ema_ok. cbn [state ema set_ema set_volumes_per_period volumes_per_period]. rewrite Hst.
        rewrite saturating_add_bits, Hvpp, from_small_bits, Z.min_r by lia.
        split; [|split; [lia|done]]. rewrite Hs.
        replace (Z.of_nat n * unit_ + 1 * unit_) with (Z.of_nat (S n) * unit_) by lia.
        by apply mean_between.
      * unfold get. cbn. by rewrite Hst.
  - destruct He as (He & Hm & Hn0). pose proof (bits_nonneg (ema e)). pose proof (bits_nonneg (multiplier e)).
    apply calculate_ema_inv in Hr as (_ & -> & E & Hema); [|lia]. rewrite E. unfold ema_ok, get.
    cbn [state ema set_ema multiplier ema_conf]. rewrite Hst. split; [|done]. split; [|done].
    rewrite Hema. split; [|apply weighted_le; lia].
    etransitivity; [|apply (weighted_ge _ _ _ A (Z.of_nat n - 1)); lia]. lia.
Qed.

(** The checked operations do not fail where their results fit. *)
Lemma lift_some_bind {S A B} (o : option A) (er : string) (k : A → M string S B) (s : S) :
  is_Some o → ∃ x, o = Some x ∧ (Prelude.lift (msg o er) ≫= k) s = k x s.
Proof. intros [x ->]. by exists x. Qed.
Ltac fits lemma :=
  match goal with |- context [(Prelude.lift (msg ?o ?e) ≫= ?k) ?s] =>
    let x := fresh "x" in let Hx := fresh "Hx" in let Hr := fresh "Hr" in
    destruct (lift_some_bind o e k s) as (x & Hx & Hr); [apply lemma|rewrite Hr; clear Hr]
  end.

Lemma calculate_ema_total B v e :
  unit_ ≤ maximum → B ≤ maximum → bits (volume v) ≤ B → bits (ema e) ≤ B → bits (multiplier e) ≤ unit_ →
  ∃ r e', calculate_ema v e = (Ok r, e').
Proof.
  intros Hu HB Hv He Hm. pose proof unit_pos. pose proof (bits_nonneg (volume v)).
  pose proof (bits_nonneg (ema e)). pose proof (bits_nonneg (multiplier e)).
  unfold calculate_ema. fits checked_mul_fits.
  { apply Z.div_le_upper_bound; [done|]. nia. }
  fits checked_sub_fits; [rewrite from_small_bits; lia|].
  apply checked_sub_some in Hx0. rewrite from_small_bits, Z.mul_1_l in Hx0 by lia.
  apply checked_mul_some in Hx. fits checked_mul_fits.
  { rewrite Hx0. apply Z.div_le_upper_bound; [done|]. nia. }
  apply checked_mul_some in Hx1. fits checked_add_fits.
  { rewrite Hx, Hx1, Hx0. etransitivity; [apply weighted_le|exact HB]; lia. }
  eexists _, _. reflexivity.
Qed.

Lemma evaluate_total A B n v e :
  ema_period_estimate_after (ema_conf e) = None →
  Z.of_nat (S n) * unit_ ≤ maximum → Z.of_nat (S n) * B ≤ maximum → bits (volume v) ≤ B →
  ema_ok A B n e → ∃ r e', evaluate estimate_ratio v e = (Ok r, e').
Proof.
  intros Hno Hn HB Hv He. pose proof unit_pos as Hu. pose proof (bits_nonneg (volume v)).
  unfold evaluate. unfold ema_ok in He. destruct (state e) eqn:Hst; [eauto|..].
  2:{ destruct He as (? & ? & _). apply (calculate_ema_total B); done || lia || nia. }
  destruct He as (He & Hvpp & Hn0). pose proof (bits_nonneg (ema e)). destruct (_ && _) eqn:Hcond.
  - apply andb_true_iff in Hcond as [_ Hsm]. rewrite leb_bits, plus_bits in Hsm
      by (rewrite Hvpp, from_small_bits; lia).
    apply Z.leb_le in Hsm. rewrite Hvpp, from_small_bits in Hsm by lia.
    assert (extrapolate estimate_ratio e = (Ok tt, e)) as Hx by (unfold extrapolate; by rewrite Hno).
    rewrite (bind_ok _ _ _ _ _ Hx).
    assert (∃ x, derive_multiplier e = (Ok tt, set_multiplier x e) ∧ bits x ≤ unit_) as (x & Hd & Hle).
    { unfold derive_multiplier.
      assert (bits (smoothing (ema_conf e)) * unit_ /
        bits (saturating_add (volumes_per_period e) (from_small 1)) ≤ unit_) as Hdiv.
      { rewrite saturating_add_bits, Hvpp, from_small_bits, Z.min_r by lia.
        apply Z.div_le_upper_bound; [lia|]. pose proof (bits_nonneg (smoothing (ema_conf e))). nia. }
      fits checked_div_fits; [|lia|].
      { rewrite saturating_add_bits, Hvpp, from_small_bits by lia. lia. }
      exists x. split; [done|]. apply checked_div_some in Hx0 as [_ ->]. done. }
    rewrite (bind_ok _ _ _ _ _ Hd), modify_bind.
    apply (calculate_ema_total B); cbn [ema multiplier set_state set_multiplier]; done || lia || nia.
  - assert (∃ r e', calculate_sma v e = (Ok r, e')) as (r & e' & Hs).
    { unfold calculate_sma. fits checked_mul_fits.
      { rewrite Hvpp, Z.mul_assoc, Z.div_mul by lia. nia. }
      apply checked_mul_some in Hx. rewrite Hvpp, Z.mul_assoc, Z.div_mul in Hx by lia.
      fits checked_add_fits; [rewrite Hx; nia|]. apply checked_add_some in Hx0.
      fits checked_div_fits; [..|by eexists _, _].
      - rewrite saturating_add_bits, Hvpp, from_small_bits by lia. lia.
      - rewrite saturating_add_bits, Hvpp, from_small_bits, Z.min_r, Hx0, Hx by lia.
        replace (Z.of_nat n * unit_ + 1 * unit_) with (Z.of_nat (S n) * unit_) by lia.
        rewrite Z.div_mul_cancel_r by lia. apply Z.div_le_upper_bound; [lia|]. nia. }
    rewrite (bind_ok _ _ _ _ _ Hs). eexists _, _. reflexivity.
Qed.

(** A sequence of volumes. *)
Fixpoint updates (vs : list (TimestampedVolume F)) : M string (EmaMarketVolume F) (list (option F)) :=
  match vs with
  | [] => mret []
  | v :: vs => r ← update v; rs ← updates vs; mret (r :: rs)
  end.
(** The timestamps are not older than [t] and in order. *)
Fixpoint ordered (t : Z) (vs : list (TimestampedVolume F)) : Prop :=
  match vs with
  | [] => True
  | v :: vs => t ≤ timestamp v ∧ ordered (timestamp v) vs
  end.

Lemma ema_ok_last_time A B n t e : ema_ok A B n e → ema_ok A B n (set_last_time t e).
Proof. unfold ema_ok. by destruct e. Qed.

Lemma updates_bounded A B vs n e rs e' :
  Z.of_nat (n + length vs) * unit_ ≤ maximum → (∀ v, v ∈ vs → A ≤ bits (volume v) ≤ B) →
  ema_ok A B n e → updates vs e = (Ok rs, e') →
  ∀ i x, rs !! i = Some (Some x) → A - Z.of_nat (n + i) ≤ bits x ≤ B.
Proof.
  revert n e rs. induction vs as [|v vs IH]; intros n e rs Hn Hv He Hr i x Hx; cbn [updates] in Hr.
  - injection Hr as <- _. done.
  - apply bind_ok_inv in Hr as (r & e1 & Hu & Hr). apply bind_ok_inv in Hr as (rs' & e2 & Hrs & Hr).
    injection Hr as <- ->. apply update_ema_inv in Hu as (_ & e3 & Hev & ->). pose proof unit_pos. cbn [length] in Hn.
    apply (evaluate_ok A B n) in Hev as (Hok & Hget & Hcf); [|nia|apply Hv; by left|done].
    destruct i as [|i].
    + injection Hx as ->. unfold get in Hget. unfold ema_ok in Hok. destruct (state e3); try done.
      injection Hget as ->. lia.
    + replace (n + S i)%nat with (S n + i)%nat by lia.
      eapply (IH (S n)); [| |by apply ema_ok_last_time|exact Hrs|exact Hx]; [|intros w Hw; apply Hv; by right].
      replace (S n + length vs)%nat with (n + S (length vs))%nat by lia. done.
Qed.

Lemma updates_total A B vs n e :
  ema_period_estimate_after (ema_conf e) = None →
  Z.of_nat (n + length vs) * Z.max B unit_ ≤ maximum → (∀ v, v ∈ vs → A ≤ bits (volume v) ≤ B) →
  ordered (last_time e) vs → ema_ok A B n e → ∃ rs e', updates vs e = (Ok rs, e').
Proof.
  revert n e. induction vs as [|v vs IH]; intros n e Hno Hn Hv Ho He; cbn [updates]; [by eexists _, _|].
  destruct Ho as [Ht Ho]. cbn [length] in Hn. pose proof unit_pos.
  assert (Z.of_nat (S n) * Z.max B unit_ ≤ maximum) by nia.
  destruct (evaluate_total A B n v e) as (r & e1 & Hev); [done|nia|nia|apply Hv; by left|done|].
  pose proof Hev as Hev'. apply (evaluate_ok A B n) in Hev' as (Hok & _ & Hcf); [|nia|apply Hv; by left|done].
  assert (update v e = (Ok r, set_last_time (timestamp v) e1)) as Hu.
  { unfold update_ema. rewrite ensure_true_bind by (by apply Z.leb_le). by rewrite (bind_ok _ _ _ _ _ Hev). }
  rewrite (bind_ok _ _ _ _ _ Hu).
  destruct (IH (S n) (set_last_time (timestamp v) e1)) as (rs & e2 & Hrs).
  - by rewrite <- Hno, <- Hcf.
  - replace (S n + length vs)%nat with (n + S (length vs))%nat by lia. done.
  - intros w Hw. apply Hv. by right.
  - done.
  - by apply ema_ok_last_time.
  - rewrite (bind_ok _ _ _ _ _ Hrs). by eexists _, _.
Qed.

(** (C38) The moving average that is reported after the volume number [i] (counted from
    zero) is never above the volumes it has seen, and below them by at most [i] bits of
    the fixed point type: every update rounds by at most one. Without an estimate of
    the number of volumes it never fails either, whatever its period and its smoothing
    factor, as long as the sum of the volumes fits. *)
Theorem average_bounded c A B vs :
  Z.of_nat (length vs) * Z.max B unit_ ≤ maximum → (∀ v, v ∈ vs → A ≤ bits (volume v) ≤ B) →
  (∀ rs e, updates vs (ema_new c) = (Ok rs, e) →
     ∀ i x, rs !! i = Some (Some x) → A - Z.of_nat i ≤ bits x ≤ B) ∧
  (ema_period_estimate_after c = None → ordered 0 vs → ∃ rs e, updates vs (ema_new c) = (Ok rs, e)).
Proof.
  intros Hn Hv. pose proof unit_pos. split.
  - intros rs e. apply (updates_bounded A B vs 0); [cbn; nia|done|done].
  - intros Hno Ho. by apply (updates_total A B vs 0).
Qed.
End Average.

(** ** Prices and fees *)
Section Prices.
Context {FU FS FE MA : Type} `{Fixed FU, Fixed FS, !FracInto FU FS, !FracInto FS FU, !Transcendental FS}.
Context `{!Fee FS FE, !MarketAverage FU MA}.
Implicit Types self : RikiddoSigmoidMV FS FE MA.
Abbreviation sign := (convert_to_signed (FROM := FU) (TO := FS)).

Lemma mapM_Forall2 {E A B} (f : A → result E B) l k : mapM f l = Ok k ↔ Forall2 (λ x y, f x = Ok y) l k.
Proof.
  split.
  - revert k. induction l as [|x l IH]; intros k; cbn.
    + intros [= <-]. constructor.
    + destruct (f x) as [y|] eqn:Hy; [|done]. cbn. destruct (mapM f l) as [k'|]; [|done].
      intros [= <-]. constructor; [done|by apply IH].
  - induction 1 as [|x y l k Hy _ IH]; [done|]. cbn. rewrite Hy. cbn. by rewrite IH.
Qed.

Lemma sign_balances_ok x f l s :
  mapM sign l = Ok s → x ∈ l → ∃ sx, sign x = Ok sx ∧ sign_balances x f l = Ok (s, Some sx).
Proof.
  intros Hs Hin. apply mapM_Forall2 in Hs.
  assert (∃ sx, sign x = Ok sx) as [sx Hsx].
  { apply list_elem_of_lookup in Hin as [i Hi]. destruct (Forall2_lookup_l _ _ _ _ _ Hs Hi) as (y & _ & Hy). eauto. }
  exists sx. split; [done|]. assert (x ∈ l ∨ f = Some sx) as Hor by (by left). clear Hin.
  revert f Hor. induction Hs as [|y z l s Hy Hs IH]; intros f Hor; cbn [sign_balances].
  - destruct Hor as [Hin| ->]; [by apply elem_of_nil in Hin|done].
  - rewrite Hy. cbn [mbind result_bind].
    rewrite (IH (if bool_decide (y = x) then Some z else f)); [done|].
    destruct (bool_decide_reflect (y = x)) as [->|Hne].
    + right. congruence.
    + destruct Hor as [Hin| ->]; [left|by right]. apply elem_of_cons in Hin as [->|]; done.
Qed.
Lemma sign_balances_mapM x f l s o : sign_balances x f l = Ok (s, o) → mapM sign l = Ok s.
Proof.
  revert f s o. induction l as [|y l IH]; intros f s o Hr; cbn in Hr.
  - by injection Hr as <- _.
  - cbn. destruct (sign y) as [z|] eqn:Hy; [|done]. cbn in *.
    destruct (sign_balances x _ l) as [[s' o']|] eqn:Hs; [|done]. injection Hr as <- _.
    by rewrite (IH _ _ _ Hs).
Qed.

Lemma cost_zero self l b1 b2 fc x fc' :
  cost_with_forumla self l b1 b2 fc = (Ok x, fc') → is_ok (fixed_zero (F := FS)) = true.
Proof.
  intros Hr. unfold cost_with_forumla in Hr.
  repeat (apply bind_ok_inv in Hr as (? & ? & Hm & Hr);
          first [match type of Hm with Prelude.lift (fixed_zero (F := FS)) _ = _ =>
            apply lift_ok_inv in Hm as [Hm _]; by rewrite Hm end|clear Hm]).
Qed.

(** Pricing all assets at once gives for every asset the price that it has alone, and
    succeeds exactly when every asset has a price. *)
Theorem all_prices_price self l ps :
  l ≠ [] → all_prices self l = Ok ps ↔ Forall2 (λ x p, price self l x = Ok p) l ps.
Proof.
  intros Hne. unfold all_prices.
  assert (∀ x p, price self l x = Ok p → ∃ s c fc, mapM sign l = Ok s ∧
    cost_with_forumla self l true true default_components = (Ok c, fc)) as Hparts.
  { intros x p Hp. unfold price in Hp. apply bindR_ok_inv in Hp as (z & _ & Hp).
    apply bindR_ok_inv in Hp as ([s o] & Hs & Hp). apply bindR_ok_inv in Hp as (sx & _ & Hp).
    destruct (cost_with_forumla self l true true default_components) as [[c|e] fc]; [|done].
    apply sign_balances_mapM in Hs. eauto. }
  destruct (mapM sign l) as [s|e] eqn:Hs; cbn [mbind result_bind].
  2:{ split; [done|]. intros Hf. destruct l as [|x l]; [done|]. apply Forall2_cons_inv_l in Hf as (p & ? & Hp & _ & _).
      by destruct (Hparts x p Hp) as (? & ? & ? & ? & _). }
  destruct (cost_with_forumla self l true true default_components) as [[c|e] fc] eqn:Hc; cbn [mbind result_bind].
  2:{ split; [done|]. intros Hf. destruct l as [|x l]; [done|]. apply Forall2_cons_inv_l in Hf as (p & ? & Hp & _ & _).
      by destruct (Hparts x p Hp) as (? & ? & ? & _ & ?). }
  assert (∀ x, x ∈ l → ∃ sx, sign x = Ok sx ∧ ∀ p, price self l x = Ok p ↔ price_of c s fc sx = Ok p) as Hprice.
  { intros x Hx. destruct (sign_balances_ok x None l s Hs Hx) as (sx & Hsx & Hb). exists sx.
    split; [done|]. intros p. unfold price. pose proof (cost_zero self l _ _ _ _ _ Hc) as Hz.
    destruct (fixed_zero (F := FS)); [|done]. cbn [mbind result_bind]. rewrite Hb. cbn [mbind result_bind].
    by rewrite Hc. }
  rewrite mapM_Forall2. apply mapM_Forall2 in Hs. clear Hc Hparts Hne. revert Hs Hprice.
  assert (∀ k t, Forall2 (λ x y, sign x = Ok y) k t →
    (∀ x, x ∈ k → ∃ sx, sign x = Ok sx ∧ ∀ p, price self l x = Ok p ↔ price_of c s fc sx = Ok p) →
    ∀ ps, Forall2 (λ y p, price_of c s fc y = Ok p) t ps ↔ Forall2 (λ x p, price self l x = Ok p) k ps) as Hgen;
    [|intros Hs Hp; by apply Hgen].
  intros k t Hs. induction Hs as [|x y k t Hy Hs IH]; intros Hp ps'.
  - split; intros Hf; by inversion Hf.
  - destruct (Hp x ltac:(by left)) as (sx & Hsx & Hiff). assert (sx = y) as -> by congruence.
    split; intros Hf; inversion Hf; subst; (constructor; [by apply Hiff|]);
      apply IH; auto; intros w Hw; apply Hp; by right.
Qed.
End Prices.

(** ** The pallet *)
Section PalletFacts.
Context {FU FS FE MA : Type} `{Fixed FU, Fixed FS, !FracInto FU FS, !FracInto FS FU, !Transcendental FS}.
Context `{!Fee FS FE, !MarketAverage FU MA, !FixedStrings FU}.
Context (places : nat).
Abbreviation Pools := (gmap PoolId (RikiddoSigmoidMV FS FE MA)).
Implicit Types s : Pools.

(** An update of the volume changes the instance of its pool, and nothing when it fails. *)
Lemma pallet_update_atomic now id v s :
  match pallet_update_volume places now id v s with
  | (Ok _, s') => ∃ x k k' r, convert_balance_to_fixed places v = Ok x ∧ s !! id = Some k ∧
      update_rikiddo (mk_TimestampedVolume now x) k = (Ok r, k') ∧ s' = <[id := k']> s
  | (Err _, s') => s' = s
  end.
Proof.
  unfold pallet_update_volume. destruct (convert_balance_to_fixed places v) as [x|e] eqn:Hx; [|done].
  rewrite lift_ok_bind with (a := x) by done. rewrite gets_bind. unfold get_rikiddo.
  destruct (s !! id) as [k|] eqn:Hk; [|done]. rewrite lift_ok_bind with (a := k) by done.
  destruct (update_rikiddo (mk_TimestampedVolume now x) k) as [[[y|]|e] k'] eqn:Hu; [| |done].
  - rewrite lift_ok_bind with (a := Some y) by done.
    destruct (convert_fixed_to_balance places y) as [b|e]; [|done].
    rewrite lift_ok_bind with (a := b) by done. cbn. by exists x, k, k', (Some y).
  - rewrite lift_ok_bind with (a := None) by done. cbn. by exists x, k, k', None.
Qed.

(** Clearing the market data of a pool changes nothing. *)
Lemma pallet_clear_keeps id s : (pallet_clear id s).2 = s.
Proof. unfold pallet_clear, get_rikiddo. rewrite gets_bind. by destruct (s !! id). Qed.
End PalletFacts.

(** ** Examples *)
Module RikiddoExample.
Import FixedExample.

(** 128 bits with 33 fractional bits, unsigned ([N]) and signed ([Z]). *)
Definition unit33 : Z := 2 ^ 33.
Definition max33 : Z := 2 ^ 128 - 1.
Definition signed (x : Z) : option Z := if (- 2 ^ 127 <=? x) && (x <? 2 ^ 127) then Some x else None.

#[local] Instance fixed_unsigned : Fixed N := {
  checked_add x y := fits (Z.of_N x + Z.of_N y);
  checked_sub x y := if (y <=? x)%N then Some (x - y)%N else None;
  checked_mul x y := fits (Z.of_N x * Z.of_N y / unit33);
  checked_div x y := if (y =? 0)%N then None else fits (Z.of_N x * unit33 / Z.of_N y);
  saturating_add x y := Z.to_N (Z.min max33 (Z.of_N x + Z.of_N y));
  saturating_div x y := Z.to_N (Z.min max33 (Z.of_N x * unit33 / Z.of_N y));
  saturating_ceil x := Z.to_N (Z.min max33 ((Z.of_N x + unit33 - 1) / unit33 * unit33));
  plus := N.add;
  leb := N.leb;
  from_small n := Z.to_N (n * unit33);
  checked_from_num n := fits (n * unit33);
  int_u128 x := Some (Z.of_N x / unit33);
  max_int_u128 := Some (max33 / unit33);
}.
#[local] Instance fixed_signed : Fixed Z := {
  checked_add x y := signed (x + y);
  checked_sub x y := signed (x - y);
  checked_mul x y := signed (x * y / unit33);
  checked_div x y := if y =? 0 then None else signed (x * unit33 / y);
  saturating_add x y := Z.min (2 ^ 127 - 1) (x + y);
  saturating_div x y := Z.min (2 ^ 127 - 1) (x * unit33 / y);
  saturating_ceil x := (x + unit33 - 1) / unit33 * unit33;
  plus := Z.add;
  leb := Z.leb;
  from_small n := n * unit33;
  checked_from_num n := signed (n * unit33);
  int_u128 x := Some (x / unit33);
  max_int_u128 := Some ((2 ^ 127 - 1) / unit33);
}.
#[local] Instance frac_signed : FracInto N Z := { frac_into x := Some (Z.of_N x mod unit33) }.
#[local] Instance frac_unsigned : FracInto Z N := { frac_into x := Some (Z.to_N (x mod unit33)) }.

(** A series for the exponential, which fails when it overflows. *)
Fixpoint exp_terms (fuel : nat) (k term x : Z) : Z :=
  match fuel with
  | O => term
  | S fuel => term + exp_terms fuel (k + 1) (term * x / unit33 / k) x
  end.
Definition exp33 (x : Z) : Z := exp_terms 200 1 unit33 x.
Fixpoint ln_bisect (fuel : nat) (lo hi y : Z) : Z :=
  match fuel with
  | O => lo
  | S fuel =>
      let mid := (lo + hi) / 2 in
      if exp33 mid <=? y then ln_bisect fuel mid hi y else ln_bisect fuel lo mid y
  end.
#[local] Instance transcendental_signed : Transcendental Z := {
  exp x := let e := exp33 (Z.abs x) in
           if 2 ^ 127 <=? e then Err "overflow"%string
           else Ok (if 0 <=? x then e else unit33 * unit33 / e);
  ln y := if y <? unit33 then Err "out of range"%string else Ok (ln_bisect 45 0 (60 * unit33) y);
  sqrt x := if x <? 0 then Err "out of range"%string else Ok (Z.sqrt (x * unit33));
}.

Lemma fits_some x : 0 ≤ x ≤ max33 → is_Some (fits x).
Proof.
  intros Hx. unfold fits, max33 in *. rewrite (proj2 (Z.leb_le _ _)), (proj2 (Z.ltb_lt _ _)) by lia. by eexists.
Qed.
#[local] Instance unsigned_laws : FixedLaws N.
Proof.
  assert (0 < unit33) as Hu by done.
  refine {| unit_ := unit33; maximum := max33; bits := Z.of_N |}; [done|apply N2Z.is_nonneg|..].
  - intros x y z Hz. by apply fits_inv in Hz as [_ ->].
  - intros x y Hle. apply fits_some. lia.
  - intros x y z Hz. cbn in Hz. destruct (N.leb_spec y x); [|done]. injection Hz as <-. lia.
  - intros x y Hle. cbn. destruct (N.leb_spec y x); [by eexists|lia].
  - intros x y z Hz. by apply fits_inv in Hz as [_ ->].
  - intros x y Hle. apply fits_some. split; [apply Z.div_pos; lia|done].
  - intros x y z Hz. cbn in Hz. destruct (N.eqb_spec y 0); [done|]. apply fits_inv in Hz as [_ ->]. lia.
  - intros x y Hy Hle. cbn. destruct (N.eqb_spec y 0); [lia|]. apply fits_some.
    split; [apply Z.div_pos; lia|done].
  - intros x y. cbn. rewrite Z2N.id; unfold max33; lia.
  - intros x y _. apply N2Z.inj_add.
  - intros x y. cbn. destruct (N.leb_spec x y), (Z.leb_spec (Z.of_N x) (Z.of_N y)); lia || done.
  - intros n Hn _. cbn. rewrite Z2N.id; lia.
Defined.

(** The average with the default configuration: volumes of 10, 20 and 30, and one after
    the first hour. *)
Definition num (n : Z) : N := Z.to_N (n * unit33).
Definition ratio33 (a b : Z) : option N := fits (a * unit33 / b).
Definition hourly : EmaConfig N := ema_config (Hours 1) None (num 2).
Definition volumes : list (TimestampedVolume N) :=
  [mk_TimestampedVolume 100 (num 10); mk_TimestampedVolume 200 (num 20);
   mk_TimestampedVolume 300 (num 30); mk_TimestampedVolume 4000 (num 60)].

Lemma average_bounded_witness :
  (∃ rs e, updates ratio33 volumes (ema_new hourly) = (Ok rs, e) ∧
     ∀ i x, rs !! i = Some (Some x) → 10 * unit33 - Z.of_nat i ≤ bits x ≤ 60 * unit33) ∧
  (updates ratio33 volumes (ema_new hourly)).1 = Ok [None; None; None; Some (num 40)].
Proof.
  split; [|by vm_compute].
  destruct (average_bounded ratio33 hourly (10 * unit33) (60 * unit33) volumes) as [Hb Ht].
  - vm_compute; discriminate.
  - intros v Hv. repeat (apply elem_of_cons in Hv as [->|Hv]; [split; vm_compute; discriminate|]).
    by apply elem_of_nil in Hv.
  - destruct Ht as (rs & e & Hr); [done|by repeat split|]. exists rs, e. split; [done|exact (Hb rs e Hr)].
Defined.

(** Rounding takes the average below the volumes: three bits each have an average of two. *)
Example average_rounds_down :
  (updates ratio33 [mk_TimestampedVolume 100 3%N; mk_TimestampedVolume 200 3%N; mk_TimestampedVolume 4000 3%N]
     (ema_new hourly)).1 = Ok [None; None; Some 2%N].
Proof. by vm_compute. Qed.

(** A market with the initial fee of half a percent. *)
Definition sigmoid : FeeSigmoidConfig Z :=
  mk_FeeSigmoidConfig (unit33 / 100) (2 * unit33) 0 (unit33 / 200) (7 * unit33 / 2000).
Definition rikiddo : RikiddoSigmoidMV Z (FeeSigmoidConfig Z) (EmaMarketVolume N) :=
  mk_RikiddoSigmoidMV (mk_RikiddoConfig (unit33 / 200) 0) sigmoid (ema_new hourly) (ema_new hourly).
#[local] Instance average : MarketAverage N (EmaMarketVolume N) := Ema_average ratio33.

Definition balances : list N := [num 100; num 110; num 110].
Definition quoted : list N := Eval vm_compute in match all_prices rikiddo balances with Ok ps => ps | Err _ => [] end.

Lemma all_prices_price_witness :
  Forall2 (λ x p, price rikiddo balances x = Ok p) balances quoted ∧ length quoted = 3%nat.
Proof.
  split; [|by vm_compute].
  apply (all_prices_price rikiddo balances quoted ltac:(done)). vm_compute. reflexivity.
Defined.

(** *** Observations *)

(** Where an exponential overflows the cost ignores it, but no asset has a price. *)
Example price_needs_exponentials :
  is_ok (cost rikiddo [num 10; num 100]) = true ∧
  price rikiddo [num 10; num 100] (num 100) =
    Err "[RikiddoSigmoidMV] Cannot find reduced exponential result of current element"%string.
Proof. by vm_compute. Qed.

(** The estimate may come after the period when its unit is a smaller one. *)
Example estimate_compares_units :
  ema_period_estimate_after (ema_config (Hours 1) (Some (Seconds 7200)) (num 2)) = Some (Seconds 7200).
Proof. done. Qed.

(** The fee is the larger of the minimal revenue and the sigmoid, not the smaller. *)
Example fee_is_maximum :
  match sigmoid_fee sigmoid unit33 with Ok f => min_revenue sigmoid < f | Err _ => False end.
Proof. by vm_compute. Qed.

(** Numbers print with all their 33 decimal places. *)
Fixpoint frac_digits33 (k : nat) (x : Z) : str :=
  match k with
  | O => []
  | S k => digit_char (x * 10 / unit33) :: frac_digits33 k (x * 10 mod unit33)
  end.
#[local] Instance strings_unsigned : FixedStrings N := {
  number_from_str s :=
    match split_dot s with
    | [ip; fp] => let q := 10 ^ Z.of_nat (length fp) in fits ((2 * digits_value (ip ++ fp) * unit33 + q) / (2 * q))
    | _ => None
    end;
  number_to_string x :=
    u128_to_string (Z.of_N x / unit33) ++
    (if Z.of_N x mod unit33 =? 0 then [] else dot :: frac_digits33 33 (Z.of_N x mod unit33));
  frac x := Z.to_N (Z.of_N x mod unit33);
  int x := Z.to_N (Z.of_N x / unit33 * unit33);
  has_frac_bits := true;
  num_u128 x := Some (Z.of_N x / unit33);
}.

(** A balance of 1.01 comes back as 0.11: the zeros after the decimal point are lost
    when the digits are cut and parsed as a number. *)
Example leading_zeros_lost :
  (f ← number_from_decimal (F := N) 10100000000 10; Some (number_to_decimal f 10)) = Some (Ok 1100000000).
Proof. by vm_compute. Qed.
End RikiddoExample.
