(* ===== verification/TxFees.v ===== *)
(** * Transaction fees

    [runtime/common/src/fees.rs]: fees of transactions may be paid in a foreign asset,
    at a factor its issuer registered; the runtime withdraws the fee in advance and
    returns what the call did not use ([TokensTxCharger]). [xcm_config/fees.rs] of the
    runtimes applies the same factor to messages of other chains. *)
From S2P Require Import Prelude Types Errors Fixed SwapsMath Currencies Ledgers.

Inductive CustomTxError : Type :=
| FeeConversionArith | NoForeignAssetsOnStandaloneChain | NoAssetMetadata | NoFeeFactor
| NonForeignAssetPaid.
(** [TransactionValidityError], of which the code makes invalid transactions. *)
Inductive TxError : Type := Custom (e : CustomTxError) | Payment.
Abbreviation Tx := (result TxError).

(** What the code reads of the metadata of an asset. *)
Record AssetMetadata : Type := mk_AssetMetadata {
  decimals : Z;
  fee_factor : option Balance;
}.

(** The imbalances of [orml_tokens]: a credit is an asset and an amount. *)
Abbreviation Credit := (Asset * Balance)%type.
Class FungiblesBalanced (L : Type) := {
  tok_can_withdraw : Asset → AccountId → Balance → L → bool;
  tok_withdraw : Asset → AccountId → Balance → Store L Credit;
  (** Whether the credit was accepted; otherwise it is dropped. *)
  tok_resolve : AccountId → Credit → L → bool * L;
}.
Class FungiblesLaws (L : Type) `{AssetManager L, !FungiblesBalanced L} := {
  tok_withdraw_ok a x amt (l l' : L) c :
    0 ≤ amt → tok_withdraw a x amt l = (Ok c, l') →
    c = (a, amt) ∧ amt ≤ free_balance a x l ∧
    (∀ b z, free_balance b z l' = free_balance b z l - at_ (a, x) (b, z) amt);
  tok_withdraw_err a x amt (l l' : L) e : tok_withdraw a x amt l = (Err e, l') → l' = l;
  tok_resolve_spec x (c : Credit) (l l' : L) accepted :
    0 ≤ c.2 → tok_resolve x c l = (accepted, l') →
    ∀ b z, free_balance b z l' =
      free_balance b z l + (if accepted then at_ (c.1, x) (b, z) c.2 else 0);
}.

Section Fees.
Context {L : Type} `{AssetManager L, !FungiblesBalanced L}.
(** The registry of assets, the account of the treasury, and whether the runtime is
    that of a parachain. *)
Context (registry : Asset → option AssetMetadata) (treasury : AccountId) (parachain : bool).

Definition calculate_fee (native_fee factor : Balance) : Tx Balance :=
  match bmul native_fee factor with
  | Ok converted_fee => Ok converted_fee
  | Err _ => Err (Custom FeeConversionArith)
  end.

Definition get_fee_factor (currency_id : Asset) : Tx Balance :=
  metadata ← Prelude.ok_orR (registry currency_id) (Custom NoAssetMetadata);
  Prelude.ok_orR (fee_factor metadata) (Custom NoFeeFactor).

Definition to_asset_balance (native_fee : Balance) (asset_id : Z) : Tx Balance :=
  if (parachain : bool) then
    factor ← get_fee_factor (ForeignAsset asset_id);
    calculate_fee native_fee factor
  else Err (Custom NoForeignAssetsOnStandaloneChain).

(** [Imbalance::split]: at most the amount, and the rest. *)
Definition split (c : Credit) (amount : Balance) : Credit * Credit :=
  let first := Z.min (c.2) amount in ((c.1, first), (c.1, c.2 - first)).

(** [DealWithForeignFees::on_unbalanced]: everything to the treasury. *)
Definition handle_credit (final_fee : Credit) (l : L) : L := (tok_resolve treasury final_fee l).2.

(** A fee that rounds to zero is one unit. *)
Definition min_converted_fee (native_fee : Balance) : Balance := if native_fee =? 0 then 0 else 1.

Definition withdraw_fee (who : AccountId) (asset_id : Z) (native_fee : Balance) (l : L) : Tx Credit * L :=
  match to_asset_balance native_fee asset_id with
  | Err e => (Err e, l)
  | Ok converted =>
      let converted_fee := Z.max converted (min_converted_fee native_fee) in
      let currency_id := ForeignAsset asset_id in
      if tok_can_withdraw currency_id who converted_fee l then
        match tok_withdraw currency_id who converted_fee l with
        | (Ok c, l') => (Ok c, l')
        | (Err _, l') => (Err Payment, l')
        end
      else (Err Payment, l)
  end.

Definition correct_and_deposit_fee (who : AccountId) (corrected_native_fee tip : Balance) (paid : Credit)
    (l : L) : Tx unit * L :=
  match paid.1 with
  | ForeignAsset asset_id =>
      match to_asset_balance corrected_native_fee asset_id with
      | Err e => (Err e, l)
      | Ok converted =>
          let converted_fee := Z.max converted (min_converted_fee corrected_native_fee) in
          match to_asset_balance tip asset_id with
          | Err e => (Err e, l)
          | Ok converted_tip =>
              let '(final_fee, refund) := split paid converted_fee in
              let '(_, l1) := tok_resolve who refund l in
              (Ok tt, handle_credit final_fee l1)
          end
      end
  | _ => (Err (Custom NonForeignAssetPaid), l)
  end.

(** ** [DealWithFees]: fees and tips in the native token

    [ration] of an imbalance is Substrate's; a dropped imbalance is burnt. *)
Definition FEES_AND_TIPS_TREASURY_PERCENTAGE : Z := 100.
Definition FEES_AND_TIPS_BURN_PERCENTAGE : Z := 0.
Definition on_unbalanceds (ration : Balance → Z → Z → Balance * Balance) (to_treasury : Balance → L → L)
    (fees_then_tips : list Balance) (l : L) : L :=
  match fees_then_tips with
  | [] => l
  | fees :: rest =>
      let fees := match rest with tips :: _ => fees + tips | [] => fees end in
      let parts := ration fees FEES_AND_TIPS_TREASURY_PERCENTAGE FEES_AND_TIPS_BURN_PERCENTAGE in
      to_treasury parts.1 l
  end.

(** ** Theorems *)
Context `{!FungiblesLaws L}.

Lemma bmul_fits x y r : bmul x y = Ok r → x * y + BASE / 2 ≤ u128_max ∧ r = (x * y + BASE / 2) / BASE.
Proof. intros Hr. unfold Fixed.bmul in Hr. run_inv Hr. checked. done. Qed.

(** A smaller fee converts when a larger one does. *)
Lemma bmul_mono x y f r :
  0 ≤ x ≤ y → 0 ≤ f → bmul y f = Ok r → ∃ q, bmul x f = Ok q ∧ 0 ≤ q ≤ r.
Proof.
  intros Hx Hf Hr. apply bmul_fits in Hr as [Hfit ->]. assert (0 < BASE) by done.
  assert (0 ≤ BASE / 2) by done. assert (x * f ≤ y * f) by nia.
  eexists. split; [apply bmul_run; lia|]. split; [apply Z.div_pos; nia|apply Z.div_le_mono; lia].
Qed.

Lemma to_asset_balance_mono x y asset_id r :
  0 ≤ x ≤ y → (∀ a m f, registry a = Some m → fee_factor m = Some f → 0 ≤ f) →
  to_asset_balance y asset_id = Ok r → ∃ q, to_asset_balance x asset_id = Ok q ∧ 0 ≤ q ≤ r.
Proof.
  intros Hx Hreg. unfold to_asset_balance, get_fee_factor, calculate_fee. destruct parachain; [|done].
  destruct (registry (ForeignAsset asset_id)) as [m|] eqn:Hm; [|done]. cbn.
  destruct (fee_factor m) as [f|] eqn:Hf; [|done]. cbn. specialize (Hreg _ _ _ Hm Hf).
  destruct (bmul y f) as [r'|] eqn:Hr; [|done]. intros [= <-].
  destruct (bmul_mono x y f r' Hx Hreg Hr) as (q & -> & Hq). eauto.
Qed.

(** (C39) A fee that was withdrawn can always be corrected. The fee that is kept is the
    converted fee of what the call used, at least one unit and at most what was
    withdrawn. The payer ends up paying it, and the treasury receives it; when the
    ledger does not accept the refund the payer loses all that was withdrawn, and what
    the treasury is not given is burnt. Nobody else's balance changes. *)
Theorem fee_settled who asset_id native corrected tip paid (l l1 : L) :
  (∀ a m f, registry a = Some m → fee_factor m = Some f → 0 ≤ f) →
  0 ≤ corrected ≤ native → 0 ≤ tip ≤ native →
  withdraw_fee who asset_id native l = (Ok paid, l1) →
  ∃ converted, to_asset_balance corrected asset_id = Ok converted ∧
    let final := Z.max converted (min_converted_fee corrected) in
    let refund := tok_resolve who (ForeignAsset asset_id, paid.2 - final) l1 in
    let deposit := tok_resolve treasury (ForeignAsset asset_id, final) refund.2 in
    0 ≤ final ≤ paid.2 ∧ (0 < corrected → 0 < final) ∧
    correct_and_deposit_fee who corrected tip paid l1 = (Ok tt, deposit.2) ∧
    ∀ b z, free_balance b z deposit.2 =
      free_balance b z l
      - at_ (ForeignAsset asset_id, who) (b, z) (if refund.1 then final else paid.2)
      + at_ (ForeignAsset asset_id, treasury) (b, z) (if deposit.1 then final else 0).
Proof.
  intros Hreg Hc Ht Hw. unfold withdraw_fee in Hw.
  destruct (to_asset_balance native asset_id) as [native_converted|] eqn:Hn; [|done].
  set (first := Z.max native_converted (min_converted_fee native)) in *.
  destruct (tok_can_withdraw _ _ _ _); [|done].
  destruct (tok_withdraw (ForeignAsset asset_id) who first l) as [[c|] l'] eqn:Hwd; [|done].
  injection Hw as -> ->. assert (0 ≤ first) as Hfirst.
  { unfold first, min_converted_fee. destruct (native =? 0); lia. }
  apply tok_withdraw_ok in Hwd as (-> & _ & Hf1); [|done]. cbn [snd].
  destruct (to_asset_balance_mono corrected native asset_id _ Hc Hreg Hn) as (converted & Hconv & Hle).
  destruct (to_asset_balance_mono tip native asset_id _ Ht Hreg Hn) as (converted_tip & Htip & _).
  exists converted. split; [done|]. cbv zeta.
  set (final := Z.max converted (min_converted_fee corrected)).
  assert (0 ≤ final ≤ first) as Hfin.
  { unfold final, first, min_converted_fee. destruct (Z.eqb_spec corrected 0), (Z.eqb_spec native 0); lia. }
  split; [done|]. split; [intros Hpos; unfold final, min_converted_fee; destruct (Z.eqb_spec corrected 0); lia|].
  unfold correct_and_deposit_fee, handle_credit. cbn [fst]. rewrite Hconv, Htip. cbn [split fst snd].
  fold final. rewrite Z.min_r by lia.
  destruct (tok_resolve who (ForeignAsset asset_id, first - final) l1) as [refunded l2] eqn:H1.
  cbn [fst snd]. split; [done|].
  destruct (tok_resolve treasury (ForeignAsset asset_id, final) l2) as [received l3] eqn:H2.
  assert (0 ≤ (ForeignAsset asset_id, first - final).2 ∧ 0 ≤ (ForeignAsset asset_id, final).2) as [P1 P2]
    by (cbn; lia).
  pose proof (tok_resolve_spec _ _ _ _ _ P1 H1) as Hf2. pose proof (tok_resolve_spec _ _ _ _ _ P2 H2) as Hf3.
  intros b z. cbn [fst snd] in *. rewrite Hf3, Hf2, Hf1. unfold at_.
  destruct refunded, received; repeat destruct (decide _); lia.
Qed.
End Fees.

(** ** Fees of messages ([xcm_config/fees.rs]) *)
Section XcmFees.
(** The weight of one second and of an empty extrinsic. *)
Context (WEIGHT_REF_TIME_PER_SECOND base_weight : Z).
(** [BalanceFractionalDecimals] *)
Definition native_decimals : Z := DECIMALS.

Definition saturating_pow10 (n : Z) : Balance := Z.min u128_max (10 ^ n).
Definition dollar (d : Z) : Balance := saturating_pow10 d.
Definition cent (d : Z) : Balance := dollar d / 100.
Definition base_fee (d : Z) : Balance := cent d / 10.
Definition default_per_second (d : Z) : Balance :=
  WEIGHT_REF_TIME_PER_SECOND / base_weight * base_fee d.
Definition native_per_second : Balance := default_per_second native_decimals.

Definition checked_pow10 (n : Z) : option Z := if 10 ^ n <=? u128_max then Some (10 ^ n) else None.

Definition get_fee_per_second {Location} (metadata_by_location : Location → option AssetMetadata)
    (location : Location) : option Z :=
  metadata ← metadata_by_location location;
  fee_unadjusted ← match fee_factor metadata with
                   | Some factor => match bmul native_per_second factor with Ok x => Some x | Err _ => None end
                   | None => Some native_per_second
                   end;
  if decimals metadata <? native_decimals then
    power ← checked_pow10 (native_decimals - decimals metadata);
    Some (fee_unadjusted / power)
  else
    power ← checked_pow10 (decimals metadata - native_decimals);
    if fee_unadjusted * power <=? u128_max then Some (fee_unadjusted * power) else None.
End XcmFees.

(** ** Example *)
Module TxFeesExample.

#[local] Instance ledger_fungibles : FungiblesBalanced Ledger := {
  tok_can_withdraw a x amt l := amt <=? free_balance a x l;
  tok_withdraw a x amt l :=
    match withdraw a x amt l with
    | (Ok _, l') => (Ok (a, amt), l')
    | (Err e, l') => (Err e, l')
    end;
  tok_resolve x c l :=
    if minimum_balance c.1 <=? free_balance c.1 x l + c.2 then (true, (deposit c.1 x c.2 l).2) else (false, l);
}.
#[local] Instance ledger_fungibles_laws : FungiblesLaws Ledger.
Proof.
  split.
  - intros a x amt l l' c Hamt Hw. cbn -[withdraw] in Hw.
    destruct (withdraw a x amt l) as [[u|e] l''] eqn:Hr; [|done]. injection Hw as <- <-.
    apply withdraw_ok in Hr as (? & ? & _); done.
  - intros a x amt l l' e Hw. cbn in Hw. destruct (amt <=? _); naive_solver.
  - intros x c l l' accepted Hc Hr. cbn -[deposit minimum_balance free_balance] in Hr.
    destruct (_ <=? _); injection Hr as <- <-; [|intros; lia].
    assert (deposit c.1 x c.2 l = (Ok tt, (deposit c.1 x c.2 l).2)) as Hd by reflexivity.
    by apply deposit_ok in Hd as [? _].
Qed.

(** Half a unit of the asset per native token. *)
Definition dot_registry (a : Asset) : option AssetMetadata :=
  if decide (a = ForeignAsset 0) then Some (mk_AssetMetadata 10 (Some (BASE / 2))) else None.
Definition payer : AccountId := 1.
Definition treasury_account : AccountId := 2.
Definition purse : Ledger := led_move_free (ForeignAsset 0) payer 1000 empty_ledger.
Definition withdrawn : Ledger := (withdraw_fee dot_registry true payer 0 400 purse).2.

Lemma fee_settled_witness :
  ∃ l2, correct_and_deposit_fee dot_registry treasury_account true payer 100 0 (ForeignAsset 0, 200)
      withdrawn = (Ok tt, l2) ∧
    free_balance (ForeignAsset 0) payer l2 = 950 ∧ free_balance (ForeignAsset 0) treasury_account l2 = 50.
Proof.
  destruct (fee_settled dot_registry treasury_account true payer 0 400 100 0 (ForeignAsset 0, 200) purse
    withdrawn) as (converted & Hc & _ & _ & Hr & Hf).
  - intros a m f Hm Hf. unfold dot_registry in Hm. destruct (decide _); [|done]. injection Hm as <-.
    injection Hf as <-. done.
  - lia.
  - lia.
  - vm_compute. reflexivity.
  - vm_compute in Hc. injection Hc as <-. eexists. split; [exact Hr|]. rewrite !Hf. clear. vm_compute. split; reflexivity.
Defined.

(** Whoever spent everything on a fee of 200 does not get 2 back. *)
Example refund_dropped :
  let l1 := (withdraw_fee dot_registry true payer 0 400 (led_move_free (ForeignAsset 0) payer 200 empty_ledger)).2 in
  let l2 := (correct_and_deposit_fee dot_registry treasury_account true payer 396 0 (ForeignAsset 0, 200) l1).2 in
  free_balance (ForeignAsset 0) payer l2 = 0 ∧ free_balance (ForeignAsset 0) treasury_account l2 = 198.
Proof. by vm_compute. Qed.
End TxFeesExample.
